(* ===== verification/_CoqProject ===== *)
-Q . S2P
Prelude.v
Bytes.v
Crc.v
Wal.v
Cursor.v
Command.v
Versions.v
TxnLog.v
Mvcc.v
LogFaults.v
MvccSpec.v
MvccRecovery.v
RaftNode.v
RaftDurable.v
RaftRules.v
Transport.v
RaftCluster.v
Election.v
Linearizability.v
Page.v
Pager.v
BTree.v
BTreeSpec.v
BTreeFile.v
SnapshotSpec.v
Store.v
StoreSpec.v
SqlAst.v
SqlLexer.v
SqlParser.v
SqlTotal.v
SqlPrint.v
SqlText.v
Catalog.v
CatalogSpec.v
Kv.v
Executor.v
Engine.v
ExecutorSpec.v
ExecutorSim.v
QuerySpec.v
FilterSpec.v
TableSpec.v
SqlWords.v
EngineSpec.v
SqlRecovery.v
Words.v
Frame.v
Server.v
ServerText.v
ServerSpec.v
TcpCluster.v
TcpReads.v
Connection.v
Client.v
RaftElects.v
RaftLogs.v
RaftSteps.v
RaftSafety.v
RaftAgreement.v
RaftCrash.v
RaftConsensus.v
RaftReplicates.v
RaftLiveness.v
RaftProgress.v
Cli.v
CliSpec.v
