(* ===== verification/Prelude.v ===== *)
(** * nutdb: a verification development

    nutdb (the Rust crate under src/) is a small database: a key-value store
    that survives crashes, a multi-version transactional store with a SQL engine
    on top of it, a simulated Raft cluster, and a replicated cluster over TCP.
    This library models the crate's code as executable definitions and proves
    what its parts promise.

    ** How the code is modelled

    A function that cannot fail is a Rocq function.  A fallible one returns
    [io A]: [Ok], an [io_error] with the source's kind and message, or a [Panic],
    the source's panics (an index out of bounds, a failed [expect]) kept apart so
    that their absence can be stated.  A method that changes its object is a
    computation [M S E A] over the object's state, written with the notation of
    a monad in the order of the source's statements; an early return or a [?] in
    the middle leaves the state as it is there.  Machine integers are [Z] with
    their range and their wrap-around or checked arithmetic written out; a
    [String] is the list of its UTF-8 bytes; a [BTreeMap] is a [gmap] whose
    iterations are sorted.

    What the operating system may do is an input of the model.  A [file]
    (Wal.v) has the bytes a reader sees, the bytes that are durable, and a script
    that says which of the coming system calls fail, and how much of a failing
    write was done; a crash leaves some contents between the durable and the
    written ones ([crash_image]).  A directory (BTreeFile.v) has its files, what
    a crash may fall back to until it is synced, and a script too.  The network
    is the list of the answers to come (Server.v), the bytes that arrive on a
    connection (Frame.v) or a set of blocked links (Transport.v).  Theorems
    quantify over all of these unless they say otherwise.

    ** The parts, bottom up

    - Bytes and checksums.  Bytes.v, Crc.v (src/src/crc.rs): the table-free
      CRC-32 equals the bit-serial one and tells apart payloads that differ
      within four bytes.
    - Write-ahead log.  Wal.v (wal.rs), over Cursor.v (the cursors of the three
      decoders) and Command.v (command.rs).  Replay returns exactly the longest
      run of intact records of any file, however its reads are cut, and says
      whether something followed; what was synced survives a crash.
    - Pages.  Page.v (page.rs), Pager.v (pager.rs).  A page reads back as the
      cells put into it; the pager reads every page as it was last written,
      across evictions and failing writes, and a flush makes it durable.
    - B-tree.  BTree.v (btree.rs), BTreeSpec.v: the arena of nodes refines a
      sorted list of entries, and a lookup visits logarithmically many nodes.
      BTreeFile.v, SnapshotSpec.v: a saved tree loads as itself, and a save
      interrupted anywhere leaves the old snapshot or the new one.
    - Key-value store.  Store.v (store.rs), StoreSpec.v: the log, the snapshot
      and the index together refine a map; an acknowledged mutation survives
      every crash after it, and an interrupted batch leaves a prefix.
    - Transactions.  Versions.v (version.rs, gc.rs), TxnLog.v and Mvcc.v
      (txn.rs).  MvccSpec.v: the store refines snapshot isolation over a history
      of commits, first committer wins, snapshots never change, collection
      removes exactly the versions deleted before every snapshot.  LogFaults.v: a
      method fails only with what the log file's system calls report.
      MvccRecovery.v: committed transactions, and nothing else, are there after a
      crash and a reopening; but not after a commit whose sync failed was
      followed by one that succeeded.
    - Raft.  RaftNode.v (raft/state.rs, raft/rpc.rs), RaftDurable.v (one vote per
      term across crashes; the state survives), RaftRules.v (what AppendEntries
      and the commit rule do on every branch, errors included), Transport.v (raft/transport.rs),
      RaftCluster.v (raft/mod.rs), Election.v (one leader per term, for every
      sequence of operations and failures).  RaftLogs.v (log matching and leader
      completeness over the logs of the leaders, as ghost state), RaftSteps.v
      (what a node keeps with each request), RaftSafety.v and RaftAgreement.v
      (what each operation of the cluster keeps), RaftCrash.v (what the files
      give back after a crash) and RaftConsensus.v (applied commands form one
      sequence; an acknowledged one stays in its place; crashes included, under
      the two conditions given below).  RaftElects.v, RaftReplicates.v,
      RaftLiveness.v and RaftProgress.v (in every state a cluster reaches under
      the same conditions, a connected majority whose disks work elects a leader,
      and what it is given is committed and applied on all of it).  Linearizability.v
      (linearizability.rs): the history checker decides linearizability.
    - SQL text.  SqlAst.v (sql/ast.rs), SqlLexer.v (sql/lexer.rs), SqlParser.v
      (sql/parser.rs); SqlTotal.v (every text of valid UTF-8 is answered with
      statements or a positioned error, and sliced only between characters),
      SqlPrint.v and SqlText.v (parsing inverts printing), SqlWords.v (what a
      parsed script can contain).
    - SQL execution.  Catalog.v and CatalogSpec.v (catalog.rs: schema and row
      codecs), Kv.v (the interface between the executor and transactions, with
      its laws, its reference implementation and one whose writes fail by a
      script), Executor.v (sql/plan.rs, sql/executor.rs), ExecutorSim.v (over
      every implementation a statement answers as over a map whose writes fail
      when it says so), QuerySpec.v (the meaning of a query, in terms of the
      lines and columns it asks for and the order of values, and that the
      iterator has it), FilterSpec.v (a typed filter evaluates, to its meaning in
      three-valued logic), ExecutorSpec.v and TableSpec.v (what each statement
      changes and answers; the access path chosen changes no answer, except that
      it refuses a literal of the wrong type at once), Engine.v and EngineSpec.v
      (SqlEngine over the transactional store refines sessions over maps: data
      statements as over a map, COMMIT never refused for a conflict), SqlRecovery.v
      (the same through power cuts in the middle of scripts, each followed by a
      reopening).
    - TCP cluster.  Words.v (the standard library's text functions it uses),
      Server.v and ServerText.v (server.rs), ServerSpec.v (records only move
      forward, whatever peers answer), TcpCluster.v (several nodes whose requests
      interleave, are lost, handled late, or cut short by a restart: an
      acknowledged write is on a majority), TcpReads.v (a read whose quorum
      answers finds what was acknowledged before it, and when it does not),
      Client.v (client.rs).  Frame.v (the frames of raft/transport.rs, over any
      reader and writer) and Connection.v (both ends of a connection and the
      server's loop: an exchange over a connection is one of TcpCluster.v).
    - Command line.  Cli.v (main.rs), CliSpec.v: runs of set, get and list act on
      the data directory as on a map, power failures inside a set included.

    The parts meet at interfaces: the executor is proved against the laws of
    [KvTxn], which Engine.v's instance (the transactional store) and a plain map
    both satisfy; the server is proved against [Records], with the key-value
    store and a map as instances; the store's theorems use the log only through
    [replays] and the B-tree only through [shape].

    ** Kinds of theorems

    Refinements of an abstract specification: the B-tree, the pager, the store,
    the transactional store, the SQL engine.  Safety over every schedule of
    operations, failures and crashes: durability of the log, the store and the
    transactions, SQL sessions through power cuts, atomic saves, one vote and one
    leader per term, one sequence of applied commands, acknowledged writes of
    the TCP cluster.  Functional correctness of single routines on every branch,
    and equivalence with a reference definition: replay, CRC, Raft's rules,
    queries, the planner, the linearizability checker.  Round trips: pages, rows, Raft
    state, SQL text.  Termination and progress: the parser answers every input,
    a client request makes boundedly many requests, a connected majority makes
    progress.  A few theorems, and some runs given as examples, show where the
    code falls short of what its comments or tests expect; they are listed below.

    ** Fuel

    Loops that the source bounds by data run on fuel that is computed from the
    same data, and a theorem says that it is enough: [replay_loop] on one more
    than the file's length, the reads of [read_loop] on the bytes wanted and the
    script of interruptions, the B-tree's descents on the number of nodes (a
    well-formed tree is not deeper), the lexer on the bytes left and the parser
    on the tokens left (each round consumes one), [materialize] on the rows of
    its source, the checker's search on one more than the number of events.
    Running out of fuel is a [Panic] of its own (in the checker, a refusal), so a
    theorem that a routine does not panic, or decides, covers it.

    ** What modelling showed

    - btree.rs: publishing a snapshot first removes the backup, even when a crash
      between the two renames of an earlier checkpoint has left it as the only
      snapshot, so two interrupted checkpoints lose data (StoreSpec.v);
      checkpoints of a store opened by a bare file name never sync the directory.
    - wal.rs: after a partial write the next records land behind the torn one and
      are lost by replay; zero bytes after the last record replay as empty
      records.
    - txn.rs: a commit whose sync failed leaves its record in the log, and the
      next commit then makes the log unreadable (MvccRecovery.v).
    - raft/state.rs: AppendEntries truncates a follower's log even when nothing
      conflicts, so a delayed request removes committed entries (RaftRules.v); a
      vote whose sync failed is granted on a retry without being durable.
    - raft/mod.rs: [synchronize] does not ask whether its node leads, and on a
      follower it overwrites committed entries (RaftConsensus.v); the theorems
      on agreement take its callers to give it a leader, as the tests do.
    - sql/executor.rs: an UPDATE that fails half way inside BEGIN leaves its
      first rows changed in the transaction.  sql/plan.rs: an equality of the key
      with a literal of another type is refused by the lookup on tables where a
      scan, meeting no row to compare, would answer (TableSpec.v).
    - server.rs: an empty value makes a REPL request of four words, which peers
      refuse, so among two nodes or more a DELETE is never acknowledged; a peer
      that answers PING but not DUMP is passed over by the catch-up, which can
      lose an acknowledged write (TcpCluster.v).  A staged copy replaces the
      committed record and hides it from later reads when its write is not
      committed; two nodes that reach a majority but not each other both lead,
      and may acknowledge different writes at one version (TcpReads.v).  A
      response of more than 16 MiB is never sent, so a large store's dumps are
      not answered (Connection.v).
    - client.rs: a redirect to a node the client does not know panics.
    - main.rs: a client command without its nodes is reported as one of serve.

    ** Bounds of the model, and what is not modelled

    - The operating system's sockets: what the listener accepts, the bytes that
      arrive and how a connection ends (closed or timed out) are given
      (Connection.v), and so are the answers of the nodes' and the client's own
      requests; the sleeps of an idle server and between a client's attempts are
      left out.  TcpCluster.v fixes the answers of an operation when it starts
      and then demands that each of them is what happens, which is no restriction
      on schedules.
    - Of the command line, the demonstration (its last lines print keys in Rust's
      debug notation); a socket address is what a given parser makes of its text,
      the file names are fixed ones in one directory.
      The benchmark (bench.rs: timing and threads) and the crate root (lib.rs).
    - Concurrency inside a process: [MvccStore] takes its mutex for the whole of
      every method, so interleavings of threads are sequences of methods; lock
      poisoning is left out because no method panics with the lock held.
    - The Windows code path of the snapshot's publication ([cfg(windows)]) and
      the stubs for other systems.
    - The write-ahead log's own directory entry: the source never syncs it, and
      the model takes a created log file to exist after a crash.
    - The machine's stack: deep parentheses overflow it in the source, while the
      parser here has no depth limit; and memory: no allocation fails.
    - [HashMap] iteration order, where the source's result does not depend on it.
    - Raft's agreement and progress are stated of clusters in which [synchronize]
      is only called on a node that leads, and whose files were in order before
      the operation that a crash cut: a node that goes on after a failed write
      may acknowledge what its file does not have (above).  The commands of
      [applied] are the simulation's, kept in memory.
    - A crash inside a checkpoint is considered when the snapshot, if any, is in
      place under its own name (above). *)

From stdpp Require Export base tactics list gmap strings sorting.
From stdpp Require Export pretty.
From Stdlib Require Export ZArith Lia.

(** ** Errors and fallible computations

    [std::io::Error] carries a kind and a message; both are kept, since the
    source matches on kinds and its diagnostics are part of its contract.  A
    Rust panic (an index out of range, a failed [expect]) is a third outcome,
    so that its absence can be stated. *)

Inductive error_kind : Type :=
| NotFound | InvalidInput | InvalidData | WriteZero | WouldBlock
| NotConnected | TimedOut | UnexpectedEof | Other.

Record io_error : Type := IoError { err_kind : error_kind; err_msg : string }.

Inductive result (E A : Type) : Type :=
| Ok (a : A)
| Err (e : E)
| Panic (msg : string).
Arguments Ok {_ _} _.
Arguments Err {_ _} _.
Arguments Panic {_ _} _.

Abbreviation io := (result io_error).

#[export] Instance error_kind_eq_dec : EqDecision error_kind.
Proof. solve_decision. Defined.
#[export] Instance io_error_eq_dec : EqDecision io_error.
Proof. solve_decision. Defined.
#[export] Instance result_eq_dec `{EqDecision E, EqDecision A} : EqDecision (result E A).
Proof. solve_decision. Defined.

Definition invalid_data (msg : string) : io_error := IoError InvalidData msg.
Definition invalid_input (msg : string) : io_error := IoError InvalidInput msg.

#[export] Instance result_ret E : MRet (result E) := λ A a, Ok a.
#[export] Instance result_bind E : MBind (result E) := λ A B f m,
  match m with Ok a => f a | Err e => Err e | Panic s => Panic s end.

(** [Option::ok_or_else], [Result::map_err], and an indexing that panics. *)
Definition ok_or {E A} (o : option A) (e : E) : result E A :=
  match o with Some a => Ok a | None => Err e end.
Definition map_err {E F A} (f : E → F) (r : result E A) : result F A :=
  match r with Ok a => Ok a | Err e => Err (f e) | Panic s => Panic s end.
Definition index {E A} (l : list A) (i : nat) : result E A :=
  match l !! i with Some a => Ok a | None => Panic "index out of bounds" end.
Definition is_ok {E A} (r : result E A) : bool :=
  match r with Ok _ => true | _ => false end.
Definition is_err {E A} (r : result E A) : bool :=
  match r with Err _ => true | _ => false end.

(** [iter.map(f).collect::<Result<Vec<_>, _>>()]: left to right, stopping at
    the first failure. *)
Fixpoint try_map {E A B} (f : A → result E B) (l : list A) : result E (list B) :=
  match l with
  | [] => Ok []
  | a :: l => b ← f a; bs ← try_map f l; Ok (b :: bs)
  end.

Lemma bind_ok {E A B} (m : result E A) (f : A → result E B) b :
  m ≫= f = Ok b ↔ ∃ a, m = Ok a ∧ f a = Ok b.
Proof.
  destruct m; cbn; (split; [intros Hf|intros (? & [=] & ?)]); subst; eauto; discriminate.
Qed.

Lemma ok_inj {E A} (a b : A) : Ok (E:=E) a = Ok b → a = b.
Proof. by intros [=]. Qed.

Lemma ok_or_ok {E A} (o : option A) (e : E) a : ok_or o e = Ok a ↔ o = Some a.
Proof. destruct o; naive_solver. Qed.

Lemma map_err_ok {E F A} (f : E → F) (r : result E A) a :
  map_err f r = Ok a ↔ r = Ok a.
Proof. destruct r; naive_solver. Qed.

Lemma index_ok {E A} (l : list A) i a : index (E:=E) l i = Ok a ↔ l !! i = Some a.
Proof. unfold index. case_match; naive_solver. Qed.

Lemma index_lt {E A} (l : list A) i :
  i < length l → ∃ a, index (E:=E) l i = Ok a ∧ l !! i = Some a.
Proof.
  intros [a Ha]%lookup_lt_is_Some. exists a. by rewrite index_ok.
Qed.

Lemma try_map_ok {E A B} (f : A → result E B) l bs :
  try_map f l = Ok bs ↔ Forall2 (λ a b, f a = Ok b) l bs.
Proof.
  revert bs. induction l as [|a l IH]; intros bs; cbn.
  - split; [intros [= <-]; constructor | by inversion 1].
  - rewrite bind_ok. split.
    + intros (b & Hb & (bs' & Hl & [= <-])%bind_ok). constructor; [done|by apply IH].
    + inversion 1; subst. eexists; split; [done|].
      apply bind_ok. eexists; split; [by apply IH|done].
Qed.

(** ** State and failure together: a method taking [&mut self].  The state
    survives an error, as it does in the source. *)
Definition M (S E A : Type) : Type := S → result E A * S.

#[export] Instance M_ret S E : MRet (M S E) := λ A a s, (Ok a, s).
#[export] Instance M_bind S E : MBind (M S E) := λ A B f m s,
  match m s with
  | (Ok a, s') => f a s'
  | (Err e, s') => (Err e, s')
  | (Panic p, s') => (Panic p, s')
  end.

Definition fail {S E A} (e : E) : M S E A := λ s, (Err e, s).
Definition panic {S E A} (p : string) : M S E A := λ s, (Panic p, s).
Definition get_state {S E} : M S E S := λ s, (Ok s, s).
Definition modify {S E} (f : S → S) : M S E unit := λ s, (Ok tt, f s).
Definition lift {S E A} (r : result E A) : M S E A := λ s, (r, s).
Definition guard {S E} (b : bool) (e : E) : M S E unit :=
  λ s, if b then (Ok tt, s) else (Err e, s).

(** Run a method of a field: the sub-state is read, updated and put back. *)
Definition zoom {S T E A} (get : S → T) (set : T → S → S) (m : M T E A) : M S E A :=
  λ s, let '(r, t) := m (get s) in (r, set t s).

(** [for x in l { body }]: stops at the first failure, keeping the state. *)
Fixpoint for_each {S E A} (l : list A) (body : A → M S E unit) : M S E unit :=
  match l with
  | [] => mret tt
  | a :: l => _ ← body a; for_each l body
  end.

Lemma M_bind_ok {S E A B} (m : M S E A) (f : A → M S E B) s b s' :
  (m ≫= f) s = (Ok b, s') ↔ ∃ a s1, m s = (Ok a, s1) ∧ f a s1 = (Ok b, s').
Proof.
  unfold mbind, M_bind.
  destruct (m s) as [[] ?]; (split; [intros Hf|intros (? & ? & [=] & ?)]);
    subst; eauto; discriminate.
Qed.

Lemma M_bind_run {S E A B} (m : M S E A) (f : A → M S E B) s a s1 :
  m s = (Ok a, s1) → (m ≫= f) s = f a s1.
Proof. intros H. unfold mbind, M_bind. by rewrite H. Qed.

Lemma M_bind_err {S E A B} (m : M S E A) (f : A → M S E B) s e s1 :
  m s = (Err e, s1) → (m ≫= f) s = (Err e, s1).
Proof. intros H. unfold mbind, M_bind. by rewrite H. Qed.

Lemma M_bind_panic {S E A B} (m : M S E A) (f : A → M S E B) s p s1 :
  m s = (Panic p, s1) → (m ≫= f) s = (Panic p, s1).
Proof. intros H. unfold mbind, M_bind. by rewrite H. Qed.

(** Running one primitive step. *)
Lemma run_get {S E B} (f : S → M S E B) s : (get_state ≫= f) s = f s s.
Proof. reflexivity. Qed.
Lemma run_modify {S E B} (g : S → S) (f : unit → M S E B) s : (modify g ≫= f) s = f tt (g s).
Proof. reflexivity. Qed.
Lemma run_lift_ok {S E A B} (a : A) (f : A → M S E B) s : (lift (Ok a) ≫= f) s = f a s.
Proof. reflexivity. Qed.
Lemma run_lift_err {S E A B} (e : E) (f : A → M S E B) s : (lift (Err e) ≫= f) s = (Err e, s).
Proof. reflexivity. Qed.
Lemma run_ret {S E A B} (a : A) (f : A → M S E B) s : (mret a ≫= f) s = f a s.
Proof. reflexivity. Qed.
Lemma run_fail {S E A B} (e : E) (f : A → M S E B) s : (fail e ≫= f) s = (Err e, s).
Proof. reflexivity. Qed.
Lemma run_guard_ok {S E B} e (f : unit → M S E B) s : (guard true e ≫= f) s = f tt s.
Proof. reflexivity. Qed.
Lemma run_guard_err {S E B} e (f : unit → M S E B) s : (guard false e ≫= f) s = (Err e, s).
Proof. reflexivity. Qed.
Lemma run_bind {S E A B C} (m : M S E A) (f : A → M S E B) (g : B → M S E C) s :
  ((m ≫= f) ≫= g) s = (m ≫= λ a, f a ≫= g) s.
Proof. unfold mbind, M_bind. by destruct (m s) as [[] ?]. Qed.

(** A property of the state that a computation preserves, whatever it returns. *)
Definition stable {S E A} (P : S → Prop) (m : M S E A) : Prop := ∀ s, P s → P (snd (m s)).

Lemma stable_ret {S E A} (P : S → Prop) (a : A) : stable P (mret a : M S E A).
Proof. by intros s. Qed.
Lemma stable_get {S E} (P : S → Prop) : stable P (get_state : M S E S).
Proof. by intros s. Qed.
Lemma stable_fail {S E A} (P : S → Prop) (e : E) : stable P (fail e : M S E A).
Proof. by intros s. Qed.
Lemma stable_panic {S E A} (P : S → Prop) s : stable P (panic s : M S E A).
Proof. by intros s'. Qed.
Lemma stable_lift {S E A} (P : S → Prop) (r : result E A) : stable P (lift r : M S E A).
Proof. by intros s. Qed.
Lemma stable_guard {S E} (P : S → Prop) b (e : E) : stable P (guard b e : M S E unit).
Proof. intros s. unfold guard. by destruct b. Qed.
Lemma stable_modify {S E} (P : S → Prop) f : (∀ s, P s → P (f s)) → stable P (modify f : M S E unit).
Proof. intros H s. apply H. Qed.
Lemma stable_bind {S E A B} (P : S → Prop) (m : M S E A) (f : A → M S E B) :
  stable P m → (∀ a, stable P (f a)) → stable P (m ≫= f).
Proof.
  intros Hm Hf s Hs. specialize (Hm s Hs). unfold mbind, M_bind.
  destruct (m s) as [[a|e|p] s']; cbn in *; [by apply Hf|done..].
Qed.
Lemma stable_for_each {S E A} (P : S → Prop) (l : list A) (body : A → M S E unit) :
  (∀ a, stable P (body a)) → stable P (for_each l body).
Proof. intros H. induction l; [apply stable_ret|]. by apply stable_bind. Qed.
Lemma stable_zoom {S T E A} (P : S → Prop) (Q : T → Prop) get set (m : M T E A) :
  stable Q m → (∀ s, P s → Q (get s)) → (∀ s t, P s → Q t → P (set t s)) → stable P (zoom get set m).
Proof.
  intros Hm Hg Hs s HP. unfold zoom. specialize (Hm (get s) (Hg s HP)). destruct (m (get s)). by apply Hs.
Qed.

Create HintDb stable discriminated.
#[export] Hint Resolve stable_ret stable_get stable_fail stable_panic stable_lift stable_guard
  stable_for_each : stable.

(** Follow the structure of a computation. *)
Ltac stable_tac :=
  repeat first
    [ progress intros
    | solve [eauto with stable]
    | match goal with |- stable _ (_ ≫= _) => apply stable_bind end
    | match goal with |- stable _ (for_each _ _) => apply stable_for_each end
    | match goal with |- stable _ (modify _) => apply stable_modify; solve [auto | done] end
    | match goal with |- stable _ (if ?b then _ else _) => destruct b end
    | match goal with |- stable _ (match ?x with _ => _ end) => destruct x end ].

Create Rewrite HintDb run.
#[export] Hint Rewrite @run_get @run_modify @run_lift_ok @run_lift_err @run_ret @run_fail
  @run_guard_ok @run_guard_err : run.

(** ** Shared tactics *)

Ltac run_steps := autorewrite with run; cbv beta zeta.
Tactic Notation "run_steps" "in" hyp(H) := autorewrite with run in H; cbv beta zeta in H.

(** Take apart a successful run: every [x ← m; k = Ok _] in the context. *)
Ltac invert_ok :=
  repeat match goal with
  | H : Ok _ = Ok _ |- _ => apply ok_inj in H; try subst
  | H : (_, _) = (_, _) |- _ => apply pair_eq in H as [? ?]; try subst
  | H : Err _ = Ok _ |- _ => discriminate H
  | H : Ok _ = Err _ |- _ => discriminate H
  | H : Panic _ = Ok _ |- _ => discriminate H
  | H : Ok _ = Panic _ |- _ => discriminate H
  | H : mret _ = Ok _ |- _ => change (Ok _ = Ok _) in H
  | H : _ ≫= _ = Ok _ |- _ => apply bind_ok in H as (? & ? & ?)
  | H : ok_or _ _ = Ok _ |- _ => apply ok_or_ok in H
  | H : map_err _ _ = Ok _ |- _ => apply map_err_ok in H
  end.

Ltac destruct_ifs :=
  repeat match goal with
  | H : context [if ?b then _ else _] |- _ => destruct b eqn:?
  | |- context [if ?b then _ else _] => destruct b eqn:?
  end.

(** Boolean tests on integers, as facts. *)
Ltac zify_bools :=
  repeat match goal with
  | H : (_ && _) = true |- _ => apply andb_true_iff in H as [? ?]
  | H : (_ || _) = false |- _ => apply orb_false_iff in H as [? ?]
  | H : negb _ = true |- _ => apply negb_true_iff in H
  | H : negb _ = false |- _ => apply negb_false_iff in H
  | H : (_ <? _)%Z = true |- _ => apply Z.ltb_lt in H
  | H : (_ <? _)%Z = false |- _ => apply Z.ltb_ge in H
  | H : (_ <=? _)%Z = true |- _ => apply Z.leb_le in H
  | H : (_ <=? _)%Z = false |- _ => apply Z.leb_gt in H
  | H : (_ =? _)%Z = true |- _ => apply Z.eqb_eq in H
  | H : (_ =? _)%Z = false |- _ => apply Z.eqb_neq in H
  | H : bool_decide _ = true |- _ => apply bool_decide_eq_true in H
  | H : bool_decide _ = false |- _ => apply bool_decide_eq_false in H
  end.

(** ** Lists *)

Lemma take_length_app {A} (l k : list A) : take (length l) (l ++ k) = l.
Proof. by rewrite take_app_length. Qed.

Lemma drop_length_app {A} (l k : list A) : drop (length l) (l ++ k) = k.
Proof. by rewrite drop_app_length. Qed.

Lemma foldl_invariant {A B} (P : A → Prop) (f : A → B → A) a l :
  P a → (∀ a b, P a → P (f a b)) → P (foldl f a l).
Proof. revert a. induction l; cbn; eauto. Qed.

Lemma prefix_cases {A} (k l1 l2 : list A) :
  k `prefix_of` l1 ++ l2 → k `prefix_of` l1 ∨ ∃ k2, k = l1 ++ k2 ∧ k2 `prefix_of` l2.
Proof.
  intros [q Hq]. destruct (decide (length k ≤ length l1)) as [Hle|Hgt].
  - left. exists (drop (length k) l1).
    apply (f_equal (take (length l1))) in Hq. rewrite take_app_length in Hq.
    rewrite <- (take_drop (length k) l1) at 1. f_equal.
    rewrite Hq, take_take, Nat.min_l by lia. by rewrite take_app_length.
  - right. exists (drop (length l1) k).
    assert (k = l1 ++ drop (length l1) k) as Hk.
    { rewrite <- (take_drop (length l1) k) at 1. f_equal.
      apply (f_equal (take (length l1))) in Hq.
      rewrite take_app_length in Hq. rewrite take_app_le in Hq by lia. done. }
    split; [done|]. exists q. rewrite Hk in Hq.
    rewrite <- app_assoc in Hq. by apply app_inv_head in Hq.
Qed.

Create HintDb nutdb discriminated.
Create Rewrite HintDb nutdb.
#[export] Hint Resolve take_length_app drop_length_app : nutdb.
#[export] Hint Rewrite @length_app @length_take @length_drop @length_cons : nutdb.

(** ** [BTreeMap] with string keys

    A finite map, iterated in the byte order of its keys. *)
Definition btree_iter {V} (m : gmap string V) : list (string * V) :=
  merge_sort (λ p q, String.le p.1 q.1) (map_to_list m).
Definition btree_keys {V} (m : gmap string V) : list string := (btree_iter m).*1.

Lemma btree_iter_perm {V} (m : gmap string V) : btree_iter m ≡ₚ map_to_list m.
Proof. apply merge_sort_Permutation. Qed.

Lemma elem_of_btree_iter {V} (m : gmap string V) k v :
  (k, v) ∈ btree_iter m ↔ m !! k = Some v.
Proof. by rewrite btree_iter_perm, elem_of_map_to_list. Qed.

Lemma elem_of_btree_keys {V} (m : gmap string V) k : k ∈ btree_keys m ↔ is_Some (m !! k).
Proof.
  unfold btree_keys. rewrite list_elem_of_fmap. split.
  - intros ([k' v] & -> & H%elem_of_btree_iter). by exists v.
  - intros [v Hv]. exists (k, v). by rewrite elem_of_btree_iter.
Qed.

Lemma NoDup_btree_keys {V} (m : gmap string V) : NoDup (btree_keys m).
Proof. unfold btree_keys. rewrite btree_iter_perm. apply NoDup_fst_map_to_list. Qed.

#[export] Instance string_le_pair_total {V} :
  Total (λ p q : string * V, String.le p.1 q.1).
Proof. intros p q. apply (total String.le). Qed.
#[export] Instance string_le_pair_trans {V} :
  Transitive (λ p q : string * V, String.le p.1 q.1).
Proof. intros p q r. apply (transitivity (R:=String.le)). Qed.

Lemma btree_iter_sorted {V} (m : gmap string V) :
  StronglySorted (λ p q, String.le p.1 q.1) (btree_iter m).
Proof. apply StronglySorted_merge_sort; apply _. Qed.

Fixpoint take_while {A} (f : A → bool) (l : list A) : list A :=
  match l with
  | [] => []
  | a :: l => if f a then a :: take_while f l else []
  end.

(** [str::starts_with]. *)
Definition starts_with (s prefix : string) : bool := String.prefix prefix s.
