(* ===== verification/Bytes.v ===== *)
(** Bytes, machine integers and strings as Rust has them.

    A byte ([u8]) is an [ascii], a [Vec<u8>] or [&[u8]] a [list ascii], a Rust
    [String] a Rocq [string] of its UTF-8 bytes ([is_str] is the type's
    invariant).  Wider unsigned integers are [Z] with their range written out.
    Here are the little-endian codecs ([to_le_bytes], [from_le_bytes]), slicing
    by byte offset, [String::from_utf8] and decimal and hexadecimal text. *)

From S2P Require Import Prelude.
From Stdlib Require Import Ascii.

Abbreviation u8 := ascii.
Abbreviation bytes := (list ascii).

(** ** Bytes and integers *)

Definition u8_val (b : u8) : Z := Z.of_N (N_of_ascii b).
Definition to_u8 (z : Z) : u8 := ascii_of_N (Z.to_N (z mod 256)).

Definition U32_MAX : Z := 0xFFFFFFFF.
Definition U64_MAX : Z := 0xFFFFFFFFFFFFFFFF.
Definition u32_range (z : Z) : Prop := (0 ≤ z ≤ U32_MAX)%Z.
Definition u64_range (z : Z) : Prop := (0 ≤ z ≤ U64_MAX)%Z.

(** [u32::try_from(usize)] and [checked_add] on [u64]. *)
Definition u32_try_from {E} (n : nat) (e : E) : result E Z :=
  if (Z.of_nat n <=? U32_MAX)%Z then Ok (Z.of_nat n) else Err e.
Definition u64_checked_add (a b : Z) : option Z :=
  if (a + b <=? U64_MAX)%Z then Some (a + b)%Z else None.

Lemma u8_val_range b : (0 ≤ u8_val b < 256)%Z.
Proof. unfold u8_val. pose proof (N_ascii_bounded b). lia. Qed.

Lemma to_u8_val b : to_u8 (u8_val b) = b.
Proof.
  unfold to_u8. rewrite Z.mod_small by apply u8_val_range.
  unfold u8_val. rewrite N2Z.id. apply ascii_N_embedding.
Qed.

Lemma u8_val_to_u8 z : u8_val (to_u8 z) = (z mod 256)%Z.
Proof.
  unfold to_u8, u8_val. pose proof (Z.mod_pos_bound z 256 eq_refl).
  rewrite N_ascii_embedding by lia. lia.
Qed.

Lemma u8_val_inj a b : u8_val a = u8_val b → a = b.
Proof. intros H. by rewrite <- (to_u8_val a), <- (to_u8_val b), H. Qed.

#[export] Hint Rewrite to_u8_val u8_val_to_u8 : nutdb.

(** ** Little-endian and big-endian integers *)

Fixpoint to_le_bytes (n : nat) (z : Z) : bytes :=
  match n with
  | O => []
  | S n => to_u8 z :: to_le_bytes n (z / 256)
  end.

Fixpoint from_le_bytes (bs : bytes) : Z :=
  match bs with
  | [] => 0
  | b :: bs => u8_val b + 256 * from_le_bytes bs
  end%Z.

Definition u16_le : Z → bytes := to_le_bytes 2.
Definition u32_le : Z → bytes := to_le_bytes 4.
Definition u64_le : Z → bytes := to_le_bytes 8.
Definition u32_be (z : Z) : bytes := reverse (to_le_bytes 4 z).
Arguments u16_le : simpl never.
Arguments u32_le : simpl never.
Arguments u64_le : simpl never.
Definition from_be_bytes (bs : bytes) : Z := from_le_bytes (reverse bs).

Lemma length_to_le_bytes n z : length (to_le_bytes n z) = n.
Proof. revert z. induction n; intros z; cbn; auto. Qed.

Lemma from_to_le_bytes n z :
  (0 ≤ z < 256 ^ Z.of_nat n)%Z → from_le_bytes (to_le_bytes n z) = z.
Proof.
  revert z. induction n as [|n IH]; intros z Hz; cbn [to_le_bytes from_le_bytes].
  - cbn in Hz. lia.
  - rewrite u8_val_to_u8. rewrite Nat2Z.inj_succ, Z.pow_succ_r in Hz by lia.
    rewrite IH.
    + pose proof (Z.div_mod z 256). lia.
    + split; [apply Z.div_pos; lia|]. apply Z.div_lt_upper_bound; lia.
Qed.

Lemma from_le_bytes_range bs : (0 ≤ from_le_bytes bs < 256 ^ Z.of_nat (length bs))%Z.
Proof.
  induction bs as [|b bs IH]; cbn [from_le_bytes length]; [cbn; lia|].
  rewrite Nat2Z.inj_succ, Z.pow_succ_r by lia. pose proof (u8_val_range b). lia.
Qed.

Lemma to_from_le_bytes bs : to_le_bytes (length bs) (from_le_bytes bs) = bs.
Proof.
  induction bs as [|b bs IH]; cbn [from_le_bytes length to_le_bytes]; [done|].
  pose proof (u8_val_range b). f_equal.
  - apply u8_val_inj. rewrite u8_val_to_u8, (Z.mul_comm 256), Z.mod_add by lia.
    by rewrite Z.mod_small.
  - rewrite (Z.mul_comm 256), Z.div_add by lia.
    rewrite Z.div_small by lia. exact IH.
Qed.

Lemma from_le_bytes_inj a b :
  length a = length b → from_le_bytes a = from_le_bytes b → a = b.
Proof.
  intros Hl H. rewrite <- (to_from_le_bytes a), <- (to_from_le_bytes b). by rewrite Hl, H.
Qed.

Lemma u32_le_inv z : u32_range z → from_le_bytes (u32_le z) = z.
Proof. unfold u32_range, U32_MAX. intros ?. apply from_to_le_bytes. lia. Qed.

Lemma u64_le_inv z : u64_range z → from_le_bytes (u64_le z) = z.
Proof. unfold u64_range, U64_MAX. intros ?. apply from_to_le_bytes. lia. Qed.

Lemma length_u16_le z : length (u16_le z) = 2.
Proof. apply length_to_le_bytes. Qed.
Lemma length_u32_le z : length (u32_le z) = 4.
Proof. apply length_to_le_bytes. Qed.
Lemma length_u64_le z : length (u64_le z) = 8.
Proof. apply length_to_le_bytes. Qed.

#[export] Hint Rewrite length_to_le_bytes length_u16_le length_u32_le length_u64_le : nutdb.

Lemma u32_try_from_ok {E} n (e : E) z :
  u32_try_from n e = Ok z ↔ z = Z.of_nat n ∧ u32_range z.
Proof.
  unfold u32_try_from, u32_range. split.
  - case_match; intros H'; [|done]. injection H' as <-. apply Z.leb_le in H. lia.
  - intros [-> ?]. by rewrite (proj2 (Z.leb_le _ _)) by lia.
Qed.

Lemma u32_try_from_run {E} n (e : E) :
  u32_range (Z.of_nat n) → u32_try_from n e = Ok (Z.of_nat n).
Proof. intros H. by apply u32_try_from_ok. Qed.

(** ** Slices by byte offset

    [bytes.get(from..to)] with [from <= to]: [None] when [to] is past the end.
    The bounds are compared as integers before any list is cut, so a length
    field of four billion is refused without being built. *)
Definition get_range (bs : bytes) (from : nat) (len : Z) : option bytes :=
  if ((0 <=? len) && (Z.of_nat from + len <=? Z.of_nat (length bs)))%Z
  then Some (take (Z.to_nat len) (drop from bs)) else None.

Lemma get_range_app pre mid post :
  get_range (pre ++ mid ++ post) (length pre) (Z.of_nat (length mid)) = Some mid.
Proof.
  unfold get_range. rewrite !length_app.
  rewrite (proj2 (Z.leb_le 0 _)), (proj2 (Z.leb_le _ _)) by lia. cbn.
  by rewrite Nat2Z.id, drop_app_length, take_app_length.
Qed.

Lemma get_range_inv bs from len x :
  get_range bs from len = Some x →
  ∃ pre post, bs = pre ++ x ++ post ∧ length pre = from ∧ Z.of_nat (length x) = len.
Proof.
  unfold get_range. case_match eqn:Hc; [|done]. intros [= <-]. zify_bools.
  exists (take from bs), (drop (from + Z.to_nat len) bs).
  split; [|split].
  - rewrite <- drop_drop, (take_drop (Z.to_nat len)). by rewrite take_drop.
  - rewrite length_take. lia.
  - rewrite length_take, length_drop. lia.
Qed.

(** ** Strings *)

Definition as_bytes (s : string) : bytes := String.list_ascii_of_string s.
Definition of_bytes (bs : bytes) : string := String.string_of_list_ascii bs.
(** [s.len()]: the number of bytes. *)
Definition str_len (s : string) : nat := length (as_bytes s).

Lemma as_of_bytes bs : as_bytes (of_bytes bs) = bs.
Proof. apply String.list_ascii_of_string_of_list_ascii. Qed.
Lemma of_as_bytes s : of_bytes (as_bytes s) = s.
Proof. apply String.string_of_list_ascii_of_string. Qed.
Lemma as_bytes_inj s t : as_bytes s = as_bytes t → s = t.
Proof. intros H. by rewrite <- (of_as_bytes s), <- (of_as_bytes t), H. Qed.
Lemma as_bytes_app s t : as_bytes (s +:+ t) = as_bytes s ++ as_bytes t.
Proof.
  induction s as [|c s IH]; [done|]. change (String c s +:+ t) with (String c (s +:+ t)).
  cbn. f_equal. exact IH.
Qed.

#[export] Hint Rewrite as_of_bytes of_as_bytes as_bytes_app : nutdb.

(** [core::str::from_utf8]: the well-formed byte sequences of the Unicode
    standard (table 3-7), no overlong forms, no surrogates, at most U+10FFFF. *)
Definition in_range (lo hi : Z) (b : u8) : bool :=
  ((lo <=? u8_val b) && (u8_val b <=? hi))%Z.

Fixpoint utf8_valid (bs : bytes) : bool :=
  match bs with
  | [] => true
  | b0 :: r0 =>
    if in_range 0x00 0x7F b0 then utf8_valid r0 else
    match r0 with
    | [] => false
    | b1 :: r1 =>
      if in_range 0xC2 0xDF b0 then in_range 0x80 0xBF b1 && utf8_valid r1 else
      match r1 with
      | [] => false
      | b2 :: r2 =>
        if in_range 0xE0 0xEF b0 then
          (if in_range 0xE0 0xE0 b0 then in_range 0xA0 0xBF b1
           else if in_range 0xED 0xED b0 then in_range 0x80 0x9F b1
           else in_range 0x80 0xBF b1)
          && in_range 0x80 0xBF b2 && utf8_valid r2
        else
        match r2 with
        | [] => false
        | b3 :: r3 =>
          if in_range 0xF0 0xF4 b0 then
            (if in_range 0xF0 0xF0 b0 then in_range 0x90 0xBF b1
             else if in_range 0xF4 0xF4 b0 then in_range 0x80 0x8F b1
             else in_range 0x80 0xBF b1)
            && in_range 0x80 0xBF b2 && in_range 0x80 0xBF b3 && utf8_valid r3
          else false
        end
      end
    end
  end.

Definition from_utf8 {E} (bs : bytes) (e : E) : result E string :=
  if utf8_valid bs then Ok (of_bytes bs) else Err e.

(** The invariant of the type [String]. *)
Definition is_str (s : string) : Prop := utf8_valid (as_bytes s) = true.

Lemma from_utf8_as_bytes {E} s (e : E) : is_str s → from_utf8 (as_bytes s) e = Ok s.
Proof. unfold from_utf8, is_str. intros ->. by rewrite of_as_bytes. Qed.

Lemma from_utf8_ok {E} bs (e : E) s :
  from_utf8 bs e = Ok s ↔ is_str s ∧ bs = as_bytes s.
Proof.
  unfold from_utf8, is_str. split.
  - case_match eqn:Hv; [|done]. intros [= <-]. by rewrite as_of_bytes.
  - intros [Hv ->]. by rewrite Hv, of_as_bytes.
Qed.

Example utf8_cyrillic :
  utf8_valid (map to_u8 [0xD0; 0xBA; 0xD0; 0xBB; 0xF0; 0x9F; 0xA5; 0x9C]%Z) = true.
Proof. reflexivity. Qed.
Example utf8_overlong : utf8_valid (map to_u8 [0xC0; 0x80]%Z) = false.
Proof. reflexivity. Qed.
Example utf8_surrogate : utf8_valid (map to_u8 [0xED; 0xA0; 0x80]%Z) = false.
Proof. reflexivity. Qed.

(** ** Ordering

    [str] compares as its bytes do, lexicographically; so does
    [String.compare]. *)
Definition str_cmp (a b : string) : comparison := String.compare a b.
Definition str_lt (a b : string) : Prop := str_cmp a b = Lt.
