(* ===== verification/Crc.v ===== *)
(** CRC-32 as src/src/crc.rs computes it, and what its checksum detects.

    The routine is branchless (a mask of all ones when the low bit is set);
    [crc_step_spec] is the textbook conditional step.  The step is a bijection
    of the 32-bit states, and feeding up to four bytes to a state acts as
    feeding one little-endian word: so the checksum tells apart any two
    payloads of one length that differ only inside four consecutive bytes, a
    flipped bit among them. *)

From S2P Require Import Prelude Bytes.
From Stdlib Require Import Ascii.
Local Open Scope Z_scope.

Definition POLYNOMIAL : Z := 0xEDB88320.

(** [u32::wrapping_neg] and [!] on [u32]. *)
Definition wrapping_neg (x : Z) : Z := (- x) mod 2 ^ 32.
Definition u32_not (x : Z) : Z := U32_MAX - x.

Definition crc_step (crc : Z) : Z :=
  let mask := wrapping_neg (Z.land crc 1) in
  Z.lxor (Z.shiftr crc 1) (Z.land POLYNOMIAL mask).

Definition crc_byte (crc : Z) (byte : u8) : Z :=
  Nat.iter 8 crc_step (Z.lxor crc (u8_val byte)).

Definition crc32 (data : bytes) : Z :=
  u32_not (foldl crc_byte 0xFFFFFFFF data).

(** ** The step without the mask *)

Definition crc_step_spec (crc : Z) : Z :=
  if Z.odd crc then Z.lxor (Z.shiftr crc 1) POLYNOMIAL else Z.shiftr crc 1.

Lemma crc_step_branchless c : crc_step c = crc_step_spec c.
Proof.
  unfold crc_step, crc_step_spec.
  assert (Z.land c 1 = Z.b2z (Z.odd c)) as ->.
  { change 1 with (Z.ones 1). rewrite Z.land_ones by lia.
    rewrite <- Z.bit0_odd. symmetry. apply Z.bit0_mod. }
  destruct (Z.odd c); cbn; [done|]. apply Z.lxor_0_r.
Qed.

Definition is_u32 (x : Z) : Prop := 0 ≤ x < 2 ^ 32.

Lemma lt_pow2_testbit n x : 0 ≤ n → 0 ≤ x < 2 ^ n → ∀ i, n ≤ i → Z.testbit x i = false.
Proof.
  intros Hn Hx i Hi. destruct (decide (x = 0)) as [->|]; [apply Z.testbit_0_l|].
  apply Z.bits_above_log2; [lia|]. apply Z.log2_lt_pow2; [lia|].
  apply Z.lt_le_trans with (2 ^ n); [lia|]. apply Z.pow_le_mono_r; lia.
Qed.

Lemma testbit_lt_pow2 n x : 0 ≤ n → 0 ≤ x → (∀ i, n ≤ i → Z.testbit x i = false) → x < 2 ^ n.
Proof.
  intros Hn Hx Hb. destruct (decide (x = 0)) as [->|]; [apply Z.pow_pos_nonneg; lia|].
  apply Z.log2_lt_pow2; [lia|]. destruct (Z.lt_ge_cases (Z.log2 x) n) as [|Hge]; [done|].
  specialize (Hb _ Hge). rewrite Z.bit_log2 in Hb by lia. done.
Qed.

Lemma lxor_lt_pow2 n x y : 0 ≤ n → 0 ≤ x < 2 ^ n → 0 ≤ y < 2 ^ n → 0 ≤ Z.lxor x y < 2 ^ n.
Proof.
  intros Hn Hx Hy. assert (0 ≤ Z.lxor x y) by (apply Z.lxor_nonneg; lia).
  split; [done|]. apply testbit_lt_pow2; [done..|]. intros i Hi.
  rewrite Z.lxor_spec, !(lt_pow2_testbit n) by done. done.
Qed.

Lemma shiftr_lt_pow2 n x : 0 ≤ n → 0 ≤ x < 2 ^ (n + 1) → 0 ≤ Z.shiftr x 1 < 2 ^ n.
Proof.
  intros Hn Hx. rewrite Z.shiftr_div_pow2 by lia. change (2 ^ 1) with 2.
  rewrite Z.pow_add_r in Hx by lia. split; [apply Z.div_pos; lia|].
  apply Z.div_lt_upper_bound; lia.
Qed.

Lemma crc_step_u32 c : is_u32 c → is_u32 (crc_step c).
Proof.
  intros Hc. rewrite crc_step_branchless. unfold crc_step_spec, is_u32 in *.
  assert (0 ≤ Z.shiftr c 1 < 2 ^ 31) by (apply shiftr_lt_pow2; [lia|exact Hc]).
  destruct (Z.odd c); [|lia]. apply lxor_lt_pow2; [lia|lia|]. unfold POLYNOMIAL. lia.
Qed.

(** ** The step is injective: bit 31 of the result is the bit shifted out. *)

Lemma crc_step_bit31 c : is_u32 c → Z.testbit (crc_step c) 31 = Z.odd c.
Proof.
  intros Hc. rewrite crc_step_branchless. unfold crc_step_spec.
  assert (Z.testbit (Z.shiftr c 1) 31 = false) as H.
  { apply (lt_pow2_testbit 31); [lia| |lia]. by apply shiftr_lt_pow2. }
  destruct (Z.odd c); [|done]. rewrite Z.lxor_spec, H. reflexivity.
Qed.

Lemma crc_step_inj a b : is_u32 a → is_u32 b → crc_step a = crc_step b → a = b.
Proof.
  intros Ha Hb Heq.
  assert (Z.odd a = Z.odd b) as Hodd by (rewrite <- !crc_step_bit31 by done; by rewrite Heq).
  assert (Z.shiftr a 1 = Z.shiftr b 1) as Hshift.
  { rewrite !crc_step_branchless in Heq. unfold crc_step_spec in Heq.
    rewrite <- Hodd in Heq. destruct (Z.odd a); [|done].
    apply (f_equal (λ x, Z.lxor x POLYNOMIAL)) in Heq.
    by rewrite !Z.lxor_assoc, Z.lxor_nilpotent, !Z.lxor_0_r in Heq. }
  rewrite !Z.shiftr_div_pow2 in Hshift by lia. change (2 ^ 1) with 2 in Hshift.
  rewrite (Z.div2_odd a), (Z.div2_odd b), !Z.div2_div, Hshift, Hodd. done.
Qed.

Lemma lxor_u32 a b : is_u32 a → is_u32 b → is_u32 (Z.lxor a b).
Proof. intros. by apply lxor_lt_pow2. Qed.

Lemma iter_u32 n c : is_u32 c → is_u32 (Nat.iter n crc_step c).
Proof. induction n; cbn; auto using crc_step_u32. Qed.

Lemma iter_inj n a b :
  is_u32 a → is_u32 b → Nat.iter n crc_step a = Nat.iter n crc_step b → a = b.
Proof. induction n; cbn; [done|]. eauto using crc_step_inj, iter_u32. Qed.

Lemma u8_val_u32 b : is_u32 (u8_val b).
Proof. unfold is_u32. pose proof (u8_val_range b). lia. Qed.

Lemma crc_byte_eq c b : crc_byte c b = Nat.iter 8 crc_step (Z.lxor c (u8_val b)).
Proof. reflexivity. Qed.

Lemma crc_byte_u32 c b : is_u32 c → is_u32 (crc_byte c b).
Proof.
  intros Hc. rewrite crc_byte_eq. apply iter_u32. auto using lxor_u32, u8_val_u32.
Qed.

Lemma lxor_cancel_r a b c : Z.lxor a c = Z.lxor b c → a = b.
Proof.
  intros H. apply (f_equal (λ x, Z.lxor x c)) in H.
  by rewrite !Z.lxor_assoc, Z.lxor_nilpotent, !Z.lxor_0_r in H.
Qed.

(** One and the same suffix keeps two different states apart. *)
Lemma crc_fold_u32 c bs : is_u32 c → is_u32 (foldl crc_byte c bs).
Proof. revert c. induction bs; cbn [foldl]; auto using crc_byte_u32. Qed.

Lemma crc_fold_inj a b bs :
  is_u32 a → is_u32 b → foldl crc_byte a bs = foldl crc_byte b bs → a = b.
Proof.
  revert a b. induction bs as [|x bs IH]; cbn [foldl]; intros a b Ha Hb H; [done|].
  apply IH in H; auto using crc_byte_u32. rewrite !crc_byte_eq in H. apply iter_inj in H.
  - by apply lxor_cancel_r in H.
  - auto using lxor_u32, u8_val_u32.
  - auto using lxor_u32, u8_val_u32.
Qed.

(** ** Feeding bytes is feeding one little-endian word *)

Lemma crc_step_xor_even x w : crc_step (Z.lxor x (Z.shiftl w 1)) = Z.lxor (crc_step x) w.
Proof.
  rewrite !crc_step_branchless. unfold crc_step_spec.
  assert (Z.odd (Z.lxor x (Z.shiftl w 1)) = Z.odd x) as ->.
  { rewrite <- !Z.bit0_odd, Z.lxor_spec, Z.shiftl_spec_low by lia. apply xorb_false_r. }
  rewrite Z.shiftr_lxor, Z.shiftr_shiftl_l, Z.shiftl_0_r by lia.
  destruct (Z.odd x); [|done]. rewrite !Z.lxor_assoc. f_equal. apply Z.lxor_comm.
Qed.

Lemma iter_xor_shiftl n x w :
  Nat.iter n crc_step (Z.lxor x (Z.shiftl w (Z.of_nat n))) = Z.lxor (Nat.iter n crc_step x) w.
Proof.
  revert w. induction n as [|n IH]; intros w.
  - cbn. by rewrite Z.shiftl_0_r.
  - cbn [Nat.iter nat_rect]. rewrite Nat2Z.inj_succ.
    replace (Z.shiftl w (Z.succ (Z.of_nat n)))
      with (Z.shiftl (Z.shiftl w 1) (Z.of_nat n)) by (rewrite Z.shiftl_shiftl; f_equal; lia).
    change (nat_rect _ ?x (λ _, ?f) n) with (Nat.iter n f x).
    rewrite IH. apply crc_step_xor_even.
Qed.

Lemma lxor_disjoint_add a b : 0 ≤ a < 2 ^ 8 → 0 ≤ b → Z.lxor a (Z.shiftl b 8) = a + 256 * b.
Proof.
  intros Ha Hb. rewrite <- Z.add_nocarry_lxor.
  - rewrite Z.shiftl_mul_pow2 by lia. change (2 ^ 8) with 256. lia.
  - apply Z.bits_inj'. intros i Hi. rewrite Z.land_spec, Z.bits_0.
    destruct (Z.lt_ge_cases i 8).
    + rewrite Z.shiftl_spec_low by lia. apply andb_false_r.
    + by rewrite (lt_pow2_testbit 8) by lia.
Qed.

Lemma crc_fold_word c bs :
  foldl crc_byte c bs = Nat.iter (8 * length bs) crc_step (Z.lxor c (from_le_bytes bs)).
Proof.
  revert c. induction bs as [|b bs IH]; intros c.
  - cbn. by rewrite Z.lxor_0_r.
  - cbn [foldl from_le_bytes length]. rewrite IH, crc_byte_eq.
    rewrite <- (iter_xor_shiftl 8), Z.lxor_assoc.
    replace (8 * S (length bs))%nat with (8 * length bs + 8)%nat by lia.
    rewrite Nat.iter_add. do 3 f_equal. change (Z.of_nat 8) with 8.
    rewrite lxor_disjoint_add; [done|apply u8_val_range|apply from_le_bytes_range].
Qed.

Lemma crc_window_inj c w1 w2 :
  is_u32 c → length w1 = length w2 → (length w1 ≤ 4)%nat →
  foldl crc_byte c w1 = foldl crc_byte c w2 → w1 = w2.
Proof.
  intros Hc Hl H4 H. rewrite !crc_fold_word, <- Hl in H.
  assert (∀ w, length w = length w1 → is_u32 (from_le_bytes w)) as Hw.
  { intros w Hw. pose proof (from_le_bytes_range w) as Hr. rewrite Hw in Hr. split; [lia|].
    eapply Z.lt_le_trans; [apply Hr|]. change (2 ^ 32) with (256 ^ 4).
    apply Z.pow_le_mono_r; lia. }
  apply iter_inj in H; [|auto using lxor_u32..].
  rewrite !(Z.lxor_comm c) in H. apply lxor_cancel_r in H. by apply from_le_bytes_inj.
Qed.

Lemma init_u32 : is_u32 0xFFFFFFFF.
Proof. unfold is_u32. lia. Qed.

Lemma crc32_range data : u32_range (crc32 data).
Proof.
  unfold crc32, u32_not, u32_range, U32_MAX.
  pose proof (crc_fold_u32 _ data init_u32) as H. unfold is_u32 in H. lia.
Qed.

Lemma crc32_detects pre w1 w2 post :
  length w1 = length w2 → (length w1 ≤ 4)%nat → w1 ≠ w2 →
  crc32 (pre ++ w1 ++ post) ≠ crc32 (pre ++ w2 ++ post).
Proof.
  intros Hl H4 Hne Heq. apply Hne. unfold crc32, u32_not in Heq.
  rewrite !foldl_app in Heq. eapply crc_window_inj; [|done..|].
  - apply (crc_fold_u32 _ pre init_u32).
  - eapply crc_fold_inj; [| |apply Z.sub_cancel_l in Heq; exact Heq];
      apply crc_fold_u32, crc_fold_u32, init_u32.
Qed.

#[export] Hint Resolve crc32_range : nutdb.

(** ** The reference: a shift register fed one message bit at a time

    The definition of the IEEE 802.3 checksum in its reflected form, bits of
    each byte taken from the least significant one. *)

Definition crc_bit (crc : Z) (bit : bool) : Z :=
  if xorb (Z.odd crc) bit then Z.lxor (Z.shiftr crc 1) POLYNOMIAL else Z.shiftr crc 1.

Fixpoint low_bits (n : nat) (w : Z) : list bool :=
  match n with O => [] | S n => Z.odd w :: low_bits n (Z.shiftr w 1) end.

Definition crc32_bit_serial (data : bytes) : Z :=
  u32_not (foldl crc_bit 0xFFFFFFFF (data ≫= (λ b, low_bits 8 (u8_val b)))).

Lemma crc_step_bit x w :
  crc_step (Z.lxor x w) = Z.lxor (crc_bit x (Z.odd w)) (Z.shiftr w 1).
Proof.
  rewrite crc_step_branchless. unfold crc_step_spec, crc_bit.
  assert (Z.odd (Z.lxor x w) = xorb (Z.odd x) (Z.odd w)) as ->
    by by rewrite <- !Z.bit0_odd, Z.lxor_spec.
  rewrite Z.shiftr_lxor. destruct (xorb _ _); [|done].
  rewrite !Z.lxor_assoc. f_equal. apply Z.lxor_comm.
Qed.

Lemma iter_low_bits n x w :
  Nat.iter n crc_step (Z.lxor x w)
  = Z.lxor (foldl crc_bit x (low_bits n w)) (Z.shiftr w (Z.of_nat n)).
Proof.
  revert x w. induction n as [|n IH]; intros x w; [by rewrite Z.shiftr_0_r|].
  rewrite Nat.iter_succ_r, crc_step_bit, IH, Z.shiftr_shiftr by lia.
  cbn [low_bits foldl]. do 2 f_equal. lia.
Qed.

Lemma crc_byte_bits c b : crc_byte c b = foldl crc_bit c (low_bits 8 (u8_val b)).
Proof.
  rewrite crc_byte_eq, iter_low_bits.
  assert (Z.shiftr (u8_val b) (Z.of_nat 8) = 0) as ->; [|apply Z.lxor_0_r].
  rewrite Z.shiftr_div_pow2 by lia. apply Z.div_small. apply u8_val_range.
Qed.

(** C34. The branchless byte-wise routine computes the IEEE checksum: on every
    input it agrees with the bit-serial reflected shift register. *)
Theorem crc32_is_bit_serial data : crc32 data = crc32_bit_serial data.
Proof.
  unfold crc32, crc32_bit_serial. f_equal. generalize 0xFFFFFFFF as c.
  induction data as [|b data IH]; intros c; [done|].
  cbn [foldl mbind list_bind]. rewrite foldl_app, <- crc_byte_bits. apply IH.
Qed.

(** The vectors of the source's own test module. *)
Example crc32_empty : crc32 [] = 0.
Proof. reflexivity. Qed.
Example crc32_a : crc32 (as_bytes "a") = 0xE8B7BE43.
Proof. vm_compute. reflexivity. Qed.
Example crc32_digits : crc32 (as_bytes "123456789") = 0xCBF43926.
Proof. vm_compute. reflexivity. Qed.
