(* ===== verification/Wal.v ===== *)
(** The write-ahead log of src/src/wal.rs over an explicit file.

    A [file] is what the operating system keeps for the log's path: the bytes a
    reader sees, the bytes the last [sync_all] made durable, and a script of the
    environment's answers ([f_env] for opens, writes and syncs, [f_reads] for
    the chunking of reads; both mean success once exhausted).  A failing write
    may leave any prefix behind.  [crash_image] says which contents a crash may
    leave.  [replays] is the abstract specification of recovery: the longest
    sequence of intact records a file begins with; [replay], the source's loop,
    is proved to compute it. *)

From S2P Require Import Prelude Bytes Crc.
From Stdlib Require Import Ascii.

Definition HEADER_LEN : nat := 8.

(** ** The file and its environment *)

Inductive sys : Type :=
| SysOk
| SysFail (written : nat) (e : io_error).

Inductive read_outcome : Type :=
| ReadUpTo (extra : nat)      (* at most [S extra] bytes *)
| ReadInterrupted
| ReadFail (e : io_error).

Record file : Type := File {
  f_exists : bool;
  f_content : bytes;
  f_synced : bytes;
  f_env : list sys;
  f_reads : list read_outcome;
}.

Definition absent : file := File false [] [] [] [].
Definition stored (bs : bytes) : file := File true bs bs [] [].

(** The next answer of the environment. *)
Definition next_sys : M file io_error sys := λ f,
  match f_env f with
  | [] => (Ok SysOk, f)
  | s :: env => (Ok s, File (f_exists f) (f_content f) (f_synced f) env (f_reads f))
  end.

(** A system call with no effect but its success. *)
Definition sys_call : M file io_error unit :=
  s ← next_sys; match s with SysOk => mret tt | SysFail _ e => fail e end.

Definition set_content (bs : bytes) : M file io_error unit :=
  modify (λ f, File (f_exists f) bs (f_synced f) (f_env f) (f_reads f)).

(** [write_all] in append mode: a failure may leave a prefix of the buffer. *)
Definition write_all (bs : bytes) : M file io_error unit :=
  f ← get_state;
  s ← next_sys;
  match s with
  | SysOk => set_content (f_content f ++ bs)
  | SysFail n e => _ ← set_content (f_content f ++ take n bs); fail e
  end.

Definition sync_all : M file io_error unit :=
  _ ← sys_call;
  modify (λ f, File (f_exists f) (f_content f) (f_content f) (f_env f) (f_reads f)).

(** [create_dir_all] and then [OpenOptions::open] with [create]. *)
Definition create_file : M file io_error unit :=
  _ ← sys_call; _ ← sys_call;
  modify (λ f, File true (f_content f) (f_synced f) (f_env f) (f_reads f)).

(** What a crash may leave of a file: some prefix of what was written after
    the last sync; an unsynced truncation may or may not have happened. *)
Inductive crash_image (f : file) : bytes → Prop :=
| crash_tail c :
    f_synced f `prefix_of` c → c `prefix_of` f_content f → crash_image f c
| crash_old : crash_image f (f_synced f)
| crash_new : crash_image f (f_content f).

(** ** Writing *)

(** One record: [len: u32][crc: u32][payload], little-endian. *)
Definition frame (payload : bytes) : bytes :=
  u32_le (Z.of_nat (length payload)) ++ u32_le (crc32 payload) ++ payload.

Arguments frame : simpl never.

Definition open : M file io_error unit := create_file.

Definition append (payload : bytes) : M file io_error unit :=
  len ← lift (u32_try_from (length payload) (invalid_input "wal: record exceeds 4 GiB"));
  let record := u32_le len ++ u32_le (crc32 payload) ++ payload in
  write_all record.

Definition sync : M file io_error unit := sync_all.

(** Truncation through a fresh write handle, then a sync. *)
Definition reset : M file io_error unit :=
  _ ← sys_call; _ ← set_content []; sync_all.

(** [File::set_len]: cuts, or extends with zeros. *)
Definition set_len (n : Z) : M file io_error unit :=
  _ ← sys_call;
  f ← get_state;
  let bs := f_content f in
  set_content (if (n <=? Z.of_nat (length bs))%Z then take (Z.to_nat n) bs
               else bs ++ replicate (Z.to_nat n - length bs) "000"%char).

Definition truncate_path (valid_bytes : Z) : M file io_error unit :=
  _ ← sys_call; _ ← set_len valid_bytes; sync_all.

Definition size : M file io_error Z :=
  _ ← sys_call; f ← get_state; mret (Z.of_nat (length (f_content f))).

(** ** Reading *)

Record ReplayResult : Type := Replay {
  records : list bytes;
  truncated : bool;
  valid_bytes : Z;
}.
Definition default_replay : ReplayResult := Replay [] false 0.

Inductive ReadOutcome : Type := Full | Partial | Eof.

(** An open reader: the bytes still ahead and the script of its reads. *)
Record reader : Type := Reader { r_data : bytes; r_script : list read_outcome }.

Inductive read_step : Type := Got (bs : bytes) | Again | Broken (e : io_error).

(** One [read] into a buffer of [want] bytes. *)
Definition read (r : reader) (want : nat) : read_step * reader :=
  match r_script r with
  | [] => (Got (take want (r_data r)), Reader (drop want (r_data r)) [])
  | ReadUpTo n :: s =>
      let k := Nat.min want (S n) in
      (Got (take k (r_data r)), Reader (drop k (r_data r)) s)
  | ReadInterrupted :: s => (Again, Reader (r_data r) s)
  | ReadFail e :: s => (Broken e, Reader (r_data r) s)
  end.

(** The [while filled < buf.len()] loop; [filled] is what the buffer holds. *)
Fixpoint read_loop (fuel : nat) (r : reader) (want : nat) (filled : bytes)
  : io (bytes * reader) :=
  if length filled <? want then
    match fuel with
    | O => Panic "read_loop: out of fuel"
    | S fuel =>
      match read r (want - length filled) with
      | (Got [], r) => Ok (filled, r)
      | (Got bs, r) => read_loop fuel r want (filled ++ bs)
      | (Again, r) => read_loop fuel r want filled
      | (Broken e, _) => Err e
      end
    end
  else Ok (filled, r).

Definition read_exact_or_eof (r : reader) (want : nat) : io (ReadOutcome * bytes * reader) :=
  if want =? 0 then Ok (Full, [], r) else
  '(filled, r) ← read_loop (length (r_script r) + want) r want [];
  let n := length filled in
  Ok (if n =? 0 then Eof else if n =? want then Full else Partial, filled, r).

(** The [loop] of [Wal::replay], from the state its locals have. *)
Fixpoint replay_loop (fuel : nat) (file_len : Z) (r : reader) (acc : ReplayResult)
  : io ReplayResult :=
  let stop t := Ok (Replay (records acc) t (valid_bytes acc)) in
  match fuel with
  | O => Panic "replay_loop: out of fuel"
  | S fuel =>
    '(outcome, header, r) ← read_exact_or_eof r HEADER_LEN;
    match outcome with
    | Eof => stop (truncated acc)
    | Partial => stop true
    | Full =>
      let len := from_le_bytes (take 4 header) in
      let expected_crc := from_le_bytes (drop 4 header) in
      let remaining := Z.max 0 (file_len - (valid_bytes acc + Z.of_nat HEADER_LEN)) in
      if (remaining <? len)%Z then stop true else
      '(outcome, payload, r) ← read_exact_or_eof r (Z.to_nat len);
      match outcome with
      | Full =>
        if negb (crc32 payload =? expected_crc)%Z then stop true else
        replay_loop fuel file_len r
          (Replay (records acc ++ [payload]) (truncated acc)
                  (valid_bytes acc + (Z.of_nat HEADER_LEN + len)))
      | _ => stop true
      end
    end
  end.

(** [File::open] for reading: a missing file is [NotFound]. *)
Definition open_read : M file io_error unit :=
  _ ← sys_call;
  f ← get_state;
  guard (f_exists f) (IoError NotFound "No such file or directory (os error 2)").

Definition replay : M file io_error ReplayResult := λ f,
  match open_read f with
  | (Ok _, f1) =>
    (_ ← sys_call;
     f ← get_state;
     let n := length (f_content f) in
     lift (replay_loop (S n) (Z.of_nat n) (Reader (f_content f) (f_reads f)) default_replay)) f1
  | (Err e, f1) =>
    (if decide (err_kind e = NotFound) then Ok default_replay else Err e, f1)
  | (Panic p, f1) => (Panic p, f1)
  end.

(** ** The reader loop fills the buffer, however the reads are cut *)

Definition no_fail (s : list read_outcome) : Prop :=
  Forall (λ o, match o with ReadFail _ => False | _ => True end) s.

Lemma read_loop_spec fuel data s want filled :
  no_fail s → length filled ≤ want → length s + (want - length filled) ≤ fuel →
  ∃ s', no_fail s' ∧
    read_loop fuel (Reader data s) want filled
    = Ok (filled ++ take (want - length filled) data,
          Reader (drop (want - length filled) data) s').
Proof.
  revert data s filled. induction fuel as [|fuel IH]; intros data s filled Hs Hle Hfuel;
    cbn [read_loop]; destruct (Nat.ltb_spec (length filled) want) as [Hlt|Hge].
  1: lia.
  1,3: exists s; replace (want - length filled) with 0 by lia; by rewrite take_0, app_nil_r.
  set (k := want - length filled) in *. unfold read; cbn [r_script r_data].
  destruct s as [|[n| |e] s]; cbn in Hfuel.
  - destruct (take k data) as [|b l] eqn:Ht.
    + exists []. by rewrite app_nil_r.
    + rewrite <- Ht. destruct (IH (drop k data) [] (filled ++ take k data)) as (s' & ? & ->);
        [done|rewrite length_app, length_take; lia|rewrite length_app; cbn; rewrite Ht; cbn; lia|].
      exists s'. split; [done|]. rewrite length_app, length_take.
      destruct (decide (k ≤ length data)).
      * replace (want - _) with 0 by lia. by rewrite take_0, app_nil_r.
      * rewrite drop_ge, take_nil, drop_nil by lia. by rewrite app_nil_r.
  - apply Forall_cons in Hs as [_ Hs].
    set (j := k `min` S n). assert (j ≤ k ∧ 0 < j) as [Hj0 Hj1] by (unfold j, k; lia).
    destruct (take j data) as [|b l] eqn:Ht.
    + assert (data = []) as ->.
      { apply (f_equal length) in Ht. rewrite length_take in Ht.
        destruct data; [done|cbn in Ht; lia]. }
      exists s. by rewrite take_nil, !drop_nil, app_nil_r.
    + assert (0 < length (take j data)) by (rewrite Ht; cbn; lia). rewrite <- Ht.
      destruct (IH (drop j data) s (filled ++ take j data)) as (s' & ? & ->);
        [done|rewrite length_app, length_take; lia|rewrite length_app; lia|].
      exists s'. split; [done|]. rewrite length_app.
      destruct (decide (j ≤ length data)).
      * rewrite length_take, Nat.min_l by lia.
        replace (want - (length filled + j)) with (k - j) by lia.
        rewrite drop_drop. replace (j + (k - j)) with k by lia.
        rewrite <- app_assoc, (take_take_drop data j (k - j)).
        replace (j + (k - j)) with k by lia. done.
      * rewrite (drop_ge data j), take_nil, drop_nil by lia.
        rewrite (drop_ge data k), app_nil_r by lia. by rewrite !take_ge by lia.
  - apply Forall_cons in Hs as [_ Hs].
    destruct (IH data s filled) as (s' & ? & ->); [done..|lia|]. by exists s'.
  - apply Forall_cons in Hs as [[] _].
Qed.

Definition outcome_of (want got : nat) : ReadOutcome :=
  if want =? 0 then Full else if got =? 0 then Eof else if got =? want then Full else Partial.

Lemma read_exact_or_eof_spec data s want :
  no_fail s →
  ∃ s', no_fail s' ∧
    read_exact_or_eof (Reader data s) want
    = Ok (outcome_of want (length (take want data)), take want data,
          Reader (drop want data) s').
Proof.
  intros Hs. unfold read_exact_or_eof, outcome_of. destruct (Nat.eqb_spec want 0) as [->|Hw].
  - exists s. by rewrite take_0, drop_0.
  - destruct (read_loop_spec (length s + want) data s want []) as (s' & Hs' & Hrun);
      [done|cbn; lia..|]. cbn [r_script]. rewrite Hrun. exists s'. split; [done|].
    cbn [length app]. rewrite Nat.sub_0_r. reflexivity.
Qed.

(** ** The specification of recovery *)

(** A tail no intact record starts. *)
Definition torn (t : bytes) : Prop :=
  ∀ p rest, u32_range (Z.of_nat (length p)) → t ≠ frame p ++ rest.

Inductive replays : bytes → list bytes → bytes → Prop :=
| replays_stop t : torn t → replays t [] t
| replays_record p rest rs t :
    u32_range (Z.of_nat (length p)) → replays rest rs t → replays (frame p ++ rest) (p :: rs) t.

Definition log_bytes (rs : list bytes) : bytes := rs ≫= frame.

Definition small (p : bytes) : Prop := u32_range (Z.of_nat (length p)).

Ltac solve_small :=
  repeat (first [apply Forall_nil_2 | apply Forall_cons_2]);
  unfold small, u32_range, U32_MAX; cbn; lia.

Lemma length_frame p : length (frame p) = HEADER_LEN + length p.
Proof. unfold frame, HEADER_LEN. rewrite !length_app, !length_u32_le. lia. Qed.

Lemma frame_inj p q rest rest' :
  small p → small q → frame p ++ rest = frame q ++ rest' → p = q ∧ rest = rest'.
Proof.
  unfold frame. intros Hp Hq H. rewrite <- !app_assoc in H.
  apply app_inj_1 in H as [Hlen H]; [|by rewrite !length_u32_le].
  apply (f_equal from_le_bytes) in Hlen. rewrite !u32_le_inv in Hlen by done.
  apply app_inj_1 in H as [_ H]; [|by rewrite !length_u32_le].
  apply app_inj_1 in H; [done|lia].
Qed.

Lemma replays_inv bs rs t :
  replays bs rs t →
  (rs = [] ∧ t = bs ∧ torn bs) ∨
  ∃ p rest rs', bs = frame p ++ rest ∧ rs = p :: rs' ∧ small p ∧ replays rest rs' t.
Proof. destruct 1; [left|right]; eauto 10. Qed.

Lemma replays_det bs rs t rs' t' : replays bs rs t → replays bs rs' t' → rs = rs' ∧ t = t'.
Proof.
  intros H. revert rs' t'.
  induction H as [t Ht|p rest rs t Hp H IH]; intros rs' t' [(-> & -> & Hn)|(q & r & l & Heq & -> & Hq & H')]%replays_inv.
  - done.
  - by destruct (Ht q r).
  - by destruct (Hn p rest).
  - apply frame_inj in Heq as [-> ->]; [|done..]. apply IH in H' as [-> ->]. done.
Qed.

Lemma replays_bytes bs rs t : replays bs rs t → bs = log_bytes rs ++ t.
Proof.
  induction 1 as [|p rest rs t Hp H IH]; [done|].
  unfold log_bytes in *. cbn. by rewrite IH, <- app_assoc at 1.
Qed.

Lemma replays_small bs rs t : replays bs rs t → Forall small rs.
Proof. induction 1; constructor; auto. Qed.

Lemma replays_log rs t : Forall small rs → torn t → replays (log_bytes rs ++ t) rs t.
Proof.
  intros H Ht. induction H as [|p rs Hp H IH]; [by constructor|].
  unfold log_bytes in *. cbn. rewrite <- app_assoc. by constructor.
Qed.

Lemma torn_nil : torn [].
Proof.
  intros p rest _ H. apply (f_equal length) in H. rewrite length_app, length_frame in H.
  unfold HEADER_LEN in H. cbn in H. lia.
Qed.

(** ** Three ways to be torn: the rows of the table in docs/05-durability.md *)

Lemma torn_short t : length t < HEADER_LEN → torn t.
Proof.
  intros Hl p rest _ ->. rewrite length_app, length_frame in Hl. lia.
Qed.

Lemma torn_long n crc t :
  u32_range n → (Z.of_nat (length t) < n)%Z → length crc = 4 → torn (u32_le n ++ crc ++ t).
Proof.
  intros Hn Hl Hc p rest Hp H. unfold frame in H. rewrite <- !app_assoc in H.
  apply app_inj_1 in H as [Hlen H]; [|by rewrite !length_u32_le].
  apply (f_equal from_le_bytes) in Hlen. rewrite !u32_le_inv in Hlen by done. subst n.
  apply (f_equal length) in H. rewrite !length_app, length_u32_le in H. lia.
Qed.

Lemma torn_crc p crc rest :
  small p → u32_range crc → crc32 p ≠ crc →
  torn (u32_le (Z.of_nat (length p)) ++ u32_le crc ++ p ++ rest).
Proof.
  intros Hp Hcr Hne q rest' Hq H. unfold frame in H. rewrite <- !app_assoc in H.
  apply app_inj_1 in H as [Hlen H]; [|by rewrite !length_u32_le].
  apply (f_equal from_le_bytes) in Hlen. rewrite !u32_le_inv in Hlen by done.
  apply app_inj_1 in H as [Hcrc H]; [|by rewrite !length_u32_le].
  apply (f_equal from_le_bytes) in Hcrc.
  rewrite !u32_le_inv in Hcrc by (done || apply crc32_range).
  apply app_inj_1 in H as [-> _]; [|lia]. done.
Qed.

(** A strict prefix of a record is torn. *)
Lemma torn_prefix p t : small p → t `prefix_of` frame p → t ≠ frame p → torn t.
Proof.
  intros Hp [k Hk] Hne q rest Hq ->. rewrite <- app_assoc in Hk.
  rewrite <- (app_nil_r (frame p)) in Hk. apply frame_inj in Hk as [-> Hk]; [|done..].
  symmetry in Hk. apply app_eq_nil in Hk as [-> ->]. by rewrite app_nil_r in Hne.
Qed.

(** ** The loop computes the specification *)

Definition tail_bad (t : bytes) : bool := bool_decide (t ≠ []).

(** What a tail can begin with. *)
Inductive head_view : bytes → Prop :=
| head_none : head_view []
| head_partial t : t ≠ [] → length t < HEADER_LEN → head_view t
| head_long n crc body :
    u32_range n → u32_range crc → (Z.of_nat (length body) < n)%Z →
    head_view (u32_le n ++ u32_le crc ++ body)
| head_crc p crc rest :
    small p → u32_range crc → crc32 p ≠ crc →
    head_view (u32_le (Z.of_nat (length p)) ++ u32_le crc ++ p ++ rest)
| head_record p rest : small p → head_view (frame p ++ rest).

Lemma u32_le_of_bytes b : length b = 4 → u32_range (from_le_bytes b) ∧ u32_le (from_le_bytes b) = b.
Proof.
  intros Hl. pose proof (from_le_bytes_range b) as Hr. rewrite Hl in Hr.
  unfold u32_range, U32_MAX, u32_le. split; [lia|]. rewrite <- Hl. apply to_from_le_bytes.
Qed.

Lemma split_header t :
  HEADER_LEN ≤ length t →
  ∃ n crc body, u32_range n ∧ u32_range crc ∧ t = u32_le n ++ u32_le crc ++ body.
Proof.
  unfold HEADER_LEN. intros Hl.
  destruct (u32_le_of_bytes (take 4 t)) as [Hn En]; [rewrite length_take; lia|].
  destruct (u32_le_of_bytes (take 4 (drop 4 t))) as [Hc Ec];
    [rewrite length_take, length_drop; lia|].
  exists (from_le_bytes (take 4 t)), (from_le_bytes (take 4 (drop 4 t))), (drop 4 (drop 4 t)).
  by rewrite En, Ec, !take_drop.
Qed.

Lemma head_view_of t : head_view t.
Proof.
  destruct (decide (t = [])) as [->|Hne]; [constructor|].
  destruct (decide (length t < HEADER_LEN)) as [|Hge]; [by constructor|].
  destruct (split_header t) as (n & crc & body & Hn & Hc & ->); [lia|].
  destruct (decide (Z.of_nat (length body) < n)%Z); [by constructor|].
  assert (∃ p rest, body = p ++ rest ∧ n = Z.of_nat (length p)) as (p & rest & -> & ->).
  { exists (take (Z.to_nat n) body), (drop (Z.to_nat n) body). unfold u32_range in Hn.
    rewrite take_drop, length_take. split; [done|lia]. }
  destruct (decide (crc32 p = crc)) as [<-|]; [|by constructor].
  replace (_ ++ _) with (frame p ++ rest) by (unfold frame; by rewrite <- !app_assoc).
  by constructor.
Qed.

Lemma header_fields n crc :
  u32_range n → u32_range crc →
  from_le_bytes (take 4 (u32_le n ++ u32_le crc)) = n ∧
  from_le_bytes (drop 4 (u32_le n ++ u32_le crc)) = crc.
Proof.
  intros Hn Hc. rewrite take_app_length', drop_app_length' by by rewrite length_u32_le.
  by rewrite !u32_le_inv.
Qed.

Lemma outcome_of_full want (l : bytes) :
  want ≤ length l → outcome_of want (length (take want l)) = Full.
Proof.
  intros H. unfold outcome_of. rewrite length_take, Nat.min_l by done.
  destruct (Nat.eqb_spec want 0); [done|]. destruct (Nat.eqb_spec want 0); [done|].
  by rewrite Nat.eqb_refl.
Qed.

Lemma outcome_of_partial (l : bytes) :
  l ≠ [] → length l < HEADER_LEN → outcome_of HEADER_LEN (length (take HEADER_LEN l)) = Partial.
Proof.
  intros Hne Hl. unfold outcome_of. rewrite length_take, Nat.min_r by lia.
  destruct l; [done|]. cbn [length] in *. unfold HEADER_LEN in *. cbn [Nat.eqb].
  destruct (Nat.eqb_spec (length l) 7); [lia|done].
Qed.

Lemma take_header a b (body : bytes) :
  take HEADER_LEN (u32_le a ++ u32_le b ++ body) = u32_le a ++ u32_le b ∧
  drop HEADER_LEN (u32_le a ++ u32_le b ++ body) = body.
Proof.
  rewrite app_assoc. rewrite take_app_length', drop_app_length'; [done|..];
    by rewrite length_app, !length_u32_le.
Qed.

(** *** One iteration, by what the tail begins with *)

Section Iteration.
Context (fuel : nat) (consumed : bytes) (s : list read_outcome) (acc : ReplayResult).
Hypothesis Hs : no_fail s.
Hypothesis Hv : valid_bytes acc = Z.of_nat (length consumed).

Let loop n data s := replay_loop n (Z.of_nat (length (consumed ++ data))) (Reader data s) acc.
Let stopped t := Ok (E:=io_error) (Replay (records acc) t (valid_bytes acc)).

Ltac read_header :=
  match goal with |- context [read_exact_or_eof (Reader ?d ?sc) HEADER_LEN] =>
    let s' := fresh "s1" in let Hs' := fresh "Hs1" in
    destruct (read_exact_or_eof_spec d sc HEADER_LEN ltac:(assumption)) as (s' & Hs' & ->)
  end; cbn [mbind result_bind].

Lemma iterate_none : loop (S fuel) [] s = stopped (truncated acc).
Proof. unfold loop. cbn [replay_loop]. by read_header. Qed.

Lemma iterate_partial t : t ≠ [] → length t < HEADER_LEN → loop (S fuel) t s = stopped true.
Proof.
  intros Hne Hl. unfold loop. cbn [replay_loop]. read_header. by rewrite outcome_of_partial.
Qed.

Lemma iterate_header n crc body :
  u32_range n → u32_range crc →
  ∃ s', no_fail s' ∧
    loop (S fuel) (u32_le n ++ u32_le crc ++ body) s =
    if (Z.of_nat (length body) <? n)%Z then stopped true
    else if negb (crc32 (take (Z.to_nat n) body) =? crc)%Z then stopped true
    else replay_loop fuel (Z.of_nat (length (consumed ++ u32_le n ++ u32_le crc ++ body)))
           (Reader (drop (Z.to_nat n) body) s')
           (Replay (records acc ++ [take (Z.to_nat n) body]) (truncated acc)
                   (valid_bytes acc + (Z.of_nat HEADER_LEN + n))).
Proof.
  intros Hn Hc. unfold loop. cbn [replay_loop]. read_header.
  rewrite outcome_of_full by (rewrite !length_app, !length_u32_le; unfold HEADER_LEN; lia).
  destruct (take_header n crc body) as [-> ->].
  destruct (header_fields n crc Hn Hc) as [-> ->]. cbv beta zeta.
  replace (Z.max 0 _) with (Z.of_nat (length body))
    by (rewrite Hv, !length_app, !length_u32_le; unfold HEADER_LEN; lia).
  destruct (Z.ltb_spec (Z.of_nat (length body)) n); [by exists s|].
  destruct (read_exact_or_eof_spec body s1 (Z.to_nat n) Hs1) as (s2 & Hs2 & ->).
  exists s2. split; [done|]. cbn [mbind result_bind].
  unfold u32_range in Hn. by rewrite outcome_of_full by lia.
Qed.
End Iteration.

Lemma length_log_cons p rs :
  length (log_bytes (p :: rs)) = HEADER_LEN + length p + length (log_bytes rs).
Proof. unfold log_bytes. cbn [mbind list_bind]. by rewrite length_app, length_frame. Qed.

Lemma tail_bad_true t : t ≠ [] → tail_bad t = true.
Proof. intros. by apply bool_decide_eq_true. Qed.

Lemma header_nonempty a (b : bytes) : u32_le a ++ b ≠ [].
Proof. intros H. apply (f_equal length) in H. rewrite length_app, length_u32_le in H. done. Qed.

Lemma replay_loop_spec fuel consumed data s acc :
  no_fail s → valid_bytes acc = Z.of_nat (length consumed) → length data < fuel →
  ∃ rs t, replays data rs t ∧
    replay_loop fuel (Z.of_nat (length (consumed ++ data))) (Reader data s) acc
    = Ok (Replay (records acc ++ rs) (truncated acc || tail_bad t)
                 (valid_bytes acc + Z.of_nat (length (log_bytes rs)))).
Proof.
  revert consumed data s acc.
  induction fuel as [|fuel IH]; intros consumed data s acc Hs Hv Hfuel; [lia|].
  assert (∀ t, torn t → t ≠ [] → ∃ rs t0, replays t rs t0 ∧
      Ok (E:=io_error) (Replay (records acc) true (valid_bytes acc))
      = Ok (Replay (records acc ++ rs) (truncated acc || tail_bad t0)
                   (valid_bytes acc + Z.of_nat (length (log_bytes rs))))) as Hstop.
  { intros t Ht Hne. exists [], t. split; [by constructor|].
    rewrite app_nil_r, tail_bad_true, orb_true_r by done. cbn. by rewrite Z.add_0_r. }
  destruct (head_view_of data) as [|t Hne Hl|n crc body Hn Hc Hl|p crc rest Hp Hc Hne|p rest Hp].
  - rewrite iterate_none by done. exists [], []. split; [by apply replays_stop, torn_nil|].
    cbn. by rewrite app_nil_r, orb_false_r, Z.add_0_r.
  - rewrite iterate_partial by done. apply Hstop; [by apply torn_short|done].
  - destruct (iterate_header fuel consumed s acc Hs Hv n crc body Hn Hc) as (s' & _ & ->).
    rewrite (proj2 (Z.ltb_lt _ _)) by done.
    apply Hstop; [apply torn_long; [done..|apply length_u32_le]|apply header_nonempty].
  - destruct (iterate_header fuel consumed s acc Hs Hv _ crc (p ++ rest) Hp Hc) as (s' & _ & ->).
    rewrite (proj2 (Z.ltb_ge _ _)) by (rewrite length_app; lia).
    rewrite Nat2Z.id, take_app_length, (proj2 (Z.eqb_neq _ _)) by done.
    apply Hstop; [by apply torn_crc|apply header_nonempty].
  - assert (frame p ++ rest = u32_le (Z.of_nat (length p)) ++ u32_le (crc32 p) ++ p ++ rest)
      as Hf by (unfold frame; by rewrite <- !app_assoc).
    destruct (iterate_header fuel consumed s acc Hs Hv _ (crc32 p) (p ++ rest) Hp)
      as (s' & Hs' & Hrun); [apply crc32_range|]. rewrite <- Hf in Hrun. rewrite Hrun.
    rewrite (proj2 (Z.ltb_ge _ _)) by (rewrite length_app; lia).
    rewrite Nat2Z.id, take_app_length, drop_app_length, Z.eqb_refl. cbn [negb].
    edestruct (IH (consumed ++ frame p) rest s') as (rs & t & Hrs & Hrun'); [done| | |].
    2: { rewrite length_app, length_frame in Hfuel. unfold HEADER_LEN in Hfuel. lia. }
    2: { exists (p :: rs), t. split; [by constructor|].
         rewrite <- app_assoc in Hrun'. rewrite Hrun'. cbn [records truncated valid_bytes].
         rewrite <- app_assoc, length_log_cons. cbn [app]. do 2 f_equal. rewrite !Nat2Z.inj_add. lia. }
    cbn [valid_bytes]. rewrite Hv, length_app, length_frame. lia.
Qed.

(** A file whose environment lets it be opened and read. *)
Definition readable (f : file) : Prop := f_env f = [] ∧ no_fail (f_reads f).

Lemma replay_spec f :
  readable f → f_exists f = true →
  ∃ rs t, replays (f_content f) rs t ∧
    replay f = (Ok (Replay rs (tail_bad t) (Z.of_nat (length (log_bytes rs)))), f).
Proof.
  intros [He Hr] Hx.
  destruct (replay_loop_spec (S (length (f_content f))) [] (f_content f) (f_reads f)
    default_replay Hr eq_refl) as (rs & t & Hrs & Hrun); [lia|].
  exists rs, t. split; [done|]. destruct f as [x c sy env rd].
  cbn [f_exists f_env f_content f_reads] in *. subst.
  cbv [replay open_read sys_call next_sys guard get_state mbind M_bind mret M_ret fail lift
       f_env f_content f_exists f_reads].
  cbn [app] in Hrun. rewrite Hrun. reflexivity.
Qed.

Lemma replay_absent f :
  f_env f = [] → f_exists f = false → replay f = (Ok default_replay, f).
Proof.
  intros He Hx. destruct f as [x c sy env rd]; cbn in *; subst. reflexivity.
Qed.

Lemma replay_of f rs t :
  readable f → f_exists f = true → replays (f_content f) rs t →
  replay f = (Ok (Replay rs (tail_bad t) (Z.of_nat (length (log_bytes rs)))), f).
Proof.
  intros Hr Hx H. destruct (replay_spec f Hr Hx) as (rs' & t' & H' & ->).
  by destruct (replays_det _ _ _ _ _ H H') as [-> ->].
Qed.

(** ** Operations on a file whose environment never fails *)

Definition with_content (f : file) (c s : bytes) : file :=
  File true c s [] (f_reads f).

Lemma append_run f p :
  f_exists f = true → f_env f = [] → small p →
  append p f = (Ok tt, with_content f (f_content f ++ frame p) (f_synced f)).
Proof.
  intros Hx He Hp. destruct f as [x c sy env rd]; cbn in *; subst.
  unfold append. erewrite M_bind_run; [|unfold lift; rewrite u32_try_from_run by done; reflexivity].
  reflexivity.
Qed.

Lemma sync_run f :
  f_exists f = true → f_env f = [] →
  sync f = (Ok tt, with_content f (f_content f) (f_content f)).
Proof. intros Hx He. destruct f; cbn in *; subst. reflexivity. Qed.

Lemma reset_run f :
  f_exists f = true → f_env f = [] → reset f = (Ok tt, with_content f [] []).
Proof. intros Hx He. destruct f; cbn in *; subst. reflexivity. Qed.

Lemma open_run f :
  f_env f = [] → open f = (Ok tt, with_content f (f_content f) (f_synced f)).
Proof. intros He. destruct f; cbn in *; subst. reflexivity. Qed.

Lemma truncate_run f n :
  f_exists f = true → f_env f = [] → (n ≤ Z.of_nat (length (f_content f)))%Z →
  truncate_path n f =
  (Ok tt, with_content f (take (Z.to_nat n) (f_content f)) (take (Z.to_nat n) (f_content f))).
Proof.
  intros Hx He Hn. destruct f as [x c sy env rd]; cbn in *; subst.
  cbv [truncate_path set_len sync_all sys_call next_sys set_content modify get_state
       mbind M_bind mret M_ret f_env f_exists f_content f_synced f_reads with_content].
  by rewrite (proj2 (Z.leb_le _ _)).
Qed.

(** The error branches. *)
Lemma append_too_large f p :
  ¬ small p → append p f = (Err (invalid_input "wal: record exceeds 4 GiB"), f).
Proof.
  intros Hp. unfold append, mbind, M_bind, lift.
  destruct (u32_try_from _ _) as [z| |] eqn:Hu; [| |unfold u32_try_from in Hu; by case_match].
  - apply u32_try_from_ok in Hu as [-> ?]. done.
  - unfold u32_try_from in Hu. case_match; by simplify_eq.
Qed.

(** Writes and syncs succeed or fail; they do not panic. *)
Lemma append_cases p f :
  ∃ f', append p f = (Ok tt, f') ∨ ∃ e, append p f = (Err e, f').
Proof.
  unfold append, mbind, M_bind, lift, u32_try_from.
  destruct (Z.of_nat (length p) <=? U32_MAX)%Z; [|by eauto].
  unfold write_all, mbind, M_bind, get_state, next_sys.
  destruct (f_env f) as [|[|n e] env]; cbn; eauto.
Qed.

Lemma sync_cases f : ∃ f', sync f = (Ok tt, f') ∨ ∃ e, sync f = (Err e, f').
Proof.
  unfold sync, sync_all, sys_call, mbind, M_bind, next_sys.
  destruct (f_env f) as [|[|n e] env]; cbn; eauto.
Qed.

(** On a file whose system calls succeed. *)
Lemma append_quiet p f :
  f_env f = [] → (Z.of_nat (length p) ≤ U32_MAX)%Z → ∃ f', append p f = (Ok tt, f') ∧ f_env f' = [].
Proof.
  intros Hf Hp. unfold append. rewrite u32_try_from_run by (unfold u32_range; lia). run_steps.
  unfold write_all, next_sys, mbind, M_bind, get_state. rewrite Hf. eexists. split; [reflexivity|]. exact Hf.
Qed.

Lemma sync_quiet f : f_env f = [] → ∃ f', sync f = (Ok tt, f') ∧ f_env f' = [].
Proof.
  intros Hf. unfold sync, sync_all, sys_call, next_sys, mbind, M_bind. rewrite Hf.
  eexists. split; [reflexivity|]. exact Hf.
Qed.

(** ** A log file: durable records, then records not yet synced *)

Record log_file (f : file) (durable recent : list bytes) : Prop := LogFile {
  log_exists : f_exists f = true;
  log_readable : readable f;
  log_small : Forall small (durable ++ recent);
  log_content : f_content f = log_bytes (durable ++ recent);
  log_synced : f_synced f = log_bytes durable;
}.

Lemma log_bytes_app rs rs' : log_bytes (rs ++ rs') = log_bytes rs ++ log_bytes rs'.
Proof. apply bind_app. Qed.

Lemma log_bytes_one p : log_bytes [p] = frame p.
Proof. unfold log_bytes. cbn. apply app_nil_r. Qed.

Lemma readable_with f c s : readable f → readable (with_content f c s).
Proof. intros [_ H]. by split. Qed.

Lemma log_append f d r p :
  log_file f d r → small p →
  ∃ f', append p f = (Ok tt, f') ∧ log_file f' d (r ++ [p]).
Proof.
  intros [Hx Hr Hs Hc Hsy] Hp. eexists. split; [by apply append_run; [|apply Hr|]|].
  split; cbn; [done|by apply readable_with| |..].
  - rewrite app_assoc. apply Forall_app; auto.
  - by rewrite Hc, app_assoc, (log_bytes_app (d ++ r)), log_bytes_one.
  - done.
Qed.

Lemma log_sync f d r :
  log_file f d r → ∃ f', sync f = (Ok tt, f') ∧ log_file f' (d ++ r) [].
Proof.
  intros [Hx Hr Hs Hc Hsy]. eexists. split; [by apply sync_run; [|apply Hr]|].
  split; cbn; rewrite ?app_nil_r; auto using readable_with.
Qed.

Lemma log_replay f d r :
  log_file f d r →
  replay f = (Ok (Replay (d ++ r) false (Z.of_nat (length (f_content f)))), f).
Proof.
  intros [Hx Hr Hs Hc Hsy]. erewrite replay_of; [|done..|].
  2: { rewrite Hc, <- (app_nil_r (log_bytes _)). by apply replays_log; [|apply torn_nil]. }
  cbn. by rewrite Hc.
Qed.

Lemma log_stored rs : Forall small rs → log_file (stored (log_bytes rs)) rs [].
Proof. intros H. split; cbn; rewrite ?app_nil_r; [done|split; [done|constructor]|done..]. Qed.

(** Opening a damaged log: the repair leaves exactly the intact records. *)
Lemma repair_log c rs t :
  replays c rs t →
  ∃ f, (if tail_bad t then truncate_path (Z.of_nat (length (log_bytes rs))) else mret tt) (stored c)
       = (Ok tt, f) ∧ log_file f rs [].
Proof.
  intros Hrep. pose proof (replays_bytes _ _ _ Hrep) as Hc. pose proof (replays_small _ _ _ Hrep) as Hs.
  assert (readable (stored c)) as Hrd by (split; [done|constructor]).
  destruct (tail_bad t) eqn:Ht.
  - rewrite truncate_run; [|done|done|cbn; rewrite Hc, length_app; lia].
    eexists. split; [done|]. cbn [f_content stored]. rewrite Nat2Z.id, Hc, take_length_app.
    split; cbn; rewrite ?app_nil_r; done || by apply readable_with.
  - eexists. split; [done|]. unfold tail_bad in Ht. apply bool_decide_eq_false, dec_stable in Ht.
    subst t. rewrite app_nil_r in Hc. split; cbn; rewrite ?app_nil_r; done.
Qed.

(** [Wal::open] on an existing log changes nothing. *)
Lemma log_open f d r : log_file f d r → ∃ f', open f = (Ok tt, f') ∧ log_file f' d r.
Proof.
  intros [Hx Hr Hs Hc Hsy]. eexists. split; [apply open_run, Hr|].
  split; cbn; try done. by apply readable_with.
Qed.

(** ** Crashes *)

Lemma prefix_of_log rs c :
  Forall small rs → c `prefix_of` log_bytes rs → ∃ k t, replays c (take k rs) t.
Proof.
  intros H. revert c. induction H as [|p rs Hp H IH]; intros c Hc.
  - apply prefix_nil_inv in Hc as ->. exists 0, []. by apply replays_stop, torn_nil.
  - unfold log_bytes in Hc. cbn in Hc. apply prefix_cases in Hc as [Hc|(c2 & -> & Hc)].
    + destruct (decide (c = frame p)) as [->|Hne].
      * exists 1, []. rewrite <- (app_nil_r (frame p)). cbn. rewrite take_0.
        constructor; [done|]. by apply replays_stop, torn_nil.
      * exists 0, c. apply replays_stop. by eapply torn_prefix.
    + destruct (IH c2 Hc) as (k & t & Hk). exists (S k), t. by constructor.
Qed.

Lemma replays_prepend d c rs t :
  Forall small d → replays c rs t → replays (log_bytes d ++ c) (d ++ rs) t.
Proof.
  intros H Hc. induction H as [|p d Hp H IH]; [done|].
  unfold log_bytes in *. cbn. rewrite <- app_assoc. by constructor.
Qed.

Lemma crash_replays f d r c :
  log_file f d r → crash_image f c → ∃ k t, replays c (d ++ take k r) t.
Proof.
  intros [Hx Hr Hs Hc Hsy] Hcr. apply Forall_app in Hs as [Hd Hrs].
  assert (∀ c', log_bytes d `prefix_of` c' → c' `prefix_of` log_bytes (d ++ r) →
    ∃ k t, replays c' (d ++ take k r) t) as Hpre.
  { intros c' [q ->] H2. rewrite log_bytes_app in H2. apply prefix_app_inv in H2.
    apply prefix_of_log in H2 as (k & t & H2); [|done].
    exists k, t. by apply replays_prepend. }
  destruct Hcr as [c H1 H2| |]; apply Hpre; rewrite ?Hsy, ?Hc in *; try done.
  all: rewrite log_bytes_app; by eexists.
Qed.

(** ** Properties *)

(** C19. Replay terminates on every readable file, whatever its bytes and
    however its reads are cut or interrupted, and computes recovery: the
    records are the longest sequence of intact records the file begins with,
    [truncated] says whether bytes remain after them, and [valid_bytes] is
    where the intact prefix ends.  A missing file replays as an empty log. *)
Theorem replay_correct f :
  readable f →
  ∃ r, replay f = (Ok r, f) ∧
    if f_exists f then
      ∃ t, replays (f_content f) (records r) t ∧
           f_content f = log_bytes (records r) ++ t ∧
           truncated r = bool_decide (t ≠ []) ∧
           valid_bytes r = Z.of_nat (length (log_bytes (records r)))
    else r = default_replay.
Proof.
  intros Hr. destruct (f_exists f) eqn:Hx.
  - destruct (replay_spec f Hr Hx) as (rs & t & H & Hrun).
    eexists. split; [exact Hrun|]. exists t. by pose proof (replays_bytes _ _ _ H).
  - exists default_replay. split; [|done]. by apply replay_absent; [apply Hr|].
Qed.

Lemma replay_correct_witness :
  let f := File true (frame (as_bytes "k") ++ as_bytes "xyz") [] []
                [ReadUpTo 2; ReadInterrupted; ReadUpTo 0] in
  readable f ∧ ∃ r, replay f = (Ok r, f) ∧ records r = [as_bytes "k"] ∧ truncated r = true.
Proof.
  cbv zeta. set (f := File _ _ _ _ _).
  assert (readable f) as H by (split; [done|repeat constructor]).
  split; [exact H|]. destruct (replay_correct f H) as (r & Hr & _).
  exists r. split; [exact Hr|]. revert Hr. vm_compute. intros [= <-]. done.
Defined.

(** C20. After a crash at any moment, replay returns every record that was
    synced, followed by some of the records appended since, in order: nothing
    synced is lost, nothing is invented, nothing is reordered. *)
Theorem crash_keeps_synced_records f d r c :
  log_file f d r → crash_image f c →
  ∃ k res, replay (stored c) = (Ok res, stored c) ∧ records res = d ++ take k r.
Proof.
  intros Hf Hc. destruct (crash_replays f d r c Hf Hc) as (k & t & H).
  exists k. eexists. split; [apply replay_of; [split; [done|constructor]|done|exact H]|done].
Qed.

Lemma crash_keeps_synced_records_witness :
  let f := File true (log_bytes [as_bytes "a"; as_bytes "b"]) (log_bytes [as_bytes "a"]) [] [] in
  let c := log_bytes [as_bytes "a"] ++ take 5 (frame (as_bytes "b")) in
  log_file f [as_bytes "a"] [as_bytes "b"] ∧ crash_image f c ∧
  ∃ k res, replay (stored c) = (Ok res, stored c) ∧ records res = [as_bytes "a"] ++ take k [as_bytes "b"].
Proof.
  cbv zeta. set (f := File _ _ _ _ _). set (c := _ ++ _).
  assert (log_file f [as_bytes "a"] [as_bytes "b"]) as H1.
  { split; [done|split; [done|constructor]|solve_small|done|done]. }
  assert (crash_image f c) as H2.
  { apply crash_tail; [by eexists|]. exists (drop 5 (frame (as_bytes "b"))). reflexivity. }
  exact (conj H1 (conj H2 (crash_keeps_synced_records f _ _ c H1 H2))).
Defined.

(** Repair makes the log usable again.  Whatever bytes a file holds, after
    recovery has truncated it to [valid_bytes], a record appended and synced is
    returned by the next replay, right after the records recovered. *)
Theorem repair_then_append_replays f p :
  readable f → f_exists f = true → small p →
  ∃ res f1 f2 f3,
    replay f = (Ok res, f) ∧
    truncate_path (valid_bytes res) f = (Ok tt, f1) ∧
    append p f1 = (Ok tt, f2) ∧ sync f2 = (Ok tt, f3) ∧
    replay f3 = (Ok (Replay (records res ++ [p]) false (Z.of_nat (length (f_content f3)))), f3).
Proof.
  intros Hr Hx Hp. destruct (replay_spec f Hr Hx) as (rs & t & H & Hrun).
  assert (f_content f = log_bytes rs ++ t ∧ Forall small rs) as [Hb Hs].
  { split; [by apply replays_bytes|]. clear Hrun. induction H; auto. }
  pose proof (truncate_run f (Z.of_nat (length (log_bytes rs))) Hx (proj1 Hr)) as Htr.
  rewrite Hb, length_app, Nat2Z.id, take_app_length in Htr. specialize (Htr ltac:(lia)).
  set (f1 := with_content f (log_bytes rs) (log_bytes rs)) in *.
  assert (log_file f1 rs []) as Hf1.
  { split; rewrite ?app_nil_r; [done|by apply readable_with|done..]. }
  destruct (log_append f1 rs [] p Hf1 Hp) as (f2 & H2 & Hf2).
  destruct (log_sync f2 _ _ Hf2) as (f3 & H3 & Hf3).
  pose proof (log_replay _ _ _ Hf3) as H4. rewrite app_nil_r in H4.
  eexists _, f1, f2, f3. repeat split; [exact Hrun|exact Htr|exact H2|exact H3|exact H4].
Qed.

Lemma repair_then_append_replays_witness :
  let f := stored (frame (as_bytes "k") ++ as_bytes "torn") in
  readable f ∧ small (as_bytes "new") ∧
  ∃ res f1 f2 f3,
    replay f = (Ok res, f) ∧ truncate_path (valid_bytes res) f = (Ok tt, f1) ∧
    append (as_bytes "new") f1 = (Ok tt, f2) ∧ sync f2 = (Ok tt, f3) ∧
    replay f3 = (Ok (Replay (records res ++ [as_bytes "new"]) false
                            (Z.of_nat (length (f_content f3)))), f3).
Proof.
  cbv zeta. set (f := stored _).
  assert (readable f) as H1 by (split; [done|constructor]).
  assert (small (as_bytes "new")) as H2 by solve_small.
  exact (conj H1 (conj H2 (repair_then_append_replays f _ H1 eq_refl H2))).
Defined.

(** Corruption is caught, not replayed: if the payload of a stored record
    is altered inside any four consecutive bytes (a flipped bit, for one),
    replay returns exactly the records before it, reports the damage, and
    points at where the damaged record starts, whatever follows. *)
Theorem corrupted_record_stops_replay d pre w w' post rest :
  Forall small d → small (pre ++ w ++ post) →
  length w' = length w → length w ≤ 4 → w' ≠ w →
  let p := pre ++ w ++ post in
  let damaged := u32_le (Z.of_nat (length p)) ++ u32_le (crc32 p) ++ (pre ++ w' ++ post) in
  let f := stored (log_bytes d ++ damaged ++ rest) in
  replay f = (Ok (Replay d true (Z.of_nat (length (log_bytes d)))), f).
Proof.
  intros Hd Hp Hl H4 Hne p damaged f.
  assert (length p = length (pre ++ w' ++ post)) as Hlen
    by (unfold p; rewrite !length_app; lia).
  erewrite (replay_of f d (damaged ++ rest)); [|split; [done|constructor]|done|].
  - rewrite tail_bad_true; [done|].
    unfold damaged. rewrite <- app_assoc. apply header_nonempty.
  - cbn. apply replays_log; [done|]. unfold damaged. rewrite Hlen, <- !(app_assoc (u32_le _)).
    apply torn_crc; [by unfold small; rewrite <- Hlen|apply crc32_range|].
    unfold p. apply crc32_detects; [lia..|done].
Qed.

Lemma corrupted_record_stops_replay_witness :
  let w := as_bytes "d" in let w' := as_bytes "e" in
  Forall small [as_bytes "ok"] ∧ small (as_bytes "hello worl" ++ w ++ []) ∧
  length w' = length w ∧ length w ≤ 4 ∧ w' ≠ w ∧
  let p := as_bytes "hello worl" ++ w ++ [] in
  let f := stored (log_bytes [as_bytes "ok"] ++ (u32_le (Z.of_nat (length p)) ++
             u32_le (crc32 p) ++ (as_bytes "hello worl" ++ w' ++ [])) ++ []) in
  replay f = (Ok (Replay [as_bytes "ok"] true 10), f).
Proof.
  cbv zeta.
  assert (Forall small [as_bytes "ok"]) as H1
    by solve_small.
  assert (small (as_bytes "hello worl" ++ as_bytes "d" ++ [])) as H2
    by solve_small.
  assert (length (as_bytes "e") = length (as_bytes "d")) as H3 by reflexivity.
  assert (length (as_bytes "d") ≤ 4) as H4 by (cbn; lia).
  assert (as_bytes "e" ≠ as_bytes "d") as H5 by discriminate.
  exact (conj H1 (conj H2 (conj H3 (conj H4 (conj H5
    (corrupted_record_stops_replay [as_bytes "ok"] (as_bytes "hello worl") _ _ [] []
       H1 H2 H3 H4 H5)))))).
Defined.

(** The log is repaired only when it is opened: if a write fails half-way
    (here after three bytes, as on a full disk) and the caller goes on, a later
    record is appended and synced successfully and yet lost to replay. *)
Theorem append_after_failed_append_is_lost :
  let e := IoError Other "No space left on device (os error 28)" in
  let f0 := File true [] [] [SysFail 3 e] [] in
  ∃ f1 f2 f3,
    append (as_bytes "a") f0 = (Err e, f1) ∧
    append (as_bytes "b") f1 = (Ok tt, f2) ∧ sync f2 = (Ok tt, f3) ∧
    replay f3 = (Ok (Replay [] true 0), f3).
Proof.
  cbv zeta. set (e := IoError Other _). set (f0 := File _ _ _ _ _).
  exists (snd (append (as_bytes "a") f0)).
  exists (snd (append (as_bytes "b") (snd (append (as_bytes "a") f0)))).
  exists (snd (sync (snd (append (as_bytes "b") (snd (append (as_bytes "a") f0)))))).
  split; [|split; [|split]]; vm_compute; reflexivity.
Qed.

(** A zero-filled tail is not seen as torn: any number of zero bytes reads
    as intact empty records (length 0, checksum 0), one for every eight. *)
Theorem zero_tail_replays_as_empty_records n :
  replays (replicate (8 * n) "000"%char) (replicate n []) [].
Proof.
  induction n as [|n IH]; [apply replays_stop, torn_nil|].
  replace (8 * S n) with (8 + 8 * n) by lia. rewrite replicate_add.
  change (replicate 8 "000"%char) with (frame []). cbn [replicate].
  constructor; [unfold u32_range, U32_MAX; cbn; lia|done].
Qed.
