(* ===== verification/Cursor.v ===== *)
(** A cursor over a byte slice, shared by the three hand-written decoders
    (commands, transaction records, Raft state).

    Each source file has its own [struct Cursor { bytes, offset }] whose reads
    advance the offset or fail; they differ only in the messages, which are
    arguments here.  [reads m x a] says that the decoder [m], standing before
    the bytes [x], consumes exactly them and returns [a]; [only m enc] is the
    converse, that [m] succeeds only on encodings.  Both compose along the
    monad, so a codec's round trip is a composition of its fields'. *)

From S2P Require Import Prelude Bytes.
From Stdlib Require Import Ascii.

Record Cursor : Type := MkCursor { c_bytes : bytes; c_offset : nat }.

Abbreviation decoder := (M Cursor io_error).

(** [bytes.get(offset..offset + len)], then [offset += len]. *)
Definition take_bytes (len : Z) (e : io_error) : decoder bytes := λ c,
  match get_range (c_bytes c) (c_offset c) len with
  | Some x => (Ok x, MkCursor (c_bytes c) (c_offset c + Z.to_nat len))
  | None => (Err e, c)
  end.

(** One byte; [get(offset..offset + 1)] and [get(offset)] fail together. *)
Definition take_u8 (e : io_error) : decoder u8 :=
  x ← take_bytes 1 e;
  match x with [b] => mret b | _ => panic "take_u8: slice length" end.

Definition take_le (n : nat) (e : io_error) : decoder Z :=
  x ← take_bytes (Z.of_nat n) e; mret (from_le_bytes x).

(** [cursor.offset == bytes.len()] at the end of a decoder. *)
Definition at_end (c : Cursor) : bool := c_offset c =? length (c_bytes c).

(** Run a decoder on a slice and refuse trailing bytes. *)
Definition decode_all {A} (m : decoder A) (trailing : io_error) (bs : bytes) : io A :=
  match m (MkCursor bs 0) with
  | (Ok a, c) => if at_end c then Ok a else Err trailing
  | (Err e, _) => Err e
  | (Panic p, _) => Panic p
  end.

(** ** Decoding what was encoded *)

Definition at_ (pre rest : bytes) : Cursor := MkCursor (pre ++ rest) (length pre).

Definition reads {A} (m : decoder A) (x : bytes) (a : A) : Prop :=
  ∀ pre post, m (at_ pre (x ++ post)) = (Ok a, at_ (pre ++ x) post).

Lemma reads_ret {A} (a : A) : reads (mret a) [] a.
Proof. intros pre post. by rewrite app_nil_r. Qed.

Lemma reads_bind {A B} (m : decoder A) (f : A → decoder B) x y a b :
  reads m x a → reads (f a) y b → reads (m ≫= f) (x ++ y) b.
Proof.
  intros Hm Hf pre post. rewrite <- app_assoc. erewrite M_bind_run by apply Hm.
  rewrite Hf. by rewrite app_assoc.
Qed.

Lemma reads_last {A B} (m : decoder A) (f : A → decoder B) x a b :
  reads m x a → reads (f a) [] b → reads (m ≫= f) x b.
Proof. intros Hm Hf. rewrite <- (app_nil_r x). by eapply reads_bind. Qed.

Lemma reads_take x e : reads (take_bytes (Z.of_nat (length x)) e) x x.
Proof.
  intros pre post. unfold take_bytes, at_. cbn [c_bytes c_offset].
  rewrite get_range_app, Nat2Z.id, <- app_assoc, length_app. done.
Qed.

Lemma reads_u8 b e : reads (take_u8 e) [b] b.
Proof. apply reads_last with [b]; [apply (reads_take [b])|apply reads_ret]. Qed.

Lemma reads_le n z e :
  (0 ≤ z < 256 ^ Z.of_nat n)%Z → reads (take_le n e) (to_le_bytes n z) z.
Proof.
  intros Hz. eapply reads_last.
  - pose proof (reads_take (to_le_bytes n z) e) as H.
    rewrite length_to_le_bytes in H. exact H.
  - rewrite from_to_le_bytes by done. apply reads_ret.
Qed.

Lemma reads_u32 z e : u32_range z → reads (take_le 4 e) (u32_le z) z.
Proof. unfold u32_range, U32_MAX. intros. apply reads_le. lia. Qed.

Lemma reads_u64 z e : u64_range z → reads (take_le 8 e) (u64_le z) z.
Proof. unfold u64_range, U64_MAX. intros. apply reads_le. lia. Qed.

Lemma decode_all_reads {A} (m : decoder A) e x a : reads m x a → decode_all m e x = Ok a.
Proof.
  intros H. unfold decode_all. pose proof (H [] []) as Hr. unfold at_ in Hr. cbn in Hr.
  rewrite app_nil_r in Hr. rewrite Hr. unfold at_end. cbn. by rewrite Nat.eqb_refl.
Qed.

(** ** Decoding only what was encoded *)

(** From a cursor inside its slice, success means the bytes ahead begin with
    [enc a], they are what was consumed, and [P a]. *)
Definition only {A} (m : decoder A) (enc : A → bytes) (P : A → Prop) : Prop :=
  ∀ pre rest a c', m (at_ pre rest) = (Ok a, c') →
    P a ∧ ∃ post, rest = enc a ++ post ∧ c' = at_ (pre ++ enc a) post.

Lemma only_take len e : only (take_bytes len e) id (λ x, Z.of_nat (length x) = len).
Proof.
  intros pre rest x c'. unfold take_bytes, at_. cbn [c_bytes c_offset].
  case_match eqn:Hg; [|done]. intros [= <- <-].
  apply get_range_inv in Hg as (pre' & post & Heq & Hl & Hx).
  symmetry in Hl. apply app_inj_1 in Heq as [-> ->]; [|done].
  split; [done|]. exists post. split; [done|].
  rewrite length_app, <- app_assoc. f_equal. unfold id. lia.
Qed.

(** Sequencing: [enc] splits along the two halves. *)
Lemma only_bind {A B} (m : decoder A) (f : A → decoder B) encA encB enc (P : A → Prop) Q :
  only m encA P →
  (∀ a, P a → only (f a) (encB a) (λ b, enc b = encA a ++ encB a b ∧ Q b)) →
  only (m ≫= f) enc Q.
Proof.
  intros Hm Hf pre rest b c' H. apply M_bind_ok in H as (a & c1 & H1 & H2).
  apply Hm in H1 as (HP & post & -> & ->).
  apply (Hf a HP) in H2 as ((-> & HQ) & post2 & -> & ->).
  split; [done|]. exists post2. by rewrite <- !app_assoc.
Qed.

Lemma only_ret {A} (a : A) enc (P : A → Prop) : enc a = [] → P a → only (mret a) enc P.
Proof.
  intros He HP pre rest a' c' [= <- <-]. split; [done|]. exists rest. by rewrite He, app_nil_r.
Qed.

Lemma only_fail {A} (e : io_error) (enc : A → bytes) P : only (fail e) enc P.
Proof. by intros pre rest a c' [=]. Qed.

Lemma only_panic {A} p (enc : A → bytes) P : only (panic p) enc P.
Proof. by intros pre rest a c' [=]. Qed.

Lemma only_lift {A} (r : io A) enc (P : A → Prop) :
  (∀ a, r = Ok a → enc a = [] ∧ P a) → only (lift r) enc P.
Proof.
  intros Hr pre rest a c' [= Ha <-]. apply Hr in Ha as [He HP].
  split; [done|]. exists rest. by rewrite He, app_nil_r.
Qed.

Lemma only_weaken {A} (m : decoder A) enc enc' (P Q : A → Prop) :
  only m enc P → (∀ a, P a → enc' a = enc a ∧ Q a) → only m enc' Q.
Proof.
  intros Hm H pre rest a c' Hr. apply Hm in Hr as (HP & post & -> & ->).
  apply H in HP as [-> HQ]. eauto.
Qed.

Lemma only_u8 e : only (take_u8 e) (λ b, [b]) (λ _, True).
Proof.
  eapply (only_bind _ _ id (λ x _, [])); [apply only_take|].
  intros [|b [|? ?]] Hx; try apply only_panic. by apply only_ret.
Qed.

Lemma only_le n e :
  only (take_le n e) (to_le_bytes n) (λ z, 0 ≤ z < 256 ^ Z.of_nat n)%Z.
Proof.
  eapply (only_bind _ _ id (λ x _, [])); [apply only_take|].
  intros x Hx. apply Nat2Z.inj in Hx. subst n. apply only_ret; [done|].
  unfold id. rewrite app_nil_r, to_from_le_bytes. split; [done|]. apply from_le_bytes_range.
Qed.

Lemma only_u32 e : only (take_le 4 e) u32_le u32_range.
Proof.
  eapply only_weaken; [apply only_le|]. intros z Hz. split; [done|].
  unfold u32_range, U32_MAX. cbn in Hz. lia.
Qed.

Lemma only_u64 e : only (take_le 8 e) u64_le u64_range.
Proof.
  eapply only_weaken; [apply only_le|]. intros z Hz. split; [done|].
  unfold u64_range, U64_MAX. cbn in Hz. lia.
Qed.

Lemma decode_all_only {A} (m : decoder A) enc (P : A → Prop) e bs a :
  only m enc P → decode_all m e bs = Ok a → bs = enc a ∧ P a.
Proof.
  intros Hm. unfold decode_all. change (MkCursor bs 0) with (at_ [] bs).
  destruct (m (at_ [] bs)) as [[a'| |] c] eqn:Hr; [|done..].
  apply Hm in Hr as (HP & post & -> & ->). case_match eqn:He; [|done]. intros [= <-].
  split; [|done]. apply Nat.eqb_eq in He. unfold at_ in He. cbn in He.
  rewrite length_app in He. destruct post; [by rewrite app_nil_r|cbn in He; lia].
Qed.

#[export] Hint Resolve reads_ret reads_u8 reads_u32 reads_u64 only_u8 only_u32 only_u64 : nutdb.
