(* ===== verification/Command.v ===== *)
(** The store's log payloads: src/src/command.rs. *)

From S2P Require Import Prelude Bytes Crc Wal Cursor.
From Stdlib Require Import Ascii.

Definition TAG_SET : u8 := to_u8 0x01.
Definition TAG_DELETE : u8 := to_u8 0x02.
Definition TAG_CHECKPOINT : u8 := to_u8 0x03.

Inductive Command : Type :=
| CSet (key value : string)
| CDelete (key : string)
| CCheckpoint.

#[export] Instance command_eq_dec : EqDecision Command.
Proof. solve_decision. Defined.

(** [bytes.len() as u32]: the cast wraps. *)
Definition as_u32 (n : nat) : Z := (Z.of_nat n mod 2 ^ 32)%Z.

Definition push_bytes (out bs : bytes) : bytes := out ++ u32_le (as_u32 (length bs)) ++ bs.

Definition encode (c : Command) : bytes :=
  match c with
  | CSet key value => push_bytes (push_bytes [TAG_SET] (as_bytes key)) (as_bytes value)
  | CDelete key => push_bytes [TAG_DELETE] (as_bytes key)
  | CCheckpoint => [TAG_CHECKPOINT]
  end.

Definition unexpected_end : io_error := invalid_data "unexpected end of command".

Definition take_u32 : decoder Z := take_le 4 unexpected_end.

Definition take_string : decoder string :=
  len ← take_u32;
  slice ← take_bytes len (invalid_data "command length exceeds record");
  lift (from_utf8 slice (invalid_data "key or value is not valid UTF-8")).

(** The [{:#04x}] format of a byte. *)
Definition hex_digits : bytes := as_bytes "0123456789abcdef".
Definition hex_digit (n : Z) : u8 := nth (Z.to_nat n) hex_digits "0"%char.
Definition hex04 (b : u8) : string :=
  "0x" +:+ of_bytes [hex_digit (u8_val b / 16); hex_digit (u8_val b mod 16)].

Definition decode_body : decoder Command :=
  tag ← take_u8 unexpected_end;
  if decide (tag = TAG_SET) then
    key ← take_string; value ← take_string; mret (CSet key value)
  else if decide (tag = TAG_DELETE) then
    key ← take_string; mret (CDelete key)
  else if decide (tag = TAG_CHECKPOINT) then mret CCheckpoint
  else fail (invalid_data ("unknown command tag " +:+ hex04 tag)).

Definition decode (bs : bytes) : io Command :=
  decode_all decode_body (invalid_data "trailing bytes after command") bs.

(** ** Round trips *)

(** A command of Rust strings that a [u32] length can describe. *)
Definition fits (s : string) : Prop := is_str s ∧ u32_range (Z.of_nat (str_len s)).

Definition command_ok (c : Command) : Prop :=
  match c with
  | CSet key value => fits key ∧ fits value
  | CDelete key => fits key
  | CCheckpoint => True
  end.

Definition string_field (s : string) : bytes :=
  u32_le (Z.of_nat (str_len s)) ++ as_bytes s.

Lemma as_u32_small n : u32_range (Z.of_nat n) → as_u32 n = Z.of_nat n.
Proof. unfold u32_range, U32_MAX, as_u32. intros H. apply Z.mod_small. lia. Qed.

Lemma push_string out s : fits s → push_bytes out (as_bytes s) = out ++ string_field s.
Proof. intros [_ H]. unfold push_bytes, string_field. by rewrite as_u32_small. Qed.

Lemma reads_string s : fits s → reads take_string (string_field s) s.
Proof.
  intros [Hs Hl]. apply reads_bind with (Z.of_nat (str_len s)); [by apply reads_u32|].
  apply reads_last with (as_bytes s); [apply reads_take|].
  intros pre post. cbn. unfold lift. rewrite from_utf8_as_bytes by done. by rewrite app_nil_r.
Qed.

Lemma only_string : only take_string string_field fits.
Proof.
  eapply (only_bind _ _ u32_le (λ _ s, as_bytes s)); [apply only_u32|]. intros len Hlen.
  eapply (only_bind _ _ id (λ _ _, [])); [apply only_take|]. intros x Hx.
  apply only_lift. intros s [Hs ->]%from_utf8_ok. split; [done|].
  unfold id. rewrite app_nil_r. split; [done|]. subst len. done.
Qed.

Lemma encode_fields c :
  command_ok c →
  encode c = match c with
             | CSet key value => [TAG_SET] ++ string_field key ++ string_field value
             | CDelete key => [TAG_DELETE] ++ string_field key
             | CCheckpoint => [TAG_CHECKPOINT]
             end.
Proof.
  destruct c as [key value|key|]; cbn [command_ok encode]; [intros [Hk Hv]|intros Hk|done].
  - rewrite !push_string by done. by rewrite <- app_assoc.
  - by rewrite push_string.
Qed.

Lemma decode_encode c : command_ok c → decode (encode c) = Ok c.
Proof.
  intros Hc. apply decode_all_reads. rewrite encode_fields by done.
  destruct c as [key value|key|]; cbn [command_ok] in Hc; unfold decode_body.
  - destruct Hc as [Hk Hv]. eapply reads_bind; [apply reads_u8|].
    rewrite decide_True by done. eapply reads_bind; [by apply reads_string|].
    eapply reads_last; [by apply reads_string|apply reads_ret].
  - eapply reads_bind; [apply reads_u8|]. rewrite decide_False, decide_True by done.
    eapply reads_last; [by apply reads_string|apply reads_ret].
  - eapply reads_last; [apply reads_u8|]. rewrite !decide_False, decide_True by done.
    apply reads_ret.
Qed.

Lemma encode_decode bs c : decode bs = Ok c → bs = encode c ∧ command_ok c.
Proof.
  apply decode_all_only. eapply (only_bind _ _ (λ b, [b]) (λ _ c, drop 1 (encode c)));
    [apply only_u8|].
  intros tag _. repeat case_decide; subst.
  - eapply (only_bind _ _ string_field (λ _ c, match c with CSet _ v => string_field v | _ => [] end));
      [apply only_string|]. intros k Hk.
    eapply (only_bind _ _ string_field (λ _ _, [])); [apply only_string|]. intros v Hv.
    apply only_ret; [done|].
    assert (command_ok (CSet k v)) as Hc by done.
    rewrite (encode_fields _ Hc), app_nil_r. cbn [app drop]. done.
  - eapply (only_bind _ _ string_field (λ _ _, [])); [apply only_string|]. intros k Hk.
    apply only_ret; [done|].
    assert (command_ok (CDelete k)) as Hc by done.
    rewrite (encode_fields _ Hc), app_nil_r. cbn [app drop]. done.
  - by apply only_ret.
  - apply only_fail.
Qed.

(** The strings of a command are Rust strings. *)
Definition command_strings (c : Command) : Prop :=
  match c with CSet k v => is_str k ∧ is_str v | CDelete k => is_str k | CCheckpoint => True end.

(** A payload the log accepts came from lengths that did not wrap. *)
Lemma small_command_fits c :
  command_strings c → small (encode c) → command_ok c.
Proof.
  unfold small, u32_range, U32_MAX. intros Hs Hl.
  destruct c as [k v|k|]; cbn [command_ok command_strings encode] in *; unfold push_bytes in Hl;
    rewrite ?length_app, ?length_u32_le in Hl; cbn [length] in Hl;
    unfold fits, u32_range, U32_MAX, str_len; naive_solver lia.
Qed.

(** ** Properties *)

(** The command codec is exact: the bytes that decode to a command are its
    encoding and nothing else, for every command of Rust strings whose lengths
    fit the format's 32-bit fields. *)
Theorem command_codec_exact bs c : decode bs = Ok c ↔ command_ok c ∧ bs = encode c.
Proof.
  split.
  - intros H. apply encode_decode in H as [-> ?]. done.
  - intros [Hc ->]. by apply decode_encode.
Qed.

(** The wrapping cast of a field's length is harmless: whatever the log
    accepts ([append] refuses payloads of 4 GiB and more) decodes back to the
    command that was appended. *)
Theorem logged_command_decodes c f f' :
  command_strings c → append (encode c) f = (Ok tt, f') → decode (encode c) = Ok c.
Proof.
  intros Hs Ha. apply decode_encode, small_command_fits; [done|].
  destruct (decide (Z.of_nat (length (encode c)) ≤ U32_MAX)%Z) as [Hl|Hl].
  - unfold small, u32_range. lia.
  - rewrite append_too_large in Ha by (unfold small, u32_range; lia). done.
Qed.

Lemma logged_command_decodes_witness :
  let c := CSet "user:1" "ada" in
  command_strings c ∧ append (encode c) (stored []) = (Ok tt, File true (frame (encode c)) [] [] []) ∧
  decode (encode c) = Ok c.
Proof.
  cbv zeta. assert (command_strings (CSet "user:1" "ada")) as H1 by (split; reflexivity).
  assert (append (encode (CSet "user:1" "ada")) (stored [])
    = (Ok tt, File true (frame (encode (CSet "user:1" "ada"))) [] [] [])) as H2 by reflexivity.
  exact (conj H1 (conj H2 (logged_command_decodes _ _ _ H1 H2))).
Defined.

(** The source's own rejection tests. *)
Example decode_garbage :
  decode (map to_u8 [0xFF; 0; 0; 0; 0]%Z) = Err (invalid_data "unknown command tag 0xff").
Proof. vm_compute. reflexivity. Qed.
Example decode_empty : decode [] = Err unexpected_end.
Proof. reflexivity. Qed.
Example decode_short : decode (map to_u8 [0x01; 0xFF; 0xFF; 0; 0]%Z)
  = Err (invalid_data "command length exceeds record").
Proof. vm_compute. reflexivity. Qed.
Example decode_unicode :
  decode (encode (CSet "ключ" "значение")) = Ok (CSet "ключ" "значение").
Proof. vm_compute. reflexivity. Qed.
