(* ===== verification/Versions.v ===== *)
(** Version chains and snapshot visibility: src/src/version.rs, src/src/gc.rs
    and the functions of src/src/txn.rs on the version table.

    [visible_value] reads the table at a snapshot.  The laws proved here are
    what the transaction layer needs: a commit at a later timestamp changes no
    earlier snapshot and shows exactly its writes from then on; collection
    below a watermark changes no snapshot at or above it; [latest_change] is
    the last commit that changed the key. *)

From S2P Require Import Prelude.
Local Open Scope Z_scope.

Record Version : Type := MkVersion {
  value : string;
  created_at : Z;
  deleted_at : option Z;
}.

#[export] Instance version_eq_dec : EqDecision Version.
Proof. solve_decision. Defined.

Definition visible_at (v : Version) (snapshot : Z) : bool :=
  (created_at v <=? snapshot) &&
  default true ((λ deleted, snapshot <? deleted) <$> deleted_at v).

Definition last_modified (v : Version) : Z :=
  Z.max (default (created_at v) (deleted_at v)) (created_at v).

Abbreviation table := (gmap string (list Version)).
Abbreviation write_set := (gmap string (option string)).

(** The newest version of a chain visible at a snapshot. *)
Definition chain_value (chain : list Version) (snapshot : Z) : option string :=
  value <$> List.find (λ v, visible_at v snapshot) (reverse chain).

Definition visible_value (versions : table) (key : string) (snapshot : Z) : option string :=
  chain ← versions !! key; chain_value chain snapshot.

Definition chain_change (chain : list Version) : Z :=
  default 0 (last_modified <$> last chain).

Definition latest_change (versions : table) (key : string) : Z :=
  default 0 (chain_change <$> versions !! key).

(** [if let Some(current) = chain.last_mut()]: close the live version. *)
Definition mark_deleted (timestamp : Z) (v : Version) : Version :=
  match deleted_at v with
  | None => MkVersion (value v) (created_at v) (Some timestamp)
  | Some _ => v
  end.

Definition apply_write (timestamp : Z) (w : option string) (chain : list Version) : list Version :=
  let chain := alter (mark_deleted timestamp) (pred (length chain)) chain in
  match w with
  | Some v => chain ++ [MkVersion v timestamp None]
  | None => chain
  end.

Definition apply_versions (versions : table) (writes : write_set) (timestamp : Z) : table :=
  foldl (λ vs '(key, w), <[key := apply_write timestamp w (default [] (vs !! key))]> vs)
        versions (btree_iter writes).

(** ** Garbage collection *)

Record GcReport : Type := MkGcReport { watermark : Z; versions_reclaimed : nat }.

(** A version is kept unless it was deleted before the watermark. *)
Definition gc_keep (watermark : Z) (v : Version) : bool :=
  negb (default false ((λ deleted, deleted <? watermark) <$> deleted_at v)).

Definition gc_chain (watermark : Z) (chain : list Version) : list Version :=
  List.filter (gc_keep watermark) chain.

Arguments gc_chain : simpl never.

(** [retain] on the table: empty chains go. *)
Definition gc_versions (watermark : Z) (versions : table) : table :=
  omap (λ chain, match gc_chain watermark chain with [] => None | c => Some c end) versions.

Definition gc_reclaimed (watermark : Z) (versions : table) : nat :=
  foldr (λ '(_, chain) n, (length chain - length (gc_chain watermark chain) + n)%nat)
        0%nat (btree_iter versions).

(** ** Chains as the store builds them *)

(** Every version but the last is closed; each opens when its predecessor was
    closed or later; no stamp exceeds [now]. *)
Fixpoint chain_wf (lo now : Z) (chain : list Version) : Prop :=
  match chain with
  | [] => True
  | v :: rest =>
    lo ≤ created_at v ≤ now ∧
    match deleted_at v with
    | Some d => created_at v < d ≤ now ∧ chain_wf d now rest
    | None => rest = []
    end
  end.

Definition table_wf (now : Z) (versions : table) : Prop :=
  ∀ k chain, versions !! k = Some chain → chain_wf 1 now chain.

(** ** Unfolding along the chain *)

Lemma find_app {A} (f : A → bool) l k :
  List.find f (l ++ k) = match List.find f l with Some x => Some x | None => List.find f k end.
Proof. induction l as [|x l IH]; cbn; [done|]. by destruct (f x). Qed.

Lemma chain_value_cons x chain s :
  chain_value (x :: chain) s =
  match chain_value chain s with
  | Some v => Some v
  | None => if visible_at x s then Some (value x) else None
  end.
Proof.
  unfold chain_value. rewrite reverse_cons, find_app. cbn.
  destruct (List.find _ (reverse chain)); [done|]. by destruct (visible_at x s).
Qed.

Lemma apply_write_nil ts w :
  apply_write ts w [] = match w with Some v => [MkVersion v ts None] | None => [] end.
Proof. by destruct w. Qed.

Lemma apply_write_one ts w x :
  apply_write ts w [x]
  = mark_deleted ts x :: match w with Some v => [MkVersion v ts None] | None => [] end.
Proof. by destruct w. Qed.

Lemma apply_write_cons ts w x y chain :
  apply_write ts w (x :: y :: chain) = x :: apply_write ts w (y :: chain).
Proof. unfold apply_write. by destruct w. Qed.

Lemma chain_change_cons x y chain : chain_change (x :: y :: chain) = chain_change (y :: chain).
Proof. reflexivity. Qed.

(** Induction on chains by the unfoldings above. *)
Lemma chain_ind (P : list Version → Prop) :
  P [] → (∀ x, P [x]) → (∀ x y chain, P (y :: chain) → P (x :: y :: chain)) → ∀ chain, P chain.
Proof.
  intros H0 H1 H2 chain. induction chain as [|x [|y chain] IH]; auto.
Qed.

Ltac chain_cases w :=
  rewrite ?apply_write_nil, ?apply_write_one, ?apply_write_cons; destruct w; cbn [app].

(** ** A commit at [ts] *)

Lemma visible_mark_deleted ts v s : s < ts → visible_at (mark_deleted ts v) s = visible_at v s.
Proof.
  intros Hs. unfold visible_at, mark_deleted. destruct (deleted_at v) as [d|] eqn:Hd; cbn.
  - by rewrite Hd.
  - by rewrite (proj2 (Z.ltb_lt _ _)).
Qed.

Lemma value_mark_deleted ts v : value (mark_deleted ts v) = value v.
Proof. unfold mark_deleted. by destruct (deleted_at v). Qed.

Lemma visible_new v ts s : visible_at (MkVersion v ts None) s = (ts <=? s).
Proof. unfold visible_at. cbn. apply andb_true_r. Qed.

Lemma apply_write_old ts w chain s :
  s < ts → chain_value (apply_write ts w chain) s = chain_value chain s.
Proof.
  intros Hs. induction chain as [|x|x y chain IH] using chain_ind.
  - chain_cases w; [|done]. rewrite chain_value_cons, visible_new, (proj2 (Z.leb_gt _ _)) by done.
    done.
  - chain_cases w; rewrite !chain_value_cons, ?visible_new, visible_mark_deleted, value_mark_deleted,
      ?(proj2 (Z.leb_gt ts s)) by done; done.
  - rewrite apply_write_cons, !(chain_value_cons x), IH. done.
Qed.

(** Closed versions are invisible from their deletion on. *)
Lemma visible_closed v d s : deleted_at v = Some d → d ≤ s → visible_at v s = false.
Proof.
  intros Hd Hs. unfold visible_at. rewrite Hd. cbn.
  rewrite (proj2 (Z.ltb_ge _ _)) by done. apply andb_false_r.
Qed.

Lemma mark_deleted_closed lo now ts x :
  chain_wf lo now [x] → now < ts → ∃ d, deleted_at (mark_deleted ts x) = Some d ∧ created_at x < d ≤ ts.
Proof.
  cbn. unfold mark_deleted. intros [Hc Hd] Hts. destruct (deleted_at x) as [d|] eqn:Hx.
  - exists d. split; [done|lia].
  - exists ts. split; [done|lia].
Qed.

Lemma apply_write_new lo now ts w chain s :
  chain_wf lo now chain → now < ts → ts ≤ s → chain_value (apply_write ts w chain) s = w.
Proof.
  intros Hwf Hts Hs. revert lo Hwf.
  induction chain as [|x|x y chain IH] using chain_ind; intros lo Hwf.
  - chain_cases w; [|done]. by rewrite chain_value_cons, visible_new, (proj2 (Z.leb_le _ _)).
  - destruct (mark_deleted_closed _ _ ts _ Hwf Hts) as (d & Hd & ?).
    chain_cases w; rewrite !chain_value_cons, ?visible_new, ?(proj2 (Z.leb_le ts s)),
      (visible_closed _ d) by (done || lia); done.
  - cbn [chain_wf] in Hwf. destruct Hwf as (Hc & Hrest).
    destruct (deleted_at x) as [d|] eqn:Hd; [|done]. destruct Hrest as (Hdr & Hrest).
    rewrite apply_write_cons, chain_value_cons, (IH _ Hrest), (visible_closed x d) by (done || lia).
    by destruct w.
Qed.

Lemma chain_wf_weaken lo lo' now now' chain :
  lo' ≤ lo → now ≤ now' → chain_wf lo now chain → chain_wf lo' now' chain.
Proof.
  revert lo lo'. induction chain as [|x chain IH]; intros lo lo' Hlo Hn; cbn; [done|].
  destruct (deleted_at x) as [d|]; [|naive_solver lia].
  intros (? & ? & Hr). repeat split; [lia..|]. by apply (IH d d).
Qed.

Lemma apply_write_wf lo now ts w chain :
  chain_wf lo now chain → now < ts → lo ≤ ts → chain_wf lo ts (apply_write ts w chain).
Proof.
  intros Hwf Hts. revert lo Hwf.
  induction chain as [|x|x y chain IH] using chain_ind; intros lo Hwf Hlo.
  - chain_cases w; cbn; repeat split; done || lia.
  - destruct (mark_deleted_closed _ _ ts _ Hwf Hts) as (d & Hd & ?).
    assert (created_at (mark_deleted ts x) = created_at x) as Hcr
      by (unfold mark_deleted; by destruct (deleted_at x)).
    destruct Hwf as [Hc _]. chain_cases w; cbn; rewrite Hd, Hcr; repeat split; lia.
  - cbn [chain_wf] in Hwf. destruct Hwf as (Hc & Hrest). rewrite apply_write_cons.
    destruct (deleted_at x) as [d|] eqn:Hd; [|done]. destruct Hrest as (Hdr & Hrest).
    cbn [chain_wf]. rewrite Hd. repeat split; [lia..|]. apply IH; [done|lia].
Qed.

(** ** The last change of a chain *)

Lemma chain_change_range lo now chain :
  0 ≤ lo → 0 ≤ now → chain_wf lo now chain → 0 ≤ chain_change chain ≤ now.
Proof.
  intros Hlo Hn. revert lo Hlo. induction chain as [|x|x y chain IH] using chain_ind; intros lo Hlo Hwf.
  - cbn. lia.
  - cbn in *. unfold chain_change, last_modified. cbn. destruct (deleted_at x); cbn; lia.
  - cbn [chain_wf] in Hwf. destruct Hwf as (Hc & Hrest). rewrite chain_change_cons.
    destruct (deleted_at x) as [d|]; [|done]. apply (IH d); [lia|apply Hrest].
Qed.

(** A write changes a key when it sets it or removes a value it had. *)
Definition changes (w : option string) (before : option string) : bool :=
  match w, before with None, None => false | _, _ => true end.

Lemma chain_change_apply lo now ts w chain :
  0 ≤ lo → chain_wf lo now chain → now < ts →
  chain_change (apply_write ts w chain)
  = if changes w (chain_value chain now) then ts else chain_change chain.
Proof.
  intros Hlo Hwf Hts. revert lo Hlo Hwf.
  induction chain as [|x|x y chain IH] using chain_ind; intros lo Hlo Hwf.
  - chain_cases w; cbn; [|done]. unfold chain_change, last_modified. cbn. lia.
  - rewrite chain_value_cons. cbn in Hwf. destruct Hwf as [Hc Hd].
    unfold visible_at. rewrite (proj2 (Z.leb_le _ _)) by lia.
    unfold mark_deleted, chain_change, last_modified.
    chain_cases w; unfold mark_deleted; destruct (deleted_at x) as [d|] eqn:Hx; cbn;
      rewrite ?Hx; cbn; try lia.
    + rewrite (proj2 (Z.ltb_ge _ _)) by lia. cbn. lia.
  - cbn [chain_wf] in Hwf. destruct Hwf as (Hc & Hrest).
    destruct (deleted_at x) as [d|] eqn:Hd; [|done]. destruct Hrest as (Hdr & Hrest).
    rewrite apply_write_cons, chain_value_cons, (visible_closed x d) by (done || lia).
    specialize (IH d ltac:(lia) Hrest). rewrite (chain_change_cons x).
    assert (∃ z l, apply_write ts w (y :: chain) = z :: l) as (z & l & Hz).
    { destruct chain; [rewrite apply_write_one|rewrite apply_write_cons]; eauto. }
    rewrite Hz in *. rewrite chain_change_cons, IH. by destruct (chain_value _ now).
Qed.

(** ** Collection *)

Lemma gc_keep_false wm v :
  gc_keep wm v = false ↔ ∃ d, deleted_at v = Some d ∧ d < wm.
Proof.
  unfold gc_keep. destruct (deleted_at v) as [d|]; cbn.
  - rewrite negb_false_iff, Z.ltb_lt. naive_solver.
  - naive_solver.
Qed.

Lemma gc_chain_cons wm v chain :
  gc_chain wm (v :: chain) = if gc_keep wm v then v :: gc_chain wm chain else gc_chain wm chain.
Proof. reflexivity. Qed.

Lemma gc_chain_value wm chain s :
  wm ≤ s + 1 → chain_value (gc_chain wm chain) s = chain_value chain s.
Proof.
  intros Hs. induction chain as [|v chain IH]; [done|].
  rewrite gc_chain_cons, (chain_value_cons v chain). destruct (gc_keep wm v) eqn:Hk.
  - by rewrite chain_value_cons, IH.
  - apply gc_keep_false in Hk as (d & Hd & ?).
    rewrite IH, (visible_closed v d) by (done || lia). by destruct (chain_value chain s).
Qed.

Lemma gc_chain_wf wm lo now chain : chain_wf lo now chain → chain_wf lo now (gc_chain wm chain).
Proof.
  revert lo. induction chain as [|v chain IH]; intros lo Hwf; [done|].
  rewrite gc_chain_cons. cbn [chain_wf] in Hwf. destruct Hwf as (Hc & Hrest).
  destruct (deleted_at v) as [d|] eqn:Hd.
  - destruct Hrest as (Hdr & Hrest). apply IH in Hrest. destruct (gc_keep wm v).
    + cbn [chain_wf]. by rewrite Hd.
    + eapply chain_wf_weaken; [| |exact Hrest]; lia.
  - subst chain. destruct (gc_keep wm v) eqn:Hk; [cbn; by rewrite Hd|done].
Qed.

Lemma gc_chain_change wm lo now chain s :
  0 ≤ lo → 0 ≤ s → wm ≤ s + 1 → chain_wf lo now chain →
  s < chain_change (gc_chain wm chain) ↔ s < chain_change chain.
Proof.
  intros Hlo H0 Hs. revert lo Hlo.
  induction chain as [|x|x y chain IH] using chain_ind; intros lo Hlo Hwf; [done| |].
  - rewrite gc_chain_cons. destruct (gc_keep wm x) eqn:Hk; [done|].
    apply gc_keep_false in Hk as (d & Hd & ?). cbn in Hwf. rewrite Hd in Hwf.
    change (gc_chain wm []) with (@nil Version).
    unfold chain_change, last_modified. cbn. rewrite Hd. cbn. lia.
  - cbn [chain_wf] in Hwf. destruct Hwf as (Hc & Hrest).
    destruct (deleted_at x) as [d|] eqn:Hd; [|done]. destruct Hrest as (Hdr & Hrest).
    rewrite gc_chain_cons, chain_change_cons. specialize (IH d ltac:(lia) Hrest).
    destruct (gc_keep wm x) eqn:Hk; [|done].
    destruct (gc_chain wm (y :: chain)) as [|z l] eqn:Hz; [|by rewrite chain_change_cons].
    rewrite <- IH. unfold chain_change, last_modified. cbn. rewrite Hd. cbn.
    (* [y] goes only when it was closed before the watermark; [x] closed earlier. *)
    rewrite gc_chain_cons in Hz. destruct (gc_keep wm y) eqn:Hy; [done|].
    apply gc_keep_false in Hy as (d' & Hd' & ?).
    change (chain_wf d now (y :: chain)) in Hrest. cbn [chain_wf] in Hrest.
    rewrite Hd' in Hrest. lia.
Qed.

(** ** The same at the level of the table *)

Definition chain_of (vs : table) (k : string) : list Version := default [] (vs !! k).

Lemma visible_value_chain vs k s : visible_value vs k s = chain_value (chain_of vs k) s.
Proof. unfold visible_value, chain_of. by destruct (vs !! k). Qed.

Lemma latest_change_chain vs k : latest_change vs k = chain_change (chain_of vs k).
Proof. unfold latest_change, chain_of. by destruct (vs !! k). Qed.

Lemma table_wf_chain now vs k : table_wf now vs → chain_wf 1 now (chain_of vs k).
Proof. intros H. unfold chain_of. destruct (vs !! k) eqn:Hk; [by apply H in Hk|done]. Qed.

Lemma lookup_apply_writes_list vs ts l k :
  NoDup l.*1 →
  foldl (λ vs '(key, w), <[key := apply_write ts w (default [] (vs !! key))]> vs) vs l !! k
  = match list_to_map (M:=gmap string _) l !! k with
    | Some w => Some (apply_write ts w (chain_of vs k))
    | None => vs !! k
    end.
Proof.
  revert vs. induction l as [|[key w] l IH]; intros vs; cbn; [done|].
  intros [Hnotin Hnd]%NoDup_cons. rewrite IH by done.
  destruct (decide (key = k)) as [->|Hne].
  - rewrite lookup_insert_eq, not_elem_of_list_to_map_1 by done. by rewrite lookup_insert_eq.
  - rewrite lookup_insert_ne by done. unfold chain_of.
    by rewrite !lookup_insert_ne by done.
Qed.

Lemma list_to_map_btree_iter {V} (m : gmap string V) : list_to_map (btree_iter m) = m.
Proof.
  rewrite (list_to_map_proper _ (map_to_list m)).
  - apply list_to_map_to_list.
  - apply NoDup_btree_keys.
  - apply btree_iter_perm.
Qed.

Lemma lookup_apply_versions vs ws ts k :
  apply_versions vs ws ts !! k
  = match ws !! k with
    | Some w => Some (apply_write ts w (chain_of vs k))
    | None => vs !! k
    end.
Proof.
  unfold apply_versions. rewrite lookup_apply_writes_list by apply NoDup_btree_keys.
  by rewrite list_to_map_btree_iter.
Qed.

Lemma chain_of_apply vs ws ts k :
  chain_of (apply_versions vs ws ts) k
  = match ws !! k with Some w => apply_write ts w (chain_of vs k) | None => chain_of vs k end.
Proof. unfold chain_of at 1. rewrite lookup_apply_versions. by destruct (ws !! k). Qed.

Lemma visible_apply_old vs ws ts k s :
  s < ts → visible_value (apply_versions vs ws ts) k s = visible_value vs k s.
Proof.
  intros Hs. rewrite !visible_value_chain, chain_of_apply.
  destruct (ws !! k); [by apply apply_write_old|done].
Qed.

Lemma visible_apply_new now vs ws ts k s :
  table_wf now vs → now < ts → ts ≤ s →
  visible_value (apply_versions vs ws ts) k s
  = match ws !! k with Some w => w | None => visible_value vs k s end.
Proof.
  intros Hwf Hn Hs. rewrite !visible_value_chain, chain_of_apply.
  destruct (ws !! k); [|done]. eapply apply_write_new; [by apply table_wf_chain|lia..].
Qed.

(** Nothing happens after the last stamp. *)
Lemma chain_value_future lo now chain s :
  chain_wf lo now chain → now ≤ s → chain_value chain s = chain_value chain now.
Proof.
  intros Hwf Hs. revert lo Hwf. induction chain as [|x chain IH]; intros lo Hwf; [done|].
  rewrite !chain_value_cons. cbn [chain_wf] in Hwf. destruct Hwf as (Hc & Hrest).
  destruct (deleted_at x) as [d|] eqn:Hd.
  - destruct Hrest as [Hdr Hrest].
    by rewrite (IH d Hrest), !(visible_closed x d) by (done || lia).
  - subst chain. unfold visible_at. rewrite Hd. cbn.
    by rewrite !(proj2 (Z.leb_le _ _)) by lia.
Qed.

Lemma visible_future now vs k s :
  table_wf now vs → now ≤ s → visible_value vs k s = visible_value vs k now.
Proof.
  intros Hwf Hs. rewrite !visible_value_chain. by eapply chain_value_future; [apply table_wf_chain|].
Qed.

Lemma table_wf_apply now vs ws ts :
  0 ≤ now → now < ts → table_wf now vs → table_wf ts (apply_versions vs ws ts).
Proof.
  intros H0 Hn Hwf k chain. rewrite lookup_apply_versions. destruct (ws !! k) as [w|].
  - intros [= <-]. eapply apply_write_wf; [by apply table_wf_chain|lia..].
  - intros Hk. apply Hwf in Hk. eapply chain_wf_weaken; [| |exact Hk]; lia.
Qed.

Lemma latest_change_range now vs k : 0 ≤ now → table_wf now vs → 0 ≤ latest_change vs k ≤ now.
Proof.
  intros H0 Hwf. rewrite latest_change_chain.
  eapply chain_change_range; [|done|by apply table_wf_chain]. lia.
Qed.

Lemma latest_change_apply now vs ws ts k :
  table_wf now vs → now < ts →
  latest_change (apply_versions vs ws ts) k
  = match ws !! k with
    | Some w => if changes w (visible_value vs k now) then ts else latest_change vs k
    | None => latest_change vs k
    end.
Proof.
  intros Hwf Hn. rewrite !latest_change_chain, chain_of_apply, visible_value_chain.
  destruct (ws !! k); [|done]. eapply chain_change_apply; [|by apply table_wf_chain|done]. lia.
Qed.

Lemma chain_of_gc wm vs k : chain_of (gc_versions wm vs) k = gc_chain wm (chain_of vs k).
Proof.
  unfold chain_of, gc_versions. rewrite lookup_omap. destruct (vs !! k) as [c|]; [|done].
  cbn. by destruct (gc_chain wm c).
Qed.

Lemma visible_gc wm vs k s :
  wm ≤ s + 1 → visible_value (gc_versions wm vs) k s = visible_value vs k s.
Proof. intros Hs. by rewrite !visible_value_chain, chain_of_gc, gc_chain_value. Qed.

Lemma table_wf_gc wm now vs : table_wf now vs → table_wf now (gc_versions wm vs).
Proof.
  intros Hwf k chain Hk. assert (chain = gc_chain wm (chain_of vs k)) as ->.
  { rewrite <- chain_of_gc. unfold chain_of. by rewrite Hk. }
  by apply gc_chain_wf, table_wf_chain.
Qed.

Lemma latest_change_gc wm now vs k s :
  0 ≤ s → wm ≤ s + 1 → table_wf now vs →
  s < latest_change (gc_versions wm vs) k ↔ s < latest_change vs k.
Proof.
  intros H0 Hs Hwf. rewrite !latest_change_chain, chain_of_gc.
  apply (gc_chain_change wm 1 now); [lia|done..|by apply table_wf_chain].
Qed.

Lemma table_wf_empty now : table_wf now ∅.
Proof. intros k chain. by rewrite lookup_empty. Qed.

(** The entries [retain] leaves: never an empty chain. *)
Lemma lookup_gc_nonempty wm vs k chain :
  gc_versions wm vs !! k = Some chain → chain ≠ [].
Proof.
  unfold gc_versions. rewrite lookup_omap. destruct (vs !! k) as [c|]; [|done].
  cbn. destruct (gc_chain wm c) eqn:Hc; [done|]. by intros [= <-].
Qed.
