(* ===== verification/TxnLog.v ===== *)
(** The transaction records of src/src/txn.rs and their binary layout. *)

From S2P Require Import Prelude Bytes Cursor.
From Stdlib Require Import Ascii.

Definition TAG_BEGIN : u8 := to_u8 0x10.
Definition TAG_SET : u8 := to_u8 0x11.
Definition TAG_DELETE : u8 := to_u8 0x12.
Definition TAG_COMMIT : u8 := to_u8 0x13.
Definition TAG_ABORT : u8 := to_u8 0x14.

Inductive TxnRecord : Type :=
| RBegin (txn snapshot : Z)
| RSet (txn : Z) (key value : string)
| RDelete (txn : Z) (key : string)
| RCommit (txn commit_ts : Z)
| RAbort (txn : Z).

#[export] Instance txn_record_eq_dec : EqDecision TxnRecord.
Proof. solve_decision. Defined.

Definition put_u64 (out : bytes) (value : Z) : bytes := out ++ u64_le value.

Definition put_string (out : bytes) (value : string) : io bytes :=
  len ← u32_try_from (str_len value) (invalid_input "mvcc: string too large");
  Ok (out ++ u32_le len ++ as_bytes value).

Definition encode (r : TxnRecord) : io bytes :=
  match r with
  | RBegin txn snapshot => Ok (put_u64 (put_u64 [TAG_BEGIN] txn) snapshot)
  | RSet txn key value =>
      out ← put_string (put_u64 [TAG_SET] txn) key; put_string out value
  | RDelete txn key => put_string (put_u64 [TAG_DELETE] txn) key
  | RCommit txn commit_ts => Ok (put_u64 (put_u64 [TAG_COMMIT] txn) commit_ts)
  | RAbort txn => Ok (put_u64 [TAG_ABORT] txn)
  end.

(** The cursor's reads, with this file's messages. *)
Definition cursor_u8 : decoder u8 := take_u8 (invalid_data "mvcc: short record").
Definition cursor_u64 : decoder Z := take_le 8 (invalid_data "mvcc: short u64").
Definition cursor_string : decoder string :=
  len ← take_le 4 (invalid_data "mvcc: short string length");
  slice ← take_bytes len (invalid_data "mvcc: string exceeds record");
  lift (from_utf8 slice (invalid_data "mvcc: string is not UTF-8")).

Definition decode_body : decoder TxnRecord :=
  tag ← cursor_u8;
  txn ← cursor_u64;
  if decide (tag = TAG_BEGIN) then snapshot ← cursor_u64; mret (RBegin txn snapshot)
  else if decide (tag = TAG_SET) then
    key ← cursor_string; value ← cursor_string; mret (RSet txn key value)
  else if decide (tag = TAG_DELETE) then key ← cursor_string; mret (RDelete txn key)
  else if decide (tag = TAG_COMMIT) then commit_ts ← cursor_u64; mret (RCommit txn commit_ts)
  else if decide (tag = TAG_ABORT) then mret (RAbort txn)
  else fail (invalid_data "mvcc: unknown record tag").

Definition decode (bs : bytes) : io TxnRecord :=
  decode_all decode_body (invalid_data "mvcc: trailing record bytes") bs.

(** ** Round trip *)

Definition fits (s : string) : Prop := is_str s ∧ u32_range (Z.of_nat (str_len s)).

Definition record_ok (r : TxnRecord) : Prop :=
  match r with
  | RBegin txn snapshot => u64_range txn ∧ u64_range snapshot
  | RSet txn key value => u64_range txn ∧ fits key ∧ fits value
  | RDelete txn key => u64_range txn ∧ fits key
  | RCommit txn commit_ts => u64_range txn ∧ u64_range commit_ts
  | RAbort txn => u64_range txn
  end.

Definition string_field (s : string) : bytes := u32_le (Z.of_nat (str_len s)) ++ as_bytes s.

(** The bytes of a record, once its strings are known to fit. *)
Definition layout (r : TxnRecord) : bytes :=
  match r with
  | RBegin txn snapshot => [TAG_BEGIN] ++ u64_le txn ++ u64_le snapshot
  | RSet txn key value => [TAG_SET] ++ u64_le txn ++ string_field key ++ string_field value
  | RDelete txn key => [TAG_DELETE] ++ u64_le txn ++ string_field key
  | RCommit txn commit_ts => [TAG_COMMIT] ++ u64_le txn ++ u64_le commit_ts
  | RAbort txn => [TAG_ABORT] ++ u64_le txn
  end.

Lemma put_string_ok out s :
  u32_range (Z.of_nat (str_len s)) → put_string out s = Ok (out ++ string_field s).
Proof. intros H. unfold put_string. by rewrite u32_try_from_run. Qed.

Lemma put_string_inv out s bs :
  put_string out s = Ok bs → u32_range (Z.of_nat (str_len s)) ∧ bs = out ++ string_field s.
Proof.
  unfold put_string. intros (z & Hz & [= <-])%bind_ok. by apply u32_try_from_ok in Hz as [-> ?].
Qed.

Lemma encode_layout r bs : encode r = Ok bs → bs = layout r.
Proof.
  destruct r; cbn [encode layout]; unfold put_u64; intros H; invert_ok.
  - by rewrite <- app_assoc.
  - match goal with H : put_string _ key = _ |- _ => apply put_string_inv in H as [_ ->] end.
    match goal with H : put_string _ value = _ |- _ => apply put_string_inv in H as [_ ->] end.
    by rewrite <- !app_assoc.
  - apply put_string_inv in H as [_ ->]. by rewrite <- app_assoc.
  - by rewrite <- app_assoc.
  - done.
Qed.

Lemma put_field out s : fits s → put_string out s = Ok (out ++ string_field s).
Proof. intros [_ H]. by apply put_string_ok. Qed.

Lemma encode_ok r : record_ok r → encode r = Ok (layout r).
Proof.
  destruct r; cbn [record_ok encode layout]; unfold put_u64; intros Hr.
  - by rewrite <- app_assoc.
  - destruct Hr as (_ & Hk & Hv). rewrite (put_field _ key) by done. cbn [mbind result_bind].
    rewrite put_field by done. by rewrite <- !app_assoc.
  - rewrite put_field by apply Hr. by rewrite <- app_assoc.
  - by rewrite <- app_assoc.
  - done.
Qed.

Lemma reads_txn_string s : fits s → reads cursor_string (string_field s) s.
Proof.
  intros [Hs Hl]. apply reads_bind with (Z.of_nat (str_len s)); [by apply reads_u32|].
  apply reads_last with (as_bytes s); [apply reads_take|].
  intros pre post. cbn. unfold lift. rewrite from_utf8_as_bytes by done. by rewrite app_nil_r.
Qed.

Lemma decode_layout r : record_ok r → decode (layout r) = Ok r.
Proof.
  intros Hr. apply decode_all_reads. unfold decode_body.
  destruct r; cbn [record_ok layout] in *; destruct_and?;
    (eapply reads_bind; [apply reads_u8|]);
    (eapply reads_bind || eapply reads_last); try (by apply reads_u64);
    repeat (rewrite decide_False by done); rewrite decide_True by done.
  - eapply reads_last; [by apply reads_u64|apply reads_ret].
  - eapply reads_bind; [by apply reads_txn_string|].
    eapply reads_last; [by apply reads_txn_string|apply reads_ret].
  - eapply reads_last; [by apply reads_txn_string|apply reads_ret].
  - eapply reads_last; [by apply reads_u64|apply reads_ret].
  - apply reads_ret.
Qed.

(** Encoding succeeds exactly when the lengths fit. *)
Definition record_strings (r : TxnRecord) : Prop :=
  match r with
  | RBegin txn ts | RCommit txn ts => u64_range txn ∧ u64_range ts
  | RSet txn key value => u64_range txn ∧ is_str key ∧ is_str value
  | RDelete txn key => u64_range txn ∧ is_str key
  | RAbort txn => u64_range txn
  end.

Lemma encoded_record_ok r bs : record_strings r → encode r = Ok bs → record_ok r.
Proof.
  intros Hs He. destruct r; cbn [record_strings record_ok] in *; try done.
  - cbn [encode] in He. apply bind_ok in He as (out & H1 & H2).
    apply put_string_inv in H1 as [? _]. apply put_string_inv in H2 as [? _].
    unfold fits. naive_solver.
  - cbn [encode] in He. apply put_string_inv in He as [? _]. unfold fits. naive_solver.
Qed.

Lemma decode_encoded r bs : record_strings r → encode r = Ok bs → decode bs = Ok r.
Proof.
  intros Hs He. rewrite (encode_layout _ _ He). apply decode_layout.
  by eapply encoded_record_ok.
Qed.
