(* ===== verification/Mvcc.v ===== *)
(** The transactional store of src/src/txn.rs: state, operations, recovery.

    [Inner] is the state behind the mutex, a [Transaction] a live handle.  Each
    method takes the lock for its whole effect on [Inner], so any interleaving
    of threads is a sequence of the methods below; [Sys] and [exec] describe
    such sequences over a store and its live handles.  A method that consumes
    its handle ([commit], [abort]) ends with the handle's [drop].

    Left out: lock poisoning (no method panics while holding the lock). *)

From S2P Require Import Prelude Bytes Wal TxnLog Versions.
From Stdlib Require Import Ascii.
Local Open Scope Z_scope.

Record Inner : Type := MkInner {
  wal : file;
  versions : table;
  active : gmap Z Z;
  next_txn : Z;
  commit_ts : Z;
}.

Record Transaction : Type := MkTxn {
  t_id : Z;
  t_snapshot : Z;
  t_writes : write_set;
  t_finished : bool;
}.

Inductive TxnError : Type :=
| TIo (e : io_error)
| TConflict (key : string)
| TFinished.

(** [Display for TxnError] and [txn_to_io]. *)
Definition txn_error_text (e : TxnError) : string :=
  match e with
  | TIo e => err_msg e
  | TConflict key => "write conflict on key '" +:+ key +:+ "'"
  | TFinished => "transaction is already finished"
  end.
Definition txn_to_io (e : TxnError) : io_error :=
  match e with TIo e => e | other => IoError Other (txn_error_text other) end.

Definition set_wal (w : file) (i : Inner) : Inner :=
  MkInner w (versions i) (active i) (next_txn i) (commit_ts i).
Definition set_versions (vs : table) (i : Inner) : Inner :=
  MkInner (wal i) vs (active i) (next_txn i) (commit_ts i).
Definition set_active (a : gmap Z Z) (i : Inner) : Inner :=
  MkInner (wal i) (versions i) a (next_txn i) (commit_ts i).
Definition set_next_txn (n : Z) (i : Inner) : Inner :=
  MkInner (wal i) (versions i) (active i) n (commit_ts i).
Definition set_commit_ts (ts : Z) (i : Inner) : Inner :=
  MkInner (wal i) (versions i) (active i) (next_txn i) ts.

Abbreviation store := (M Inner TxnError).
Abbreviation handle := (M (Inner * Transaction) TxnError).

Definition on_wal {A} (m : M file io_error A) : store A := λ i,
  let '(r, w) := m (wal i) in (map_err TIo r, set_wal w i).

(** [wal.append(&record.encode()?)?] *)
Definition log_record (r : TxnRecord) : store unit :=
  payload ← lift (map_err TIo (encode r)); on_wal (append payload).

Definition log_synced (r : TxnRecord) : store unit :=
  _ ← log_record r; on_wal sync.

Definition begin : store Transaction :=
  inner ← get_state;
  let id := next_txn inner in
  next ← lift (ok_or (u64_checked_add id 1)
                     (TIo (invalid_data "mvcc: transaction id exhausted")));
  _ ← modify (set_next_txn next);
  let snapshot := commit_ts inner in
  _ ← log_synced (RBegin id snapshot);
  _ ← modify (λ i, set_active (<[id := snapshot]> (active i)) i);
  mret (MkTxn id snapshot ∅ false).

Definition get_at (key : string) (snapshot : Z) : store (option string) :=
  inner ← get_state; mret (visible_value (versions inner) key snapshot).

Definition current_timestamp : store Z := inner ← get_state; mret (commit_ts inner).

Definition version_count (key : string) : store nat :=
  inner ← get_state; mret (default 0%nat (length <$> versions inner !! key)).

(** [values().min()] *)
Definition min_value (m : gmap Z Z) : option Z :=
  foldr (λ v acc, Some (match acc with Some a => Z.min v a | None => v end))
        None (map_to_list m).*2.

Definition u64_saturating_add (a b : Z) : Z := Z.min (a + b) U64_MAX.

Definition gc : store GcReport :=
  inner ← get_state;
  let watermark := default (u64_saturating_add (commit_ts inner) 1) (min_value (active inner)) in
  let reclaimed := gc_reclaimed watermark (versions inner) in
  _ ← modify (λ i, set_versions (gc_versions watermark (versions i)) i);
  mret (MkGcReport watermark reclaimed).

(** ** Transactions *)

Definition ensure_open (t : Transaction) : result TxnError unit :=
  if t_finished t then Err TFinished else Ok tt.

Definition get (t : Transaction) (key : string) : store (option string) :=
  _ ← lift (ensure_open t);
  match t_writes t !! key with
  | Some value => mret value
  | None => get_at key (t_snapshot t)
  end.

(** [writes.range(prefix..)] up to the first key without the prefix. *)
Definition own_range (writes : write_set) (prefix : string) : list (string * option string) :=
  take_while (λ '(key, _), starts_with key prefix)
    (filter (λ p, String.le prefix p.1) (btree_iter writes)).

Definition scan_rows (vs : table) (snapshot : Z) (prefix : string) (writes : write_set)
  : gmap string string :=
  let rows :=
    foldl (λ rows key,
      match visible_value vs key snapshot with
      | Some value => <[key := value]> rows
      | None => rows
      end) ∅ (List.filter (λ key, starts_with key prefix) (btree_keys vs)) in
  foldl (λ rows '(key, value),
    match value with
    | Some value => <[key := value]> rows
    | None => delete key rows
    end) rows (own_range writes prefix).

Definition scan_prefix (t : Transaction) (prefix : string) : store (list (string * string)) :=
  _ ← lift (ensure_open t);
  inner ← get_state;
  mret (btree_iter (scan_rows (versions inner) (t_snapshot t) prefix (t_writes t))).

Definition on_inner {A} (m : store A) : handle A :=
  zoom fst (λ i s, (i, snd s)) m.

Definition update_txn (f : Transaction → Transaction) : handle unit :=
  modify (λ s, (fst s, f (snd s))).

Definition set_writes (w : write_set) (t : Transaction) : Transaction :=
  MkTxn (t_id t) (t_snapshot t) w (t_finished t).
Definition finish (t : Transaction) : Transaction :=
  MkTxn (t_id t) (t_snapshot t) (t_writes t) true.

Definition set (key value : string) : handle unit :=
  s ← get_state;
  let t := snd s in
  _ ← lift (ensure_open t);
  _ ← on_inner (log_record (RSet (t_id t) key value));
  update_txn (λ t, set_writes (<[key := Some value]> (t_writes t)) t).

Definition delete (key : string) : handle unit :=
  s ← get_state;
  let t := snd s in
  _ ← lift (ensure_open t);
  _ ← on_inner (log_record (RDelete (t_id t) key));
  update_txn (λ t, set_writes (<[key := None]> (t_writes t)) t).

(** [inner.active.remove(&self.id)] *)
Definition deactivate (id : Z) (i : Inner) : Inner := set_active (base.delete id (active i)) i.

(** [impl Drop for Transaction] *)
Definition drop_txn (t : Transaction) (i : Inner) : Inner :=
  if t_finished t then i else deactivate (t_id t) i.

(** A method taking [self] by value: its body, then the drop. *)
Definition consume {A} (body : handle A) (t : Transaction) : store A := λ i,
  let '(r, (i', t')) := body (i, t) in (r, drop_txn t' i').

(** The first written key that changed after the snapshot, in key order. *)
Definition first_conflict (vs : table) (t : Transaction) : option string :=
  List.find (λ key, t_snapshot t <? latest_change vs key) (btree_keys (t_writes t)).

Definition commit_body : handle Z :=
  s ← get_state;
  let '(inner, t) := s in
  _ ← lift (ensure_open t);
  match first_conflict (versions inner) t with
  | Some key =>
    _ ← on_inner (log_synced (RAbort (t_id t)));
    _ ← on_inner (modify (deactivate (t_id t)));
    _ ← update_txn finish;
    fail (TConflict key)
  | None =>
    timestamp ← lift (ok_or (u64_checked_add (commit_ts inner) 1)
                            (TIo (invalid_data "mvcc: commit timestamp exhausted")));
    _ ← on_inner (log_synced (RCommit (t_id t) timestamp));
    _ ← on_inner (modify (λ i, set_versions (apply_versions (versions i) (t_writes t) timestamp) i));
    _ ← update_txn (set_writes ∅);
    _ ← on_inner (modify (set_commit_ts timestamp));
    _ ← on_inner (modify (deactivate (t_id t)));
    _ ← update_txn finish;
    mret timestamp
  end.

Definition commit (t : Transaction) : store Z := consume commit_body t.

Definition abort_body : handle unit :=
  s ← get_state;
  let t := snd s in
  _ ← lift (ensure_open t);
  _ ← on_inner (log_synced (RAbort (t_id t)));
  _ ← on_inner (modify (deactivate (t_id t)));
  update_txn finish.

Definition abort (t : Transaction) : store unit := consume abort_body t.

(** ** Recovery *)

Record Recovering : Type := MkRecovering {
  r_versions : table;
  r_pending : gmap Z write_set;
  r_begun : gmap Z Z;
  r_max_txn : Z;
  r_commit_ts : Z;
}.

Definition recovering0 : Recovering := MkRecovering ∅ ∅ ∅ 0 0.

Definition ensure_begun (begun : gmap Z Z) (txn : Z) : io unit :=
  match begun !! txn with
  | Some _ => Ok tt
  | None => Err (invalid_data "mvcc: record references unknown transaction")
  end.

(** [pending.entry(txn).or_default().insert(key, value)] *)
Definition buffer (txn : Z) (key : string) (value : option string) (r : Recovering) : Recovering :=
  MkRecovering (r_versions r)
    (<[txn := <[key := value]> (default ∅ (r_pending r !! txn))]> (r_pending r))
    (r_begun r) (r_max_txn r) (r_commit_ts r).

(** The body of the loop over the replayed records. *)
Definition recover_record (r : Recovering) (rec : TxnRecord) : io Recovering :=
  match rec with
  | RBegin txn snapshot =>
    Ok (MkRecovering (r_versions r)
          (<[txn := default ∅ (r_pending r !! txn)]> (r_pending r))
          (<[txn := snapshot]> (r_begun r)) (Z.max (r_max_txn r) txn) (r_commit_ts r))
  | RSet txn key value => _ ← ensure_begun (r_begun r) txn; Ok (buffer txn key (Some value) r)
  | RDelete txn key => _ ← ensure_begun (r_begun r) txn; Ok (buffer txn key None r)
  | RCommit txn timestamp =>
    _ ← ensure_begun (r_begun r) txn;
    if timestamp <=? r_commit_ts r
    then Err (invalid_data "mvcc: commit timestamps are not increasing")
    else Ok (MkRecovering
               (apply_versions (r_versions r) (default ∅ (r_pending r !! txn)) timestamp)
               (base.delete txn (r_pending r)) (base.delete txn (r_begun r))
               (r_max_txn r) timestamp)
  | RAbort txn =>
    Ok (MkRecovering (r_versions r) (base.delete txn (r_pending r)) (base.delete txn (r_begun r))
                     (r_max_txn r) (r_commit_ts r))
  end.

Fixpoint recover (r : Recovering) (payloads : list bytes) : io Recovering :=
  match payloads with
  | [] => Ok r
  | payload :: rest =>
    rec ← decode payload; r' ← recover_record r rec; recover r' rest
  end.

(** [MvccStore::open]: the state is the log's file; the result is the store,
    which owns the file from then on. *)
Definition open : M file io_error Inner :=
  replayed ← replay;
  r ← lift (recover recovering0 (records replayed));
  _ ← (if truncated replayed then truncate_path (valid_bytes replayed) else mret tt);
  _ ← Wal.open;
  next ← lift (ok_or (u64_checked_add (r_max_txn r) 1)
                     (invalid_data "mvcc: transaction id exhausted"));
  w ← get_state;
  mret (MkInner w (r_versions r) ∅ next (r_commit_ts r)).

(** ** A store and its live handles *)

Record Sys : Type := MkSys { inner : Inner; txns : gmap Z Transaction }.

Inductive op : Type :=
| OBegin
| OGet (h : Z) (key : string)
| OScan (h : Z) (prefix : string)
| OSet (h : Z) (key value : string)
| ODelete (h : Z) (key : string)
| OCommit (h : Z)
| OAbort (h : Z)
| ODrop (h : Z)
| OGc.

Inductive answer : Type :=
| AHandle (id : Z)
| AValue (v : option string)
| ARows (rows : list (string * string))
| ADone
| ATimestamp (ts : Z)
| AReport (report : GcReport).

Definition fmap_result {E A B} (f : A → B) (r : result E A) : result E B :=
  match r with Ok a => Ok (f a) | Err e => Err e | Panic p => Panic p end.

(** A read through a handle, an update of it, and its consumption. *)
Definition exec_read {A} (S : Sys) (h : Z) (m : Transaction → store A) (f : A → answer)
  : option (result TxnError answer * Sys) :=
  t ← txns S !! h;
  let '(r, i) := m t (inner S) in Some (fmap_result f r, MkSys i (txns S)).

Definition exec_update {A} (S : Sys) (h : Z) (m : handle A) (f : A → answer)
  : option (result TxnError answer * Sys) :=
  t ← txns S !! h;
  let '(r, (i, t')) := m (inner S, t) in Some (fmap_result f r, MkSys i (<[h := t']> (txns S))).

Definition exec_consume {A} (S : Sys) (h : Z) (m : Transaction → store A) (f : A → answer)
  : option (result TxnError answer * Sys) :=
  t ← txns S !! h;
  let '(r, i) := m t (inner S) in Some (fmap_result f r, MkSys i (base.delete h (txns S))).

Definition exec (S : Sys) (o : op) : option (result TxnError answer * Sys) :=
  match o with
  | OBegin =>
    match begin (inner S) with
    | (Ok t, i) => Some (Ok (AHandle (t_id t)), MkSys i (<[t_id t := t]> (txns S)))
    | (Err e, i) => Some (Err e, MkSys i (txns S))
    | (Panic p, i) => Some (Panic p, MkSys i (txns S))
    end
  | OGet h key => exec_read S h (λ t, get t key) AValue
  | OScan h prefix => exec_read S h (λ t, scan_prefix t prefix) ARows
  | OSet h key value => exec_update S h (set key value) (λ _, ADone)
  | ODelete h key => exec_update S h (delete key) (λ _, ADone)
  | OCommit h => exec_consume S h commit ATimestamp
  | OAbort h => exec_consume S h abort (λ _, ADone)
  | ODrop h => exec_consume S h (λ t, modify (drop_txn t)) (λ _, ADone)
  | OGc => let '(r, i) := gc (inner S) in Some (fmap_result AReport r, MkSys i (txns S))
  end.

(** A sequence of operations with its answers. *)
Inductive runs : Sys → list (op * result TxnError answer) → Sys → Prop :=
| runs_nil S : runs S [] S
| runs_cons S o r S1 tr S2 :
    exec S o = Some (r, S1) → runs S1 tr S2 → runs S ((o, r) :: tr) S2.

Definition new_store : Inner := MkInner (stored []) ∅ ∅ 1 0.
Definition new_sys : Sys := MkSys new_store ∅.
