(* ===== verification/LogFaults.v ===== *)
(** Where the errors of a transactional store come from.

    Apart from conflicts and finished handles, a method of src/src/txn.rs fails
    only with an error that the log file's system calls gave, with a record or a
    text of 4 GiB, or when a 64-bit counter is used up ([log_fails]); and the
    methods take the system's answers one after another, adding none. *)

From Stdlib Require Import Ascii.
From S2P Require Import Prelude Bytes Wal TxnLog Versions Mvcc.

(** ** Which errors a computation may end with *)

Definition fails_only {S E A} (P : S → Prop) (G : E → Prop) (m : M S E A) : Prop :=
  ∀ s, P s → P (m s).2 ∧ ∀ e, (m s).1 = Err e → G e.

Section fails_only.
Context {S E : Type} (P : S → Prop) (G : E → Prop).

Lemma fails_only_bind {A B} (m : M S E A) (f : A → M S E B) :
  fails_only P G m → (∀ a, fails_only P G (f a)) → fails_only P G (m ≫= f).
Proof.
  intros Hm Hf s Hs. destruct (Hm s Hs) as [H1 H2]. unfold mbind, M_bind. destruct (m s) as [[a|e|p] s']; cbn in *; [by apply Hf|split; [done|intros e' [= <-]; by apply H2]|done].
Qed.
Lemma fails_only_ret {A} (a : A) : fails_only P G (mret a : M S E A).
Proof. by intros s. Qed.
Lemma fails_only_get : fails_only P G (get_state : M S E S).
Proof. by intros s. Qed.
Lemma fails_only_modify f : (∀ s, P s → P (f s)) → fails_only P G (modify f : M S E unit).
Proof. intros Hf s Hs. split; [by apply Hf|done]. Qed.
Lemma fails_only_lift {A} (r : result E A) : (∀ e, r = Err e → G e) → fails_only P G (lift r : M S E A).
Proof. by intros Hr s. Qed.
Lemma fails_only_fail {A} e : G e → fails_only P G (fail e : M S E A).
Proof. intros He s Hs. split; [done|by intros e' [= <-]]. Qed.
Lemma fails_only_panic {A} p : fails_only P G (panic p : M S E A).
Proof. by intros s. Qed.
End fails_only.

Ltac fails_tac :=
  repeat first
    [ progress intros
    | solve [eauto using fails_only_ret, fails_only_get, fails_only_panic]
    | match goal with |- fails_only _ _ (_ ≫= _) => apply fails_only_bind end
    | match goal with |- fails_only _ _ (if ?b then _ else _) => destruct b end
    | match goal with |- fails_only _ _ (match ?x with _ => _ end) => destruct x end ].

(** ** The log *)

(** The errors that operations on a log may report. *)
Definition exhausted : list io_error :=
  [invalid_input "wal: record exceeds 4 GiB"; invalid_input "mvcc: string too large";
   invalid_data "mvcc: transaction id exhausted"; invalid_data "mvcc: commit timestamp exhausted"].
Definition log_fails (f : file) (e : io_error) : Prop := (∃ n, SysFail n e ∈ f_env f) ∨ e ∈ exhausted.

Section log.
Context (F : io_error → Prop) (HF : ∀ e, e ∈ exhausted → F e).

(** The answers still to come are of [F]. *)
Definition env_in (f : file) : Prop := ∀ n e, SysFail n e ∈ f_env f → F e.

Lemma fails_next_sys {A} (k : sys → M file io_error A) :
  (∀ s, (∀ n e, s = SysFail n e → F e) → fails_only env_in F (k s)) → fails_only env_in F (next_sys ≫= k).
Proof.
  intros Hk f Hf. unfold next_sys, mbind, M_bind. destruct (f_env f) as [|s env] eqn:He.
  - by apply Hk.
  - apply Hk; [intros n e ->; apply (Hf n); rewrite He; left|]. intros n e Hin. apply (Hf n). rewrite He. by right.
Qed.

Lemma fails_sys_call : fails_only env_in F sys_call.
Proof. apply fails_next_sys. intros [|n e] Hs; [apply fails_only_ret|apply fails_only_fail; by eapply Hs]. Qed.

Lemma fails_write_all bs : fails_only env_in F (write_all bs).
Proof.
  apply fails_only_bind; [apply fails_only_get|]. intros f. apply fails_next_sys. intros [|n e] Hs.
  - by apply fails_only_modify.
  - apply fails_only_bind; [by apply fails_only_modify|]. intros _. apply fails_only_fail. by eapply Hs.
Qed.

Lemma fails_append payload : fails_only env_in F (append payload).
Proof.
  apply fails_only_bind; [apply fails_only_lift|intros len; apply fails_write_all].
  unfold u32_try_from. intros e. case_match; [done|]. intros [= <-]. apply HF. by left.
Qed.

Lemma fails_sync : fails_only env_in F Wal.sync.
Proof. apply fails_only_bind; [apply fails_sys_call|]. intros _. by apply fails_only_modify. Qed.

(** ** The store *)

Definition store_in (i : Inner) : Prop := env_in (wal i).
Definition txn_in (e : TxnError) : Prop := match e with TIo e => F e | _ => True end.

Lemma fails_on_wal {A} (m : M file io_error A) : fails_only env_in F m → fails_only store_in txn_in (on_wal m).
Proof.
  intros Hm i Hi. unfold on_wal. destruct (Hm _ Hi) as [H1 H2]. destruct (m (wal i)) as [r w]. cbn in *. split; [done|].
  intros e He. destruct r; [done| |done]. injection He as <-. by apply H2.
Qed.

Lemma fails_encode rec e : encode rec = Err e → F e.
Proof.
  assert (∀ out s e, put_string out s = Err e → F e) as Hput.
  { intros out s e'. unfold put_string, u32_try_from. case_match; cbn; [done|]. intros [= <-]. apply HF. right. by left. }
  destruct rec; cbn [encode]; try done; [|by apply Hput].
  destruct (put_string _ key) as [out|x|x] eqn:Hp; cbn; [by apply Hput|intros [= <-]; by eapply Hput|done].
Qed.

Lemma fails_log_record rec : fails_only store_in txn_in (log_record rec).
Proof.
  apply fails_only_bind; [|intros payload; by apply fails_on_wal, fails_append].
  apply fails_only_lift. intros e. destruct (encode rec) as [a|x|x] eqn:He; try done. intros [= <-]. by eapply fails_encode.
Qed.

Lemma fails_log_synced rec : fails_only store_in txn_in (log_synced rec).
Proof. apply fails_only_bind; [apply fails_log_record|]. intros _. by apply fails_on_wal, fails_sync. Qed.

Lemma fails_begin : fails_only store_in txn_in begin.
Proof.
  unfold begin. apply fails_only_bind; [apply fails_only_get|]. intros i.
  apply fails_only_bind.
  { apply fails_only_lift. intros e. destruct (u64_checked_add _ _); [done|]. intros [= <-]. apply HF. do 2 right. by left. }
  intros next. apply fails_only_bind; [by apply fails_only_modify|]. intros _.
  apply fails_only_bind; [apply fails_log_synced|]. intros _. apply fails_only_bind; [by apply fails_only_modify|]. intros _. apply fails_only_ret.
Qed.

Abbreviation handle_in := (λ s : Inner * Transaction, store_in s.1).

Lemma fails_on_inner {A} (m : store A) : fails_only store_in txn_in m → fails_only handle_in txn_in (on_inner m).
Proof. intros Hm [i t] Hi. unfold on_inner, zoom. cbn. destruct (Hm i Hi) as [H1 H2]. by destruct (m i). Qed.
Lemma fails_update_txn f : fails_only handle_in txn_in (update_txn f).
Proof. by intros [i t]. Qed.
Lemma fails_ensure_open t : fails_only handle_in txn_in (lift (ensure_open t)).
Proof. apply fails_only_lift. unfold ensure_open. intros e. case_match; [by intros [= <-]|done]. Qed.

Lemma fails_deactivate id : fails_only store_in txn_in (modify (deactivate id)).
Proof. by apply fails_only_modify. Qed.
Hint Resolve fails_on_inner fails_log_synced fails_log_record fails_deactivate fails_update_txn fails_ensure_open : core.

Lemma fails_commit_body : fails_only handle_in txn_in commit_body.
Proof.
  unfold commit_body. apply fails_only_bind; [apply fails_only_get|]. intros [i t].
  apply fails_only_bind; [done|]. intros _. destruct (first_conflict _ t) as [k|].
  - do 3 (apply fails_only_bind; [auto|intros _]). by apply fails_only_fail.
  - apply fails_only_bind.
    { apply fails_only_lift. intros e. destruct (u64_checked_add _ _); [done|]. intros [= <-]. apply HF. do 3 right. by left. }
    intros ts. do 5 (apply fails_only_bind; [first [by auto|by apply fails_on_inner, fails_only_modify]|intros _]).
    fails_tac.
Qed.

Lemma fails_abort_body : fails_only handle_in txn_in abort_body.
Proof.
  unfold abort_body. apply fails_only_bind; [apply fails_only_get|]. intros s. cbv zeta.
  do 3 (apply fails_only_bind; [auto|intros _]). auto.
Qed.

Lemma fails_consume {A} (body : handle A) t :
  fails_only handle_in txn_in body → fails_only store_in txn_in (consume body t).
Proof.
  intros Hb i Hi. unfold consume. destruct (Hb (i, t) Hi) as [H1 H2]. destruct (body (i, t)) as [r [i' t']]. cbn in *.
  split; [|done]. unfold drop_txn. by repeat case_match.
Qed.

Lemma fails_commit t : fails_only store_in txn_in (commit t).
Proof. apply fails_consume, fails_commit_body. Qed.
Lemma fails_abort t : fails_only store_in txn_in (abort t).
Proof. apply fails_consume, fails_abort_body. Qed.

Lemma fails_set k v : fails_only handle_in txn_in (Mvcc.set k v).
Proof. unfold Mvcc.set. apply fails_only_bind; [apply fails_only_get|]. intros s. do 2 (apply fails_only_bind; [auto|intros _]). auto. Qed.
Lemma fails_delete k : fails_only handle_in txn_in (Mvcc.delete k).
Proof. unfold Mvcc.delete. apply fails_only_bind; [apply fails_only_get|]. intros s. do 2 (apply fails_only_bind; [auto|intros _]). auto. Qed.
End log.
