(* ===== verification/MvccSpec.v ===== *)
(** Snapshot isolation, abstractly, and the store's refinement of it.

    The specification keeps the write sets of the commits, oldest first; a
    snapshot is a number of commits, and reading at it replays that many.  There
    are no version chains, no garbage collection and no log in it.  A commit is
    refused exactly when a key it writes was changed by a commit after its
    snapshot.  [refines_step] shows that every operation of the store, under
    any environment of its log, answers as the specification may. *)

From S2P Require Import Prelude Bytes Wal TxnLog Versions Mvcc.
From Stdlib Require Import Ascii.
Local Open Scope Z_scope.

Abbreviation history := (list write_set).

Definition now (hist : history) : Z := Z.of_nat (length hist).

Definition step_read (k : string) (v : option string) (ws : write_set) : option string :=
  match ws !! k with Some w => w | None => v end.

(** The value of a key after the first [s] commits. *)
Definition spec_read (hist : history) (k : string) (s : Z) : option string :=
  foldl (step_read k) None (take (Z.to_nat s) hist).

(** Some commit after the first [s] set the key, or removed a value it had. *)
Definition modified_since (hist : history) (k : string) (s : Z) : Prop :=
  ∃ i ws w, s ≤ Z.of_nat i ∧ hist !! i = Some ws ∧ ws !! k = Some w ∧
            changes w (spec_read hist k (Z.of_nat i)) = true.

Record Spec : Type := MkSpec { s_hist : history; s_txns : gmap Z Transaction }.

Definition spec_get (hist : history) (t : Transaction) (k : string) : option string :=
  match t_writes t !! k with
  | Some w => w
  | None => spec_read hist k (t_snapshot t)
  end.

Definition spec_write (h : Z) (k : string) (w : option string) (t : Transaction) (s : Spec) : Spec :=
  MkSpec (s_hist s) (<[h := set_writes (<[k := w]> (t_writes t)) t]> (s_txns s)).

Definition spec_close (h : Z) (s : Spec) : Spec := MkSpec (s_hist s) (base.delete h (s_txns s)).

Definition spec_rows (hist : history) (t : Transaction) (prefix : string)
    (rows : list (string * string)) : Prop :=
  StronglySorted (λ p q, String.le p.1 q.1) rows ∧ NoDup rows.*1 ∧
  ∀ k v, (k, v) ∈ rows ↔ starts_with k prefix = true ∧ spec_get hist t k = Some v.

(** The handle an operation consumes. *)
Definition consumed (o : op) : option Z :=
  match o with OCommit h | OAbort h | ODrop h => Some h | _ => None end.
Definition uses_log (o : op) : bool :=
  match o with OBegin | OSet _ _ _ | ODelete _ _ | OCommit _ | OAbort _ => true | _ => false end.

Inductive spec_step (s : Spec) : op → result TxnError answer → Spec → Prop :=
| S_begin id :
    s_txns s !! id = None →
    spec_step s OBegin (Ok (AHandle id))
      (MkSpec (s_hist s) (<[id := MkTxn id (now (s_hist s)) ∅ false]> (s_txns s)))
| S_get h t k :
    s_txns s !! h = Some t →
    spec_step s (OGet h k) (Ok (AValue (spec_get (s_hist s) t k))) s
| S_scan h t prefix rows :
    s_txns s !! h = Some t → spec_rows (s_hist s) t prefix rows →
    spec_step s (OScan h prefix) (Ok (ARows rows)) s
| S_set h t k v :
    s_txns s !! h = Some t →
    spec_step s (OSet h k v) (Ok ADone) (spec_write h k (Some v) t s)
| S_delete h t k :
    s_txns s !! h = Some t →
    spec_step s (ODelete h k) (Ok ADone) (spec_write h k None t s)
| S_commit h t :
    s_txns s !! h = Some t →
    (∀ k, is_Some (t_writes t !! k) → ¬ modified_since (s_hist s) k (t_snapshot t)) →
    spec_step s (OCommit h) (Ok (ATimestamp (now (s_hist s) + 1)))
      (MkSpec (s_hist s ++ [t_writes t]) (base.delete h (s_txns s)))
| S_conflict h t k :
    s_txns s !! h = Some t →
    is_Some (t_writes t !! k) → modified_since (s_hist s) k (t_snapshot t) →
    spec_step s (OCommit h) (Err (TConflict k)) (spec_close h s)
| S_abort h : is_Some (s_txns s !! h) → spec_step s (OAbort h) (Ok ADone) (spec_close h s)
| S_drop h : is_Some (s_txns s !! h) → spec_step s (ODrop h) (Ok ADone) (spec_close h s)
| S_gc report : spec_step s OGc (Ok (AReport report)) s
(** The log failed: the operation has no effect, but a consumed handle is gone. *)
| S_io o e :
    uses_log o = true →
    spec_step s o (Err (TIo e))
      (match consumed o with Some h => spec_close h s | None => s end).

(** ** Laws of the specification *)

Lemma spec_read_app hist more k s :
  s ≤ now hist → spec_read (hist ++ more) k s = spec_read hist k s.
Proof. unfold now, spec_read. intros Hs. by rewrite take_app_le by lia. Qed.

Lemma spec_read_now hist k : spec_read hist k (now hist) = foldl (step_read k) None hist.
Proof. unfold now, spec_read. by rewrite Nat2Z.id, take_ge. Qed.

Lemma spec_read_snoc hist ws k :
  spec_read (hist ++ [ws]) k (now hist + 1)
  = match ws !! k with Some w => w | None => spec_read hist k (now hist) end.
Proof.
  replace (now hist + 1) with (now (hist ++ [ws])) by (unfold now; rewrite length_app; cbn; lia).
  rewrite !spec_read_now, foldl_app. done.
Qed.

Lemma spec_read_step hist k i ws :
  hist !! i = Some ws →
  spec_read hist k (Z.of_nat i + 1) = step_read k (spec_read hist k (Z.of_nat i)) ws.
Proof.
  intros Hi. unfold spec_read. replace (Z.to_nat (Z.of_nat i + 1)) with (S i) by lia.
  rewrite Nat2Z.id, (take_S_r _ _ _ Hi), foldl_app. done.
Qed.

Lemma modified_end hist k : ¬ modified_since hist k (now hist).
Proof.
  intros (i & ws & w & Hi & Hl & _). apply lookup_lt_Some in Hl. unfold now in Hi. lia.
Qed.

Lemma modified_snoc hist ws k s :
  s ≤ now hist →
  modified_since (hist ++ [ws]) k s ↔
  modified_since hist k s ∨
  ∃ w, ws !! k = Some w ∧ changes w (spec_read hist k (now hist)) = true.
Proof.
  intros Hs. split.
  - intros (i & ws' & w & Hi & Hl & Hw & Hc). apply lookup_app_Some in Hl as [Hl|[Hge Hl]].
    + left. exists i, ws', w. repeat split; try done.
      rewrite spec_read_app in Hc; [done|]. apply lookup_lt_Some in Hl. unfold now. lia.
    + right. apply list_lookup_singleton_Some in Hl as [Hl ->]. exists w. split; [done|].
      assert (Z.of_nat i = now hist) as Heq by (unfold now; lia).
      by rewrite Heq, spec_read_app in Hc by lia.
  - intros [(i & ws' & w & Hi & Hl & Hw & Hc)|(w & Hw & Hc)].
    + exists i, ws', w. repeat split; try done; [by apply lookup_app_l_Some|].
      rewrite spec_read_app; [done|]. apply lookup_lt_Some in Hl. unfold now. lia.
    + exists (length hist), ws, w. repeat split; try done.
      * by rewrite lookup_app_r, Nat.sub_diag by lia.
      * change (Z.of_nat (length hist)) with (now hist). by rewrite spec_read_app by lia.
Qed.

(** An unmodified key keeps its value. *)
Lemma unmodified_read hist k s s' :
  0 ≤ s → s ≤ s' ≤ now hist → ¬ modified_since hist k s →
  spec_read hist k s' = spec_read hist k s.
Proof.
  intros H0 Hs Hm. destruct Hs as [Hle Hn].
  assert (∃ n, s' = s + Z.of_nat n) as [n ->] by (exists (Z.to_nat (s' - s)); lia).
  clear Hle. induction n as [|n IH]; [f_equal; lia|].
  rewrite <- IH by lia. unfold now in Hn.
  destruct (lookup_lt_is_Some_2 hist (Z.to_nat s + n)) as [ws Hws]; [lia|].
  replace (s + Z.of_nat (S n)) with (Z.of_nat (Z.to_nat s + n) + 1) by lia.
  rewrite (spec_read_step _ _ _ ws) by done.
  replace (s + Z.of_nat n) with (Z.of_nat (Z.to_nat s + n)) by lia.
  unfold step_read. destruct (ws !! k) as [w|] eqn:Hw; [|done].
  destruct (changes w (spec_read hist k (Z.of_nat (Z.to_nat s + n)))) eqn:Hc.
  - destruct Hm. exists (Z.to_nat s + n)%nat, ws, w. repeat split; try done. lia.
  - destruct w; [done|]. by destruct (spec_read hist k (Z.of_nat (Z.to_nat s + n))).
Qed.

(** ** The relation between the table and the history *)

Record agrees (low : Z) (vs : table) (hist : history) : Prop := Agrees {
  ag_wf : table_wf (now hist) vs;
  ag_low : 0 ≤ low ≤ now hist;
  ag_read k s : low ≤ s ≤ now hist → visible_value vs k s = spec_read hist k s;
  ag_change k s : low ≤ s ≤ now hist → s < latest_change vs k ↔ modified_since hist k s;
}.

Lemma now_nonneg hist : 0 ≤ now hist.
Proof. unfold now. lia. Qed.

Lemma now_snoc hist ws : now (hist ++ [ws]) = now hist + 1.
Proof. unfold now. rewrite length_app. cbn. lia. Qed.

Lemma agrees_empty : agrees 0 ∅ [].
Proof.
  split; [apply table_wf_empty|done|..].
  - intros k s Hs. by destruct (Z.to_nat s) eqn:?; unfold spec_read; rewrite take_nil.
  - intros k s Hs. unfold latest_change. rewrite lookup_empty. cbn.
    split; [lia|]. intros (i & ws & w & _ & Hl & _). done.
Qed.

Lemma agrees_weaken low low' vs hist :
  low ≤ low' ≤ now hist → agrees low vs hist → agrees low' vs hist.
Proof. intros Hl [Hwf H0 Hr Hc]. split; [done|lia|..]; intros; [apply Hr|apply Hc]; lia. Qed.

Lemma agrees_commit low vs hist ws :
  agrees low vs hist → agrees low (apply_versions vs ws (now hist + 1)) (hist ++ [ws]).
Proof.
  intros [Hwf Hlow Hr Hc]. pose proof (now_nonneg hist). split.
  - rewrite now_snoc. eapply table_wf_apply; [|  |exact Hwf]; lia.
  - rewrite now_snoc. lia.
  - intros k s Hs. rewrite now_snoc in Hs. destruct (decide (s = now hist + 1)) as [->|].
    + rewrite (visible_apply_new (now hist)), spec_read_snoc by (done || lia).
      by rewrite (visible_future (now hist)), Hr by (done || lia).
    + rewrite visible_apply_old, spec_read_app by lia. apply Hr. lia.
  - intros k s Hs. rewrite now_snoc in Hs.
    rewrite (latest_change_apply (now hist)) by (done || lia).
    pose proof (latest_change_range (now hist) vs k ltac:(lia) Hwf) as Hrange.
    destruct (decide (s = now hist + 1)) as [->|].
    + split; [|intros Hm; by rewrite <- now_snoc with (ws:=ws) in Hm; apply modified_end in Hm].
      destruct (ws !! k) as [w|]; [destruct (changes w _)|]; lia.
    + rewrite modified_snoc, <- Hc, (Hr k) by lia.
      destruct (ws !! k) as [w|]; [destruct (changes w _) eqn:Hch|];
        (split; [intros ?|intros [?|(w' & Hw & Hc')]]); simplify_eq; eauto; try lia.
      all: try (right; eauto; fail). congruence.
Qed.

Lemma agrees_gc low low' wm vs hist :
  low ≤ low' ≤ now hist → wm ≤ low' + 1 → agrees low vs hist →
  agrees low' (gc_versions wm vs) hist.
Proof.
  intros Hl Hwm [Hwf H0 Hr Hc]. split; [by apply table_wf_gc|lia|..].
  - intros k s Hs. rewrite visible_gc by lia. apply Hr. lia.
  - intros k s Hs. rewrite (latest_change_gc wm (now hist)) by (done || lia). apply Hc. lia.
Qed.

(** ** Scans *)

Lemma prefix_le p k : starts_with k p = true → String.le p k.
Proof.
  unfold starts_with, String.le, String.leb. revert k.
  induction p as [|a p IH]; intros [|b k]; cbn; try done.
  destruct (Ascii.ascii_dec a b) as [->|]; [|done]. intros Hp. unfold Ascii.compare.
  rewrite N.compare_refl. by apply IH.
Qed.

(** The keys from a prefix on that come before a key with it have it too. *)
Lemma prefix_between p e k :
  String.le p e → String.le e k → starts_with k p = true → starts_with e p = true.
Proof.
  unfold starts_with, String.le, String.leb. revert e k.
  induction p as [|a p IH]; intros [|b e] [|c k]; cbn; try done.
  destruct (Ascii.ascii_dec a c) as [->|]; [|done]. unfold Ascii.compare. intros Hpe Hek Hp.
  destruct (N.compare_spec (Ascii.N_of_ascii c) (Ascii.N_of_ascii b)) as [Heq|Hlt|Hgt]; [| |done].
  - apply (f_equal Ascii.ascii_of_N) in Heq. rewrite !Ascii.ascii_N_embedding in Heq. subst b.
    rewrite N.compare_refl in Hek. destruct (Ascii.ascii_dec c c); [|done]. by apply (IH e k).
  - destruct (N.compare_spec (Ascii.N_of_ascii b) (Ascii.N_of_ascii c)); done || lia.
Qed.

Lemma filter_none {A} (f : A → bool) l : (∀ x, x ∈ l → f x = false) → List.filter f l = [].
Proof.
  induction l as [|x l IH]; intros Hf; cbn; [done|].
  rewrite Hf by constructor. apply IH. intros y Hy. apply Hf. by constructor.
Qed.

Lemma take_while_filter {A} (R : A → A → Prop) (f : A → bool) l :
  StronglySorted R l → (∀ x y, x ∈ l → R x y → f y = true → f x = true) →
  take_while f l = List.filter f l.
Proof.
  induction 1 as [|x l Hs IH HR]; intros Hf; cbn; [done|].
  rewrite IH by (intros y z Hy; apply Hf; by constructor).
  destruct (f x) eqn:Hx; [done|]. symmetry. apply filter_none. intros y Hy. rewrite Forall_forall in HR. apply not_true_is_false.
  intros Hfy. specialize (Hf x y). rewrite Hf in Hx; [done|by constructor|by apply HR|done].
Qed.

Lemma StronglySorted_filter {A} (R : A → A → Prop) (P : A → Prop) `{∀ x, Decision (P x)} l :
  StronglySorted R l → StronglySorted R (filter P l).
Proof.
  induction 1 as [|x l Hs IH HR]; [constructor|]. rewrite filter_cons.
  destruct (decide (P x)); [|done]. constructor; [done|].
  rewrite Forall_forall in *. intros y Hy. apply list_elem_of_filter in Hy as [_ Hy]. by apply HR.
Qed.

Lemma elem_of_own_range writes prefix k w :
  (k, w) ∈ own_range writes prefix ↔ starts_with k prefix = true ∧ writes !! k = Some w.
Proof.
  unfold own_range. rewrite (take_while_filter (λ p q, String.le p.1 q.1)).
  - rewrite <- elem_of_btree_iter, list_elem_of_In, List.filter_In, <- list_elem_of_In.
    rewrite list_elem_of_filter. cbn. split; [naive_solver|]. intros [Hp Hin].
    split; [split; [by apply prefix_le|done]|done].
  - apply StronglySorted_filter, btree_iter_sorted.
  - intros [x xv] [y yv]. rewrite list_elem_of_filter. cbn. intros [Hle _] HR Hy.
    by eapply prefix_between.
Qed.

Lemma take_while_sublist {A} (f : A → bool) l : take_while f l `sublist_of` l.
Proof.
  induction l as [|x l IH]; cbn; [constructor|].
  destruct (f x); [by constructor|apply sublist_nil_l].
Qed.

Lemma NoDup_own_range writes prefix : NoDup (own_range writes prefix).*1.
Proof.
  eapply sublist_NoDup; [apply (NoDup_btree_keys writes)|].
  unfold own_range, btree_keys. apply fmap_sublist.
  etransitivity; [apply take_while_sublist|apply sublist_filter].
Qed.

Lemma foldl_visible (f : string → option string) (rows : gmap string string) (l : list string) k :
  foldl (λ rows key, match f key with Some v => <[key := v]> rows | None => rows end) rows l !! k
  = if decide (k ∈ l) then match f k with Some v => Some v | None => rows !! k end else rows !! k.
Proof.
  revert rows. induction l as [|key l IH]; intros rows; cbn.
  - by rewrite decide_False by (by intros ?%elem_of_nil).
  - rewrite IH. destruct (decide (key = k)) as [->|Hne].
    + rewrite (decide_True (P:=k ∈ k :: l)) by constructor.
      destruct (f k); [rewrite lookup_insert_eq|]; by destruct (decide _).
    + rewrite (decide_ext (k ∈ key :: l) (k ∈ l)) by (rewrite elem_of_cons; naive_solver).
      destruct (f key); [rewrite lookup_insert_ne by done|]; done.
Qed.

Lemma foldl_overlay (rows : gmap string string) (l : list (string * option string)) k :
  NoDup l.*1 →
  foldl (λ rows '(key, value),
    match value with Some v => <[key := v]> rows | None => base.delete key rows end) rows l !! k
  = match list_to_map (M:=gmap string _) l !! k with Some w => w | None => rows !! k end.
Proof.
  revert rows. induction l as [|[key w] l IH]; intros rows; cbn; [done|].
  intros [Hnotin Hnd]%NoDup_cons. rewrite IH by done. destruct (decide (key = k)) as [->|Hne].
  - rewrite lookup_insert_eq, not_elem_of_list_to_map_1 by done.
    destruct w; [by rewrite lookup_insert_eq|by rewrite lookup_delete_eq].
  - rewrite lookup_insert_ne by done.
    destruct w; [by rewrite lookup_insert_ne|by rewrite lookup_delete_ne].
Qed.

Lemma lookup_scan_rows vs snapshot prefix writes k :
  scan_rows vs snapshot prefix writes !! k
  = if starts_with k prefix
    then match writes !! k with Some w => w | None => visible_value vs k snapshot end
    else None.
Proof.
  unfold scan_rows. rewrite foldl_overlay by apply NoDup_own_range. rewrite foldl_visible.
  rewrite lookup_empty.
  assert (k ∈ List.filter (λ key, starts_with key prefix) (btree_keys vs)
          ↔ starts_with k prefix = true ∧ is_Some (vs !! k)) as Hin.
  { rewrite list_elem_of_In, List.filter_In, <- list_elem_of_In, elem_of_btree_keys. tauto. }
  destruct (list_to_map (own_range writes prefix) !! k) as [w|] eqn:Hw.
  - apply elem_of_list_to_map in Hw; [|apply NoDup_own_range].
    apply elem_of_own_range in Hw as [-> ->]. done.
  - apply not_elem_of_list_to_map in Hw.
    assert (starts_with k prefix = true → writes !! k = None) as Hnone.
    { intros Hp. destruct (writes !! k) as [w|] eqn:Hwk; [|done]. destruct Hw.
      apply list_elem_of_fmap. exists (k, w). split; [done|]. by apply elem_of_own_range. }
    unfold visible_value in *. destruct (starts_with k prefix) eqn:Hp.
    + rewrite Hnone by done. destruct (vs !! k) eqn:Hk; cbn.
      * rewrite decide_True by (apply Hin; eauto). by destruct (chain_value _ _).
      * by destruct (decide _).
    + rewrite decide_False; [done|]. rewrite Hin. intros [? _]. done.
Qed.

Lemma scan_rows_spec hist vs t prefix :
  (∀ k, visible_value vs k (t_snapshot t) = spec_read hist k (t_snapshot t)) →
  spec_rows hist t prefix (btree_iter (scan_rows vs (t_snapshot t) prefix (t_writes t))).
Proof.
  intros Hv. split; [apply btree_iter_sorted|split; [apply NoDup_btree_keys|]].
  intros k v. rewrite elem_of_btree_iter, lookup_scan_rows, Hv. unfold spec_get.
  destruct (starts_with k prefix); [tauto|]. split; [done|]. by intros [? _].
Qed.

(** ** The refinement *)

(** A log write leaves everything but the log alone, and never panics. *)
Definition log_effect (i : Inner) (out : result TxnError unit * Inner) : Prop :=
  ∃ w, out = (Ok tt, set_wal w i) ∨ ∃ e, out = (Err (TIo e), set_wal w i).

Lemma encode_cases r : is_ok (encode r) = true ∨ ∃ e, encode r = Err e.
Proof.
  assert (∀ out s, (∃ bs, put_string out s = Ok bs) ∨ ∃ e, put_string out s = Err e) as Hp.
  { intros out s. unfold put_string, u32_try_from.
    destruct (Z.of_nat (str_len s) <=? U32_MAX); cbn; eauto. }
  destruct r as [|txn k v|txn k| |]; cbn [encode]; auto.
  - destruct (Hp (put_u64 [TAG_SET] txn) k) as [[bs ->]|[e ->]]; cbn; [|by eauto].
    destruct (Hp bs v) as [[bs' ->]|[e ->]]; cbn; eauto.
  - destruct (Hp (put_u64 [TAG_DELETE] txn) k) as [[bs ->]|[e ->]]; cbn; eauto.
Qed.

Lemma log_record_effect r i : log_effect i (log_record r i).
Proof.
  unfold log_effect, log_record, on_wal, mbind, M_bind, lift.
  destruct (encode_cases r) as [Hok|[e ->]].
  - destruct (encode r) as [bs| |]; try done. cbn.
    destruct (append_cases bs (wal i)) as (f & [->|[e ->]]); cbn; eauto.
  - exists (wal i). right. exists e. by destruct i.
Qed.

Lemma log_synced_effect r i : log_effect i (log_synced r i).
Proof.
  unfold log_effect, log_synced. destruct (log_record_effect r i) as (w & [H|[e H]]).
  - rewrite (M_bind_run _ _ _ _ _ H). unfold on_wal. cbn.
    destruct (sync_cases w) as (f & [->|[e ->]]); cbn; eauto.
  - unfold mbind, M_bind. rewrite H. eauto.
Qed.

Record sys_ok (S : Sys) (s : Spec) : Prop := SysConsistent {
  ok_txns : s_txns s = txns S;
  ok_ts : commit_ts (inner S) = now (s_hist s);
  ok_low : ∃ low, agrees low (versions (inner S)) (s_hist s) ∧
                  map_Forall (λ _ t, low ≤ t_snapshot t) (txns S);
  ok_handle : map_Forall (λ h t, t_id t = h ∧ t_finished t = false ∧
                t_snapshot t ≤ now (s_hist s) ∧ h < next_txn (inner S)) (txns S);
  ok_active : active (inner S) = t_snapshot <$> txns S;
}.

Lemma sys_ok_new : sys_ok new_sys (MkSpec [] ∅).
Proof.
  split; try done.
  - exists 0. split; [apply agrees_empty|by intros ??].
Qed.

(** What the invariant says of one handle. *)
Lemma ok_live S s h t :
  sys_ok S s → txns S !! h = Some t →
  s_txns s !! h = Some t ∧ t_id t = h ∧ ensure_open t = Ok tt ∧
  0 ≤ t_snapshot t ≤ now (s_hist s) ∧
  (∀ k, visible_value (versions (inner S)) k (t_snapshot t) = spec_read (s_hist s) k (t_snapshot t)) ∧
  (∀ k, t_snapshot t < latest_change (versions (inner S)) k ↔ modified_since (s_hist s) k (t_snapshot t)).
Proof.
  intros [Htx Hts (low & [? ? Hr Hc] & Hlow) Hh _] Ht. rewrite Htx.
  destruct (Hh _ _ Ht) as (? & Hf & ? & _). specialize (Hlow _ _ Ht). cbn in Hlow.
  unfold ensure_open. rewrite Hf. repeat split; try done; try lia.
  - intros k. apply Hr. lia.
  - apply Hc. lia.
  - apply Hc. lia.
Qed.

Lemma sys_ok_wal S s w : sys_ok S s → sys_ok (MkSys (set_wal w (inner S)) (txns S)) s.
Proof. by intros []. Qed.

Lemma sys_ok_close S s h :
  sys_ok S s →
  sys_ok (MkSys (deactivate h (inner S)) (base.delete h (txns S))) (spec_close h s).
Proof.
  intros [Htx Hts (low & Ha & Hlow) Hh Hac]. split; cbn; try done.
  - by rewrite Htx.
  - exists low. split; [done|]. by apply map_Forall_delete.
  - by apply map_Forall_delete.
  - by rewrite Hac, fmap_delete.
Qed.

Lemma sys_ok_write S s h t k w :
  sys_ok S s → txns S !! h = Some t →
  sys_ok (MkSys (inner S) (<[h := set_writes (<[k := w]> (t_writes t)) t]> (txns S)))
         (spec_write h k w t s).
Proof.
  intros [Htx Hts (low & Ha & Hlow) Hh Hac] Ht. split; cbn; try done.
  - by rewrite Htx.
  - exists low. split; [done|]. apply map_Forall_insert_2; [exact (Hlow h t Ht)|done].
  - apply map_Forall_insert_2; [exact (Hh h t Ht)|done].
  - rewrite Hac, fmap_insert. symmetry. apply insert_id. by rewrite lookup_fmap, Ht.
Qed.

Lemma sys_ok_commit S s h t :
  sys_ok S s → txns S !! h = Some t →
  sys_ok (MkSys (deactivate h (set_commit_ts (now (s_hist s) + 1)
            (set_versions (apply_versions (versions (inner S)) (t_writes t) (now (s_hist s) + 1))
              (inner S)))) (base.delete h (txns S)))
         (MkSpec (s_hist s ++ [t_writes t]) (base.delete h (s_txns s))).
Proof.
  intros [Htx Hts (low & Ha & Hlow) Hh Hac] Ht. split; cbn.
  - by rewrite Htx.
  - by rewrite now_snoc.
  - exists low. split; [by apply agrees_commit|]. by apply map_Forall_delete.
  - apply map_Forall_delete. intros h' t' Ht'. destruct (Hh _ _ Ht') as (? & ? & ? & ?).
    rewrite now_snoc. repeat split; done || lia.
  - by rewrite Hac, fmap_delete.
Qed.

Lemma min_value_spec (m : gmap Z Z) :
  match min_value m with
  | Some v => (∃ k, m !! k = Some v) ∧ map_Forall (λ _ v', v ≤ v') m
  | None => m = ∅
  end.
Proof.
  assert (∀ l, match foldr (λ v acc, Some (match acc with Some a => Z.min v a | None => v end))
                           None (l : list (Z * Z)).*2 with
          | Some v => (∃ k, (k, v) ∈ l) ∧ ∀ k v', (k, v') ∈ l → v ≤ v'
          | None => l = [] end) as Hl.
  { induction l as [|[k v] l IH]; [done|]. cbn. destruct (foldr _ None l.*2) as [a|].
    - destruct IH as [[k' Hk'] Hall]. split.
      + destruct (Z.min_spec v a) as [[_ ->]|[_ ->]]; [exists k|exists k']; by constructor.
      + intros k0 v0 [[= -> ->]|Hin%Hall]%elem_of_cons; lia.
    - subst l. split; [exists k; by constructor|]. intros k0 v0 [[= -> ->]|?]%elem_of_cons; [lia|].
      by destruct (not_elem_of_nil (k0, v0)). }
  specialize (Hl (map_to_list m)). unfold min_value. destruct (foldr _ None _) as [v|].
  - destruct Hl as [[k Hk] Hall]. split; [exists k; by apply elem_of_map_to_list|].
    intros k' v' Hk'. by eapply Hall, elem_of_map_to_list.
  - by apply map_to_list_empty_iff.
Qed.

(** What collection may not forget: the oldest live snapshot. *)
Lemma sys_ok_gc S s wm :
  sys_ok S s →
  wm = default (u64_saturating_add (commit_ts (inner S)) 1) (min_value (active (inner S))) →
  sys_ok (MkSys (set_versions (gc_versions wm (versions (inner S))) (inner S)) (txns S)) s.
Proof.
  intros [Htx Hts (low & Ha & Hlow) Hh Hac] Hwm. split; try done. cbn.
  pose proof (min_value_spec (active (inner S))) as Hmin.
  pose proof (ag_low _ _ _ Ha).
  destruct (min_value _) as [v|]; cbn in Hwm; rewrite Hac in Hmin.
  - destruct Hmin as [[k Hk] Hall]. exists wm.
    rewrite lookup_fmap in Hk. destruct (txns S !! k) as [t|] eqn:Ht; [|done].
    injection Hk as Hk. subst v wm. specialize (Hlow _ _ Ht) as ?.
    specialize (Hh _ _ Ht) as (? & ? & ? & ?). cbn in *. split.
    + eapply agrees_gc; [| |done]; lia.
    + intros k' t' Ht'. apply (Hall k'). by rewrite lookup_fmap, Ht'.
  - exists (now (s_hist s)). split.
    + eapply agrees_gc; [| |done]; [lia|]. subst wm. unfold u64_saturating_add. lia.
    + intros k t Ht. apply (f_equal (.!! k)) in Hmin. rewrite lookup_fmap, Ht in Hmin. done.
Qed.

Lemma begin_refines S s r i :
  sys_ok S s → begin (inner S) = (r, i) →
  match r with
  | Ok t => t_snapshot t = now (s_hist s) ∧ t_writes t = ∅ ∧ s_txns s !! t_id t = None ∧
            sys_ok (MkSys i (<[t_id t := t]> (txns S)))
                   (MkSpec (s_hist s) (<[t_id t := MkTxn (t_id t) (now (s_hist s)) ∅ false]> (s_txns s)))
  | Err (TIo e) => sys_ok (MkSys i (txns S)) s
  | _ => False
  end.
Proof.
  intros Hok Hrun. unfold begin in Hrun. run_steps in Hrun.
  unfold u64_checked_add in Hrun. destruct (_ <=? _); cbn [ok_or] in Hrun; run_steps in Hrun;
    [|by injection Hrun as <- <-; destruct S].
  set (i1 := set_next_txn _ _) in Hrun.
  set (rec := RBegin _ _) in Hrun.
  assert (map_Forall (λ h t, t_id t = h ∧ t_finished t = false ∧
            t_snapshot t ≤ now (s_hist s) ∧ h < next_txn (inner S) + 1) (txns S)) as Hh1.
  { intros h t Ht. destruct (ok_handle _ _ Hok _ _ Ht) as (? & ? & ? & ?). repeat split; done || lia. }
  pose proof Hok as [Htx Hts (low & Ha & Hlow) Hh Hac]. pose proof (ag_low _ _ _ Ha).
  destruct (log_synced_effect rec i1) as (w & [H'|[e H']]).
  - rewrite (M_bind_run _ _ _ _ _ H') in Hrun. run_steps in Hrun.
    injection Hrun as <- <-. cbn. rewrite Hts. split_and!; try done.
    { rewrite Htx. destruct (txns S !! next_txn (inner S)) as [t|] eqn:Ht; [|done].
      destruct (Hh _ _ Ht) as (? & ? & ? & ?). lia. }
    split; cbn; try done.
    + by rewrite Htx.
    + exists low. split; [done|]. apply map_Forall_insert_2; [cbn; lia|done].
    + apply map_Forall_insert_2; [cbn; repeat split; lia|done].
    + by rewrite Hac, fmap_insert.
  - rewrite (M_bind_err _ _ _ _ _ H') in Hrun. injection Hrun as <- <-.
    by split; try done; exists low.
Qed.

Lemma on_inner_effect m i t :
  log_effect i (m i) →
  ∃ w, on_inner m (i, t) = (Ok tt, (set_wal w i, t)) ∨
       ∃ e, on_inner m (i, t) = (Err (TIo e), (set_wal w i, t)).
Proof. intros (w & [H|[e H]]); exists w; unfold on_inner, zoom; cbn; rewrite H; eauto. Qed.

Lemma run_on_inner {B} (g : Inner → Inner) (f : unit → handle B) i t :
  (on_inner (modify g) ≫= f) (i, t) = f tt (g i, t).
Proof. reflexivity. Qed.
Lemma run_update {B} g (f : unit → handle B) i t : (update_txn g ≫= f) (i, t) = f tt (i, g t).
Proof. reflexivity. Qed.
#[export] Hint Rewrite @run_on_inner @run_update : run.

(** [set] and [delete] differ in the record they log. *)
Definition write_op (rec : Z → TxnRecord) (k : string) (w : option string) : handle unit :=
  s ← get_state;
  let t := snd s in
  _ ← lift (ensure_open t);
  _ ← on_inner (log_record (rec (t_id t)));
  update_txn (λ t, set_writes (<[k := w]> (t_writes t)) t).

Lemma write_refines S s h t rec k w r i t' :
  sys_ok S s → txns S !! h = Some t → write_op rec k w (inner S, t) = (r, (i, t')) →
  (r = Ok tt ∧ sys_ok (MkSys i (<[h := t']> (txns S))) (spec_write h k w t s)) ∨
  (∃ e, r = Err (TIo e) ∧ sys_ok (MkSys i (<[h := t']> (txns S))) s).
Proof.
  intros Hok Ht Hrun. destruct (ok_live _ _ _ _ Hok Ht) as (_ & _ & Hopen & _).
  unfold write_op in Hrun. run_steps in Hrun. cbn [snd] in Hrun. rewrite Hopen in Hrun.
  run_steps in Hrun.
  destruct (on_inner_effect _ _ t (log_record_effect (rec (t_id t)) (inner S))) as (wl & [H|[e H]]).
  - rewrite (M_bind_run _ _ _ _ _ H) in Hrun. injection Hrun as <- <- <-. left. split; [done|].
    apply (sys_ok_wal _ _ wl), sys_ok_write with (h:=h) (t:=t) (k:=k) (w:=w) in Hok; done.
  - rewrite (M_bind_err _ _ _ _ _ H) in Hrun. injection Hrun as <- <- <-. right.
    exists e. split; [done|]. rewrite insert_id by done. by apply sys_ok_wal.
Qed.

(** However a consuming method ends, its handle is deactivated. *)
Lemma drop_live S s h t i :
  sys_ok S s → txns S !! h = Some t → drop_txn t i = deactivate h i.
Proof.
  intros Hok Ht. destruct (ok_handle _ _ Hok _ _ Ht) as (Hid & Hf & _).
  unfold drop_txn. by rewrite Hf, Hid.
Qed.

Lemma sys_ok_gone S s h w :
  sys_ok S s → sys_ok (MkSys (deactivate h (set_wal w (inner S))) (base.delete h (txns S))) (spec_close h s).
Proof. intros Hok. by apply (sys_ok_close (MkSys _ _)), sys_ok_wal. Qed.

Lemma first_conflict_none vs t :
  first_conflict vs t = None →
  ∀ k, is_Some (t_writes t !! k) → ¬ t_snapshot t < latest_change vs k.
Proof.
  unfold first_conflict. intros H k Hk. apply elem_of_btree_keys, list_elem_of_In in Hk.
  apply (List.find_none _ _ H) in Hk. by apply Z.ltb_ge in Hk; lia.
Qed.

Lemma first_conflict_some vs t k :
  first_conflict vs t = Some k → is_Some (t_writes t !! k) ∧ t_snapshot t < latest_change vs k.
Proof.
  unfold first_conflict. intros [Hk H]%List.find_some.
  apply list_elem_of_In, elem_of_btree_keys in Hk. by apply Z.ltb_lt in H.
Qed.

Lemma commit_refines S s h t r i :
  sys_ok S s → txns S !! h = Some t → commit t (inner S) = (r, i) →
  let S' := MkSys i (base.delete h (txns S)) in
  (∃ s', spec_step s (OCommit h) (fmap_result ATimestamp r) s' ∧ sys_ok S' s').
Proof.
  intros Hok Ht Hrun. pose proof Hok as [Htx Hts _ _ _].
  destruct (ok_live _ _ _ _ Hok Ht) as (Hs & Hid & Hopen & Hsn & Hrd & Hch).
  unfold commit, consume in Hrun. destruct (commit_body (inner S, t)) as [r1 [i1 t1]] eqn:Hbody.
  injection Hrun as <- <-. unfold commit_body in Hbody. run_steps in Hbody.
  rewrite Hopen in Hbody. run_steps in Hbody.
  destruct (first_conflict (versions (inner S)) t) as [k|] eqn:Hfc.
  - apply first_conflict_some in Hfc as [Hk Hc%Hch].
    destruct (on_inner_effect _ _ t (log_synced_effect (RAbort (t_id t)) (inner S))) as (wl & [H|[e H]]).
    + rewrite (M_bind_run _ _ _ _ _ H) in Hbody. run_steps in Hbody.
      injection Hbody as <- <- <-. rewrite Hid. exists (spec_close h s).
      split; [by eapply S_conflict|]. by apply sys_ok_gone.
    + rewrite (M_bind_err _ _ _ _ _ H) in Hbody. injection Hbody as <- <- <-.
      rewrite (drop_live S s h) by done. exists (spec_close h s).
      split; [by apply (S_io s (OCommit h))|]. by apply sys_ok_gone.
  - pose proof (first_conflict_none _ _ Hfc) as Hnc. unfold u64_checked_add in Hbody.
    destruct (_ <=? _); cbn [ok_or] in Hbody; run_steps in Hbody.
    + destruct (on_inner_effect _ _ t (log_synced_effect (RCommit (t_id t) (commit_ts (inner S) + 1))
        (inner S))) as (wl & [H|[e H]]).
      * rewrite (M_bind_run _ _ _ _ _ H) in Hbody. run_steps in Hbody.
        injection Hbody as <- <- <-. cbn [fmap_result]. rewrite Hid, Hts. eexists.
        split; [eapply S_commit; [done|]|by apply (sys_ok_commit _ _ _ _ (sys_ok_wal _ _ wl Hok))].
        intros k Hk Hm%Hch. by apply (Hnc k).
      * rewrite (M_bind_err _ _ _ _ _ H) in Hbody. injection Hbody as <- <- <-.
        rewrite (drop_live S s h) by done. exists (spec_close h s).
        split; [by apply (S_io s (OCommit h))|]. by apply sys_ok_gone.
    + injection Hbody as <- <- <-. rewrite (drop_live S s h) by done. exists (spec_close h s).
      split; [by apply (S_io s (OCommit h))|]. by apply sys_ok_close.
Qed.

Lemma abort_refines S s h t r i :
  sys_ok S s → txns S !! h = Some t → abort t (inner S) = (r, i) →
  let S' := MkSys i (base.delete h (txns S)) in
  (∃ s', spec_step s (OAbort h) (fmap_result (λ _, ADone) r) s' ∧ sys_ok S' s').
Proof.
  intros Hok Ht Hrun.
  destruct (ok_live _ _ _ _ Hok Ht) as (Hs & Hid & Hopen & _).
  unfold abort, consume in Hrun. destruct (abort_body (inner S, t)) as [r1 [i1 t1]] eqn:Hbody.
  injection Hrun as <- <-. unfold abort_body in Hbody. run_steps in Hbody. cbn [snd] in Hbody.
  rewrite Hopen in Hbody. run_steps in Hbody. exists (spec_close h s).
  destruct (on_inner_effect _ _ t (log_synced_effect (RAbort (t_id t)) (inner S))) as (wl & [H|[e H]]).
  - rewrite (M_bind_run _ _ _ _ _ H) in Hbody. run_steps in Hbody. injection Hbody as <- <- <-.
    rewrite Hid. split; [by apply S_abort|]. by apply sys_ok_gone.
  - rewrite (M_bind_err _ _ _ _ _ H) in Hbody. injection Hbody as <- <- <-.
    rewrite (drop_live S s h) by done. split; [by apply (S_io s (OAbort h))|]. by apply sys_ok_gone.
Qed.

(** Every operation answers as the specification may, whatever the log does. *)
Lemma exec_refines S s o r S' :
  sys_ok S s → exec S o = Some (r, S') → ∃ s', spec_step s o r s' ∧ sys_ok S' s'.
Proof.
  intros Hok. destruct o as [|h k|h p|h k v|h k|h|h|h|]; cbn [exec];
    unfold exec_read, exec_update, exec_consume.
  - destruct (begin (inner S)) as [r0 i] eqn:Hb. pose proof (begin_refines _ _ _ _ Hok Hb) as H.
    destruct r0 as [t|[e| |]|]; try done; intros [= <- <-].
    + destruct H as (_ & _ & Hfresh & H'). eexists. split; [by apply S_begin|done].
    + exists s. split; [by apply (S_io s OBegin)|done].
  - destruct (txns S !! h) as [t|] eqn:Ht; [|done]. cbn.
    destruct (ok_live _ _ _ _ Hok Ht) as (Hs & Hid & Hopen & Hsn & Hrd & Hch).
    unfold get. rewrite Hopen. run_steps. unfold get_at. intros Hrun. exists s.
    assert (S' = S ∧ r = Ok (AValue (spec_get (s_hist s) t k))) as [-> ->].
    { unfold spec_get. destruct (t_writes t !! k); injection Hrun as <- <-; rewrite ?Hrd;
        by destruct S. }
    split; [by apply S_get|done].
  - destruct (txns S !! h) as [t|] eqn:Ht; [|done]. cbn.
    destruct (ok_live _ _ _ _ Hok Ht) as (Hs & Hid & Hopen & Hsn & Hrd & Hch).
    unfold scan_prefix. rewrite Hopen. run_steps. intros [= <- <-]. exists s.
    split; [eapply S_scan; [done|by apply scan_rows_spec]|by destruct S].
  - destruct (txns S !! h) as [t|] eqn:Ht; [|done]. cbn.
    destruct (set k v (inner S, t)) as [r0 [i t']] eqn:Hrun. intros [= <- <-].
    change (set k v) with (write_op (λ id, RSet id k v) k (Some v)) in Hrun.
    destruct (write_refines _ _ _ _ _ _ _ _ _ _ Hok Ht Hrun) as [[-> ?]|(e & -> & ?)].
    + eexists. split; [|done]. apply S_set. by rewrite (ok_txns _ _ Hok).
    + exists s. split; [by apply (S_io s (OSet h k v))|done].
  - destruct (txns S !! h) as [t|] eqn:Ht; [|done]. cbn.
    destruct (delete k (inner S, t)) as [r0 [i t']] eqn:Hrun. intros [= <- <-].
    change (delete k) with (write_op (λ id, RDelete id k) k None) in Hrun.
    destruct (write_refines _ _ _ _ _ _ _ _ _ _ Hok Ht Hrun) as [[-> ?]|(e & -> & ?)].
    + eexists. split; [|done]. apply S_delete. by rewrite (ok_txns _ _ Hok).
    + exists s. split; [by apply (S_io s (ODelete h k))|done].
  - destruct (txns S !! h) as [t|] eqn:Ht; [|done]. cbn.
    destruct (commit t (inner S)) as [r0 i] eqn:Hrun. intros [= <- <-].
    by eapply commit_refines.
  - destruct (txns S !! h) as [t|] eqn:Ht; [|done]. cbn.
    destruct (abort t (inner S)) as [r0 i] eqn:Hrun. intros [= <- <-].
    by eapply abort_refines.
  - destruct (txns S !! h) as [t|] eqn:Ht; [|done]. cbn. intros [= <- <-].
    exists (spec_close h s). split; [apply S_drop; by rewrite (ok_txns _ _ Hok), Ht|].
    rewrite (drop_live S s h) by done. by apply sys_ok_close.
  - unfold gc. run_steps. intros [= <- <-]. exists s.
    split; [apply S_gc|]. by apply sys_ok_gc.
Qed.

Inductive spec_runs : Spec → list (op * result TxnError answer) → Spec → Prop :=
| spec_runs_nil s : spec_runs s [] s
| spec_runs_cons s o r s1 tr s2 :
    spec_step s o r s1 → spec_runs s1 tr s2 → spec_runs s ((o, r) :: tr) s2.

Lemma runs_spec S s tr S' :
  sys_ok S s → runs S tr S' → ∃ s', spec_runs s tr s' ∧ sys_ok S' s'.
Proof.
  intros Hok H. revert s Hok. induction H as [S|S o r S1 tr S2 He _ IH]; intros s Hok.
  - exists s. split; [constructor|done].
  - destruct (exec_refines _ _ _ _ _ Hok He) as (s1 & Hstep & Hok1).
    destruct (IH _ Hok1) as (s2 & ? & ?). exists s2. split; [by econstructor|done].
Qed.

(** A store just opened on any log file, in any environment. *)
Definition fresh_sys (w : file) : Sys := MkSys (MkInner w ∅ ∅ 1 0) ∅.

Lemma sys_ok_fresh w : sys_ok (fresh_sys w) (MkSpec [] ∅).
Proof.
  split; try done. exists 0. split; [apply agrees_empty|by intros ??].
Qed.

Lemma runs_fresh_ok w tr S : runs (fresh_sys w) tr S → ∃ s, sys_ok S s.
Proof.
  intros H. destruct (runs_spec _ _ _ _ (sys_ok_fresh w) H) as (s & _ & ?). by exists s.
Qed.

(** ** What a client may conclude *)

(** Operations of one transaction on one key. *)
Definition writes_key (h : Z) (k : string) (o : op) : Prop :=
  match o with OSet h' k' _ | ODelete h' k' => h' = h ∧ k' = k | _ => False end.

(** The entries of the handle map after a step. *)
Lemma spec_step_txns s o r s' h t t' k :
  spec_step s o r s' → s_txns s !! h = Some t → s_txns s' !! h = Some t' →
  t_snapshot t' = t_snapshot t ∧ (¬ writes_key h k o → t_writes t' !! k = t_writes t !! k).
Proof.
  intros Hstep Ht Ht'.
  assert (∀ h', base.delete h' (s_txns s) !! h = Some t' → t' = t) as Hdel.
  { intros h' H. apply lookup_delete_Some in H as [_ H]. by simplify_eq. }
  assert (∀ h' k' w t0, s_txns s !! h' = Some t0 →
    <[h' := set_writes (<[k' := w]> (t_writes t0)) t0]> (s_txns s) !! h = Some t' →
    t_snapshot t' = t_snapshot t ∧ (¬ (h' = h ∧ k' = k) → t_writes t' !! k = t_writes t !! k)) as Hwr.
  { intros h' k' w t0 Ht0 H. destruct (decide (h' = h)) as [->|].
    - rewrite lookup_insert_eq in H. simplify_eq. cbn. split; [done|].
      intros Hne. rewrite lookup_insert_ne; naive_solver.
    - rewrite lookup_insert_ne in H by done. by simplify_eq. }
  destruct Hstep; cbn in Ht'; try (by eapply Hwr); try (by apply Hdel in Ht' as ->);
    try (by simplify_eq).
  - rewrite lookup_insert_ne in Ht' by congruence. by simplify_eq.
  - destruct (consumed o) as [h'|]; [by apply Hdel in Ht' as ->|by simplify_eq].
Qed.

(** A history only grows. *)
Lemma spec_step_hist s o r s' : spec_step s o r s' → ∃ more, s_hist s' = s_hist s ++ more.
Proof.
  destruct 1; cbn; try (by exists []; rewrite app_nil_r); [by eexists|].
  exists []. destruct (consumed o); by rewrite app_nil_r.
Qed.

(** The operations that leave a transaction's view of a key alone. *)
Definition keeps (h : Z) (k : string) (o : op) : Prop := ¬ writes_key h k o ∧ consumed o ≠ Some h.

Lemma spec_step_keeps s o r s' h t :
  spec_step s o r s' → s_txns s !! h = Some t → consumed o ≠ Some h → is_Some (s_txns s' !! h).
Proof.
  intros Hstep Ht Hc.
  assert (∀ h', consumed o = Some h' → is_Some (base.delete h' (s_txns s) !! h)) as Hdel.
  { intros h' Ho. rewrite lookup_delete_ne by congruence. eauto. }
  destruct Hstep; cbn; try (by eauto); try (by apply Hdel);
    try (rewrite lookup_insert_is_Some'; by eauto).
  destruct (consumed o) eqn:Ho; [by apply Hdel|by eauto].
Qed.

Lemma runs_snapshot S s tr S' h t :
  sys_ok S s → runs S tr S' → txns S !! h = Some t → Forall (λ o, consumed o ≠ Some h) tr.*1 →
  ∃ s' t', sys_ok S' s' ∧ (∃ more, s_hist s' = s_hist s ++ more) ∧ txns S' !! h = Some t' ∧
           t_snapshot t' = t_snapshot t.
Proof.
  intros Hok H. revert s t Hok. induction H as [S|S o r S1 tr S2 He _ IH]; intros s t Hok Ht Hk.
  - exists s, t. split_and!; try done. exists []. by rewrite app_nil_r.
  - apply Forall_cons in Hk as [Hc Hk].
    destruct (exec_refines _ _ _ _ _ Hok He) as (s1 & Hstep & Hok1).
    destruct (ok_live _ _ _ _ Hok Ht) as (Hs & _ & _ & Hsn & _).
    destruct (spec_step_keeps _ _ _ _ _ _ Hstep Hs Hc) as [t1 Ht1].
    destruct (spec_step_hist _ _ _ _ Hstep) as (m1 & Hm1).
    destruct (spec_step_txns _ _ _ _ _ _ _ EmptyString Hstep Hs Ht1) as [Hsn1 _]. rewrite (ok_txns _ _ Hok1) in Ht1.
    destruct (IH _ _ Hok1 Ht1 Hk) as (s2 & t2 & Hok2 & (m2 & Hm2) & Ht2 & Hsn2).
    exists s2, t2. split_and!; try done; [|congruence].
    exists (m1 ++ m2). by rewrite Hm2, Hm1, app_assoc.
Qed.

Lemma runs_keep S s tr S' h k t :
  sys_ok S s → runs S tr S' → txns S !! h = Some t → Forall (keeps h k) tr.*1 →
  ∃ s' t', sys_ok S' s' ∧ (∃ more, s_hist s' = s_hist s ++ more) ∧ txns S' !! h = Some t' ∧
           t_snapshot t' = t_snapshot t ∧ t_writes t' !! k = t_writes t !! k.
Proof.
  intros Hok H. revert s t Hok. induction H as [S|S o r S1 tr S2 He _ IH]; intros s t Hok Ht Hk.
  - exists s, t. split_and!; try done. exists []. by rewrite app_nil_r.
  - apply Forall_cons in Hk as [[Hw Hc] Hk].
    destruct (exec_refines _ _ _ _ _ Hok He) as (s1 & Hstep & Hok1).
    destruct (ok_live _ _ _ _ Hok Ht) as (Hs & _ & _ & Hsn & _).
    destruct (spec_step_keeps _ _ _ _ _ _ Hstep Hs Hc) as [t1 Ht1].
    destruct (spec_step_hist _ _ _ _ Hstep) as (m1 & Hm1).
    destruct (spec_step_txns _ _ _ _ _ _ _ k Hstep Hs Ht1) as [Hsn1 Hw1].
    specialize (Hw1 Hw). rewrite (ok_txns _ _ Hok1) in Ht1.
    destruct (IH _ _ Hok1 Ht1 Hk) as (s2 & t2 & Hok2 & (m2 & Hm2) & Ht2 & Hsn2 & Hw2).
    exists s2, t2. split_and!; try done; [|congruence..].
    exists (m1 ++ m2). by rewrite Hm2, Hm1, app_assoc.
Qed.

Lemma exec_get S s h t k :
  sys_ok S s → txns S !! h = Some t →
  exec S (OGet h k) = Some (Ok (AValue (spec_get (s_hist s) t k)), S).
Proof.
  intros Hok Ht. cbn [exec]. unfold exec_read. rewrite Ht. cbn.
  destruct (ok_live _ _ _ _ Hok Ht) as (_ & _ & Hopen & _ & Hrd & _).
  unfold get. rewrite Hopen. run_steps. unfold get_at, spec_get.
  destruct (t_writes t !! k); run_steps; cbn; rewrite ?Hrd; by destruct S.
Qed.

Lemma modified_app hist more k s :
  modified_since hist k s → modified_since (hist ++ more) k s.
Proof.
  intros (i & ws & w & Hi & Hl & Hw & Hc). exists i, ws, w. repeat split; try done.
  - by apply lookup_app_l_Some.
  - rewrite spec_read_app; [done|]. apply lookup_lt_Some in Hl. unfold now. lia.
Qed.

(** A conflicting handle cannot commit. *)
Lemma conflict_refused S s h t k r S' :
  sys_ok S s → txns S !! h = Some t → is_Some (t_writes t !! k) →
  modified_since (s_hist s) k (t_snapshot t) →
  exec S (OCommit h) = Some (r, S') → is_ok r = false.
Proof.
  intros Hok Ht Hk Hm He. destruct (exec_refines _ _ _ _ _ Hok He) as (s' & Hstep & _).
  inversion Hstep; subst; try done. rewrite (ok_txns _ _ Hok) in *. simplify_eq.
  exfalso. naive_solver.
Qed.

(** The one way a commit succeeds. *)
Lemma commit_succeeds S s h a S' :
  sys_ok S s → exec S (OCommit h) = Some (Ok a, S') →
  ∃ t, txns S !! h = Some t ∧ a = ATimestamp (now (s_hist s) + 1) ∧
       sys_ok S' (MkSpec (s_hist s ++ [t_writes t]) (base.delete h (s_txns s))) ∧
       versions (inner S')
       = apply_versions (versions (inner S)) (t_writes t) (now (s_hist s) + 1).
Proof.
  intros Hok He. pose proof (exec_refines _ _ _ _ _ Hok He) as (s' & Hstep & Hok').
  inversion Hstep; subst. rewrite (ok_txns _ _ Hok) in *. exists t. split_and!; try done.
  rename select (txns S !! h = Some t) into Ht.
  destruct (ok_live _ _ _ _ Hok Ht) as (_ & _ & Hopen & _).
  cbn [exec] in He. unfold exec_consume in He. rewrite Ht in He. cbn in He.
  destruct (commit t (inner S)) as [r0 i] eqn:Hrun. injection He as Hr <-.
  destruct r0 as [ts| |]; [|done|done]. clear Hr.
  unfold commit, consume in Hrun. destruct (commit_body (inner S, t)) as [r1 [i1 t1]] eqn:Hbody.
  injection Hrun as -> <-. unfold commit_body in Hbody. run_steps in Hbody.
  rewrite Hopen in Hbody. run_steps in Hbody. destruct (first_conflict _ t) as [k|].
  - destruct (on_inner_effect _ _ t (log_synced_effect (RAbort (t_id t)) (inner S))) as (wl & [H|[e H]]).
    + rewrite (M_bind_run _ _ _ _ _ H) in Hbody. by run_steps in Hbody.
    + by rewrite (M_bind_err _ _ _ _ _ H) in Hbody.
  - unfold u64_checked_add in Hbody. destruct (_ <=? _); cbn [ok_or] in Hbody; run_steps in Hbody;
      [|done].
    destruct (on_inner_effect _ _ t (log_synced_effect (RCommit (t_id t) (commit_ts (inner S) + 1))
        (inner S))) as (wl & [H|[e H]]).
    + rewrite (M_bind_run _ _ _ _ _ H) in Hbody. run_steps in Hbody.
      injection Hbody as <- <- <-. by rewrite (ok_ts _ _ Hok).
    + by rewrite (M_bind_err _ _ _ _ _ H) in Hbody.
Qed.

(** ** Running concrete scripts *)

Fixpoint exec_all (S : Sys) (ops : list op)
  : option (list (op * result TxnError answer) * Sys) :=
  match ops with
  | [] => Some ([], S)
  | o :: ops => '(r, S1) ← exec S o; '(tr, S2) ← exec_all S1 ops; Some ((o, r) :: tr, S2)
  end.

Lemma exec_all_runs S ops tr S' : exec_all S ops = Some (tr, S') → runs S tr S'.
Proof.
  revert S tr. induction ops as [|o ops IH]; cbn; intros S tr; [intros [= <- <-]; constructor|].
  destruct (exec S o) as [[r S1]|] eqn:He; [|done]. cbn.
  destruct (exec_all S1 ops) as [[tr1 S2]|] eqn:Hr; [|done]. intros [= <- <-].
  econstructor; [done|by apply IH].
Qed.

Definition after (ops : list op) : Sys :=
  match exec_all (fresh_sys (stored [])) ops with Some (_, sys) => sys | None => fresh_sys absent end.
Definition trace (ops : list op) : list (op * result TxnError answer) :=
  match exec_all (fresh_sys (stored [])) ops with Some (tr, _) => tr | None => [] end.

Lemma after_runs ops :
  is_Some (exec_all (fresh_sys (stored [])) ops) → runs (fresh_sys (stored [])) (trace ops) (after ops).
Proof.
  unfold after, trace. intros [[tr S] H]. rewrite H. by eapply exec_all_runs.
Qed.

Definition script1 : list op :=
  [OBegin; OSet 1 "k" "one"; OCommit 1; OBegin; OGet 2 "k"; OBegin].
Definition script2 : list op := [OSet 3 "k" "two"; OCommit 3; OGc].

Lemma script2_keeps : Forall (keeps 2 "k") script2.
Proof. repeat (apply Forall_cons; split); [..|constructor]; (split; [|discriminate]); cbn; lia. Qed.

(** ** Theorems *)

(** C4. Whatever its log file holds and however the log's system calls fail,
    every sequence of transaction operations on a store just opened empty
    (begin, reads, scans, writes, commits, aborts, handle drops and garbage
    collections, in any interleaving) gets answers that the snapshot-isolation
    specification allows: reads see the snapshot and the transaction's own
    writes, a commit is refused exactly when a key it writes changed after its
    snapshot, a failed log write leaves no trace, and collection is invisible. *)
Theorem store_refines_snapshot_isolation w tr S :
  runs (fresh_sys w) tr S → ∃ s, spec_runs (MkSpec [] ∅) tr s ∧ sys_ok S s.
Proof. apply runs_spec, sys_ok_fresh. Qed.

Lemma store_refines_snapshot_isolation_witness :
  runs (fresh_sys (stored [])) (trace (script1 ++ script2)) (after (script1 ++ script2)) ∧
  ∃ s, spec_runs (MkSpec [] ∅) (trace (script1 ++ script2)) s ∧ sys_ok (after (script1 ++ script2)) s.
Proof.
  assert (runs (fresh_sys (stored [])) (trace (script1 ++ script2)) (after (script1 ++ script2))) as H.
  { apply after_runs. vm_compute. eauto. }
  exact (conj H (store_refines_snapshot_isolation _ _ _ H)).
Defined.

(** Reads repeat: as long as a transaction does not itself write the key
    and is not ended, reading the key again returns the same value, whatever
    other transactions commit and whatever is collected in between. *)
Theorem repeatable_reads w tr0 S h k r S1 tr S2 :
  runs (fresh_sys w) tr0 S → exec S (OGet h k) = Some (r, S1) →
  runs S1 tr S2 → Forall (keeps h k) tr.*1 →
  exec S2 (OGet h k) = Some (r, S2).
Proof.
  intros H0 He Hr Hk. destruct (runs_fresh_ok _ _ _ H0) as [s Hok].
  destruct (txns S !! h) as [t|] eqn:Ht; [|cbn in He; unfold exec_read in He; by rewrite Ht in He].
  rewrite (exec_get _ s _ t) in He by done. injection He as <- <-.
  destruct (ok_live _ _ _ _ Hok Ht) as (_ & _ & _ & Hsn & _).
  destruct (runs_keep _ _ _ _ _ _ _ Hok Hr Ht Hk) as (s2 & t2 & Hok2 & (m & Hm) & Ht2 & Hsn2 & Hw2).
  rewrite (exec_get _ s2 _ t2) by done. unfold spec_get.
  by rewrite Hw2, Hsn2, Hm, spec_read_app by lia.
Qed.

Lemma repeatable_reads_witness :
  let S := after script1 in
  let tr := drop (length script1) (trace (script1 ++ script2)) in
  runs (fresh_sys (stored [])) (trace script1) S ∧
  exec S (OGet 2 "k") = Some (Ok (AValue (Some "one")), S) ∧
  runs S tr (after (script1 ++ script2)) ∧ Forall (keeps 2 "k") tr.*1 ∧
  exec (after (script1 ++ script2)) (OGet 2 "k")
  = Some (Ok (AValue (Some "one")), after (script1 ++ script2)).
Proof.
  cbv zeta. set (S := after script1). set (tr := drop _ _).
  assert (runs (fresh_sys (stored [])) (trace script1) S) as H1.
  { apply after_runs. vm_compute. eauto. }
  assert (exec S (OGet 2 "k") = Some (Ok (AValue (Some "one")), S)) as H2 by (vm_compute; reflexivity).
  assert (runs S tr (after (script1 ++ script2))) as H3.
  { apply (exec_all_runs _ script2). vm_compute. reflexivity. }
  assert (Forall (keeps 2 "k") tr.*1) as H4.
  { replace tr.*1 with script2 by (vm_compute; reflexivity). exact script2_keeps. }
  exact (conj H1 (conj H2 (conj H3 (conj H4 (repeatable_reads _ _ _ _ _ _ _ _ _ H1 H2 H3 H4))))).
Defined.

(** First committer wins: when two live transactions both write a key and
    one of them commits a value for it, the other can no longer commit, now or
    after any further operations. *)
Theorem first_committer_wins w tr0 S h1 t1 h2 t2 k v a S1 tr S2 t2' r S3 :
  runs (fresh_sys w) tr0 S → h1 ≠ h2 →
  txns S !! h1 = Some t1 → t_writes t1 !! k = Some (Some v) →
  txns S !! h2 = Some t2 →
  exec S (OCommit h1) = Some (Ok a, S1) →
  runs S1 tr S2 → Forall (λ o, consumed o ≠ Some h2) tr.*1 →
  txns S2 !! h2 = Some t2' → is_Some (t_writes t2' !! k) →
  exec S2 (OCommit h2) = Some (r, S3) → is_ok r = false.
Proof.
  intros H0 Hne Ht1 Hw1 Ht2 Hc Hr Hk Ht2' Hw2 He2.
  destruct (runs_fresh_ok _ _ _ H0) as [s Hok].
  destruct (ok_live _ _ _ _ Hok Ht2) as (_ & _ & _ & Hsn & _).
  destruct (commit_succeeds _ _ _ _ _ Hok Hc) as (t & Ht & _ & Hok1 & _).
  simplify_eq.
  assert (txns S1 !! h2 = Some t2) as Ht21.
  { rewrite <- (ok_txns _ _ Hok1). cbn. rewrite lookup_delete_ne by done. by rewrite (ok_txns _ _ Hok). }
  destruct (runs_snapshot _ _ _ _ _ _ Hok1 Hr Ht21 Hk) as (s2 & t2'' & Hok2 & (m & Hm) & Ht2'' & Hsn2).
  simplify_eq. eapply (conflict_refused S2 s2 h2 t2' k); try done.
  rewrite Hm, Hsn2. apply modified_app. cbn. apply modified_snoc; [lia|]. right.
  exists (Some v). by split.
Qed.

Definition script3 : list op := [OBegin; OBegin; OSet 1 "k" "a"; OSet 2 "k" "b"].

Lemma first_committer_wins_witness :
  let S := after script3 in
  let S1 := after (script3 ++ [OCommit 1]) in
  let S2 := after (script3 ++ [OCommit 1; OGc]) in
  let S3 := after (script3 ++ [OCommit 1; OGc; OCommit 2]) in
  let t1 := MkTxn 1 0 {["k" := Some "a"]} false in
  let t2 := MkTxn 2 0 {["k" := Some "b"]} false in
  runs (fresh_sys (stored [])) (trace script3) S ∧ 1 ≠ 2 ∧
  txns S !! 1 = Some t1 ∧ t_writes t1 !! "k" = Some (Some "a") ∧ txns S !! 2 = Some t2 ∧
  exec S (OCommit 1) = Some (Ok (ATimestamp 1), S1) ∧
  runs S1 [(OGc, Ok (AReport (MkGcReport 0 0)))] S2 ∧
  Forall (λ o, consumed o ≠ Some 2) [OGc] ∧
  txns S2 !! 2 = Some t2 ∧ is_Some (t_writes t2 !! "k") ∧
  exec S2 (OCommit 2) = Some (Err (TConflict "k"), S3) ∧ is_ok (Err (A:=answer) (TConflict "k")) = false.
Proof.
  intros S S1 S2 S3 t1 t2.
  assert (runs (fresh_sys (stored [])) (trace script3) S) as H1.
  { apply after_runs. vm_compute. eauto. }
  assert (txns S !! 1 = Some t1) as H2 by (vm_compute; reflexivity).
  assert (t_writes t1 !! "k" = Some (Some "a")) as H3 by (vm_compute; reflexivity).
  assert (txns S !! 2 = Some t2) as H4 by (vm_compute; reflexivity).
  assert (exec S (OCommit 1) = Some (Ok (ATimestamp 1), S1)) as H5 by (vm_compute; reflexivity).
  assert (runs S1 [(OGc, Ok (AReport (MkGcReport 0 0)))] S2) as H6.
  { apply (exec_all_runs _ [OGc]). vm_compute. reflexivity. }
  assert (Forall (λ o, consumed o ≠ Some 2) [OGc]) as H7 by (constructor; [discriminate|constructor]).
  assert (txns S2 !! 2 = Some t2) as H8 by (vm_compute; reflexivity).
  assert (is_Some (t_writes t2 !! "k")) as H9 by (exists (Some "b"); vm_compute; reflexivity).
  assert (exec S2 (OCommit 2) = Some (Err (TConflict "k"), S3)) as H10 by (vm_compute; reflexivity).
  assert (1 ≠ 2) as Hne by lia.
  exact (conj H1 (conj Hne (conj H2 (conj H3 (conj H4 (conj H5 (conj H6 (conj H7 (conj H8 (conj H9
    (conj H10 (first_committer_wins _ _ _ _ _ _ _ _ _ _ _ _ _ _ _ _ H1 Hne H2 H3 H4 H5 H6 H7 H8 H9
      H10)))))))))))).
Defined.

(** A successful commit publishes its writes atomically at the timestamp it
    returns: at that timestamp every written key has its new value and every
    other key the value it had just before; and no live transaction's snapshot
    changes. *)
Theorem commit_publishes_atomically w tr S h t ts S' :
  runs (fresh_sys w) tr S → txns S !! h = Some t →
  exec S (OCommit h) = Some (Ok (ATimestamp ts), S') →
  commit_ts (inner S') = ts ∧ ts = commit_ts (inner S) + 1 ∧
  (∀ k, visible_value (versions (inner S')) k ts
        = match t_writes t !! k with
          | Some w => w
          | None => visible_value (versions (inner S)) k (commit_ts (inner S))
          end) ∧
  (∀ k s, s ≤ commit_ts (inner S) →
          visible_value (versions (inner S')) k s = visible_value (versions (inner S)) k s).
Proof.
  intros H0 Ht He. destruct (runs_fresh_ok _ _ _ H0) as [s Hok].
  destruct (commit_succeeds _ _ _ _ _ Hok He) as (t' & Ht' & [= ->] & Hok' & Hvs). simplify_eq.
  pose proof (ok_ts _ _ Hok) as Hts. pose proof (ok_ts _ _ Hok') as Hts'.
  destruct (ok_low _ _ Hok) as (low & [Hwf _ _ _] & _). cbn in Hts'. rewrite now_snoc in Hts'.
  split_and!; [done|lia|..]; rewrite Hvs, Hts.
  - intros k. rewrite (visible_apply_new (now (s_hist s))) by (done || lia).
    by rewrite (visible_future (now (s_hist s)) _ k (_ + 1)) by (done || lia).
  - intros k s' Hs'. apply visible_apply_old. lia.
Qed.

Lemma commit_publishes_atomically_witness :
  let S := after script3 in
  let S' := after (script3 ++ [OCommit 1]) in
  let t := MkTxn 1 0 {["k" := Some "a"]} false in
  runs (fresh_sys (stored [])) (trace script3) S ∧ txns S !! 1 = Some t ∧
  exec S (OCommit 1) = Some (Ok (ATimestamp 1), S') ∧
  commit_ts (inner S') = 1 ∧ 1 = commit_ts (inner S) + 1 ∧
  (∀ k, visible_value (versions (inner S')) k 1
        = match t_writes t !! k with
          | Some w => w
          | None => visible_value (versions (inner S)) k (commit_ts (inner S))
          end) ∧
  (∀ k s, s ≤ commit_ts (inner S) →
          visible_value (versions (inner S')) k s = visible_value (versions (inner S)) k s).
Proof.
  cbv zeta. set (S := after script3). set (S' := after _). set (t := MkTxn 1 _ _ _).
  assert (runs (fresh_sys (stored [])) (trace script3) S) as H1.
  { apply after_runs. vm_compute. eauto. }
  assert (txns S !! 1 = Some t) as H2 by (vm_compute; reflexivity).
  assert (exec S (OCommit 1) = Some (Ok (ATimestamp 1), S')) as H3 by (vm_compute; reflexivity).
  exact (conj H1 (conj H2 (conj H3 (commit_publishes_atomically _ _ _ _ _ _ _ H1 H2 H3)))).
Defined.

(** ** Collection, exactly *)

Definition version_total (vs : table) : nat :=
  foldr (λ '(_, chain) n, (length chain + n)%nat) 0%nat (btree_iter vs).

Lemma sum_perm (f : list Version → nat) (l l' : list (string * list Version)) :
  l ≡ₚ l' → foldr (λ '(_, chain) n, (f chain + n)%nat) 0%nat l
            = foldr (λ '(_, chain) n, (f chain + n)%nat) 0%nat l'.
Proof. induction 1 as [|[k c] l l' _ IH|[k c] [k' c'] l|l l' l'' _ IH1 _ IH2]; cbn; lia. Qed.

Lemma sum_insert (f : list Version → nat) (vs : table) k c :
  vs !! k = None →
  foldr (λ '(_, chain) n, (f chain + n)%nat) 0%nat (btree_iter (<[k := c]> vs))
  = (f c + foldr (λ '(_, chain) n, (f chain + n)%nat) 0%nat (btree_iter vs))%nat.
Proof.
  intros Hk. rewrite (sum_perm f _ ((k, c) :: btree_iter vs)); [done|].
  rewrite !btree_iter_perm. by apply map_to_list_insert.
Qed.

Lemma gc_total wm vs : (version_total (gc_versions wm vs) + gc_reclaimed wm vs = version_total vs)%nat.
Proof.
  unfold version_total, gc_reclaimed. induction vs as [|k c vs Hk IH] using map_ind; [done|].
  rewrite !(sum_insert length), (sum_insert (λ c, length c - length (gc_chain wm c))%nat) by done.
  assert (length (gc_chain wm c) ≤ length c)%nat by apply List.filter_length_le.
  unfold gc_versions in *. rewrite omap_insert.
  assert (omap (λ chain, match gc_chain wm chain with [] => None | c0 => Some c0 end) vs !! k = None)
    as Hk' by (by rewrite lookup_omap, Hk).
  destruct (gc_chain wm c) as [|v l] eqn:Hc; cbn [length] in *.
  - rewrite delete_id by done. lia.
  - rewrite (sum_insert length) by done. cbn [length]. lia.
Qed.

(** [kept] is [chain] less its versions deleted before [wm], in order. *)
Inductive collected (wm : Z) : list Version → list Version → Prop :=
| collected_nil : collected wm [] []
| collected_gone v d chain kept :
    deleted_at v = Some d → d < wm → collected wm chain kept → collected wm (v :: chain) kept
| collected_stays v chain kept :
    (∀ d, deleted_at v = Some d → wm ≤ d) → collected wm chain kept → collected wm (v :: chain) (v :: kept).

Lemma gc_chain_collected wm chain kept : gc_chain wm chain = kept ↔ collected wm chain kept.
Proof.
  split.
  - intros <-. induction chain as [|v chain IH]; [constructor|]. rewrite gc_chain_cons. destruct (gc_keep wm v) eqn:Hk.
    + apply collected_stays; [|done]. intros d Hd. apply Z.nlt_ge. intros Hlt.
      assert (gc_keep wm v = false) by (apply gc_keep_false; eauto). congruence.
    + apply gc_keep_false in Hk as (d & Hd & Hlt). by eapply collected_gone.
  - induction 1 as [|v d chain kept Hd Hlt _ IH|v chain kept Hd _ IH]; [done| |]; rewrite gc_chain_cons.
    + by rewrite (proj2 (gc_keep_false wm v)) by eauto.
    + destruct (gc_keep wm v) eqn:Hk; [by rewrite IH|]. apply gc_keep_false in Hk as (d & H & Hlt). specialize (Hd d H). lia.
Qed.

(** What the chain of a key has become. *)
Definition chain_collected (wm : Z) (before after : option (list Version)) : Prop :=
  match after with
  | Some kept => kept ≠ [] ∧ ∃ chain, before = Some chain ∧ collected wm chain kept
  | None => ∀ chain, before = Some chain → collected wm chain []
  end.

(** C24. Collection removes exactly the versions deleted before its watermark:
    the smallest snapshot of a live transaction or, with none, one more than the
    last commit.  Of every key those versions are gone, all others are there, in
    order; a key is gone when no version of it is left; the report counts the
    versions that are gone, and nothing else of the store changes. *)
Theorem gc_exact w tr S report S' :
  runs (fresh_sys w) tr S → exec S OGc = Some (Ok (AReport report), S') →
  let vs := versions (inner S) in let vs' := versions (inner S') in
  (∀ k, chain_collected (watermark report) (vs !! k) (vs' !! k)) ∧
  version_total vs = (version_total vs' + versions_reclaimed report)%nat ∧
  (∀ h t, txns S !! h = Some t → watermark report ≤ t_snapshot t) ∧
  ((∃ h t, txns S !! h = Some t ∧ watermark report = t_snapshot t) ∨
   txns S = ∅ ∧ watermark report = Z.min (commit_ts (inner S) + 1) U64_MAX) ∧
  txns S' = txns S ∧ wal (inner S') = wal (inner S) ∧ active (inner S') = active (inner S) ∧
  next_txn (inner S') = next_txn (inner S) ∧ commit_ts (inner S') = commit_ts (inner S).
Proof.
  intros H0 He. destruct (runs_fresh_ok _ _ _ H0) as [s Hok].
  cbn [exec] in He. unfold gc in He. run_steps in He. injection He as <- <-. cbn.
  set (wm := default _ _). assert (∀ h, active (inner S) !! h = t_snapshot <$> txns S !! h) as Ha
    by (intros h; by rewrite (ok_active _ _ Hok), lookup_fmap).
  pose proof (min_value_spec (active (inner S))) as Hmin.
  split_and!; [|by rewrite gc_total|..|done|done|done|done|done].
  - intros k. unfold gc_versions. rewrite lookup_omap. destruct (versions (inner S) !! k) as [c|]; [|done].
    cbn. fold (gc_chain wm c). destruct (gc_chain wm c) as [|v kept] eqn:Hc; cbn.
    + intros ? [= <-]. by apply gc_chain_collected.
    + split; [done|]. exists c. split; [done|]. by apply gc_chain_collected.
  - intros h t Ht. specialize (Ha h). rewrite Ht in Ha. unfold wm.
    destruct (min_value _) as [v|]; [by apply (proj2 Hmin h)|]. rewrite Hmin in Ha. done.
  - unfold wm. destruct (min_value _) as [v|].
    + left. destruct Hmin as [[h Hh] _]. rewrite Ha in Hh. apply fmap_Some in Hh as (t & Ht & ->). by exists h, t.
    + right. split; [|done]. apply map_eq. intros h. specialize (Ha h). rewrite Hmin, lookup_empty in Ha.
      rewrite lookup_empty. by destruct (txns S !! h).
Qed.

Definition script4 : list op :=
  [OBegin; OSet 1 "k" "a"; OCommit 1; OBegin; OSet 2 "k" "b"; OCommit 2].

Lemma gc_exact_witness :
  let S := after script4 in let S' := after (script4 ++ [OGc]) in
  let report := MkGcReport 3 1 in
  runs (fresh_sys (stored [])) (trace script4) S ∧
  exec S OGc = Some (Ok (AReport report), S') ∧
  let vs := versions (inner S) in let vs' := versions (inner S') in
  (∀ k, chain_collected (watermark report) (vs !! k) (vs' !! k)) ∧
  version_total vs = (version_total vs' + versions_reclaimed report)%nat ∧
  (∀ h t, txns S !! h = Some t → watermark report ≤ t_snapshot t) ∧
  ((∃ h t, txns S !! h = Some t ∧ watermark report = t_snapshot t) ∨
   txns S = ∅ ∧ watermark report = Z.min (commit_ts (inner S) + 1) U64_MAX) ∧
  txns S' = txns S ∧ wal (inner S') = wal (inner S) ∧ active (inner S') = active (inner S) ∧
  next_txn (inner S') = next_txn (inner S) ∧ commit_ts (inner S') = commit_ts (inner S).
Proof.
  cbv zeta. set (S := after script4). set (S' := after _). set (report := MkGcReport 3 1).
  assert (runs (fresh_sys (stored [])) (trace script4) S) as H1.
  { apply after_runs. vm_compute. eauto. }
  assert (exec S OGc = Some (Ok (AReport report), S')) as H2 by (vm_compute; reflexivity).
  exact (conj H1 (conj H2 (gc_exact _ _ _ _ _ H1 H2))).
Defined.
