(* ===== verification/MvccRecovery.v ===== *)
(** Durability of transactions: what [MvccStore::open] rebuilds from the log.

    [logged] says which records each operation writes.  [log_ok] relates a
    store, its log and the abstract history: recovering the log's records, or
    those a crash leaves of them, gives the committed history back.  It holds
    along every sequence of operations and reopenings after crashes. *)

From S2P Require Import Prelude Bytes Wal TxnLog Versions Mvcc MvccSpec.
From Stdlib Require Import Ascii.
Local Open Scope Z_scope.

(** ** Recovery over records *)

Fixpoint recover_records (r : Recovering) (recs : list TxnRecord) : io Recovering :=
  match recs with
  | [] => Ok r
  | rec :: rest => r' ← recover_record r rec; recover_records r' rest
  end.

Lemma recover_layout r recs :
  Forall record_ok recs → recover r (layout <$> recs) = recover_records r recs.
Proof.
  intros H. revert r. induction H as [|rec recs Hr _ IH]; intros r; cbn; [done|].
  rewrite decode_layout by done. cbn. destruct (recover_record r rec); cbn; auto.
Qed.

Lemma recover_records_app r l1 l2 :
  recover_records r (l1 ++ l2) = (r' ← recover_records r l1; recover_records r' l2).
Proof.
  revert r. induction l1 as [|rec l1 IH]; intros r; cbn; [done|].
  destruct (recover_record r rec); cbn; auto.
Qed.

Lemma recover_records_snoc r l rec r1 :
  recover_records r l = Ok r1 → recover_records r (l ++ [rec]) = recover_record r1 rec.
Proof.
  intros H. rewrite recover_records_app, H. cbn. by destruct (recover_record r1 rec).
Qed.

Definition is_write (rec : TxnRecord) : Prop :=
  match rec with RSet _ _ _ | RDelete _ _ => True | _ => False end.

(** Buffered writes change nothing that has been committed. *)
Lemma recover_write r rec r' :
  is_write rec → recover_record r rec = Ok r' →
  r_versions r' = r_versions r ∧ r_begun r' = r_begun r ∧
  r_max_txn r' = r_max_txn r ∧ r_commit_ts r' = r_commit_ts r.
Proof. destruct rec; cbn; intros Hw H; try done; by invert_ok. Qed.

Lemma recover_writes r recs r' :
  Forall is_write recs → recover_records r recs = Ok r' →
  r_versions r' = r_versions r ∧ r_begun r' = r_begun r ∧
  r_max_txn r' = r_max_txn r ∧ r_commit_ts r' = r_commit_ts r.
Proof.
  intros Hw. revert r. induction Hw as [|rec recs Hrec _ IH]; cbn; intros r Hr; [by invert_ok|].
  apply bind_ok in Hr as (r1 & H1 & H2). apply recover_write in H1; [|done]. apply IH in H2.
  destruct_and!. split_and!; congruence.
Qed.

(** They only add to what is pending. *)
Lemma pending_kept recs r r' id :
  Forall is_write recs → recover_records r recs = Ok r' →
  is_Some (r_pending r !! id) → is_Some (r_pending r' !! id).
Proof.
  intros Hw. revert r. induction Hw as [|rec recs Hrec _ IH]; cbn; intros r Hr Hp; [by invert_ok|].
  apply bind_ok in Hr as (r1 & H1 & H2). apply (IH r1); [done|].
  destruct rec; try done; cbn in H1; invert_ok; cbn; rewrite lookup_insert_is_Some'; eauto.
Qed.

(** ** What the operations log *)

Definition logged (S : Sys) (o : op) (res : result TxnError answer) : list TxnRecord :=
  match o, res with
  | OBegin, Ok (AHandle id) => [RBegin id (commit_ts (inner S))]
  | OSet h k v, Ok _ => [RSet h k v]
  | ODelete h k, Ok _ => [RDelete h k]
  | OCommit h, Ok (ATimestamp ts) => [RCommit h ts]
  | OCommit h, Err (TConflict _) => [RAbort h]
  | OAbort h, Ok _ => [RAbort h]
  | _, _ => []
  end.

(** Keys and values are Rust strings. *)
Definition op_strs (o : op) : Prop :=
  match o with
  | OSet _ k v => is_str k ∧ is_str v
  | ODelete _ k => is_str k
  | _ => True
  end.

Definition log_state (f : file) (d r : list TxnRecord) : Prop :=
  log_file f (layout <$> d) (layout <$> r) ∧ Forall record_ok (d ++ r).

Lemma log_record_ok i d r rec :
  log_state (wal i) d r → record_ok rec → small (layout rec) →
  ∃ w, log_record rec i = (Ok tt, set_wal w i) ∧ log_state w d (r ++ [rec]).
Proof.
  intros [Hf Hr] Hrec Hs. unfold log_record. rewrite encode_ok by done. cbn [map_err].
  run_steps. destruct (log_append _ _ _ _ Hf Hs) as (w & Ha & Hw).
  exists w. unfold on_wal. rewrite Ha. split; [done|]. split; [by rewrite fmap_app|].
  rewrite app_assoc. apply Forall_app; auto.
Qed.

Lemma log_synced_ok i d r rec :
  log_state (wal i) d r → record_ok rec → small (layout rec) →
  ∃ w, log_synced rec i = (Ok tt, set_wal w i) ∧ log_state w (d ++ r ++ [rec]) [].
Proof.
  intros Hl Hrec Hs. destruct (log_record_ok i d r rec) as (w & Ha & Hw & Hr); [done..|].
  unfold log_synced. rewrite (M_bind_run _ _ _ _ _ Ha). unfold on_wal. cbn.
  destruct (log_sync _ _ _ Hw) as (w' & -> & Hw'). exists w'. split; [done|].
  split; [|by rewrite app_nil_r]. by rewrite !fmap_app in *.
Qed.

(** An oversized or unencodable record leaves the log as it was. *)
Lemma log_record_cases i d r rec res i' :
  log_state (wal i) d r → record_strings rec → log_record rec i = (res, i') →
  (res = Ok tt ∧ ∃ w, i' = set_wal w i ∧ log_state w d (r ++ [rec])) ∨ (is_ok res = false ∧ i' = i).
Proof.
  intros Hl Hrec Hrun. destruct (encode_cases rec) as [Hok|[e He]].
  - destruct (encode rec) as [bs| |] eqn:He; try done.
    assert (record_ok rec) as Hro by (by eapply encoded_record_ok).
    destruct (decide (u32_range (Z.of_nat (length (layout rec))))) as [Hs|Hs].
    + left. destruct (log_record_ok i d r rec) as (w & Hw & ?); [done..|].
      rewrite Hw in Hrun. injection Hrun as <- <-. eauto.
    + right. unfold log_record in Hrun. rewrite encode_ok in Hrun by done. cbn [map_err] in Hrun.
      run_steps in Hrun. unfold on_wal in Hrun. rewrite append_too_large in Hrun by done.
      injection Hrun as <- <-. by destruct i.
  - right. unfold log_record in Hrun. rewrite He in Hrun. cbn [map_err] in Hrun. run_steps in Hrun.
    by injection Hrun as <- <-.
Qed.

Lemma small_begin id ts : small (layout (RBegin id ts)).
Proof. unfold small. cbn. rewrite !length_app, !length_u64_le. solve_small. Qed.
Lemma small_commit id ts : small (layout (RCommit id ts)).
Proof. unfold small. cbn. rewrite !length_app, !length_u64_le. solve_small. Qed.
Lemma small_abort id : small (layout (RAbort id)).
Proof. unfold small. cbn. rewrite !length_u64_le. solve_small. Qed.

(** Ids are 64-bit and fresh. *)
Record ids_ok (S : Sys) : Prop := IdsOk {
  io_next : 1 ≤ next_txn (inner S) ≤ U64_MAX;
  io_ts : commit_ts (inner S) ≤ U64_MAX;
  io_handles : map_Forall (λ h _, 0 ≤ h) (txns S);
}.

(** The id counter after an answer. *)
Definition next_after (res : result TxnError answer) (next next' : Z) : Prop :=
  match res with
  | Ok (AHandle id) => id = next ∧ next' = next + 1
  | _ => next' = next
  end.

Lemma next_after_same res n : (∀ id, res ≠ Ok (AHandle id)) → next_after res n n.
Proof. intros H. destruct res as [[id| | | | |]| |]; try done. by destruct (H id). Qed.

(** One operation's effect on the log. *)
Definition log_step (S : Sys) (o : op) (res : result TxnError answer) (S' : Sys)
    (d r : list TxnRecord) : Prop :=
  ∃ d' r', log_state (wal (inner S')) d' r' ∧ Forall is_write r' ∧
           d' ++ r' = (d ++ r) ++ logged S o res ∧
           next_txn (inner S') ≤ U64_MAX ∧ commit_ts (inner S') ≤ U64_MAX ∧
           next_after res (next_txn (inner S)) (next_txn (inner S')).

(** Operations that log nothing. *)
Lemma log_step_nothing S o res S' d r :
  ids_ok S → log_state (wal (inner S)) d r → Forall is_write r →
  wal (inner S') = wal (inner S) → next_txn (inner S') = next_txn (inner S) →
  commit_ts (inner S') = commit_ts (inner S) →
  logged S o res = [] → (∀ id, res ≠ Ok (AHandle id)) → log_step S o res S' d r.
Proof.
  intros [Hn Ht _] Hl Hw Hwal Hnext Hts Hlog Hres. exists d, r.
  rewrite Hwal, Hnext, Hts, Hlog, app_nil_r. split_and!; try done; [lia|by apply next_after_same].
Qed.

(** Operations that end with a synced record. *)
Lemma log_step_synced S o res S' d r rec w :
  ids_ok S → log_state w (d ++ r ++ [rec]) [] → wal (inner S') = w →
  next_txn (inner S') = next_txn (inner S) → commit_ts (inner S') ≤ U64_MAX →
  logged S o res = [rec] → (∀ id, res ≠ Ok (AHandle id)) → log_step S o res S' d r.
Proof.
  intros [Hn _ _] Hl Hwal Hnext Hts Hlog Hres. exists (d ++ r ++ [rec]), [].
  rewrite Hwal, Hnext, Hlog, app_nil_r, app_assoc in *. split_and!; try done; [lia|by apply next_after_same].
Qed.

Lemma begin_logs S s d r res S' :
  sys_ok S s → ids_ok S → log_state (wal (inner S)) d r → Forall is_write r →
  exec S OBegin = Some (res, S') → log_step S OBegin res S' d r.
Proof.
  intros Hok Hids Hl Hw He. cbn [exec] in He. destruct (begin (inner S)) as [r0 i] eqn:Hb.
  unfold begin in Hb. run_steps in Hb. pose proof Hids as [Hn Ht _].
  pose proof (ok_ts _ _ Hok) as Hts. pose proof (now_nonneg (s_hist s)).
  unfold u64_checked_add in Hb. destruct (_ <=? _) eqn:Hle; cbn [ok_or] in Hb; run_steps in Hb.
  - apply Z.leb_le in Hle. set (i1 := set_next_txn _ _) in Hb.
    assert (record_ok (RBegin (next_txn (inner S)) (commit_ts (inner S)))) as Hrec
      by (unfold record_ok, u64_range; lia).
    destruct (log_synced_ok i1 d r _ Hl Hrec (small_begin _ _)) as (w & Ha & Hw').
    rewrite (M_bind_run _ _ _ _ _ Ha) in Hb. run_steps in Hb. injection Hb as <- <-.
    injection He as <- <-. exists (d ++ r ++ [RBegin (next_txn (inner S)) (commit_ts (inner S))]), [].
    cbn. rewrite app_nil_r, app_assoc in *. split_and!; try done; lia.
  - injection Hb as <- <-. injection He as <- <-. by apply log_step_nothing.
Qed.

Lemma write_logs S s d r h t rec k w res i' t' o :
  sys_ok S s → ids_ok S → log_state (wal (inner S)) d r → Forall is_write r →
  txns S !! h = Some t → record_strings (rec h) → is_write (rec h) →
  (∀ a, logged S o (Ok a) = [rec h]) → (∀ e, logged S o (Err e) = []) →
  write_op rec k w (inner S, t) = (res, (i', t')) →
  log_step S o (fmap_result (λ _, ADone) res) (MkSys i' (<[h := t']> (txns S))) d r.
Proof.
  intros Hok Hids Hl Hw Ht Hstr Hwr Hlok Hlerr Hrun.
  destruct (ok_live _ _ _ _ Hok Ht) as (_ & Hid & Hopen & _).
  unfold write_op in Hrun. run_steps in Hrun. cbn [snd] in Hrun. rewrite Hopen, Hid in Hrun.
  run_steps in Hrun. destruct (log_record (rec h) (inner S)) as [r0 i0] eqn:Hlr.
  destruct (log_record_effect (rec h) (inner S)) as (w0 & Heff).
  destruct (log_record_cases _ _ _ _ _ _ Hl Hstr Hlr) as [(-> & w1 & -> & Hl')|[Herr ->]].
  - assert (on_inner (log_record (rec h)) (inner S, t) = (Ok tt, (set_wal w1 (inner S), t))) as Hon
      by (unfold on_inner, zoom; cbn; by rewrite Hlr).
    rewrite (M_bind_run _ _ _ _ _ Hon) in Hrun. injection Hrun as <- <- <-.
    exists d, (r ++ [rec h]). pose proof Hids as [Hn Hts _]. cbn. rewrite Hlok, app_assoc.
    split_and!; try done; [apply Forall_app; auto|lia].
  - destruct Heff as [Heff|[e Heff]]; rewrite Heff in Hlr; injection Hlr as <- Hi; [done|].
    assert (on_inner (log_record (rec h)) (inner S, t) = (Err (TIo e), (inner S, t))) as Hon
      by (unfold on_inner, zoom; cbn; by rewrite Heff, Hi).
    rewrite (M_bind_err _ _ _ _ _ Hon) in Hrun. injection Hrun as <- <- <-.
    apply log_step_nothing; try done. apply Hlerr.
Qed.

Lemma handle_range S s h t : sys_ok S s → ids_ok S → txns S !! h = Some t → u64_range h.
Proof.
  intros Hok [Hn _ Hh] Ht. specialize (Hh _ _ Ht). destruct (ok_handle _ _ Hok _ _ Ht) as (_ & _ & _ & ?).
  cbn in Hh. unfold u64_range. lia.
Qed.

Lemma on_inner_ok (m : store unit) i t w :
  m i = (Ok tt, set_wal w i) → on_inner m (i, t) = (Ok tt, (set_wal w i, t)).
Proof. intros H. unfold on_inner, zoom. cbn. by rewrite H. Qed.

Lemma commit_logs S s d r h res S' :
  sys_ok S s → ids_ok S → log_state (wal (inner S)) d r → Forall is_write r →
  exec S (OCommit h) = Some (res, S') → log_step S (OCommit h) res S' d r.
Proof.
  intros Hok Hids Hl Hw He. cbn [exec] in He. unfold exec_consume in He.
  destruct (txns S !! h) as [t|] eqn:Ht; [|done]. cbn in He.
  destruct (ok_live _ _ _ _ Hok Ht) as (_ & Hid & Hopen & _).
  pose proof (handle_range _ _ _ _ Hok Hids Ht) as Hh.
  pose proof (ok_ts _ _ Hok) as Hts. pose proof (now_nonneg (s_hist s)). pose proof Hids as [Hn Ht' _].
  unfold commit, consume in He. destruct (commit_body (inner S, t)) as [r1 [i1 t1]] eqn:Hb.
  injection He as <- <-. unfold commit_body in Hb. run_steps in Hb. rewrite Hopen, Hid in Hb.
  run_steps in Hb. destruct (first_conflict _ t) as [k|].
  - destruct (log_synced_ok (inner S) d r (RAbort h) Hl Hh (small_abort h)) as (w & Ha & Hw').
    rewrite (M_bind_run _ _ _ _ _ (on_inner_ok _ _ t _ Ha)) in Hb. run_steps in Hb.
    injection Hb as <- <- <-. by eapply log_step_synced.
  - unfold u64_checked_add in Hb. destruct (_ <=? _) eqn:Hle; cbn [ok_or] in Hb; run_steps in Hb.
    + apply Z.leb_le in Hle.
      assert (record_ok (RCommit h (commit_ts (inner S) + 1))) as Hrec
        by (unfold record_ok, u64_range in *; lia).
      destruct (log_synced_ok (inner S) d r _ Hl Hrec (small_commit _ _)) as (w & Ha & Hw').
      rewrite (M_bind_run _ _ _ _ _ (on_inner_ok _ _ t _ Ha)) in Hb. run_steps in Hb.
      injection Hb as <- <- <-. by eapply log_step_synced.
    + injection Hb as <- <- <-. rewrite (drop_live S s h) by done. by apply log_step_nothing.
Qed.

Lemma abort_logs S s d r h res S' :
  sys_ok S s → ids_ok S → log_state (wal (inner S)) d r → Forall is_write r →
  exec S (OAbort h) = Some (res, S') → log_step S (OAbort h) res S' d r.
Proof.
  intros Hok Hids Hl Hw He. cbn [exec] in He. unfold exec_consume in He.
  destruct (txns S !! h) as [t|] eqn:Ht; [|done]. cbn in He.
  destruct (ok_live _ _ _ _ Hok Ht) as (_ & Hid & Hopen & _).
  pose proof (handle_range _ _ _ _ Hok Hids Ht) as Hh. pose proof Hids as [Hn Ht' _].
  unfold abort, consume in He. destruct (abort_body (inner S, t)) as [r1 [i1 t1]] eqn:Hb.
  injection He as <- <-. unfold abort_body in Hb. run_steps in Hb. cbn [snd] in Hb.
  rewrite Hopen, Hid in Hb. run_steps in Hb.
  destruct (log_synced_ok (inner S) d r (RAbort h) Hl Hh (small_abort h)) as (w & Ha & Hw').
  rewrite (M_bind_run _ _ _ _ _ (on_inner_ok _ _ t _ Ha)) in Hb. run_steps in Hb.
  injection Hb as <- <- <-. by eapply log_step_synced.
Qed.

Lemma exec_logs S s d r o res S' :
  sys_ok S s → ids_ok S → op_strs o → log_state (wal (inner S)) d r → Forall is_write r →
  exec S o = Some (res, S') → log_step S o res S' d r.
Proof.
  intros Hok Hids Hstr Hl Hw He.
  destruct o as [|h k|h p|h k v|h k|h|h|h|]; eauto using begin_logs, commit_logs, abort_logs;
    cbn [exec] in He; unfold exec_read, exec_update, exec_consume in He;
    try (destruct (txns S !! h) as [t|] eqn:Ht; [cbn in He|done]).
  - unfold get in He. destruct (ok_live _ _ _ _ Hok Ht) as (_ & _ & Hopen & _).
    rewrite Hopen in He. run_steps in He. unfold get_at in He.
    destruct (t_writes t !! k); injection He as <- <-; by apply log_step_nothing.
  - unfold scan_prefix in He. destruct (ok_live _ _ _ _ Hok Ht) as (_ & _ & Hopen & _).
    rewrite Hopen in He. run_steps in He. injection He as <- <-. by apply log_step_nothing.
  - destruct (set k v (inner S, t)) as [r0 [i t']] eqn:Hrun. injection He as <- <-.
    apply (write_logs S s d r h t (λ id, RSet id k v) k (Some v) r0 i t'); try done.
    split; [by eapply handle_range|done].
  - destruct (delete k (inner S, t)) as [r0 [i t']] eqn:Hrun. injection He as <- <-.
    apply (write_logs S s d r h t (λ id, RDelete id k) k None r0 i t'); try done.
    split; [by eapply handle_range|done].
  - injection He as <- <-. rewrite (drop_live S s h) by done. by apply log_step_nothing.
  - unfold gc in He. run_steps in He. injection He as <- <-. by apply log_step_nothing.
Qed.

(** ** Recovering the log gives the history back *)

Record recovered (r : Recovering) (next : Z) (s : Spec) : Prop := Recovered {
  rc_agrees : agrees 0 (r_versions r) (s_hist s);
  rc_ts : r_commit_ts r = now (s_hist s);
  rc_max : 0 ≤ r_max_txn r ∧ next = r_max_txn r + 1;
  rc_old : map_Forall (λ id _, id ≤ r_max_txn r) (r_pending r);
  rc_live : map_Forall (λ h t, is_Some (r_begun r !! h) ∧ r_pending r !! h = Some (t_writes t)) (s_txns s);
}.

Lemma recovered_empty : recovered recovering0 1 (MkSpec [] ∅).
Proof. split; [apply agrees_empty|done|cbn; lia|by intros ??..]. Qed.

(** Nothing logged: handles may go, nothing else. *)
Lemma recovered_less r next s s' :
  recovered r next s → s_hist s' = s_hist s → s_txns s' ⊆ s_txns s → recovered r next s'.
Proof.
  intros [Ha Ht Hm Ho Hl] Hh Hsub. split; rewrite ?Hh; try done.
  intros h t H. apply Hl. by eapply lookup_weaken.
Qed.

Lemma map_Forall_lookup_delete {A} (P : Z → A → Prop) (m : gmap Z A) k h x :
  map_Forall P m → base.delete k m !! h = Some x → k ≠ h ∧ P h x.
Proof. intros H [Hne Hx]%lookup_delete_Some. split; [done|by apply H]. Qed.

Lemma recovered_begin r s id :
  recovered r id s →
  recovered (MkRecovering (r_versions r) (<[id := default ∅ (r_pending r !! id)]> (r_pending r))
               (<[id := now (s_hist s)]> (r_begun r)) (Z.max (r_max_txn r) id) (r_commit_ts r))
            (id + 1) (MkSpec (s_hist s) (<[id := MkTxn id (now (s_hist s)) ∅ false]> (s_txns s))).
Proof.
  intros [Ha Ht Hm Ho Hl]. split; cbn; try done; [lia|..].
  - intros h ws. rewrite lookup_insert_Some. intros [[<- _]|[_ Hh%Ho]]; cbn in *; lia.
  - intros h t. rewrite lookup_insert_Some. intros [[<- <-]|[Hne Hh]].
    + rewrite !lookup_insert_eq. split; [done|]. destruct (r_pending r !! id) eqn:Hp; [|done].
      apply Ho in Hp. cbn in Hp. lia.
    + rewrite !lookup_insert_ne by done. by apply Hl.
Qed.

Lemma recovered_write r next s h t k w :
  recovered r next s → s_txns s !! h = Some t →
  ensure_begun (r_begun r) h = Ok tt ∧ recovered (buffer h k w r) next (spec_write h k w t s).
Proof.
  intros [Ha Ht Hm Ho Hl] Hh. destruct (Hl _ _ Hh) as [[sn Hb] Hp]. split.
  - unfold ensure_begun. by rewrite Hb.
  - split; cbn; try done.
    + apply map_Forall_insert_2; [|done]. by apply (Ho h) in Hp.
    + intros h' t'. rewrite lookup_insert_Some. intros [[<- <-]|[Hne Hh']].
      * rewrite lookup_insert_eq, Hp. eauto.
      * rewrite lookup_insert_ne by done. by apply Hl.
Qed.

Lemma recovered_commit r next s h t :
  recovered r next s → s_txns s !! h = Some t →
  ∃ r', recover_record r (RCommit h (now (s_hist s) + 1)) = Ok r' ∧
        recovered r' next (MkSpec (s_hist s ++ [t_writes t]) (base.delete h (s_txns s))).
Proof.
  intros [Ha Ht Hm Ho Hl] Hh. destruct (Hl _ _ Hh) as [[sn Hb] Hp].
  cbn [recover_record]. unfold ensure_begun. rewrite Hb. cbn [mbind result_bind].
  rewrite (proj2 (Z.leb_gt _ _)) by lia. eexists. split; [done|]. rewrite Hp. split; cbn; try done.
  - by apply agrees_commit.
  - by rewrite now_snoc.
  - by apply map_Forall_delete.
  - intros h' t' Hh'. destruct (map_Forall_lookup_delete _ _ _ _ _ Hl Hh') as [Hne [Hb' Hp']].
    by rewrite !lookup_delete_ne.
Qed.

Lemma recovered_abort r next s h :
  recovered r next s →
  recovered (MkRecovering (r_versions r) (base.delete h (r_pending r)) (base.delete h (r_begun r))
                     (r_max_txn r) (r_commit_ts r)) next (spec_close h s).
Proof.
  intros [Ha Ht Hm Ho Hl]. split; cbn; try done.
  - by apply map_Forall_delete.
  - intros h' t' Hh'. destruct (map_Forall_lookup_delete _ _ _ _ _ Hl Hh') as [Hne [Hb' Hp']].
    by rewrite !lookup_delete_ne.
Qed.

Lemma recovered_step r S s o res s' next next' :
  recovered r next s → spec_step s o res s' → commit_ts (inner S) = now (s_hist s) →
  next_after res next next' →
  ∃ r', recover_records r (logged S o res) = Ok r' ∧ recovered r' next' s'.
Proof.
  intros Hr Hstep Hts Hn.
  destruct Hstep; cbn [logged recover_records next_after] in *; try subst next'.
  - destruct Hn as [-> ->]. cbn. eexists. split; [done|]. rewrite Hts. by apply recovered_begin.
  - by exists r.
  - by exists r.
  - destruct (recovered_write r next s h t k (Some v)) as [Hb Hw]; [done..|].
    cbn. rewrite Hb. cbn. by eexists.
  - destruct (recovered_write r next s h t k None) as [Hb Hw]; [done..|].
    cbn. rewrite Hb. cbn. by eexists.
  - destruct (recovered_commit r next s h t) as (r' & Hc & Hw); [done..|].
    rewrite Hc. cbn. by eexists.
  - eexists. split; [done|]. by apply recovered_abort.
  - eexists. split; [done|]. by apply recovered_abort.
  - exists r. split; [done|]. eapply recovered_less; [done|done|apply delete_subseteq].
  - by exists r.
  - exists r. split; [by destruct o|].
    destruct (consumed o); [|done]. eapply recovered_less; [done|done|apply delete_subseteq].
Qed.

(** ** The invariant of a store and its log *)

Record log_ok (S : Sys) (s : Spec) : Prop := LogOk {
  lo_sys : sys_ok S s;
  lo_ids : ids_ok S;
  lo_log : ∃ d r rr, log_state (wal (inner S)) d r ∧ Forall is_write r ∧
             recover_records recovering0 (d ++ r) = Ok rr ∧ recovered rr (next_txn (inner S)) s;
}.

Lemma log_ok_new : log_ok new_sys (MkSpec [] ∅).
Proof.
  split; [apply sys_ok_new|split; cbn; [unfold U64_MAX; lia..|by intros ??]|].
  exists [], [], recovering0. split_and!; [|done|done|apply recovered_empty].
  split; [|done]. apply (log_stored []). done.
Qed.

Lemma spec_step_handles s o res s' h t :
  spec_step s o res s' → s_txns s' !! h = Some t → is_Some (s_txns s !! h) ∨ res = Ok (AHandle h).
Proof.
  intros Hstep Ht. assert (∀ h', base.delete h' (s_txns s) !! h = Some t → is_Some (s_txns s !! h)) as Hdel.
  { intros h' [_ H]%lookup_delete_Some. eauto. }
  destruct Hstep; cbn in Ht; eauto;
    try (apply lookup_insert_Some in Ht as [[<- _]|[_ Ht]]; eauto).
  destruct (consumed o) as [h'|]; [left; exact (Hdel h' Ht)|eauto].
Qed.

Lemma log_ok_step S s o res S' :
  log_ok S s → op_strs o → exec S o = Some (res, S') → ∃ s', spec_step s o res s' ∧ log_ok S' s'.
Proof.
  intros [Hok Hids (d & r & rr & Hl & Hw & Hrec & Hr)] Hstr He.
  destruct (exec_refines _ _ _ _ _ Hok He) as (s' & Hstep & Hok').
  destruct (exec_logs _ _ _ _ _ _ _ Hok Hids Hstr Hl Hw He)
    as (d' & r' & Hl' & Hw' & Hdr & Hn & Hts & Hid).
  destruct (recovered_step _ _ _ _ _ _ _ (next_txn (inner S')) Hr Hstep (ok_ts _ _ Hok))
    as (rr' & Hrec' & Hr'); [done|].
  exists s'. split; [done|]. split; [done| |].
  - pose proof Hids as [Hn0 _ Hh]. destruct (rc_max _ _ _ Hr'). split; [lia|done|].
    intros h t Ht. rewrite <- (ok_txns _ _ Hok') in Ht.
    destruct (spec_step_handles _ _ _ _ _ _ Hstep Ht) as [[t0 Ht0]| ->].
    + rewrite (ok_txns _ _ Hok) in Ht0. exact (Hh _ _ Ht0).
    + destruct Hid as [-> _]. lia.
  - exists d', r', rr'. split_and!; try done. rewrite Hdr, recover_records_app, Hrec. done.
Qed.

(** ** Reopening *)

(** A log that replays to intact records is opened with its tail cut off. *)
Lemma open_log c recs t rr :
  Forall record_ok recs → replays c (layout <$> recs) t →
  recover_records recovering0 recs = Ok rr → r_max_txn rr < U64_MAX →
  ∃ f, Mvcc.open (stored c) = (Ok (MkInner f (r_versions rr) ∅ (r_max_txn rr + 1) (r_commit_ts rr)), f)
       ∧ log_state f recs [].
Proof.
  intros Hok Hrep Hrec Hmax. unfold Mvcc.open.
  assert (readable (stored c)) as Hrd by (split; [done|constructor]).
  rewrite (M_bind_run _ _ _ _ _ (replay_of _ _ _ Hrd eq_refl Hrep)). cbn [records truncated valid_bytes].
  rewrite (recover_layout recovering0), Hrec by done. run_steps.
  destruct (repair_log _ _ _ Hrep) as (f & Hf & Hlog). rewrite (M_bind_run _ _ _ _ _ Hf).
  destruct (log_open _ _ _ Hlog) as (f' & Hopen & Hlog'). rewrite (M_bind_run _ _ _ _ _ Hopen).
  unfold u64_checked_add. rewrite (proj2 (Z.leb_le _ _)) by lia. cbn [ok_or]. run_steps.
  eexists. split; [reflexivity|]. split; [done|by rewrite app_nil_r].
Qed.

(** The records a crash leaves: what was synced and some of the writes since. *)
Lemma crash_records f d r c :
  log_state f d r → crash_image f c →
  ∃ k t, replays c (layout <$> (d ++ take k r)) t ∧ Forall record_ok (d ++ take k r).
Proof.
  intros [Hf Hr] Hc. destruct (crash_replays _ _ _ _ Hf Hc) as (k & t & Hk).
  exists k, t. split; [by rewrite fmap_app, fmap_take|].
  apply Forall_app in Hr as [? ?]. apply Forall_app. split; [done|by apply Forall_take].
Qed.


(** A recovered store is a consistent one, with no transaction alive. *)
Lemma recovered_log_ok f recs rr next s :
  log_state f recs [] → recover_records recovering0 recs = Ok rr → recovered rr next s →
  next ≤ U64_MAX → now (s_hist s) ≤ U64_MAX →
  log_ok (MkSys (MkInner f (r_versions rr) ∅ (r_max_txn rr + 1) (r_commit_ts rr)) ∅) (MkSpec (s_hist s) ∅).
Proof.
  intros Hl Hrec [Ha Ht Hm Ho Hlv] Hn Hts. split.
  - split; cbn; try done. exists 0. split; [done|by intros ??].
  - split; cbn; [lia|lia|by intros ??].
  - exists recs, [], rr. rewrite app_nil_r. split_and!; [done..|]. split; cbn; try done. lia.
Qed.

(** Writes not yet synced may be lost in a crash; commits are not among them. *)
Lemma recovered_prefix d r rr next s k :
  Forall is_write r → recover_records recovering0 (d ++ r) = Ok rr → recovered rr next s →
  ∃ rk, recover_records recovering0 (d ++ take k r) = Ok rk ∧ recovered rk next (MkSpec (s_hist s) ∅).
Proof.
  intros Hw Hrec Hr. rewrite recover_records_app in Hrec. apply bind_ok in Hrec as (rd & Hd & Hrr).
  rewrite <- (take_drop k r), recover_records_app in Hrr. apply bind_ok in Hrr as (rk & Hk & Hrr).
  exists rk. rewrite recover_records_app, Hd. split; [done|].
  destruct (recover_writes rk (drop k r) rr) as (H1 & H2 & H3 & H4); [by apply Forall_drop|done|].
  destruct Hr as [Ha Ht Hm Ho _]. split; cbn; [by rewrite <- H1|by rewrite <- H4|by rewrite <- H3| |done].
  intros id ws Hid. destruct (pending_kept (drop k r) rk rr id) as [ws' Hws];
    [by apply Forall_drop|done|by rewrite Hid|].
  rewrite <- H3. exact (Ho _ _ Hws).
Qed.

Lemma reopen_after_crash S s c :
  log_ok S s → crash_image (wal (inner S)) c →
  ∃ i, Mvcc.open (stored c) = (Ok i, wal i) ∧ next_txn i = next_txn (inner S) ∧
       log_ok (MkSys i ∅) (MkSpec (s_hist s) ∅).
Proof.
  intros [Hok Hids (d & r & rr & Hl & Hw & Hrec & Hr)] Hc.
  destruct (crash_records _ _ _ _ Hl Hc) as (k & t & Hrep & Hrok).
  destruct (recovered_prefix _ _ _ _ _ k Hw Hrec Hr) as (rk & Hrk & Hrk').
  pose proof Hids as [Hn Hts _]. pose proof (rc_max _ _ _ Hrk') as [? Hnext].
  rewrite (ok_ts _ _ Hok) in Hts.
  destruct (open_log _ _ _ _ Hrok Hrep Hrk) as (f & Hopen & Hf); [lia|].
  eexists. split; [exact Hopen|]. split; [cbn; lia|].
  apply (recovered_log_ok _ (d ++ take k r) rk (next_txn (inner S)) (MkSpec (s_hist s) ∅)); done || lia.
Qed.

(** A crash while a record is being written: the store reopens to the history
    without what the record says, or with it. *)
Lemma reopen_torn f d r rec rr rr' next next' s s' c :
  log_state f d (r ++ rec) → (length rec ≤ 1)%nat → Forall is_write r →
  recover_records recovering0 (d ++ r) = Ok rr → recovered rr next s →
  recover_records rr rec = Ok rr' → recovered rr' next' s' →
  next ≤ U64_MAX → next' ≤ U64_MAX → now (s_hist s) ≤ U64_MAX → now (s_hist s') ≤ U64_MAX →
  crash_image f c →
  ∃ i hist, Mvcc.open (stored c) = (Ok i, wal i) ∧ log_ok (MkSys i ∅) (MkSpec hist ∅) ∧
            (hist = s_hist s ∨ hist = s_hist s').
Proof.
  intros Hl Hlen Hw Hrec Hr Hrec' Hr' Hn Hn' Hts Hts' Hc.
  destruct (crash_records _ _ _ _ Hl Hc) as (k & tail & Hrep & Hrok).
  destruct (decide (k ≤ length r)%nat) as [Hk|Hk].
  - rewrite take_app_le in * by lia.
    destruct (recovered_prefix _ _ _ _ _ k Hw Hrec Hr) as (rk & Hrk & Hrk').
    pose proof (rc_max _ _ _ Hrk') as [? Hnext].
    destruct (open_log _ _ _ _ Hrok Hrep Hrk) as (f' & Hopen & Hf); [lia|].
    eexists _, (s_hist s). split; [exact Hopen|]. split; [|by left].
    apply (recovered_log_ok _ (d ++ take k r) rk next (MkSpec (s_hist s) ∅)); done || (cbn; lia).
  - rewrite take_ge in * by (rewrite length_app; lia). rewrite app_assoc in *.
    assert (recover_records recovering0 ((d ++ r) ++ rec) = Ok rr') as Hrc by (by rewrite recover_records_app, Hrec).
    pose proof (rc_max _ _ _ Hr') as [? Hnext].
    destruct (open_log _ _ _ _ Hrok Hrep Hrc) as (f' & Hopen & Hf); [lia|].
    eexists _, (s_hist s'). split; [exact Hopen|]. split; [|by right].
    apply (recovered_log_ok _ ((d ++ r) ++ rec) rr' next' s'); done || lia.
Qed.

(** ** Power cuts *)

(** The log only grows while the store runs.  So what a power cut may leave,
    at some moment between a file [f] and a later [f'], lies between what [f]
    had synced and what [f'] has written. *)
Definition cut (f f' : file) (c : bytes) : Prop := f_synced f `prefix_of` c ∧ c `prefix_of` f_content f'.

Lemma logged_at_most_one S o res : (length (logged S o res) ≤ 1)%nat.
Proof. destruct o, res as [[]|[]|]; cbn; lia. Qed.

Lemma log_ok_grows S s o res S' :
  log_ok S s → op_strs o → exec S o = Some (res, S') →
  f_content (wal (inner S)) `prefix_of` f_content (wal (inner S')) ∧ f_synced (wal (inner S)) `prefix_of` f_content (wal (inner S)).
Proof.
  intros [Hok Hids (d & r & rr & Hl & Hw & Hrec & Hr)] Hstr He.
  destruct (exec_logs _ _ _ _ _ _ _ Hok Hids Hstr Hl Hw He) as (d' & r' & [[_ _ _ Hc' _] _] & _ & Hdr & _).
  destruct Hl as [[_ _ _ Hc Hs] _]. rewrite Hc, Hc', Hs, <- !fmap_app, Hdr, !fmap_app, !log_bytes_app.
  split; [by eexists|]. by eexists.
Qed.

(** A cut in the middle of an operation. *)
Lemma cut_op S s o res S' s' c :
  log_ok S s → op_strs o → exec S o = Some (res, S') → spec_step s o res s' → log_ok S' s' →
  cut (wal (inner S)) (wal (inner S')) c →
  ∃ i hist, Mvcc.open (stored c) = (Ok i, wal i) ∧ log_ok (MkSys i ∅) (MkSpec hist ∅) ∧
            (hist = s_hist s ∨ hist = s_hist s').
Proof.
  intros [Hok Hids (d & r & rr & Hl & Hw & Hrec & Hr)] Hstr He Hstep Hok' [Hc1 Hc2].
  destruct (exec_logs _ _ _ _ _ _ _ Hok Hids Hstr Hl Hw He) as (d' & r' & [[Hx Hrd Hsm Hc' _] Hro] & _ & Hdr & Hn & Hts & Hid).
  destruct (recovered_step _ _ _ _ _ _ _ (next_txn (inner S')) Hr Hstep (ok_ts _ _ Hok)) as (rr' & Hrec' & Hr'); [done|].
  pose proof Hids as [Hn0 Hts0 _]. rewrite (ok_ts _ _ Hok) in Hts0. rewrite (ok_ts _ _ (lo_sys _ _ Hok')) in Hts.
  destruct Hl as [[_ _ _ _ Hs] _]. rewrite <- fmap_app, Hdr, <- app_assoc in *.
  apply (reopen_torn (File true (f_content (wal (inner S'))) (f_synced (wal (inner S))) [] []) d r (logged S o res)
    rr rr' (next_txn (inner S)) (next_txn (inner S')) s s'); try done; [|apply logged_at_most_one|lia|by apply crash_tail].
  split; [|done]. split; [done|split; [done|constructor]|..]; cbn; rewrite <- ?fmap_app; done.
Qed.

(** ** Lifetimes: operations and crashes *)

Inductive event : Type :=
| Ran (o : op) (r : result TxnError answer)
| Crashed.

(** A crash keeps what it may of the log and ends every transaction; the store
    is then opened on what is left. *)
Inductive lives : Sys → list event → Sys → Prop :=
| lives_nil S : lives S [] S
| lives_op S o r S1 es S2 :
    op_strs o → exec S o = Some (r, S1) → lives S1 es S2 → lives S (Ran o r :: es) S2
| lives_crash S c i f es S2 :
    crash_image (wal (inner S)) c → Mvcc.open (stored c) = (Ok i, f) →
    lives (MkSys i ∅) es S2 → lives S (Crashed :: es) S2.

Inductive spec_lives : Spec → list event → Spec → Prop :=
| spec_lives_nil s : spec_lives s [] s
| spec_lives_op s o r s1 es s2 :
    spec_step s o r s1 → spec_lives s1 es s2 → spec_lives s (Ran o r :: es) s2
| spec_lives_crash s es s2 :
    spec_lives (MkSpec (s_hist s) ∅) es s2 → spec_lives s (Crashed :: es) s2.

Lemma lives_log_ok S s es S' :
  log_ok S s → lives S es S' → ∃ s', spec_lives s es s' ∧ log_ok S' s'.
Proof.
  intros Hok H. revert s Hok. induction H as [S|S o r S1 es S2 Hstr He _ IH|S c i f es S2 Hc Ho _ IH];
    intros s Hok.
  - exists s. split; [constructor|done].
  - destruct (log_ok_step _ _ _ _ _ Hok Hstr He) as (s1 & Hstep & Hok1).
    destruct (IH _ Hok1) as (s2 & ? & ?). exists s2. split; [by econstructor|done].
  - destruct (reopen_after_crash _ _ _ Hok Hc) as (i' & Ho' & _ & Hok').
    rewrite Ho in Ho'. injection Ho' as <- _.
    destruct (IH _ Hok') as (s2 & ? & ?). exists s2. split; [by constructor|done].
Qed.

(** The ids handed out, in order. *)
Definition handed_out (es : list event) : list Z :=
  omap (λ e, match e with Ran _ (Ok (AHandle id)) => Some id | _ => None end) es.

Lemma log_ok_next S s o res S' :
  log_ok S s → op_strs o → exec S o = Some (res, S') →
  next_after res (next_txn (inner S)) (next_txn (inner S')).
Proof.
  intros [Hok Hids (d & r & rr & Hl & Hw & _)] Hstr He.
  by destruct (exec_logs _ _ _ _ _ _ _ Hok Hids Hstr Hl Hw He) as (? & ? & ? & ? & ? & ? & ? & ?).
Qed.

Lemma lives_ids S s es S' :
  log_ok S s → lives S es S' →
  StronglySorted Z.lt (handed_out es) ∧ Forall (λ id, next_txn (inner S) ≤ id) (handed_out es).
Proof.
  intros Hok H. revert s Hok. induction H as [S|S o r S1 es S2 Hstr He _ IH|S c i f es S2 Hc Ho _ IH];
    intros s Hok; [split; constructor|..].
  - destruct (log_ok_step _ _ _ _ _ Hok Hstr He) as (s1 & Hstep & Hok1).
    pose proof (log_ok_next _ _ _ _ _ Hok Hstr He) as Hn. destruct (IH _ Hok1) as [Hs Hall].
    unfold handed_out in *. destruct r as [[id| | | | |]| |]; cbn in *; try (by rewrite <- Hn).
    destruct Hn as [-> Hn]. split; constructor; try done; try lia.
    + eapply Forall_impl; [exact Hall|cbn; lia].
    + eapply Forall_impl; [exact Hall|cbn; lia].
  - destruct (reopen_after_crash _ _ _ Hok Hc) as (i' & Ho' & Hn & Hok').
    rewrite Ho in Ho'. injection Ho' as <- _. destruct (IH _ Hok') as [Hs Hall].
    cbn in Hall. by rewrite Hn in Hall.
Qed.

Definition ran (tr : list (op * result TxnError answer)) : list event :=
  (λ '(o, r), Ran o r) <$> tr.

Lemma exec_all_lives S ops tr S' es S2 :
  exec_all S ops = Some (tr, S') → Forall op_strs ops → lives S' es S2 → lives S (ran tr ++ es) S2.
Proof.
  intros Hr Hs. revert S tr Hr. induction Hs as [|o ops Ho _ IH]; cbn; intros S tr.
  - by intros [= <- <-].
  - destruct (exec S o) as [[r S1]|] eqn:He; [|done]. cbn.
    destruct (exec_all S1 ops) as [[tr1 S3]|] eqn:Hr; [|done]. intros [= <- <-] H.
    econstructor; [done..|]. by apply IH.
Qed.

Definition reopened (S : Sys) : Sys :=
  match Mvcc.open (stored (f_synced (wal (inner S)))) with (Ok i, _) => MkSys i ∅ | _ => S end.

(** A script, a crash, and a second script. *)
Definition before_crash : list op :=
  [OBegin; OSet 1 "k" "one"; OSet 1 "gone" "x"; OCommit 1; OBegin; ODelete 2 "gone"; OCommit 2;
   OBegin; OSet 3 "k" "lost"].
Definition after_crash : list op := [OBegin; OGet 4 "k"; OGet 4 "gone"; OSet 4 "n" "4"; OCommit 4; OGc].
Definition crashed_sys : Sys := reopened (after before_crash).
Definition end_sys : Sys :=
  match exec_all crashed_sys after_crash with Some (_, sys) => sys | None => crashed_sys end.
Definition end_trace : list (op * result TxnError answer) :=
  match exec_all crashed_sys after_crash with Some (tr, _) => tr | None => [] end.
Definition story : list event := ran (trace before_crash) ++ Crashed :: ran end_trace.

Lemma op_strs_scripts : Forall op_strs before_crash ∧ Forall op_strs after_crash.
Proof.
  split; unfold before_crash, after_crash; repeat apply Forall_cons_2; try apply Forall_nil_2;
    cbn [op_strs]; try exact I; repeat split; vm_compute; reflexivity.
Qed.

Lemma script3_strs : Forall op_strs script3.
Proof.
  unfold script3. repeat apply Forall_cons_2; try apply Forall_nil_2;
    cbn [op_strs]; try exact I; repeat split; vm_compute; reflexivity.
Qed.

Lemma story_lives : lives new_sys story end_sys.
Proof.
  assert (exec_all new_sys before_crash = Some (trace before_crash, after before_crash)) as H1
    by (vm_compute; reflexivity).
  assert (Mvcc.open (stored (f_synced (wal (inner (after before_crash)))))
          = (Ok (inner crashed_sys), wal (inner crashed_sys))) as H2 by (vm_compute; reflexivity).
  assert (exec_all (MkSys (inner crashed_sys) ∅) after_crash = Some (end_trace, end_sys)) as H3
    by (vm_compute; reflexivity).
  destruct op_strs_scripts as [Hs1 Hs2]. unfold story.
  eapply exec_all_lives; [exact H1|exact Hs1|].
  eapply lives_crash; [apply crash_old|exact H2|].
  rewrite <- (app_nil_r (ran end_trace)). eapply exec_all_lives; [exact H3|exact Hs2|constructor].
Qed.

(** The newest snapshot of a consistent store. *)
Lemma sys_ok_now S s k :
  sys_ok S s → visible_value (versions (inner S)) k (commit_ts (inner S))
               = spec_read (s_hist s) k (now (s_hist s)).
Proof.
  intros [_ Hts (low & [_ Hl Hr _] & _) _ _]. rewrite Hts. apply Hr. lia.
Qed.

(** A crash between the append and the sync of a commit record. *)
Lemma crashed_commit S s h t i1 c :
  log_ok S s → txns S !! h = Some t → commit_ts (inner S) < U64_MAX →
  log_record (RCommit (t_id t) (commit_ts (inner S) + 1)) (inner S) = (Ok tt, i1) →
  crash_image (wal i1) c →
  ∃ i hist, Mvcc.open (stored c) = (Ok i, wal i) ∧ sys_ok (MkSys i ∅) (MkSpec hist ∅) ∧
            (hist = s_hist s ∨ hist = s_hist s ++ [t_writes t]).
Proof.
  intros [Hok Hids (d & r & rr & Hl & Hw & Hrec & Hr)] Ht Hmax Hlog Hc.
  destruct (ok_live _ _ _ _ Hok Ht) as (Hst & Hid & _).
  pose proof (handle_range _ _ _ _ Hok Hids Ht) as Hh. pose proof Hids as [Hn Hts _].
  pose proof (ok_ts _ _ Hok) as Hnow. pose proof (now_nonneg (s_hist s)).
  assert (record_ok (RCommit (t_id t) (commit_ts (inner S) + 1))) as Hro
    by (unfold record_ok, u64_range in *; lia).
  destruct (log_record_ok _ _ _ _ Hl Hro (small_commit _ _)) as (w & Hrun & Hl').
  rewrite Hrun in Hlog. injection Hlog as <-. cbn in Hc.
  rewrite Hid, Hnow in *. destruct (recovered_commit _ _ _ _ _ Hr Hst) as (rc & Hrc & Hrc').
  destruct (reopen_torn w d r [RCommit h (now (s_hist s) + 1)] rr rc (next_txn (inner S)) (next_txn (inner S)) s
    (MkSpec (s_hist s ++ [t_writes t]) (base.delete h (s_txns s))) c)
    as (i & hist & Ho & [Hi _ _] & Hhist); try done; cbn -[recover_record]; rewrite ?now_snoc; try lia.
  { by rewrite Hrc. }
  by exists i, hist.
Qed.

(** ** A sync that fails *)

(** The log's next write succeeds, and the sync after it fails. *)
Definition failing_sync (n : nat) (e : io_error) (f : file) : file :=
  File (f_exists f) (f_content f) (f_synced f) [SysOk; SysFail n e] (f_reads f).
Definition next_sync_fails (n : nat) (e : io_error) (S : Sys) : Sys :=
  MkSys (set_wal (failing_sync n e (wal (inner S))) (inner S)) (txns S).

Lemma log_synced_fails n e i d r rec :
  log_state (wal i) d r → record_ok rec → small (layout rec) →
  ∃ w, log_synced rec (set_wal (failing_sync n e (wal i)) i) = (Err (TIo e), set_wal w i) ∧ log_state w d (r ++ [rec]).
Proof.
  intros Hl Hrec Hs. destruct (log_record_ok i d r rec Hl Hrec Hs) as (w & Ha & Hw). exists w. split; [|done].
  destruct Hl as [[_ [Henv _] _ _ _] _]. unfold log_synced, log_record in *. rewrite encode_ok in * by done.
  cbn [map_err] in *. run_steps. run_steps in Ha. unfold on_wal, append in *. cbn [wal set_wal].
  destruct (u32_try_from _ _) as [len|x|x] eqn:Hu; cbn in Ha; [|done..].
  unfold write_all, next_sys in *. run_steps in Ha. destruct (wal i) as [x c sy env rd]. cbn in *. subst env. cbn in Ha.
  injection Ha as <-. unfold mbind, M_bind, lift. cbn. by rewrite Hu.
Qed.

(** A commit without conflicts reaches the log. *)
Lemma commit_run i t :
  ensure_open t = Ok tt → first_conflict (versions i) t = None → commit_ts i < U64_MAX →
  commit_body (i, t) =
    (_ ← on_inner (log_synced (RCommit (t_id t) (commit_ts i + 1)));
     _ ← on_inner (modify (λ j, set_versions (apply_versions (versions j) (t_writes t) (commit_ts i + 1)) j));
     _ ← update_txn (set_writes ∅);
     _ ← on_inner (modify (set_commit_ts (commit_ts i + 1)));
     _ ← on_inner (modify (deactivate (t_id t)));
     _ ← update_txn finish;
     mret (commit_ts i + 1)) (i, t).
Proof.
  intros Ho Hf Hm. unfold commit_body. run_steps. rewrite Ho. run_steps. rewrite Hf.
  unfold u64_checked_add. by rewrite (proj2 (Z.leb_le _ _)) by lia.
Qed.

Lemma commit_faulty n e S s d r h t :
  sys_ok S s → ids_ok S → log_state (wal (inner S)) d r → txns S !! h = Some t →
  first_conflict (versions (inner S)) t = None → commit_ts (inner S) < U64_MAX →
  ∃ w, exec (next_sync_fails n e S) (OCommit h)
         = Some (Err (TIo e), MkSys (deactivate h (set_wal w (inner S))) (base.delete h (txns S))) ∧
       log_state w d (r ++ [RCommit h (commit_ts (inner S) + 1)]).
Proof.
  intros Hok Hids Hl Ht Hf Hm. destruct (ok_live _ _ _ _ Hok Ht) as (_ & Hid & Ho & _).
  pose proof (handle_range _ _ _ _ Hok Hids Ht) as Hh. pose proof Hids as [_ Hts _].
  pose proof (ok_ts _ _ Hok) as Hnow. pose proof (now_nonneg (s_hist s)).
  assert (record_ok (RCommit h (commit_ts (inner S) + 1))) as Hrec by (unfold record_ok, u64_range in *; lia).
  destruct (log_synced_fails n e (inner S) d r _ Hl Hrec (small_commit _ _)) as (w & Ha & Hw). exists w. split; [|done].
  cbn [exec]. unfold exec_consume. cbn [next_sync_fails txns inner]. rewrite Ht. cbn [mbind option_bind].
  unfold commit, consume. set (j := set_wal (failing_sync n e (wal (inner S))) (inner S)) in *.
  rewrite (commit_run j t Ho) by done. rewrite Hid.
  assert (on_inner (log_synced (RCommit h (commit_ts j + 1))) (j, t) = (Err (TIo e), (set_wal w (inner S), t))) as Hb
    by (unfold on_inner, zoom; cbn [fst snd]; change (commit_ts j) with (commit_ts (inner S)); by rewrite Ha).
  rewrite (M_bind_err _ _ _ _ _ Hb). cbn.
  unfold drop_txn. unfold ensure_open in Ho. destruct (t_finished t); [done|]. by rewrite Hid.
Qed.

Lemma commit_goes_on i t d r :
  log_state (wal i) d r → ensure_open t = Ok tt → first_conflict (versions i) t = None → 0 ≤ commit_ts i < U64_MAX →
  u64_range (t_id t) →
  ∃ i', commit t i = (Ok (commit_ts i + 1), i') ∧ log_state (wal i') (d ++ r ++ [RCommit (t_id t) (commit_ts i + 1)]) [].
Proof.
  intros Hl Ho Hf Hm Hid. assert (record_ok (RCommit (t_id t) (commit_ts i + 1))) as Hrec by (unfold record_ok, u64_range in *; lia).
  destruct (log_synced_ok i d r _ Hl Hrec (small_commit _ _)) as (w & Ha & Hw).
  unfold commit, consume. rewrite (commit_run _ t) by (done || lia).
  rewrite (M_bind_run _ _ _ _ _ (on_inner_ok _ _ t _ Ha)). run_steps. eexists. split; [done|]. done.
Qed.

(** Two commits of one timestamp, the first one's sync failing. *)
Lemma poisoned n e S s h1 h2 t1 t2 :
  log_ok S s → txns S !! h1 = Some t1 → txns S !! h2 = Some t2 → h1 ≠ h2 →
  first_conflict (versions (inner S)) t1 = None → first_conflict (versions (inner S)) t2 = None →
  commit_ts (inner S) < U64_MAX →
  ∃ S1 S2 d,
    exec (next_sync_fails n e S) (OCommit h1) = Some (Err (TIo e), S1) ∧
    exec S1 (OCommit h2) = Some (Ok (ATimestamp (commit_ts (inner S) + 1)), S2) ∧
    log_state (wal (inner S2)) d [] ∧
    recover_records recovering0 d = Err (invalid_data "mvcc: commit timestamps are not increasing").
Proof.
  intros [Hok Hids (d & r & rr & Hl & Hw & Hrec & Hr)] H1 H2 Hne Hc1 Hc2 Hmax.
  destruct (ok_live _ _ _ _ Hok H1) as (Hs1 & Hid1 & _). destruct (ok_live _ _ _ _ Hok H2) as (Hs2 & Hid2 & Ho2 & _).
  pose proof (handle_range _ _ _ _ Hok Hids H2) as Hh2. pose proof (ok_ts _ _ Hok) as Hnow. pose proof (now_nonneg (s_hist s)).
  destruct (commit_faulty n e S s d r h1 t1 Hok Hids Hl H1 Hc1 Hmax) as (w & He1 & Hw1).
  destruct (commit_goes_on (deactivate h1 (set_wal w (inner S))) t2 d (r ++ [RCommit h1 (commit_ts (inner S) + 1)]))
    as (i2 & He2 & Hl2); [done|done|done|cbn; lia|by rewrite Hid2|].
  do 3 eexists. split; [exact He1|]. split; [|split; [|]].
  - cbn [exec]. unfold exec_consume. cbn [txns inner]. rewrite lookup_delete_ne by done. rewrite H2. cbn [mbind option_bind].
    rewrite He2. reflexivity.
  - exact Hl2.
  - cbn [commit_ts deactivate set_active set_wal]. rewrite Hid2, Hnow.
    destruct (recovered_commit _ _ _ _ _ Hr Hs1) as (rc & Hrc & [_ Hts' _ _ Hlive]).
    destruct (Hlive h2 t2) as [[sn Hb] _]; [cbn; by rewrite lookup_delete_ne|].
    rewrite <- app_assoc, app_assoc, recover_records_app, Hrec. cbn [mbind result_bind app recover_records].
    rewrite Hrc. cbn [mbind result_bind]. cbn [recover_record]. unfold ensure_begun. rewrite Hb. cbn [mbind result_bind].
    cbn in Hts'. rewrite now_snoc in Hts'. by rewrite (proj2 (Z.leb_le _ _)) by lia.
Qed.

Lemma poisoned_open f d :
  log_state f d [] → recover_records recovering0 d = Err (invalid_data "mvcc: commit timestamps are not increasing") →
  f_synced f = f_content f ∧
  (Mvcc.open (stored (f_synced f))).1 = Err (invalid_data "mvcc: commit timestamps are not increasing").
Proof.
  intros [Hf Hr] Hrec. pose proof Hf as [_ _ _ Hc Hs]. cbn in Hc. rewrite app_nil_r in *. split; [congruence|].
  rewrite Hs. assert (Forall small (layout <$> d)) as Hsm by (pose proof (log_small _ _ _ Hf) as H; by rewrite app_nil_r in H).
  unfold Mvcc.open. assert (readable (stored (log_bytes (layout <$> d)))) as Hrd by (split; [done|constructor]).
  destruct (replay_spec _ Hrd eq_refl) as (rs & t & Hrep & Hrun).
  rewrite (M_bind_run _ _ _ _ _ Hrun). cbn [records]. cbn [f_content stored] in Hrep.
  pose proof (replays_log (layout <$> d) [] Hsm torn_nil) as Hrep'. rewrite app_nil_r in Hrep'. destruct (replays_det _ _ _ _ _ Hrep Hrep') as [-> _].
  rewrite recover_layout, Hrec by done. done.
Qed.

(** ** Theorems *)

(** C3. Committed transactions survive crashes, and nothing else does: through
    any sequence of operations and of crashes at any moment between them, each
    crash keeping any possible part of the unsynced log, the store answers as
    the snapshot-isolation specification whose committed history is untouched
    by a crash; and whatever a crash leaves can be opened again. *)
Theorem commits_are_durable es S :
  lives new_sys es S →
  ∃ s, spec_lives (MkSpec [] ∅) es s ∧ sys_ok S s ∧
       ∀ c, crash_image (wal (inner S)) c →
            ∃ i, Mvcc.open (stored c) = (Ok i, wal i) ∧ sys_ok (MkSys i ∅) (MkSpec (s_hist s) ∅).
Proof.
  intros H. destruct (lives_log_ok _ _ _ _ log_ok_new H) as (s & Hs & Hok).
  exists s. split_and!; [done|apply Hok|]. intros c Hc.
  destruct (reopen_after_crash _ _ _ Hok Hc) as (i & Ho & _ & [Hi _ _]). by exists i.
Qed.

Lemma commits_are_durable_witness :
  lives new_sys story end_sys ∧
  ∃ s, spec_lives (MkSpec [] ∅) story s ∧ sys_ok end_sys s ∧
       ∀ c, crash_image (wal (inner end_sys)) c →
            ∃ i, Mvcc.open (stored c) = (Ok i, wal i) ∧ sys_ok (MkSys i ∅) (MkSpec (s_hist s) ∅).
Proof. exact (conj story_lives (commits_are_durable _ _ story_lives)). Defined.

(** Transaction ids are never reused, not even across crashes: the ids
    [begin] returns strictly increase over a store's whole lifetime. *)
Theorem transaction_ids_never_reused es S :
  lives new_sys es S → StronglySorted Z.lt (handed_out es).
Proof. intros H. by destruct (lives_ids _ _ _ _ log_ok_new H). Qed.

Lemma transaction_ids_never_reused_witness :
  lives new_sys story end_sys ∧ StronglySorted Z.lt (handed_out story) ∧
  handed_out story = [1; 2; 3; 4].
Proof.
  split; [exact story_lives|].
  split; [exact (transaction_ids_never_reused _ _ story_lives)|vm_compute; reflexivity].
Defined.

(** C38. A commit interrupted by a crash is atomic: between the append of its
    commit record and the sync, a crash leaves either the store before the
    commit or the store after the whole of it, for every key. *)
Theorem interrupted_commit_is_atomic es S h t i1 c :
  lives new_sys es S → txns S !! h = Some t → commit_ts (inner S) < U64_MAX →
  log_record (RCommit (t_id t) (commit_ts (inner S) + 1)) (inner S) = (Ok tt, i1) →
  crash_image (wal i1) c →
  ∃ i, Mvcc.open (stored c) = (Ok i, wal i) ∧
    ((commit_ts i = commit_ts (inner S) ∧
      (∀ k, visible_value (versions i) k (commit_ts i)
            = visible_value (versions (inner S)) k (commit_ts (inner S)))) ∨
     (commit_ts i = commit_ts (inner S) + 1 ∧
      (∀ k, visible_value (versions i) k (commit_ts i)
            = match t_writes t !! k with
              | Some w => w
              | None => visible_value (versions (inner S)) k (commit_ts (inner S))
              end))).
Proof.
  intros H Ht Hmax Hlog Hc. destruct (lives_log_ok _ _ _ _ log_ok_new H) as (s & _ & Hok).
  destruct (crashed_commit _ _ _ _ _ _ Hok Ht Hmax Hlog Hc) as (i & hist & Ho & Hi & Hh).
  exists i. split; [done|]. pose proof (lo_sys _ _ Hok) as Hs.
  assert (∀ k, visible_value (versions (inner S)) k (commit_ts (inner S))
               = spec_read (s_hist s) k (now (s_hist s))) as Hold by (intros k; by apply sys_ok_now).
  assert (∀ k, visible_value (versions i) k (commit_ts i) = spec_read hist k (now hist)) as Hnew
    by (intros k; by apply (sys_ok_now (MkSys i ∅) (MkSpec hist ∅))).
  pose proof (ok_ts _ _ Hs) as Hts. pose proof (ok_ts _ _ Hi) as Hts'. cbn in Hts'.
  destruct Hh as [-> | ->]; [left|right]; (split; [rewrite ?now_snoc in *; lia|]); intros k.
  - by rewrite Hold, Hnew.
  - by rewrite Hold, Hnew, now_snoc, spec_read_snoc.
Qed.

Lemma interrupted_commit_is_atomic_witness :
  let es := ran (trace script3) in
  let S := after script3 in
  let t := MkTxn 1 0 {["k" := Some "a"]} false in
  let i1 := (log_record (RCommit (t_id t) (commit_ts (inner S) + 1)) (inner S)).2 in
  let c := f_content (wal i1) in
  lives new_sys es S ∧ txns S !! 1 = Some t ∧ commit_ts (inner S) < U64_MAX ∧
  log_record (RCommit (t_id t) (commit_ts (inner S) + 1)) (inner S) = (Ok tt, i1) ∧
  crash_image (wal i1) c ∧
  ∃ i, Mvcc.open (stored c) = (Ok i, wal i) ∧
    ((commit_ts i = commit_ts (inner S) ∧
      (∀ k, visible_value (versions i) k (commit_ts i)
            = visible_value (versions (inner S)) k (commit_ts (inner S)))) ∨
     (commit_ts i = commit_ts (inner S) + 1 ∧
      (∀ k, visible_value (versions i) k (commit_ts i)
            = match t_writes t !! k with
              | Some w => w
              | None => visible_value (versions (inner S)) k (commit_ts (inner S))
              end))).
Proof.
  intros es S t i1 c.
  assert (lives new_sys es S) as H1.
  { unfold es. rewrite <- (app_nil_r (ran _)). apply (exec_all_lives _ script3 _ S); [|exact script3_strs|constructor].
    vm_compute. reflexivity. }
  assert (txns S !! 1 = Some t) as H2 by (vm_compute; reflexivity).
  assert (commit_ts (inner S) < U64_MAX) as H3 by (vm_compute; reflexivity).
  assert (log_record (RCommit (t_id t) (commit_ts (inner S) + 1)) (inner S) = (Ok tt, i1)) as H4
    by (vm_compute; reflexivity).
  assert (crash_image (wal i1) c) as H5 by apply crash_new.
  exact (conj H1 (conj H2 (conj H3 (conj H4 (conj H5
    (interrupted_commit_is_atomic _ _ _ _ _ _ H1 H2 H3 H4 H5)))))).
Defined.

(** Two transactions writing different keys. *)
Definition script5 : list op := [OBegin; OBegin; OSet 1 "a" "x"; OSet 2 "b" "y"].

(** C35. A commit whose record is written but whose sync fails poisons the log.  In
    any store that a lifetime has led to, with two transactions open and neither
    in conflict: the first one's COMMIT reports the error; the second one's then
    succeeds, under the timestamp the first one's record has, and is synced; and
    what is synced cannot be opened again, because the timestamps in it do not
    increase. *)
Theorem failed_sync_then_commit_is_unrecoverable es S h1 h2 t1 t2 n e :
  lives new_sys es S → txns S !! h1 = Some t1 → txns S !! h2 = Some t2 → h1 ≠ h2 →
  first_conflict (versions (inner S)) t1 = None → first_conflict (versions (inner S)) t2 = None →
  commit_ts (inner S) < U64_MAX →
  ∃ S1 S2,
    exec (next_sync_fails n e S) (OCommit h1) = Some (Err (TIo e), S1) ∧
    exec S1 (OCommit h2) = Some (Ok (ATimestamp (commit_ts (inner S) + 1)), S2) ∧
    f_synced (wal (inner S2)) = f_content (wal (inner S2)) ∧
    (Mvcc.open (stored (f_synced (wal (inner S2))))).1 = Err (invalid_data "mvcc: commit timestamps are not increasing").
Proof.
  intros Hlives H1 H2 Hne Hc1 Hc2 Hmax. destruct (lives_log_ok _ _ _ _ log_ok_new Hlives) as (s & _ & Hok).
  destruct (poisoned n e S s h1 h2 t1 t2) as (S1 & S2 & d & He1 & He2 & Hl & Hrec); [done..|].
  exists S1, S2. split; [done|]. split; [done|]. by apply (poisoned_open (wal (inner S2)) d).
Qed.

Lemma failed_sync_then_commit_is_unrecoverable_witness :
  let S := after script5 in let es := ran (trace script5) in
  let t1 := MkTxn 1 0 {["a" := Some "x"]} false in let t2 := MkTxn 2 0 {["b" := Some "y"]} false in
  let e := IoError Other "fsync failed" in
  lives new_sys es S ∧ txns S !! 1 = Some t1 ∧ txns S !! 2 = Some t2 ∧ 1 ≠ 2 ∧
  first_conflict (versions (inner S)) t1 = None ∧ first_conflict (versions (inner S)) t2 = None ∧
  commit_ts (inner S) < U64_MAX ∧
  ∃ S1 S2,
    exec (next_sync_fails 0 e S) (OCommit 1) = Some (Err (TIo e), S1) ∧
    exec S1 (OCommit 2) = Some (Ok (ATimestamp (commit_ts (inner S) + 1)), S2) ∧
    f_synced (wal (inner S2)) = f_content (wal (inner S2)) ∧
    (Mvcc.open (stored (f_synced (wal (inner S2))))).1 = Err (invalid_data "mvcc: commit timestamps are not increasing").
Proof.
  intros S es t1 t2 e. assert (lives new_sys es S) as H1.
  { unfold es. rewrite <- (app_nil_r (ran _)). apply (exec_all_lives _ script5 _ S); [|repeat constructor|constructor].
    vm_compute. reflexivity. }
  assert (txns S !! 1 = Some t1) as H2 by (vm_compute; reflexivity).
  assert (txns S !! 2 = Some t2) as H3 by (vm_compute; reflexivity).
  assert (1 ≠ 2) as H4 by lia.
  assert (first_conflict (versions (inner S)) t1 = None) as H5 by (vm_compute; reflexivity).
  assert (first_conflict (versions (inner S)) t2 = None) as H6 by (vm_compute; reflexivity).
  assert (commit_ts (inner S) < U64_MAX) as H7 by (vm_compute; reflexivity).
  exact (conj H1 (conj H2 (conj H3 (conj H4 (conj H5 (conj H6 (conj H7
    (failed_sync_then_commit_is_unrecoverable es S 1 2 t1 t2 0 e H1 H2 H3 H4 H5 H6 H7)))))))).
Defined.
