(* ===== verification/RaftNode.v ===== *)
(** One Raft node: src/src/raft/state.rs and src/src/raft/rpc.rs.

    The RPC handlers are methods of the monad over the node, with the log file
    inside it; an error leaves the node as the source leaves it at its [?].
    Term and vote form a ledger ([ledger_le]) that no operation rewrites,
    whatever the log file does; with a log file that works, what an operation
    acknowledged is durable. *)

From S2P Require Import Prelude Bytes Wal Cursor.
From Stdlib Require Import Ascii.
Local Open Scope Z_scope.

(** ** RPC types *)

Record Entry : Type := MkEntry { term : Z; command : bytes }.

#[export] Instance entry_eq_dec : EqDecision Entry.
Proof. solve_decision. Defined.

Record RequestVote : Type := MkRequestVote {
  rv_term : Z; rv_candidate_id : Z; rv_last_log_index : Z; rv_last_log_term : Z;
}.
Record VoteResponse : Type := MkVoteResponse { vr_term : Z; vr_granted : bool }.
Record AppendEntries : Type := MkAppendEntries {
  ae_term : Z; ae_leader_id : Z; ae_prev_log_index : Z; ae_prev_log_term : Z;
  ae_entries : list Entry; ae_leader_commit : Z;
}.
Record AppendResponse : Type := MkAppendResponse { ar_term : Z; ar_success : bool; ar_match_index : Z }.

Inductive Role : Type := Follower | Candidate | Leader.

#[export] Instance role_eq_dec : EqDecision Role.
Proof. solve_decision. Defined.

(** ** The persistent record *)

Definition invalid (msg : string) : io_error := invalid_data msg.

Definition STATE_TAG : u8 := to_u8 0x52.
Definition STATE_VERSION : u8 := to_u8 1.

Record PersistentState : Type := MkPersistent {
  p_current_term : Z;
  p_voted_for : option Z;
  p_log : list Entry;
}.

Definition default_state : PersistentState := MkPersistent 0 None [].

Definition put_u64 (out : bytes) (value : Z) : bytes := out ++ u64_le value.

(** The loop over the log's entries, appending to [out]. *)
Fixpoint encode_entries (out : bytes) (log : list Entry) : io bytes :=
  match log with
  | [] => Ok out
  | entry :: log =>
    len ← u32_try_from (length (command entry)) (invalid "raft: command too large");
    encode_entries (put_u64 out (term entry) ++ u32_le len ++ command entry) log
  end.

Definition encode (s : PersistentState) : io bytes :=
  count ← u32_try_from (length (p_log s)) (invalid "raft: log too large to encode");
  let out := put_u64 [STATE_TAG; STATE_VERSION] (p_current_term s) in
  let out := match p_voted_for s with
             | Some node => put_u64 (out ++ [to_u8 1]) node
             | None => put_u64 (out ++ [to_u8 0]) 0
             end in
  encode_entries (out ++ u32_le count) (p_log s).

Definition too_long : io_error := invalid "raft: state length exceeds record".
Definition cursor_u8 : decoder u8 := take_u8 too_long.
Definition cursor_u32 : decoder Z := take_le 4 too_long.
Definition cursor_u64 : decoder Z := take_le 8 too_long.

Fixpoint decode_entries (count : nat) : decoder (list Entry) :=
  match count with
  | O => mret []
  | S count =>
    t ← cursor_u64;
    len ← cursor_u32;
    c ← take_bytes len too_long;
    rest ← decode_entries count;
    mret (MkEntry t c :: rest)
  end.

Definition decode_header : decoder unit :=
  tag ← cursor_u8;
  if negb (bool_decide (tag = STATE_TAG)) then fail (invalid "raft: bad persistent state header") else
  version ← cursor_u8;
  if negb (bool_decide (version = STATE_VERSION))
  then fail (invalid "raft: bad persistent state header") else mret tt.

Definition decode_body : decoder PersistentState :=
  _ ← decode_header;
  current_term ← cursor_u64;
  has_vote ← cursor_u8;
  vote ← cursor_u64;
  voted_for ← (if decide (has_vote = to_u8 0) then mret None
               else if decide (has_vote = to_u8 1) then mret (Some vote)
               else fail (invalid "raft: invalid vote flag"));
  count ← cursor_u32;
  log ← decode_entries (Z.to_nat count);
  mret (MkPersistent current_term voted_for log).

Definition decode (bs : bytes) : io PersistentState :=
  decode_all decode_body (invalid "raft: trailing persistent state bytes") bs.

(** ** The node *)

Record RaftNode : Type := MkNode {
  node_id : Z;
  wal : file;
  current_term : Z;
  voted_for : option Z;
  log : list Entry;
  commit_index : Z;
  last_applied : Z;
  role : Role;
  leader_id : option Z;
  election_timeout_ms : Z;
}.

Definition set_wal (w : file) (n : RaftNode) : RaftNode :=
  MkNode (node_id n) w (current_term n) (voted_for n) (log n) (commit_index n) (last_applied n)
         (role n) (leader_id n) (election_timeout_ms n).
Definition set_term (t : Z) (n : RaftNode) : RaftNode :=
  MkNode (node_id n) (wal n) t (voted_for n) (log n) (commit_index n) (last_applied n)
         (role n) (leader_id n) (election_timeout_ms n).
Definition set_vote (v : option Z) (n : RaftNode) : RaftNode :=
  MkNode (node_id n) (wal n) (current_term n) v (log n) (commit_index n) (last_applied n)
         (role n) (leader_id n) (election_timeout_ms n).
Definition set_log (l : list Entry) (n : RaftNode) : RaftNode :=
  MkNode (node_id n) (wal n) (current_term n) (voted_for n) l (commit_index n) (last_applied n)
         (role n) (leader_id n) (election_timeout_ms n).
Definition set_commit (c : Z) (n : RaftNode) : RaftNode :=
  MkNode (node_id n) (wal n) (current_term n) (voted_for n) (log n) c (last_applied n)
         (role n) (leader_id n) (election_timeout_ms n).
Definition set_applied (a : Z) (n : RaftNode) : RaftNode :=
  MkNode (node_id n) (wal n) (current_term n) (voted_for n) (log n) (commit_index n) a
         (role n) (leader_id n) (election_timeout_ms n).
Definition set_role (r : Role) (l : option Z) (n : RaftNode) : RaftNode :=
  MkNode (node_id n) (wal n) (current_term n) (voted_for n) (log n) (commit_index n) (last_applied n)
         r l (election_timeout_ms n).

Abbreviation node := (M RaftNode io_error).

(** 64-bit arithmetic of the timeout's hash. *)
Definition wrapping_mul (a b : Z) : Z := (a * b) mod 2 ^ 64.
Definition mix (value : Z) : Z :=
  let value := Z.lxor value (Z.shiftr value 30) in
  let value := wrapping_mul value 0xbf58476d1ce4e5b9 in
  let value := Z.lxor value (Z.shiftr value 27) in
  let value := wrapping_mul value 0x94d049bb133111eb in
  Z.lxor value (Z.shiftr value 31).

(** [for record in records { state = decode(&record)? }] *)
Fixpoint recover (state : PersistentState) (records : list bytes) : io PersistentState :=
  match records with
  | [] => Ok state
  | record :: rest => state ← decode record; recover state rest
  end.

Definition open (id seed : Z) : M file io_error RaftNode :=
  replayed ← replay;
  state ← lift (recover default_state (records replayed));
  _ ← (if truncated replayed then truncate_path (valid_bytes replayed) else mret tt);
  _ ← Wal.open;
  w ← get_state;
  mret (MkNode id w (p_current_term state) (p_voted_for state) (p_log state) 0 0 Follower None
               (150 + mix (Z.lxor seed id) mod 151)).

Definition last_log_index (n : RaftNode) : Z := Z.of_nat (length (log n)).
Definition last_log_term (n : RaftNode) : Z := default 0 (term <$> last (log n)).

Definition persistent (n : RaftNode) : PersistentState :=
  MkPersistent (current_term n) (voted_for n) (log n).

Definition on_wal {A} (m : M file io_error A) : node A := zoom wal set_wal m.

Definition persist : node unit :=
  n ← get_state;
  payload ← lift (encode (persistent n));
  _ ← on_wal (append payload);
  on_wal sync.

Definition start_election : node RequestVote :=
  n ← get_state;
  t ← lift (ok_or (u64_checked_add (current_term n) 1) (invalid "raft: term exhausted"));
  _ ← modify (set_term t);
  _ ← modify (set_role Candidate None);
  _ ← modify (set_vote (Some (node_id n)));
  _ ← persist;
  n ← get_state;
  mret (MkRequestVote (current_term n) (node_id n) (last_log_index n) (last_log_term n)).

Definition become_leader (n : RaftNode) : RaftNode := set_role Leader (Some (node_id n)) n.

Definition step_down (t : Z) (n : RaftNode) : RaftNode :=
  set_role Follower None (set_vote None (set_term t n)).

Definition observe_term (t : Z) : node unit :=
  n ← get_state;
  if current_term n <? t then _ ← modify (step_down t); persist else mret tt.

(** [(a, b) >= (c, d)], lexicographically. *)
Definition pair_ge (a b c d : Z) : bool := (c <? a) || ((c =? a) && (d <=? b)).

Definition request_vote (request : RequestVote) : node VoteResponse :=
  n ← get_state;
  if rv_term request <? current_term n then mret (MkVoteResponse (current_term n) false) else
  let changed := current_term n <? rv_term request in
  _ ← (if changed then modify (step_down (rv_term request)) else mret tt);
  n ← get_state;
  let up_to_date := pair_ge (rv_last_log_term request) (rv_last_log_index request)
                            (last_log_term n) (last_log_index n) in
  let can_vote := bool_decide (voted_for n = None)
                  || bool_decide (voted_for n = Some (rv_candidate_id request)) in
  let granted := can_vote && up_to_date in
  let fresh := granted && negb (bool_decide (voted_for n = Some (rv_candidate_id request))) in
  _ ← (if fresh then modify (set_vote (Some (rv_candidate_id request))) else mret tt);
  _ ← (if changed || fresh then persist else mret tt);
  n ← get_state;
  mret (MkVoteResponse (current_term n) granted).

(** One iteration of the loop over the incoming entries: the log, the index
    and whether the log changed. *)
Definition merge_entry (acc : list Entry * nat * bool) (incoming : Entry) : list Entry * nat * bool :=
  let '(l, index, changed) := acc in
  match l !! index with
  | Some e =>
    if negb (term e =? term incoming) || negb (bool_decide (command e = command incoming))
    then (take index l ++ [incoming], Datatypes.S index, true)
    else (l, Datatypes.S index, changed)
  | None => (l ++ [incoming], Datatypes.S index, true)
  end.

(** The loop and the truncation after it. *)
Definition merge (l : list Entry) (prev : nat) (entries : list Entry) (changed : bool)
  : list Entry * bool :=
  let '(l, index, changed) := foldl merge_entry (l, prev, changed) entries in
  if (index <? length l)%nat then (take index l, true) else (l, changed).

(** [request.prev_log_index > last_log_index || (prev > 0 && log[prev - 1].term != prev_log_term)] *)
Definition prev_mismatch (request : AppendEntries) (n : RaftNode) : io bool :=
  if last_log_index n <? ae_prev_log_index request then Ok true else
  if 0 <? ae_prev_log_index request then
    e ← index (log n) (Z.to_nat (ae_prev_log_index request - 1));
    Ok (negb (term e =? ae_prev_log_term request))
  else Ok false.

Definition append_entries (request : AppendEntries) : node AppendResponse :=
  n ← get_state;
  if ae_term request <? current_term n
  then mret (MkAppendResponse (current_term n) false (last_log_index n)) else
  let newer := current_term n <? ae_term request in
  _ ← (if newer then modify (λ n, set_vote None (set_term (ae_term request) n)) else mret tt);
  _ ← modify (set_role Follower (Some (ae_leader_id request)));
  n ← get_state;
  mismatch ← lift (prev_mismatch request n);
  if mismatch : bool then
    _ ← (if newer then persist else mret tt);
    n ← get_state;
    mret (MkAppendResponse (current_term n) false (last_log_index n))
  else
    let '(l, changed) := merge (log n) (Z.to_nat (ae_prev_log_index request)) (ae_entries request) newer in
    _ ← modify (set_log l);
    _ ← (if changed then persist else mret tt);
    _ ← modify (λ n, if commit_index n <? ae_leader_commit request
                     then set_commit (Z.min (ae_leader_commit request) (last_log_index n)) n else n);
    n ← get_state;
    mret (MkAppendResponse (current_term n) true
            (ae_prev_log_index request + Z.of_nat (length (ae_entries request)))).

Definition append_as_leader (c : bytes) : node Z :=
  n ← get_state;
  if negb (bool_decide (role n = Leader)) then fail (IoError Other "raft: not leader") else
  _ ← modify (λ n, set_log (log n ++ [MkEntry (current_term n) c]) n);
  _ ← persist;
  n ← get_state;
  mret (last_log_index n).

(** [1 + replicated.iter().filter(|index| **index >= candidate).count()] *)
Definition copies (replicated : list Z) (candidate : Z) : Z :=
  1 + Z.of_nat (length (List.filter (λ i, candidate <=? i) replicated)).

Definition can_commit (n : RaftNode) (replicated : list Z) (candidate : Z) : io bool :=
  if Z.of_nat (length replicated) + 1 <? copies replicated candidate * 2 then
    e ← index (log n) (Z.to_nat (candidate - 1)); Ok (term e =? current_term n)
  else Ok false.

(** The candidates from [low + count] down to [low + 1]. *)
Fixpoint find_commit (n : RaftNode) (replicated : list Z) (low : Z) (count : nat) : io (option Z) :=
  match count with
  | O => Ok None
  | S below =>
    let candidate := low + Z.of_nat count in
    yes ← can_commit n replicated candidate;
    if yes : bool then Ok (Some candidate) else find_commit n replicated low below
  end.

Definition advance_commit (replicated : list Z) : node Z :=
  n ← get_state;
  if negb (bool_decide (role n = Leader)) then mret (commit_index n) else
  found ← lift (find_commit n replicated (commit_index n) (Z.to_nat (last_log_index n - commit_index n)));
  _ ← match found with Some c => modify (set_commit c) | None => mret tt end;
  n ← get_state;
  mret (commit_index n).

(** The [while last_applied < commit_index] loop runs their difference. *)
Fixpoint take_loop (count : nat) (applied : list Entry) : node (list Entry) :=
  match count with
  | O => mret applied
  | S count =>
    n ← get_state;
    e ← lift (index (log n) (Z.to_nat (last_applied n)));
    _ ← modify (set_applied (last_applied n + 1));
    take_loop count (applied ++ [e])
  end.

Definition take_applied : node (list Entry) :=
  n ← get_state; take_loop (Z.to_nat (commit_index n - last_applied n)) [].

(** ** Operations as one type *)

Inductive rpc : Type :=
| StartElection
| BecomeLeader
| ObserveTerm (t : Z)
| Vote (request : RequestVote)
| Append (request : AppendEntries)
| LeaderAppend (c : bytes)
| Advance (replicated : list Z)
| TakeApplied.

Inductive reply : Type :=
| RVote (request : RequestVote)
| RDone
| RVoted (r : VoteResponse)
| RAppended (r : AppendResponse)
| RIndex (i : Z)
| REntries (l : list Entry).

Definition answer {A} (f : A → reply) (m : node A) : node reply := a ← m; mret (f a).

Definition handle (o : rpc) : node reply :=
  match o with
  | StartElection => answer RVote start_election
  | BecomeLeader => answer (λ _, RDone) (modify become_leader)
  | ObserveTerm t => answer (λ _, RDone) (observe_term t)
  | Vote r => answer RVoted (request_vote r)
  | Append r => answer RAppended (append_entries r)
  | LeaderAppend c => answer RIndex (append_as_leader c)
  | Advance l => answer RIndex (advance_commit l)
  | TakeApplied => answer REntries take_applied
  end.

(** ** The ledger of terms and votes *)

Definition ledger_le (p q : PersistentState) : Prop :=
  p_current_term p < p_current_term q ∨
  (p_current_term p = p_current_term q ∧ ∀ c, p_voted_for p = Some c → p_voted_for q = Some c).

#[export] Instance ledger_le_preorder : PreOrder ledger_le.
Proof.
  split.
  - intros p. right. naive_solver.
  - intros p q r [?|[? ?]] [?|[? ?]]; unfold ledger_le; [left; lia..|].
    right. split; [lia|naive_solver].
Qed.

(** A node has voted for [c] in term [t], or is past that term. *)
Definition has_voted (p : PersistentState) (t c : Z) : Prop :=
  t < p_current_term p ∨ (t = p_current_term p ∧ p_voted_for p = Some c).

Lemma has_voted_le p q t c : ledger_le p q → has_voted p t c → has_voted q t c.
Proof. unfold ledger_le, has_voted. intros [?|[? Hv]] [?|[? ?]]; [left; lia..|right]. auto with lia. Qed.

(** Encoding returns bytes or an error. *)
Lemma encode_entries_total out l :
  (∃ bs, encode_entries out l = Ok bs) ∨ ∃ e, encode_entries out l = Err e.
Proof.
  revert out. induction l as [|e l IH]; intros out; cbn; [eauto|].
  unfold u32_try_from. destruct (_ <=? _); cbn; eauto.
Qed.

Lemma encode_total s : (∃ bs, encode s = Ok bs) ∨ ∃ e, encode s = Err e.
Proof.
  unfold encode, u32_try_from. destruct (_ <=? _); cbn; [apply encode_entries_total|eauto].
Qed.

Lemma on_wal_run {A} (m : M file io_error A) n r w :
  m (wal n) = (r, w) → on_wal m n = (r, set_wal w n).
Proof. intros H. unfold on_wal, zoom. by rewrite H. Qed.

(** [persist] touches only the file, and answers as the file does. *)
Lemma persist_effect n :
  ∃ w, persist n = (Ok tt, set_wal w n) ∨ ∃ e, persist n = (Err e, set_wal w n).
Proof.
  unfold persist. run_steps. destruct (encode_total (persistent n)) as [[bs ->]|[e ->]].
  - run_steps. destruct (append_cases bs (wal n)) as (f & [Ha|[e Ha]]).
    + rewrite (M_bind_run _ _ _ _ _ (on_wal_run _ _ _ _ Ha)).
      destruct (sync_cases f) as (f' & [Hs|[e Hs]]); exists f'; [left|right; exists e];
        apply (on_wal_run sync (set_wal f n)); exact Hs.
    + rewrite (M_bind_err _ _ _ _ _ (on_wal_run _ _ _ _ Ha)). eauto.
  - run_steps. exists (wal n). right. exists e. by destruct n.
Qed.

(** The numbers of a state are 64-bit. *)
Definition u64_state (p : PersistentState) : Prop :=
  u64_range (p_current_term p) ∧ (∀ c, p_voted_for p = Some c → u64_range c) ∧
  Forall (λ e, u64_range (term e)) (p_log p).
Definition u64_node (n : RaftNode) : Prop := u64_state (persistent n) ∧ u64_range (node_id n).

(** How an operation goes: it never reaches the file and leaves the persistent
    fields alone, or it brings them to a later state, persists that once, and
    then answers; if persisting fails it stops there. *)
Definition writes {A} (ok : Prop) (out : result io_error A * RaftNode) (n : RaftNode) : Prop :=
  ∃ n1 a post,
    wal n1 = wal n ∧ node_id n1 = node_id n ∧ ledger_le (persistent n) (persistent n1) ∧
    (ok → u64_node n → u64_node n1) ∧
    (∀ n2, wal (post n2) = wal n2 ∧ persistent (post n2) = persistent n2 ∧ node_id (post n2) = node_id n2) ∧
    out = match persist n1 with
          | (Ok _, n2) => (Ok (a n2), post n2)
          | (Err e, n2) => (Err e, n2)
          | (Panic p, n2) => (Panic p, n2)
          end.

Definition silent {A} (out : result io_error A * RaftNode) (n : RaftNode) : Prop :=
  wal out.2 = wal n ∧ persistent out.2 = persistent n ∧ node_id out.2 = node_id n.

Definition well_behaved {A} (ok : Prop) (m : node A) : Prop := ∀ n, silent (m n) n ∨ writes ok (m n) n.

Lemma persist_then {A} (f : node A) n :
  (_ ← persist; f) n = match persist n with
                       | (Ok _, n2) => f n2
                       | (Err e, n2) => (Err e, n2)
                       | (Panic p, n2) => (Panic p, n2)
                       end.
Proof. unfold mbind, M_bind. by destruct (persist n) as [[] ?]. Qed.

Lemma well_behaved_answer {A} ok (f : A → reply) (m : node A) :
  well_behaved ok m → well_behaved ok (answer f m).
Proof.
  intros H n. unfold answer, mbind, M_bind.
  destruct (H n) as [Hs|(n1 & a & post & Hw & Hi & Hl & Hu & Hpost & Hrun)].
  - left. unfold silent in *. by destruct (m n) as [[] ?].
  - right. rewrite Hrun. exists n1, (f ∘ a), post. split_and!; try done.
    by destruct (persist n1) as [[] ?].
Qed.

(** Where an operation persists, and what follows. *)
Lemma writes_at {A} ok out n n1 (a : RaftNode → A) (post : RaftNode → RaftNode) :
  wal n1 = wal n → node_id n1 = node_id n → ledger_le (persistent n) (persistent n1) →
  (ok → u64_node n → u64_node n1) →
  (∀ n2, wal (post n2) = wal n2 ∧ persistent (post n2) = persistent n2 ∧ node_id (post n2) = node_id n2) →
  out = (_ ← persist; (λ n2, (Ok (a n2), post n2)) : node A) n1 → writes ok out n.
Proof.
  intros Hw Hi Hl Hu Hp ->. exists n1, a, post. rewrite persist_then. by split_and!.
Qed.

Lemma start_election_ok : well_behaved True start_election.
Proof.
  intros n. unfold start_election. run_steps. unfold u64_checked_add.
  destruct (_ <=? _) eqn:Hmax; cbn [ok_or]; [|left; unfold silent; by run_steps]. zify_bools.
  right. run_steps. eapply writes_at with (post := id); [..|reflexivity]; try done; [left; cbn; lia|].
  intros _ [(Ht & Hv & Hl) Hi]. split; [|done].
  split_and!; [|by intros c [= <-]|done]. unfold u64_range in *. cbn in *. lia.
Qed.

Lemma persist_last n : persist n = (_ ← persist; (λ n2, (Ok tt, n2)) : node unit) n.
Proof. rewrite persist_then. by destruct (persist n) as [[[]| |] ?]. Qed.

Lemma observe_term_ok t : well_behaved (u64_range t) (observe_term t).
Proof.
  intros n. unfold observe_term. run_steps. destruct (current_term n <? t) eqn:Ht; [|by left].
  apply Z.ltb_lt in Ht. right. run_steps.
  eapply writes_at with (post := id); [..|apply persist_last]; try done; [left; cbn; lia|].
  intros Ht' [(_ & _ & Hl) Hi]. by split; [split_and!|].
Qed.

(** The node a vote request finds after the term check. *)
Definition stepped (t : Z) (n : RaftNode) : RaftNode :=
  if current_term n <? t then step_down t n else n.

Lemma stepped_le t n : ledger_le (persistent n) (persistent (stepped t n)).
Proof. unfold stepped. destruct (current_term n <? t) eqn:Ht; [left; cbn; lia|done]. Qed.

Lemma stepped_term t n : current_term n ≤ t → current_term (stepped t n) = t.
Proof. unfold stepped. destruct (current_term n <? t) eqn:Ht; cbn; lia. Qed.

Lemma stepped_wal t n : wal (stepped t n) = wal n ∧ node_id (stepped t n) = node_id n ∧ log (stepped t n) = log n.
Proof. unfold stepped. by destruct (_ <? _). Qed.

(** What a vote request decides, from the node it finds. *)
Definition vote_decision (request : RequestVote) (n : RaftNode) : bool :=
  (bool_decide (voted_for n = None) || bool_decide (voted_for n = Some (rv_candidate_id request)))
  && pair_ge (rv_last_log_term request) (rv_last_log_index request) (last_log_term n) (last_log_index n).

Definition vote_fresh (request : RequestVote) (n : RaftNode) : bool :=
  vote_decision request n && negb (bool_decide (voted_for n = Some (rv_candidate_id request))).

Definition vote_state (request : RequestVote) (n : RaftNode) : RaftNode :=
  if vote_fresh request n then set_vote (Some (rv_candidate_id request)) n else n.

Lemma request_vote_run request n :
  current_term n ≤ rv_term request →
  let n1 := stepped (rv_term request) n in
  request_vote request n
  = (_ ← (if (current_term n <? rv_term request) || vote_fresh request n1 then persist else mret tt);
     (λ n2, (Ok (MkVoteResponse (current_term n2) (vote_decision request n1)), n2)) : node VoteResponse)
    (vote_state request n1).
Proof.
  intros Ht n1. unfold request_vote. run_steps. rewrite (proj2 (Z.ltb_ge _ _)) by done.
  assert (∀ A (f : unit → node A), ((if current_term n <? rv_term request then modify (step_down (rv_term request))
            else mret tt) ≫= f) n = f tt n1) as Hstep.
  { intros A f. unfold n1, stepped. by destruct (current_term n <? rv_term request). }
  rewrite Hstep. run_steps. fold (vote_decision request n1). fold (vote_fresh request n1).
  unfold vote_state. by destruct (vote_fresh request n1).
Qed.

Lemma vote_state_le request n :
  ledger_le (persistent n) (persistent (vote_state request n)) ∧ wal (vote_state request n) = wal n
  ∧ node_id (vote_state request n) = node_id n.
Proof.
  unfold vote_state. destruct (vote_fresh request n) eqn:Hf; [|done].
  split_and!; [|done..]. right. cbn. split; [done|]. intros c Hc.
  unfold vote_fresh, vote_decision in Hf. rewrite Hc in Hf.
  destruct (decide (Some c = Some (rv_candidate_id request))) as [Heq|Hne]; [done|].
  by rewrite !bool_decide_eq_false_2 in Hf.
Qed.

Lemma vote_state_u64 request n :
  u64_range (rv_term request) → u64_range (rv_candidate_id request) → u64_node n →
  u64_node (vote_state request (stepped (rv_term request) n)).
Proof.
  intros Ht Hc Hn. assert (u64_node (stepped (rv_term request) n)) as [(Ht' & Hv & Hl) Hi].
  { unfold stepped. destruct (_ <? _); [|done]. destruct Hn as [(_ & _ & Hl) Hi].
    by split; [split_and!|]. }
  unfold vote_state. destruct (vote_fresh _ _); [|by split; [split_and!|]].
  split; [|done]. split_and!; [done| |done]. by intros c [= <-].
Qed.

Lemma request_vote_ok request :
  well_behaved (u64_range (rv_term request) ∧ u64_range (rv_candidate_id request)) (request_vote request).
Proof.
  intros n. destruct (decide (current_term n ≤ rv_term request)) as [Ht|Ht].
  - rewrite (request_vote_run _ _ Ht). set (n1 := stepped _ n).
    destruct (stepped_wal (rv_term request) n) as (Hw & Hi & _). fold n1 in Hw, Hi.
    destruct (vote_state_le request n1) as (Hle & Hw' & Hi').
    pose proof (stepped_le (rv_term request) n) as Hle1. fold n1 in Hle1.
    destruct (_ || _) eqn:Hc.
    + right. eapply writes_at with (post := id); [..|reflexivity]; try congruence; [| |done].
      * by etransitivity.
      * intros [H1 H2]. by apply vote_state_u64.
    + left. zify_bools. unfold silent. run_steps. cbn.
      unfold vote_state, n1, stepped in *. rewrite (proj2 (Z.ltb_ge _ _)) in * by done.
      by rewrite H0.
  - left. unfold request_vote. run_steps. by rewrite (proj2 (Z.ltb_lt _ _)) by lia.
Qed.

(** ** AppendEntries *)

Lemma prev_mismatch_total request n : ∃ b, prev_mismatch request n = Ok b.
Proof.
  unfold prev_mismatch, last_log_index. destruct (_ <? ae_prev_log_index request) eqn:Hl; [eauto|].
  destruct (0 <? ae_prev_log_index request) eqn:H0; [|eauto]. zify_bools.
  destruct (index_lt (E:=io_error) (log n) (Z.to_nat (ae_prev_log_index request - 1))) as (e & -> & _);
    [lia|]. cbn. eauto.
Qed.

(** A log holds an entry with the request's previous index and term. *)
Definition has_prev (request : AppendEntries) (l : list Entry) : Prop :=
  ae_prev_log_index request ≤ Z.of_nat (length l) ∧
  (0 < ae_prev_log_index request →
   ∃ e, l !! Z.to_nat (ae_prev_log_index request - 1) = Some e ∧ term e = ae_prev_log_term request).

Lemma prev_mismatch_spec request n :
  prev_mismatch request n = Ok false ↔ has_prev request (log n).
Proof.
  unfold prev_mismatch, has_prev, last_log_index.
  destruct (_ <? ae_prev_log_index request) eqn:Hl; zify_bools; [split; [done|lia]|].
  destruct (0 <? ae_prev_log_index request) eqn:H0; zify_bools; [|split; [split; lia|done]].
  destruct (index_lt (E:=io_error) (log n) (Z.to_nat (ae_prev_log_index request - 1))) as (e & -> & He);
    [lia|]. cbn. split.
  - intros H. apply ok_inj in H. zify_bools. split; [done|]. intros _. by exists e.
  - intros [_ H]. destruct (H H0) as (e' & He' & Ht). rewrite He in He'. injection He' as <-.
    by rewrite Ht, Z.eqb_refl.
Qed.

(** The merge leaves the kept prefix followed by exactly the incoming entries,
    and reports no change only when there is none. *)
Lemma merge_loop es l i ch :
  (i ≤ length l)%nat →
  let '(l', i', ch') := foldl merge_entry (l, i, ch) es in
  i' = (i + length es)%nat ∧ (i' ≤ length l')%nat ∧ take i' l' = take i l ++ es ∧
  (ch' = false → ch = false ∧ l' = l).
Proof.
  revert l i ch. induction es as [|e es IH]; intros l i ch Hi; cbn [foldl].
  - rewrite app_nil_r, Nat.add_0_r. split_and!; try done; lia.
  - unfold merge_entry at 2. destruct (l !! i) as [x|] eqn:Hx.
    + pose proof (lookup_lt_Some _ _ _ Hx) as Hlt. destruct (_ || _) eqn:Hd.
      * assert (length (take i l ++ [e]) = S i) as Hlen
          by (rewrite length_app, length_take; cbn; lia).
        specialize (IH (take i l ++ [e]) (S i) true ltac:(lia)).
        destruct (foldl _ _ es) as [[l' i'] ch']. destruct IH as (-> & ? & Ht & Hc).
        split_and!; try done; [cbn; lia| |by intros Hf; apply Hc in Hf as [? _]].
        rewrite Ht, take_ge by lia. by rewrite <- app_assoc.
      * apply orb_false_iff in Hd as [Ht Hc]. zify_bools.
        assert (x = e) as -> by (destruct x, e; cbn in *; congruence).
        specialize (IH l (S i) ch ltac:(lia)).
        destruct (foldl _ _ es) as [[l' i'] ch']. destruct IH as (-> & ? & Ht' & Hc').
        split_and!; try done; [cbn; lia|].
        by rewrite Ht', (take_S_r _ _ _ Hx), <- app_assoc.
    + apply lookup_ge_None in Hx. assert (i = length l) as -> by lia.
      specialize (IH (l ++ [e]) (S (length l)) true ltac:(rewrite length_app; cbn; lia)).
      destruct (foldl _ _ es) as [[l' i'] ch']. destruct IH as (-> & ? & Ht & Hc).
      split_and!; try done; [cbn; lia| |by intros Hf; apply Hc in Hf as [? _]].
      rewrite Ht, !take_ge by (rewrite ?length_app; cbn; lia). by rewrite <- app_assoc.
Qed.

Lemma merge_spec l prev es ch :
  (prev ≤ length l)%nat →
  (merge l prev es ch).1 = take prev l ++ es ∧
  ((merge l prev es ch).2 = false → ch = false ∧ (merge l prev es ch).1 = l).
Proof.
  intros Hp. unfold merge. pose proof (merge_loop es l prev ch Hp) as H.
  destruct (foldl _ _ es) as [[l' i'] ch']. destruct H as (-> & Hle & Ht & Hc).
  destruct (Nat.ltb_spec (prev + length es) (length l')) as [Hlt|Hge]; cbn; [done|].
  rewrite take_ge in Ht by lia. split; [done|]. intros H. by apply Hc in H as [-> ->].
Qed.

Lemma merge_loop_changed es l i ch :
  (i ≤ length l)%nat → (foldl merge_entry (l, i, ch) es).2 = true →
  ch = true ∨ take i l ++ es ≠ take (i + length es) l.
Proof.
  revert l i ch. induction es as [|e es IH]; intros l i ch Hi; cbn [foldl]; [by left|].
  unfold merge_entry at 2. destruct (l !! i) as [x|] eqn:Hx.
  - pose proof (lookup_lt_Some _ _ _ Hx) as Hlt. destruct (_ || _) eqn:Hd; intros H.
    + right. intros Heq. assert (Some e = Some x) as [= ->].
      { transitivity ((take i l ++ e :: es) !! i); [by rewrite lookup_app_r, length_take, Nat.min_l, Nat.sub_diag by (rewrite ?length_take; lia)|].
        rewrite Heq. by rewrite lookup_take_lt by (cbn; lia). }
      rewrite Z.eqb_refl, bool_decide_true in Hd by done. done.
    + apply orb_false_iff in Hd as [Ht Hc]. zify_bools.
      assert (x = e) as -> by (destruct x, e; cbn in *; congruence).
      destruct (IH l (S i) ch ltac:(lia) H) as [?|Hne]; [by left|]. right.
      rewrite (take_S_r _ _ _ Hx), <- app_assoc in Hne. cbn [length]. by rewrite Nat.add_succ_r.
  - intros _. right. intros Heq%(f_equal length). apply lookup_ge_None in Hx.
    rewrite length_app, !length_take in Heq. cbn in Heq. lia.
Qed.

(** It reports a change only when there is one. *)
Lemma merge_changed l prev es :
  (prev ≤ length l)%nat → (merge l prev es false).2 = true → (merge l prev es false).1 ≠ l.
Proof.
  intros Hp. destruct (merge_spec l prev es false Hp) as [-> _]. unfold merge.
  pose proof (merge_loop es l prev false Hp) as H. pose proof (merge_loop_changed es l prev false Hp) as Hch.
  destruct (foldl _ _ es) as [[l' i'] ch']. cbn [snd] in Hch. destruct H as (-> & Hle & Ht & Hc).
  destruct (Nat.ltb_spec (prev + length es) (length l')) as [Hlt|Hge]; cbn; intros H Heq.
  - destruct ch'; [|destruct (Hc eq_refl) as [_ ->]; apply (f_equal length) in Heq; rewrite length_app, length_take in Heq; lia].
    destruct (Hch eq_refl) as [|Hne]; [done|]. apply Hne. rewrite Heq, take_ge; [done|].
    rewrite <- Heq, length_app, length_take. lia.
  - destruct (Hch H) as [|Hne]; [done|]. apply Hne. rewrite Heq, take_ge; [done|].
    rewrite <- Heq, length_app, length_take. lia.
Qed.

(** The node after the term check of an AppendEntries. *)
Definition followed (request : AppendEntries) (n : RaftNode) : RaftNode :=
  set_role Follower (Some (ae_leader_id request))
    (if current_term n <? ae_term request then set_vote None (set_term (ae_term request) n) else n).

Lemma followed_le request n :
  ledger_le (persistent n) (persistent (followed request n)) ∧ wal (followed request n) = wal n ∧
  node_id (followed request n) = node_id n ∧ log (followed request n) = log n ∧
  commit_index (followed request n) = commit_index n.
Proof.
  unfold followed. destruct (current_term n <? ae_term request) eqn:Ht; split_and!; try done.
left. cbn. lia.
Qed.

Lemma followed_term request n :
  current_term n ≤ ae_term request → current_term (followed request n) = ae_term request.
Proof. unfold followed. destruct (current_term n <? ae_term request) eqn:Ht; cbn; lia. Qed.

Definition commit_to (c : Z) (n : RaftNode) : RaftNode :=
  if commit_index n <? c then set_commit (Z.min c (last_log_index n)) n else n.

Lemma commit_to_same c n :
  wal (commit_to c n) = wal n ∧ persistent (commit_to c n) = persistent n ∧
  node_id (commit_to c n) = node_id n.
Proof. unfold commit_to. by destruct (_ <? _). Qed.

Definition ae_merge (request : AppendEntries) (n : RaftNode) : list Entry * bool :=
  merge (log n) (Z.to_nat (ae_prev_log_index request)) (ae_entries request) (current_term n <? ae_term request).

Lemma append_entries_run request n :
  current_term n ≤ ae_term request →
  let n1 := followed request n in
  append_entries request n =
  match prev_mismatch request n with
  | Ok false =>
    (_ ← (if (ae_merge request n).2 then persist else mret tt);
     (λ n2, (Ok (MkAppendResponse (current_term n2) true
                   (ae_prev_log_index request + Z.of_nat (length (ae_entries request)))),
             commit_to (ae_leader_commit request) n2)) : node AppendResponse)
      (set_log (ae_merge request n).1 n1)
  | _ =>
    (_ ← (if current_term n <? ae_term request then persist else mret tt);
     (λ n2, (Ok (MkAppendResponse (current_term n2) false (last_log_index n2)), n2)) : node AppendResponse) n1
  end.
Proof.
  intros Ht n1. unfold append_entries. run_steps. rewrite (proj2 (Z.ltb_ge _ _)) by done.
  assert (∀ A (f : unit → node A),
    ((if current_term n <? ae_term request
      then modify (λ n, set_vote None (set_term (ae_term request) n)) else mret tt) ≫= f) n
    = f tt (if current_term n <? ae_term request then set_vote None (set_term (ae_term request) n) else n))
    as Hstep by (intros A f; by destruct (current_term n <? ae_term request)).
  rewrite Hstep. run_steps. fold (followed request n). fold n1.
  assert (prev_mismatch request n1 = prev_mismatch request n) as ->.
  { unfold prev_mismatch, last_log_index. assert (log n1 = log n) as -> by apply followed_le. done. }
  destruct (prev_mismatch_total request n) as [[] ->]; run_steps; [done|].
  assert (log n1 = log n) as -> by apply followed_le.
  fold (ae_merge request n). destruct (ae_merge request n) as [l ch]. run_steps. cbn [fst snd].
  unfold commit_to, mbind, M_bind, modify, get_state, mret, M_ret. cbn.
  destruct ((if ch then persist else _) _) as [[[]| |] n2]; [|done..].
  by destruct (commit_index n2 <? ae_leader_commit request).
Qed.

Lemma followed_u64 request n :
  u64_range (ae_term request) → u64_node n → u64_node (followed request n).
Proof.
  intros Ht [(Ht' & Hv & Hl) Hi]. unfold followed. destruct (_ <? _); by split; [split_and!|].
Qed.

Lemma append_entries_ok request :
  well_behaved (u64_range (ae_term request) ∧ Forall (λ e, u64_range (term e)) (ae_entries request))
    (append_entries request).
Proof.
  intros n. destruct (decide (current_term n ≤ ae_term request)) as [Ht|Ht].
  - rewrite (append_entries_run _ _ Ht). set (n1 := followed request n).
    destruct (followed_le request n) as (Hle & Hw & Hi & Hl & _). fold n1 in Hle, Hw, Hi, Hl.
    assert (current_term n <? ae_term request = false → persistent n1 = persistent n) as Hsame.
    { intros Hf. unfold n1, followed. by rewrite Hf. }
    destruct (prev_mismatch_total request n) as [[] Hm]; rewrite Hm.
    + destruct (current_term n <? ae_term request) eqn:Hnew.
      * right. eapply writes_at with (post := id); [..|reflexivity]; try done.
        intros [H1 _]. by apply followed_u64.
      * left. unfold silent. run_steps. cbn. auto.
    + assert (ledger_le (persistent n) (persistent (set_log (ae_merge request n).1 n1))) as Hle' by exact Hle.
      destruct ((ae_merge request n).2) eqn:Hch.
      * right. eapply (writes_at _ _ _ (set_log (ae_merge request n).1 n1) _
          (commit_to (ae_leader_commit request))); [..|reflexivity]; try done; [|apply commit_to_same].
        intros [H1 H2] Hn. destruct (followed_u64 request n H1 Hn) as [(Ht' & Hv & Hlog) Hid].
        split; [|done]. split_and!; try done. cbn. apply prev_mismatch_spec in Hm as [Hp _].
        unfold ae_merge. destruct (merge_spec (log n) (Z.to_nat (ae_prev_log_index request)) (ae_entries request)
          (current_term n <? ae_term request)) as [-> _]; [lia|].
        apply Forall_app. split; [|done]. apply Forall_take. apply Hn.
      * left. unfold silent. run_steps. cbn [snd].
        destruct (commit_to_same (ae_leader_commit request) (set_log (ae_merge request n).1 n1))
          as (-> & -> & ->).
        split_and!; [done| |done].
        apply prev_mismatch_spec in Hm as [Hp _].
        destruct (merge_spec (log n) (Z.to_nat (ae_prev_log_index request)) (ae_entries request)
          (current_term n <? ae_term request)) as [_ Hmerge]; [lia|].
        unfold ae_merge in *. destruct (Hmerge Hch) as [Hnew ->].
        specialize (Hsame Hnew). injection Hsame as Hct Hv.
        unfold persistent. cbn. by rewrite Hct, Hv.
  - left. unfold append_entries. run_steps. by rewrite (proj2 (Z.ltb_lt _ _)) by lia.
Qed.

(** ** The leader's side, and applying *)

Lemma append_as_leader_ok c : well_behaved True (append_as_leader c).
Proof.
  intros n. unfold append_as_leader. run_steps. destruct (negb _); [by left|]. right. run_steps.
  eapply writes_at with (post := id); [..|reflexivity]; try done; [right; naive_solver|].
  intros _ [(Ht & Hv & Hl) Hi]. split; [|done]. split_and!; try done. cbn. apply Forall_app; auto.
Qed.

(** A candidate index the leader may commit: more than half of the cluster has
    it, and its entry is of the current term. *)
Definition committable (n : RaftNode) (replicated : list Z) (i : Z) : Prop :=
  Z.of_nat (length replicated) + 1 < copies replicated i * 2 ∧
  ∃ e, log n !! Z.to_nat (i - 1) = Some e ∧ term e = current_term n.

Lemma can_commit_spec n replicated i :
  0 < i ≤ last_log_index n →
  ∃ b, can_commit n replicated i = Ok b ∧ (b = true ↔ committable n replicated i).
Proof.
  unfold last_log_index, can_commit, committable. intros Hi. destruct (_ <? copies _ _ * 2) eqn:Hc; zify_bools.
  - destruct (index_lt (E:=io_error) (log n) (Z.to_nat (i - 1))) as (e & -> & He); [lia|].
    cbn. eexists. split; [done|]. rewrite Z.eqb_eq, He. naive_solver.
  - exists false. split; [done|]. split; [done|lia].
Qed.

Lemma find_commit_spec n replicated low count :
  0 ≤ low → low + Z.of_nat count ≤ last_log_index n →
  ∃ o, find_commit n replicated low count = Ok o ∧
    match o with
    | Some i => low < i ≤ low + Z.of_nat count ∧ committable n replicated i ∧
                ∀ j, i < j ≤ low + Z.of_nat count → ¬ committable n replicated j
    | None => ∀ j, low < j ≤ low + Z.of_nat count → ¬ committable n replicated j
    end.
Proof.
  intros Hlow. induction count as [|count IH]; intros Hc.
  - exists None. split; [done|]. intros j Hj. lia.
  - cbn [find_commit].
    destruct (can_commit_spec n replicated (low + Z.of_nat (S count))) as (b & -> & Hb); [lia|].
    cbn [mbind result_bind]. destruct b.
    + eexists. split; [done|]. split; [lia|]. split; [by apply Hb|]. intros j Hj. lia.
    + destruct IH as (o & -> & Ho); [lia|]. exists o. split; [done|].
      assert (¬ committable n replicated (low + Z.of_nat (S count))) as Hno by naive_solver.
      destruct o as [i|]; [destruct Ho as (Hi & Hci & Ho); split; [lia|]; split; [done|]|];
        intros j Hj; (destruct (decide (j = low + Z.of_nat (S count))) as [->|]; [done|apply Ho; lia]).
Qed.

(** The loop is skipped when nothing is new. *)
Lemma find_commit_none n replicated low : find_commit n replicated low 0 = Ok None.
Proof. reflexivity. Qed.

Lemma advance_commit_run replicated n :
  0 ≤ commit_index n →
  ∃ c, advance_commit replicated n = (Ok c, set_commit c n) ∧
    (role n ≠ Leader → c = commit_index n) ∧
    (role n = Leader →
     (c = commit_index n ∨ commit_index n < c ≤ last_log_index n ∧ committable n replicated c) ∧
     ∀ j, c < j ≤ last_log_index n → ¬ committable n replicated j).
Proof.
  intros H0. unfold advance_commit. run_steps. destruct (bool_decide _) eqn:Hr; cbn [negb]; zify_bools.
  - destruct (decide (commit_index n ≤ last_log_index n)) as [Hle|Hgt].
    + destruct (find_commit_spec n replicated (commit_index n)
        (Z.to_nat (last_log_index n - commit_index n))) as (o & -> & Ho); [lia..|].
      run_steps. destruct o as [i|]; run_steps; cbn.
      * exists i. split; [done|]. split; [done|]. intros _. destruct Ho as (Hi & Hc & Hmax).
        split; [right; split; [lia|done]|]. intros j Hj. apply Hmax. lia.
      * exists (commit_index n). split; [by destruct n|]. split; [done|]. intros _.
        split; [by left|]. intros j Hj. apply Ho. lia.
    + replace (Z.to_nat (last_log_index n - commit_index n)) with 0%nat by lia.
      rewrite find_commit_none. run_steps. cbn.
      exists (commit_index n). split; [by destruct n|]. split; [done|]. intros _.
      split; [by left|]. intros j Hj. lia.
  - exists (commit_index n). split; [by destruct n|]. done.
Qed.

Lemma advance_commit_ok replicated : well_behaved True (advance_commit replicated).
Proof.
  intros n. left. unfold advance_commit. run_steps. destruct (negb _); [done|].
  unfold silent, lift, mbind, M_bind. destruct (find_commit _ _ _ _) as [[i|]| |]; done.
Qed.

Lemma take_loop_run count applied n :
  0 ≤ last_applied n → last_applied n + Z.of_nat count ≤ last_log_index n →
  take_loop count applied n
  = (Ok (applied ++ take count (drop (Z.to_nat (last_applied n)) (log n))),
     set_applied (last_applied n + Z.of_nat count) n).
Proof.
  unfold last_log_index. revert applied n. induction count as [|count IH]; intros applied n H0 Hc; cbn [take_loop].
  - rewrite app_nil_r, Z.add_0_r. by destruct n.
  - run_steps. destruct (index_lt (E:=io_error) (log n) (Z.to_nat (last_applied n))) as (e & -> & He); [lia|].
    run_steps. rewrite IH by (cbn; lia). cbn [last_applied log set_applied].
    rewrite (drop_S _ _ _ He). cbn [firstn]. rewrite <- app_assoc. cbn.
    replace (Z.to_nat (last_applied n + 1)) with (S (Z.to_nat (last_applied n))) by lia.
    f_equal. unfold set_applied. cbn. f_equal. lia.
Qed.

Lemma take_loop_silent count applied n : silent (take_loop count applied n) n.
Proof.
  revert applied n. induction count as [|count IH]; intros applied n; cbn [take_loop]; [done|].
  run_steps. unfold lift, mbind, M_bind. destruct (index _ _) as [e| |]; [|done..].
  exact (IH (applied ++ [e]) (set_applied (last_applied n + 1) n)).
Qed.

(** The numbers of a request are 64-bit. *)
Definition rpc_ok (o : rpc) : Prop :=
  match o with
  | ObserveTerm t => u64_range t
  | Vote r => u64_range (rv_term r) ∧ u64_range (rv_candidate_id r)
  | Append r => u64_range (ae_term r) ∧ Forall (λ e, u64_range (term e)) (ae_entries r)
  | _ => True
  end.

Lemma handle_ok o : well_behaved (rpc_ok o) (handle o).
Proof.
  destruct o; apply well_behaved_answer; cbn [rpc_ok]; auto using start_election_ok, observe_term_ok,
    request_vote_ok, append_entries_ok, append_as_leader_ok, advance_commit_ok.
  - intros n. by left.
  - intros n. left. unfold take_applied. run_steps. apply take_loop_silent.
Qed.
