(* ===== verification/RaftDurable.v ===== *)
(** What a Raft node promises across restarts.

    The codec of the persistent record is inverted; [lives] runs a node through
    requests, failing system calls and crashes, restarting it after every error;
    its promises (the votes it acknowledged) are kept over the whole lifetime. *)

From S2P Require Import Prelude Bytes Wal Cursor RaftNode.
From Stdlib Require Import Ascii.
Local Open Scope Z_scope.

(** ** The codec *)

Definition entry_field (e : Entry) : bytes :=
  u64_le (term e) ++ u32_le (Z.of_nat (length (command e))) ++ command e.

Definition vote_field (v : option Z) : bytes :=
  match v with Some node => [to_u8 1] ++ u64_le node | None => [to_u8 0] ++ u64_le 0 end.

Definition layout (s : PersistentState) : bytes :=
  ([STATE_TAG] ++ [STATE_VERSION]) ++ u64_le (p_current_term s) ++ vote_field (p_voted_for s) ++
  u32_le (Z.of_nat (length (p_log s))) ++ (p_log s ≫= entry_field).

Definition entry_ok (e : Entry) : Prop :=
  u64_range (term e) ∧ u32_range (Z.of_nat (length (command e))).

Definition state_ok (s : PersistentState) : Prop :=
  u64_state s ∧ u32_range (Z.of_nat (length (p_log s))) ∧ Forall entry_ok (p_log s).

Lemma encode_entries_ok out log bs :
  encode_entries out log = Ok bs →
  bs = out ++ (log ≫= entry_field) ∧ Forall (λ e, u32_range (Z.of_nat (length (command e)))) log.
Proof.
  revert out. induction log as [|e log IH]; intros out; cbn [encode_entries].
  - intros H. apply ok_inj in H as <-. split; [symmetry; apply app_nil_r|constructor].
  - intros (len & Hlen & H)%bind_ok. apply u32_try_from_ok in Hlen as [-> Hr].
    apply IH in H as [-> HF]. split; [|by constructor].
    cbn. unfold put_u64, entry_field at 2. by rewrite <- !app_assoc.
Qed.

Lemma state_encode_layout s bs : u64_state s → encode s = Ok bs → bs = layout s ∧ state_ok s.
Proof.
  unfold encode. intros Hu (count & Hc & H)%bind_ok. apply u32_try_from_ok in Hc as [-> Hr].
  apply encode_entries_ok in H as [-> HF]. split.
  - unfold layout, vote_field, put_u64. destruct (p_voted_for s); by rewrite <- !app_assoc.
  - split; [done|]. split; [done|]. destruct Hu as (_ & _ & Ht). rewrite Forall_forall in *.
    intros e He. split; auto.
Qed.

Lemma reads_entries log :
  Forall entry_ok log → reads (decode_entries (length log)) (log ≫= entry_field) log.
Proof.
  induction 1 as [|e log [Ht Hl] _ IH]; cbn [length decode_entries]; [apply reads_ret|].
  cbn. unfold entry_field at 1. rewrite <- !app_assoc.
  eapply reads_bind; [by apply reads_u64|]. eapply reads_bind; [by apply reads_u32|].
  eapply reads_bind; [apply reads_take|]. eapply reads_last; [exact IH|].
  destruct e. apply reads_ret.
Qed.

Lemma reads_header : reads decode_header ([STATE_TAG] ++ [STATE_VERSION]) tt.
Proof.
  eapply reads_bind; [apply reads_u8|]. rewrite bool_decide_eq_true_2 by done.
  eapply reads_last; [apply reads_u8|]. rewrite bool_decide_eq_true_2 by done. apply reads_ret.
Qed.

Lemma state_decode_layout s : state_ok s → decode (layout s) = Ok s.
Proof.
  intros ((Ht & Hv & _) & Hc & Hl). apply decode_all_reads. unfold decode_body, layout.
  eapply reads_bind; [apply reads_header|]. eapply reads_bind; [by apply reads_u64|].
  assert (reads (count ← cursor_u32; log ← decode_entries (Z.to_nat count);
            mret (MkPersistent (p_current_term s) (p_voted_for s) log))
          (u32_le (Z.of_nat (length (p_log s))) ++ (p_log s ≫= entry_field)) s) as Hrest.
  { eapply reads_bind; [by apply reads_u32|]. rewrite Nat2Z.id.
    eapply reads_last; [by apply reads_entries|]. destruct s. apply reads_ret. }
  unfold vote_field. destruct (p_voted_for s) as [c|]; rewrite <- app_assoc;
    (eapply reads_bind; [apply reads_u8|]);
    (eapply reads_bind; [apply reads_u64; first [by apply Hv|done]|]).
  - rewrite decide_False, decide_True by done.
    apply (reads_bind _ _ [] _ (Some c)); [apply reads_ret|exact Hrest].
  - rewrite decide_True by done. apply (reads_bind _ _ [] _ None); [apply reads_ret|exact Hrest].
Qed.

Lemma state_decode_encoded s bs : u64_state s → encode s = Ok bs → decode bs = Ok s.
Proof. intros Hu He. destruct (state_encode_layout _ _ Hu He) as [-> Hok]. by apply state_decode_layout. Qed.

(** ** The log file holds the state *)

Lemma recover_app p l1 l2 : recover p (l1 ++ l2) = (q ← recover p l1; recover q l2).
Proof.
  revert p. induction l1 as [|x l1 IH]; intros p; cbn; [done|]. destruct (decode x); cbn; auto.
Qed.

(** [f] is a log whose durable records recover the state [p]. *)
Definition holds (f : file) (p : PersistentState) : Prop :=
  ∃ recs, log_file f recs [] ∧ recover default_state recs = Ok p.

(** What a crash may leave recovers [p] or [q]. *)
Definition leaves (f : file) (p q : PersistentState) : Prop :=
  ∀ c, crash_image f c →
    ∃ recs t, replays c recs t ∧
              (recover default_state recs = Ok p ∨ recover default_state recs = Ok q).

Lemma holds_leaves f p : holds f p → leaves f p p.
Proof.
  intros (recs & Hf & Hr) c Hc. destruct (crash_replays _ _ _ _ Hf Hc) as (k & t & Hk).
  exists recs, t. rewrite take_nil, app_nil_r in Hk. auto.
Qed.

Definition with_env (env : list sys) (f : file) : file :=
  File (f_exists f) (f_content f) (f_synced f) env (f_reads f).

Lemma crash_between d p c :
  Forall small d → small p → log_bytes d `prefix_of` c → c `prefix_of` log_bytes (d ++ [p]) →
  ∃ t, replays c d t ∨ replays c (d ++ [p]) t.
Proof.
  intros Hd Hp [q ->] H. rewrite log_bytes_app in H. apply prefix_app_inv in H.
  destruct (prefix_of_log [p] q) as (k & t & Hk); [by constructor|done|].
  exists t. destruct k; [left|right].
  - rewrite <- (app_nil_r d) at 2. by apply replays_prepend.
  - cbn in Hk. rewrite take_nil in Hk. by apply replays_prepend.
Qed.

(** The only images of a log with nothing in flight. *)
Lemma crash_idle d f c :
  Forall small d → f_content f = log_bytes d → f_synced f = log_bytes d → crash_image f c →
  ∃ t, replays c d t.
Proof.
  intros Hd Hc Hs Hcr. exists []. assert (c = log_bytes d) as ->.
  { destruct Hcr as [c H1 H2| |]; [|done..]. rewrite Hc, Hs in *. by apply (anti_symm prefix). }
  rewrite <- (app_nil_r (log_bytes d)). by apply replays_log; [|apply torn_nil].
Qed.

Lemma append_outcome p (g : unit → M file io_error unit) f :
  small p →
  (append p ≫= g) f =
  match f_env f with
  | [] => g tt (File (f_exists f) (f_content f ++ frame p) (f_synced f) [] (f_reads f))
  | SysOk :: env => g tt (File (f_exists f) (f_content f ++ frame p) (f_synced f) env (f_reads f))
  | SysFail n e :: env => (Err e, File (f_exists f) (f_content f ++ take n (frame p)) (f_synced f) env (f_reads f))
  end.
Proof.
  intros Hp. unfold append, mbind, M_bind, lift. rewrite u32_try_from_run by done.
  unfold write_all, mbind, M_bind, get_state, next_sys, frame.
  destruct f as [x c s [|[|n e] env] rd]; reflexivity.
Qed.

(** [append] and [sync] under any environment leave the log with some prefix of
    one more record, all of it when they succeed. *)
Lemma append_sync_any env f d p r f1 :
  log_file f d [] → (_ ← append p; sync) (with_env env f) = (r, f1) →
  (is_ok r = true → small p) ∧
  ∀ c, crash_image f1 c → ∃ t, replays c d t ∨ (small p ∧ replays c (d ++ [p]) t).
Proof.
  intros [Hx Hr Hs Hc Hsy] Hrun. rewrite app_nil_r in *.
  assert (∀ f2, f_content f2 = log_bytes d → f_synced f2 = log_bytes d → ∀ c, crash_image f2 c →
    ∃ t, replays c d t ∨ (small p ∧ replays c (d ++ [p]) t)) as Hidle.
  { intros f2 H1 H2 c Hcr. destruct (crash_idle _ _ _ Hs H1 H2 Hcr) as [t ?]. eauto. }
  assert (∀ f2 q, q `prefix_of` frame p → small p → f_content f2 = log_bytes d ++ q →
    (f_synced f2 = log_bytes d ∨ f_synced f2 = f_content f2) → ∀ c, crash_image f2 c →
    ∃ t, replays c d t ∨ (small p ∧ replays c (d ++ [p]) t)) as Hpart.
  { intros f2 q Hq Hp H1 H2 c Hcr.
    assert (log_bytes d `prefix_of` c ∧ c `prefix_of` log_bytes d ++ q) as [Ha Hb].
    { destruct Hcr as [c Hl1 Hl2| |]; destruct H2 as [H2|H2]; rewrite ?H1 in *; rewrite ?H2 in *;
        rewrite ?H1 in *; split; try done; try (by apply prefix_app_r).
      etransitivity; [|exact Hl1]. by apply prefix_app_r. }
    destruct (crash_between d p c) as (t & [?|?]); [done..| |eauto|eauto].
    rewrite log_bytes_app, log_bytes_one. etransitivity; [exact Hb|]. by apply prefix_app. }
  destruct (decide (small p)) as [Hp|Hp].
  2: { rewrite (M_bind_err _ _ _ _ _ (append_too_large _ _ Hp)) in Hrun. injection Hrun as <- <-.
       split; [done|]. by apply Hidle. }
  split; [done|]. rewrite append_outcome in Hrun by done. cbn [with_env f_env f_content f_synced] in Hrun.
  destruct env as [|[|n e] env]; cbn in Hrun.
  - injection Hrun as <- <-. apply (Hpart _ (frame p)); cbn; rewrite ?Hc; auto.
  - destruct env as [|[|n e] env]; cbn in Hrun; injection Hrun as <- <-;
      apply (Hpart _ (frame p)); cbn; rewrite ?Hc, ?Hsy; auto.
  - injection Hrun as <- <-. apply (Hpart _ (take n (frame p))); cbn; rewrite ?Hc, ?Hsy; auto.
    apply prefix_take.
Qed.

(** ** One operation *)

(** The node's log file is idle and recovers the node's persistent state. *)
Definition node_holds (n : RaftNode) : Prop :=
  u64_node n ∧ ∃ d, log_file (wal n) d [] ∧ recover default_state d = Ok (persistent n).

Definition with_env_node (env : list sys) (n : RaftNode) : RaftNode :=
  set_wal (with_env env (wal n)) n.

Lemma persist_run n r n2 :
  persist n = (r, n2) →
  (∃ e, encode (persistent n) = Err e ∧ r = Err e ∧ n2 = n) ∨
  (∃ bs w, encode (persistent n) = Ok bs ∧ (_ ← append bs; sync) (wal n) = (r, w) ∧ n2 = set_wal w n).
Proof.
  unfold persist. run_steps. destruct (encode_total (persistent n)) as [[bs ->]|[e ->]]; run_steps.
  - intros H. right. exists bs. unfold on_wal, zoom, mbind, M_bind in *.
    destruct (append bs (wal n)) as [[[]| |] f]; cbn in H.
    + destruct (sync f) as [r' f'] eqn:Hs. injection H as <- <-. exists f'. done.
    + injection H as <- <-. by exists f.
    + injection H as <- <-. by exists f.
  - intros [= <- <-]. left. by exists e.
Qed.

Lemma recover_snoc d p bs q :
  recover default_state d = Ok p → decode bs = Ok q → recover default_state (d ++ [bs]) = Ok q.
Proof. intros Hd Hq. rewrite recover_app, Hd. cbn. by rewrite Hq. Qed.

(** A state that was persisted without an error is the one a restart finds. *)
Lemma persist_holds n d p r n2 :
  log_file (wal n) d [] → recover default_state d = Ok p → u64_node n →
  persist n = (Ok r, n2) → node_holds n2 ∧ persistent n2 = persistent n.
Proof.
  intros Hf Hd [Hu Hi] Hp.
  destruct (persist_run _ _ _ Hp) as [(e & _ & [=] & _)|(bs & w & He & Hrun & ->)].
  split; [|done]. split; [done|]. destruct (decide (small bs)) as [Hs|Hs].
  2: { rewrite (M_bind_err _ _ _ _ _ (append_too_large _ _ Hs)) in Hrun. discriminate. }
  destruct (log_append _ _ _ _ Hf Hs) as (f1 & Ha & Hf1).
  rewrite (M_bind_run _ _ _ _ _ Ha) in Hrun.
  destruct (log_sync _ _ _ Hf1) as (f2 & Hs2 & Hf2). rewrite Hs2 in Hrun. injection Hrun as _ <-.
  exists (d ++ [bs]). split; [exact Hf2|]. eapply recover_snoc; [done|]. by apply state_decode_encoded.
Qed.

Lemma handle_holds o n r n' :
  node_holds n → rpc_ok o → handle o n = (Ok r, n') → node_holds n'.
Proof.
  intros [Hu (d & Hf & Hd)] Ho Hrun.
  destruct (handle_ok o n) as [(Hw & Hp & Hi)|(n1 & a & post & Hw & Hi & Hle & Hu1 & Hpost & Hout)];
    rewrite Hrun in *.
  - cbn in *. split.
    + unfold u64_node in *. by rewrite Hp, Hi.
    + exists d. by rewrite Hw, Hp.
  - destruct (persist n1) as [[u| |] n2] eqn:Hper; [|done..]. injection Hout as _ ->.
    destruct (Hpost n2) as (Hpw & Hpp & Hpi).
    destruct (persist_holds n1 d (persistent n) u n2) as [[Hu2 (d2 & Hf2 & Hd2)] Hsame];
      [by rewrite Hw|done|auto|done|].
    split; [unfold u64_node in *; by rewrite Hpp, Hpi|]. exists d2. by rewrite Hpw, Hpp.
Qed.

(** Whatever its system calls do, an operation's crash images recover a state
    that has forgotten nothing. *)
Lemma handle_crash env o n r n' c :
  node_holds n → rpc_ok o → handle o (with_env_node env n) = (r, n') → crash_image (wal n') c →
  ∃ recs t q, replays c recs t ∧ recover default_state recs = Ok q ∧
              ledger_le (persistent n) q ∧ u64_state q.
Proof.
  intros [Hu (d & Hf & Hd)] Ho Hrun Hc. set (m := with_env_node env n) in *.
  assert (u64_node m) as Hum by exact Hu.
  pose proof Hf as [_ _ Hs Hcont Hsy]. rewrite app_nil_r in *.
  assert (∀ f, f_content f = log_bytes d → f_synced f = log_bytes d → crash_image f c →
    ∃ recs t q, replays c recs t ∧ recover default_state recs = Ok q ∧
                ledger_le (persistent n) q ∧ u64_state q) as Hidle.
  { intros f H1 H2 H3. destruct (crash_idle _ _ _ Hs H1 H2 H3) as [t Ht].
    exists d, t, (persistent n). split_and!; [done..|apply Hu]. }
  destruct (handle_ok o m) as [(Hw & Hp & Hi)|(n1 & a & post & Hw & Hi & Hle & Hu1 & Hpost & Hout)];
    rewrite Hrun in *.
  - cbn in Hw. eapply Hidle; [..|exact Hc]; by rewrite Hw.
  - destruct (persist n1) as [rp n2] eqn:Hper. assert (wal n' = wal n2) as Hwn.
    { destruct rp; injection Hout as _ ->; [apply Hpost|done..]. }
    rewrite Hwn in Hc. destruct (Hu1 Ho Hum) as [Hq _].
    destruct (persist_run _ _ _ Hper) as [(e & _ & _ & ->)|(bs & w & He & Happ & ->)].
    + eapply Hidle; [..|exact Hc]; by rewrite Hw.
    + rewrite Hw in Happ. cbn in Hc.
      destruct (append_sync_any env (wal n) d bs rp w Hf Happ) as [_ Himg].
      destruct (Himg c Hc) as (t & [Ht|[Hsm Ht]]).
      * exists d, t, (persistent n). split_and!; [done..|apply Hu].
      * exists (d ++ [bs]), t, (persistent n1). split_and!; [done| |exact Hle|done].
        eapply recover_snoc; [done|]. by apply state_decode_encoded.
Qed.

(** A restart on a log that recovers [q] resumes with [q]. *)
Lemma open_recovers id seed c recs t q :
  u64_range id → u64_state q → replays c recs t → recover default_state recs = Ok q →
  ∃ n, RaftNode.open id seed (stored c) = (Ok n, wal n) ∧ persistent n = q ∧ node_id n = id ∧
       commit_index n = 0 ∧ last_applied n = 0 ∧ role n = Follower ∧ node_holds n.
Proof.
  intros Hid Hq Hrep Hrec. unfold RaftNode.open.
  assert (readable (stored c)) as Hrd by (split; [done|constructor]).
  rewrite (M_bind_run _ _ _ _ _ (replay_of _ _ _ Hrd eq_refl Hrep)). cbn [records truncated valid_bytes].
  rewrite Hrec. run_steps.
  destruct (repair_log _ _ _ Hrep) as (f & Hf & Hlog). rewrite (M_bind_run _ _ _ _ _ Hf).
  destruct (log_open _ _ _ Hlog) as (f' & Hopen & Hlog'). rewrite (M_bind_run _ _ _ _ _ Hopen).
  run_steps. eexists (MkNode id f' _ _ _ _ _ _ _ _). split; [reflexivity|].
  assert (MkPersistent (p_current_term q) (p_voted_for q) (p_log q) = q) as Hsame by by destruct q.
  split_and!; try done. split; [by split; [unfold persistent; cbn; rewrite Hsame|]|].
  exists recs. split; [done|]. unfold persistent. cbn. by rewrite Hsame.
Qed.

(** ** Votes *)

(** The votes an answer acknowledges: the node's own, and those it grants. *)
Definition acked (o : rpc) (r : reply) : list (Z * Z) :=
  match o, r with
  | StartElection, RVote q => [(rv_term q, rv_candidate_id q)]
  | Vote q, RVoted (MkVoteResponse _ true) => [(rv_term q, rv_candidate_id q)]
  | _, _ => []
  end.

Lemma answer_inv {A} (f : A → reply) (m : node A) n r n' :
  answer f m n = (Ok r, n') → ∃ a, m n = (Ok a, n') ∧ r = f a.
Proof.
  unfold answer. intros (a & n1 & Ha & H)%M_bind_ok. injection H as <- <-. eauto.
Qed.

Lemma persist_ok_inv n u n2 : persist n = (Ok u, n2) → ∃ w, n2 = set_wal w n.
Proof.
  intros H. destruct (persist_effect n) as (w & [H'|[e H']]); rewrite H in H'; [|done].
  injection H' as _ ->. by exists w.
Qed.

Lemma request_vote_state request n r n' :
  current_term n ≤ rv_term request → request_vote request n = (Ok r, n') →
  let n1 := stepped (rv_term request) n in
  ∃ w, n' = set_wal w (vote_state request n1) ∧ vr_granted r = vote_decision request n1 ∧ vr_term r = current_term n'.
Proof.
  intros Ht. rewrite (request_vote_run _ _ Ht). set (n1 := stepped _ n). intros Hrun. destruct (_ || _).
  - rewrite persist_then in Hrun. destruct (persist _) as [[u| |] n2] eqn:Hp; [|done..].
    injection Hrun as <- <-. destruct (persist_ok_inv _ _ _ Hp) as [w ->]. by exists w.
  - run_steps in Hrun. injection Hrun as <- <-. exists (wal (vote_state request n1)).
    split; [by destruct (vote_state request n1)|done].
Qed.

Lemma request_vote_stale request n r n' :
  rv_term request < current_term n → request_vote request n = (Ok r, n') → vr_granted r = false.
Proof. unfold request_vote. intros Ht. run_steps. rewrite (proj2 (Z.ltb_lt _ _)) by lia. by intros [= <- <-]. Qed.

Lemma request_vote_granted request n r n' :
  request_vote request n = (Ok r, n') → vr_granted r = true →
  current_term n' = rv_term request ∧ voted_for n' = Some (rv_candidate_id request) ∧
  vr_term r = rv_term request.
Proof.
  intros Hrun Hg. destruct (decide (current_term n ≤ rv_term request)) as [Ht|Ht];
    [|apply request_vote_stale in Hrun; [congruence|lia]].
  destruct (request_vote_state _ _ _ _ Ht Hrun) as (w & -> & Hd & ->).
  pose proof (stepped_term _ _ Ht) as Hterm. set (n1 := stepped _ n) in *. cbn. rewrite Hg in Hd.
  assert (current_term (vote_state request n1) = current_term n1) as ->
    by (unfold vote_state; by destruct (vote_fresh _ _)).
  split_and!; try done. unfold vote_state, vote_fresh. rewrite <- Hd. cbn.
  destruct (bool_decide _) eqn:Hb; cbn; [by apply bool_decide_eq_true in Hb|done].
Qed.

(** A vote goes to a log at least as up to date. *)
Lemma request_vote_up_to_date request n r n' :
  request_vote request n = (Ok r, n') → vr_granted r = true →
  pair_ge (rv_last_log_term request) (rv_last_log_index request) (last_log_term n) (last_log_index n) = true.
Proof.
  intros Hrun Hg. destruct (decide (current_term n ≤ rv_term request)) as [Ht|Ht];
    [|apply request_vote_stale in Hrun; [congruence|lia]].
  destruct (request_vote_state _ _ _ _ Ht Hrun) as (w & -> & Hd & _). rewrite Hg in Hd.
  symmetry in Hd. apply andb_true_iff in Hd as [_ Hd].
  unfold last_log_term, last_log_index in *. by rewrite (proj2 (proj2 (stepped_wal _ _))) in Hd.
Qed.

Lemma start_election_vote n q n' :
  start_election n = (Ok q, n') →
  current_term n' = rv_term q ∧ voted_for n' = Some (rv_candidate_id q) ∧
  rv_term q = current_term n + 1 ∧ rv_candidate_id q = node_id n ∧ role n' = Candidate ∧
  rv_last_log_term q = last_log_term n' ∧ rv_last_log_index q = last_log_index n'.
Proof.
  unfold start_election. run_steps. unfold u64_checked_add.
  destruct (_ <=? _); cbn [ok_or]; run_steps; [|done]. rewrite persist_then.
  destruct (persist _) as [[u| |] n2] eqn:Hp; [|done..]. run_steps. intros [= <- <-].
  destruct (persist_ok_inv _ _ _ Hp) as [w ->]. done.
Qed.

Lemma acked_vote o n r n' t c :
  handle o n = (Ok r, n') → (t, c) ∈ acked o r → current_term n' = t ∧ voted_for n' = Some c.
Proof.
  intros Hrun Hin. destruct o; cbn [acked handle] in *; try (by apply not_elem_of_nil in Hin).
  - apply answer_inv in Hrun as (q & Hrun & ->). apply list_elem_of_singleton in Hin as [= -> ->].
    by destruct (start_election_vote _ _ _ Hrun) as (? & ? & _).
  - apply answer_inv in Hrun as ([vt g] & Hrun & ->). destruct g; [|by apply not_elem_of_nil in Hin].
    apply list_elem_of_singleton in Hin as [= -> ->].
    by destruct (request_vote_granted _ _ _ _ Hrun eq_refl) as (? & ? & _).
Qed.

(** ** Lifetimes *)

(** A node handles requests; a request may be cut short, its system calls
    failing in any way and the machine crashing at any point of it, and then
    the node is opened again on what the crash left.  A node whose operation
    returned an error is restarted the same way.  The list collects the votes
    acknowledged. *)
Inductive lives (seed : Z) : RaftNode → list (Z * Z) → RaftNode → Prop :=
| lives_end n : lives seed n [] n
| lives_handle n o r n1 vs n2 :
    rpc_ok o → handle o n = (Ok r, n1) → lives seed n1 vs n2 →
    lives seed n (acked o r ++ vs) n2
| lives_crash n env o r n1 c n2 f vs n3 :
    rpc_ok o → handle o (with_env_node env n) = (r, n1) → crash_image (wal n1) c →
    RaftNode.open (node_id n) seed (stored c) = (Ok n2, f) → lives seed n2 vs n3 →
    lives seed n vs n3.

Lemma handle_ledger o n r n' :
  handle o n = (r, n') → is_ok r = true → ledger_le (persistent n) (persistent n').
Proof.
  intros Hrun Hr.
  destruct (handle_ok o n) as [(Hw & Hp & Hi)|(n1 & a & post & Hw & Hi & Hle & Hu1 & Hpost & Hout)];
    rewrite Hrun in *; [cbn in Hp; by rewrite Hp|].
  destruct (persist n1) as [[u| |] n2] eqn:Hper; injection Hout as -> ->; [|done..].
  destruct (Hpost n2) as (_ & -> & _). by destruct (persist_ok_inv _ _ _ Hper) as [w ->].
Qed.

Lemma crash_restart seed env o n r n1 c n2 f :
  node_holds n → rpc_ok o → handle o (with_env_node env n) = (r, n1) → crash_image (wal n1) c →
  RaftNode.open (node_id n) seed (stored c) = (Ok n2, f) →
  node_holds n2 ∧ ledger_le (persistent n) (persistent n2).
Proof.
  intros Hn Ho Hrun Hc Hopen.
  destruct (handle_crash _ _ _ _ _ _ Hn Ho Hrun Hc) as (recs & t & q & Hrep & Hrec & Hle & Hq).
  destruct (open_recovers (node_id n) seed c recs t q) as (n2' & Ho' & Hp & _ & _ & _ & _ & Hn2);
    [apply Hn|done..|].
  rewrite Hopen in Ho'. injection Ho' as <- _. by rewrite Hp.
Qed.

Lemma lives_keeps seed n vs n' t c c' :
  node_holds n → lives seed n vs n' → has_voted (persistent n) t c → (t, c') ∈ vs → c' = c.
Proof.
  intros Hn Hl. revert Hn.
  induction Hl as [n|n o r n1 vs n2 Ho Hrun _ IH|n env o r n1 cr n2 f vs n3 Ho Hrun Hc Hopen _ IH];
    intros Hn Hv Hin; [by apply not_elem_of_nil in Hin|..].
  - apply (has_voted_le _ _ _ _ (handle_ledger _ _ _ _ Hrun eq_refl)) in Hv.
    apply elem_of_app in Hin as [Hin|Hin].
    + destruct (acked_vote _ _ _ _ _ _ Hrun Hin) as [Ht Hc]. destruct Hv as [Hv|[_ Hv]]; cbn in Hv; [lia|congruence].
    + apply IH; [by eapply handle_holds|done..].
  - destruct (crash_restart _ _ _ _ _ _ _ _ _ Hn Ho Hrun Hc Hopen) as [Hn2 Hle].
    apply IH; [done|by eapply has_voted_le|done].
Qed.

(** A node opened on an empty log. *)
Definition fresh_node (id seed : Z) : RaftNode :=
  MkNode id (stored []) 0 None [] 0 0 Follower None (150 + mix (Z.lxor seed id) mod 151).

Lemma fresh_node_holds id seed : u64_range id → node_holds (fresh_node id seed).
Proof.
  intros Hid. split.
  - split; [|done]. split_and!; [unfold u64_range, U64_MAX; cbn; lia|done|constructor].
  - exists []. split; [by apply (log_stored [])|done].
Qed.

Lemma fresh_node_open id seed : RaftNode.open id seed absent = (Ok (fresh_node id seed), stored []).
Proof. reflexivity. Qed.

(** Whatever a file that does not exist does when it is created, the node that
    comes out is new. *)
Lemma open_new_node id seed f n f' :
  f_exists f = false → RaftNode.open id seed f = (Ok n, f') → ∃ w, n = set_wal w (fresh_node id seed).
Proof.
  intros Hx. unfold RaftNode.open. intros (rp & f1 & Hrp & H)%M_bind_ok.
  assert (rp = default_replay) as ->.
  { assert (∃ e f2, open_read f = (Err e, f2)) as (e & f2 & Ho).
    { destruct f as [x c s env rd]. cbn in Hx. subst x. destruct env as [|[|wr e] env]; do 2 eexists; reflexivity. }
    unfold replay in Hrp. rewrite Ho in Hrp. destruct (decide _); [by injection Hrp as <- _|done]. }
  cbn in H. run_steps in H. apply M_bind_ok in H as (u & f2 & _ & H). run_steps in H. injection H as <- <-.
  by exists f2.
Qed.

(** ** Theorems *)

(** C40. One vote per term, for life: the votes a node acknowledges (granted to
    others or cast for itself) never name two candidates in one term, across
    any number of crashes in the middle of any operation, as long as a node
    that reported an error is restarted. *)
Theorem one_vote_per_term id seed vs n t c1 c2 :
  u64_range id → lives seed (fresh_node id seed) vs n →
  (t, c1) ∈ vs → (t, c2) ∈ vs → c1 = c2.
Proof.
  intros Hid Hl. pose proof (fresh_node_holds id seed Hid) as Hn. revert Hl Hn.
  generalize (fresh_node id seed). intros n0 Hl.
  induction Hl as [m|m o r n1 vs n2 Ho Hrun Hl IH|m env o r n1 cr n2 f vs n3 Ho Hrun Hc Hopen _ IH];
    intros Hn H1 H2; [by apply not_elem_of_nil in H1|..].
  - assert (node_holds n1) as Hn1 by by eapply handle_holds.
    assert (∀ c, (t, c) ∈ acked o r → has_voted (persistent n1) t c) as Hack.
    { intros c Hin. destruct (acked_vote _ _ _ _ _ _ Hrun Hin) as [Ht Hv]. by right. }
    apply elem_of_app in H1 as [H1|H1], H2 as [H2|H2]; [| | |by apply IH].
    + destruct (acked_vote _ _ _ _ _ _ Hrun H1), (acked_vote _ _ _ _ _ _ Hrun H2). congruence.
    + symmetry. by eapply lives_keeps; [exact Hn1|exact Hl|apply Hack|].
    + by eapply lives_keeps; [exact Hn1|exact Hl|apply Hack|].
  - destruct (crash_restart _ _ _ _ _ _ _ _ _ Hn Ho Hrun Hc Hopen) as [Hn2 _]. by apply IH.
Qed.

(** What a node acknowledged is on disk: after any operation that answers
    without an error, a crash and a restart find the same term, vote and log;
    the volatile commit and apply indices start again from zero. *)
Theorem acknowledged_state_survives o n r n' c seed :
  node_holds n → rpc_ok o → handle o n = (Ok r, n') → crash_image (wal n') c →
  ∃ n2, RaftNode.open (node_id n') seed (stored c) = (Ok n2, wal n2) ∧
        current_term n2 = current_term n' ∧ voted_for n2 = voted_for n' ∧ log n2 = log n' ∧
        commit_index n2 = 0 ∧ last_applied n2 = 0 ∧ role n2 = Follower ∧ node_holds n2.
Proof.
  intros Hn Ho Hrun Hc. destruct (handle_holds _ _ _ _ Hn Ho Hrun) as [[Hu Hi] (d & Hf & Hd)].
  destruct (crash_replays _ _ _ _ Hf Hc) as (k & t & Hk). rewrite take_nil, app_nil_r in Hk.
  destruct (open_recovers (node_id n') seed c d t (persistent n')) as (n2 & Ho2 & Hp & _ & ? & ? & ? & ?);
    [done..|].
  exists n2. injection Hp as Ht Hv Hl. by split_and!.
Qed.

(** A node votes, crashes while it refuses another candidate, and votes again. *)
Definition for_three : RequestVote := MkRequestVote 1 3 0 0.
Definition voted_once : RaftNode := (handle (Vote for_three) (fresh_node 2 7)).2.
Definition voted_back : RaftNode :=
  match RaftNode.open 2 7 (stored (f_content (wal voted_once))) with (Ok n, _) => n | _ => voted_once end.
Definition voted_twice : RaftNode := (handle (Vote for_three) voted_back).2.

Lemma votes_of_two : lives 7 (fresh_node 2 7) [(1, 3); (1, 3)] voted_twice.
Proof.
  assert (rpc_ok (Vote for_three)) as Hq by (split; unfold u64_range, U64_MAX; cbn; lia).
  apply (lives_handle 7 _ (Vote for_three) (RVoted (MkVoteResponse 1 true)) voted_once [(1, 3)]); [exact Hq|vm_compute; reflexivity|].
  apply (lives_crash 7 voted_once [] (Vote (MkRequestVote 1 1 0 0)) (Ok (RVoted (MkVoteResponse 1 false))) voted_once
    (f_content (wal voted_once)) voted_back (wal voted_back)); [split; unfold u64_range, U64_MAX; cbn; lia|vm_compute; reflexivity|apply crash_new|vm_compute; reflexivity|].
  apply (lives_handle 7 _ (Vote for_three) (RVoted (MkVoteResponse 1 true)) voted_twice []); [exact Hq|vm_compute; reflexivity|constructor].
Qed.

Lemma one_vote_per_term_witness :
  u64_range 2 ∧ lives 7 (fresh_node 2 7) [(1, 3); (1, 3)] voted_twice ∧
  (1, 3) ∈ [(1, 3); (1, 3)] ∧ (1, 3) ∈ [(1, 3); (1, 3)] ∧ 3 = 3.
Proof.
  assert (u64_range 2) as H1 by (unfold u64_range, U64_MAX; lia).
  assert ((1, 3) ∈ [(1, 3); (1, 3)]) as H3 by (left).
  exact (conj H1 (conj votes_of_two (conj H3 (conj H3 (one_vote_per_term 2 7 _ voted_twice 1 3 3 H1 votes_of_two H3 H3))))).
Defined.

Lemma acknowledged_state_survives_witness :
  let n := fresh_node 1 7 in
  let n' := (handle StartElection n).2 in
  let c := f_content (wal n') in
  node_holds n ∧ rpc_ok StartElection ∧ handle StartElection n = (Ok (RVote (MkRequestVote 1 1 0 0)), n') ∧
  crash_image (wal n') c ∧
  ∃ n2, RaftNode.open (node_id n') 7 (stored c) = (Ok n2, wal n2) ∧
        current_term n2 = current_term n' ∧ voted_for n2 = voted_for n' ∧ log n2 = log n' ∧
        commit_index n2 = 0 ∧ last_applied n2 = 0 ∧ role n2 = Follower ∧ node_holds n2.
Proof.
  intros n n' c. assert (node_holds n) as H1 by (apply fresh_node_holds; unfold u64_range, U64_MAX; lia).
  assert (rpc_ok StartElection) as H2 by exact I.
  assert (handle StartElection n = (Ok (RVote (MkRequestVote 1 1 0 0)), n')) as H3 by (vm_compute; reflexivity).
  assert (crash_image (wal n') c) as H4 by apply crash_new.
  exact (conj H1 (conj H2 (conj H3 (conj H4 (acknowledged_state_survives _ _ _ _ _ 7 H1 H2 H3 H4))))).
Defined.
