(* ===== verification/RaftRules.v ===== *)
(** The effect of each Raft rule on a node (the Figure 2 rules as
    src/src/raft/state.rs implements them), under any behaviour of its file. *)

From S2P Require Import Prelude Bytes Wal Cursor RaftNode RaftDurable.
From Stdlib Require Import Ascii.
Local Open Scope Z_scope.

(** A node after [persist] succeeded or was skipped. *)
Lemma maybe_persist_ok (b : bool) {A} (g : node A) n a n' :
  (_ ← (if b then persist else mret tt); g) n = (Ok a, n') →
  ∃ w, g (set_wal w n) = (Ok a, n').
Proof.
  destruct b.
  - rewrite persist_then. destruct (persist n) as [[u| |] n2] eqn:Hp; [|done..].
    destruct (persist_ok_inv _ _ _ Hp) as [w ->]. eauto.
  - run_steps. intros H. exists (wal n). by destruct n.
Qed.

Lemma append_entries_refused request n :
  ae_term request < current_term n →
  append_entries request n = (Ok (MkAppendResponse (current_term n) false (last_log_index n)), n).
Proof. intros H. unfold append_entries. run_steps. by rewrite (proj2 (Z.ltb_lt _ _)). Qed.

Lemma append_entries_effect request n a n' :
  append_entries request n = (Ok a, n') → current_term n ≤ ae_term request →
  current_term n' = ae_term request ∧ ar_term a = ae_term request ∧
  role n' = Follower ∧ leader_id n' = Some (ae_leader_id request) ∧
  last_applied n' = last_applied n ∧
  (has_prev request (log n) ∧ ar_success a = true ∧
   log n' = take (Z.to_nat (ae_prev_log_index request)) (log n) ++ ae_entries request ∧
   ar_match_index a = ae_prev_log_index request + Z.of_nat (length (ae_entries request)) ∧
   commit_index n' = (if commit_index n <? ae_leader_commit request
                      then Z.min (ae_leader_commit request) (last_log_index n')
                      else commit_index n) ∨
   ¬ has_prev request (log n) ∧ ar_success a = false ∧ log n' = log n ∧
   ar_match_index a = last_log_index n ∧ commit_index n' = commit_index n).
Proof.
  intros Hrun Ht. rewrite (append_entries_run _ _ Ht) in Hrun. set (n1 := followed request n) in *.
  pose proof (followed_term request n Ht) as Hterm. fold n1 in Hterm.
  destruct (followed_le request n) as (_ & _ & _ & Hlog & Hci). fold n1 in Hlog, Hci.
  assert (role n1 = Follower ∧ leader_id n1 = Some (ae_leader_id request) ∧ last_applied n1 = last_applied n)
    as (Hr & Hlid & Hla) by (unfold n1, followed; by destruct (_ <? _)).
  clearbody n1.
  destruct (prev_mismatch_total request n) as [[] Hm]; rewrite Hm in Hrun;
    apply maybe_persist_ok in Hrun as (w & Hrun); injection Hrun as <- <-.
  - cbn. unfold last_log_index. cbn. rewrite Hlog. split_and!; try done. right. split_and!; try done.
    intros Hp%prev_mismatch_spec. congruence.
  - assert (has_prev request (log n)) as Hp by by apply prev_mismatch_spec.
    assert ((ae_merge request n).1
            = take (Z.to_nat (ae_prev_log_index request)) (log n) ++ ae_entries request) as Hmerge.
    { apply merge_spec. destruct Hp as [Hp _]. lia. }
    unfold commit_to. cbn. rewrite Hci.
    destruct (commit_index n <? ae_leader_commit request); cbn; (split_and!; try done); left; (split_and!; done).
Qed.

(** A state that may be persisted. *)
Lemma maybe_persist_run (b : bool) {A} (g : node A) n :
  ∃ w, (b = false → w = wal n) ∧
    ((_ ← (if b then persist else mret tt); g) n = g (set_wal w n) ∨
     ∃ e, b = true ∧ (_ ← (if b then persist else mret tt); g) n = (Err e, set_wal w n)).
Proof.
  destruct b.
  - destruct (persist_effect n) as (w & [Hp|[e Hp]]); exists w; (split; [done|]); rewrite persist_then, Hp;
      [by left|right; by exists e].
  - exists (wal n). split; [done|]. left. run_steps. by destruct n.
Qed.

Lemma followed_node request n :
  current_term n ≤ ae_term request →
  followed request n = MkNode (node_id n) (wal n) (ae_term request)
    (if bool_decide (current_term n = ae_term request) then voted_for n else None)
    (log n) (commit_index n) (last_applied n) Follower (Some (ae_leader_id request)) (election_timeout_ms n).
Proof.
  intros Ht. unfold followed, set_role. destruct (Z.ltb_spec (current_term n) (ae_term request)) as [Hn|Hn]; cbn.
  - by rewrite bool_decide_false by lia.
  - assert (ae_term request = current_term n) as -> by lia. by rewrite bool_decide_true.
Qed.

(** A current request writes to the file exactly when it changes the state. *)
Lemma append_entries_parts request n :
  0 ≤ ae_prev_log_index request → current_term n ≤ ae_term request →
  ∃ l b g, append_entries request n = (_ ← (if b : bool then persist else mret tt); g) (set_log l (followed request n)) ∧
    (b = true → persistent (set_log l (followed request n)) ≠ persistent n) ∧
    ((¬ has_prev request (log n) ∧ l = log n ∧
      g = λ n2, (Ok (MkAppendResponse (current_term n2) false (last_log_index n2)), n2)) ∨
     (has_prev request (log n) ∧ l = take (Z.to_nat (ae_prev_log_index request)) (log n) ++ ae_entries request ∧
      g = λ n2, (Ok (MkAppendResponse (current_term n2) true (Z.of_nat (length l))), commit_to (ae_leader_commit request) n2))).
Proof.
  intros H0 Ht. rewrite (append_entries_run _ _ Ht). destruct (followed_le request n) as (_ & _ & _ & Hlog & _).
  assert (∀ l, current_term n <? ae_term request = true → persistent (set_log l (followed request n)) ≠ persistent n) as Hnew.
  { intros l Hlt Hterm%(f_equal p_current_term). change (current_term (followed request n) = current_term n) in Hterm. pose proof (followed_term request n Ht). apply Z.ltb_lt in Hlt. lia. }
  destruct (prev_mismatch_total request n) as [[] Hm]; rewrite Hm.
  - do 3 eexists. split; [|split; [apply (Hnew (log n))|left; split_and!; [|done..]]].
    + f_equal. by rewrite <- Hlog; destruct (followed request n).
    + intros Hp%prev_mismatch_spec. congruence.
  - apply prev_mismatch_spec in Hm as Hp. assert (Z.to_nat (ae_prev_log_index request) ≤ length (log n))%nat as Hle by (destruct Hp; lia).
    destruct (merge_spec (log n) _ (ae_entries request) (current_term n <? ae_term request) Hle) as [Hl _].
    eexists _, (ae_merge request n).2, _. split; [reflexivity|]. split; [|right; split_and!; [done|exact Hl|]].
    + destruct (current_term n <? ae_term request) eqn:Hlt; [by intros _; apply Hnew|]. unfold ae_merge. rewrite Hlt.
      intros Hch Heq%(f_equal p_log). by eapply merge_changed.
    + unfold ae_merge. rewrite Hl, length_app, length_take, Nat.min_l by done.
      by rewrite Nat2Z.inj_add, Z2Nat.id.
Qed.

Lemma append_entries_unchanged request n r n' :
  0 ≤ ae_prev_log_index request → current_term n ≤ ae_term request →
  append_entries request n = (r, n') → persistent n' = persistent n → wal n' = wal n ∧ is_ok r = true.
Proof.
  intros H0 Ht Hrun Hp. destruct (append_entries_parts request n H0 Ht) as (l & b & g & Hg & Hb & Hcase). rewrite Hrun in Hg.
  destruct (followed_le request n) as (_ & Hwal & _).
  assert (∀ m, ∃ a m', g m = (Ok a, m') ∧ persistent m' = persistent m ∧ wal m' = wal m) as Hpost.
  { intros m. destruct Hcase as [(_ & _ & ->)|(_ & _ & ->)]; do 2 eexists; (split; [done|]); [done|]. split; apply commit_to_same. }
  destruct (maybe_persist_run b g (set_log l (followed request n))) as (w & Hw & [Hr|(e & -> & Hr)]); rewrite Hr in Hg.
  - destruct (Hpost (set_wal w (set_log l (followed request n)))) as (a & m' & Hgm & Hpm & Hwm). rewrite Hgm in Hg. injection Hg as -> ->.
    split; [|done]. rewrite Hwm. destruct b; [|by rewrite Hw]. destruct (Hb eq_refl). by rewrite <- Hp, Hpm.
  - injection Hg as -> ->. by destruct (Hb eq_refl).
Qed.

Lemma append_entries_node request n r n' :
  0 ≤ ae_prev_log_index request → current_term n ≤ ae_term request → append_entries request n = (r, n') →
  ∃ w l c,
    n' = MkNode (node_id n) w (ae_term request)
           (if bool_decide (current_term n = ae_term request) then voted_for n else None)
           l c (last_applied n) Follower (Some (ae_leader_id request)) (election_timeout_ms n) ∧
    (has_prev request (log n) ∧ l = take (Z.to_nat (ae_prev_log_index request)) (log n) ++ ae_entries request ∨
     ¬ has_prev request (log n) ∧ l = log n) ∧
    match r with
    | Ok a =>
      has_prev request (log n) ∧ a = MkAppendResponse (ae_term request) true (Z.of_nat (length l)) ∧
      c = (if bool_decide (commit_index n < ae_leader_commit request)
           then Z.min (ae_leader_commit request) (Z.of_nat (length l)) else commit_index n) ∨
      ¬ has_prev request (log n) ∧ a = MkAppendResponse (ae_term request) false (Z.of_nat (length l)) ∧
      c = commit_index n
    | Err _ => c = commit_index n
    | Panic _ => False
    end.
Proof.
  intros H0 Ht Hrun. destruct (append_entries_parts request n H0 Ht) as (l & b & g & Hg & _ & Hcase). rewrite Hrun in Hg.
  rewrite (followed_node _ _ Ht) in Hg. cbn [set_log] in Hg.
  destruct (maybe_persist_run b g (set_log l (followed request n))) as (w & _ & Hr). rewrite (followed_node _ _ Ht) in Hr.
  destruct Hcase as [(Hp & -> & ->)|(Hp & Hl & ->)]; (destruct Hr as [Hr|(e & _ & Hr)]; cbn in Hr, Hg; rewrite Hr in Hg; injection Hg as -> ->).
  - do 3 eexists. split; [reflexivity|]. split; [by right|]. right. by split_and!.
  - do 3 eexists. split; [reflexivity|]. split; [by right|]. done.
  - exists w, l, (if bool_decide (commit_index n < ae_leader_commit request)
           then Z.min (ae_leader_commit request) (Z.of_nat (length l)) else commit_index n).
    split; [|split; [by left|left; by split_and!]]. destruct (bool_decide_reflect (commit_index n < ae_leader_commit request)) as [Hc|Hc]; unfold commit_to; cbn;
      [by rewrite (proj2 (Z.ltb_lt _ _) Hc)|by rewrite (proj2 (Z.ltb_ge _ _)) by lia].
  - exists w, l, (commit_index n). split; [reflexivity|]. split; [by left|]. done.
Qed.

(** ** Theorems *)

(** C22. AppendEntries, on every branch and however the file behaves.  A stale term
    is refused and changes nothing, the file included.  Otherwise the node takes
    over the request's term, forgetting its vote if the term is new, and follows
    its leader.  If the log has the entry before the request's, then, whether or
    not anything conflicts, the log becomes that prefix followed by exactly the
    request's entries, the answer is a success whose match index is that log's
    length, and the commit index, if below the leader's, becomes the smaller of
    the leader's and that length; if not, log and commit index stay and the
    answer is a refusal.  An error leaves the commit index, and the rest as just
    said, in memory.  The file is touched only if term, vote or log changed;
    a node whose file held its state, and that answers, has one that holds the
    new state, synced.  What is applied never changes, and nothing panics. *)
Theorem append_entries_rule request n r n' :
  0 ≤ ae_prev_log_index request → append_entries request n = (r, n') →
  (ae_term request < current_term n ∧ n' = n ∧
   r = Ok (MkAppendResponse (current_term n) false (Z.of_nat (length (log n))))) ∨
  (current_term n ≤ ae_term request ∧
   (∃ w l c,
     n' = MkNode (node_id n) w (ae_term request)
            (if bool_decide (current_term n = ae_term request) then voted_for n else None)
            l c (last_applied n) Follower (Some (ae_leader_id request)) (election_timeout_ms n) ∧
     (has_prev request (log n) ∧ l = take (Z.to_nat (ae_prev_log_index request)) (log n) ++ ae_entries request ∨
      ¬ has_prev request (log n) ∧ l = log n) ∧
     match r with
     | Ok a =>
       has_prev request (log n) ∧ a = MkAppendResponse (ae_term request) true (Z.of_nat (length l)) ∧
       c = (if bool_decide (commit_index n < ae_leader_commit request)
            then Z.min (ae_leader_commit request) (Z.of_nat (length l)) else commit_index n) ∨
       ¬ has_prev request (log n) ∧ a = MkAppendResponse (ae_term request) false (Z.of_nat (length l)) ∧
       c = commit_index n
     | Err _ => c = commit_index n
     | Panic _ => False
     end) ∧
   (persistent n' = persistent n → wal n' = wal n ∧ is_ok r = true) ∧
   (node_holds n → rpc_ok (Append request) → is_ok r = true → node_holds n')).
Proof.
  intros H0 Hrun. destruct (decide (ae_term request < current_term n)) as [Ht|Ht].
  { left. rewrite append_entries_refused in Hrun by done. injection Hrun as <- <-. done. }
  apply Z.nlt_ge in Ht. right. split; [done|]. split; [by apply append_entries_node|]. split.
  - intros Hp. by apply (append_entries_unchanged request n).
  - intros Hn Hok Hr. destruct r as [a| |]; [|done..].
    apply (handle_holds (Append request) n (RAppended a) n' Hn Hok). cbn [handle]. unfold answer.
    by rewrite (M_bind_run _ _ _ _ _ Hrun).
Qed.

Definition e1 : Entry := MkEntry 1 (as_bytes "a").
Definition e2 : Entry := MkEntry 1 (as_bytes "b").
Definition e3 : Entry := MkEntry 1 (as_bytes "c").

(** Node 2 after it accepted three entries, all committed, from leader 1. *)
Definition full_request : AppendEntries := MkAppendEntries 1 1 0 0 [e1; e2; e3] 3.
Definition full_follower : RaftNode := (append_entries full_request (fresh_node 2 7)).2.

Lemma append_entries_rule_witness :
  let n := fresh_node 2 7 in let n' := full_follower in
  let r := Ok (MkAppendResponse 1 true 3) in
  0 ≤ ae_prev_log_index full_request ∧ append_entries full_request n = (r, n') ∧
  node_holds n ∧ rpc_ok (Append full_request) ∧ node_holds n' ∧ f_synced (wal n') ≠ f_synced (wal n) ∧ log n' = [e1; e2; e3].
Proof.
  intros n n' r. assert (0 ≤ ae_prev_log_index full_request) as H1 by (cbn; lia).
  assert (append_entries full_request n = (r, n')) as H2 by (vm_compute; reflexivity).
  assert (node_holds n) as H3 by (apply fresh_node_holds; unfold u64_range, U64_MAX; lia).
  assert (rpc_ok (Append full_request)) as H4 by (split; [|repeat constructor]; unfold u64_range, U64_MAX; cbn; lia).
  split; [exact H1|]. split; [exact H2|]. split; [exact H3|]. split; [exact H4|].
  destruct (append_entries_rule full_request n r n' H1 H2) as [[H _]|(_ & _ & _ & H)]; [vm_compute in H; discriminate|].
  split; [exact (H H3 H4 eq_refl)|]. split; [vm_compute; discriminate|vm_compute; reflexivity].
Defined.

(** The commit rule: a leader moves its commit index to the largest index
    that more than half of the cluster holds and whose entry is of the leader's
    own term, never backwards; anyone else leaves it alone.  Nothing else of
    the node changes. *)
Theorem advance_commit_rule replicated n :
  0 ≤ commit_index n →
  ∃ c, advance_commit replicated n = (Ok c, set_commit c n) ∧
    (role n ≠ Leader → c = commit_index n) ∧
    (role n = Leader →
     (c = commit_index n ∨ commit_index n < c ≤ last_log_index n ∧ committable n replicated c) ∧
     ∀ j, c < j ≤ last_log_index n → ¬ committable n replicated j).
Proof. apply advance_commit_run. Qed.

Definition leading : RaftNode :=
  MkNode 1 (stored []) 2 (Some 1) [e1; MkEntry 2 []; MkEntry 2 []] 0 0 Leader (Some 1) 200.

Lemma advance_commit_rule_witness :
  0 ≤ commit_index leading ∧
  ∃ c, advance_commit [2; 0] leading = (Ok c, set_commit c leading) ∧
    (role leading ≠ Leader → c = commit_index leading) ∧
    (role leading = Leader →
     (c = commit_index leading ∨ commit_index leading < c ≤ last_log_index leading ∧ committable leading [2; 0] c) ∧
     ∀ j, c < j ≤ last_log_index leading → ¬ committable leading [2; 0] j).
Proof.
  assert (0 ≤ commit_index leading) as H by (cbn; lia).
  exact (conj H (advance_commit_rule [2; 0] leading H)).
Defined.

(** Applying is in order and exactly once: as long as the commit index is
    within the log, [take_applied] returns the committed entries after the last
    applied one, in log order, and marks exactly them applied, so that calling
    it again returns nothing. *)
Theorem take_applied_rule n :
  0 ≤ last_applied n ≤ commit_index n → commit_index n ≤ last_log_index n →
  take_applied n
  = (Ok (take (Z.to_nat (commit_index n - last_applied n)) (drop (Z.to_nat (last_applied n)) (log n))),
     set_applied (commit_index n) n) ∧
  take_applied (set_applied (commit_index n) n) = (Ok [], set_applied (commit_index n) n).
Proof.
  intros Ha Hc. unfold take_applied. run_steps. rewrite !take_loop_run by (cbn; unfold last_log_index in *; cbn in *; lia).
  cbn [commit_index last_applied set_applied log]. rewrite !Z2Nat.id by lia. cbn [app].
  replace (last_applied n + (commit_index n - last_applied n)) with (commit_index n) by lia.
  rewrite Z.sub_diag. cbn. rewrite Z.add_0_r. split; [done|]. by destruct n.
Qed.

Lemma take_applied_rule_witness :
  let n := full_follower in
  0 ≤ last_applied n ≤ commit_index n ∧ commit_index n ≤ last_log_index n ∧
  take_applied n
  = (Ok (take (Z.to_nat (commit_index n - last_applied n)) (drop (Z.to_nat (last_applied n)) (log n))),
     set_applied (commit_index n) n) ∧
  take_applied (set_applied (commit_index n) n) = (Ok [], set_applied (commit_index n) n).
Proof.
  intros n. assert (0 ≤ last_applied n ≤ commit_index n) as H1 by (vm_compute; split; discriminate).
  assert (commit_index n ≤ last_log_index n) as H2 by (vm_compute; discriminate).
  exact (conj H1 (conj H2 (take_applied_rule n H1 H2))).
Defined.

(** A delayed copy of the leader's first request, before it had all entries. *)
Definition delayed_request : AppendEntries := MkAppendEntries 1 1 0 0 [e1] 0.

(** Entries the follower has beyond the request are dropped even when
    nothing conflicts: a delayed AppendEntries of the current term, carrying a
    prefix of what the follower already stores, removes entries the follower
    acknowledged and committed; its commit index then points past its log, and
    applying panics. *)
Theorem delayed_append_drops_committed_entries :
  log full_follower = [e1; e2; e3] ∧ commit_index full_follower = 3 ∧
  ∃ n', append_entries delayed_request full_follower = (Ok (MkAppendResponse 1 true 1), n') ∧
        log n' = [e1] ∧ commit_index n' = 3 ∧ (take_applied n').1 = Panic "index out of bounds".
Proof.
  split; [vm_compute; reflexivity|]. split; [vm_compute; reflexivity|].
  eexists. split; [vm_compute; reflexivity|]. split_and!; vm_compute; reflexivity.
Qed.

(** A vote whose sync failed is granted on a retry without reaching the
    disk: the first request reports the error but leaves the vote in memory, so
    the repeated request finds nothing to persist and is granted; after a crash
    the node grants the same term to another candidate. *)
Theorem retried_vote_is_not_durable :
  let n := with_env_node [SysOk; SysFail 0 (IoError Other "fsync failed")] (fresh_node 2 7) in
  let q := MkRequestVote 1 1 0 0 in
  let q' := MkRequestVote 1 3 0 0 in
  ∃ n1 n2 n3 n4,
    request_vote q n = (Err (IoError Other "fsync failed"), n1) ∧
    request_vote q n1 = (Ok (MkVoteResponse 1 true), n2) ∧
    crash_image (wal n2) (f_synced (wal n2)) ∧
    RaftNode.open 2 7 (stored (f_synced (wal n2))) = (Ok n3, wal n3) ∧
    request_vote q' n3 = (Ok (MkVoteResponse 1 true), n4).
Proof.
  intros n q q'.
  exists (request_vote q n).2, (request_vote q (request_vote q n).2).2,
    (fresh_node 2 7), (request_vote q' (fresh_node 2 7)).2.
  split; [vm_compute; reflexivity|]. split; [vm_compute; reflexivity|].
  split; [apply crash_old|]. split; vm_compute; reflexivity.
Qed.
