(* ===== verification/Transport.v ===== *)
(** Message delivery: src/src/raft/transport.rs.

    [InMemoryTransport] is the controllable network of the simulated cluster.
    The frames of the same file are in Frame.v. *)

From S2P Require Import Prelude Bytes.
From stdpp Require Import gmap.
Local Open Scope Z_scope.

Record Message : Type := MkMessage { from : Z; to : Z; payload : bytes }.

Record InMemoryTransport : Type := MkTransport {
  blocked : gset (Z * Z);
  queue : list Message;
}.

Definition default_transport : InMemoryTransport := MkTransport ∅ [].

Definition reachable (t : InMemoryTransport) (from to : Z) : bool :=
  negb (bool_decide ((from, to) ∈ blocked t)).

Definition partition (a b : Z) (t : InMemoryTransport) : InMemoryTransport :=
  MkTransport ({[(b, a)]} ∪ ({[(a, b)]} ∪ blocked t)) (queue t).

Definition heal (a b : Z) (t : InMemoryTransport) : InMemoryTransport :=
  MkTransport (blocked t ∖ {[(a, b)]} ∖ {[(b, a)]}) (queue t).

Definition heal_all (t : InMemoryTransport) : InMemoryTransport := MkTransport ∅ (queue t).

Definition send (m : Message) (t : InMemoryTransport) : bool * InMemoryTransport :=
  if reachable t (from m) (to m) then (true, MkTransport (blocked t) (queue t ++ [m])) else (false, t).

Definition deliver_next (t : InMemoryTransport) : option Message * InMemoryTransport :=
  match queue t with [] => (None, t) | m :: q => (Some m, MkTransport (blocked t) q) end.

Definition deliver_last (t : InMemoryTransport) : option Message * InMemoryTransport :=
  match last (queue t) with
  | None => (None, t)
  | Some m => (Some m, MkTransport (blocked t) (take (pred (length (queue t))) (queue t)))
  end.

Definition drop_next (t : InMemoryTransport) : option Message * InMemoryTransport := deliver_next t.

(** ** Laws *)

Lemma reachable_true t x y : reachable t x y = true ↔ (x, y) ∉ blocked t.
Proof. unfold reachable. by rewrite negb_true_iff, bool_decide_eq_false. Qed.

Lemma reachable_partition a b t x y :
  reachable (partition a b t) x y = true ↔
  reachable t x y = true ∧ ¬ ((x = a ∧ y = b) ∨ (x = b ∧ y = a)).
Proof. rewrite !reachable_true. unfold partition. cbn. set_solver. Qed.

Lemma reachable_heal a b t x y :
  reachable (heal a b t) x y = true ↔
  reachable t x y = true ∨ (x = a ∧ y = b) ∨ (x = b ∧ y = a).
Proof.
  rewrite !reachable_true. unfold heal. cbn.
  destruct (decide ((x, y) = (a, b))), (decide ((x, y) = (b, a))); set_solver.
Qed.
