(* ===== verification/RaftCluster.v ===== *)
(** The simulated cluster of src/src/raft/mod.rs and its election safety.

    Every method is a method of the monad over [RaftCluster]; node files may
    fail in any way.  A panic of the source ([expect], an index out of bounds)
    is a [Panic]. *)

From S2P Require Import Prelude Bytes Wal RaftNode RaftDurable Transport.
From stdpp Require Import gmap.
From Stdlib Require Import Ascii.
Local Open Scope Z_scope.

Record RaftCluster : Type := MkCluster {
  nodes : gmap Z RaftNode;
  transport : InMemoryTransport;
  stopped : gset Z;
  applied : gmap Z (list bytes);
}.

Definition set_nodes (ns : gmap Z RaftNode) (c : RaftCluster) : RaftCluster :=
  MkCluster ns (transport c) (stopped c) (applied c).
Definition set_transport (t : InMemoryTransport) (c : RaftCluster) : RaftCluster :=
  MkCluster (nodes c) t (stopped c) (applied c).
Definition set_stopped (s : gset Z) (c : RaftCluster) : RaftCluster :=
  MkCluster (nodes c) (transport c) s (applied c).
Definition set_applied_log (a : gmap Z (list bytes)) (c : RaftCluster) : RaftCluster :=
  MkCluster (nodes c) (transport c) (stopped c) a.

Abbreviation cluster := (M RaftCluster io_error).

(** The keys of a [BTreeMap<u64, _>], in order. *)
Definition z_keys {V} (m : gmap Z V) : list Z := merge_sort Z.le (map_to_list m).*1.

Definition invalid (msg : string) : io_error := invalid_input msg.

(** [nodes.get_mut(&id).expect(...)] and a method call on it. *)
Definition on_node {A} (id : Z) (m : node A) : cluster A := λ c,
  match nodes c !! id with
  | None => (Panic "no such node", c)
  | Some n => let '(r, n') := m n in (r, set_nodes (<[id := n']> (nodes c)) c)
  end.

(** [&self.nodes[&id]] *)
Definition node_at (id : Z) : cluster RaftNode :=
  c ← get_state;
  match nodes c !! id with None => panic "no entry found for key" | Some n => mret n end.

Definition is_stopped (c : RaftCluster) (id : Z) : bool := bool_decide (id ∈ stopped c).

(** [RaftCluster::open]: the files of the nodes, by id. *)
Fixpoint open_nodes (ids : list Z) (files : Z → file) (seed : Z) (c : RaftCluster) : io RaftCluster :=
  match ids with
  | [] => Ok c
  | id :: ids =>
    match RaftNode.open id seed (files id) with
    | (Ok n, _) =>
      open_nodes ids files seed
        (MkCluster (<[id := n]> (nodes c)) (transport c) (stopped c) (<[id := []]> (applied c)))
    | (Err e, _) => Err e
    | (Panic p, _) => Panic p
    end
  end.
(** [dir]: what [create_dir_all] answers. *)
Definition open (dir : io unit) (files : Z → file) (ids : list Z) (seed : Z) : io RaftCluster :=
  _ ← dir;
  open_nodes ids files seed (MkCluster ∅ default_transport ∅ ∅).

Lemma open_ok dir files ids seed c :
  open dir files ids seed = Ok c → open_nodes ids files seed (MkCluster ∅ default_transport ∅ ∅) = Ok c.
Proof. by destruct dir. Qed.

Definition leader (c : RaftCluster) : option Z :=
  List.find (λ id, negb (is_stopped c id) && default false ((λ n, bool_decide (role n = Leader)) <$> nodes c !! id))
            (z_keys (nodes c)).

(** The peers loop of [elect]: [None] is the early return after a newer term. *)
Fixpoint ask (candidate : Z) (request : RequestVote) (peers : list Z) (votes : Z) : cluster (option Z) :=
  match peers with
  | [] => mret (Some votes)
  | peer :: peers =>
    c ← get_state;
    if bool_decide (peer = candidate) || is_stopped c peer
       || negb (reachable (transport c) candidate peer) || negb (reachable (transport c) peer candidate)
    then ask candidate request peers votes
    else
      response ← on_node peer (request_vote request);
      if rv_term request <? vr_term response then
        _ ← on_node candidate (observe_term (vr_term response)); mret None
      else ask candidate request peers (if vr_granted response then votes + 1 else votes)
  end.

Definition elect (candidate : Z) : cluster bool :=
  c ← get_state;
  if is_stopped c candidate then mret false else
  _ ← lift (ok_or (nodes c !! candidate) (invalid "raft: unknown candidate"));
  request ← on_node candidate start_election;
  votes ← ask candidate request (z_keys (nodes c)) 1;
  match votes with
  | None => mret false
  | Some votes =>
    c ← get_state;
    if Z.of_nat (size (nodes c)) <? votes * 2 then
      _ ← on_node candidate (modify become_leader); mret true
    else mret false
  end.

(** [min_by_key]: the first of the minima. *)
Fixpoint min_by (f : Z → Z) (l : list Z) : option Z :=
  match l with
  | [] => None
  | x :: l => match min_by f l with
              | Some y => if f y <? f x then Some y else Some x
              | None => Some x
              end
  end.

Definition elect_by_timeout : cluster (option Z) :=
  c ← get_state;
  let timeout id := default 0 (election_timeout_ms <$> nodes c !! id) in
  match min_by timeout (List.filter (λ id, negb (is_stopped c id)) (z_keys (nodes c))) with
  | Some id => won ← elect id; mret (if won : bool then Some id else None)
  | None => mret None
  end.

(** The requests a leader tries on one follower; [prev] is at most the length
    of its log, so the indexing never fails. *)
Definition probe (term leader commit : Z) (leader_log : list Entry) (prev : nat) : AppendEntries :=
  MkAppendEntries term leader (Z.of_nat prev)
    (match prev with O => 0 | S p => default 0 (RaftNode.term <$> leader_log !! p) end)
    (drop prev leader_log) commit.

(** [for prev in (0..=len).rev()], until one succeeds. *)
Fixpoint back_off (term leader commit : Z) (leader_log : list Entry) (follower : Z) (prev : nat)
  : cluster (option Z) :=
  response ← on_node follower (append_entries (probe term leader commit leader_log prev));
  if term <? ar_term response then
    _ ← on_node leader (observe_term (ar_term response));
    fail (IoError WouldBlock "raft: leader observed a higher term")
  else if ar_success response then mret (Some (ar_match_index response))
  else match prev with
       | O => mret None
       | S prev => back_off term leader commit leader_log follower prev
       end.

(** The first loop of [replicate_existing]. *)
Fixpoint match_followers (term leader commit : Z) (leader_log : list Entry) (ids : list Z)
    (matched : list Z) : cluster (list Z) :=
  match ids with
  | [] => mret matched
  | follower :: ids =>
    c ← get_state;
    if bool_decide (follower = leader) then match_followers term leader commit leader_log ids matched
    else if is_stopped c follower || negb (reachable (transport c) leader follower)
    then match_followers term leader commit leader_log ids (matched ++ [0])
    else
      m ← back_off term leader commit leader_log follower (length leader_log);
      match_followers term leader commit leader_log ids (matched ++ [default 0 m])
  end.

(** The second: publish the commit index. *)
Definition publish (term leader commit : Z) (leader_log : list Entry) (follower : Z) : cluster unit :=
  c ← get_state;
  if bool_decide (follower = leader) || is_stopped c follower
     || negb (reachable (transport c) leader follower)
  then mret tt
  else
    n ← node_at follower;
    let follower_len := last_log_index n in
    prev_term ← (if follower_len =? 0 then mret 0
                 else e ← lift (index leader_log (Z.to_nat (follower_len - 1))); mret (RaftNode.term e));
    _ ← on_node follower (append_entries (MkAppendEntries term leader follower_len prev_term [] commit));
    mret tt.

Definition apply_one (id : Z) : cluster unit :=
  entries ← on_node id take_applied;
  c ← get_state;
  match applied c !! id with
  | None => panic "applied log"
  | Some l => modify (set_applied_log (<[id := l ++ (command <$> entries)]> (applied c)))
  end.

Definition apply_all : cluster unit := c ← get_state; for_each (z_keys (nodes c)) apply_one.

Definition replicate_existing (leader : Z) : cluster Z :=
  n ← node_at leader;
  let term := current_term n in
  let leader_log := log n in
  let leader_commit := commit_index n in
  c ← get_state;
  matched ← match_followers term leader leader_commit leader_log (z_keys (nodes c)) [];
  commit ← on_node leader (advance_commit matched);
  c ← get_state;
  _ ← for_each (z_keys (nodes c)) (publish term leader commit leader_log);
  _ ← apply_all;
  mret commit.

Definition replicate (leader : Z) (c : bytes) : cluster Z :=
  s ← get_state;
  if is_stopped s leader then fail (IoError NotConnected "raft: node stopped") else
  _ ← lift (ok_or (nodes s !! leader) (invalid "raft: unknown leader"));
  index ← on_node leader (append_as_leader c);
  _ ← replicate_existing leader;
  n ← node_at leader;
  if commit_index n <? index
  then fail (IoError WouldBlock "raft: entry did not reach a majority") else mret index.

Definition synchronize (leader : Z) : cluster unit := _ ← replicate_existing leader; mret tt.

Definition partition (a b : Z) : cluster unit :=
  modify (λ c, set_transport (Transport.partition a b (transport c)) c).

Definition isolate (node : Z) : cluster unit :=
  c ← get_state;
  for_each (z_keys (nodes c)) (λ peer, if bool_decide (peer = node) then mret tt else partition node peer).

Definition heal_all : cluster unit := modify (λ c, set_transport (Transport.heal_all (transport c)) c).
Definition stop (node : Z) : cluster unit := modify (λ c, set_stopped ({[node]} ∪ stopped c) c).
Definition start (node : Z) : cluster unit := modify (λ c, set_stopped (stopped c ∖ {[node]}) c).

(** ** What every operation preserves *)

(** A node's part: its ledger only grows, and it leads now only if it led
    before, in the same term. *)
Record node_le (n n' : RaftNode) : Prop := NodeLe {
  nl_ledger : ledger_le (persistent n) (persistent n');
  nl_id : node_id n' = node_id n;
  nl_leader : role n' = Leader → role n = Leader ∧ current_term n' = current_term n;
}.

#[export] Instance node_le_preorder : PreOrder node_le.
Proof.
  split.
  - intros n. split; [done..|auto].
  - intros n m k [H1 H2 H3] [H4 H5 H6]. split; [by etransitivity|congruence|].
    intros Hl. destruct (H6 Hl) as [Hm Ht]. destruct (H3 Hm). split; [done|congruence].
Qed.

Definition cluster_le (c c' : RaftCluster) : Prop :=
  map_relation (λ _, node_le) (λ _ _, False) (λ _ _, False) (nodes c) (nodes c').

Lemma cluster_le_lookup c c' id n :
  cluster_le c c' → nodes c !! id = Some n → ∃ n', nodes c' !! id = Some n' ∧ node_le n n'.
Proof. intros H Hn. specialize (H id). rewrite Hn in H. destruct (nodes c' !! id); [eauto|done]. Qed.

Lemma cluster_le_back c c' id n' :
  cluster_le c c' → nodes c' !! id = Some n' → ∃ n, nodes c !! id = Some n ∧ node_le n n'.
Proof. intros H Hn. specialize (H id). rewrite Hn in H. destruct (nodes c !! id); [eauto|done]. Qed.

#[export] Instance cluster_le_preorder : PreOrder cluster_le.
Proof.
  split.
  - intros c id. destruct (nodes c !! id); [apply (reflexivity (R:=node_le))|done].
  - intros c1 c2 c3 H1 H2 id. specialize (H1 id). specialize (H2 id).
    destruct (nodes c1 !! id), (nodes c2 !! id), (nodes c3 !! id); cbn in *; try done.
    by etransitivity.
Qed.

Lemma cluster_le_size c c' : cluster_le c c' → size (nodes c') = size (nodes c).
Proof.
  intros H. rewrite <- !size_dom. f_equal. apply set_eq. intros id.
  rewrite !elem_of_dom. specialize (H id).
  destruct (nodes c !! id), (nodes c' !! id); cbn in *; split; try done; eauto.
Qed.

(** A method of a node that keeps [node_le], and one of the cluster. *)
Definition tame {A} (m : node A) : Prop := ∀ n, node_le n (m n).2.
Definition safe_step {A} (m : cluster A) : Prop := ∀ c, cluster_le c (m c).2.

Lemma safe_bind {A B} (m : cluster A) (f : A → cluster B) :
  safe_step m → (∀ a, safe_step (f a)) → safe_step (m ≫= f).
Proof.
  intros Hm Hf c. unfold mbind, M_bind. specialize (Hm c). destruct (m c) as [[a| |] c1]; [|done..].
  cbn in Hm. etransitivity; [exact Hm|apply Hf].
Qed.

Lemma safe_same {A} (m : cluster A) : (∀ c, nodes (m c).2 = nodes c) → safe_step m.
Proof.
  intros H c. unfold cluster_le. rewrite H. apply (reflexivity (R:=cluster_le)).
Qed.

Lemma safe_on_node {A} id (m : node A) : tame m → safe_step (on_node id m).
Proof.
  intros Hm c. unfold on_node. destruct (nodes c !! id) as [n|] eqn:Hn; [|done].
  specialize (Hm n). destruct (m n) as [r n']. cbn [snd] in *. intros k. cbn [set_nodes nodes].
  destruct (decide (id = k)) as [->|Hne].
  - rewrite Hn, lookup_insert_eq. done.
  - rewrite lookup_insert_ne by done. destruct (nodes c !! k); [apply (reflexivity (R:=node_le))|done].
Qed.

Lemma safe_for_each {A} (l : list A) (f : A → cluster unit) :
  (∀ a, safe_step (f a)) → safe_step (for_each l f).
Proof.
  intros Hf. induction l as [|a l IH]; cbn; [by apply safe_same|]. by apply safe_bind.
Qed.

(** From the shape of the node's methods. *)
Lemma well_behaved_ledger {A} ok (m : node A) n :
  well_behaved ok m → ledger_le (persistent n) (persistent (m n).2) ∧ node_id (m n).2 = node_id n.
Proof.
  intros H. destruct (H n) as [(_ & -> & ->)|(n1 & a & post & _ & Hi & Hle & _ & Hpost & ->)]; [done|].
  destruct (persist_effect n1) as (w & [->|[e ->]]); cbn; [|by rewrite Hi].
  destruct (Hpost (set_wal w n1)) as (_ & -> & ->). by rewrite <- Hi.
Qed.

Lemma tame_of {A} ok (m : node A) :
  well_behaved ok m →
  (∀ n, role (m n).2 = Leader → role n = Leader ∧ current_term (m n).2 = current_term n) → tame m.
Proof. intros H Hr n. destruct (well_behaved_ledger ok m n H). split; auto. Qed.

(** A conditional persist, then an answer, changes no role and no term. *)
Lemma persist_keeps_role n : role (persist n).2 = role n ∧ current_term (persist n).2 = current_term n.
Proof. destruct (persist_effect n) as (w & [->|[e ->]]); done. Qed.

(** Persisting, or not, leaves all of the node but its file. *)
Lemma maybe_persist_state {A} (b : bool) (g : node A) n :
  ∃ w, let n' := ((_ ← (if b then persist else mret tt); g) n).2 in
       n' = set_wal w n ∨ n' = (g (set_wal w n)).2.
Proof.
  destruct b.
  - destruct (persist_effect n) as (w & H). exists w. rewrite persist_then. cbv zeta.
    destruct H as [->|[e ->]]; auto.
  - exists (wal n). right. run_steps. by destruct n.
Qed.

Lemma maybe_persist_role {A} (b : bool) (g : node A) n :
  (∀ n2, role (g n2).2 = role n2 ∧ current_term (g n2).2 = current_term n2) →
  let n' := ((_ ← (if b then persist else mret tt); g) n).2 in
  role n' = role n ∧ current_term n' = current_term n.
Proof.
  intros Hg n'. destruct (maybe_persist_state b g n) as (w & [H|H]); fold n' in H; rewrite H; [done|exact (Hg (set_wal w n))].
Qed.

Lemma start_election_tame : tame start_election.
Proof.
  apply (tame_of _ _ start_election_ok). intros n. unfold start_election. run_steps.
  unfold u64_checked_add. destruct (_ <=? _); cbn [ok_or]; run_steps; [|done].
  rewrite persist_then. set (m := set_vote _ _). destruct (persist_effect m) as (w & [->|[e ->]]); done.
Qed.

Lemma observe_term_tame t : tame (observe_term t).
Proof.
  apply (tame_of _ _ (observe_term_ok t)). intros n. unfold observe_term. run_steps.
  destruct (_ <? _); run_steps; [|done].
  destruct (persist_effect (step_down t n)) as (w & [->|[e ->]]); done.
Qed.

Lemma request_vote_tame q : tame (request_vote q).
Proof.
  apply (tame_of _ _ (request_vote_ok q)). intros n.
  destruct (decide (current_term n ≤ rv_term q)) as [Ht|Ht].
  - rewrite (request_vote_run _ _ Ht).
    match goal with |- context [((_ ← (if ?b then persist else _); ?g) ?m).2] =>
      destruct (maybe_persist_role b g m) as [Hr Hc];  [done|rewrite Hr, Hc; clear Hr Hc] end.
    unfold vote_state, stepped. destruct (current_term n <? rv_term q);
      destruct (vote_fresh q _); cbn; auto; discriminate.
  - unfold request_vote. run_steps. by rewrite (proj2 (Z.ltb_lt _ _)) by lia.
Qed.

Lemma append_entries_tame q : tame (append_entries q).
Proof.
  apply (tame_of _ _ (append_entries_ok q)). intros n.
  destruct (decide (current_term n ≤ ae_term q)) as [Ht|Ht].
  - rewrite (append_entries_run _ _ Ht).
    assert (role (followed q n) = Follower) as Hf by (unfold followed; by destruct (_ <? _)).
    destruct (prev_mismatch_total q n) as [[] ->];
      match goal with |- context [((_ ← (if ?b then persist else _); ?g) ?m).2] =>
        destruct (maybe_persist_role b g m) as [Hr Hc];
          [|rewrite Hr; cbn; congruence] end; [done|].
    intros n2. cbn. unfold commit_to. by destruct (_ <? _).
  - unfold append_entries. run_steps. by rewrite (proj2 (Z.ltb_lt _ _)) by lia.
Qed.

Lemma append_as_leader_tame c : tame (append_as_leader c).
Proof.
  apply (tame_of _ _ (append_as_leader_ok c)). intros n. unfold append_as_leader. run_steps.
  destruct (bool_decide (role n = Leader)) eqn:Hl; cbn [negb]; [|done]. run_steps.
  rewrite persist_then. set (m := set_log _ _). zify_bools.
  destruct (persist_effect m) as (w & [->|[e ->]]); done.
Qed.

Lemma advance_commit_tame l : tame (advance_commit l).
Proof.
  apply (tame_of _ _ (advance_commit_ok l)). intros n. unfold advance_commit. run_steps.
  destruct (negb _); [done|]. unfold lift, mbind, M_bind. by destruct (find_commit _ _ _ _) as [[i|]| |].
Qed.

Lemma take_loop_role count acc n :
  role (take_loop count acc n).2 = role n ∧ current_term (take_loop count acc n).2 = current_term n.
Proof.
  revert acc n. induction count as [|count IH]; intros acc n; cbn [take_loop]; [done|].
  run_steps. unfold lift, mbind, M_bind. destruct (index _ _) as [e| |]; [|done..].
  exact (IH (acc ++ [e]) (set_applied (last_applied n + 1) n)).
Qed.

Lemma take_applied_tame : tame take_applied.
Proof.
  intros n. unfold take_applied. run_steps.
  destruct (take_loop_silent (Z.to_nat (commit_index n - last_applied n)) [] n) as (_ & Hp & Hi).
  destruct (take_loop_role (Z.to_nat (commit_index n - last_applied n)) [] n) as [Hr Ht].
  split; [by rewrite Hp|done|]. rewrite Hr, Ht. done.
Qed.

(** ** What elections leave alone *)

Definition keeps_log {A} (m : node A) : Prop :=
  ∀ n, log (m n).2 = log n ∧ commit_index (m n).2 = commit_index n ∧ last_applied (m n).2 = last_applied n.

Lemma start_election_keeps_log : keeps_log start_election.
Proof.
  intros n. unfold start_election. run_steps.
  unfold u64_checked_add. destruct (_ <=? _); cbn [ok_or]; run_steps; [|done].
  rewrite persist_then. set (m := set_vote _ _). destruct (persist_effect m) as (w & [->|[e ->]]); done.
Qed.

Lemma observe_term_keeps_log t : keeps_log (observe_term t).
Proof.
  intros n. unfold observe_term. run_steps. destruct (_ <? _); run_steps; [|done].
  destruct (persist_effect (step_down t n)) as (w & [->|[e ->]]); done.
Qed.

Lemma request_vote_keeps_log q : keeps_log (request_vote q).
Proof.
  intros n. destruct (decide (current_term n ≤ rv_term q)) as [Ht|Ht].
  - rewrite (request_vote_run _ _ Ht). set (n1 := vote_state _ _).
    assert (log n1 = log n ∧ commit_index n1 = commit_index n ∧ last_applied n1 = last_applied n) as Hn1.
    { unfold n1, vote_state, stepped. destruct (current_term n <? rv_term q); destruct (vote_fresh q _); done. }
    match goal with |- context [((_ ← (if ?b then persist else _); ?g) n1).2] =>
      destruct (maybe_persist_state b g n1) as (w & [->| ->]) end; exact Hn1.
  - unfold request_vote. run_steps. by rewrite (proj2 (Z.ltb_lt _ _)) by lia.
Qed.

Lemma stable_on_node {A} (P : RaftCluster → Prop) id (m : node A) :
  (∀ c n, P c → nodes c !! id = Some n → P (set_nodes (<[id := (m n).2]> (nodes c)) c)) →
  stable P (on_node id m).
Proof.
  intros H c Hc. unfold on_node. destruct (nodes c !! id) as [n|] eqn:Hn; [|done].
  specialize (H c n Hc Hn). by destruct (m n).
Qed.

(** The log of node [id] is [l]. *)
Definition log_is (id : Z) (l : list Entry) (c : RaftCluster) : Prop := log <$> nodes c !! id = Some l.

Lemma log_is_on_node {A} id l k (m : node A) :
  k ≠ id ∨ (∀ n, log (m n).2 = log n) → stable (log_is id l) (on_node k m).
Proof.
  intros Hk. apply stable_on_node. unfold log_is. intros c n Hc Hn. cbn.
  destruct (decide (k = id)) as [->|Hne]; [|by rewrite lookup_insert_ne].
  rewrite lookup_insert_eq. destruct Hk as [Hk|Hk]; [done|]. cbn. rewrite Hk. by rewrite Hn in Hc.
Qed.

#[export] Hint Extern 1 (stable (log_is _ _) (on_node _ _)) => apply log_is_on_node; by left : stable.
#[export] Hint Extern 1 (stable (log_is _ _) (on_node _ _)) => apply log_is_on_node; right; intros ?;
  first [apply start_election_keeps_log|apply observe_term_keeps_log|apply request_vote_keeps_log] : stable.
