(* ===== verification/Election.v ===== *)
(** Election safety of the simulated cluster: at most one leader per term. *)

From stdpp Require Import gmap.
From Stdlib Require Import Ascii.
From S2P Require Import Prelude Bytes Wal RaftNode RaftDurable Transport RaftCluster.
Local Open Scope Z_scope.

(** ** The operations as one type *)

Inductive cop : Type :=
| CElect (candidate : Z)
| CElectByTimeout
| CReplicate (leader : Z) (c : bytes)
| CSynchronize (leader : Z)
| CPartition (a b : Z)
| CIsolate (node : Z)
| CHealAll
| CStop (node : Z)
| CStart (node : Z).

(** The winner of an election, if the operation was one. *)
Definition run_op (o : cop) : cluster (option Z) :=
  match o with
  | CElect candidate => won ← elect candidate; mret (if won : bool then Some candidate else None)
  | CElectByTimeout => elect_by_timeout
  | CReplicate leader c => _ ← replicate leader c; mret None
  | CSynchronize leader => _ ← synchronize leader; mret None
  | CPartition a b => _ ← partition a b; mret None
  | CIsolate node => _ ← isolate node; mret None
  | CHealAll => _ ← heal_all; mret None
  | CStop node => _ ← stop node; mret None
  | CStart node => _ ← start node; mret None
  end.

(** ** Everything but an election won *)

Lemma safe_lift {A} (r : io A) : safe_step (lift r).
Proof. by apply safe_same. Qed.
Lemma safe_ret {A} (a : A) : safe_step (mret a).
Proof. by apply safe_same. Qed.
Lemma safe_fail {A} e : safe_step (fail e : cluster A).
Proof. by apply safe_same. Qed.
Lemma safe_panic {A} p : safe_step (panic p : cluster A).
Proof. by apply safe_same. Qed.
Lemma safe_get : safe_step (get_state : cluster RaftCluster).
Proof. by apply safe_same. Qed.
Lemma safe_modify f : (∀ c, nodes (f c) = nodes c) → safe_step (modify f : cluster unit).
Proof. intros H. by apply safe_same. Qed.
Lemma safe_node_at id : safe_step (node_at id).
Proof. apply safe_bind; [apply safe_get|]. intros c. destruct (nodes c !! id); [apply safe_ret|apply safe_panic]. Qed.

Create HintDb safe discriminated.
#[local] Hint Resolve safe_lift safe_ret safe_fail safe_panic safe_get safe_node_at safe_bind safe_on_node
  safe_for_each start_election_tame observe_term_tame request_vote_tame append_entries_tame
  append_as_leader_tame advance_commit_tame take_applied_tame : safe.

(** Sequences and branches of safe steps. *)
Ltac safe :=
  repeat first
    [ progress cbv zeta
    | solve [auto with safe]
    | apply safe_bind; [|intros ?]
    | match goal with |- safe_step (if ?b then _ else _) => destruct b end
    | match goal with |- safe_step (match ?x with _ => _ end) => destruct x end
    | solve [apply safe_modify; reflexivity] ].

Lemma ask_safe candidate q peers votes : safe_step (ask candidate q peers votes).
Proof. revert votes. induction peers as [|p peers IH]; intros votes; cbn [ask]; safe. Qed.

Lemma back_off_safe term leader commit l follower prev :
  safe_step (back_off term leader commit l follower prev).
Proof. induction prev as [|prev IH]; cbn [back_off]; safe. Qed.

Lemma match_followers_safe term leader commit l ids matched :
  safe_step (match_followers term leader commit l ids matched).
Proof.
  revert matched. induction ids as [|f ids IH]; intros matched; cbn [match_followers]; safe.
  apply back_off_safe.
Qed.

Lemma publish_safe term leader commit l follower : safe_step (publish term leader commit l follower).
Proof. unfold publish. safe. Qed.

Lemma apply_one_safe id : safe_step (apply_one id).
Proof. unfold apply_one. safe. Qed.
#[local] Hint Resolve apply_one_safe : safe.

Lemma apply_all_safe : safe_step apply_all.
Proof. unfold apply_all. safe. Qed.

#[local] Hint Resolve ask_safe back_off_safe match_followers_safe publish_safe apply_all_safe : safe.

Lemma replicate_existing_safe leader : safe_step (replicate_existing leader).
Proof.
  unfold replicate_existing. safe.
Qed.

#[local] Hint Resolve replicate_existing_safe : safe.

Lemma other_ops_safe o :
  match o with CElect _ | CElectByTimeout => True | _ => safe_step (run_op o) end.
Proof.
  destruct o; try exact I; cbn [run_op];
    unfold replicate, synchronize, partition, isolate, heal_all, stop, start, partition; safe.
  apply safe_for_each. intros peer. safe.
Qed.

(** ** An election *)

(** Some node [q] of the cluster has voted for [cand] in [t], or is past it. *)
Definition voted (c : RaftCluster) (q t cand : Z) : Prop :=
  ∃ n, nodes c !! q = Some n ∧ has_voted (persistent n) t cand.

Lemma voted_le c c' q t cand : cluster_le c c' → voted c q t cand → voted c' q t cand.
Proof.
  intros Hle (n & Hn & Hv). destruct (cluster_le_lookup _ _ _ _ Hle Hn) as (n' & Hn' & Hnn).
  exists n'. split; [done|]. eapply has_voted_le; [apply Hnn|done].
Qed.

(** A vote just given for [cand] is the only one of its term. *)
Lemma voted_now n n' t cand c0 :
  ledger_le (persistent n) (persistent n') → current_term n' = t → voted_for n' = Some cand →
  has_voted (persistent n) t c0 → c0 = cand.
Proof.
  intros Hle Ht Hv H. apply (has_voted_le _ _ _ _ Hle) in H as [H|[_ H]]; cbn in H; [lia|congruence].
Qed.

Lemma on_node_run {A} id (m : node A) c n r n' :
  nodes c !! id = Some n → m n = (r, n') → on_node id m c = (r, set_nodes (<[id := n']> (nodes c)) c).
Proof. intros Hn Hm. unfold on_node. by rewrite Hn, Hm. Qed.

Lemma on_node_ok {A} id (m : node A) c a c' :
  on_node id m c = (Ok a, c') →
  ∃ n n', nodes c !! id = Some n ∧ m n = (Ok a, n') ∧ c' = set_nodes (<[id := n']> (nodes c)) c.
Proof.
  unfold on_node. destruct (nodes c !! id) as [n|]; [|done].
  destruct (m n) as [r n'] eqn:Hm. intros [= -> <-]. eauto.
Qed.

Lemma ask_log_is candidate q peers votes id l : stable (log_is id l) (ask candidate q peers votes).
Proof. revert votes. induction peers as [|p peers IH]; intros votes; cbn [ask]; stable_tac. Qed.

(** The log of [q]'s sender is at least as up to date as the one of node [p]. *)
Definition behind_request (q : RequestVote) (p : Z) (c : RaftCluster) : Prop :=
  ∃ n, nodes c !! p = Some n ∧
    pair_ge (rv_last_log_term q) (rv_last_log_index q) (last_log_term n) (last_log_index n) = true.

Lemma behind_log_is q p c l :
  log_is p l c → behind_request q p c ↔
  pair_ge (rv_last_log_term q) (rv_last_log_index q) (default 0 (term <$> last l)) (Z.of_nat (length l)) = true.
Proof.
  unfold log_is. intros (n & Hn & ->)%fmap_Some. split; [|by exists n].
  intros (n' & Hn' & H). rewrite Hn in Hn'. injection Hn' as <-. exact H.
Qed.

(** What a round of asking yields: the voters it counted. *)
Lemma ask_spec candidate q peers votes c v c' :
  NoDup peers → ask candidate q peers votes c = (Ok (Some v), c') →
  nodes c' !! candidate = nodes c !! candidate ∧
  ∃ voters, NoDup voters ∧ voters ⊆ peers ∧ candidate ∉ voters ∧ v = votes + Z.of_nat (length voters) ∧
    ∀ p, p ∈ voters → voted c' p (rv_term q) (rv_candidate_id q) ∧
                      (∀ c0, voted c p (rv_term q) c0 → c0 = rv_candidate_id q) ∧ behind_request q p c'.
Proof.
  intros Hnd. revert votes c. induction Hnd as [|p peers Hp Hnd IH]; intros votes c; cbn [ask].
  { intros [= <- <-]. split; [done|]. exists []. split_and!; [constructor|done|apply not_elem_of_nil|cbn; lia|].
    intros p Hp. by apply not_elem_of_nil in Hp. }
  run_steps. destruct (_ || _) eqn:Hskip.
  - intros Hrun. apply IH in Hrun as (Hc & voters & ? & Hsub & ? & ? & ?). split; [done|].
    exists voters. split_and!; try done. set_solver.
  - apply orb_false_iff in Hskip as [[[Hpc _]%orb_false_iff _]%orb_false_iff _].
    apply bool_decide_eq_false in Hpc. intros (resp & c1 & Ha & Hrun)%M_bind_ok.
    destruct (on_node_ok _ _ _ _ _ Ha) as (n & n' & Hn & Hm & ->).
    destruct (_ <? vr_term resp).
    { apply M_bind_ok in Hrun as (? & ? & _ & [=]). }
    set (c1 := set_nodes _ c) in *. assert (cluster_le c c1) as Hle1.
    { pose proof (safe_on_node p (request_vote q) (request_vote_tame q) c) as Hsafe. by rewrite Ha in Hsafe. }
    pose proof (ask_safe candidate q peers (if vr_granted resp then votes + 1 else votes) c1) as Hle2.
    pose proof (ask_log_is candidate q peers (if vr_granted resp then votes + 1 else votes) p (log n) c1) as Hlog.
    rewrite Hrun in Hlog. cbn in Hlog.
    rewrite Hrun in Hle2. cbn in Hle2.
    apply IH in Hrun as (Hc & voters & Hnv & Hsub & Hcv & Hv & Hvot). split.
    { rewrite Hc. unfold c1. cbn. by rewrite lookup_insert_ne. }
    assert (∀ p', p' ∈ voters → voted c' p' (rv_term q) (rv_candidate_id q) ∧
                    (∀ c0, voted c p' (rv_term q) c0 → c0 = rv_candidate_id q) ∧ behind_request q p' c') as Hold.
    { intros p' Hp'. destruct (Hvot p' Hp') as (Hva & Hvb & Hvc). split_and!; [done| |done].
      intros c0 Hv0. by apply Hvb, (voted_le _ _ _ _ _ Hle1). }
    destruct (vr_granted resp) eqn:Hg.
    + destruct (request_vote_granted _ _ _ _ Hm Hg) as (Ht & Hvf & _).
      exists (p :: voters). split_and!.
      * constructor; [|done]. intros Hin. apply Hp. by apply Hsub.
      * set_solver.
      * apply not_elem_of_cons. split; congruence.
      * cbn. lia.
      * intros p' [->|Hp']%elem_of_cons; [|by apply Hold]. split_and!.
        -- apply (voted_le c1); [done|]. exists n'. unfold c1. cbn. rewrite lookup_insert_eq.
           split; [done|]. right. by split.
        -- intros c0 (n0 & Hn0 & Hv0). rewrite Hn in Hn0. injection Hn0 as <-.
           eapply voted_now; [|exact Ht|exact Hvf|exact Hv0].
           pose proof (request_vote_tame q n) as Htame. rewrite Hm in Htame. apply Htame.
        -- assert (log_is p (log n) c1) as Hl.
           { pose proof (request_vote_keeps_log q n) as [Hk _]. rewrite Hm in Hk. unfold log_is, c1. cbn.
             rewrite lookup_insert_eq. cbn in Hk |- *. by f_equal. }
           apply (behind_log_is _ _ _ _ (Hlog Hl)). exact (request_vote_up_to_date _ _ _ _ Hm Hg).
    + exists voters. split_and!; try done. set_solver.
Qed.

Lemma NoDup_z_keys {V} (m : gmap Z V) : NoDup (z_keys m).
Proof. unfold z_keys. rewrite merge_sort_Permutation. apply NoDup_fst_map_to_list. Qed.

Definition ids_ok (c : RaftCluster) : Prop := ∀ id n, nodes c !! id = Some n → node_id n = id.

(** An election is won by a majority of those asked, or it is only what
    starting it and asking do. *)
Lemma elect_cases candidate c :
  (∃ q c1 v c2 n, on_node candidate start_election c = (Ok q, c1) ∧
     ask candidate q (z_keys (nodes c)) 1 c1 = (Ok (Some v), c2) ∧ Z.of_nat (base.size (nodes c2)) < v * 2 ∧
     nodes c2 !! candidate = Some n ∧
     elect candidate c = (Ok true, set_nodes (<[candidate := become_leader n]> (nodes c2)) c2)) ∨
  (elect candidate c).1 ≠ Ok true ∧
  ∀ P, stable P (on_node candidate start_election) → (∀ q peers, stable P (ask candidate q peers 1)) → P c →
       P (elect candidate c).2.
Proof.
  unfold elect. run_steps. destruct (is_stopped c candidate); [right; split; [done|by intros P]|].
  destruct (nodes c !! candidate) as [n|] eqn:Hn; cbn [ok_or]; run_steps; [|right; split; [done|by intros P]].
  destruct (on_node candidate start_election c) as [[q|e|p] c1] eqn:Hs;
    [rewrite (M_bind_run _ _ _ _ _ Hs)|rewrite (M_bind_err _ _ _ _ _ Hs)|rewrite (M_bind_panic _ _ _ _ _ Hs)].
  2,3: right; split; [done|]; intros P Hst _ Hc; specialize (Hst c Hc); by rewrite Hs in Hst.
  destruct (ask candidate q (z_keys (nodes c)) 1 c1) as [[v|e|p] c2] eqn:Ha;
    [rewrite (M_bind_run _ _ _ _ _ Ha)|rewrite (M_bind_err _ _ _ _ _ Ha)|rewrite (M_bind_panic _ _ _ _ _ Ha)].
  2,3: right; split; [done|]; intros P Hst Hask Hc; specialize (Hst c Hc); rewrite Hs in Hst;
    specialize (Hask q (z_keys (nodes c)) c1 Hst); by rewrite Ha in Hask.
  assert (∀ P, stable P (on_node candidate start_election) → (∀ q peers, stable P (ask candidate q peers 1)) →
    P c → P c2) as Hstep.
  { intros P Hst Hask Hc. specialize (Hst c Hc). rewrite Hs in Hst.
    specialize (Hask q (z_keys (nodes c)) c1 Hst). by rewrite Ha in Hask. }
  destruct v as [v|]; [|right; split; [done|exact Hstep]]. run_steps. destruct (_ <? _) eqn:Hm; [|right; split; [done|exact Hstep]].
  unfold on_node, mbind, M_bind. destruct (nodes c2 !! candidate) as [n2|] eqn:Hn2; [|right; split; [done|exact Hstep]]. left.
  exists q, c1, v, c2, n2. zify_bools. by split_and!.
Qed.

(** An election that was not won leaves no new leader. *)
Lemma elect_lost candidate c r c' :
  elect candidate c = (r, c') → r ≠ Ok true → cluster_le c c'.
Proof.
  intros Hrun Hr. destruct (elect_cases candidate c) as [(q & c1 & v & c2 & n & _ & _ & _ & _ & He)|[_ H]].
  { rewrite He in Hrun. congruence. }
  specialize (H (cluster_le c)). rewrite Hrun in H. apply H; [..|done].
  - intros c0 Hc0. etransitivity; [exact Hc0|]. apply safe_on_node, start_election_tame.
  - intros q peers c0 Hc0. etransitivity; [exact Hc0|]. apply ask_safe.
Qed.

(** What a won election found and left: the candidate's new term, the state
    [c1] before it leads, and the majority behind it. *)
Record landslide (candidate : Z) (c c1 c' : RaftCluster) (n0 n1 : RaftNode) (voters : list Z) : Prop := Landslide {
  ls_le : cluster_le c c1;
  ls_stable P : stable P (on_node candidate start_election) → (∀ q peers, stable P (ask candidate q peers 1)) →
    P c → P c1;
  ls_old : nodes c !! candidate = Some n0;
  ls_new : nodes c1 !! candidate = Some n1;
  ls_term : current_term n1 = current_term n0 + 1;
  ls_won : c' = set_nodes (<[candidate := become_leader n1]> (nodes c1)) c1;
  ls_nodup : NoDup voters;
  ls_majority : Z.of_nat (base.size (nodes c)) < 2 * Z.of_nat (length voters);
  ls_voters q : q ∈ voters → voted c1 q (current_term n1) candidate ∧
    (∀ c0, voted c q (current_term n1) c0 → c0 = candidate) ∧
    ∃ nq, nodes c1 !! q = Some nq ∧
      pair_ge (last_log_term n1) (last_log_index n1) (last_log_term nq) (last_log_index nq) = true;
}.

Lemma pair_ge_refl a b : pair_ge a b a b = true.
Proof. unfold pair_ge. by rewrite Z.eqb_refl, Z.leb_refl, orb_true_r. Qed.

(** One that was: a majority voted for the candidate, none of them for anyone
    else in that term, and none with a better log. *)
Lemma elect_won candidate c c' :
  ids_ok c → elect candidate c = (Ok true, c') → ∃ c1 n0 n1 voters, landslide candidate c c1 c' n0 n1 voters.
Proof.
  intros Hids Hrun.
  destruct (elect_cases candidate c) as [(q & c1 & v & c2 & n & Hs & Ha & Hmaj & Hn & He)|[H _]];
    [|by rewrite Hrun in H]. rewrite He in Hrun. injection Hrun as <-.
  pose proof (safe_on_node candidate start_election start_election_tame c) as Hle1.
  rewrite Hs in Hle1. cbn in Hle1.
  destruct (on_node_ok _ _ _ _ _ Hs) as (n0 & n1 & Hn0 & Hse & Hc1).
  destruct (start_election_vote _ _ _ Hse) as (Ht & Hv & Ht1 & Hid & _ & Hlog).
  rewrite (Hids _ _ Hn0) in Hid.
  pose proof (ask_safe candidate q (z_keys (nodes c)) 1 c1) as Hle2. rewrite Ha in Hle2. cbn in Hle2.
  destruct (ask_spec _ _ _ _ _ _ _ (NoDup_z_keys _) Ha) as (Hsame & voters & Hnd & Hsub & Hnc & Hcount & Hvot).
  assert (cluster_le c c2) as Hle by by etransitivity.
  assert (nodes c1 !! candidate = Some n1) as Hn1 by (rewrite Hc1; cbn; by rewrite lookup_insert_eq).
  rewrite Hn1, Hn in Hsame. injection Hsame as ->.
  exists c2, n0, n1, (candidate :: voters). split; try done.
  - intros P Hst Hask Hc. specialize (Hst c Hc). rewrite Hs in Hst.
    specialize (Hask q (z_keys (nodes c)) c1 Hst). by rewrite Ha in Hask.
  - congruence.
  - by constructor.
  - rewrite (cluster_le_size _ _ Hle) in Hmaj. cbn. lia.
  - rewrite Hid, <- Ht in Hvot. rewrite Hid in Hv. intros p [->|Hp]%elem_of_cons; split_and!.
    + exists n1. split; [done|]. right. by split.
    + intros c0 (n2 & Hn2 & Hv0). rewrite Hn0 in Hn2. injection Hn2 as <-.
      eapply voted_now; [|reflexivity|exact Hv|exact Hv0].
      pose proof (start_election_tame n0) as Htame. rewrite Hse in Htame. apply Htame.
    + exists n1. split; [done|apply pair_ge_refl].
    + by apply Hvot.
    + intros c0 Hv0. by apply (Hvot p Hp), (voted_le _ _ _ _ _ Hle1).
    + destruct Hlog as [<- <-]. by apply Hvot.
Qed.

(** Two majorities meet. *)
Lemma majorities_meet {V} (m : gmap Z V) (l1 l2 : list Z) :
  NoDup l1 → NoDup l2 → (∀ q, q ∈ l1 → is_Some (m !! q)) → (∀ q, q ∈ l2 → is_Some (m !! q)) →
  Z.of_nat (base.size m) < 2 * Z.of_nat (length l1) → Z.of_nat (base.size m) < 2 * Z.of_nat (length l2) →
  ∃ q, q ∈ l1 ∧ q ∈ l2.
Proof.
  intros Hn1 Hn2 H1 H2 Hs1 Hs2.
  destruct (decide (list_to_set (C:=gset Z) l1 ## list_to_set l2)) as [Hd|Hd].
  - exfalso. pose proof (size_union _ _ Hd) as Hu. rewrite !size_list_to_set in Hu by done.
    assert (list_to_set l1 ∪ list_to_set l2 ⊆ dom m) as Hsub.
    { intros q [Hq|Hq]%elem_of_union; apply elem_of_list_to_set in Hq; apply elem_of_dom; auto. }
    apply subseteq_size in Hsub. rewrite size_dom in Hsub. lia.
  - destruct (decide (set_Exists (λ q, q ∈ l2) (list_to_set (C:=gset Z) l1))) as [(q & Hq1 & Hq2)|Hno].
    + exists q. split; [by apply elem_of_list_to_set in Hq1|done].
    + destruct Hd. intros q Hq1 Hq2. apply Hno. exists q. split; [done|]. by apply elem_of_list_to_set in Hq2.
Qed.

(** ** The invariant *)

(** A win: term, winner and the majority that voted. *)
Definition win : Type := Z * Z * list Z.

Record fair (c : RaftCluster) (ws : list win) : Prop := Fair {
  fr_ids : ids_ok c;
  fr_votes t w vs : (t, w, vs) ∈ ws →
    NoDup vs ∧ Z.of_nat (base.size (nodes c)) < 2 * Z.of_nat (length vs) ∧ ∀ q, q ∈ vs → voted c q t w;
  fr_unique t w vs w' vs' : (t, w, vs) ∈ ws → (t, w', vs') ∈ ws → w = w';
  fr_leader id n : nodes c !! id = Some n → role n = Leader → ∃ vs, (current_term n, id, vs) ∈ ws;
}.

Lemma fair_le c c' ws : fair c ws → cluster_le c c' → fair c' ws.
Proof.
  intros [Hi Hv Hu Hl] Hle. split.
  - intros id n' Hn'. destruct (cluster_le_back _ _ _ _ Hle Hn') as (n & Hn & [_ Hid _]).
    rewrite Hid. by apply Hi.
  - intros t w vs Hin. destruct (Hv _ _ _ Hin) as (? & ? & Hq). rewrite (cluster_le_size _ _ Hle).
    split_and!; try done. intros q Hin'. by eapply voted_le, Hq.
  - done.
  - intros id n' Hn' Hr. destruct (cluster_le_back _ _ _ _ Hle Hn') as (n & Hn & [_ _ Hrole]).
    destruct (Hrole Hr) as [Hr' ->]. by apply Hl.
Qed.

Lemma fair_won c ws candidate c1 c' n0 n1 vs :
  fair c ws → landslide candidate c c1 c' n0 n1 vs → fair c' ((current_term n1, candidate, vs) :: ws).
Proof.
  intros Hf [Hle _ _ Hn1 _ -> Hnd Hmaj Hvot]. pose proof Hf as [Hi Hv Hu Hl]. set (t := current_term n1) in *.
  destruct (fair_le _ _ _ Hf Hle) as [Hi1 Hv1 Hu1 Hl1]. set (c' := set_nodes _ c1).
  assert (∀ q t' w', voted c1 q t' w' → voted c' q t' w') as Hkeep.
  { intros q t' w' (n & Hn & Hq). unfold voted. cbn. destruct (decide (candidate = q)) as [->|Hne].
    - rewrite lookup_insert_eq. exists (become_leader n1). split; [done|]. by simplify_eq.
    - rewrite lookup_insert_ne by done. by exists n. }
  assert (base.size (nodes c') = base.size (nodes c1)) as Hsize
    by (apply map_size_insert_Some; by exists n1).
  assert (∀ w vs', (t, w, vs') ∈ ws → w = candidate) as Huniq.
  { intros w vs' Hin. destruct (Hv _ _ _ Hin) as (Hnd' & Hmaj' & Hvot').
    destruct (majorities_meet (nodes c) vs vs') as (q & Hq & Hq'); try done.
    - intros q Hq. destruct (Hvot q Hq) as [(n & Hn & _) _].
      destruct (cluster_le_back _ _ _ _ Hle Hn) as (n2 & Hn2 & _). eauto.
    - intros q Hq. destruct (Hvot' q Hq) as (n & Hn & _). eauto.
    - destruct (Hvot q Hq) as (_ & Hone & _). apply Hone. by apply Hvot'. }
  split.
  - intros id n. cbn. rewrite lookup_insert_Some. intros [[<- <-]|[_ Hn]]; [|by apply Hi1].
    exact (Hi1 _ _ Hn1).
  - intros t' w vs'. rewrite Hsize. intros [[= -> -> ->]|Hin]%elem_of_cons.
    + rewrite (cluster_le_size _ _ Hle). split_and!; try done. intros q Hq. apply Hkeep. by apply Hvot.
    + destruct (Hv1 _ _ _ Hin) as (? & ? & Hq). split_and!; try done. intros q Hq'. by apply Hkeep, Hq.
  - intros t' w vs1 w' vs2 [H1|H1]%elem_of_cons [H2|H2]%elem_of_cons; simplify_eq.
    + done.
    + symmetry. by eapply Huniq.
    + by eapply Huniq.
    + by eapply Hu.
  - intros id n. cbn. rewrite lookup_insert_Some. intros [[<- <-]|[_ Hn]] Hr.
    + exists vs. constructor.
    + destruct (Hl1 _ _ Hn Hr) as [vs' Hin]. exists vs'. by constructor.
Qed.

(** ** Lifetimes of a cluster *)

Definition won (r : io (option Z)) (c : RaftCluster) : list (Z * Z) :=
  match r with
  | Ok (Some w) => match nodes c !! w with Some n => [(current_term n, w)] | None => [] end
  | _ => []
  end.

(** Operations in sequence, whatever they answer; the list collects the
    elections won, as term and winner. *)
Inductive cluster_runs : RaftCluster → list (Z * Z) → RaftCluster → Prop :=
| cluster_nil c : cluster_runs c [] c
| cluster_cons c o r c1 ws c2 :
    run_op o c = (r, c1) → cluster_runs c1 ws c2 → cluster_runs c (won r c1 ++ ws) c2.

Lemma elect_fair candidate c ws r c' :
  fair c ws → elect candidate c = (r, c') →
  ∃ vs, fair c' (match r with
                 | Ok true => match nodes c' !! candidate with
                              | Some n => [(current_term n, candidate, vs)] | None => [] end
                 | _ => []
                 end ++ ws).
Proof.
  intros Hf Hrun. destruct (decide (r = Ok true)) as [->|Hr].
  - destruct (elect_won _ _ _ (fr_ids _ _ Hf) Hrun) as (c1 & n0 & n1 & vs & Hls). exists vs.
    pose proof (fair_won _ _ _ _ _ _ _ _ Hf Hls) as Hf'. rewrite (ls_won _ _ _ _ _ _ _ Hls) in *. cbn.
    by rewrite lookup_insert_eq.
  - exists []. pose proof (fair_le _ _ _ Hf (elect_lost _ _ _ _ Hrun Hr)).
    destruct r as [[]| |]; done.
Qed.

Lemma no_winner {A} (m : cluster A) c r c' : (_ ← m; mret None) c = (r, c') → won r c' = [].
Proof. unfold mbind, M_bind. destruct (m c) as [[]]; by intros [= <- <-]. Qed.

Lemma run_op_fair o c ws r c' :
  fair c ws → run_op o c = (r, c') →
  ∃ ws', fair c' (ws' ++ ws) ∧ ws'.*1 = won r c'.
Proof.
  intros Hf Hrun.
  assert (∀ candidate m0 c1, elect candidate c = (m0, c1) →
    ∃ ws', fair c1 (ws' ++ ws) ∧
           ws'.*1 = won (match m0 with Ok b => Ok (if b : bool then Some candidate else None)
                                     | Err e => Err e | Panic p => Panic p end) c1) as Helect.
  { intros candidate m0 c1 He. destruct (elect_fair _ _ _ _ _ Hf He) as [vs Hf'].
    destruct m0 as [[]| |]; try (exists []; split; [exact Hf'|done]).
    cbn [won]. destruct (nodes c1 !! candidate) as [n|]; eexists; split; try exact Hf'; done. }
  assert (∀ (m : cluster (option Z)), run_op o = m → safe_step m → won r c' = [] →
    ∃ ws', fair c' (ws' ++ ws) ∧ ws'.*1 = won r c') as Hsafe.
  { intros m Hm Hs Hw. exists []. rewrite Hw. split; [|done]. specialize (Hs c). rewrite <- Hm, Hrun in Hs.
    by eapply fair_le. }
  pose proof (other_ops_safe o) as Hother.
  destruct o; try (eapply Hsafe; [done|exact Hother|by eapply no_winner]).
  - cbn [run_op] in Hrun. unfold mbind, M_bind in Hrun.
    destruct (elect candidate c) as [m0 c1] eqn:He. destruct (Helect _ _ _ He) as (ws' & Hf' & Hw).
    exists ws'. destruct m0; injection Hrun as <- <-; done.
  - cbn [run_op] in Hrun. unfold elect_by_timeout in Hrun. run_steps in Hrun.
    destruct (min_by _ _) as [id|]; [|injection Hrun as <- <-; by exists []].
    unfold mbind, M_bind in Hrun.
    destruct (elect id c) as [m0 c1] eqn:He. destruct (Helect _ _ _ He) as (ws' & Hf' & Hw).
    exists ws'. destruct m0; injection Hrun as <- <-; done.
Qed.

Lemma runs_fair c ws0 ws c' :
  fair c ws0 → cluster_runs c ws c' →
  ∃ ws', fair c' ws' ∧ ∀ t w, (t, w) ∈ ws ∨ (t, w) ∈ ws0.*1 → ∃ vs, (t, w, vs) ∈ ws'.
Proof.
  intros Hf H. revert ws0 Hf. induction H as [c|c o r c1 ws c2 Hrun _ IH]; intros ws0 Hf.
  - exists ws0. split; [done|]. intros t w [H|H]; [by apply not_elem_of_nil in H|].
    apply list_elem_of_fmap in H as ([tw vs] & Htw & H). cbn in Htw. subst tw. by exists vs.
  - destruct (run_op_fair _ _ _ _ _ Hf Hrun) as (w1 & Hf1 & Hw1).
    destruct (IH _ Hf1) as (ws' & Hf' & Hin). exists ws'. split; [done|].
    intros t w Htw. apply Hin. rewrite fmap_app, Hw1. rewrite !elem_of_app in *. tauto.
Qed.

(** ** A cluster just opened *)

Lemma open_follower id seed f n f' :
  RaftNode.open id seed f = (Ok n, f') → node_id n = id ∧ role n = Follower.
Proof.
  unfold RaftNode.open. intros (rp & f1 & _ & H)%M_bind_ok. apply M_bind_ok in H as (st & f2 & _ & H).
  apply M_bind_ok in H as (u & f3 & _ & H). apply M_bind_ok in H as (u' & f4 & _ & H).
  run_steps in H. by injection H as <- _.
Qed.

Lemma open_fair dir files ids seed c : open dir files ids seed = Ok c → fair c [].
Proof.
  intros Ho%open_ok. revert Ho. assert (∀ c0, (∀ id n, nodes c0 !! id = Some n → node_id n = id ∧ role n = Follower) →
    open_nodes ids files seed c0 = Ok c →
    ∀ id n, nodes c !! id = Some n → node_id n = id ∧ role n = Follower) as Hopen.
  { induction ids as [|id ids IH]; intros c0 H0 Hrun; cbn [open_nodes] in Hrun.
    - apply ok_inj in Hrun as <-. done.
    - destruct (RaftNode.open id seed (files id)) as [[n| |] f] eqn:Hn; [|done..].
      eapply IH; [|exact Hrun]. intros id' n'. cbn. rewrite lookup_insert_Some.
      intros [[<- <-]|[_ Hn']]; [by eapply open_follower|by apply H0]. }
  intros Hrun. assert (∀ id n, nodes c !! id = Some n → node_id n = id ∧ role n = Follower) as Hc.
  { apply (Hopen (MkCluster ∅ default_transport ∅ ∅)); [|exact Hrun].
    intros id n. cbn. by rewrite lookup_empty. }
  clear Hopen. rename Hc into Hopen.
  split.
  - intros id n Hn. by apply Hopen.
  - intros t w vs H. by apply not_elem_of_nil in H.
  - intros t w vs w' vs' H. by apply not_elem_of_nil in H.
  - intros id n Hn Hr. destruct (Hopen _ _ Hn). congruence.
Qed.

(** ** Theorems *)

(** C8. Election safety: however the nodes' files fail, and through any
    sequence of elections, replications, partitions, stops and restarts of the
    simulated cluster, two elections won in one term were won by the same node,
    and no two nodes ever lead in the same term. *)
Theorem election_safety dir files ids seed c0 ws c :
  open dir files ids seed = Ok c0 → cluster_runs c0 ws c →
  (∀ t a b, (t, a) ∈ ws → (t, b) ∈ ws → a = b) ∧
  (∀ a b na nb, nodes c !! a = Some na → nodes c !! b = Some nb →
                role na = Leader → role nb = Leader → current_term na = current_term nb → a = b).
Proof.
  intros Ho Hr. destruct (runs_fair _ _ _ _ (open_fair _ _ _ _ _ Ho) Hr) as (ws' & [_ _ Hu Hl] & Hin).
  split.
  - intros t a b Ha Hb. destruct (Hin t a (or_introl Ha)) as [va Hva].
    destruct (Hin t b (or_introl Hb)) as [vb Hvb]. by eapply Hu.
  - intros a b na nb Ha Hb Hra Hrb Ht. destruct (Hl _ _ Ha Hra) as [va Hva].
    destruct (Hl _ _ Hb Hrb) as [vb Hvb]. rewrite <- Ht in Hvb. by eapply Hu.
Qed.

(** Run operations and collect the elections won. *)
Fixpoint run_all (c : RaftCluster) (ops : list cop) : list (Z * Z) * RaftCluster :=
  match ops with
  | [] => ([], c)
  | o :: ops =>
    let '(r, c1) := run_op o c in let '(ws, c2) := run_all c1 ops in (won r c1 ++ ws, c2)
  end.

Lemma run_all_runs c ops : cluster_runs c (run_all c ops).1 (run_all c ops).2.
Proof.
  revert c. induction ops as [|o ops IH]; intros c; cbn [run_all]; [constructor|].
  destruct (run_op o c) as [r c1] eqn:Hr. specialize (IH c1).
  destruct (run_all c1 ops) as [ws c2]. by econstructor.
Qed.

(** Three nodes; an election, a replication, an isolation, a second election. *)
Definition three_nodes : RaftCluster :=
  match open (Ok tt) (λ _, absent) [1; 2; 3] 7 with Ok c => c | _ => MkCluster ∅ default_transport ∅ ∅ end.
Definition election_script : list cop :=
  [CElect 1; CReplicate 1 (as_bytes "x"); CIsolate 1; CElect 2; CReplicate 2 (as_bytes "y"); CElect 1;
   CHealAll; CElect 3].

Example election_script_wins : (run_all three_nodes election_script).1 = [(1, 1); (2, 2); (3, 3)].
Proof. vm_compute. reflexivity. Qed.

Lemma election_safety_witness :
  let ws := (run_all three_nodes election_script).1 in
  let c := (run_all three_nodes election_script).2 in
  open (Ok tt) (λ _, absent) [1; 2; 3] 7 = Ok three_nodes ∧ cluster_runs three_nodes ws c ∧
  (∀ t a b, (t, a) ∈ ws → (t, b) ∈ ws → a = b) ∧
  (∀ a b na nb, nodes c !! a = Some na → nodes c !! b = Some nb →
                role na = Leader → role nb = Leader → current_term na = current_term nb → a = b).
Proof.
  intros ws c. assert (open (Ok tt) (λ _, absent) [1; 2; 3] 7 = Ok three_nodes) as H1 by (vm_compute; reflexivity).
  assert (cluster_runs three_nodes ws c) as H2 by apply run_all_runs.
  exact (conj H1 (conj H2 (election_safety _ _ _ _ _ _ _ H1 H2))).
Defined.
