(* ===== verification/Linearizability.v ===== *)
(** The register-history checker of src/src/linearizability.rs.

    [search] is the source's backtracking over the entries not yet placed;
    [linearization] is the definition it decides: an order of the whole history
    that respects real time and that a register could have produced. *)

From S2P Require Import Prelude.
Local Open Scope Z_scope.

Inductive Operation : Type := Write (value : string) | Read.
Inductive Outcome : Type := OOk (observed : option string) | OFail | OInfo.

Record HistoryEntry : Type := MkEntry {
  id : Z; invoke : Z; complete : Z; operation : Operation; outcome : Outcome;
}.

Abbreviation history := (list HistoryEntry).

(** [other.complete < history[candidate].invoke] for some unused [other]. *)
Definition has_unordered_predecessor (h : history) (used : list bool) (candidate : nat) : bool :=
  existsb (λ index,
    negb (default true (used !! index)) && negb (index =? candidate)%nat &&
    match h !! index, h !! candidate with
    | Some other, Some e => complete other <? invoke e
    | _, _ => false
    end) (seq 0 (length h)).

(** One more entry is placed at every recursive call, so [S (length h)] calls
    deep is deep enough. *)
Fixpoint search (fuel : nat) (h : history) (used : list bool) (state : option string) : bool :=
  match fuel with
  | O => false
  | S fuel =>
    if forallb Datatypes.id used then true else
    existsb (λ index,
      match h !! index with
      | None => false
      | Some entry =>
        if default true (used !! index) || has_unordered_predecessor h used index then false else
        let used' := <[index := true]> used in
        match operation entry, outcome entry with
        | _, OFail => search fuel h used' state
        | Write value, OOk _ => search fuel h used' (Some value)
        | Read, OOk observed =>
            if decide (observed = state) then search fuel h used' state else false
        | Write value, OInfo => search fuel h used' state || search fuel h used' (Some value)
        | Read, OInfo => search fuel h used' state
        end
      end) (seq 0 (length h))
  end.

Definition is_linearizable (h : history) : bool :=
  search (S (length h)) h (replicate (length h) false) None.

(** ** The definition *)

(** What a register holding [s] may do and hold next. *)
Inductive effect : option string → HistoryEntry → option string → Prop :=
| effect_fail s e : outcome e = OFail → effect s e s
| effect_write s e v o : operation e = Write v → outcome e = OOk o → effect s e (Some v)
| effect_read s e : operation e = Read → outcome e = OOk s → effect s e s
| effect_lost s e : outcome e = OInfo → effect s e s
| effect_unknown s e v : operation e = Write v → outcome e = OInfo → effect s e (Some v).

Inductive legal : option string → list HistoryEntry → Prop :=
| legal_nil s : legal s []
| legal_cons s e s' es : effect s e s' → legal s' es → legal s (e :: es).

(** Entry [j] had completed before entry [i] was invoked. *)
Definition precedes (h : history) (j i : nat) : Prop :=
  ∃ other e, h !! j = Some other ∧ h !! i = Some e ∧ complete other < invoke e.

Definition in_real_time (h : history) (order : list nat) : Prop :=
  StronglySorted (λ i j, ¬ precedes h j i) order.

(** An order of the entries [todo] that a register in state [s] allows. *)
Definition linearization (h : history) (todo order : list nat) (s : option string) : Prop :=
  order ≡ₚ todo ∧ in_real_time h order ∧ legal s (omap (h !!.) order).

(** ** Correctness of the search *)

(** The entries still to be placed. *)
Definition unused (h : history) (used : list bool) : list nat :=
  List.filter (λ i, negb (default true (used !! i))) (seq 0 (length h)).

Lemma elem_of_unused h used i :
  i ∈ unused h used ↔ (i < length h)%nat ∧ used !! i = Some false.
Proof.
  unfold unused. rewrite list_elem_of_In, List.filter_In, <- list_elem_of_In, elem_of_seq.
  destruct (used !! i) as [[]|]; cbn; naive_solver lia.
Qed.

Lemma NoDup_unused h used : NoDup (unused h used).
Proof. apply NoDup_ListNoDup, List.NoDup_filter, NoDup_ListNoDup, NoDup_seq. Qed.

Lemma unused_place h used i :
  i ∈ unused h used → unused h used ≡ₚ i :: unused h (<[i := true]> used).
Proof.
  intros Hi. apply NoDup_Permutation; [apply NoDup_unused|constructor; [|apply NoDup_unused]|].
  - rewrite elem_of_unused, list_lookup_insert_eq by (apply elem_of_unused in Hi as [_ Hi]; by eapply lookup_lt_Some).
    naive_solver.
  - intros j. rewrite elem_of_cons, !elem_of_unused. apply elem_of_unused in Hi as [Hi Hu].
    destruct (decide (i = j)) as [->|Hne]; [naive_solver|].
    rewrite list_lookup_insert_ne by done. naive_solver.
Qed.

Lemma all_used h used :
  length used = length h → forallb Datatypes.id used = true ↔ unused h used = [].
Proof.
  intros Hlen. rewrite List.forallb_forall. split.
  - intros Hall. destruct (unused h used) as [|i l] eqn:Hu; [done|].
    assert (i ∈ unused h used) as [_ Hi]%elem_of_unused by (rewrite Hu; constructor).
    apply list_elem_of_lookup_2, list_elem_of_In, Hall in Hi. done.
  - intros Hu b Hb. apply list_elem_of_In, list_elem_of_lookup in Hb as [i Hi].
    destruct b; [done|]. exfalso. apply (not_elem_of_nil i). rewrite <- Hu. apply elem_of_unused.
    split; [|done]. apply lookup_lt_Some in Hi. lia.
Qed.

Lemma existsb_false {A} (f : A → bool) l : existsb f l = false ↔ ∀ x, x ∈ l → f x = false.
Proof.
  induction l as [|y l IH]; cbn.
  - split; [|done]. intros _ x Hx. by apply not_elem_of_nil in Hx.
  - rewrite orb_false_iff, IH. split.
    + intros [Hy Hl] x [->|Hx]%elem_of_cons; auto.
    + intros H. split; [apply H; by constructor|]. intros x Hx. apply H. by constructor.
Qed.

Lemma existsb_true {A} (f : A → bool) l : existsb f l = true ↔ ∃ x, x ∈ l ∧ f x = true.
Proof.
  rewrite List.existsb_exists. split; intros (x & Hx & Hf); exists x; (split; [|done]);
    by apply list_elem_of_In.
Qed.

Lemma unordered_predecessor h used i e :
  h !! i = Some e →
  has_unordered_predecessor h used i = false ↔
  ∀ j, j ∈ unused h used → j ≠ i → ¬ precedes h j i.
Proof.
  intros Hi. unfold has_unordered_predecessor. split.
  - intros Hf j Hj Hne (other & e' & Ho & He & Hlt). apply elem_of_unused in Hj as [Hj Hu].
    rewrite existsb_false in Hf. specialize (Hf j ltac:(apply elem_of_seq; lia)).
    rewrite Hu, Ho, He in Hf. cbn in Hf. rewrite (proj2 (Nat.eqb_neq _ _)) in Hf by done.
    rewrite (proj2 (Z.ltb_lt _ _)) in Hf by done. done.
  - intros Hall. apply existsb_false. intros j Hj%elem_of_seq.
    destruct (default true (used !! j)) eqn:Hu; [done|]. destruct (j =? i)%nat eqn:Heq; [done|].
    apply Nat.eqb_neq in Heq. destruct (h !! j) as [other|] eqn:Ho; [|done]. rewrite Hi. cbn.
    apply Z.ltb_ge. destruct (decide (complete other < invoke e)) as [Hlt|]; [|lia].
    destruct (Hall j); [|done|by exists other, e].
    apply elem_of_unused. split; [lia|]. by destruct (used !! j) as [[]|].
Qed.

(** Placing one entry. *)
Definition place (rest : option string → bool) (entry : HistoryEntry) (state : option string) : bool :=
  match operation entry, outcome entry with
  | _, OFail => rest state
  | Write value, OOk _ => rest (Some value)
  | Read, OOk observed => if decide (observed = state) then rest state else false
  | Write value, OInfo => rest state || rest (Some value)
  | Read, OInfo => rest state
  end.

Lemma place_effect rest e s :
  place rest e s = true ↔ ∃ s', effect s e s' ∧ rest s' = true.
Proof.
  unfold place. split.
  - destruct (operation e) as [v|] eqn:Hop, (outcome e) as [o| |] eqn:Hout; intros H.
    + exists (Some v). split; [by eapply effect_write|done].
    + exists s. split; [by apply effect_fail|done].
    + apply orb_true_iff in H as [H|H]; [exists s|exists (Some v)]; (split; [|done]);
        [by apply effect_lost|by apply effect_unknown].
    + destruct (decide (o = s)) as [->|]; [|done]. exists s. split; [by apply effect_read|done].
    + exists s. split; [by apply effect_fail|done].
    + exists s. split; [by apply effect_lost|done].
  - intros (s' & He & Hr). destruct He as [s e H|s e v o H1 H2|s e H1 H2|s e H|s e v H1 H2];
      rewrite ?H, ?H1, ?H2; try done.
    + by destruct (operation e).
    + by rewrite decide_True.
    + destruct (operation e); [by rewrite Hr|done].
    + rewrite Hr. apply orb_true_r.
Qed.

Lemma search_unfold fuel h used s :
  search (S fuel) h used s =
  if forallb Datatypes.id used then true else
  existsb (λ i, match h !! i with
    | None => false
    | Some e => if default true (used !! i) || has_unordered_predecessor h used i then false
                else place (search fuel h (<[i := true]> used)) e s
    end) (seq 0 (length h)).
Proof. reflexivity. Qed.

Lemma linearization_step h used s :
  (∃ order, linearization h (unused h used) order s) ↔
  unused h used = [] ∨
  ∃ i e s', i ∈ unused h used ∧ h !! i = Some e ∧
    (∀ j, j ∈ unused h used → j ≠ i → ¬ precedes h j i) ∧ effect s e s' ∧
    ∃ order, linearization h (unused h (<[i := true]> used)) order s'.
Proof.
  split.
  - intros (order & Hperm & Hrt & Hleg). destruct order as [|i order].
    + left. symmetry. by apply Permutation_nil_l.
    + right. assert (i ∈ unused h used) as Hi by (rewrite <- Hperm; constructor).
      pose proof Hi as [Hlt _]%elem_of_unused. apply lookup_lt_is_Some in Hlt as [e He].
      inversion Hrt as [|? ? Hrt' Hall]; subst. cbn in Hleg. rewrite He in Hleg.
      inversion Hleg as [|? ? s' ? Heff Hleg']; subst. exists i, e, s'.
      pose proof (unused_place _ _ _ Hi) as Hpl. split_and!; try done.
      * intros j Hj Hne. rewrite <- Hperm in Hj. apply elem_of_cons in Hj as [->|Hj]; [done|].
        rewrite Forall_forall in Hall. by apply Hall.
      * exists order. split_and!; try done. rewrite Hpl in Hperm. by apply Permutation_cons_inv in Hperm.
  - intros [Hnil|(i & e & s' & Hi & He & Hpred & Heff & order & Hperm & Hrt & Hleg)].
    + exists []. split_and!; [by rewrite Hnil|constructor|constructor].
    + exists (i :: order). pose proof (unused_place _ _ _ Hi) as Hpl. split_and!.
      * by rewrite Hpl, Hperm.
      * constructor; [done|]. apply Forall_forall. intros j Hj. apply Hpred.
        -- rewrite Hpl. apply elem_of_cons. right. by rewrite <- Hperm.
        -- intros ->. rewrite Hperm in Hj. apply elem_of_unused in Hj as [_ Hj].
           apply elem_of_unused in Hi as [_ Hi]. rewrite list_lookup_insert_eq in Hj; [done|].
           by eapply lookup_lt_Some.
      * cbn. rewrite He. by econstructor.
Qed.

Lemma search_spec fuel h used s :
  length used = length h → (length (unused h used) < fuel)%nat →
  search fuel h used s = true ↔ ∃ order, linearization h (unused h used) order s.
Proof.
  revert used s. induction fuel as [|fuel IH]; intros used s Hlen Hf; [lia|].
  rewrite search_unfold, linearization_step.
  destruct (forallb Datatypes.id used) eqn:Hall.
  { apply (all_used h) in Hall; [|done]. split; [by left|done]. }
  assert (unused h used ≠ []) as Hne.
  { intros Hn. apply (all_used h) in Hn; [congruence|done]. }
  assert (∀ i e, i ∈ unused h used → h !! i = Some e →
    (if default true (used !! i) || has_unordered_predecessor h used i then false
     else place (search fuel h (<[i := true]> used)) e s) = true ↔
    (∀ j, j ∈ unused h used → j ≠ i → ¬ precedes h j i) ∧
    ∃ s', effect s e s' ∧ ∃ order, linearization h (unused h (<[i := true]> used)) order s') as Hstep.
  { intros i e Hi He. rewrite <- (unordered_predecessor h used i e) by done.
    pose proof Hi as [_ Hu]%elem_of_unused. rewrite Hu. cbn [default orb].
    destruct (has_unordered_predecessor h used i); [split; [done|by intros [? _]]|].
    change (place (search fuel h (<[i := true]> used)) e s = true ↔ (false = false ∧ ∃ s', effect s e s' ∧
      ∃ order, linearization h (unused h (<[i := true]> used)) order s')).
    rewrite place_effect. split.
    - intros (s' & Heff & Hs). split; [done|]. exists s'. split; [done|].
      apply IH in Hs; [done|by rewrite length_insert|].
      pose proof (Permutation_length (unused_place _ _ _ Hi)). cbn in *. lia.
    - intros [_ (s' & Heff & Hs)]. exists s'. split; [done|]. apply IH; [by rewrite length_insert| |done].
      pose proof (Permutation_length (unused_place _ _ _ Hi)). cbn in *. lia. }
  rewrite existsb_true. split.
  - intros (i & Hi%elem_of_seq & Hb). right. destruct (h !! i) as [e|] eqn:He; [|done].
    assert (i ∈ unused h used) as Hiu.
    { apply elem_of_unused. split; [lia|]. by destruct (used !! i) as [[]|]. }
    apply (Hstep i e) in Hb as (Hp & s' & Heff & Hl); [|done..]. exists i, e, s'. done.
  - intros [?|(i & e & s' & Hi & He & Hp & Heff & Hl)]; [done|]. exists i.
    pose proof Hi as [Hlt _]%elem_of_unused. split; [apply elem_of_seq; lia|]. rewrite He.
    apply (Hstep i e); [done..|]. split; [done|]. by exists s'.
Qed.

Lemma unused_initial h : unused h (replicate (length h) false) = seq 0 (length h).
Proof.
  unfold unused. apply List.forallb_filter_id, List.forallb_forall. intros i Hi.
  apply List.in_seq in Hi. rewrite lookup_replicate_2 by lia. done.
Qed.

(** ** Theorems *)

(** C23. The checker is sound and complete: it accepts a history exactly when
    all of it can be put in one order that keeps every operation after those
    that completed before it began and that a register could have produced,
    failed operations having no effect and indeterminate writes taking effect
    or not. *)
Theorem is_linearizable_correct h :
  is_linearizable h = true ↔ ∃ order, linearization h (seq 0 (length h)) order None.
Proof.
  unfold is_linearizable. rewrite search_spec, unused_initial; [done|..].
  - apply length_replicate.
  - rewrite unused_initial, length_seq. lia.
Qed.

Example stale_read :
  is_linearizable [MkEntry 0 0 1 (Write "a") (OOk None); MkEntry 1 2 3 Read (OOk None)] = false.
Proof. reflexivity. Qed.
Example concurrent_read :
  is_linearizable [MkEntry 0 0 3 (Write "a") (OOk None); MkEntry 1 1 2 Read (OOk None)] = true.
Proof. reflexivity. Qed.
Example unknown_write :
  is_linearizable [MkEntry 0 0 1 (Write "a") OInfo; MkEntry 1 2 3 Read (OOk (Some "a"))] = true.
Proof. reflexivity. Qed.
