(* ===== verification/Page.v ===== *)
(** Slotted pages: src/src/page.rs.

    A page is an array of [PAGE_SIZE] bytes: a 16-byte header, a slot array
    that grows forward and cells that grow backward.  [layout] is the abstract
    picture of a page holding a list of cells; [insert] is proved to keep it, and
    [from_bytes] and [cells] to read it back.  Every access is bounds-checked, a
    range out of bounds being the panic it is in the source. *)

From S2P Require Import Prelude Bytes Crc.
From Stdlib Require Import Ascii.

(** [usize] constants as [nat]; kept folded, since the numeral is unary. *)
Definition PAGE_SIZE : nat := Z.to_nat 4096.
Definition HEADER_SIZE : nat := 16.
Definition MAGIC : bytes := as_bytes "NPG1".
Definition VERSION : u8 := to_u8 1.
Arguments PAGE_SIZE : simpl never.

Inductive PageKind : Type := Meta | Internal | Leaf.

#[export] Instance page_kind_eq_dec : EqDecision PageKind.
Proof. solve_decision. Defined.

Definition kind_byte (k : PageKind) : u8 :=
  match k with Meta => to_u8 1 | Internal => to_u8 2 | Leaf => to_u8 3 end.

Definition invalid (message : string) : io_error := invalid_data message.

Definition decode_kind (value : u8) : io PageKind :=
  match u8_val value with
  | 1%Z => Ok Meta
  | 2%Z => Ok Internal
  | 3%Z => Ok Leaf
  | _ => Err (invalid "page: unknown page kind")
  end.

(** ** Slices of an array: [&bytes[a..b]] and [bytes[a..][..n].copy_from_slice] *)

Definition slice (bs : bytes) (a b : nat) : io bytes :=
  if (a <=? b) && (b <=? length bs) then Ok (take (b - a) (drop a bs))
  else Panic "range out of bounds".

Definition splice (bs : bytes) (a : nat) (x : bytes) : io bytes :=
  if a + length x <=? length bs then Ok (take a bs ++ x ++ drop (a + length x) bs)
  else Panic "range out of bounds".

Record SlottedPage : Type := MkPage { p_bytes : bytes }.

(** [u16::from_le_bytes(bytes[offset..offset + 2])], used as [usize]. *)
Definition get_u16 (bs : bytes) (offset : nat) : io nat :=
  x ← slice bs offset (offset + 2); Ok (Z.to_nat (from_le_bytes x)).

(** [value as u16] wraps; [u16_le] keeps the two low bytes. *)
Definition put_u16 (bs : bytes) (offset : nat) (value : nat) : io bytes :=
  splice bs offset (u16_le (Z.of_nat value)).

Definition zeros (n : nat) : bytes := replicate n "000"%char.

Definition new (kind : PageKind) : io SlottedPage :=
  bytes ← splice (zeros PAGE_SIZE) 0 MAGIC;
  bytes ← splice bytes 4 [VERSION];
  bytes ← splice bytes 5 [kind_byte kind];
  bytes ← put_u16 bytes 6 0;
  bytes ← put_u16 bytes 8 HEADER_SIZE;
  bytes ← put_u16 bytes 10 PAGE_SIZE;
  Ok (MkPage bytes).

(** The body of the loop of [cells]. *)
Definition read_cell (bs : bytes) (index : nat) : io bytes :=
  let slot := HEADER_SIZE + index * 2 in
  offset ← get_u16 bs slot;
  if (offset <? HEADER_SIZE) || (PAGE_SIZE <? offset + 2)
  then Err (invalid "page: slot points outside page") else
  len ← get_u16 bs offset;
  let start := offset + 2 in
  let stop := start + len in
  if stop <=? PAGE_SIZE then slice bs start stop
  else Err (invalid "page: cell extends outside page").

Definition cells (p : SlottedPage) : io (list bytes) :=
  count ← get_u16 (p_bytes p) 6;
  try_map (read_cell (p_bytes p)) (seq 0 count).

Definition from_bytes (bs : bytes) : io SlottedPage :=
  magic ← slice bs 0 4;
  if negb (bool_decide (magic = MAGIC)) then Err (invalid "page: bad magic") else
  version ← index bs 4;
  if negb (bool_decide (version = VERSION)) then Err (invalid "page: unsupported version") else
  k ← index bs 5;
  _ ← decode_kind k;
  count ← get_u16 bs 6;
  front ← get_u16 bs 8;
  back ← get_u16 bs 10;
  if negb (front =? HEADER_SIZE + count * 2) || (back <? front) || (PAGE_SIZE <? back)
  then Err (invalid "page: invalid free-space bounds") else
  stored ← slice bs 12 16;
  checked ← splice bs 12 (zeros 4);
  if negb (crc32 checked =? from_le_bytes stored)%Z then Err (invalid "page: checksum mismatch") else
  _ ← cells (MkPage bs);
  Ok (MkPage bs).

Definition kind (p : SlottedPage) : io PageKind :=
  k ← index (p_bytes p) 5;
  match decode_kind k with Ok k => Ok k | _ => Panic "constructed page kind" end.

(** [insert]: the guards first, then five writes; an error changes nothing. *)
Definition insert (cell : bytes) (p : SlottedPage) : io SlottedPage :=
  if negb (Z.of_nat (length cell) <=? 65535)%Z then Err (invalid_input "page: cell too large") else
  let len := length cell in
  let bs := p_bytes p in
  count ← get_u16 bs 6;
  front ← get_u16 bs 8;
  back ← get_u16 bs 10;
  let needed := 2 + 2 + len in
  if back - front <? needed then Err (IoError WriteZero "page: no free space") else
  let cell_at := back - 2 - len in
  bs ← put_u16 bs cell_at len;
  bs ← splice bs (cell_at + 2) cell;
  bs ← put_u16 bs front cell_at;
  bs ← put_u16 bs 6 (count + 1);
  bs ← put_u16 bs 8 (front + 2);
  bs ← put_u16 bs 10 cell_at;
  Ok (MkPage bs).

Definition finish (p : SlottedPage) : io bytes :=
  bs ← splice (p_bytes p) 12 (zeros 4);
  splice bs 12 (u32_le (crc32 bs)).

(** ** The abstract page *)

Definition cell_image (c : bytes) : bytes := u16_le (Z.of_nat (length c)) ++ c.

(** Bytes the cells take at the end of the page, and their places. *)
Fixpoint used (cs : list bytes) : nat :=
  match cs with [] => 0 | c :: cs => 2 + length c + used cs end.

Fixpoint offsets (back : nat) (cs : list bytes) : list nat :=
  match cs with
  | [] => []
  | c :: cs => (back - (2 + length c)) :: offsets (back - (2 + length c)) cs
  end.

Fixpoint heap (cs : list bytes) : bytes :=
  match cs with [] => [] | c :: cs => heap cs ++ cell_image c end.

Definition front_of (cs : list bytes) : nat := HEADER_SIZE + length cs * 2.
Definition back_of (cs : list bytes) : nat := PAGE_SIZE - used cs.
Definition slots (os : list nat) : bytes := os ≫= λ o, u16_le (Z.of_nat o).

(** The cells fit: every one takes four bytes and its own. *)
Definition page_fits (cs : list bytes) : Prop := front_of cs + used cs ≤ PAGE_SIZE.

Definition header (k : PageKind) (count front back : nat) (crc : bytes) : bytes :=
  MAGIC ++ [VERSION; kind_byte k] ++ u16_le (Z.of_nat count) ++ u16_le (Z.of_nat front)
  ++ u16_le (Z.of_nat back) ++ crc.

Definition layout (k : PageKind) (cs : list bytes) (crc : bytes) : bytes :=
  header k (length cs) (front_of cs) (back_of cs) crc
  ++ slots (offsets PAGE_SIZE cs) ++ zeros (back_of cs - front_of cs) ++ heap cs.

(** ** Slicing a concatenation *)

Lemma slice_app a x b i j :
  i = length a → j = length a + length x → slice (a ++ x ++ b) i j = Ok x.
Proof.
  intros -> ->. unfold slice. rewrite !length_app.
  rewrite (proj2 (Nat.leb_le _ _)), (proj2 (Nat.leb_le _ _)) by lia. cbn.
  rewrite Nat.add_comm, Nat.add_sub. by rewrite drop_app_length, take_app_length.
Qed.

Lemma splice_app a x b i y :
  i = length a → length y = length x → splice (a ++ x ++ b) i y = Ok (a ++ y ++ b).
Proof.
  intros -> Hy. unfold splice. rewrite !length_app, Hy.
  rewrite (proj2 (Nat.leb_le _ _)) by lia.
  by rewrite take_app_length, <- drop_drop, drop_app_length, drop_app_length.
Qed.

Lemma get_u16_app pre n post bs i :
  bs = pre ++ u16_le (Z.of_nat n) ++ post → i = length pre → (Z.of_nat n < 65536)%Z →
  get_u16 bs i = Ok n.
Proof.
  intros -> -> Hn. unfold get_u16. rewrite slice_app by (rewrite ?length_u16_le; lia). cbn.
  f_equal. unfold u16_le. rewrite from_to_le_bytes; [lia|].
  change (256 ^ Z.of_nat 2)%Z with 65536%Z. lia.
Qed.

Lemma splice_at pre x post bs i y :
  bs = pre ++ x ++ post → i = length pre → length y = length x →
  splice bs i y = Ok (pre ++ y ++ post).
Proof. intros ->. apply splice_app. Qed.

(** ** Layout facts *)

Lemma slots_cons o os : slots (o :: os) = u16_le (Z.of_nat o) ++ slots os.
Proof. done. Qed.

Lemma length_slots os : length (slots os) = length os * 2.
Proof.
  induction os as [|o os IH]; [done|].
  rewrite slots_cons, length_app, length_u16_le, IH. cbn [length]. lia.
Qed.

Lemma length_offsets back cs : length (offsets back cs) = length cs.
Proof. revert back. induction cs; intros back; cbn; auto. Qed.

Lemma length_heap cs : length (heap cs) = used cs.
Proof.
  induction cs as [|c cs IH]; [done|]. cbn [heap used]. unfold cell_image.
  rewrite !length_app, length_u16_le. lia.
Qed.

Lemma length_zeros n : length (zeros n) = n.
Proof. apply length_replicate. Qed.

Lemma length_header k n f b crc : length (header k n f b crc) = 12 + length crc.
Proof. unfold header. rewrite !length_app, !length_u16_le. done. Qed.

Lemma used_app cs cs' : used (cs ++ cs') = used cs + used cs'.
Proof. induction cs; cbn [app used]; lia. Qed.

Lemma used_ge cs : 2 * length cs ≤ used cs.
Proof. induction cs; cbn [length used]; lia. Qed.

Lemma offsets_app back cs cs' :
  used cs ≤ back → offsets back (cs ++ cs') = offsets back cs ++ offsets (back - used cs) cs'.
Proof.
  revert back. induction cs as [|c cs IH]; intros back; cbn [app offsets used]; intros H.
  - by rewrite Nat.sub_0_r.
  - rewrite IH by lia. do 2 f_equal. f_equal. lia.
Qed.

Lemma heap_app cs cs' : heap (cs ++ cs') = heap cs' ++ heap cs.
Proof.
  induction cs as [|c cs IH]; cbn [app heap]; [by rewrite app_nil_r|].
  by rewrite IH, <- app_assoc.
Qed.

Lemma slots_app os os' : slots (os ++ os') = slots os ++ slots os'.
Proof. apply bind_app. Qed.

Lemma page_size : PAGE_SIZE = Z.to_nat 4096.
Proof. done. Qed.

Ltac page_lia :=
  unfold page_fits, front_of, back_of, HEADER_SIZE in *; pose proof page_size;
  rewrite ?used_app, ?length_app, ?length_u16_le, ?length_slots, ?length_offsets, ?length_heap,
    ?length_zeros, ?length_header in *;
  cbn [length used] in *; lia.

Lemma length_layout k cs crc :
  page_fits cs → length crc = 4 → length (layout k cs crc) = PAGE_SIZE.
Proof. intros Hf Hc. unfold layout. rewrite !length_app. page_lia. Qed.

Lemma kind_byte_decode k : decode_kind (kind_byte k) = Ok k.
Proof. by destruct k. Qed.

(** The header's fields, as [get_u16] reads them. *)
Section Fields.
Context (k : PageKind) (cs : list bytes) (crc : bytes) (Hfit : page_fits cs).

Let tail : bytes :=
  slots (offsets PAGE_SIZE cs) ++ zeros (back_of cs - front_of cs) ++ heap cs.

Local Ltac field pre post :=
  pose proof (used_ge cs); apply (get_u16_app pre _ post);
  [unfold layout, header; by rewrite <- !app_assoc | done | page_lia].

Lemma layout_count : get_u16 (layout k cs crc) 6 = Ok (length cs).
Proof.
  field (MAGIC ++ [VERSION; kind_byte k])
    (u16_le (Z.of_nat (front_of cs)) ++ u16_le (Z.of_nat (back_of cs)) ++ crc ++ tail).
Qed.

Lemma layout_front : get_u16 (layout k cs crc) 8 = Ok (front_of cs).
Proof.
  field (MAGIC ++ [VERSION; kind_byte k] ++ u16_le (Z.of_nat (length cs)))
    (u16_le (Z.of_nat (back_of cs)) ++ crc ++ tail).
Qed.

Lemma layout_back : get_u16 (layout k cs crc) 10 = Ok (back_of cs).
Proof.
  field (MAGIC ++ [VERSION; kind_byte k] ++ u16_le (Z.of_nat (length cs))
           ++ u16_le (Z.of_nat (front_of cs)))
    (crc ++ tail).
Qed.
End Fields.

(** The place of a cell: its slot, and the bytes the slot points at. *)
Lemma layout_cell k cs1 c cs2 crc :
  page_fits (cs1 ++ c :: cs2) → length crc = 4 →
  read_cell (layout k (cs1 ++ c :: cs2) crc) (length cs1) = Ok c.
Proof.
  intros Hf Hc. pose proof Hf as Hfit. unfold page_fits, front_of, HEADER_SIZE in Hfit.
  rewrite used_app, length_app in Hfit. cbn [used length] in Hfit.
  set (cs := cs1 ++ c :: cs2) in *. set (o := PAGE_SIZE - used cs1 - (2 + length c)).
  set (hd := header k (length cs) (front_of cs) (back_of cs) crc).
  set (gap := zeros (back_of cs - front_of cs)).
  assert (offsets PAGE_SIZE cs = offsets PAGE_SIZE cs1 ++ o :: offsets o cs2) as Ho.
  { unfold cs. rewrite offsets_app by page_lia. done. }
  assert (get_u16 (layout k cs crc) (HEADER_SIZE + length cs1 * 2) = Ok o) as H1.
  { apply (get_u16_app (hd ++ slots (offsets PAGE_SIZE cs1)) _ (slots (offsets o cs2) ++ gap ++ heap cs)).
    - unfold layout. rewrite Ho, slots_app, slots_cons. by rewrite <- !app_assoc.
    - unfold hd. page_lia.
    - page_lia. }
  unfold read_cell. rewrite H1. cbn [mbind result_bind].
  assert (HEADER_SIZE ≤ o ∧ o + 2 + length c ≤ PAGE_SIZE) as [Ho1 Ho2] by page_lia.
  rewrite (proj2 (Nat.ltb_ge _ _)), (proj2 (Nat.ltb_ge _ _)) by lia. cbn [orb].
  set (pre := hd ++ slots (offsets PAGE_SIZE cs) ++ gap ++ heap cs2).
  assert (layout k cs crc = pre ++ u16_le (Z.of_nat (length c)) ++ c ++ heap cs1) as Hl.
  { assert (heap cs = heap cs2 ++ cell_image c ++ heap cs1) as Hh
      by (unfold cs; rewrite heap_app; cbn [heap]; by rewrite <- app_assoc).
    unfold layout, pre, hd, gap. rewrite Hh. unfold cell_image. by rewrite <- !app_assoc. }
  assert (length pre = o) as Hp.
  { assert (length (layout k cs crc) = PAGE_SIZE) as Hlen by (by apply length_layout).
    rewrite Hl in Hlen. page_lia. }
  assert (get_u16 (layout k cs crc) o = Ok (length c)) as H2.
  { apply (get_u16_app pre _ (c ++ heap cs1)); [done|done|page_lia]. }
  rewrite H2. cbn [mbind result_bind]. rewrite (proj2 (Nat.leb_le _ _)) by lia.
  rewrite Hl, app_assoc. apply slice_app; rewrite ?length_app, ?length_u16_le, Hp; lia.
Qed.

Lemma try_map_seq {E A} (f : nat → result E A) (l : list A) :
  (∀ l1 a l2, l = l1 ++ a :: l2 → f (length l1) = Ok a) → try_map f (seq 0 (length l)) = Ok l.
Proof.
  intros H. apply try_map_ok.
  assert (∀ l1 l2, l = l1 ++ l2 → Forall2 (λ i a, f i = Ok a) (seq (length l1) (length l2)) l2) as G.
  { intros l1 l2. revert l1. induction l2 as [|a l2 IH]; intros l1 Hl; cbn; [done|].
    constructor; [by eapply H|]. specialize (IH (l1 ++ [a])). rewrite length_app in IH.
    cbn [length] in IH. rewrite Nat.add_1_r in IH. apply IH. by rewrite <- app_assoc. }
  by apply (G []).
Qed.

Lemma layout_cells k cs crc :
  page_fits cs → length crc = 4 → cells (MkPage (layout k cs crc)) = Ok cs.
Proof.
  intros Hf Hc. unfold cells. cbn [p_bytes]. rewrite layout_count by done. cbn.
  apply try_map_seq. intros l1 a l2 ->. by apply layout_cell.
Qed.

(** ** The operations on a laid-out page *)

Lemma zeros_app n m : zeros (n + m) = zeros n ++ zeros m.
Proof. apply replicate_add. Qed.

Lemma new_layout k : new k = Ok (MkPage (layout k [] (zeros 4))).
Proof. by destruct k; vm_compute. Qed.

Lemma finish_layout k cs crc :
  page_fits cs → length crc = 4 →
  finish (MkPage (layout k cs crc)) = Ok (layout k cs (u32_le (crc32 (layout k cs (zeros 4))))).
Proof.
  intros Hf Hc. unfold finish. cbn [p_bytes].
  set (pre := MAGIC ++ [VERSION; kind_byte k] ++ u16_le (Z.of_nat (length cs))
    ++ u16_le (Z.of_nat (front_of cs)) ++ u16_le (Z.of_nat (back_of cs))).
  set (post := slots (offsets PAGE_SIZE cs) ++ zeros (back_of cs - front_of cs) ++ heap cs).
  assert (∀ x, layout k cs x = pre ++ x ++ post) as Hl.
  { intros x. unfold layout, header, pre, post. by rewrite <- !app_assoc. }
  rewrite (splice_at pre crc post) by (rewrite ?length_zeros; auto).
  cbn [mbind result_bind]. rewrite <- Hl.
  rewrite (splice_at pre (zeros 4) post) by (rewrite ?length_u32_le; auto). by rewrite <- Hl.
Qed.

(** The guards of [insert], as the room left on the page. *)
Lemma insert_too_large c p :
  ¬ (Z.of_nat (length c) <= 65535)%Z → insert c p = Err (invalid_input "page: cell too large").
Proof. intros H. unfold insert. by rewrite (proj2 (Z.leb_gt _ _)) by lia. Qed.

Lemma insert_full k cs c crc :
  page_fits cs → (Z.of_nat (length c) <= 65535)%Z → ¬ page_fits (cs ++ [c]) →
  insert c (MkPage (layout k cs crc)) = Err (IoError WriteZero "page: no free space").
Proof.
  intros Hf Hc Hn. unfold insert. rewrite (proj2 (Z.leb_le _ _)) by lia. cbn [negb p_bytes].
  rewrite layout_count, layout_front, layout_back by done. cbn [mbind result_bind].
  rewrite (proj2 (Nat.ltb_lt _ _)); [done|]. page_lia.
Qed.

(** A write to one of a row of segments. *)
Lemma splice_seg {B} pre x post y i (f : bytes → io B) :
  i = length (concat pre) → length y = length x →
  splice (concat (pre ++ x :: post)) i y ≫= f = f (concat (pre ++ y :: post)).
Proof.
  intros Hi Hy. rewrite !concat_app. cbn [concat].
  by rewrite (splice_app _ x) by done.
Qed.

(** A page with room for one more cell of [n] bytes, its fields apart. *)
Lemma layout_segments k cs crc o n :
  o + (2 + n) = back_of cs → front_of cs + 2 ≤ o →
  layout k cs crc = concat [MAGIC ++ [VERSION; kind_byte k]; u16_le (Z.of_nat (length cs));
    u16_le (Z.of_nat (front_of cs)); u16_le (Z.of_nat (back_of cs)); crc;
    slots (offsets PAGE_SIZE cs); zeros 2; zeros (o - front_of cs - 2); zeros 2; zeros n; heap cs].
Proof.
  intros Hb Hf.
  assert (zeros (back_of cs - front_of cs)
    = zeros 2 ++ zeros (o - front_of cs - 2) ++ zeros 2 ++ zeros n) as Hz.
  { rewrite <- !zeros_app. f_equal. lia. }
  unfold layout, header. rewrite Hz. cbn [concat]. by rewrite <- !app_assoc, app_nil_r.
Qed.

Ltac here :=
  cbn [concat]; rewrite ?length_app, ?length_u16_le, ?length_zeros; unfold front_of, HEADER_SIZE in *;
  cbn [length]; lia.

Lemma insert_layout k cs c crc :
  page_fits (cs ++ [c]) → length crc = 4 →
  insert c (MkPage (layout k cs crc)) = Ok (MkPage (layout k (cs ++ [c]) crc)).
Proof.
  intros Hf Hc. assert (page_fits cs) as Hf0 by page_lia.
  unfold insert. rewrite (proj2 (Z.leb_le _ _)) by page_lia. cbn [negb p_bytes].
  rewrite layout_count, layout_front, layout_back by done. cbn [mbind result_bind].
  rewrite (proj2 (Nat.ltb_ge _ _)) by page_lia.
  assert (∃ o, back_of cs - 2 - length c = o ∧ o = back_of (cs ++ [c]) ∧
    offsets PAGE_SIZE (cs ++ [c]) = offsets PAGE_SIZE cs ++ [o] ∧
    o + (2 + length c) = back_of cs ∧ front_of cs + 2 ≤ o) as (o & -> & Ho & Hos & Hob & Hfo).
  { eexists; split; [done|]. rewrite offsets_app by page_lia. cbn [offsets].
    split_and!; [page_lia| |page_lia..]. do 2 f_equal. page_lia. }
  rewrite (layout_segments k cs crc o (length c)) by lia.
  remember (MAGIC ++ [VERSION; kind_byte k]) as mk eqn:Hmk.
  remember (slots (offsets PAGE_SIZE cs)) as os eqn:Hoseq.
  remember (zeros (o - front_of cs - 2)) as z eqn:Hz.
  assert (length os = 2 * length cs) as Hlos by (rewrite Hoseq; clear; page_lia).
  assert (length mk = 6) as Hlm by (by rewrite Hmk).
  assert (length z = o - front_of cs - 2) as Hlz by (rewrite Hz; clear; page_lia).
  clear Hf0.
  unfold put_u16.
  etrans; [apply (splice_seg [mk; _; _; _; crc; os; _; z] _ [_; _]); here|].
  etrans; [apply (splice_seg [mk; _; _; _; crc; os; _; z; _] _ [_]); here|].
  etrans; [apply (splice_seg [mk; _; _; _; crc; os] _ [_; _; _; _]); here|].
  etrans; [apply (splice_seg [mk] _ [_; _; _; _; _; _; _; _; _]); here|].
  etrans; [apply (splice_seg [mk; _] _ [_; _; _; _; _; _; _; _]); here|].
  etrans; [apply (splice_seg [mk; _; _] _ [_; _; _; _; _; _; _]); here|].
  do 2 f_equal. cbn [concat app]. unfold layout, header.
  rewrite Hos, slots_app, slots_cons, heap_app, <- Ho. cbn [heap slots].
  assert (length (cs ++ [c]) = length cs + 1) as Hl by apply length_app.
  assert (front_of (cs ++ [c]) = front_of cs + 2) as -> by (unfold front_of; lia).
  rewrite Hl, Nat.sub_add_distr.
  rewrite Hmk, Hoseq, Hz. unfold cell_image. by rewrite <- !app_assoc, ?app_nil_r.
Qed.

(** ** Reading *)

(** The bytes before and after the checksum. *)
Definition before_crc (k : PageKind) (cs : list bytes) : bytes :=
  MAGIC ++ [VERSION; kind_byte k] ++ u16_le (Z.of_nat (length cs))
  ++ u16_le (Z.of_nat (front_of cs)) ++ u16_le (Z.of_nat (back_of cs)).
Definition after_crc (cs : list bytes) : bytes :=
  slots (offsets PAGE_SIZE cs) ++ zeros (back_of cs - front_of cs) ++ heap cs.

Lemma layout_split k cs crc : layout k cs crc = before_crc k cs ++ crc ++ after_crc cs.
Proof. unfold layout, header, before_crc, after_crc. by rewrite <- !app_assoc. Qed.

Lemma layout_magic k cs crc : slice (layout k cs crc) 0 4 = Ok MAGIC.
Proof.
  rewrite layout_split. unfold before_crc. rewrite <- app_assoc.
  generalize (([VERSION; kind_byte k] ++ u16_le (Z.of_nat (length cs)) ++ u16_le (Z.of_nat (front_of cs))
    ++ u16_le (Z.of_nat (back_of cs))) ++ crc ++ after_crc cs). intros rest. reflexivity.
Qed.

Lemma layout_version k cs crc : index (E:=io_error) (layout k cs crc) 4 = Ok VERSION.
Proof. reflexivity. Qed.

Lemma layout_kind k cs crc : index (E:=io_error) (layout k cs crc) 5 = Ok (kind_byte k).
Proof. reflexivity. Qed.

Lemma kind_layout k cs crc : kind (MkPage (layout k cs crc)) = Ok k.
Proof. unfold kind. cbn [p_bytes]. rewrite layout_kind. cbn. by rewrite kind_byte_decode. Qed.

Lemma layout_stored k cs crc : length crc = 4 → slice (layout k cs crc) 12 16 = Ok crc.
Proof. intros Hc. rewrite layout_split. by apply slice_app; [|rewrite Hc]. Qed.

Lemma layout_checked k cs crc :
  length crc = 4 → splice (layout k cs crc) 12 (zeros 4) = Ok (layout k cs (zeros 4)).
Proof. intros Hc. rewrite !layout_split. by apply splice_app. Qed.

Definition page_crc (k : PageKind) (cs : list bytes) : bytes :=
  u32_le (crc32 (layout k cs (zeros 4))).

Lemma from_bytes_layout k cs :
  page_fits cs →
  from_bytes (layout k cs (page_crc k cs)) = Ok (MkPage (layout k cs (page_crc k cs))).
Proof.
  intros Hf. unfold from_bytes.
  rewrite layout_magic. cbn [mbind result_bind]. rewrite bool_decide_true by done. cbn [negb].
  rewrite layout_version. cbn [mbind result_bind]. rewrite bool_decide_true by done. cbn [negb].
  rewrite layout_kind. cbn [mbind result_bind]. rewrite kind_byte_decode. cbn [mbind result_bind].
  rewrite layout_count, layout_front, layout_back by done. cbn [mbind result_bind].
  unfold front_of at 1. rewrite Nat.eqb_refl.
  rewrite (proj2 (Nat.ltb_ge _ _)), (proj2 (Nat.ltb_ge _ _)) by page_lia. cbn [negb orb].
  rewrite layout_stored, layout_checked by apply length_u32_le. cbn [mbind result_bind].
  unfold page_crc at 1.
  rewrite u32_le_inv by apply crc32_range. rewrite Z.eqb_refl. cbn [negb].
  rewrite layout_cells; [done..|]. unfold page_crc. apply length_u32_le.
Qed.

(** ** Nothing panics on foreign bytes *)

(** Boolean tests on [usize], as facts. *)
Ltac nat_bools :=
  zify_bools; repeat match goal with
  | H : (_ =? _) = true |- _ => apply Nat.eqb_eq in H
  | H : (_ =? _) = false |- _ => apply Nat.eqb_neq in H
  | H : (_ <? _) = true |- _ => apply Nat.ltb_lt in H
  | H : (_ <? _) = false |- _ => apply Nat.ltb_ge in H
  | H : (_ <=? _) = true |- _ => apply Nat.leb_le in H
  | H : (_ <=? _) = false |- _ => apply Nat.leb_gt in H
  end.

Definition no_panic {A} (r : io A) : Prop := ∀ s, r ≠ Panic s.

Lemma no_panic_ok {A} (a : A) : no_panic (Ok a).
Proof. done. Qed.
Lemma no_panic_err {A} e : no_panic (Err (A:=A) e).
Proof. done. Qed.
Lemma no_panic_bind {A B} (m : io A) (f : A → io B) :
  no_panic m → (∀ a, m = Ok a → no_panic (f a)) → no_panic (m ≫= f).
Proof. unfold no_panic. destruct m; cbn; naive_solver. Qed.
Lemma no_panic_try_map {A B} (f : A → io B) l :
  (∀ a, a ∈ l → no_panic (f a)) → no_panic (try_map f l).
Proof.
  induction l as [|a l IH]; cbn; intros H; [done|].
  apply no_panic_bind; [apply H; left|]. intros b _.
  apply no_panic_bind; [|done]. apply IH. intros x Hx. apply H. by right.
Qed.

Lemma no_panic_slice bs a b : a ≤ b → b ≤ length bs → no_panic (slice bs a b).
Proof. intros ? ?. unfold slice. by rewrite (proj2 (Nat.leb_le _ _)), (proj2 (Nat.leb_le _ _)) by lia. Qed.
Lemma no_panic_splice bs a x : a + length x ≤ length bs → no_panic (splice bs a x).
Proof. intros ?. unfold splice. by rewrite (proj2 (Nat.leb_le _ _)) by lia. Qed.
Lemma no_panic_index (bs : bytes) i : i < length bs → no_panic (index bs i).
Proof. intros [a [H _]]%(index_lt (E:=io_error)). by rewrite H. Qed.
Lemma no_panic_u16 bs i : i + 2 ≤ length bs → no_panic (get_u16 bs i).
Proof. intros ?. apply no_panic_bind; [apply no_panic_slice; lia|done]. Qed.

Lemma no_panic_read_cell bs count i :
  length bs = PAGE_SIZE → HEADER_SIZE + count * 2 ≤ PAGE_SIZE → i < count → no_panic (read_cell bs i).
Proof.
  intros Hl Hc Hi. unfold read_cell. unfold HEADER_SIZE in *.
  apply no_panic_bind; [apply no_panic_u16; lia|]. intros o _. case_match eqn:Ho; [done|]. nat_bools.
  apply no_panic_bind; [apply no_panic_u16; lia|]. intros len _. case_match eqn:Hlen; [|done].
  apply Nat.leb_le in Hlen. apply no_panic_slice; lia.
Qed.

Lemma from_bytes_no_panic bs : length bs = PAGE_SIZE → no_panic (from_bytes bs).
Proof.
  intros Hl. pose proof page_size. unfold from_bytes.
  apply no_panic_bind; [apply no_panic_slice; lia|]. intros magic _. case_match; [done|].
  apply no_panic_bind; [apply no_panic_index; lia|]. intros v _. case_match; [done|].
  apply no_panic_bind; [apply no_panic_index; lia|]. intros kb _.
  apply no_panic_bind; [unfold decode_kind; by repeat case_match|]. intros k _.
  apply no_panic_bind; [apply no_panic_u16; lia|]. intros count Hcount.
  apply no_panic_bind; [apply no_panic_u16; lia|]. intros front _.
  apply no_panic_bind; [apply no_panic_u16; lia|]. intros back _. case_match eqn:Hb; [done|]. nat_bools.
  apply no_panic_bind; [apply no_panic_slice; lia|]. intros stored _.
  apply no_panic_bind; [apply no_panic_splice; rewrite length_zeros; lia|]. intros checked _.
  case_match; [done|]. apply no_panic_bind; [|done].
  unfold cells. cbn [p_bytes]. rewrite Hcount. cbn [mbind result_bind].
  apply no_panic_try_map. intros i Hi%elem_of_seq. apply no_panic_read_cell with count; lia.
Qed.

(** What [from_bytes] has checked of a page it accepts. *)
Lemma slice_ok bs a b x : slice bs a b = Ok x → x = take (b - a) (drop a bs).
Proof. unfold slice. case_match; [|done]. by intros [= <-]. Qed.

Lemma splice_ok bs a x y : splice bs a x = Ok y → y = take a bs ++ x ++ drop (a + length x) bs.
Proof. unfold splice. case_match; [|done]. by intros [= <-]. Qed.

Lemma from_bytes_checked bs p :
  from_bytes bs = Ok p →
  p = MkPage bs ∧ (∃ k, kind p = Ok k) ∧ (∃ cs, cells p = Ok cs) ∧
  crc32 (take 12 bs ++ zeros 4 ++ drop 16 bs) = from_le_bytes (take 4 (drop 12 bs)).
Proof.
  unfold from_bytes. intros H.
  repeat first [progress invert_ok | match goal with
    H : (if ?b then _ else _) = Ok _ |- _ => destruct b eqn:?; [discriminate H|] end].
  zify_bools. repeat match goal with
  | H : slice _ 12 16 = _ |- _ => apply slice_ok in H; subst
  | H : splice _ _ _ = _ |- _ => apply splice_ok in H; subst
  end.
  rewrite length_zeros in *. split_and!; [done| |by eexists|done].
  unfold kind. cbn [p_bytes].
  match goal with H : index _ 5 = Ok ?k, H' : decode_kind ?k = Ok _ |- _ =>
    rewrite H; cbn; rewrite H'; by eexists end.
Qed.

(** The checksum of a page whose window [w] lies off the checksum field. *)
Lemma checked_window (pre w post : bytes) :
  length pre + length w ≤ 12 ∨ 16 ≤ length pre →
  ∃ a b, ∀ v, length v = length w →
    take 12 (pre ++ v ++ post) ++ zeros 4 ++ drop 16 (pre ++ v ++ post) = a ++ v ++ b ∧
    take 4 (drop 12 (pre ++ v ++ post)) = take 4 (drop 12 (pre ++ w ++ post)).
Proof.
  intros [Hlt|Hgt].
  - exists pre, (take (12 - length pre - length w) post ++ zeros 4 ++ drop (16 - length pre - length w) post).
    intros v Hv. rewrite !take_app, !drop_app, !(take_ge pre), !(take_ge v), !(drop_ge pre),
      !(drop_ge v), !(drop_ge w), Hv by lia. cbn [app]. by rewrite <- !app_assoc.
  - exists (take 12 pre ++ zeros 4 ++ drop 16 pre), post. intros v Hv.
    rewrite !take_app, !drop_app, !take_app. replace (12 - length pre) with 0 by lia.
    replace (16 - length pre) with 0 by lia.
    replace (4 - length (drop 12 pre)) with 0 by (rewrite length_drop; lia).
    cbn [Nat.sub]. rewrite !take_0, !drop_0. by rewrite <- !app_assoc, app_nil_r.
Qed.

(** A page built as its users do: [new], one [insert] per cell, [finish]. *)
Fixpoint insert_all (cs : list bytes) (p : SlottedPage) : io SlottedPage :=
  match cs with [] => Ok p | c :: cs => p ← insert c p; insert_all cs p end.

Definition build (k : PageKind) (cs : list bytes) : io bytes :=
  p ← new k; p ← insert_all cs p; finish p.

Lemma page_fits_app cs cs' : page_fits (cs ++ cs') → page_fits cs.
Proof. page_lia. Qed.

Lemma insert_all_layout k cs cs' crc :
  page_fits (cs ++ cs') → length crc = 4 →
  insert_all cs' (MkPage (layout k cs crc)) = Ok (MkPage (layout k (cs ++ cs') crc)).
Proof.
  revert cs. induction cs' as [|c cs' IH]; intros cs Hf Hc; cbn [insert_all].
  - by rewrite app_nil_r.
  - rewrite (cons_middle c), app_assoc in Hf |- *.
    rewrite insert_layout by eauto using page_fits_app. by apply IH.
Qed.

Lemma insert_all_full k cs cs' crc :
  page_fits cs → length crc = 4 → ¬ page_fits (cs ++ cs') →
  ∃ e, insert_all cs' (MkPage (layout k cs crc)) = Err e.
Proof.
  revert cs. induction cs' as [|c cs' IH]; intros cs Hf Hc Hn; cbn [insert_all].
  - by rewrite app_nil_r in Hn.
  - rewrite (cons_middle c), app_assoc in Hn.
    destruct (decide (Z.of_nat (length c) <= 65535)%Z); [|rewrite insert_too_large by done; by eexists].
    destruct (decide (page_fits (cs ++ [c]))) as [Hfc|Hfc].
    + rewrite insert_layout by done. by apply IH.
    + rewrite insert_full by done. by eexists.
Qed.

Lemma page_fits_nil : page_fits [].
Proof. page_lia. Qed.

Lemma build_layout k cs : page_fits cs → build k cs = Ok (layout k cs (page_crc k cs)).
Proof.
  intros Hf. unfold build. rewrite new_layout. cbn [mbind result_bind].
  rewrite (insert_all_layout k []) by done. cbn [mbind result_bind app].
  by rewrite finish_layout.
Qed.

Lemma length_page_crc k cs : length (page_crc k cs) = 4.
Proof. apply length_u32_le. Qed.

(** ** Properties *)

(** C33. A slotted page holds exactly what fits: cells that take together with
    their slots at most 4080 bytes are all stored, and the finished page is an
    array of 4096 bytes that [from_bytes] accepts with the same kind and the same
    cells in the same order; any other list of cells is refused with an error. *)
Theorem page_round_trip k cs :
  if decide (page_fits cs) then
    ∃ bs p, build k cs = Ok bs ∧ length bs = PAGE_SIZE ∧ from_bytes bs = Ok p ∧
      kind p = Ok k ∧ cells p = Ok cs
  else ∃ e, build k cs = Err e.
Proof.
  case_decide as Hf.
  - do 2 eexists. split_and!; [by apply build_layout|by apply length_layout|by apply from_bytes_layout
      |apply kind_layout|by apply layout_cells].
  - unfold build. rewrite new_layout. cbn [mbind result_bind].
    destruct (insert_all_full k [] cs (zeros 4)) as [e He]; [apply page_fits_nil|done|done|].
    rewrite He. by eexists.
Qed.

(** Reading a page never panics: for every array of 4096 bytes [from_bytes]
    returns or fails, and of a page it returns the kind and the cells can be
    read. *)
Theorem from_bytes_total bs :
  length bs = PAGE_SIZE →
  (∃ e, from_bytes bs = Err e) ∨
  (∃ p k cs, from_bytes bs = Ok p ∧ kind p = Ok k ∧ cells p = Ok cs).
Proof.
  intros Hl. destruct (from_bytes bs) as [p|e|s] eqn:Hp; [right|left; by eexists|].
  - apply from_bytes_checked in Hp as (-> & (k & Hk) & (cs & Hcs) & _). by exists (MkPage bs), k, cs.
  - by apply from_bytes_no_panic in Hp.
Qed.

Lemma from_bytes_total_witness :
  length (zeros PAGE_SIZE) = PAGE_SIZE ∧
  ((∃ e, from_bytes (zeros PAGE_SIZE) = Err e) ∨
   (∃ p k cs, from_bytes (zeros PAGE_SIZE) = Ok p ∧ kind p = Ok k ∧ cells p = Ok cs)).
Proof.
  assert (length (zeros PAGE_SIZE) = PAGE_SIZE) as H by apply length_zeros.
  exact (conj H (from_bytes_total _ H)).
Defined.

(** Corruption is detected: a finished page in which up to four consecutive
    bytes outside the checksum field were altered is refused. *)
Theorem corrupted_page_refused k cs pre w w' post :
  page_fits cs → build k cs = Ok (pre ++ w ++ post) →
  length w' = length w → length w ≤ 4 → w ≠ w' →
  length pre + length w ≤ 12 ∨ 16 ≤ length pre →
  ∃ e, from_bytes (pre ++ w' ++ post) = Err e.
Proof.
  intros Hf Hb Hw H4 Hne Hpos. rewrite build_layout in Hb by done. injection Hb as Hb.
  assert (length (pre ++ w' ++ post) = PAGE_SIZE) as Hl.
  { rewrite <- (length_layout k cs _ Hf (length_page_crc k cs)), Hb, !length_app. lia. }
  destruct (from_bytes (pre ++ w' ++ post)) as [p|e|s] eqn:Hp; [exfalso|by eexists|].
  - apply from_bytes_checked in Hp as (_ & _ & _ & Hcrc').
    pose proof (from_bytes_layout k cs Hf) as Hcrc. rewrite Hb in Hcrc.
    apply from_bytes_checked in Hcrc as (_ & _ & _ & Hcrc).
    destruct (checked_window pre w post Hpos) as (a & b & Hab).
    rewrite (proj1 (Hab w' Hw)), (proj2 (Hab w' Hw)) in Hcrc'.
    rewrite (proj1 (Hab w eq_refl)) in Hcrc. rewrite <- Hcrc' in Hcrc.
    by apply (crc32_detects a w w' b).
  - by apply from_bytes_no_panic in Hp.
Qed.

Lemma corrupted_page_refused_witness :
  let cs := [as_bytes "alpha"; as_bytes "beta"] in
  let bs := layout Leaf cs (page_crc Leaf cs) in
  let pre := take 100 bs in let w := take 1 (drop 100 bs) in let post := drop 101 bs in
  page_fits cs ∧ build Leaf cs = Ok (pre ++ w ++ post) ∧
  ∃ e, from_bytes (pre ++ ["001"%char] ++ post) = Err e.
Proof.
  intros cs bs pre w post.
  assert (page_fits cs) as H1 by (unfold page_fits; apply Nat.leb_le; vm_compute; reflexivity).
  assert (build Leaf cs = Ok (pre ++ w ++ post)) as H2.
  { unfold pre, w, post. rewrite <- (drop_drop bs 1 100 : _ = drop 101 bs), (take_drop 1), take_drop.
    by apply build_layout. }
  assert (w = ["000"%char]) as H3 by (vm_compute; reflexivity).
  assert (length pre = 100) as H4 by (vm_compute; reflexivity).
  refine (conj H1 (conj H2 (corrupted_page_refused Leaf cs pre w ["001"%char] post H1 H2 _ _ _ _))).
  - rewrite H3. reflexivity.
  - rewrite H3. cbn. lia.
  - rewrite H3. discriminate.
  - right. rewrite H4. unfold HEADER_SIZE. lia.
Defined.
