(* ===== verification/Pager.v ===== *)
(** The page cache: src/src/pager.rs.

    A [Pager] is a file of pages behind a bounded write-back cache.  The file is
    that of [Wal] (contents, durable contents, a script of the environment's
    answers).  [view] is what the pager promises: the contents of a page, cached
    or not; the operations are proved against it for every script, so a failed
    write of a page never loses another page's contents.  [HashMap] iteration has
    no order in the source; the model's order is that of [map_to_list]. *)

From stdpp Require Import gmap.
From S2P Require Import Prelude Bytes Crc Wal Page.
From Stdlib Require Import Ascii.

Abbreviation PageId := nat (only parsing).

Record CachedPage : Type := MkCached { c_page : bytes; dirty : bool; touched : nat }.

Record Pager : Type := MkPager {
  p_file : file;
  capacity : nat;
  clock : nat;
  pages : nat;
  cache : gmap nat CachedPage;
}.

Abbreviation pager := (M Pager io_error).

Definition set_file (f : file) (p : Pager) : Pager :=
  MkPager f (capacity p) (clock p) (pages p) (cache p).
Definition set_clock (n : nat) (p : Pager) : Pager :=
  MkPager (p_file p) (capacity p) n (pages p) (cache p).
Definition set_pages (n : nat) (p : Pager) : Pager :=
  MkPager (p_file p) (capacity p) (clock p) n (cache p).
Definition set_cache (c : gmap nat CachedPage) (p : Pager) : Pager :=
  MkPager (p_file p) (capacity p) (clock p) (pages p) c.

Definition on_file {A} (m : M file io_error A) : pager A := zoom p_file set_file m.

(** ** Positioned input and output *)

(** Bytes written at an offset; a gap before it reads as zeros. *)
Definition write_over (content : bytes) (off : nat) (bs : bytes) : bytes :=
  take off content ++ zeros (off - length content) ++ bs ++ drop (off + length bs) content.

(** [seek] and [write_all]: a failed write may leave a prefix. *)
Definition write_at (off : nat) (bs : bytes) : M file io_error unit :=
  _ ← sys_call;
  f ← get_state;
  s ← next_sys;
  match s with
  | SysOk => set_content (write_over (f_content f) off bs)
  | SysFail n e => _ ← set_content (write_over (f_content f) off (take n bs)); fail e
  end.

(** [seek] and [read_exact] of one page. *)
Definition read_page (off : nat) : M file io_error bytes :=
  _ ← sys_call; _ ← sys_call;
  f ← get_state;
  if off + PAGE_SIZE <=? length (f_content f)
  then mret (take PAGE_SIZE (drop off (f_content f)))
  else fail (IoError UnexpectedEof "failed to fill whole buffer").

(** ** Operations *)

(** The file comes with its past; [truncate] empties it on opening. *)
Definition open_inner (capacity : nat) (truncate : bool) : M file io_error Pager :=
  if capacity =? 0 then fail (invalid_input "pager: cache capacity must be positive") else
  _ ← create_file;
  _ ← (if truncate then set_content [] else mret tt);
  len ← size;
  if negb (len mod Z.of_nat PAGE_SIZE =? 0)%Z
  then fail (invalid_data "pager: file ends in a partial page") else
  f ← get_state;
  mret (MkPager f capacity 0 (Z.to_nat (len / Z.of_nat PAGE_SIZE)) ∅).

Definition open (capacity : nat) : M file io_error Pager := open_inner capacity false.
Definition create (capacity : nat) : M file io_error Pager := open_inner capacity true.

Definition page_count (p : Pager) : nat := pages p.

Definition flush_one (id : PageId) : pager unit :=
  p ← get_state;
  match cache p !! id with
  | None => mret tt
  | Some page =>
    if dirty page then
      _ ← on_file (write_at (id * PAGE_SIZE) (c_page page));
      modify (λ p, set_cache (<[id := MkCached (c_page page) false (touched page)]> (cache p)) p)
    else mret tt
  end.

(** [iter().min_by_key(touched)]: the first of the least recently touched. *)
Definition older (best : option (nat * CachedPage)) (e : nat * CachedPage) : option (nat * CachedPage) :=
  match best with
  | None => Some e
  | Some b => if touched e.2 <? touched b.2 then Some e else Some b
  end.
Definition victim (c : gmap nat CachedPage) : option nat :=
  fst <$> foldl older None (map_to_list c).

Definition evict_if_needed : pager unit :=
  p ← get_state;
  if base.size (cache p) <? capacity p then mret tt else
  match victim (cache p) with
  | None => panic "non-empty cache"
  | Some v =>
    _ ← flush_one v;
    modify (λ p, set_cache (base.delete v (cache p)) p)
  end.

Definition ensure_loaded (id : PageId) : pager unit :=
  p ← get_state;
  if pages p <=? id then fail (IoError NotFound "pager: page not found") else
  match cache p !! id with
  | Some _ => mret tt
  | None =>
    _ ← evict_if_needed;
    bs ← on_file (read_page (id * PAGE_SIZE));
    modify (λ p, set_cache (<[id := MkCached bs false (clock p)]> (cache p)) p)
  end.

Definition read (id : PageId) : pager bytes :=
  _ ← ensure_loaded id;
  _ ← modify (λ p, set_clock (S (clock p)) p);
  p ← get_state;
  match cache p !! id with
  | None => panic "loaded page"
  | Some page =>
    _ ← modify (set_cache (<[id := MkCached (c_page page) (dirty page) (clock p)]> (cache p)));
    mret (c_page page)
  end.

Definition write (id : PageId) (bs : bytes) : pager unit :=
  p ← get_state;
  if pages p <? id then fail (invalid_input "pager: page id skips allocation") else
  _ ← (if id =? pages p then modify (set_pages (S (pages p))) else mret tt);
  _ ← (match cache p !! id with Some _ => mret tt | None => evict_if_needed end);
  modify (λ p, set_cache (<[id := MkCached bs true (S (clock p))]> (cache p)) (set_clock (S (clock p)) p)).

Definition allocate : pager nat :=
  p ← get_state;
  let id := pages p in
  _ ← modify (set_pages (S id));
  _ ← write id (zeros PAGE_SIZE);
  mret id.

Definition dirty_ids (c : gmap nat CachedPage) : list nat :=
  (filter (λ e, dirty e.2 = true) (map_to_list c)).*1.

Definition flush : pager unit :=
  p ← get_state;
  _ ← for_each (dirty_ids (cache p)) flush_one;
  p ← get_state;
  _ ← on_file (set_len (Z.of_nat (pages p * PAGE_SIZE)));
  on_file sync_all.

(** [Drop]: flush, ignoring the result; what is left is the file. *)
Definition drop_pager (p : Pager) : file := p_file (snd (flush p)).

(** The file stays, once it exists. *)
Definition p_exists (p : Pager) : Prop := f_exists (p_file p) = true.
Definition file_there (f : file) : Prop := f_exists f = true.

Lemma stable_next_sys : stable file_there next_sys.
Proof. intros f Hf. unfold next_sys. by destruct (f_env f). Qed.
Lemma stable_set_content bs : stable file_there (set_content bs).
Proof. by apply stable_modify. Qed.
#[export] Hint Resolve stable_next_sys stable_set_content : stable.
Lemma stable_sys_call : stable file_there sys_call.
Proof. unfold sys_call. stable_tac. Qed.
#[export] Hint Resolve stable_sys_call : stable.
Lemma stable_sync_all : stable file_there sync_all.
Proof. unfold sync_all. stable_tac. Qed.
Lemma stable_set_len n : stable file_there (set_len n).
Proof. unfold set_len. stable_tac. Qed.
Lemma stable_write_at off bs : stable file_there (write_at off bs).
Proof. unfold write_at. stable_tac. Qed.
Lemma stable_read_page off : stable file_there (read_page off).
Proof. unfold read_page. stable_tac. Qed.
#[export] Hint Resolve stable_sync_all stable_set_len stable_write_at stable_read_page : stable.
Lemma stable_on_file {A} (m : M file io_error A) : stable file_there m → stable p_exists (on_file m).
Proof. intros H. by eapply stable_zoom. Qed.
#[export] Hint Resolve stable_on_file : stable.
Lemma stable_flush_one id : stable p_exists (flush_one id).
Proof. unfold flush_one. stable_tac. Qed.
#[export] Hint Resolve stable_flush_one : stable.
Lemma stable_evict : stable p_exists evict_if_needed.
Proof. unfold evict_if_needed. stable_tac. Qed.
#[export] Hint Resolve stable_evict : stable.
Lemma stable_ensure_loaded id : stable p_exists (ensure_loaded id).
Proof. unfold ensure_loaded. stable_tac. Qed.
#[export] Hint Resolve stable_ensure_loaded : stable.
Lemma stable_read id : stable p_exists (read id).
Proof. unfold read. stable_tac. Qed.
Lemma stable_write id bs : stable p_exists (write id bs).
Proof. unfold write. stable_tac. Qed.
#[export] Hint Resolve stable_read stable_write : stable.
Lemma stable_allocate : stable p_exists allocate.
Proof. unfold allocate. stable_tac. Qed.
Lemma stable_flush : stable p_exists flush.
Proof. unfold flush. stable_tac. Qed.
#[export] Hint Resolve stable_allocate stable_flush : stable.

Lemma open_inner_exists cap trunc f p f' : open_inner cap trunc f = (Ok p, f') → p_exists p.
Proof.
  unfold open_inner. case_match; [done|]. intros H0.
  apply M_bind_ok in H0 as ([] & f1 & H1 & H0). assert (file_there f1) as Hf1.
  { unfold create_file in H1. apply M_bind_ok in H1 as (? & ? & _ & H1).
    apply M_bind_ok in H1 as (? & ? & _ & H1). by injection H1 as <-. }
  assert (stable file_there size) as Hsize by (unfold size; stable_tac).
  apply M_bind_ok in H0 as ([] & f2 & H2 & H0). apply M_bind_ok in H0 as (len & f3 & H3 & H0).
  assert (file_there f2) as Hf2 by (destruct trunc; injection H2 as <-; done).
  pose proof (Hsize f2 Hf2) as Hf3. rewrite H3 in Hf3. case_match; [done|].
  unfold mbind, M_bind, get_state in H0. by injection H0 as <- _.
Qed.

(** ** The view of a pager *)

Definition file_page (content : bytes) (i : nat) : option bytes :=
  if i * PAGE_SIZE + PAGE_SIZE <=? length content
  then Some (take PAGE_SIZE (drop (i * PAGE_SIZE) content)) else None.

Definition view (p : Pager) (i : nat) : option bytes :=
  match cache p !! i with
  | Some c => Some (c_page c)
  | None => file_page (f_content (p_file p)) i
  end.

(** The cache is within its bounds and a clean page is the file's. *)
Record pager_wf (p : Pager) : Prop := PagerWf {
  wf_capacity : 0 < capacity p;
  wf_size : base.size (cache p) ≤ capacity p;
  wf_page i c : cache p !! i = Some c → length (c_page c) = PAGE_SIZE ∧ i < pages p;
  wf_clean i c : cache p !! i = Some c → dirty c = false →
    file_page (f_content (p_file p)) i = Some (c_page c);
  wf_file : length (f_content (p_file p)) ≤ pages p * PAGE_SIZE;
}.

(** Everything known of a pager stays known. *)
Definition keeps (p p' : Pager) : Prop := ∀ i b, view p i = Some b → view p' i = Some b.

Lemma keeps_refl p : keeps p p.
Proof. by intros i b. Qed.
Lemma keeps_trans p q r : keeps p q → keeps q r → keeps p r.
Proof. intros H1 H2 i b Hb. by apply H2, H1. Qed.

Lemma page_pos : 0 < PAGE_SIZE.
Proof. rewrite page_size. lia. Qed.

Lemma length_write_over content off bs :
  length (write_over content off bs) = Nat.max (length content) (off + length bs).
Proof.
  unfold write_over. rewrite !length_app, length_take, length_drop, length_zeros. lia.
Qed.

Lemma lookup_write_over content off bs i :
  off ≤ length content →
  write_over content off bs !! i =
    if decide (off ≤ i < off + length bs) then bs !! (i - off) else content !! i.
Proof.
  intros Ho. unfold write_over. replace (off - length content) with 0 by lia. cbn [zeros replicate app].
  case_decide.
  - rewrite lookup_app_r; rewrite length_take; [|lia]. rewrite Nat.min_l by lia.
    rewrite lookup_app_l by lia. done.
  - destruct (decide (i < off)).
    + rewrite lookup_app_l by (rewrite length_take; lia). by rewrite lookup_take_lt.
    + rewrite lookup_app_r; rewrite length_take; [|lia]. rewrite Nat.min_l by lia.
      rewrite lookup_app_r by lia. rewrite lookup_drop. f_equal. lia.
Qed.

Lemma lookup_zeros n i : i < n → zeros n !! i = Some "000"%char.
Proof. intros. by apply lookup_replicate_2. Qed.

(** A write inside page [i] leaves the other pages of the file alone. *)
Lemma file_page_other content i bs j b :
  length bs ≤ PAGE_SIZE → i ≠ j → file_page content j = Some b →
  file_page (write_over content (i * PAGE_SIZE) bs) j = Some b.
Proof.
  unfold file_page. intros Hbs Hij. case_match eqn:Hj; [|done]. apply Nat.leb_le in Hj. intros [= <-].
  rewrite (proj2 (Nat.leb_le _ _)) by (rewrite length_write_over; lia).
  f_equal. apply list_eq. intros k. destruct (decide (k < PAGE_SIZE)).
  2: { rewrite !lookup_take_ge by lia. done. }
  rewrite !lookup_take_lt, !lookup_drop by lia.
  destruct (decide (i * PAGE_SIZE ≤ length content)).
  - rewrite lookup_write_over by done. rewrite decide_False; [done|].
    assert (i < j ∨ j < i) as [|] by lia; nia.
  - unfold write_over. rewrite lookup_app_l by (rewrite length_take; nia).
    rewrite lookup_take_lt by nia. done.
Qed.

Lemma file_page_same content i bs :
  length bs = PAGE_SIZE → file_page (write_over content (i * PAGE_SIZE) bs) i = Some bs.
Proof.
  unfold file_page. intros Hbs. rewrite (proj2 (Nat.leb_le _ _)) by (rewrite length_write_over; lia).
  f_equal. unfold write_over. rewrite app_assoc, drop_app_length'.
  - rewrite take_app_length'; [done|]. by symmetry.
  - rewrite length_app, length_take, length_zeros. lia.
Qed.

(** Zero extension and a cut at [pages] keep every whole page. *)
Definition resize (n : nat) (bs : bytes) : bytes :=
  if n <=? length bs then take n bs else bs ++ zeros (n - length bs).

Lemma length_resize n bs : length (resize n bs) = n.
Proof.
  unfold resize. case_match eqn:H; nat_bools;
    rewrite ?length_take, ?length_app, ?length_zeros; lia.
Qed.

Lemma file_page_resize n bs i b :
  i < n → file_page bs i = Some b → file_page (resize (n * PAGE_SIZE) bs) i = Some b.
Proof.
  unfold file_page. intros Hi. case_match eqn:H; [|done]. nat_bools. intros [= <-].
  rewrite length_resize, (proj2 (Nat.leb_le _ _)) by nia. f_equal. unfold resize.
  case_match eqn:Hn; nat_bools.
  - apply list_eq. intros k. destruct (decide (k < PAGE_SIZE)).
    + rewrite !lookup_take_lt, !lookup_drop, lookup_take_lt by nia. done.
    + by rewrite !lookup_take_ge by lia.
  - rewrite drop_app_le by lia. rewrite take_app_le by (rewrite length_drop; lia). done.
Qed.

Lemma file_page_length content i b : file_page content i = Some b → length b = PAGE_SIZE.
Proof.
  unfold file_page. case_match eqn:H; [|done]. nat_bools. intros [= <-].
  rewrite length_take, length_drop. lia.
Qed.

(** ** The file operations *)

Lemma sys_call_cases f :
  ∃ f', f_content f' = f_content f ∧ f_synced f' = f_synced f ∧
    (sys_call f = (Ok tt, f') ∨ ∃ e, sys_call f = (Err e, f')).
Proof.
  destruct f as [ex c s env rd]. unfold sys_call, next_sys, mbind, M_bind. cbn.
  destruct env as [|[|n e] env]; cbn; [exists (File ex c s [] rd)|exists (File ex c s env rd)..];
    split_and!; eauto.
Qed.

Lemma write_at_cases off bs f :
  ∃ f', f_synced f' = f_synced f ∧
    ((write_at off bs f = (Ok tt, f') ∧ f_content f' = write_over (f_content f) off bs) ∨
     ∃ e, write_at off bs f = (Err e, f') ∧
       (f_content f' = f_content f ∨ ∃ n, f_content f' = write_over (f_content f) off (take n bs))).
Proof.
  unfold write_at. destruct (sys_call_cases f) as (f1 & Hc & Hs & [H|[e H]]).
  - erewrite M_bind_run by exact H. run_steps. destruct f1 as [ex c s env rd].
    cbn in Hc, Hs. subst.
    destruct env as [|[|n e] env]; unfold next_sys, mbind, M_bind; cbn.
    + exists (File ex (write_over (f_content f) off bs) (f_synced f) [] rd). eauto 6.
    + exists (File ex (write_over (f_content f) off bs) (f_synced f) env rd). eauto 6.
    + exists (File ex (write_over (f_content f) off (take n bs)) (f_synced f) env rd).
      split; [done|]. right. exists e. split; [done|]. right. by exists n.
  - erewrite M_bind_err by exact H. exists f1. split; [done|]. right. exists e. split; [done|]. by left.
Qed.

Lemma read_page_cases i f :
  ∃ f', f_content f' = f_content f ∧ f_synced f' = f_synced f ∧
    ((∃ b, read_page (i * PAGE_SIZE) f = (Ok b, f') ∧ file_page (f_content f) i = Some b) ∨
     ∃ e, read_page (i * PAGE_SIZE) f = (Err e, f')).
Proof.
  unfold read_page. destruct (sys_call_cases f) as (f1 & Hc1 & Hs1 & [H1|[e H1]]).
  2: { erewrite M_bind_err by exact H1. eauto 6. }
  erewrite M_bind_run by exact H1. destruct (sys_call_cases f1) as (f2 & Hc2 & Hs2 & [H2|[e H2]]).
  2: { erewrite M_bind_err by exact H2. exists f2. split_and!; [congruence..|]. eauto. }
  erewrite M_bind_run by exact H2. run_steps.
  exists f2. rewrite Hc2, Hc1. split_and!; [done|congruence|].
  unfold file_page. case_match; [left; by eexists|right; by eexists].
Qed.

Lemma read_page_healthy i f :
  f_env f = [] →
  read_page (i * PAGE_SIZE) f =
    (match file_page (f_content f) i with
     | Some b => Ok b
     | None => Err (IoError UnexpectedEof "failed to fill whole buffer")
     end, f).
Proof.
  destruct f as [x c y env rd]. cbn. intros ->. unfold read_page, file_page.
  cbv [sys_call next_sys mbind M_bind get_state f_env f_content mret M_ret fail].
  by destruct (i * PAGE_SIZE + PAGE_SIZE <=? length c).
Qed.

Lemma on_file_run {A} (m : M file io_error A) p r f :
  m (p_file p) = (r, f) → on_file m p = (r, set_file f p).
Proof. intros H. unfold on_file, zoom. by rewrite H. Qed.

(** ** The operations *)

(** What every operation guarantees, whatever it returns. *)
Record step_ok (p p' : Pager) : Prop := StepOk {
  step_wf : pager_wf p';
  step_keeps : keeps p p';
  step_pages : pages p ≤ pages p';
  step_capacity : capacity p' = capacity p;
  step_env : f_env (p_file p) = [] → f_env (p_file p') = [];
}.

Lemma step_refl p : pager_wf p → step_ok p p.
Proof. split; auto using keeps_refl. Qed.
Lemma step_trans p q r : step_ok p q → step_ok q r → step_ok p r.
Proof.
  intros [] []. split; eauto using keeps_trans; [by etrans|congruence].
Qed.

(** An outcome that is not a panic, and a success when nothing can fail. *)
Definition outcome_ok {A} (p : Pager) (r : io A) : Prop :=
  match r with Ok _ => True | Err _ => f_env (p_file p) ≠ [] | Panic _ => False end.

(** A file whose pages still hold everything the cache does not. *)
Lemma wf_write p id c f bs :
  pager_wf p → cache p !! id = Some c → dirty c = true → length bs ≤ PAGE_SIZE →
  f_content f = f_content (p_file p) ∨ f_content f = write_over (f_content (p_file p)) (id * PAGE_SIZE) bs →
  pager_wf (set_file f p) ∧ keeps p (set_file f p).
Proof.
  intros [Hcap Hsz Hpg Hcl Hf] Hid Hd Hbs Hc.
  destruct (Hpg _ _ Hid) as [_ Hlt].
  assert (∀ i b, i ≠ id → file_page (f_content (p_file p)) i = Some b → file_page (f_content f) i = Some b) as Hk.
  { intros i b Hi Hb. destruct Hc as [->| ->]; [done|]. by apply file_page_other. }
  split.
  - split; cbn; auto.
    + intros i c' Hi Hdi. apply Hk; [|by apply Hcl]. intros ->. congruence.
    + destruct Hc as [->| ->]; [done|]. rewrite length_write_over. nia.
  - intros i b. unfold view. cbn. destruct (cache p !! i) eqn:Hi; [done|]. apply Hk. intros ->. congruence.
Qed.

Lemma write_at_env off bs f f' r :
  write_at off bs f = (r, f') → f_env f = [] → f_env f' = [] ∧ r = Ok tt.
Proof. destruct f as [ex c s env rd]; cbn. intros H ->. vm_compute in H. by injection H as <- <-. Qed.

Lemma flush_one_spec id p :
  pager_wf p →
  ∃ r p', flush_one id p = (r, p') ∧ outcome_ok p r ∧ step_ok p p' ∧ pages p' = pages p ∧
    (∀ j, j ≠ id → cache p' !! j = cache p !! j) ∧
    (is_Some (cache p' !! id) ↔ is_Some (cache p !! id)) ∧
    (r = Ok tt → ∀ c', cache p' !! id = Some c' → dirty c' = false).
Proof.
  intros Hwf. unfold flush_one. run_steps.
  destruct (cache p !! id) as [c|] eqn:Hid.
  2: { exists (Ok tt), p. split_and!; rewrite ?Hid; auto using step_refl; done. }
  destruct (dirty c) eqn:Hd.
  2: { exists (Ok tt), p. split_and!; rewrite ?Hid; auto using step_refl; [done|naive_solver]. }
  pose proof (wf_page p Hwf id c Hid) as [Hlen Hlt].
  destruct (write_at_cases (id * PAGE_SIZE) (c_page c) (p_file p)) as (f & _ & [[Hw Hc]|(e & Hw & Hc)]).
  - destruct (wf_write p id c f (c_page c)) as [Hwf1 Hk1];
      [done..|by rewrite Hlen|by right|].
    erewrite M_bind_run by (by apply on_file_run).
    eexists (Ok tt), _. split; [reflexivity|]. split; [done|].
    pose proof (file_page_same (f_content (p_file p)) id (c_page c) Hlen) as Hsame. rewrite <- Hc in Hsame.
    split; [split|split_and!]; cbn.
    + destruct Hwf1 as [H1 H2 H3 H4 H5]. cbn in *. split; cbn; auto.
      * rewrite map_size_insert_Some by done. done.
      * intros i c'. rewrite lookup_insert_Some. intros [[<- <-]|[_ ?]]; eauto.
      * intros i c'. rewrite lookup_insert_Some. intros [[<- <-]|[_ ?]]; eauto.
    + intros i b Hb. apply Hk1 in Hb. unfold view in *. cbn in *.
      destruct (decide (i = id)) as [->|]; simplify_map_eq; done.
    + done.
    + done.
    + intros He. by destruct (write_at_env _ _ _ _ _ Hw He).
    + done.
    + intros j Hj. by simplify_map_eq.
    + rewrite lookup_insert_eq. done.
    + intros _ c' Hc'. by simplify_map_eq.
  - assert (∃ bs, length bs ≤ PAGE_SIZE ∧ (f_content f = f_content (p_file p) ∨
        f_content f = write_over (f_content (p_file p)) (id * PAGE_SIZE) bs)) as (bs & Hbs & Hcases).
    { destruct Hc as [Hc|[n Hc]]; [exists []; cbn; split; [lia|by left]|].
      exists (take n (c_page c)). rewrite length_take. split; [lia|by right]. }
    destruct (wf_write p id c f bs) as [Hwf1 Hk1]; [done..|].
    erewrite M_bind_err by (by apply on_file_run).
    eexists (Err e), _. split; [reflexivity|]. split.
    { intros He. by destruct (write_at_env _ _ _ _ _ Hw He). }
    split; [split; auto; cbn|split_and!; cbn; eauto; by rewrite ?Hid].
    intros He. by destruct (write_at_env _ _ _ _ _ Hw He).
Qed.

Lemma foldl_older_some b l : is_Some (foldl older (Some b) l).
Proof. revert b. induction l as [|e l IH]; intros b; cbn; [eauto|]. case_match; apply IH. Qed.

Lemma foldl_older_in o l e :
  foldl older o l = Some e → o = Some e ∨ e ∈ l.
Proof.
  revert o. induction l as [|x l IH]; intros o; cbn [foldl]; [by left|].
  intros [H|H]%IH; [|right; by right]. destruct o as [b|]; cbn in H.
  - case_match; simplify_eq; [right; left|by left].
  - simplify_eq. right. left.
Qed.

(** A victim exists and is cached whenever the cache is not empty. *)
Lemma victim_spec (c : gmap nat CachedPage) :
  c ≠ ∅ → ∃ v pg, victim c = Some v ∧ c !! v = Some pg.
Proof.
  intros Hne. unfold victim. destruct (map_to_list c) as [|e l] eqn:Hl.
  { by apply map_to_list_empty_iff in Hl. }
  cbn [foldl older]. destruct (foldl_older_some e l) as [[v pg] H]. exists v, pg.
  rewrite H. split; [done|]. apply elem_of_map_to_list. rewrite Hl.
  apply foldl_older_in in H as [[= ->]|H]; [left|by right].
Qed.

Lemma evict_spec p :
  pager_wf p →
  ∃ r p', evict_if_needed p = (r, p') ∧ outcome_ok p r ∧ step_ok p p' ∧ pages p' = pages p ∧
    (∀ i, cache p !! i = None → cache p' !! i = None) ∧
    (r = Ok tt → base.size (cache p') < capacity p').
Proof.
  intros Hwf. unfold evict_if_needed. run_steps.
  case_match eqn:Hroom; nat_bools.
  { exists (Ok tt), p. split_and!; auto using step_refl; done. }
  destruct (victim_spec (cache p)) as (v & pg & Hv & Hpg).
  { intros He. rewrite He, map_size_empty in Hroom. destruct Hwf. lia. }
  rewrite Hv.
  destruct (flush_one_spec v p Hwf) as (r & p1 & Hrun & Hr & Hstep & Hpages & Hoth & Hdom & Hclean).
  destruct r as [[]|e|s]; [| |done].
  2: { erewrite M_bind_err by exact Hrun. exists (Err e), p1. split_and!; auto; [|done].
       intros i Hi. by rewrite Hoth by congruence. }
  erewrite M_bind_run by exact Hrun.
  destruct Hstep as [Hwf1 Hk1 Hp1 Hcap1 He1].
  destruct (proj2 Hdom (ex_intro _ _ Hpg)) as [pg1 Hpg1].
  assert (file_page (f_content (p_file p1)) v = Some (c_page pg1)) as Hf
    by (apply (wf_clean p1 Hwf1 v); [done|by apply Hclean]).
  assert (base.size (base.delete v (cache p1)) < capacity p) as Hsz.
  { rewrite map_size_delete_Some by eauto. pose proof (wf_size p1 Hwf1).
    assert (base.size (cache p1) ≠ 0); [|lia]. intros H0%map_size_empty_inv.
    rewrite H0 in Hpg1. by simplify_map_eq. }
  eexists (Ok tt), _. split; [reflexivity|]. split; [done|]. split; [|split_and!; cbn].
  - split; cbn; auto.
    + destruct Hwf1 as [H1 H2 H3 H4 H5]. split; cbn; auto; [lia| |].
      * intros i c [_ Hi]%lookup_delete_Some. by apply H3.
      * intros i c [_ Hi]%lookup_delete_Some. by apply H4.
    + intros i b Hb%Hk1. unfold view in *. cbn.
      destruct (decide (i = v)) as [->|]; simplify_map_eq; done.
  - done.
  - intros i Hi. destruct (decide (i = v)) as [->|]; simplify_map_eq. by rewrite Hoth.
  - intros _. by rewrite Hcap1.
Qed.

(** Caching a page that the file or the caller provides. *)
Lemma wf_cache p id pg n :
  pager_wf p → cache p !! id = None → base.size (cache p) < capacity p →
  length (c_page pg) = PAGE_SIZE → id < pages p →
  (dirty pg = false → file_page (f_content (p_file p)) id = Some (c_page pg)) →
  pager_wf (set_cache (<[id := pg]> (cache p)) (set_clock n p)).
Proof.
  intros [H1 H2 H3 H4 H5] Hid Hsz Hl Hlt Hd. split; cbn; auto.
  - rewrite map_size_insert_None by done. lia.
  - intros i c. rewrite lookup_insert_Some. intros [[<- <-]|[_ ?]]; eauto.
  - intros i c. rewrite lookup_insert_Some. intros [[<- <-]|[_ ?]]; eauto.
Qed.

Lemma wf_recache p id pg pg' n :
  pager_wf p → cache p !! id = Some pg → length (c_page pg') = PAGE_SIZE →
  (dirty pg' = false → file_page (f_content (p_file p)) id = Some (c_page pg')) →
  pager_wf (set_cache (<[id := pg']> (cache p)) (set_clock n p)).
Proof.
  intros [H1 H2 H3 H4 H5] Hid Hl Hd. pose proof (H3 _ _ Hid) as [_ Hlt]. split; cbn; auto.
  - by rewrite map_size_insert_Some.
  - intros i c. rewrite lookup_insert_Some. intros [[<- <-]|[_ ?]]; eauto.
  - intros i c. rewrite lookup_insert_Some. intros [[<- <-]|[_ ?]]; eauto.
Qed.

Lemma view_cache p id pg n i :
  view (set_cache (<[id := pg]> (cache p)) (set_clock n p)) i =
    if decide (i = id) then Some (c_page pg) else view p i.
Proof. unfold view. cbn. case_decide; simplify_map_eq; done. Qed.

(** [ensure_loaded] caches the page it is asked for, unless the file has no such
    page or the environment fails. *)
Lemma ensure_loaded_spec id p :
  pager_wf p → id < pages p →
  ∃ r p', ensure_loaded id p = (r, p') ∧
    (is_Some (view p id) → outcome_ok p r) ∧ (∀ s, r ≠ Panic s) ∧ step_ok p p' ∧ pages p' = pages p ∧
    (r = Ok tt → ∃ pg, cache p' !! id = Some pg).
Proof.
  intros Hwf Hlt. unfold ensure_loaded. run_steps.
  rewrite (proj2 (Nat.leb_gt _ _)) by done.
  destruct (cache p !! id) as [pg|] eqn:Hid.
  { exists (Ok tt), p. split_and!; eauto using step_refl; done. }
  destruct (evict_spec p Hwf) as (r & p1 & Hrun & Hr & Hstep & Hpages & Hnone & Hroom).
  destruct r as [[]|e|s]; [| |done].
  2: { erewrite M_bind_err by exact Hrun. exists (Err e), p1. by split_and!. }
  erewrite M_bind_run by exact Hrun.
  destruct (read_page_cases id (p_file p1)) as (f & Hc & Hs & Hread).
  assert (pager_wf (set_file f p1)) as Hwf2.
  { destruct (step_wf _ _ Hstep) as [H1 H2 H3 H4 H5]. split; cbn; rewrite ?Hc; auto. }
  assert (step_ok p (set_file f p1)) as Hstep2.
  { eapply step_trans; [exact Hstep|]. split; auto.
    - intros i b. unfold view. cbn. by rewrite Hc.
    - intros He. rewrite read_page_healthy in Hread by done. cbn.
      destruct Hread as [(b & [= _ <-] & _)|(e & [= _ <-])]; done. }
  destruct Hread as [(b & Hread & Hb)|(e & Hread)].
  - erewrite M_bind_run by (by apply on_file_run).
    eexists (Ok tt), _. split; [reflexivity|]. split; [done|]. split; [done|].
    split; [|split; [done|intros _; cbn; by simplify_map_eq; eauto]].
    eapply step_trans; [exact Hstep2|].
    assert (set_clock (clock p1) (set_file f p1) = set_file f p1) as Hck by done.
    change (set_cache _ (set_file f p1)) with
      (set_cache (<[id := MkCached b false (clock p1)]> (cache (set_file f p1)))
                 (set_clock (clock p1) (set_file f p1))).
    split; auto.
    + apply wf_cache; auto; cbn.
      * by eapply file_page_length.
      * by rewrite Hpages.
      * by rewrite Hc.
    + intros i b' Hi. rewrite view_cache. case_decide as Hii; [subst i|done].
      revert Hi. unfold view. cbn. rewrite Hnone by done. rewrite Hc. congruence.
  - erewrite M_bind_err by (by apply on_file_run).
    exists (Err e), (set_file f p1). split; [done|]. split; [|by split_and!].
    intros [b Hv] He. apply (step_keeps _ _ Hstep) in Hv. unfold view in Hv.
    rewrite Hnone in Hv by done.
    rewrite read_page_healthy, Hv in Hread by (by apply (step_env _ _ Hstep)). done.
Qed.

(** [read] returns the page's contents and disturbs nothing. *)
Lemma read_spec id p :
  pager_wf p →
  ∃ r p', read id p = (r, p') ∧ (is_Some (view p id) → id < pages p → outcome_ok p r) ∧
    (∀ s, r ≠ Panic s) ∧ step_ok p p' ∧ pages p' = pages p ∧
    (∀ b, r = Ok b → view p' id = Some b).
Proof.
  intros Hwf. destruct (decide (id < pages p)) as [Hlt|Hge].
  2: { exists (Err (IoError NotFound "pager: page not found")), p.
       unfold read, ensure_loaded. cbn. unfold mbind, M_bind, get_state.
       rewrite (proj2 (Nat.leb_le _ _)) by lia. cbn.
       split_and!; auto using step_refl; done. }
  destruct (ensure_loaded_spec id p Hwf Hlt) as (r & p1 & Hrun & Hr & Hnp & Hstep & Hpages & Hc).
  unfold read. destruct r as [[]|e|s]; [| |by destruct (Hnp s)].
  2: { erewrite M_bind_err by exact Hrun. exists (Err e), p1. split_and!; auto; done. }
  erewrite M_bind_run by exact Hrun. run_steps. cbn.
  destruct (Hc eq_refl) as [pg Hpg]. rewrite Hpg. run_steps. cbn.
  eexists (Ok (c_page pg)), _. split; [reflexivity|]. split; [done|]. split; [done|].
  pose proof (step_wf _ _ Hstep) as Hwf1.
  set (p2 := set_cache _ _).
  assert (∀ i, view p2 i = view p1 i) as Hv.
  { intros i. unfold p2, view. cbn. destruct (decide (i = id)) as [->|]; simplify_map_eq; done. }
  split; [|split; [done|]].
  - eapply step_trans; [exact Hstep|]. split; auto.
    + apply (wf_recache p1 id pg); auto; cbn; [by apply (wf_page p1 Hwf1 id)|by apply wf_clean].
    + intros i b. by rewrite Hv.
  - intros b [= <-]. rewrite Hv. unfold view. by rewrite Hpg.
Qed.

Lemma view_lt p i : pager_wf p → is_Some (view p i) → i < pages p.
Proof.
  intros Hwf [b Hb]. unfold view in Hb. destruct (cache p !! i) eqn:Hi; [by eapply wf_page|].
  unfold file_page in Hb. case_match eqn:Hl; [|done]. nat_bools. pose proof (wf_file p Hwf).
  pose proof page_pos. nia.
Qed.

Lemma set_pages_step p n : pager_wf p → pages p ≤ n → step_ok p (set_pages n p).
Proof.
  intros [H1 H2 H3 H4 H5] Hn. split; cbn; auto.
  - split; cbn; auto; [|nia]. intros i c Hi. apply H3 in Hi as [? ?]. split; [done|lia].
  - by intros i b.
Qed.

(** The last step of [write]: the page is cached, dirty. *)
Lemma write_cache p id bs :
  pager_wf p → id < pages p → length bs = PAGE_SIZE →
  (is_Some (cache p !! id) ∨ base.size (cache p) < capacity p) →
  let p' := set_cache (<[id := MkCached bs true (S (clock p))]> (cache p)) (set_clock (S (clock p)) p) in
  pager_wf p' ∧ ∀ i, view p' i = if decide (i = id) then Some bs else view p i.
Proof.
  intros Hwf Hlt Hl Hroom p'. split; [|intros i; apply view_cache].
  destruct (cache p !! id) as [pg|] eqn:Hid.
  - by apply (wf_recache p id pg).
  - destruct Hroom as [[? ?]|?]; [done|]. by apply wf_cache.
Qed.

(** [write] replaces one page, or fails and changes none. *)
Lemma write_spec id bs p :
  pager_wf p → id ≤ pages p → length bs = PAGE_SIZE →
  ∃ r p', write id bs p = (r, p') ∧ outcome_ok p r ∧ pages p' = Nat.max (pages p) (S id) ∧
    match r with
    | Ok _ => pager_wf p' ∧ capacity p' = capacity p ∧ view p' id = Some bs ∧
        (∀ i b, i ≠ id → view p i = Some b → view p' i = Some b) ∧
        (f_env (p_file p) = [] → f_env (p_file p') = [])
    | _ => step_ok p p'
    end.
Proof.
  intros Hwf Hle Hl. unfold write. run_steps. rewrite (proj2 (Nat.ltb_ge _ _)) by done.
  set (p1 := set_pages (Nat.max (pages p) (S id)) p).
  assert (step_ok p p1) as Hstep1 by (apply set_pages_step; [done|lia]).
  assert ((if id =? pages p then modify (set_pages (S (pages p))) else mret tt : pager unit) p
    = (Ok tt, p1)) as Hgrow.
  { unfold p1. case_match eqn:He; nat_bools.
    - subst. by rewrite Nat.max_r by lia.
    - rewrite Nat.max_l by lia. by destruct p. }
  erewrite M_bind_run by exact Hgrow.
  assert (∃ r p2, (match cache p !! id with Some _ => mret tt | None => evict_if_needed end : pager unit) p1
      = (r, p2) ∧ outcome_ok p r ∧ step_ok p p2 ∧ pages p2 = pages p1 ∧
      (r = Ok tt → is_Some (cache p2 !! id) ∨ base.size (cache p2) < capacity p2))
    as (r & p2 & Hrun & Hr & Hstep2 & Hpages & Hroom).
  { destruct (cache p !! id) as [pg|] eqn:Hid.
    - exists (Ok tt), p1. split_and!; eauto; done.
    - destruct (evict_spec p1 (step_wf _ _ Hstep1)) as (r & p2 & Hrun & Hr & Hstep & Hpages & _ & Hroom).
      exists r, p2. split_and!; eauto using step_trans. }
  destruct r as [[]|e|s]; [| |done].
  - erewrite M_bind_run by exact Hrun. eexists (Ok tt), _. split; [reflexivity|]. split; [done|].
    destruct (write_cache p2 id bs (step_wf _ _ Hstep2)) as [Hwf' Hv]; auto.
    { rewrite Hpages. cbn. lia. }
    split; [done|]. split_and!; auto.
    + cbn. apply (step_capacity _ _ Hstep2).
    + rewrite Hv. by rewrite decide_True.
    + intros i b Hi Hb. rewrite Hv, decide_False by done. by apply (step_keeps _ _ Hstep2).
    + apply (step_env _ _ Hstep2).
  - erewrite M_bind_err by exact Hrun. exists (Err e), p2. by split_and!.
Qed.

Lemma allocate_spec p :
  pager_wf p →
  ∃ r p', allocate p = (r, p') ∧ outcome_ok p r ∧ pages p' = S (pages p) ∧
    match r with
    | Ok id => pager_wf p' ∧ capacity p' = capacity p ∧ id = pages p ∧ view p' id = Some (zeros PAGE_SIZE) ∧
        (∀ i b, i ≠ id → view p i = Some b → view p' i = Some b) ∧
        (f_env (p_file p) = [] → f_env (p_file p') = [])
    | _ => step_ok p p'
    end.
Proof.
  intros Hwf. unfold allocate. run_steps.
  assert (step_ok p (set_pages (S (pages p)) p)) as Hstep by (apply set_pages_step; [done|lia]).
  destruct (write_spec (pages p) (zeros PAGE_SIZE) _ (step_wf _ _ Hstep)) as (r & p' & Hrun & Hr & Hpages & Hcase);
    [cbn; lia|apply length_zeros|].
  cbn in Hpages. rewrite Nat.max_l in Hpages by lia.
  destruct r as [[]|e|s]; [| |done].
  - erewrite M_bind_run by exact Hrun. eexists (Ok _), p'. split; [reflexivity|]. naive_solver.
  - erewrite M_bind_err by exact Hrun. exists (Err e), p'. split_and!; eauto using step_trans.
Qed.

Lemma set_len_cases n f :
  ∃ f', (set_len (Z.of_nat n) f = (Ok tt, f') ∧ f_content f' = resize n (f_content f) ∨
    ∃ e, set_len (Z.of_nat n) f = (Err e, f') ∧ f_content f' = f_content f ∧ f_env f ≠ []) ∧
    (f_env f = [] → f_env f' = []).
Proof.
  unfold set_len, resize, zeros. destruct f as [x c y env rd].
  assert ((Z.of_nat n <=? Z.of_nat (length c))%Z = (n <=? length c)) as Hb.
  { apply eq_true_iff_eq. rewrite Z.leb_le, Nat.leb_le. lia. }
  destruct env as [|[|k e] env];
    cbv [sys_call next_sys mbind M_bind get_state set_content modify mret M_ret fail
         f_exists f_content f_synced f_env f_reads]; rewrite ?Hb, ?Nat2Z.id.
  - eexists. split; [left; split; reflexivity|done].
  - eexists. split; [left; split; reflexivity|done].
  - eexists. split; [right; exists e; done|done].
Qed.

Lemma flush_loop_spec l p :
  pager_wf p →
  ∃ r p', for_each l flush_one p = (r, p') ∧ outcome_ok p r ∧ step_ok p p' ∧ pages p' = pages p ∧
    (r = Ok tt → ∀ i c', cache p' !! i = Some c' → dirty c' = true →
      i ∉ l ∧ ∃ c, cache p !! i = Some c ∧ dirty c = true).
Proof.
  revert p. induction l as [|id l IH]; intros p Hwf; cbn [for_each].
  { exists (Ok tt), p. split_and!; eauto using step_refl; [done|].
    intros _ i c Hi Hd. split; [apply not_elem_of_nil|eauto]. }
  destruct (flush_one_spec id p Hwf) as (r & p1 & Hrun & Hr & Hstep & Hpages & Hoth & _ & Hclean).
  destruct r as [[]|e|s]; [| |done].
  2: { erewrite M_bind_err by exact Hrun. exists (Err e), p1. by split_and!. }
  erewrite M_bind_run by exact Hrun.
  destruct (IH p1 (step_wf _ _ Hstep)) as (r & p2 & Hrun2 & Hr2 & Hstep2 & Hpages2 & Hd2).
  exists r, p2. split; [done|]. split_and!; eauto using step_trans; [|congruence|].
  - destruct r; [done| |done]. cbn in *. eauto using step_env.
  - intros Hok i c' Hi Hdi. destruct (Hd2 Hok i c' Hi Hdi) as (Hni & c & Hc & Hdc).
    destruct (decide (i = id)) as [->|Hne].
    + rewrite (Hclean eq_refl c Hc) in Hdc. done.
    + rewrite Hoth in Hc by done. split; [by apply not_elem_of_cons|eauto].
Qed.

Lemma elem_of_dirty_ids (m : gmap nat CachedPage) i c :
  m !! i = Some c → dirty c = true → i ∈ dirty_ids m.
Proof.
  intros Hi Hd. unfold dirty_ids. apply list_elem_of_fmap. exists (i, c). split; [done|].
  apply list_elem_of_filter. split; [done|]. by apply elem_of_map_to_list.
Qed.

(** [flush]: on success everything known of the pager is durable in the file,
    whose length is exact. *)
Lemma flush_spec p :
  pager_wf p →
  ∃ r p', flush p = (r, p') ∧ outcome_ok p r ∧ step_ok p p' ∧ pages p' = pages p ∧
    (r = Ok tt → length (f_synced (p_file p')) = pages p * PAGE_SIZE ∧
      f_content (p_file p') = f_synced (p_file p') ∧
      (∀ i b, view p i = Some b → file_page (f_synced (p_file p')) i = Some b) ∧
      (∀ i c, cache p' !! i = Some c → dirty c = false)).
Proof.
  intros Hwf. unfold flush. run_steps.
  destruct (flush_loop_spec (dirty_ids (cache p)) p Hwf) as (r & p1 & Hrun & Hr & Hstep & Hpages & Hd).
  destruct r as [[]|e|s]; [| |done].
  2: { erewrite M_bind_err by exact Hrun. exists (Err e), p1. by split_and!. }
  erewrite M_bind_run by exact Hrun. run_steps.
  pose proof (step_wf _ _ Hstep) as Hwf1.
  assert (∀ i c, cache p1 !! i = Some c → dirty c = false) as Hclean.
  { intros i c Hi. destruct (dirty c) eqn:Hdc; [|done].
    destruct (Hd eq_refl i c Hi Hdc) as (Hni & c0 & Hc0 & Hd0).
    destruct Hni. by eapply elem_of_dirty_ids. }
  destruct (set_len_cases (pages p1 * PAGE_SIZE) (p_file p1)) as (f & Hlen & Henv).
  assert (∀ g, f_content g = f_content (p_file p1) ∨
    f_content g = resize (pages p1 * PAGE_SIZE) (f_content (p_file p1)) →
    (f_env (p_file p1) = [] → f_env g = []) → step_ok p (set_file g p1)) as Hset.
  { intros g Hg Hge. eapply step_trans; [exact Hstep|].
    assert (∀ i b, i < pages p1 → file_page (f_content (p_file p1)) i = Some b →
      file_page (f_content g) i = Some b) as Hfp.
    { intros i b Hi. destruct Hg as [->| ->]; [done|]. by apply file_page_resize. }
    split; auto.
    - destruct Hwf1 as [H1 H2 H3 H4 H5]. split; cbn; auto.
      + intros i c Hi Hdi. apply Hfp; [by eapply H3|by apply H4].
      + destruct Hg as [->| ->]; [done|]. by rewrite length_resize.
    - intros i b Hb. pose proof (view_lt p1 i Hwf1 (ex_intro _ _ Hb)).
      revert Hb. unfold view. cbn. destruct (cache p1 !! i); [done|]. by apply Hfp. }
  destruct Hlen as [[Hlen Hc]|(e & Hlen & Hc & Hne)].
  2: { erewrite M_bind_err by (by apply on_file_run). exists (Err e), (set_file f p1).
       split_and!; auto; [|done]. cbn. eauto using step_env. }
  erewrite M_bind_run by (by apply on_file_run).
  destruct (sys_call_cases f) as (g & Hgc & Hgs & Hsync).
  assert (f_env f = [] → f_env g = [] ∧ sys_call f = (Ok tt, g)) as Hgenv.
  { intros He. destruct f as [x c y env rd]. cbn in He. subst env. cbn in *.
    destruct Hsync as [[= <-]|(? & [=])]. done. }
  destruct Hsync as [Hsync|[e Hsync]].
  - set (h := File (f_exists g) (f_content g) (f_content g) (f_env g) (f_reads g)).
    exists (Ok tt), (set_file h p1). split; [|split; [done|split; [|split; [done|]]]].
    + unfold on_file, zoom. cbn [p_file set_file]. unfold sync_all.
      by erewrite M_bind_run by exact Hsync.
    + apply Hset; cbn; [right; congruence|]. intros He. by apply Hgenv, Henv.
    + intros _. cbn. rewrite Hgc, Hc. split_and!; [rewrite length_resize, Hpages; done|done| |done].
      intros i b Hb%(step_keeps _ _ Hstep).
      pose proof (view_lt p1 i Hwf1 (ex_intro _ _ Hb)). apply file_page_resize; [done|].
      unfold view in Hb. destruct (cache p1 !! i) as [c|] eqn:Hi; [|done].
      injection Hb as <-. apply (wf_clean p1 Hwf1 i c Hi). by eapply Hclean.
  - exists (Err e), (set_file g p1). split; [|split; [|split; [|done]]].
    + unfold on_file, zoom. cbn [p_file set_file]. unfold sync_all.
      by erewrite M_bind_err by exact Hsync.
    + cbn. intros He. destruct (Hgenv (Henv (step_env _ _ Hstep He))) as [_ H']. congruence.
    + apply Hset; [right; congruence|]. intros He. by apply Hgenv, Henv.
Qed.

(** ** Opening *)

Lemma open_inner_wf cap trunc f p f' :
  open_inner cap trunc f = (Ok p, f') →
  pager_wf p ∧ capacity p = cap ∧ p_file p = f' ∧ cache p = ∅ ∧
  length (f_content f') = pages p * PAGE_SIZE ∧
  f_content f' = (if trunc then [] else f_content f).
Proof.
  unfold open_inner. case_match eqn:Hcap; [done|]. nat_bools. intros H.
  apply M_bind_ok in H as ([] & f1 & H1 & H). apply M_bind_ok in H as ([] & f2 & H2 & H).
  apply M_bind_ok in H as (len & f3 & H3 & H).
  destruct (len mod Z.of_nat PAGE_SIZE =? 0)%Z eqn:Hm; [|done]. cbn [negb] in H.
  unfold mbind, M_bind, get_state, mret, M_ret in H. injection H as <- <-.
  assert (f_content f1 = f_content f) as Hc1.
  { unfold create_file in H1. apply M_bind_ok in H1 as ([] & g & Hg & H1).
    apply M_bind_ok in H1 as ([] & g' & Hg' & H1). injection H1 as <-. cbn.
    destruct (sys_call_cases f) as (? & Hx & _ & [Hy|[? Hy]]); [|congruence].
    destruct (sys_call_cases g) as (? & Hx' & _ & [Hy'|[? Hy']]); congruence. }
  assert (f_content f2 = (if trunc then [] else f_content f)) as Hc2.
  { destruct trunc; injection H2 as <-; [done|congruence]. }
  assert (f_content f3 = f_content f2 ∧ len = Z.of_nat (length (f_content f3))) as [Hc3 ->].
  { unfold size in H3. apply M_bind_ok in H3 as ([] & g & Hg & H3). injection H3 as <- <-.
    destruct (sys_call_cases f2) as (? & Hx & _ & [Hy|[? Hy]]); [|congruence].
    split; [congruence|]. congruence. }
  apply Z.eqb_eq in Hm. pose proof page_pos as Hpos.
  assert (length (f_content f3) = Z.to_nat (Z.of_nat (length (f_content f3)) / Z.of_nat PAGE_SIZE) * PAGE_SIZE)
    as Hlen.
  { rewrite <- Nat2Z.inj_mod in Hm. rewrite <- Nat2Z.inj_div, Nat2Z.id.
    pose proof (Nat.div_mod (length (f_content f3)) PAGE_SIZE). lia. }
  split; [|cbn; split_and!; auto; congruence].
  split; cbn; [lia|rewrite map_size_empty; lia|by intros ? ? ?%lookup_empty_Some..|lia].
Qed.

(** ** Properties: histories of a pager *)

Inductive page_op : Type :=
| OpAllocate
| OpRead (id : PageId)
| OpWrite (id : PageId) (bs : bytes)
| OpFlush.

Inductive page_answer : Type := Done | Allocated (id : PageId) | Contents (bs : bytes).

Definition exec (o : page_op) : pager page_answer :=
  match o with
  | OpAllocate => id ← allocate; mret (Allocated id)
  | OpRead id => bs ← read id; mret (Contents bs)
  | OpWrite id bs => _ ← write id bs; mret Done
  | OpFlush => _ ← flush; mret Done
  end.

(** A buffer passed to [write] is an array of [PAGE_SIZE] bytes. *)
Definition op_ok (o : page_op) : Prop :=
  match o with OpWrite _ bs => length bs = PAGE_SIZE | _ => True end.

Inductive runs : Pager → list (page_op * io page_answer) → Pager → Prop :=
| runs_nil p : runs p [] p
| runs_step p tr p1 o r p2 :
    runs p tr p1 → op_ok o → exec o p1 = (r, p2) → runs p (tr ++ [(o, r)]) p2.

(** The contents last written to each page, as the caller saw it. *)
Definition note (m : gmap nat bytes) (e : page_op * io page_answer) : gmap nat bytes :=
  match e with
  | (OpAllocate, Ok (Allocated id)) => <[id := zeros PAGE_SIZE]> m
  | (OpWrite id bs, Ok _) => <[id := bs]> m
  | _ => m
  end.
Definition written (tr : list (page_op * io page_answer)) : gmap nat bytes := foldl note ∅ tr.

Definition promised (m : gmap nat bytes) (p : Pager) : Prop :=
  ∀ i b, m !! i = Some b → view p i = Some b.

Lemma promised_step m p p' : promised m p → step_ok p p' → promised m p'.
Proof. intros H Hs i b Hb. by apply (step_keeps _ _ Hs), H. Qed.

Lemma promised_insert m p p' id b :
  promised m p → view p' id = Some b →
  (∀ i b, i ≠ id → view p i = Some b → view p' i = Some b) → promised (<[id := b]> m) p'.
Proof.
  intros H Hid Hk i b'. rewrite lookup_insert_Some. intros [[<- <-]|[Hne Hb]]; auto.
Qed.

Lemma exec_spec o p m :
  pager_wf p → op_ok o → promised m p →
  ∃ r p', exec o p = (r, p') ∧ (∀ s, r ≠ Panic s) ∧ pager_wf p' ∧ capacity p' = capacity p ∧
    promised (note m (o, r)) p'.
Proof.
  intros Hwf Ho Hm. destruct o as [|id|id bs|]; cbn [exec].
  - destruct (allocate_spec p Hwf) as (r & p' & Hrun & Hr & _ & Hcase).
    destruct r as [id|e|s]; [| |done]; unfold mbind, M_bind; rewrite Hrun.
    + eexists (Ok _), p'. split; [done|]. destruct Hcase as (? & ? & ? & ? & ? & _).
      split_and!; [done..|]. by eapply promised_insert.
    + exists (Err e), p'. split_and!; [done|by destruct Hcase..|by eapply promised_step].
  - destruct (read_spec id p Hwf) as (r & p' & Hrun & _ & Hnp & Hstep & _ & _).
    unfold mbind, M_bind; rewrite Hrun. exists (match r with Ok b => Ok (Contents b) | Err e => Err e
      | Panic s => Panic s end), p'.
    split; [by destruct r|]. split; [destruct r; naive_solver|]. split_and!; [by destruct Hstep..|].
    eapply promised_step; [|done]. by destruct r.
  - destruct (decide (id ≤ pages p)) as [Hle|Hgt].
    2: { unfold write, mbind, M_bind, get_state. rewrite (proj2 (Nat.ltb_lt _ _)) by lia. cbn.
         eexists (Err _), p. by split_and!. }
    destruct (write_spec id bs p Hwf Hle Ho) as (r & p' & Hrun & Hr & _ & Hcase).
    destruct r as [[]|e|s]; [| |done]; unfold mbind, M_bind; rewrite Hrun.
    + eexists (Ok _), p'. split; [done|]. destruct Hcase as (? & ? & ? & ? & _).
      split_and!; [done..|]. by eapply promised_insert.
    + exists (Err e), p'. split_and!; [done|by destruct Hcase..|by eapply promised_step].
  - destruct (flush_spec p Hwf) as (r & p' & Hrun & Hr & Hstep & _ & _).
    unfold mbind, M_bind; rewrite Hrun. exists (match r with Ok b => Ok Done | Err e => Err e
      | Panic s => Panic s end), p'.
    split; [by destruct r|]. split; [destruct r; naive_solver|]. split_and!; [by destruct Hstep..|].
    eapply promised_step; [|done]. by destruct r.
Qed.

Lemma pager_runs_spec p tr p' :
  runs p tr p' → pager_wf p →
  pager_wf p' ∧ capacity p' = capacity p ∧ promised (written tr) p' ∧
  Forall (λ e, ∀ s, e.2 ≠ Panic s) tr.
Proof.
  intros Hr Hwf. induction Hr as [p|p tr p1 o r p2 Hr IH Ho Hx].
  - split_and!; auto. intros i b Hb. unfold written in Hb. cbn in Hb. by simplify_map_eq.
  - destruct (IH Hwf) as (Hwf1 & Hcap & Hm & Hnp).
    destruct (exec_spec o p1 _ Hwf1 Ho Hm) as (r' & p' & Hx' & Hnp' & Hwf2 & Hcap' & Hm').
    rewrite Hx in Hx'. injection Hx' as <- <-. split_and!; auto; [congruence| |].
    + unfold written. rewrite foldl_app. exact Hm'.
    + apply Forall_app. split; [done|]. by constructor.
Qed.

(** C21. A pager over any file is the array of pages its caller wrote: whatever
    the environment's failures and the evictions they interrupt, a read that
    succeeds returns what was last written to that page, the cache never exceeds
    its capacity, and no operation panics. *)
Theorem pager_reads_last_write cap trunc f p f' tr p' id w b p'' :
  open_inner cap trunc f = (Ok p, f') → runs p tr p' →
  written tr !! id = Some w → read id p' = (Ok b, p'') →
  b = w ∧ base.size (cache p'') ≤ cap ∧ Forall (λ e, ∀ s, e.2 ≠ Panic s) tr.
Proof.
  intros Ho Hr Hw Hread. apply open_inner_wf in Ho as (Hwf & Hcap & _).
  apply pager_runs_spec in Hr as (Hwf' & Hcap' & Hm & Hnp); [|done].
  destruct (read_spec id p' Hwf') as (r & p1 & Hrun & _ & _ & Hstep & _ & Hv).
  rewrite Hread in Hrun. injection Hrun as <- <-.
  pose proof (step_keeps _ _ Hstep _ _ (Hm _ _ Hw)) as H. rewrite (Hv b eq_refl) in H.
  split_and!; [congruence| |done].
  pose proof (wf_size _ (step_wf _ _ Hstep)). rewrite (step_capacity _ _ Hstep) in *. lia.
Qed.

(** C39. [flush] is the durability boundary: when it succeeds, every page written
    so far is in the part of the file that a crash keeps, and the file is exactly
    the allocated pages long. *)
Theorem flush_is_durable cap trunc f p f' tr p' p'' id w :
  open_inner cap trunc f = (Ok p, f') → runs p tr p' → flush p' = (Ok tt, p'') →
  written tr !! id = Some w →
  file_page (f_synced (p_file p'')) id = Some w ∧
  length (f_synced (p_file p'')) = pages p' * PAGE_SIZE ∧
  f_content (p_file p'') = f_synced (p_file p'').
Proof.
  intros Ho Hr Hflush Hw. apply open_inner_wf in Ho as (Hwf & _).
  apply pager_runs_spec in Hr as (Hwf' & _ & Hm & _); [|done].
  destruct (flush_spec p' Hwf') as (r & p1 & Hrun & _ & _ & _ & Hok).
  rewrite Hflush in Hrun. injection Hrun as <- <-.
  destruct (Hok eq_refl) as (Hlen & Hcont & Hall & _). auto.
Qed.

(** One page of cache, two pages of data: every write evicts the other page. *)
Definition demo_pager : Pager := MkPager (stored []) 1 0 0 ∅.
Definition page_of (c : u8) : bytes := replicate PAGE_SIZE c.
Definition demo_trace : list (page_op * io page_answer) :=
  [(OpAllocate, Ok (Allocated 0)); (OpAllocate, Ok (Allocated 1));
   (OpWrite 0 (page_of "a"), Ok Done); (OpWrite 1 (page_of "b"), Ok Done)].
Definition demo1 : Pager := snd (exec OpAllocate demo_pager).
Definition demo2 : Pager := snd (exec OpAllocate demo1).
Definition demo3 : Pager := snd (exec (OpWrite 0 (page_of "a")) demo2).
Definition after_demo : Pager := snd (exec (OpWrite 1 (page_of "b")) demo3).

Lemma demo_runs : runs demo_pager demo_trace after_demo.
Proof.
  apply (runs_step _ [_; _; _] demo3); [|apply length_replicate|vm_compute; reflexivity].
  apply (runs_step _ [_; _] demo2); [|apply length_replicate|vm_compute; reflexivity].
  apply (runs_step _ [_] demo1); [|done|vm_compute; reflexivity].
  apply (runs_step _ [] demo_pager); [constructor|done|vm_compute; reflexivity].
Qed.

Lemma demo_opened : open_inner 1 true (stored []) = (Ok demo_pager, stored []).
Proof. vm_compute. reflexivity. Qed.

Lemma demo_written : written demo_trace !! 0 = Some (page_of "a").
Proof. vm_compute. reflexivity. Qed.

Lemma pager_reads_last_write_witness :
  open_inner 1 true (stored []) = (Ok demo_pager, stored []) ∧ runs demo_pager demo_trace after_demo ∧
  written demo_trace !! 0 = Some (page_of "a") ∧
  read 0 after_demo = (Ok (page_of "a"), snd (read 0 after_demo)) ∧
  page_of "a" = page_of "a" ∧ base.size (cache (snd (read 0 after_demo))) ≤ 1 ∧
  Forall (λ e, ∀ s, e.2 ≠ Panic s) demo_trace.
Proof.
  assert (read 0 after_demo = (Ok (page_of "a"), snd (read 0 after_demo))) as H by (vm_compute; reflexivity).
  exact (conj demo_opened (conj demo_runs (conj demo_written (conj H
    (pager_reads_last_write _ _ _ _ _ _ _ _ _ _ _ demo_opened demo_runs demo_written H))))).
Defined.

Lemma flush_is_durable_witness :
  open_inner 1 true (stored []) = (Ok demo_pager, stored []) ∧ runs demo_pager demo_trace after_demo ∧
  flush after_demo = (Ok tt, snd (flush after_demo)) ∧ written demo_trace !! 0 = Some (page_of "a") ∧
  let f := p_file (snd (flush after_demo)) in
  file_page (f_synced f) 0 = Some (page_of "a") ∧ length (f_synced f) = pages after_demo * PAGE_SIZE ∧
  f_content f = f_synced f.
Proof.
  assert (flush after_demo = (Ok tt, snd (flush after_demo))) as H by (vm_compute; reflexivity).
  exact (conj demo_opened (conj demo_runs (conj H (conj demo_written
    (flush_is_durable _ _ _ _ _ _ _ _ _ _ demo_opened demo_runs H demo_written))))).
Defined.
