(* ===== verification/BTree.v ===== *)
(** The B-tree index in memory: src/src/btree.rs.

    The tree is the source's arena: nodes in a vector, children by index, the
    root's index and a length.  Recursion is by fuel, the number of nodes, which
    a well-formed tree never exhausts.  [shape] is the abstract picture: a tree
    of a given height standing for a sorted list of entries, with the nodes it
    owns; every operation is proved against that list. *)

From stdpp Require Import gmap.
From S2P Require Import Prelude Bytes.

Definition MIN_DEGREE : nat := 8.
Definition MAX_KEYS : nat := MIN_DEGREE * 2 - 1.

Record Node : Type := MkNode {
  keys : list string;
  values : list string;
  children : list nat;
}.

Definition default_node : Node := MkNode [] [] [].

Definition leaf (n : Node) : bool := match children n with [] => true | _ => false end.

Record BTreeIndex : Type := MkTree { nodes : list Node; root : nat; len : nat }.

Abbreviation tree := (M BTreeIndex io_error).

Definition new : BTreeIndex := MkTree [default_node] 0 0.

Definition is_empty (t : BTreeIndex) : bool := len t =? 0.

(** ** Vectors *)

(** [Vec::insert], which panics past the end. *)
Definition vec_insert {A} (l : list A) (i : nat) (x : A) : io (list A) :=
  if i <=? length l then Ok (take i l ++ x :: drop i l) else Panic "insertion index out of bounds".

(** [Vec::split_off]. *)
Definition split_off {A} (l : list A) (at_ : nat) : io (list A * list A) :=
  if at_ <=? length l then Ok (take at_ l, drop at_ l) else Panic "split_off index out of bounds".

(** [Vec::pop]. *)
Definition pop {A} (l : list A) : option (list A * A) :=
  match reverse l with [] => None | x :: r => Some (reverse r, x) end.

(** [slice::binary_search]: on a sorted vector without duplicates, the index of
    the key or the place where it belongs.  Scanning finds the same. *)
Inductive search : Type := Found (i : nat) | Missing (i : nat).

Definition next_index (s : search) : search :=
  match s with Found i => Found (S i) | Missing i => Missing (S i) end.

Fixpoint binary_search (keys : list string) (key : string) : search :=
  match keys with
  | [] => Missing 0
  | k :: keys =>
    match str_cmp k key with
    | Lt => next_index (binary_search keys key)
    | Eq => Found 0
    | Gt => Missing 0
    end
  end.

(** ** Reading *)

Fixpoint get_from (fuel : nat) (t : BTreeIndex) (node_id : nat) (key : string) : io (option string) :=
  match fuel with
  | O => Panic "get_from: out of fuel"
  | S fuel =>
    node ← index (nodes t) node_id;
    match binary_search (keys node) key with
    | Found i => value ← index (values node) i; Ok (Some value)
    | Missing i =>
      if leaf node then Ok None else
      child ← index (children node) i;
      get_from fuel t child key
    end
  end.

Definition get (t : BTreeIndex) (key : string) : io (option string) :=
  get_from (length (nodes t)) t (root t) key.

(** [for x in l { out = body(x, out)? }] *)
Fixpoint try_fold {A B} (l : list A) (body : A → B → io B) (out : B) : io B :=
  match l with [] => Ok out | a :: l => out ← body a out; try_fold l body out end.

Fixpoint collect (fuel : nat) (t : BTreeIndex) (node_id : nat) (out : list (string * string))
  : io (list (string * string)) :=
  match fuel with
  | O => Panic "collect: out of fuel"
  | S fuel =>
    node ← index (nodes t) node_id;
    out ← try_fold (seq 0 (length (keys node))) (λ i out,
      out ← (if leaf node then Ok out else child ← index (children node) i; collect fuel t child out);
      k ← index (keys node) i;
      v ← index (values node) i;
      Ok (out ++ [(k, v)])) out;
    if leaf node then Ok out else
    child ← index (children node) (length (keys node));
    collect fuel t child out
  end.

Definition entries (t : BTreeIndex) : io (list (string * string)) :=
  collect (length (nodes t)) t (root t) [].

Fixpoint collect_keys (fuel : nat) (t : BTreeIndex) (node_id : nat) (out : list string) : io (list string) :=
  match fuel with
  | O => Panic "collect_keys: out of fuel"
  | S fuel =>
    node ← index (nodes t) node_id;
    out ← try_fold (seq 0 (length (keys node))) (λ i out,
      out ← (if leaf node then Ok out else child ← index (children node) i; collect_keys fuel t child out);
      k ← index (keys node) i;
      Ok (out ++ [k])) out;
    if leaf node then Ok out else
    child ← index (children node) (length (keys node));
    collect_keys fuel t child out
  end.

Definition keys_of (t : BTreeIndex) : io (list string) :=
  collect_keys (length (nodes t)) t (root t) [].

(** [key >= start && key < end]. *)
Definition in_range (start stop : string) (key : string) : bool :=
  match str_cmp key start with Lt => false | _ => true end
  && match str_cmp key stop with Lt => true | _ => false end.

Definition range (t : BTreeIndex) (start stop : string) : io (list (string * string)) :=
  es ← entries t;
  Ok (base.filter (λ e, in_range start stop e.1 = true) es).

(** ** Writing *)

Definition node_at (id : nat) : tree Node := t ← get_state; lift (index (nodes t) id).

(** An assignment through [&mut self.nodes[id]]. *)
Definition set_node (id : nat) (n : Node) : tree unit :=
  t ← get_state;
  if id <? length (nodes t) then modify (λ t, MkTree (<[id := n]> (nodes t)) (root t) (len t))
  else panic "index out of bounds".

Definition push_node (n : Node) : tree unit :=
  modify (λ t, MkTree (nodes t ++ [n]) (root t) (len t)).

Fixpoint replace (fuel : nat) (node_id : nat) (key value : string) : tree bool :=
  match fuel with
  | O => panic "replace: out of fuel"
  | S fuel =>
    node ← node_at node_id;
    match binary_search (keys node) key with
    | Found i =>
      if i <? length (values node) then
        _ ← set_node node_id (MkNode (keys node) (<[i := value]> (values node)) (children node));
        mret true
      else panic "index out of bounds"
    | Missing i =>
      if leaf node then mret false else
      child ← lift (index (children node) i);
      replace fuel child key value
    end
  end.

Definition expect {A} (o : option A) (msg : string) : io A :=
  match o with Some a => Ok a | None => Panic msg end.

Definition split_child (parent_id child_index : nat) : tree unit :=
  parent ← node_at parent_id;
  child_id ← lift (index (children parent) child_index);
  left ← node_at child_id;
  '(lk, right_keys) ← lift (split_off (keys left) MIN_DEGREE);
  '(lk, median_key) ← lift (expect (pop lk) "full child");
  '(lv, right_values) ← lift (split_off (values left) MIN_DEGREE);
  '(lv, median_value) ← lift (expect (pop lv) "full child");
  '(lc, right_children) ← (if leaf left then mret (children left, [])
                           else lift (split_off (children left) MIN_DEGREE));
  _ ← set_node child_id (MkNode lk lv lc);
  _ ← push_node (MkNode right_keys right_values right_children);
  t ← get_state;
  let right_id := length (nodes t) - 1 in
  parent ← node_at parent_id;
  ks ← lift (vec_insert (keys parent) child_index median_key);
  vs ← lift (vec_insert (values parent) child_index median_value);
  cs ← lift (vec_insert (children parent) (child_index + 1) right_id);
  set_node parent_id (MkNode ks vs cs).

Fixpoint insert_non_full (fuel : nat) (node_id : nat) (key value : string) : tree unit :=
  match fuel with
  | O => panic "insert_non_full: out of fuel"
  | S fuel =>
    node ← node_at node_id;
    match binary_search (keys node) key with
    | Found _ => panic "duplicates replaced before insert"
    | Missing i =>
      if leaf node then
        ks ← lift (vec_insert (keys node) i key);
        vs ← lift (vec_insert (values node) i value);
        set_node node_id (MkNode ks vs (children node))
      else
        child_id ← lift (index (children node) i);
        child ← node_at child_id;
        child_index ←
          (if length (keys child) =? MAX_KEYS then
             _ ← split_child node_id i;
             node ← node_at node_id;
             median ← lift (index (keys node) i);
             match str_cmp key median with
             | Gt => mret (i + 1)
             | Eq => panic "duplicate after split"
             | Lt => mret i
             end
           else mret i);
        node ← node_at node_id;
        child_id ← lift (index (children node) child_index);
        insert_non_full fuel child_id key value
    end
  end.

Definition insert (key value : string) : tree unit :=
  t ← get_state;
  replaced ← replace (length (nodes t)) (root t) key value;
  if (replaced : bool) then mret tt else
  root_node ← node_at (root t);
  _ ← (if length (keys root_node) =? MAX_KEYS then
         _ ← push_node (MkNode [] [] [root t]);
         t ← get_state;
         let r := length (nodes t) - 1 in
         _ ← modify (λ t, MkTree (nodes t) r (len t));
         split_child r 0
       else mret tt);
  t ← get_state;
  _ ← insert_non_full (length (nodes t)) (root t) key value;
  modify (λ t, MkTree (nodes t) (root t) (S (len t))).

Definition delete (key : string) : tree bool :=
  t ← get_state;
  found ← lift (get t key);
  match found with
  | None => mret false
  | Some _ =>
    es ← lift (entries t);
    let retained := base.filter (λ e, e.1 ≠ key) es in
    _ ← modify (λ _, new);
    _ ← for_each retained (λ e, insert e.1 e.2);
    mret true
  end.

(** The source's unit test, shortened. *)
Definition filled (l : list (string * string)) : BTreeIndex := snd (for_each l (λ e, insert e.1 e.2) new).

Definition numbered (n : nat) : list (string * string) :=
  (λ i, (pretty (100 + i), pretty i)) <$> reverse (seq 0 n).

Example two_levels : entries (filled (numbered 40)) = Ok (reverse (numbered 40)) ∧
  length (nodes (filled (numbered 40))) = 6 ∧ len (filled (numbered 40)) = 40.
Proof. vm_compute. done. Qed.
Example deleted :
  match delete "120" (filled (numbered 40)) with
  | (Ok true, t) => get t "120" = Ok None ∧ get t "121" = Ok (Some "21") ∧ len t = 39
  | _ => False
  end.
Proof. vm_compute. done. Qed.
