(* ===== verification/BTreeSpec.v ===== *)
(** The B-tree against sorted association lists: the proofs of BTree.v.

    [shape h lo ns s] says that the arena [ns] holds at [s_id s] a tree of
    height [h] that owns the nodes [s_foot s] and stands for the entries
    [s_ents s] in order; [lo] is the least number of keys of its top node.
    [upsert] and [list_to_map] are the reference operations. *)

From stdpp Require Import gmap.
From S2P Require Import Prelude Bytes BTree.

Abbreviation entry := (string * string)%type.

(** ** The order of keys *)

Lemma str_cmp_eq a b : str_cmp a b = Eq ↔ a = b.
Proof.
  unfold str_cmp. split; [apply String.compare_eq_iff|]. intros ->.
  pose proof (String.compare_antisym b b) as H. by destruct (String.compare b b).
Qed.

Lemma str_cmp_gt a b : str_cmp a b = Gt ↔ str_lt b a.
Proof.
  unfold str_lt, str_cmp. rewrite (String.compare_antisym a b). by destruct (String.compare b a).
Qed.

Lemma str_lt_irrefl a : ¬ str_lt a a.
Proof. unfold str_lt. rewrite (proj2 (str_cmp_eq a a) eq_refl). done. Qed.

Lemma str_lt_le a b : str_lt a b → String.le a b ∧ a ≠ b.
Proof.
  intros H. split; [|by intros ->; apply str_lt_irrefl in H].
  unfold String.le, String.leb. unfold str_lt, str_cmp in H. by rewrite H.
Qed.

Lemma str_le_lt a b : String.le a b → a ≠ b → str_lt a b.
Proof.
  unfold String.le, String.leb, str_lt, str_cmp. intros H Hne.
  destruct (String.compare a b) eqn:Hc; [|done|done]. by apply String.compare_eq_iff in Hc.
Qed.

#[export] Instance str_lt_trans : Transitive str_lt.
Proof.
  intros a b c [Hab _]%str_lt_le Hbc. pose proof Hbc as [Hbc' _]%str_lt_le.
  apply str_le_lt; [by etrans|]. intros ->.
  assert (b = c) as -> by (by apply (anti_symm String.le)). by apply str_lt_irrefl in Hbc.
Qed.

Lemma str_lt_ne a b : str_lt a b → a ≠ b.
Proof. by intros [_ ?]%str_lt_le. Qed.

(** ** Sorted association lists *)

Definition before (k : string) (e : entry) : Prop := str_lt e.1 k.
Definition after (k : string) (e : entry) : Prop := str_lt k e.1.
Definition sorted (es : list entry) : Prop := StronglySorted (λ e e', str_lt e.1 e'.1) es.

Fixpoint upsert (k v : string) (es : list entry) : list entry :=
  match es with
  | [] => [(k, v)]
  | (k', v') :: es' =>
    match str_cmp k k' with
    | Lt => (k, v) :: es
    | Eq => (k, v) :: es'
    | Gt => (k', v') :: upsert k v es'
    end
  end.

Lemma sorted_cons e es : sorted (e :: es) ↔ Forall (after e.1) es ∧ sorted es.
Proof. split; [by inversion 1|]. intros [H1 H2]. by constructor. Qed.

Lemma sorted_app es es' :
  sorted (es ++ es') ↔ sorted es ∧ sorted es' ∧ (∀ e e', e ∈ es → e' ∈ es' → str_lt e.1 e'.1).
Proof.
  induction es as [|x es IH]; cbn [app].
  - split; [|naive_solver]. intros H. split_and!; [constructor|done|]. intros e e' He. by apply elem_of_nil in He.
  - rewrite !sorted_cons, IH, Forall_app, !Forall_forall. unfold after. split.
    + intros ([H1 H2] & H3 & H4 & H5). split_and!; auto.
      intros e e' [->|He]%elem_of_cons He'; auto.
    + intros ([H1 H2] & H3 & H4). split_and!; auto.
      * intros e He. apply H4; [left|done].
      * intros e e' He. apply H4. by right.
Qed.

Lemma sorted_nil : sorted [].
Proof. constructor. Qed.

Lemma upsert_skip k v pre es : Forall (before k) pre → upsert k v (pre ++ es) = pre ++ upsert k v es.
Proof.
  induction 1 as [|[k' v'] pre Hk _ IH]; cbn [app upsert]; [done|].
  unfold before in Hk. cbn in Hk. by rewrite (proj2 (str_cmp_gt k k') Hk), IH.
Qed.

Lemma upsert_stop k v es post : Forall (after k) post → upsert k v (es ++ post) = upsert k v es ++ post.
Proof.
  intros Hp. induction es as [|[k' v'] es IH]; cbn [app upsert].
  - destruct Hp as [|[k' v'] post Hk _]; cbn [upsert]; [done|]. unfold after, str_lt in Hk. cbn in Hk. by rewrite Hk.
  - case_match; cbn; [done|done|]. by rewrite IH.
Qed.

Lemma upsert_mid k v pre es post :
  Forall (before k) pre → Forall (after k) post → upsert k v (pre ++ es ++ post) = pre ++ upsert k v es ++ post.
Proof. intros. by rewrite upsert_skip, upsert_stop. Qed.

Lemma upsert_new k v pre post :
  Forall (before k) pre → Forall (after k) post → upsert k v (pre ++ post) = pre ++ (k, v) :: post.
Proof. intros H1 H2. rewrite upsert_skip by done. f_equal. apply (upsert_stop _ _ []). done. Qed.

Lemma upsert_found k v w pre post :
  Forall (before k) pre → upsert k v (pre ++ (k, w) :: post) = pre ++ (k, v) :: post.
Proof. intros H. rewrite upsert_skip by done. cbn [upsert]. by rewrite (proj2 (str_cmp_eq k k)). Qed.

Lemma elem_of_upsert k v es e : e ∈ upsert k v es → e = (k, v) ∨ e ∈ es.
Proof.
  induction es as [|[k' v'] es IH]; cbn [upsert]; [by intros ->%list_elem_of_singleton; left|].
  case_match; rewrite ?elem_of_cons; naive_solver.
Qed.

Lemma sorted_upsert k v es : sorted es → sorted (upsert k v es).
Proof.
  induction es as [|[k' v'] es IH]; cbn [upsert]; intros Hs.
  { apply sorted_cons. split; [constructor|apply sorted_nil]. }
  pose proof Hs as [Ha Hs']%sorted_cons. cbn in Ha. destruct (str_cmp k k') eqn:Hc.
  - apply str_cmp_eq in Hc as ->. by apply sorted_cons.
  - apply sorted_cons. split; [|done]. constructor; [exact Hc|].
    eapply Forall_impl; [exact Ha|]. unfold after. cbn. intros e He. by etrans.
  - apply str_cmp_gt in Hc. apply sorted_cons. split; [|by apply IH].
    apply Forall_forall. intros e [->|He]%elem_of_upsert; [exact Hc|]. by rewrite Forall_forall in Ha; apply Ha.
Qed.

Lemma before_not_in k es : Forall (before k) es → k ∉ es.*1.
Proof.
  intros H (e & -> & He)%list_elem_of_fmap. rewrite Forall_forall in H.
  apply H in He. by apply str_lt_irrefl in He.
Qed.
Lemma after_not_in k es : Forall (after k) es → k ∉ es.*1.
Proof.
  intros H (e & -> & He)%list_elem_of_fmap. rewrite Forall_forall in H.
  apply H in He. by apply str_lt_irrefl in He.
Qed.

Lemma sorted_NoDup es : sorted es → NoDup es.*1.
Proof.
  induction es as [|e es IH]; cbn; [constructor|].
  intros [Ha Hs]%sorted_cons. constructor; [by apply after_not_in|auto].
Qed.

Lemma map_upsert k v es :
  sorted es → (list_to_map (upsert k v es) : gmap string string) = <[k := v]> (list_to_map es).
Proof.
  induction es as [|[k' v'] es IH]; cbn [upsert]; intros Hs; [done|].
  apply sorted_cons in Hs as [Ha Hs]. destruct (str_cmp k k') eqn:Hc; rewrite !list_to_map_cons.
  - apply str_cmp_eq in Hc as ->. by rewrite insert_insert_eq.
  - done.
  - rewrite IH by done. apply insert_insert_ne. apply str_cmp_gt, str_lt_ne in Hc. done.
Qed.

Lemma length_upsert k v es :
  sorted es → length (upsert k v es) = if decide (k ∈ es.*1) then length es else S (length es).
Proof.
  induction es as [|[k' v'] es IH]; cbn [upsert fmap list_fmap fst]; intros Hs; [done|].
  apply sorted_cons in Hs as [Ha Hs]. cbn in *. destruct (str_cmp k k') eqn:Hc; cbn [length].
  - apply str_cmp_eq in Hc as ->. rewrite decide_True by left. done.
  - rewrite decide_False; [done|]. intros [->|He]%elem_of_cons; [by apply str_lt_irrefl in Hc|].
    apply list_elem_of_fmap in He as (e & -> & He). rewrite Forall_forall in Ha. apply Ha in He.
    apply (str_lt_irrefl e.1). unfold after in He. by etrans.
  - rewrite IH by done. apply str_cmp_gt, str_lt_ne in Hc.
    do 2 case_decide; rewrite elem_of_cons in *; naive_solver.
Qed.

Lemma map_mid k pre es post :
  Forall (before k) pre → Forall (after k) post →
  (list_to_map (pre ++ es ++ post) : gmap string string) !! k = (list_to_map es : gmap string string) !! k.
Proof.
  intros H1%before_not_in%not_elem_of_list_to_map_1 H2%after_not_in%not_elem_of_list_to_map_1.
  rewrite !list_to_map_app. rewrite lookup_union_r by done. by rewrite lookup_union_l.
Qed.

Lemma elem_of_map k es : k ∈ es.*1 ↔ is_Some ((list_to_map es : gmap string string) !! k).
Proof.
  rewrite <- not_eq_None_Some. split.
  - intros H1 H2. by apply not_elem_of_list_to_map_2 in H2.
  - intros H. destruct (decide (k ∈ es.*1)); [done|]. by destruct H; apply not_elem_of_list_to_map_1.
Qed.

(** ** Searching a node *)

Lemma binary_search_spec (kvs : list entry) key :
  sorted kvs →
  match binary_search kvs.*1 key with
  | Found i => ∃ k1 v k2, kvs = k1 ++ (key, v) :: k2 ∧ i = length k1 ∧ Forall (before key) k1
  | Missing i => ∃ k1 k2, kvs = k1 ++ k2 ∧ i = length k1 ∧ Forall (before key) k1 ∧ Forall (after key) k2
  end.
Proof.
  induction kvs as [|[k v] kvs IH]; cbn [fmap list_fmap fst binary_search]; intros Hs.
  { by exists [], []. }
  apply sorted_cons in Hs as [Ha Hs]. cbn in Ha. destruct (str_cmp k key) eqn:Hc.
  - apply str_cmp_eq in Hc as ->. exists [], v, kvs. by split_and!.
  - specialize (IH Hs). destruct (binary_search kvs.*1 key); cbn [next_index].
    + destruct IH as (k1 & w & k2 & -> & -> & Hb). exists ((k, v) :: k1), w, k2.
      split_and!; [done..|]. by constructor.
    + destruct IH as (k1 & k2 & -> & -> & Hb & Hk2). exists ((k, v) :: k1), k2.
      split_and!; [done..| |done]. by constructor.
  - apply str_cmp_gt in Hc. exists [], ((k, v) :: kvs). split_and!; [done..|].
    constructor; [done|]. eapply Forall_impl; [exact Ha|]. unfold after. cbn. intros e He. by etrans.
Qed.

(** ** Entries of a node: those of its subtrees between its own *)

Record sub : Type := Sub { s_id : nat; s_foot : list nat; s_ents : list entry }.

Definition flank_l (subs : list sub) (kvs : list entry) : list entry :=
  concat (zip_with (λ s kv, s_ents s ++ [kv]) subs kvs).
Definition flank_r (kvs : list entry) (subs : list sub) : list entry :=
  concat (zip_with (λ kv s, kv :: s_ents s) kvs subs).
Definition node_ents (subs : list sub) (kvs : list entry) : list entry :=
  match subs with [] => kvs | s :: subs => s_ents s ++ flank_r kvs subs end.

Lemma node_ents_split s1 c s2 k1 k2 :
  length s1 = length k1 →
  node_ents (s1 ++ c :: s2) (k1 ++ k2) = flank_l s1 k1 ++ s_ents c ++ flank_r k2 s2.
Proof.
  revert k1. induction s1 as [|s s1 IH]; intros [|kv k1] Hl; try discriminate Hl; [done|].
  injection Hl as Hl. specialize (IH k1 Hl).
  change (flank_l (s :: s1) (kv :: k1)) with ((s_ents s ++ [kv]) ++ flank_l s1 k1).
  rewrite <- !app_assoc, <- IH. cbn [app node_ents]. f_equal.
  destruct s1 as [|s' s1], k1 as [|kv' k1]; try discriminate Hl; done.
Qed.

Lemma flank_l_snoc s1 k1 s kv :
  length s1 = length k1 → flank_l (s1 ++ [s]) (k1 ++ [kv]) = flank_l s1 k1 ++ s_ents s ++ [kv].
Proof.
  intros Hl. unfold flank_l. rewrite zip_with_app by done. rewrite concat_app. cbn. by rewrite app_nil_r.
Qed.

Lemma flank_l_before key s1 k1 :
  length s1 = length k1 → sorted (flank_l s1 k1) → Forall (before key) k1 → Forall (before key) (flank_l s1 k1).
Proof.
  revert k1. induction s1 as [|s s1 IH]; intros [|kv k1] Hl Hs Hk; try discriminate Hl; [constructor|].
  change (flank_l (s :: s1) (kv :: k1)) with ((s_ents s ++ [kv]) ++ flank_l s1 k1) in *.
  apply sorted_app in Hs as (Hs1 & Hs2 & _). apply Forall_cons in Hk as [Hkv Hk].
  apply Forall_app. split; [|apply IH; auto]. apply sorted_app in Hs1 as (_ & _ & Hlt).
  apply Forall_app. split; [|by constructor]. apply Forall_forall. intros e He.
  unfold before in *. etrans; [apply (Hlt e kv)|]; [done|left|done].
Qed.

Lemma flank_r_after key k2 s2 :
  length s2 = length k2 → sorted (flank_r k2 s2) → Forall (after key) k2 → Forall (after key) (flank_r k2 s2).
Proof.
  revert k2. induction s2 as [|s s2 IH]; intros [|kv k2] Hl Hs Hk; try discriminate Hl; [constructor|].
  change (flank_r (kv :: k2) (s :: s2)) with ((kv :: s_ents s) ++ flank_r k2 s2) in *.
  apply sorted_app in Hs as (Hs1 & Hs2 & _). apply Forall_cons in Hk as [Hkv Hk].
  apply Forall_app. split; [|apply IH; auto]. apply sorted_cons in Hs1 as [Ha _].
  constructor; [done|]. eapply Forall_impl; [exact Ha|]. unfold after in *. intros e He. by etrans.
Qed.

(** A node of a tree of height 0 has no subtrees, an inner one more than keys. *)
Definition arity (kvs : list entry) (subs : list sub) : Prop := subs = [] ∨ length subs = S (length kvs).

Lemma flank_r_in kvs subs e : length subs = length kvs → e ∈ kvs → e ∈ flank_r kvs subs.
Proof.
  revert subs. induction kvs as [|kv kvs IH]; intros [|s subs] Hl He; try discriminate Hl.
  - by apply elem_of_nil in He.
  - change (flank_r (kv :: kvs) (s :: subs)) with (kv :: (s_ents s ++ flank_r kvs subs)).
    apply elem_of_cons in He as [->|He]; [left|]. right. apply elem_of_app. right.
    injection Hl as Hl. by apply IH.
Qed.

Lemma sorted_node_keys subs kvs : arity kvs subs → sorted (node_ents subs kvs) → sorted kvs.
Proof.
  intros [->|Hl]; [done|]. destruct subs as [|s subs]; [discriminate Hl|]. injection Hl as Hl.
  cbn [node_ents]. intros (_ & Hs & _)%sorted_app. revert subs Hl Hs.
  induction kvs as [|kv kvs IH]; intros [|s' subs] Hl Hs; try discriminate Hl; [done|].
  change (flank_r (kv :: kvs) (s' :: subs)) with ([kv] ++ s_ents s' ++ flank_r kvs subs) in Hs.
  apply sorted_app in Hs as (_ & Hs & Hlt). apply sorted_app in Hs as (_ & Hs & _).
  injection Hl as Hl. apply sorted_cons. split; [|by eapply IH].
  apply Forall_forall. intros e He. apply Hlt; [left|]. apply elem_of_app. right. by apply flank_r_in.
Qed.

(** ** Trees in the arena *)

Definition node_ok (lo : nat) (ns : list Node) (s : sub) (kvs : list entry) (subs : list sub) : Prop :=
  ns !! s_id s = Some (MkNode kvs.*1 kvs.*2 (s_id <$> subs)) ∧
  lo ≤ length kvs ≤ MAX_KEYS ∧
  s_foot s = s_id s :: (subs ≫= s_foot) ∧
  s_ents s = node_ents subs kvs.

Fixpoint shape (h : nat) (lo : nat) (ns : list Node) (s : sub) : Prop :=
  ∃ kvs subs, node_ok lo ns s kvs subs ∧
    match h with
    | O => subs = []
    | S h => length subs = S (length kvs) ∧ Forall (shape h (MIN_DEGREE - 1) ns) subs
    end.

Lemma shape_inv h lo ns s :
  shape h lo ns s → ∃ kvs subs, node_ok lo ns s kvs subs ∧ arity kvs subs ∧
    Forall (λ c, ∃ h', h = S h' ∧ shape h' (MIN_DEGREE - 1) ns c) subs.
Proof.
  destruct h; intros (kvs & subs & Hn & Hc); exists kvs, subs; (split; [done|]); unfold arity.
  - subst. split; [by left|constructor].
  - destruct Hc as [Hl Hc]. split; [by right|]. eapply Forall_impl; [exact Hc|]. cbn. eauto.
Qed.

Lemma shape_frame h lo ns ns' s :
  shape h lo ns s → (∀ i, i ∈ s_foot s → ns' !! i = ns !! i) → shape h lo ns' s.
Proof.
  revert lo s. induction h as [|h IH]; intros lo s (kvs & subs & (Hn & Hl & Hf & He) & Hc) Heq;
    exists kvs, subs; (split; [refine (conj _ (conj Hl (conj Hf He))); by rewrite Heq by (rewrite Hf; left)|]);
    [done|].
  destruct Hc as [Hlen Hc]. split; [done|]. rewrite Forall_forall in Hc |- *. intros c Hin.
  apply IH; [by apply Hc|]. intros i Hi. apply Heq. rewrite Hf. right. apply list_elem_of_bind. eauto.
Qed.

Lemma shape_foot h lo ns s i : shape h lo ns s → i ∈ s_foot s → i < length ns.
Proof.
  revert lo s. induction h as [|h IH]; intros lo s (kvs & subs & (Hn & Hl & Hf & He) & Hc) Hi;
    rewrite Hf in Hi; apply elem_of_cons in Hi as [->|Hi]; try (by eapply lookup_lt_Some).
  - subst subs. by apply elem_of_nil in Hi.
  - destruct Hc as [_ Hc]. apply list_elem_of_bind in Hi as (c & Hi & Hin).
    rewrite Forall_forall in Hc. by eapply IH; [apply Hc|].
Qed.

Lemma shape_height h lo ns s : shape h lo ns s → h < length (s_foot s).
Proof.
  revert lo s. induction h as [|h IH]; intros lo s (kvs & subs & (Hn & Hl & Hf & He) & Hc); rewrite Hf; cbn [length].
  - lia.
  - destruct Hc as [Hlen Hc]. destruct subs as [|c subs]; [discriminate Hlen|].
    apply Forall_cons in Hc as [Hc _]. apply IH in Hc. cbn. rewrite length_app. lia.
Qed.

Lemma bounded_length (l : list nat) n : NoDup l → (∀ i, i ∈ l → i < n) → length l ≤ n.
Proof.
  intros Hnd Hb. rewrite <- (length_seq n 0). apply submseteq_length, NoDup_submseteq; [done|].
  intros i Hi%Hb. apply elem_of_seq. lia.
Qed.

(** The number of nodes is fuel enough for a descent. *)
Lemma shape_fuel h lo ns s : shape h lo ns s → NoDup (s_foot s) → h < length ns.
Proof.
  intros Hs Hnd. pose proof (shape_height _ _ _ _ Hs).
  pose proof (bounded_length _ _ Hnd (λ i, shape_foot _ _ _ _ i Hs)). lia.
Qed.

Lemma index_run {E A} (l : list A) i a : l !! i = Some a → index (E:=E) l i = Ok a.
Proof. intros. by apply index_ok. Qed.

Lemma lookup_mid {A} (l1 : list A) a l2 i : i = length l1 → (l1 ++ a :: l2) !! i = Some a.
Proof. intros ->. by apply list_lookup_middle. Qed.

(** A node's own entry, among those of its tree. *)
Lemma node_ents_key subs k1 k k2 :
  (∀ v, arity (k1 ++ (k, v) :: k2) subs) →
  ∃ pre post, ∀ v, node_ents subs (k1 ++ (k, v) :: k2) = pre ++ (k, v) :: post.
Proof.
  intros Ha. destruct (Ha "") as [->|Hl]; [by exists k1, k2|].
  rewrite length_app in Hl. cbn [length] in Hl.
  exists (flank_l (take (length k1) subs) k1 ++ default [] (s_ents <$> subs !! length k1)).
  destruct (lookup_lt_is_Some_2 subs (length k1)) as [c Hc]; [lia|]. rewrite Hc. cbn [fmap option_fmap option_map default].
  pose proof (take_drop_middle _ _ _ Hc) as Hsubs.
  destruct (drop (S (length k1)) subs) as [|c' s2] eqn:Hd.
  { apply (f_equal length) in Hd. rewrite length_drop in Hd. cbn in Hd. lia. }
  exists (s_ents c' ++ flank_r k2 s2). intros v.
  rewrite <- Hsubs at 1. rewrite node_ents_split by (rewrite length_take; lia).
  rewrite <- app_assoc. done.
Qed.

Lemma sorted_before pre k v post : sorted (pre ++ (k, v) :: post) → Forall (before k) pre.
Proof.
  intros (_ & _ & H)%sorted_app. apply Forall_forall. intros e He. apply (H e (k, v)); [done|left].
Qed.

(** What a search of a node says about the tree below it. *)
Inductive searched (key : string) (subs : list sub) (kvs : list entry) : search → Prop :=
| searched_found k1 v k2 pre post :
    kvs = k1 ++ (key, v) :: k2 → Forall (before key) pre →
    (∀ w, node_ents subs (k1 ++ (key, w) :: k2) = pre ++ (key, w) :: post) →
    searched key subs kvs (Found (length k1))
| searched_leaf k1 k2 :
    kvs = k1 ++ k2 → subs = [] → Forall (before key) k1 → Forall (after key) k2 →
    searched key subs kvs (Missing (length k1))
| searched_inner s1 c s2 k1 k2 :
    kvs = k1 ++ k2 → subs = s1 ++ c :: s2 → length s1 = length k1 →
    Forall (before key) k1 → Forall (after key) k2 →
    searched key subs kvs (Missing (length k1)).

Lemma split_at {A} (l : list A) n : n < length l → ∃ l1 a l2, l = l1 ++ a :: l2 ∧ length l1 = n.
Proof.
  intros Hn. destruct (lookup_lt_is_Some_2 l n Hn) as [a Ha].
  exists (take n l), a, (drop (S n) l). split; [by rewrite take_drop_middle|]. rewrite length_take. lia.
Qed.

Lemma node_search key subs kvs :
  arity kvs subs → sorted (node_ents subs kvs) → searched key subs kvs (binary_search kvs.*1 key).
Proof.
  intros Ha Hs. pose proof (binary_search_spec kvs key (sorted_node_keys _ _ Ha Hs)) as Hb.
  destruct (binary_search kvs.*1 key) as [i|i].
  - destruct Hb as (k1 & v & k2 & -> & -> & Hb).
    destruct (node_ents_key subs k1 key k2) as (pre & post & Heq).
    { intros w. unfold arity in *. rewrite !length_app in *. exact Ha. }
    eapply searched_found; [done| |exact Heq]. rewrite Heq in Hs. by eapply sorted_before.
  - destruct Hb as (k1 & k2 & -> & -> & Hb & Hk2). destruct Ha as [->|Hl]; [by eapply searched_leaf|].
    rewrite length_app in Hl. destruct (split_at subs (length k1)) as (s1 & c & s2 & -> & Hl1); [lia|].
    by eapply searched_inner.
Qed.

(** Descending into the subtree the search names: what lies around it. *)
Lemma node_around key s1 c s2 k1 k2 :
  length s1 = length k1 → length (s1 ++ c :: s2) = S (length (k1 ++ k2)) →
  sorted (node_ents (s1 ++ c :: s2) (k1 ++ k2)) →
  Forall (before key) k1 → Forall (after key) k2 →
  sorted (s_ents c) ∧ Forall (before key) (flank_l s1 k1) ∧ Forall (after key) (flank_r k2 s2).
Proof.
  intros Hl Hlen Hs Hb Ha. rewrite node_ents_split in Hs by done.
  apply sorted_app in Hs as (Hs1 & Hs2 & _). apply sorted_app in Hs2 as (Hsc & Hs2 & _).
  split_and!; [done|by apply flank_l_before|]. apply flank_r_after; [|done..].
  rewrite !length_app in Hlen. cbn in Hlen. lia.
Qed.

(** ** Lookup *)

Lemma leaf_children kvs subs : leaf (MkNode kvs.*1 kvs.*2 (s_id <$> subs)) = true ↔ subs = [].
Proof. by destruct subs. Qed.

Lemma get_from_spec h lo fuel t s key :
  shape h lo (nodes t) s → sorted (s_ents s) → h < fuel →
  get_from fuel t (s_id s) key = Ok ((list_to_map (s_ents s) : gmap string string) !! key).
Proof.
  revert lo fuel s. induction h as [h IH] using lt_wf_ind. intros lo [|fuel] s Hsh Hs Hfuel; [lia|].
  apply shape_inv in Hsh as (kvs & subs & (Hn & _ & _ & He) & Ha & Hc).
  cbn [get_from]; rewrite (index_run _ _ _ Hn); cbn [mbind result_bind keys values children].
  rewrite He in Hs |- *. destruct (node_search key subs kvs Ha Hs) as [k1 v k2 pre post -> Hb Heq|k1 k2 -> -> Hb Hk2|s1 c s2 k1 k2 -> -> Hl Hb Hk2].
  - rewrite fmap_app. cbn [fmap list_fmap snd].
    rewrite (index_run _ _ v) by (apply lookup_mid; by rewrite length_fmap). cbn. f_equal. symmetry.
    apply elem_of_list_to_map_1; [by apply sorted_NoDup|]. rewrite Heq. apply elem_of_app. right. left.
  - cbn. f_equal. symmetry. by apply (map_mid key k1 [] k2).
  - assert (leaf (MkNode (k1 ++ k2).*1 (k1 ++ k2).*2 (s_id <$> s1 ++ c :: s2)) = false) as ->.
    { apply not_true_iff_false. rewrite leaf_children. by destruct s1. }
    destruct Ha as [Ha|Ha]; [by destruct s1|].
    destruct (node_around key s1 c s2 k1 k2 Hl Ha Hs Hb Hk2) as (Hsc & Hpre & Hpost).
    rewrite fmap_app. cbn [fmap list_fmap].
    rewrite (index_run _ _ (s_id c)) by (apply lookup_mid; by rewrite length_fmap). cbn [mbind result_bind].
    rewrite Forall_forall in Hc. destruct (Hc c) as (h' & -> & Hcs); [apply elem_of_app; right; left|].
    rewrite (IH h' ltac:(lia) (MIN_DEGREE - 1) fuel c) by (auto; lia). f_equal.
    rewrite node_ents_split by done. symmetry. by apply map_mid.
Qed.

(** ** In-order traversal *)

(** A loop over indexes that appends a block at each. *)
Lemma visit {B} (xs : list (list B)) (f : nat → list B → io (list B)) n out :
  (∀ i x o, xs !! i = Some x → f (n + i) o = Ok (o ++ x)) →
  try_fold (seq n (length xs)) f out = Ok (out ++ concat xs).
Proof.
  revert n out. induction xs as [|x xs IH]; intros n out Hf; cbn; [by rewrite app_nil_r|].
  pose proof (Hf 0 x out eq_refl) as H0. rewrite Nat.add_0_r in H0. rewrite H0. cbn.
  rewrite IH, <- app_assoc; [done|]. intros i y o Hi. rewrite <- (Hf (S i) y o Hi). f_equal. lia.
Qed.

Lemma inner_not_leaf subs (kvs : list entry) :
  length subs = S (length kvs) → leaf (MkNode kvs.*1 kvs.*2 (s_id <$> subs)) = false.
Proof. intros Hl. apply not_true_iff_false. rewrite leaf_children. by intros ->. Qed.

Lemma lookup_fmap_some {A B} (f : A → B) (l : list A) i a : l !! i = Some a → (f <$> l) !! i = Some (f a).
Proof. intros H. by rewrite list_lookup_fmap, H. Qed.

Lemma node_ents_last subs kvs :
  length subs = S (length kvs) →
  ∃ s1 c, subs = s1 ++ [c] ∧ length s1 = length kvs ∧ node_ents subs kvs = flank_l s1 kvs ++ s_ents c.
Proof.
  intros Hl. destruct (split_at subs (length kvs)) as (s1 & c & s2 & -> & Hl1); [lia|].
  rewrite length_app in Hl. cbn in Hl. destruct s2; [|cbn in Hl; lia]. exists s1, c. split_and!; [done..|].
  rewrite <- (app_nil_r kvs) at 1. rewrite node_ents_split by done. cbn. by rewrite app_nil_r.
Qed.

Lemma collect_spec h lo fuel t s out :
  shape h lo (nodes t) s → h < fuel → collect fuel t (s_id s) out = Ok (out ++ s_ents s).
Proof.
  revert lo fuel s out. induction h as [h IH] using lt_wf_ind. intros lo [|fuel] s out Hsh Hfuel; [lia|].
  apply shape_inv in Hsh as (kvs & subs & (Hn & _ & _ & He) & Ha & Hc).
  cbn [collect]; rewrite (index_run _ _ _ Hn); cbn [mbind result_bind keys values children].
  rewrite He. destruct Ha as [->|Hl].
  - cbn [leaf children fmap list_fmap mbind result_bind node_ents].
    rewrite length_fmap. rewrite <- (length_fmap (λ e, [e]) kvs).
    rewrite (visit ((λ e, [e]) <$> kvs)).
    + cbn. do 2 f_equal. clear. induction kvs; cbn; by f_equal.
    + intros i x o Hi. apply list_lookup_fmap_Some in Hi as ([k v] & -> & Hi). cbn [Nat.add].
      by rewrite (index_run _ _ _ (lookup_fmap_some fst _ _ _ Hi)), (index_run _ _ _ (lookup_fmap_some snd _ _ _ Hi)).
  - rewrite inner_not_leaf by done. destruct (node_ents_last subs kvs Hl) as (s1 & c & -> & Hl1 & ->).
    rewrite Forall_forall in Hc.
    assert (∀ c' o, c' ∈ s1 ++ [c] → collect fuel t (s_id c') o = Ok (o ++ s_ents c')) as Hcol.
    { intros c' o Hin. destruct (Hc c' Hin) as (h' & -> & Hs'). eapply (IH h'); [lia|done|lia]. }
    set (xs := zip_with (λ s kv, s_ents s ++ [kv]) s1 kvs).
    assert (length kvs.*1 = length xs) as -> by (unfold xs; rewrite length_fmap, length_zip_with_l_eq; done).
    rewrite (visit xs).
    + assert (length xs = length (s_id <$> s1)) as ->
        by (unfold xs; by rewrite length_fmap, length_zip_with_l_eq).
      cbn [mbind result_bind]. rewrite fmap_app. cbn [fmap list_fmap].
      rewrite (index_run _ _ (s_id c)) by (by apply lookup_mid). cbn [mbind result_bind].
      rewrite Hcol by (apply elem_of_app; right; left). by rewrite <- app_assoc.
    + intros i x o Hi. unfold xs in Hi. apply lookup_zip_with_Some in Hi as (c' & [k v] & -> & Hc' & Hkv).
      cbn [Nat.add].
      rewrite (index_run _ _ (s_id c')) by (apply lookup_fmap_some, lookup_app_l_Some; done). cbn [mbind result_bind].
      rewrite Hcol by (apply elem_of_app; left; by eapply list_elem_of_lookup_2). cbn [mbind result_bind].
      rewrite (index_run _ _ _ (lookup_fmap_some fst _ _ _ Hkv)). cbn [mbind result_bind].
      rewrite (index_run _ _ _ (lookup_fmap_some snd _ _ _ Hkv)). cbn. by rewrite app_assoc.
Qed.

Lemma flank_l_keys s1 kvs :
  (flank_l s1 kvs).*1 = concat (zip_with (λ s (kv : entry), (s_ents s).*1 ++ [kv.1]) s1 kvs).
Proof.
  revert kvs. induction s1 as [|s s1 IH]; intros [|kv kvs]; [done..|].
  change (flank_l (s :: s1) (kv :: kvs)) with ((s_ents s ++ [kv]) ++ flank_l s1 kvs).
  cbn [zip_with concat]. by rewrite !fmap_app, IH.
Qed.

Lemma collect_keys_spec h lo fuel t s out :
  shape h lo (nodes t) s → h < fuel → collect_keys fuel t (s_id s) out = Ok (out ++ (s_ents s).*1).
Proof.
  revert lo fuel s out. induction h as [h IH] using lt_wf_ind. intros lo [|fuel] s out Hsh Hfuel; [lia|].
  apply shape_inv in Hsh as (kvs & subs & (Hn & _ & _ & He) & Ha & Hc).
  cbn [collect_keys]; rewrite (index_run _ _ _ Hn); cbn [mbind result_bind keys values children].
  rewrite He. destruct Ha as [->|Hl].
  - cbn [leaf children fmap list_fmap mbind result_bind node_ents].
    rewrite length_fmap. rewrite <- (length_fmap (λ e : entry, [e.1]) kvs).
    rewrite (visit ((λ e : entry, [e.1]) <$> kvs)).
    + cbn. do 2 f_equal. clear. induction kvs; cbn; by f_equal.
    + intros i x o Hi. apply list_lookup_fmap_Some in Hi as ([k v] & -> & Hi). cbn [Nat.add].
      by rewrite (index_run _ _ _ (lookup_fmap_some fst _ _ _ Hi)).
  - rewrite inner_not_leaf by done. destruct (node_ents_last subs kvs Hl) as (s1 & c & -> & Hl1 & ->).
    rewrite Forall_forall in Hc.
    assert (∀ c' o, c' ∈ s1 ++ [c] → collect_keys fuel t (s_id c') o = Ok (o ++ (s_ents c').*1)) as Hcol.
    { intros c' o Hin. destruct (Hc c' Hin) as (h' & -> & Hs'). eapply (IH h'); [lia|done|lia]. }
    set (xs := zip_with (λ s (kv : entry), (s_ents s).*1 ++ [kv.1]) s1 kvs).
    assert (length kvs.*1 = length xs) as -> by (unfold xs; rewrite length_fmap, length_zip_with_l_eq; done).
    rewrite (visit xs).
    + assert (length xs = length (s_id <$> s1)) as ->
        by (unfold xs; by rewrite length_fmap, length_zip_with_l_eq).
      cbn [mbind result_bind]. rewrite fmap_app. cbn [fmap list_fmap].
      rewrite (index_run _ _ (s_id c)) by (by apply lookup_mid). cbn [mbind result_bind].
      rewrite Hcol by (apply elem_of_app; right; left). rewrite <- app_assoc, fmap_app.
      by rewrite flank_l_keys.
    + intros i x o Hi. unfold xs in Hi. apply lookup_zip_with_Some in Hi as (c' & [k v] & -> & Hc' & Hkv).
      cbn [Nat.add].
      rewrite (index_run _ _ (s_id c')) by (apply lookup_fmap_some, lookup_app_l_Some; done). cbn [mbind result_bind].
      rewrite Hcol by (apply elem_of_app; left; by eapply list_elem_of_lookup_2). cbn [mbind result_bind].
      rewrite (index_run _ _ _ (lookup_fmap_some fst _ _ _ Hkv)). cbn. by rewrite app_assoc.
Qed.

(** ** Updating one subtree *)

(** The arena grew: nodes outside [f] are as before, and the tree that owned [f]
    owns [f'], its new nodes being fresh ones. *)
Record grows (ns : list Node) (f : list nat) (ns' : list Node) (f' : list nat) : Prop := Grows {
  grows_frame i : i < length ns → i ∉ f → ns' !! i = ns !! i;
  grows_length : length ns ≤ length ns';
  grows_foot i : i ∈ f' → i ∈ f ∨ length ns ≤ i;
  grows_nodup : NoDup f → NoDup f';
  grows_count : length ns + length f' = length ns' + length f;
}.

Lemma grows_refl ns f : grows ns f ns f.
Proof. split; auto. Qed.

Lemma grows_trans ns f ns1 f1 ns2 f2 : grows ns f ns1 f1 → grows ns1 f1 ns2 f2 → grows ns f ns2 f2.
Proof.
  intros [A1 A2 A3 A4 A5] [B1 B2 B3 B4 B5]. split; auto; [|lia| |lia].
  - intros i Hi Hf. rewrite B1; [by apply A1|lia|]. intros [?|?]%A3; [done|lia].
  - intros i [H|H]%B3; [by apply A3|]. right. lia.
Qed.

Lemma grows_shape h lo ns f ns' f' s :
  grows ns f ns' f' → shape h lo ns s → (∀ i, i ∈ s_foot s → i ∉ f) → shape h lo ns' s.
Proof.
  intros Hg Hs Hd. apply (shape_frame _ _ ns); [done|]. intros i Hi.
  apply (grows_frame _ _ _ _ Hg); [by eapply shape_foot|auto].
Qed.

Abbreviation feet subs := (subs ≫= s_foot).

Lemma feet_app (s1 s2 : list sub) : feet (s1 ++ s2) = feet s1 ++ feet s2.
Proof. apply bind_app. Qed.
Lemma feet_cons c (s2 : list sub) : feet (c :: s2) = s_foot c ++ feet s2.
Proof. done. Qed.

Lemma feet_lt h lo ns subs i : Forall (shape h lo ns) subs → i ∈ feet subs → i < length ns.
Proof.
  intros Hf (c & Hi & Hin)%list_elem_of_bind. rewrite Forall_forall in Hf. by eapply shape_foot; [apply Hf|].
Qed.

Lemma Forall_grows h lo ns f ns' f' subs :
  grows ns f ns' f' → Forall (shape h lo ns) subs → (∀ i, i ∈ feet subs → i ∉ f) →
  Forall (shape h lo ns') subs.
Proof.
  intros Hg Hf Hd. rewrite Forall_forall in Hf |- *. intros c Hin. eapply grows_shape; [done|by apply Hf|].
  intros i Hi. apply Hd. apply list_elem_of_bind. eauto.
Qed.

(** Replacing a subtree by the one an operation left in its place. *)
Lemma plug h lo ns s k1 k2 s1 c s2 ns' c' :
  node_ok lo ns s (k1 ++ k2) (s1 ++ c :: s2) → length s1 = length k1 →
  length (s1 ++ c :: s2) = S (length (k1 ++ k2)) →
  Forall (shape h (MIN_DEGREE - 1) ns) (s1 ++ c :: s2) → NoDup (s_foot s) →
  grows ns (s_foot c) ns' (s_foot c') → s_id c' = s_id c → shape h (MIN_DEGREE - 1) ns' c' →
  let f' := s_id s :: feet (s1 ++ c' :: s2) in
  shape (S h) lo ns' (Sub (s_id s) f' (flank_l s1 k1 ++ s_ents c' ++ flank_r k2 s2)) ∧
  grows ns (s_foot s) ns' f'.
Proof.
  intros (Hn & Hl & Hf & He) Hl1 Hlen Hsubs Hnd Hg Hid Hc' f'.
  apply Forall_app in Hsubs as [H1 Hsubs]. apply Forall_cons in Hsubs as [Hc H2].
  rewrite Hf, feet_app, feet_cons in Hnd. apply NoDup_cons in Hnd as [Hp Hnd].
  rewrite !elem_of_app in Hp. apply NoDup_app in Hnd as (Hnd1 & Hd1 & Hnd).
  apply NoDup_app in Hnd as (Hndc & Hd2 & Hnd2).
  assert (s_id s < length ns) as Hplt by (by eapply lookup_lt_Some).
  split.
  - exists (k1 ++ k2), (s1 ++ c' :: s2). split; [split_and!|split]; cbn [s_id s_foot s_ents].
    + rewrite (grows_frame _ _ _ _ Hg) by (done || naive_solver). rewrite Hn.
      do 2 f_equal. by rewrite !fmap_app, !fmap_cons, Hid.
    + lia.
    + lia.
    + done.
    + by rewrite node_ents_split.
    + rewrite length_app in *. done.
    + apply Forall_app. split; [|constructor; [done|]]; eapply Forall_grows; try done; intros i Hi Hic.
      * apply (Hd1 i Hi). apply elem_of_app. by left.
      * by apply (Hd2 i Hic).
  - rewrite Hf, feet_app, feet_cons. unfold f'. rewrite feet_app, feet_cons. split.
    + intros i Hi Hni. apply (grows_frame _ _ _ _ Hg); [done|]. intros Hic. apply Hni. right.
      rewrite !elem_of_app. auto.
    + apply Hg.
    + intros i. rewrite !elem_of_cons, !elem_of_app. intros [?|[?|[Hi|?]]]; auto.
      apply (grows_foot _ _ _ _ Hg) in Hi as [?|?]; auto.
    + intros _. apply NoDup_cons. split; [|apply NoDup_app; split_and!; auto; [|apply NoDup_app; split_and!; auto]].
      * rewrite !elem_of_app. intros [?|[Hi|?]]; [naive_solver| |naive_solver].
        apply (grows_foot _ _ _ _ Hg) in Hi as [?|?]; [naive_solver|lia].
      * intros i Hi [Hc1|Hi2]%elem_of_app; [|apply (Hd1 i Hi), elem_of_app; by right].
        apply (grows_foot _ _ _ _ Hg) in Hc1 as [Hc1|Hc1]; [apply (Hd1 i Hi), elem_of_app; by left|].
        pose proof (feet_lt _ _ _ _ _ H1 Hi). lia.
      * by apply (grows_nodup _ _ _ _ Hg).
      * intros i Hc1 Hi2. apply (grows_foot _ _ _ _ Hg) in Hc1 as [Hc1|Hc1]; [by apply (Hd2 i Hc1)|].
        pose proof (feet_lt _ _ _ _ _ H2 Hi2). lia.
    + pose proof (grows_count _ _ _ _ Hg). cbn [length]. rewrite !length_app. lia.
Qed.

(** ** Splitting a full child *)

Lemma vec_insert_run {A} (l1 l2 : list A) x i :
  i = length l1 → vec_insert (l1 ++ l2) i x = Ok (l1 ++ x :: l2).
Proof.
  intros ->. unfold vec_insert. rewrite length_app, (proj2 (Nat.leb_le _ _)) by lia.
  by rewrite take_app_length, drop_app_length.
Qed.

Lemma split_off_run {A} (l1 l2 : list A) i : i = length l1 → split_off (l1 ++ l2) i = Ok (l1, l2).
Proof.
  intros ->. unfold split_off. rewrite length_app, (proj2 (Nat.leb_le _ _)) by lia.
  by rewrite take_app_length, drop_app_length.
Qed.

Lemma pop_run {A} (l : list A) x : pop (l ++ [x]) = Some (l, x).
Proof. unfold pop. rewrite reverse_snoc. by rewrite reverse_involutive. Qed.

Lemma node_at_run id t n : nodes t !! id = Some n → node_at id t = (Ok n, t).
Proof. intros H. unfold node_at, mbind, M_bind, get_state, lift. by rewrite (index_run _ _ _ H). Qed.

Lemma set_node_run id n t :
  id < length (nodes t) → set_node id n t = (Ok tt, MkTree (<[id := n]> (nodes t)) (root t) (len t)).
Proof. intros H. unfold set_node. run_steps. by rewrite (proj2 (Nat.ltb_lt _ _)) by done. Qed.

(** The arena after a split: the left half in place, the right half appended,
    the parent with the median and the new child. *)
Definition split_nodes (ns : list Node) (p cid : nat) (parent left right : Node) : list Node :=
  <[p := parent]> (<[cid := left]> ns ++ [right]).

Lemma split_run t p cid (k1 k2 kl kr : list entry) kv cs1 cs2 chl chr :
  nodes t !! p = Some (MkNode (k1 ++ k2).*1 (k1 ++ k2).*2 (cs1 ++ cid :: cs2)) →
  nodes t !! cid = Some (MkNode (kl ++ kv :: kr).*1 (kl ++ kv :: kr).*2 (chl ++ chr)) →
  p ≠ cid → length cs1 = length k1 → S (length kl) = MIN_DEGREE →
  (chl ++ chr = [] ∨ length chl = MIN_DEGREE) →
  split_child p (length k1) t = (Ok tt, MkTree
    (split_nodes (nodes t) p cid
      (MkNode (k1 ++ kv :: k2).*1 (k1 ++ kv :: k2).*2 (cs1 ++ cid :: length (nodes t) :: cs2))
      (MkNode kl.*1 kl.*2 chl) (MkNode kr.*1 kr.*2 chr)) (root t) (len t)).
Proof.
  intros Hp Hc Hne Hl1 Hkl Hch. destruct kv as [mk mv].
  pose proof (lookup_lt_Some _ _ _ Hp) as Hplt. pose proof (lookup_lt_Some _ _ _ Hc) as Hclt.
  unfold split_child.
  erewrite M_bind_run by (by apply node_at_run). cbn [children keys values].
  rewrite <- Hl1. rewrite (index_run _ _ cid) by (by apply lookup_mid). run_steps.
  erewrite M_bind_run by (by apply node_at_run). cbn [children keys values].
  rewrite !fmap_app, !fmap_cons. cbn [fst snd].
  rewrite (cons_middle mk), (cons_middle mv), !(app_assoc kl.*1), !(app_assoc kl.*2).
  rewrite (split_off_run (kl.*1 ++ [mk])) by (rewrite length_app, length_fmap; cbn; lia).
  run_steps. rewrite pop_run. cbn [expect]. run_steps.
  rewrite (split_off_run (kl.*2 ++ [mv])) by (rewrite length_app, length_fmap; cbn; lia).
  run_steps. rewrite pop_run. cbn [expect]. run_steps.
  set (t1 := MkTree (<[cid := MkNode kl.*1 kl.*2 chl]> (nodes t)) (root t) (len t)).
  assert (∀ (f : list nat * list nat → tree unit), ((if leaf (MkNode ((kl.*1 ++ [mk]) ++ kr.*1) ((kl.*2 ++ [mv]) ++ kr.*2) (chl ++ chr))
      then mret (chl ++ chr, []) else lift (split_off (chl ++ chr) MIN_DEGREE)) ≫= f) t = f (chl, chr) t) as Hlc.
  { intros f. unfold leaf. cbn [children]. destruct Hch as [Hnil|Hch].
    - rewrite Hnil. apply app_eq_nil in Hnil as [-> ->]. done.
    - destruct (chl ++ chr) as [|x l] eqn:Hx; [by destruct chl|].
      rewrite <- Hx, split_off_run by done. done. }
  etrans; [apply Hlc|]. cbn beta iota.
  erewrite M_bind_run by (by apply set_node_run). run_steps. unfold push_node. run_steps.
  cbn [nodes root len]. rewrite length_app, length_insert. cbn [length].
  replace (length (nodes t) + 1 - 1) with (length (nodes t)) by lia.
  erewrite M_bind_run.
  2: { apply node_at_run. cbn [nodes]. rewrite lookup_app_l by (by rewrite length_insert).
       rewrite list_lookup_insert_ne by done. exact Hp. }
  cbn [keys values children]. rewrite !fmap_app.
  rewrite (vec_insert_run k1.*1) by (by rewrite length_fmap). run_steps.
  rewrite (vec_insert_run k1.*2) by (by rewrite length_fmap). run_steps.
  rewrite (cons_middle cid), app_assoc, (vec_insert_run (cs1 ++ [cid])) by (rewrite length_app; done). run_steps.
  rewrite set_node_run by (cbn [nodes]; rewrite length_app, length_insert; lia).
  cbn [nodes root len]. unfold split_nodes. by rewrite <- !app_assoc.
Qed.

Lemma node_ents_join sl sr kl kv kr :
  length sl = S (length kl) → sr ≠ [] →
  node_ents (sl ++ sr) (kl ++ kv :: kr) = node_ents sl kl ++ kv :: node_ents sr kr.
Proof.
  intros Hl Hr. destruct (node_ents_last sl kl Hl) as (sl' & c & -> & Hl' & ->).
  destruct sr as [|c' sr]; [done|]. rewrite <- app_assoc. cbn [app].
  rewrite node_ents_split by done. cbn [node_ents]. rewrite <- app_assoc. done.
Qed.

Section SplitNodes.
Context (ns : list Node) (p cid : nat) (parent left right : Node).
Context (Hp : p < length ns) (Hc : cid < length ns) (Hne : p ≠ cid).

Lemma split_parent : split_nodes ns p cid parent left right !! p = Some parent.
Proof. unfold split_nodes. rewrite list_lookup_insert_eq; [done|]. rewrite length_app, length_insert. lia. Qed.

Lemma split_left : split_nodes ns p cid parent left right !! cid = Some left.
Proof.
  unfold split_nodes. rewrite list_lookup_insert_ne by done.
  rewrite lookup_app_l by (by rewrite length_insert). by rewrite list_lookup_insert_eq.
Qed.

Lemma split_right : split_nodes ns p cid parent left right !! length ns = Some right.
Proof.
  unfold split_nodes. rewrite list_lookup_insert_ne by lia.
  rewrite lookup_app_r by (rewrite length_insert; lia). by rewrite length_insert, Nat.sub_diag.
Qed.

Lemma split_other i :
  i < length ns → i ≠ p → i ≠ cid → split_nodes ns p cid parent left right !! i = ns !! i.
Proof.
  intros Hi Hip Hic. unfold split_nodes. rewrite list_lookup_insert_ne by done.
  rewrite lookup_app_l by (by rewrite length_insert). by rewrite list_lookup_insert_ne.
Qed.

Lemma split_length : length (split_nodes ns p cid parent left right) = S (length ns).
Proof. unfold split_nodes. rewrite length_insert, length_app, length_insert. cbn. lia. Qed.

End SplitNodes.

(** The two halves of a full subtree. *)
Lemma halve h ns c kvc subc :
  node_ok (MIN_DEGREE - 1) ns c kvc subc → length kvc = MAX_KEYS →
  match h with
  | O => subc = []
  | S h => length subc = S (length kvc) ∧ Forall (shape h (MIN_DEGREE - 1) ns) subc
  end →
  ∃ kl kv kr sl sr, kvc = kl ++ kv :: kr ∧ subc = sl ++ sr ∧
    length kl = MIN_DEGREE - 1 ∧ length kr = MIN_DEGREE - 1 ∧
    (sl ++ sr = [] ∨ length sl = MIN_DEGREE) ∧
    s_ents c = node_ents sl kl ++ kv :: node_ents sr kr ∧
    (∀ subs kvs, (subs = sl ∧ kvs = kl) ∨ (subs = sr ∧ kvs = kr) →
      match h with
      | O => subs = []
      | S h => length subs = S (length kvs) ∧ Forall (shape h (MIN_DEGREE - 1) ns) subs
      end).
Proof.
  unfold MAX_KEYS, MIN_DEGREE. intros (_ & _ & _ & He) Hl Hh.
  destruct (split_at kvc 7) as (kl & kv & kr & -> & Hkl); [lia|].
  rewrite length_app in Hl. cbn in Hl. exists kl, kv, kr.
  destruct h as [|h].
  - subst subc. exists [], []. split_and!; auto; [lia|]. intros subs kvs [[-> _]|[-> _]]; done.
  - destruct Hh as [Hls Hh]. rewrite length_app in Hls. cbn in Hls.
    exists (take 8 subc), (drop 8 subc). rewrite take_drop.
    assert (length (take 8 subc) = 8) as H8 by (rewrite length_take; lia).
    assert (length (drop 8 subc) = 8) as H8' by (rewrite length_drop; lia).
    split_and!; auto; [lia| |].
    + rewrite He. rewrite <- (take_drop 8 subc) at 1. apply node_ents_join; [lia|]. by intros Hd; rewrite Hd in H8'.
    + rewrite <- (take_drop 8 subc) in Hh. apply Forall_app in Hh as [Hh1 Hh2].
      intros subs kvs [[-> ->]|[-> ->]]; (split; [lia|done]).
Qed.

Lemma split_spec h lo t s k1 k2 s1 c s2 nc :
  node_ok lo (nodes t) s (k1 ++ k2) (s1 ++ c :: s2) → length s1 = length k1 →
  length (s1 ++ c :: s2) = S (length (k1 ++ k2)) →
  Forall (shape h (MIN_DEGREE - 1) (nodes t)) (s1 ++ c :: s2) → NoDup (s_foot s) →
  length (k1 ++ k2) < MAX_KEYS →
  nodes t !! s_id c = Some nc → length (keys nc) = MAX_KEYS →
  ∃ ns' kv cl cr f',
    split_child (s_id s) (length k1) t = (Ok tt, MkTree ns' (root t) (len t)) ∧
    node_ok (Nat.max lo 1) ns' (Sub (s_id s) f' (s_ents s)) (k1 ++ kv :: k2) (s1 ++ cl :: cr :: s2) ∧
    Forall (shape h (MIN_DEGREE - 1) ns') (s1 ++ cl :: cr :: s2) ∧
    grows (nodes t) (s_foot s) ns' f' ∧
    (∀ x, x = cl ∨ x = cr → ∃ n, ns' !! s_id x = Some n ∧ length (keys n) < MAX_KEYS).
Proof.
  intros (Hn & Hl & Hf & He) Hl1 Hlen Hsubs Hnd Hroom Hnc Hfull.
  apply Forall_app in Hsubs as [H1 Hsubs]. apply Forall_cons in Hsubs as [Hc H2].
  assert (∃ kvc subc, node_ok (MIN_DEGREE - 1) (nodes t) c kvc subc ∧ length kvc = MAX_KEYS ∧
    match h with O => subc = [] | S h => length subc = S (length kvc) ∧ Forall (shape h (MIN_DEGREE - 1) (nodes t)) subc end)
    as (kvc & subc & Hcn & Hcl & Hch).
  { destruct h; destruct Hc as (kvc & subc & Hcn & Hch); exists kvc, subc; refine (conj Hcn (conj _ Hch));
      destruct Hcn as (Hcn & _); rewrite Hnc in Hcn; injection Hcn as ->; cbn in Hfull;
      by rewrite length_fmap in Hfull. }
  destruct (halve h _ _ _ _ Hcn Hcl Hch) as (kl & kv & kr & sl & sr & -> & -> & Hkl & Hkr & Hsl & Hce & Hhalf).
  destruct Hcn as (Hcid & _ & Hcf & _).
  assert (s_id s ≠ s_id c) as Hne.
  { intros Heq. rewrite Hf in Hnd. apply NoDup_cons in Hnd as [Hp _]. apply Hp.
    rewrite feet_app, feet_cons, Hcf, Heq. apply elem_of_app. right. apply elem_of_app. left. left. }
  pose proof (lookup_lt_Some _ _ _ Hn) as Hplt. pose proof (lookup_lt_Some _ _ _ Hcid) as Hclt.
  set (cl := Sub (s_id c) (s_id c :: feet sl) (node_ents sl kl)).
  set (cr := Sub (length (nodes t)) (length (nodes t) :: feet sr) (node_ents sr kr)).
  set (ns' := split_nodes (nodes t) (s_id s) (s_id c)
    (MkNode (k1 ++ kv :: k2).*1 (k1 ++ kv :: k2).*2 ((s_id <$> s1) ++ s_id c :: length (nodes t) :: (s_id <$> s2)))
    (MkNode kl.*1 kl.*2 (s_id <$> sl)) (MkNode kr.*1 kr.*2 (s_id <$> sr))).
  set (f' := s_id s :: feet (s1 ++ cl :: cr :: s2)).
  assert (length ns' = S (length (nodes t))) as Hlen' by (by apply split_length).
  assert (∀ i, i < length (nodes t) → i ≠ s_id s → i ≠ s_id c → ns' !! i = nodes t !! i) as Hoth
    by (intros; by apply split_other).
  assert (f' ≡ₚ length (nodes t) :: s_foot s) as Hperm.
  { unfold f'. rewrite Hf, !feet_app, !feet_cons, Hcf, feet_app. cbn [s_foot cl cr]. solve_Permutation. }
  rewrite Hf in Hnd. apply NoDup_cons in Hnd as [Hp Hnd].
  rewrite feet_app, feet_cons, Hcf, feet_app in Hnd, Hp.
  assert (∀ subs h', Forall (shape h' (MIN_DEGREE - 1) (nodes t)) subs →
    s_id s ∉ feet subs → s_id c ∉ feet subs → Forall (shape h' (MIN_DEGREE - 1) ns') subs) as Hframe.
  { intros subs h' Hs Hps Hcs. rewrite Forall_forall in Hs |- *. intros x Hx.
    apply (shape_frame _ _ (nodes t)); [by apply Hs|]. intros i Hi.
    apply Hoth; [by eapply shape_foot; [apply Hs|]| |]; intros ->; [apply Hps|apply Hcs];
      apply list_elem_of_bind; eauto. }
  pose proof Hnd as (Hnd1 & Hd1 & Hnd')%NoDup_app. pose proof Hnd' as (Hndc & Hd2 & Hnd2)%NoDup_app.
  apply NoDup_cons in Hndc as [Hci _].
  rewrite !elem_of_app, elem_of_cons, elem_of_app in Hp. rewrite elem_of_app in Hci.
  assert (s_id c ∉ feet s1) as Hc1 by (intros Hin; apply (Hd1 _ Hin); left).
  assert (s_id c ∉ feet s2) as Hc2 by (apply Hd2; left).
  assert (∀ x subs kvs, (subs = sl ∧ kvs = kl) ∨ (subs = sr ∧ kvs = kr) →
    ns' !! s_id x = Some (MkNode kvs.*1 kvs.*2 (s_id <$> subs)) → s_foot x = s_id x :: feet subs →
    s_ents x = node_ents subs kvs → shape h (MIN_DEGREE - 1) ns' x) as Hnew.
  { intros x subs kvs Hcase Hx Hxf Hxe.
    assert (length kvs = MIN_DEGREE - 1) as Hk by (destruct Hcase as [[_ ->]|[_ ->]]; done).
    assert (node_ok (MIN_DEGREE - 1) ns' x kvs subs) as Hok
      by (split_and!; auto; rewrite Hk; unfold MAX_KEYS, MIN_DEGREE; lia).
    specialize (Hhalf subs kvs Hcase). destruct h; exists kvs, subs; (split; [exact Hok|]); [exact Hhalf|].
    destruct Hhalf as [? Hhalf]. split; [done|]. apply Hframe; [done|..]; destruct Hcase as [[-> _]|[-> _]]; naive_solver. }
  assert (ns' !! s_id c = Some (MkNode kl.*1 kl.*2 (s_id <$> sl))) as Hleft by (by apply split_left).
  assert (ns' !! length (nodes t) = Some (MkNode kr.*1 kr.*2 (s_id <$> sr))) as Hright by (by apply split_right).
  exists ns', kv, cl, cr, f'. split; [|split; [|split; [|split]]].
  - assert ((s_id <$> s1 ++ c :: s2) = (s_id <$> s1) ++ s_id c :: (s_id <$> s2)) as Hch1
      by apply (fmap_app s_id s1 (c :: s2)).
    assert ((s_id <$> sl ++ sr) = (s_id <$> sl) ++ (s_id <$> sr)) as Hch2 by apply fmap_app.
    rewrite Hch1 in Hn. rewrite Hch2 in Hcid.
    rewrite (split_run _ _ _ _ _ _ _ _ _ _ _ _ Hn Hcid); auto; [by rewrite length_fmap|unfold MIN_DEGREE in *; lia|].
    rewrite <- Hch2, length_fmap. destruct Hsl as [->|]; auto.
  - split_and!; cbn [s_id s_foot s_ents].
    + unfold ns'. rewrite split_parent by done. do 2 f_equal. by rewrite !fmap_app, !fmap_cons.
    + rewrite !length_app in *. cbn [length]. lia.
    + rewrite !length_app in *. cbn [length]. lia.
    + done.
    + rewrite He, !node_ents_split by done. rewrite Hce. unfold flank_r. cbn [zip_with concat s_ents cl cr].
      by rewrite <- !app_assoc.
  - apply Forall_app. split; [apply Hframe; naive_solver|]. constructor; [|constructor; [|apply Hframe; naive_solver]].
    + apply (Hnew cl sl kl); auto.
    + apply (Hnew cr sr kr); auto.
  - split.
    + intros i Hi Hni. apply Hoth; [done|intros ->; apply Hni..]; rewrite Hf; [left|].
      right. rewrite feet_app, feet_cons, Hcf. apply elem_of_app. right. apply elem_of_app. left. left.
    + lia.
    + intros i. rewrite Hperm. intros [->|?]%elem_of_cons; [by right|by left].
    + intros Hnd0. rewrite Hperm. apply NoDup_cons. split; [|done].
      rewrite Hf, feet_app, feet_cons, Hcf. intros [Hx|Hx]%elem_of_cons; [lia|].
      assert (∀ subs, Forall (shape h (MIN_DEGREE - 1) (nodes t)) subs → length (nodes t) ∉ feet subs) as Hlt.
      { intros subs Hs Hin. pose proof (feet_lt _ _ _ _ _ Hs Hin). lia. }
      rewrite <- Hcf in Hx. rewrite !elem_of_app in Hx. destruct Hx as [Hx|[Hx|Hx]]; [by apply (Hlt s1)| |by apply (Hlt s2)].
      pose proof (shape_foot _ _ _ _ _ Hc Hx). lia.
    + rewrite Hperm. cbn [length]. lia.
  - intros x [->| ->]; eexists; (split; [eassumption|]); cbn [keys]; rewrite length_fmap;
      unfold MAX_KEYS, MIN_DEGREE in *; lia.
Qed.

(** ** Replacing a value *)

Definition below (h : nat) (ns : list Node) (kvs : list entry) (subs : list sub) : Prop :=
  match h with
  | O => subs = []
  | S h => length subs = S (length kvs) ∧ Forall (shape h (MIN_DEGREE - 1) ns) subs
  end.

Lemma shape_below h lo ns s : shape h lo ns s ↔ ∃ kvs subs, node_ok lo ns s kvs subs ∧ below h ns kvs subs.
Proof. by destruct h. Qed.

Lemma below_arity h ns kvs subs : below h ns kvs subs → arity kvs subs.
Proof. destruct h; unfold arity; [by left|]. intros [? _]. by right. Qed.

(** New entries in a node, its subtrees left alone. *)
Lemma own_update h lo ns s kvs subs kvs' :
  node_ok lo ns s kvs subs → below h ns kvs subs → NoDup (s_foot s) →
  lo ≤ length kvs' ≤ MAX_KEYS → subs = [] ∨ length kvs' = length kvs →
  let ns' := <[s_id s := MkNode kvs'.*1 kvs'.*2 (s_id <$> subs)]> ns in
  shape h lo ns' (Sub (s_id s) (s_foot s) (node_ents subs kvs')) ∧ grows ns (s_foot s) ns' (s_foot s).
Proof.
  intros (Hn & Hl & Hf & He) Hb Hnd Hl' Hk ns'. pose proof (lookup_lt_Some _ _ _ Hn) as Hlt. split.
  - apply shape_below. exists kvs', subs. split.
    + refine (conj _ (conj Hl' (conj Hf eq_refl))). unfold ns'. cbn [s_id]. by rewrite list_lookup_insert_eq.
    + destruct h; [done|]. destruct Hb as [Hlen Hb]. split; [by destruct Hk as [-> | ->]|].
      rewrite Forall_forall in Hb |- *. intros c Hc. apply (shape_frame _ _ ns); [by apply Hb|].
      intros i Hi. unfold ns'. apply list_lookup_insert_ne. intros <-.
      rewrite Hf in Hnd. apply NoDup_cons in Hnd as [Hp _]. apply Hp, list_elem_of_bind. eauto.
  - split; auto.
    + intros i _ Hi. unfold ns'. apply list_lookup_insert_ne. intros <-. apply Hi. rewrite Hf. left.
    + unfold ns'. by rewrite length_insert.
    + unfold ns'. by rewrite length_insert.
Qed.

Lemma elem_of_mid key (pre es post : list entry) :
  Forall (before key) pre → Forall (after key) post → key ∈ (pre ++ es ++ post).*1 ↔ key ∈ es.*1.
Proof.
  intros H1%before_not_in H2%after_not_in. rewrite !fmap_app, !elem_of_app. naive_solver.
Qed.

Lemma replace_spec h lo fuel t s key value :
  shape h lo (nodes t) s → sorted (s_ents s) → NoDup (s_foot s) → h < fuel →
  if decide (key ∈ (s_ents s).*1) then
    ∃ ns', replace fuel (s_id s) key value t = (Ok true, MkTree ns' (root t) (len t)) ∧
      grows (nodes t) (s_foot s) ns' (s_foot s) ∧
      shape h lo ns' (Sub (s_id s) (s_foot s) (upsert key value (s_ents s)))
  else replace fuel (s_id s) key value t = (Ok false, t).
Proof.
  revert lo fuel s. induction h as [h IH] using lt_wf_ind. intros lo [|fuel] s Hsh Hs Hnd Hfuel; [lia|].
  apply shape_below in Hsh as (kvs & subs & Hok & Hb). pose proof Hok as (Hn & Hl & Hf & He).
  pose proof (below_arity _ _ _ _ Hb) as Ha. cbn [replace].
  erewrite M_bind_run by (by apply node_at_run). cbn [keys values children]. rewrite He in Hs |- *.
  destruct (node_search key subs kvs Ha Hs)
    as [k1 v k2 pre post -> Hbef Heq|k1 k2 -> -> Hbef Haft|s1 c s2 k1 k2 -> -> Hl1 Hbef Haft].
  - rewrite decide_True.
    2: { rewrite Heq, fmap_app, fmap_cons. apply elem_of_app. right. left. }
    rewrite length_fmap, length_app. cbn [length]. rewrite (proj2 (Nat.ltb_lt _ _)) by lia.
    destruct (own_update h lo (nodes t) s _ _ (k1 ++ (key, value) :: k2) Hok Hb Hnd) as [Hsh' Hg];
      [rewrite !length_app in *; done|right; by rewrite !length_app|].
    eexists. split; [|split; [exact Hg|]].
    + erewrite M_bind_run by (apply set_node_run; by eapply lookup_lt_Some).
      unfold mret, M_ret. do 3 f_equal. rewrite !fmap_app, !fmap_cons. cbn [fst snd]. do 2 f_equal.
      rewrite insert_app_r_alt by (by rewrite length_fmap). by rewrite length_fmap, Nat.sub_diag.
    + rewrite Heq, upsert_found by done. by rewrite <- Heq.
  - cbn [node_ents]. rewrite decide_False; [done|].
    rewrite <- (app_nil_l k2). rewrite elem_of_mid by done. apply not_elem_of_nil.
  - destruct h as [|h]; [by destruct s1|]. destruct Hb as [Hlen Hsubs].
    destruct (node_around key s1 c s2 k1 k2 Hl1 Hlen Hs Hbef Haft) as (Hsc & Hpre & Hpost).
    rewrite inner_not_leaf by done.
    rewrite fmap_app, fmap_cons, (index_run _ _ (s_id c)) by (apply lookup_mid; by rewrite length_fmap).
    run_steps. rewrite node_ents_split by done.
    assert (NoDup (s_foot c)) as Hndc.
    { rewrite Hf, feet_app, feet_cons in Hnd. apply NoDup_cons in Hnd as [_ Hnd].
      apply NoDup_app in Hnd as (_ & _ & Hnd). by apply NoDup_app in Hnd as (Hnd & _). }
    assert (shape h (MIN_DEGREE - 1) (nodes t) c) as Hcs.
    { rewrite Forall_forall in Hsubs. apply Hsubs, elem_of_app. right. left. }
    specialize (IH h ltac:(lia) _ fuel c Hcs Hsc Hndc ltac:(lia)).
    rewrite (decide_ext _ (key ∈ (s_ents c).*1)) by (by apply elem_of_mid).
    case_decide; [|done]. destruct IH as (ns' & Hrun & Hg & Hsh').
    exists ns'. split; [done|].
    destruct (plug h lo (nodes t) s k1 k2 s1 c s2 ns' (Sub (s_id c) (s_foot c) (upsert key value (s_ents c))))
      as [Hsh Hg']; auto.
    assert (s_id s :: feet (s1 ++ Sub (s_id c) (s_foot c) (upsert key value (s_ents c)) :: s2) = s_foot s) as Hf'.
    { rewrite Hf, !feet_app, !feet_cons. done. }
    rewrite Hf' in Hsh, Hg'. split; [done|]. by rewrite upsert_mid.
Qed.

(** ** Inserting a new key *)

Lemma child_nodup s (s1 : list sub) c s2 :
  s_foot s = s_id s :: feet (s1 ++ c :: s2) → NoDup (s_foot s) → NoDup (s_foot c).
Proof.
  intros -> Hnd. rewrite feet_app, feet_cons in Hnd. apply NoDup_cons in Hnd as [_ Hnd].
  apply NoDup_app in Hnd as (_ & _ & Hnd). by apply NoDup_app in Hnd as (Hnd & _).
Qed.

(** The tail of [insert_non_full]: into the chosen child, which has room. *)
Lemma descend h lo fuel t s k1 k2 s1 c s2 key value :
  (∀ c, shape h (MIN_DEGREE - 1) (nodes t) c → sorted (s_ents c) → NoDup (s_foot c) →
    key ∉ (s_ents c).*1 → (∃ n, nodes t !! s_id c = Some n ∧ length (keys n) < MAX_KEYS) →
    ∃ ns' f', insert_non_full fuel (s_id c) key value t = (Ok tt, MkTree ns' (root t) (len t)) ∧
      grows (nodes t) (s_foot c) ns' f' ∧
      shape h (MIN_DEGREE - 1) ns' (Sub (s_id c) f' (upsert key value (s_ents c)))) →
  node_ok lo (nodes t) s (k1 ++ k2) (s1 ++ c :: s2) → length s1 = length k1 →
  length (s1 ++ c :: s2) = S (length (k1 ++ k2)) →
  Forall (shape h (MIN_DEGREE - 1) (nodes t)) (s1 ++ c :: s2) → NoDup (s_foot s) → sorted (s_ents s) →
  key ∉ (s_ents s).*1 → Forall (before key) k1 → Forall (after key) k2 →
  (∃ n, nodes t !! s_id c = Some n ∧ length (keys n) < MAX_KEYS) →
  ∃ ns' f', (node ← node_at (s_id s);
      child_id ← lift (index (children node) (length k1));
      insert_non_full fuel child_id key value) t = (Ok tt, MkTree ns' (root t) (len t)) ∧
    grows (nodes t) (s_foot s) ns' f' ∧
    shape (S h) lo ns' (Sub (s_id s) f' (upsert key value (s_ents s))).
Proof.
  intros IH Hok Hl1 Hlen Hsubs Hnd Hs Hni Hbef Haft Hroom. pose proof Hok as (Hn & Hl & Hf & He).
  rewrite He in Hs, Hni. destruct (node_around key s1 c s2 k1 k2 Hl1 Hlen Hs Hbef Haft) as (Hsc & Hpre & Hpost).
  assert (shape h (MIN_DEGREE - 1) (nodes t) c) as Hcs.
  { rewrite Forall_forall in Hsubs. apply Hsubs, elem_of_app. right. left. }
  rewrite node_ents_split in Hni by done. rewrite elem_of_mid in Hni by done.
  destruct (IH c Hcs Hsc (child_nodup _ _ _ _ Hf Hnd) Hni Hroom) as (ns' & f' & Hrun & Hg & Hsh).
  destruct (plug h lo (nodes t) s k1 k2 s1 c s2 ns' (Sub (s_id c) f' (upsert key value (s_ents c))))
    as [Hsh' Hg']; auto.
  eexists ns', _. split; [|split; [exact Hg'|]].
  - erewrite M_bind_run by (by apply node_at_run). cbn [children].
    rewrite fmap_app, fmap_cons, (index_run _ _ (s_id c)) by (apply lookup_mid; by rewrite length_fmap).
    run_steps. exact Hrun.
  - rewrite He, node_ents_split, upsert_mid by done. exact Hsh'.
Qed.

Lemma insert_non_full_spec h lo fuel t s key value :
  shape h lo (nodes t) s → sorted (s_ents s) → NoDup (s_foot s) → key ∉ (s_ents s).*1 →
  (∃ n, nodes t !! s_id s = Some n ∧ length (keys n) < MAX_KEYS) → h < fuel →
  ∃ ns' f', insert_non_full fuel (s_id s) key value t = (Ok tt, MkTree ns' (root t) (len t)) ∧
    grows (nodes t) (s_foot s) ns' f' ∧
    shape h lo ns' (Sub (s_id s) f' (upsert key value (s_ents s))).
Proof.
  revert lo fuel t s. induction h as [h IH] using lt_wf_ind.
  intros lo [|fuel] t s Hsh Hs Hnd Hni (n & Hn' & Hroom) Hfuel; [lia|].
  apply shape_below in Hsh as (kvs & subs & Hok & Hb). pose proof Hok as (Hn & Hl & Hf & He).
  rewrite Hn in Hn'. injection Hn' as <-. cbn [keys] in Hroom. rewrite length_fmap in Hroom.
  pose proof (below_arity _ _ _ _ Hb) as Ha. cbn [insert_non_full].
  erewrite M_bind_run by (by apply node_at_run). cbn [keys values children].
  pose proof Hs as Hs'. pose proof Hni as Hni'. rewrite He in Hs', Hni'.
  destruct (node_search key subs kvs Ha Hs')
    as [k1 v k2 pre post -> Hbef Heq|k1 k2 -> -> Hbef Haft|s1 c s2 k1 k2 -> -> Hl1 Hbef Haft].
  - destruct Hni'. rewrite Heq, fmap_app, fmap_cons. apply elem_of_app. right. left.
  - destruct (own_update h lo (nodes t) s _ _ (k1 ++ (key, value) :: k2) Hok Hb Hnd) as [Hsh' Hg];
      [rewrite !length_app in *; cbn [length]; lia|by left|].
    eexists _, _. split; [|split; [exact Hg|]].
    + cbn [leaf children fmap list_fmap]. rewrite !fmap_app.
      rewrite (vec_insert_run k1.*1) by (by rewrite length_fmap). run_steps.
      rewrite (vec_insert_run k1.*2) by (by rewrite length_fmap). run_steps.
      rewrite set_node_run by (by eapply lookup_lt_Some). reflexivity.
    + cbn [node_ents] in *. rewrite He, upsert_new by done. exact Hsh'.
  - destruct h as [|h]; [by destruct s1|]. destruct Hb as [Hlen Hsubs].
    rewrite inner_not_leaf by done.
    rewrite fmap_app, fmap_cons, (index_run _ _ (s_id c)) by (apply lookup_mid; by rewrite length_fmap).
    run_steps.
    assert (shape h (MIN_DEGREE - 1) (nodes t) c) as Hcs.
    { rewrite Forall_forall in Hsubs. apply Hsubs, elem_of_app. right. left. }
    pose proof Hcs as (kvc & subc & (Hnc & Hlc & _) & _)%shape_below.
    erewrite M_bind_run by (by apply node_at_run). cbn [keys].
    case_match eqn:Hfull.
    2: { run_steps. apply Nat.eqb_neq in Hfull. eapply descend; eauto.
         - intros c' H1 H2 H3 H4 H5. apply (IH h); auto; lia.
         - eexists. split; [exact Hnc|]. cbn [keys]. rewrite length_fmap in *. lia. }
    apply Nat.eqb_eq in Hfull.
    destruct (split_spec h lo t s k1 k2 s1 c s2 _ Hok Hl1 Hlen Hsubs Hnd Hroom Hnc Hfull)
      as (ns1 & [mk mv] & cl & cr & f1 & Hrun & Hok1 & Hsubs1 & Hg1 & Hroom1).
    rewrite run_bind. erewrite M_bind_run by exact Hrun.
    set (t1 := MkTree ns1 (root t) (len t)). set (s' := Sub (s_id s) f1 (s_ents s)) in *.
    assert (node_ok lo ns1 s' (k1 ++ (mk, mv) :: k2) (s1 ++ cl :: cr :: s2)) as Hok1'.
    { destruct Hok1 as (? & ? & ? & ?). split_and!; auto; lia. }
    pose proof Hok1 as (Hn1 & _ & Hf1 & He1). cbn [s_id s_foot s_ents s'] in Hn1, Hf1, He1.
    rewrite run_bind. erewrite M_bind_run by (by apply node_at_run). cbn [keys].
    rewrite fmap_app, fmap_cons. cbn [fst].
    rewrite (index_run _ _ mk) by (apply lookup_mid; by rewrite length_fmap).
    rewrite run_bind, run_lift_ok. cbv beta.
    assert (NoDup f1) as Hnd1 by (by apply (grows_nodup _ _ _ _ Hg1)).
    assert (length (s1 ++ cl :: cr :: s2) = S (length (k1 ++ (mk, mv) :: k2))) as Hlen1
      by (rewrite !length_app in *; cbn [length] in *; lia).
    assert (mk ∈ (s_ents s).*1) as Hmk.
    { rewrite He1. destruct (node_ents_key (s1 ++ cl :: cr :: s2) k1 mk k2) as (pre & post & ->).
      { intros v. right. rewrite !length_app in *. cbn [length] in *. lia. }
      rewrite fmap_app, fmap_cons. apply elem_of_app. right. left. }
    assert (∀ c' : sub, shape h (MIN_DEGREE - 1) ns1 c' → sorted (s_ents c') → NoDup (s_foot c') →
      key ∉ (s_ents c').*1 → (∃ n, ns1 !! s_id c' = Some n ∧ length (keys n) < MAX_KEYS) →
      ∃ ns' f', insert_non_full fuel (s_id c') key value t1 = (Ok tt, MkTree ns' (root t) (len t)) ∧
        grows ns1 (s_foot c') ns' f' ∧
        shape h (MIN_DEGREE - 1) ns' (Sub (s_id c') f' (upsert key value (s_ents c')))) as IHt.
    { intros c' H1 H2 H3 H4 H5. apply (IH h ltac:(lia) (MIN_DEGREE - 1) fuel t1); auto; lia. }
    destruct (str_cmp key mk) eqn:Hcmp.
    + apply str_cmp_eq in Hcmp as ->. done.
    + run_steps.
      destruct (descend h lo fuel t1 s' k1 ((mk, mv) :: k2) s1 cl (cr :: s2) key value)
        as (ns2 & f2 & Hrun2 & Hg2 & Hsh2); auto.
      exists ns2, f2. split; [exact Hrun2|]. split; [|exact Hsh2]. by eapply grows_trans.
    + apply str_cmp_gt in Hcmp. run_steps.
      rewrite (cons_middle cl), app_assoc in Hok1', Hsubs1, Hlen1.
      rewrite (cons_middle (mk, mv)), (app_assoc k1) in Hok1', Hlen1.
      destruct (descend h lo fuel t1 s' (k1 ++ [(mk, mv)]) k2 (s1 ++ [cl]) cr s2 key value)
        as (ns2 & f2 & Hrun2 & Hg2 & Hsh2); auto.
      { rewrite !length_app. cbn. lia. }
      { apply Forall_app. split; [done|]. by constructor. }
      exists ns2, f2. rewrite length_app in Hrun2. split; [exact Hrun2|]. split; [|exact Hsh2]. by eapply grows_trans.
Qed.

(** ** The index as a whole *)

(** The root may be short, but an inner root has a key.  The tree owns the whole
    arena. *)
Definition root_min (h : nat) : nat := match h with O => 0 | S _ => 1 end.

Definition tree_wf (t : BTreeIndex) (es : list entry) : Prop :=
  ∃ h f, shape h (root_min h) (nodes t) (Sub (root t) f es) ∧ NoDup f ∧ sorted es ∧ len t = length es ∧
    length f = length (nodes t).

Lemma tree_wf_sorted t es : tree_wf t es → sorted es.
Proof. by intros (? & ? & ? & ? & ? & ?). Qed.

Lemma new_wf : tree_wf new [].
Proof.
  exists 0, [0]. split; [|split_and!; [|apply sorted_nil|done..]].
  - exists [], []. split; [|done]. split_and!; cbn; try done; unfold MAX_KEYS, MIN_DEGREE; lia.
  - apply NoDup_singleton.
Qed.

Lemma shape_lo h lo lo' ns s n :
  shape h lo ns s → ns !! s_id s = Some n → lo' ≤ length (keys n) → shape h lo' ns s.
Proof.
  intros (kvs & subs & (Hn & Hl & Hf & He) & Hb)%shape_below Hn' Hlo. rewrite Hn in Hn'.
  injection Hn' as <-. cbn [keys] in Hlo. rewrite length_fmap in Hlo.
  apply shape_below. exists kvs, subs. split; [|done]. split_and!; auto; lia.
Qed.

Lemma shape_node h lo ns s : shape h lo ns s → ∃ n, ns !! s_id s = Some n ∧ length (keys n) ≤ MAX_KEYS.
Proof.
  intros (kvs & subs & (Hn & Hl & _) & _)%shape_below. eexists. split; [exact Hn|].
  cbn [keys]. rewrite length_fmap. lia.
Qed.

(** Growing a new root above a full one. *)
Lemma grow_root h t f es n :
  shape h (root_min h) (nodes t) (Sub (root t) f es) → NoDup f →
  nodes t !! root t = Some n → length (keys n) = MAX_KEYS →
  ∃ ns f', split_child (length (nodes t)) 0
      (MkTree (nodes t ++ [MkNode [] [] [root t]]) (length (nodes t)) (len t))
      = (Ok tt, MkTree ns (length (nodes t)) (len t)) ∧
    shape (S h) 1 ns (Sub (length (nodes t)) f' es) ∧ NoDup f' ∧ length ns + length f = length (nodes t) + length f' ∧
    ∃ n', ns !! length (nodes t) = Some n' ∧ length (keys n') < MAX_KEYS.
Proof.
  intros Hsh Hnd Hn Hfull. set (r := length (nodes t)). set (ns0 := nodes t ++ [MkNode [] [] [root t]]).
  set (c := Sub (root t) f es).
  assert (shape h (MIN_DEGREE - 1) ns0 c) as Hc.
  { apply (shape_frame _ _ (nodes t)).
    - eapply shape_lo; [exact Hsh|exact Hn|]. rewrite Hfull. unfold MAX_KEYS, MIN_DEGREE. lia.
    - intros i Hi. unfold ns0. apply lookup_app_l. eapply (shape_foot _ _ _ c); [exact Hsh|done]. }
  assert (node_ok 0 ns0 (Sub r (r :: f) es) ([] ++ []) ([] ++ [c])) as Hok.
  { split_and!; cbn [app s_id s_foot s_ents fmap list_fmap length].
    - unfold ns0. apply lookup_mid. done.
    - lia.
    - unfold MAX_KEYS, MIN_DEGREE. lia.
    - cbn. by rewrite app_nil_r.
    - cbn. by rewrite app_nil_r. }
  assert (NoDup (r :: f)) as Hnd'.
  { apply NoDup_cons. split; [|done]. intros Hin.
    pose proof (shape_foot _ _ _ _ r Hsh Hin). unfold r in *. lia. }
  destruct (split_spec h 0 (MkTree ns0 r (len t)) (Sub r (r :: f) es) [] [] [] c [] n Hok)
    as (ns & kv & cl & cr & f' & Hrun & Hok' & Hsubs & Hg & _); auto.
  { by constructor. }
  { unfold MAX_KEYS, MIN_DEGREE. cbn. lia. }
  { cbn [nodes]. unfold ns0. rewrite lookup_app_l by (by eapply lookup_lt_Some). exact Hn. }
  exists ns, f'. split; [exact Hrun|]. split; [|split; [|split]].
  - apply shape_below. exists [kv], [cl; cr]. split; [exact Hok'|]. done.
  - by apply (grows_nodup _ _ _ _ Hg).
  - pose proof (grows_count _ _ _ _ Hg) as Hcount. cbn [nodes s_foot length] in Hcount.
    unfold ns0 in Hcount. rewrite length_app in Hcount. cbn [length] in Hcount. lia.
  - destruct Hok' as (Hn' & _). eexists. split; [exact Hn'|]. cbn. unfold MAX_KEYS, MIN_DEGREE. lia.
Qed.

Lemma insert_spec t es key value :
  tree_wf t es → ∃ t', insert key value t = (Ok tt, t') ∧ tree_wf t' (upsert key value es).
Proof.
  intros (h & f & Hsh & Hnd & Hs & Hlen & Hcount). set (s := Sub (root t) f es) in *.
  pose proof (shape_fuel _ _ _ _ Hsh Hnd) as Hfuel.
  pose proof (replace_spec h _ (length (nodes t)) t s key value Hsh Hs Hnd Hfuel) as Hrep.
  unfold insert. run_steps. cbn [s_ents s_foot s_id s] in Hrep. case_decide as Hin.
  { destruct Hrep as (ns' & Hrun & Hg & Hsh'). erewrite M_bind_run by exact Hrun.
    eexists. split; [reflexivity|]. exists h, f. split_and!; auto using sorted_upsert.
    - cbn [len]. by rewrite length_upsert, decide_True.
    - pose proof (grows_count _ _ _ _ Hg). cbn [nodes]. lia. }
  erewrite M_bind_run by exact Hrep.
  destruct (shape_node _ _ _ _ Hsh) as (n & Hn & Hmax).
  erewrite M_bind_run by (by apply node_at_run).
  assert (∃ ns1 r h1 f1, (if length (keys n) =? MAX_KEYS then
      _ ← push_node (MkNode [] [] [root t]);
      t ← get_state;
      let r := length (nodes t) - 1 in
      _ ← modify (λ t, MkTree (nodes t) r (len t));
      split_child r 0
    else mret tt : tree unit) t = (Ok tt, MkTree ns1 r (len t)) ∧
    shape h1 (root_min h1) ns1 (Sub r f1 es) ∧ NoDup f1 ∧ length f1 = length ns1 ∧
    ∃ n', ns1 !! r = Some n' ∧ length (keys n') < MAX_KEYS)
    as (ns1 & r & h1 & f1 & Hrun & Hsh1 & Hnd1 & Hcount1 & Hroom).
  { case_match eqn:Hfull.
    - apply Nat.eqb_eq in Hfull.
      destruct (grow_root h t f es n Hsh Hnd Hn Hfull) as (ns1 & f1 & Hrun & Hsh1 & Hnd1 & Hcount1 & Hroom).
      exists ns1, (length (nodes t)), (S h), f1. split; [|split_and!; auto; lia].
      unfold push_node. run_steps. cbn [nodes root len]. rewrite length_app. cbn [length].
      rewrite Nat.add_sub. exact Hrun.
    - apply Nat.eqb_neq in Hfull. exists (nodes t), (root t), h, f. split; [by destruct t|].
      split_and!; auto. exists n. split; [done|lia]. }
  erewrite M_bind_run by exact Hrun. run_steps. cbn [nodes root].
  destruct (insert_non_full_spec h1 _ (length ns1) (MkTree ns1 r (len t)) (Sub r f1 es) key value
    Hsh1 Hs Hnd1 Hin Hroom) as (ns2 & f2 & Hrun2 & Hg2 & Hsh2).
  { by eapply (shape_fuel _ _ _ (Sub r f1 es)). }
  erewrite M_bind_run by exact Hrun2. eexists. split; [reflexivity|]. cbn [nodes root len].
  exists h1, f2. split_and!; auto using sorted_upsert.
  - by apply (grows_nodup _ _ _ _ Hg2).
  - cbn [len]. by rewrite length_upsert, decide_False, Hlen.
  - pose proof (grows_count _ _ _ _ Hg2) as Hc. cbn [nodes s_foot] in *. lia.
Qed.

Lemma get_spec t es key :
  tree_wf t es → get t key = Ok ((list_to_map es : gmap string string) !! key).
Proof.
  intros (h & f & Hsh & Hnd & Hs & _). unfold get.
  apply (get_from_spec h (root_min h) _ t (Sub (root t) f es)); auto. by apply (shape_fuel _ _ _ _ Hsh).
Qed.

Lemma entries_spec t es : tree_wf t es → entries t = Ok es.
Proof.
  intros (h & f & Hsh & Hnd & Hs & _). unfold entries.
  apply (collect_spec h (root_min h) _ t (Sub (root t) f es)); auto. by apply (shape_fuel _ _ _ _ Hsh).
Qed.

Lemma keys_spec t es : tree_wf t es → keys_of t = Ok es.*1.
Proof.
  intros (h & f & Hsh & Hnd & Hs & _). unfold keys_of.
  apply (collect_keys_spec h (root_min h) _ t (Sub (root t) f es)); auto. by apply (shape_fuel _ _ _ _ Hsh).
Qed.

(** Rebuilding from sorted entries gives them back. *)
Lemma rebuild_spec l t es :
  tree_wf t es → sorted (es ++ l) →
  ∃ t', for_each l (λ e, insert e.1 e.2) t = (Ok tt, t') ∧ tree_wf t' (es ++ l).
Proof.
  revert t es. induction l as [|[k v] l IH]; intros t es Hwf Hs; cbn [for_each].
  { exists t. by rewrite app_nil_r. }
  destruct (insert_spec t es k v Hwf) as (t1 & Hrun & Hwf1). erewrite M_bind_run by exact Hrun.
  rewrite <- (app_nil_r es), upsert_new in Hwf1 by (by constructor || by eapply sorted_before).
  destruct (IH t1 (es ++ [(k, v)]) Hwf1) as (t2 & Hrun2 & Hwf2); [by rewrite <- app_assoc|].
  exists t2. split; [done|]. by rewrite <- app_assoc in Hwf2.
Qed.

Lemma sorted_filter (P : entry → Prop) `{!∀ e, Decision (P e)} es : sorted es → sorted (base.filter P es).
Proof.
  induction es as [|e es IH]; [done|]. intros [Ha Hs]%sorted_cons. rewrite filter_cons.
  case_decide; [|auto]. apply sorted_cons. split; [|auto].
  rewrite Forall_forall in Ha |- *. intros x [_ Hx]%list_elem_of_filter. by apply Ha.
Qed.

Lemma filter_id {A} (P : A → Prop) `{!∀ a, Decision (P a)} (l : list A) : Forall P l → base.filter P l = l.
Proof. induction 1 as [|a l Ha _ IH]; [done|]. by rewrite filter_cons_True, IH. Qed.

Lemma delete_spec t es key :
  tree_wf t es →
  ∃ t', delete key t = (Ok (bool_decide (key ∈ es.*1)), t') ∧
    tree_wf t' (base.filter (λ e, e.1 ≠ key) es).
Proof.
  intros Hwf. unfold delete. run_steps. rewrite (get_spec t es key Hwf). run_steps.
  destruct ((list_to_map es : gmap string string) !! key) as [v|] eqn:Hk.
  - rewrite bool_decide_true by (apply elem_of_map; eauto).
    rewrite (entries_spec t es Hwf). run_steps.
    destruct (rebuild_spec (base.filter (λ e, e.1 ≠ key) es) new [] new_wf) as (t' & Hrun & Hwf').
    { apply sorted_filter. by apply (tree_wf_sorted t). }
    erewrite M_bind_run by exact Hrun. exists t'. by split.
  - assert (key ∉ es.*1) as Hni by (by apply not_elem_of_list_to_map_2).
    rewrite bool_decide_false by done. exists t. split; [done|].
    rewrite filter_id; [done|]. apply Forall_forall. intros e He Hk'. apply Hni, list_elem_of_fmap. eauto.
Qed.

(** ** Depth *)

Lemma node_ents_size m subs kvs :
  length subs = S (length kvs) → (∀ c, c ∈ subs → m ≤ S (length (s_ents c))) →
  S (length kvs) * m ≤ S (length (node_ents subs kvs)).
Proof.
  destruct subs as [|c subs]; [done|]. cbn [node_ents length]. intros [= Hl] Hm.
  pose proof (Hm c ltac:(left)) as Hc. rewrite length_app.
  assert (∀ c, c ∈ subs → m ≤ S (length (s_ents c))) as Hm' by (intros; apply Hm; by right).
  assert (length kvs * m ≤ length (flank_r kvs subs)); [|lia]. clear -Hl Hm'.
  revert subs Hl Hm'. induction kvs as [|kv kvs IH]; intros [|c subs] Hl Hm; try discriminate Hl; [done|].
  change (flank_r (kv :: kvs) (c :: subs)) with ((kv :: s_ents c) ++ flank_r kvs subs).
  rewrite length_app. cbn [length]. pose proof (Hm c ltac:(left)).
  injection Hl as Hl. pose proof (IH subs Hl (λ c' Hc', Hm c' ltac:(by right))). lia.
Qed.

(** A subtree of height [h] holds at least [8 ^ (h + 1) - 1] entries. *)
Lemma shape_size h lo ns s :
  shape h lo ns s → MIN_DEGREE - 1 ≤ lo → MIN_DEGREE ^ S h ≤ S (length (s_ents s)).
Proof.
  revert lo s. induction h as [|h IH]; intros lo s (kvs & subs & (Hn & Hl & Hf & He) & Hb) Hlo; rewrite He.
  - subst subs. cbn [node_ents]. unfold MIN_DEGREE in *. cbn in *. lia.
  - destruct Hb as [Hlen Hb]. rewrite Forall_forall in Hb.
    pose proof (node_ents_size (MIN_DEGREE ^ S h) subs kvs Hlen (λ c Hc, IH _ c (Hb c Hc) ltac:(lia))).
    rewrite Nat.pow_succ_r'. unfold MIN_DEGREE in *. nia.
Qed.

Lemma tree_depth t es :
  tree_wf t es → ∃ h f, shape h (root_min h) (nodes t) (Sub (root t) f es) ∧
    (h = 0 ∨ 2 * MIN_DEGREE ^ h ≤ S (len t)).
Proof.
  intros (h & f & Hsh & _ & _ & Hlen & _). exists h, f. split; [done|]. rewrite Hlen.
  destruct h as [|h]; [by left|right]. destruct Hsh as (kvs & subs & (Hn & Hl & Hf & He) & Hlens & Hb).
  cbn [s_ents] in He. rewrite He. rewrite Forall_forall in Hb.
  pose proof (node_ents_size (MIN_DEGREE ^ S h) subs kvs Hlens (λ c Hc, shape_size h _ _ c (Hb c Hc) (le_n _))).
  cbn [root_min] in Hl. nia.
Qed.

(** ** Properties *)

Inductive change : Type := Insert (key value : string) | Delete (key : string).

(** A change of an index, with what [delete] returns. *)
Definition apply_change (c : change) : tree bool :=
  match c with
  | Insert key value => _ ← insert key value; mret false
  | Delete key => delete key
  end.

Fixpoint apply_changes (cs : list change) : tree (list bool) :=
  match cs with [] => mret [] | c :: cs => b ← apply_change c; bs ← apply_changes cs; mret (b :: bs) end.

(** The same on a map. *)
Definition change_map (m : gmap string string) (c : change) : gmap string string :=
  match c with Insert key value => <[key := value]> m | Delete key => base.delete key m end.
Definition change_answer (m : gmap string string) (c : change) : bool :=
  match c with Insert _ _ => false | Delete key => bool_decide (is_Some (m !! key)) end.
Fixpoint change_answers (m : gmap string string) (cs : list change) : list bool :=
  match cs with [] => [] | c :: cs => change_answer m c :: change_answers (change_map m c) cs end.

(** A tree that stands for a map. *)
Definition represents (t : BTreeIndex) (m : gmap string string) : Prop :=
  ∃ es, tree_wf t es ∧ list_to_map es = m.

Lemma sorted_le es : sorted es → StronglySorted (λ p q : entry, String.le p.1 q.1) es.
Proof.
  induction 1 as [|e es _ IH Ha]; constructor; [done|].
  eapply Forall_impl; [exact Ha|]. intros x Hx. by apply str_lt_le in Hx as [? _].
Qed.

Lemma map_filter_ne key es :
  (list_to_map (base.filter (λ e, e.1 ≠ key) es) : gmap string string) = base.delete key (list_to_map es).
Proof.
  induction es as [|[k v] es IH]; [symmetry; apply (delete_empty (M:=gmap string))|]. rewrite filter_cons, list_to_map_cons. cbn [fst].
  case_decide as Hk.
  - rewrite list_to_map_cons, IH, delete_insert_ne by congruence. done.
  - cbn in Hk. subst k. by rewrite IH, delete_insert_eq.
Qed.

Lemma sorted_iter es : sorted es → es = btree_iter (list_to_map es : gmap string string).
Proof.
  intros Hs. apply (StronglySorted_unique_strong (λ p q : entry, String.le p.1 q.1)).
  - intros [k v] [k' v'] H1 H2%elem_of_btree_iter Hle Hle'. cbn in *.
    assert (k = k') as -> by (by apply (anti_symm String.le)). f_equal.
    apply elem_of_list_to_map_1 in H1; [congruence|by apply sorted_NoDup].
  - by apply sorted_le.
  - apply btree_iter_sorted.
  - rewrite btree_iter_perm. by rewrite map_to_list_to_map by (by apply sorted_NoDup).
Qed.

Lemma represents_new : represents new ∅.
Proof. exists []. split; [apply new_wf|done]. Qed.

Lemma change_spec t m c :
  represents t m →
  ∃ t', apply_change c t = (Ok (change_answer m c), t') ∧ represents t' (change_map m c).
Proof.
  intros (es & Hwf & <-). assert (sorted es) as Hs by (by apply (tree_wf_sorted t)).
  destruct c as [key value|key]; cbn [apply_change].
  - destruct (insert_spec t es key value Hwf) as (t' & Hrun & Hwf'). erewrite M_bind_run by exact Hrun.
    exists t'. split; [done|]. exists (upsert key value es). split; [done|]. by apply map_upsert.
  - destruct (delete_spec t es key Hwf) as (t' & Hrun & Hwf'). exists t'. split.
    + rewrite Hrun. cbn [change_answer]. do 2 f_equal. apply bool_decide_ext, elem_of_map.
    + eexists. split; [exact Hwf'|]. apply map_filter_ne.
Qed.

Lemma changes_spec cs t m :
  represents t m →
  ∃ t', apply_changes cs t = (Ok (change_answers m cs), t') ∧ represents t' (foldl change_map m cs).
Proof.
  revert t m. induction cs as [|c cs IH]; intros t m Hr; cbn [apply_changes].
  { exists t. by split. }
  destruct (change_spec t m c Hr) as (t1 & Hrun & Hr1). erewrite M_bind_run by exact Hrun.
  destruct (IH t1 _ Hr1) as (t2 & Hrun2 & Hr2). erewrite M_bind_run by exact Hrun2.
  by exists t2.
Qed.

(** What a represented index answers. *)
Record answers_as (t : BTreeIndex) (m : gmap string string) : Prop := AnswersAs {
  answers_get key : get t key = Ok (m !! key);
  answers_len : len t = base.size m;
  answers_entries : entries t = Ok (btree_iter m);
  answers_keys : keys_of t = Ok (btree_keys m);
  answers_range start stop :
    range t start stop = Ok (base.filter (λ e, in_range start stop e.1 = true) (btree_iter m));
}.

Lemma represents_answers t m : represents t m → answers_as t m.
Proof.
  intros (es & Hwf & <-). assert (sorted es) as Hs by (by apply (tree_wf_sorted t)).
  pose proof (sorted_iter es Hs) as Hit. pose proof (entries_spec t es Hwf) as He. split.
  - intros key. by apply get_spec.
  - destruct Hwf as (h & f & _ & _ & _ & -> & _). by rewrite map_size_list_to_map by (by apply sorted_NoDup).
  - by rewrite <- Hit.
  - unfold btree_keys. rewrite <- Hit. by apply keys_spec.
  - intros start stop. unfold range. rewrite He. cbn. by rewrite <- Hit.
Qed.

(** C10. The B-tree implements a finite map: whatever insertions and deletions are
    made from an empty index, none of them panics or runs out of fuel, deletions
    report whether the key was there, and afterwards [get], [len], [entries],
    [keys] and [range] answer as the map with those changes does, entries in the
    byte order of their keys. *)
Theorem btree_refines_map cs :
  ∃ t, apply_changes cs new = (Ok (change_answers ∅ cs), t) ∧ answers_as t (foldl change_map ∅ cs).
Proof.
  destruct (changes_spec cs new ∅ represents_new) as (t & Hrun & Hr).
  exists t. split; [done|]. by apply represents_answers.
Qed.

(** C25. Lookups are logarithmic.  After any insertions and deletions, the descent
    of [get] that is given [h + 1] steps, one per node it visits, answers what
    the map with those changes holds under the key, where [h] is 0, when the
    root is a leaf, or else [2 * 8 ^ h] is at most one more than the number of
    keys: a lookup visits no more than [1 + log_8 ((len + 1) / 2)] nodes. *)
Theorem lookup_is_logarithmic cs :
  ∃ t h, apply_changes cs new = (Ok (change_answers ∅ cs), t) ∧
    (h = 0 ∧ (λ n, leaf n) <$> nodes t !! root t = Some true ∨ 0 < h ∧ 2 * MIN_DEGREE ^ h ≤ S (len t)) ∧
    ∀ steps key, h < steps → get_from steps t (root t) key = Ok (foldl change_map ∅ cs !! key).
Proof.
  destruct (changes_spec cs new ∅ represents_new) as (t & Hrun & es & Hwf & Hm). exists t.
  destruct (tree_depth t es Hwf) as (h & f & Hsh & Hh). exists h. split; [done|]. split.
  - destruct h as [|h]; [left; split; [done|]|right; split; [lia|by destruct Hh]].
    destruct Hsh as (kvs & subs & (Hn & _) & ->). cbn [s_id] in Hn. by rewrite Hn.
  - intros steps key Hs. rewrite <- Hm.
    apply (get_from_spec h (root_min h) steps t (Sub (root t) f es)); [done| |lia].
    by apply (tree_wf_sorted t).
Qed.
