(* ===== verification/BTreeFile.v ===== *)
(** Saving and loading the B-tree: the persistent half of src/src/btree.rs.

    A snapshot is a file of slotted pages written through the pager: page 0 the
    metadata, page [i + 1] the arena's node [i].  [save] writes a temporary file
    and publishes it by renaming; the directory is modelled with its three files
    (the snapshot, its temporary and its backup), a script of the environment's
    answers, and the states a crash may fall back to until the directory itself
    is synced.  This is the Unix code path ([cfg(unix)]). *)

From stdpp Require Import gmap.
From S2P Require Import Prelude Bytes Crc Wal Page Pager BTree BTreeSpec.
From Stdlib Require Import Ascii.

Definition invalid (message : string) : io_error := invalid_data message.

(** ** Cells *)

Definition encode_pair (key value : string) : io bytes :=
  key_len ← u32_try_from (str_len key) (invalid_input "btree: key too large");
  value_len ← u32_try_from (str_len value) (invalid_input "btree: value too large");
  Ok (u32_le key_len ++ u32_le value_len ++ as_bytes key ++ as_bytes value).

(** Lengths are compared as integers before any slice is cut. *)
Definition decode_pair (cell : bytes) : io (string * string * nat) :=
  if length cell <? 8 then Err (invalid "btree: short cell") else
  let key_len := from_le_bytes (take 4 cell) in
  let value_len := from_le_bytes (take 4 (drop 4 cell)) in
  if negb (8 + key_len + value_len <=? Z.of_nat (length cell))%Z
  then Err (invalid "btree: value exceeds cell") else
  let key_end := 8 + Z.to_nat key_len in
  let value_end := key_end + Z.to_nat value_len in
  k ← slice cell 8 key_end;
  key ← from_utf8 k (invalid "btree: key is not UTF-8");
  v ← slice cell key_end value_end;
  value ← from_utf8 v (invalid "btree: value is not UTF-8");
  Ok (key, value, value_end).

Definition take_u64 (bs : bytes) (offset : nat) : io Z :=
  match get_range bs offset 8 with
  | Some x => Ok (from_le_bytes x)
  | None => Err (invalid "btree: missing u64")
  end.

Definition page_to_index (page : Z) (count : nat) : io nat :=
  if ((1 <=? page) && (page - 1 <? Z.of_nat count))%Z then Ok (Z.to_nat (page - 1))
  else Err (invalid "btree: child page out of range").

(** ** Writing the pages *)

Definition u64_of (n : nat) : bytes := u64_le (Z.of_nat n).

Definition meta_page (t : BTreeIndex) : io bytes :=
  meta ← Page.new Meta;
  let metadata := u64_of (root t + 1) ++ u64_of (length (nodes t)) ++ u64_of (len t) in
  meta ← Page.insert metadata meta;
  finish meta.

(** The cell of the entry [item]. *)
Definition node_cell (node : Node) (item : nat) : io bytes :=
  key ← index (keys node) item;
  value ← index (values node) item;
  cell ← encode_pair key value;
  if leaf node then Ok cell else
  child ← index (children node) (item + 1);
  Ok (cell ++ u64_of (child + 1)).

Definition node_page (node : Node) : io bytes :=
  page ← Page.new (if leaf node then Leaf else Internal);
  page ← (if leaf node then Ok page else
            left ← index (children node) 0;
            Page.insert (u64_of (left + 1)) page);
  page ← try_fold (seq 0 (length (keys node))) (λ item page,
    cell ← node_cell node item; Page.insert cell page) page;
  finish page.

(** [for (index, node) in nodes.iter().enumerate()] *)
Fixpoint write_nodes (index : nat) (ns : list Node) : pager unit :=
  match ns with
  | [] => mret tt
  | node :: ns =>
    bs ← lift (node_page node);
    _ ← write (index + 1) bs;
    write_nodes (S index) ns
  end.

Definition save_pages (t : BTreeIndex) : pager unit :=
  _ ← allocate;
  _ ← for_each (nodes t) (λ _, _ ← allocate; mret tt);
  bs ← lift (meta_page t);
  _ ← write 0 bs;
  _ ← write_nodes 0 (nodes t);
  flush.

(** ** Reading them back *)

Fixpoint read_cells (kind : PageKind) (count : nat) (cs : list bytes) (node : Node) : io Node :=
  match cs with
  | [] => Ok node
  | cell :: cs =>
    '(key, value, used) ← decode_pair cell;
    let node := MkNode (keys node ++ [key]) (values node ++ [value]) (children node) in
    node ←
      (if decide (kind = Internal) then
         page ← take_u64 cell used;
         child ← page_to_index page count;
         if negb (used + 8 =? length cell) then Err (invalid "btree: trailing internal cell bytes") else
         Ok (MkNode (keys node) (values node) (children node ++ [child]))
       else if negb (used =? length cell) then Err (invalid "btree: trailing leaf cell bytes")
       else Ok node);
    read_cells kind count cs node
  end.

Definition read_node (bs : bytes) (count : nat) : io Node :=
  page ← Page.from_bytes bs;
  cs ← cells page;
  k ← Page.kind page;
  '(node, rest) ←
    (if decide (k = Internal) then
       match cs with
       | [] => Err (invalid "btree: internal page has no child")
       | left_cell :: rest =>
         if negb (length left_cell =? 8) then Err (invalid "btree: malformed left child") else
         page ← take_u64 left_cell 0;
         child ← page_to_index page count;
         Ok (MkNode [] [] [child], rest)
       end
     else if negb (bool_decide (k = Leaf)) then Err (invalid "btree: unexpected node page kind")
     else Ok (default_node, cs));
  node ← read_cells k count rest node;
  if negb (leaf node) && negb (length (children node) =? length (keys node) + 1)
  then Err (invalid "btree: child/key count mismatch") else
  Ok node.

(** [for page_id in first..first + n] *)
Fixpoint read_nodes (first n count : nat) : pager (list Node) :=
  match n with
  | O => mret []
  | S n =>
    bs ← read first;
    node ← lift (read_node bs count);
    ns ← read_nodes (S first) n count;
    mret (node :: ns)
  end.

Definition load_pages : pager BTreeIndex :=
  p ← get_state;
  if page_count p =? 0 then mret BTree.new else
  bs ← read 0;
  meta ← lift (Page.from_bytes bs);
  k ← lift (Page.kind meta);
  if negb (bool_decide (k = Meta)) then fail (invalid "btree: page zero is not metadata") else
  cs ← lift (cells meta);
  match cs with
  | [c] =>
    if negb (length c =? 24) then fail (invalid "btree: malformed metadata") else
    root_page ← lift (take_u64 c 0);
    node_count ← lift (take_u64 c 8);
    entry_count ← lift (take_u64 c 16);
    p ← get_state;
    if (root_page =? 0)%Z || (node_count =? 0)%Z
       || negb (Z.of_nat (page_count p) =? (node_count + 1) mod 2 ^ 64)%Z
    then fail (invalid "btree: inconsistent metadata") else
    let count := Z.to_nat node_count in
    ns ← read_nodes 1 count count;
    r ← lift (page_to_index root_page count);
    let t := MkTree ns r (Z.to_nat entry_count) in
    es ← lift (entries t);
    if negb (Z.of_nat (length es) =? entry_count)%Z then fail (invalid "btree: entry count mismatch") else
    mret t
  | _ => fail (invalid "btree: malformed metadata")
  end.

(** Open a pager, use it, and drop it whatever happened: [Drop] flushes. *)
Definition with_pager {A} (opening : M file io_error Pager) (m : pager A) : M file io_error A := λ f,
  match opening f with
  | (Ok p, _) => let '(r, p') := m p in (r, drop_pager p')
  | (Err e, f') => (Err e, f')
  | (Panic s, f') => (Panic s, f')
  end.

Definition CACHE : nat := 64.

Definition write_file (t : BTreeIndex) : M file io_error unit := with_pager (create CACHE) (save_pages t).
Definition load_exact : M file io_error BTreeIndex := with_pager (open CACHE) load_pages.

(** ** The directory *)

(** Contents, and what of them a crash is sure to keep. *)
Record stored_file : Type := MkStored { now : bytes; kept : bytes }.
Abbreviation slot := (option stored_file).

Record dir : Type := MkDir {
  d_main : slot;                      (* the snapshot *)
  d_temp : slot;                      (* snapshot.tmp *)
  d_backup : slot;                    (* snapshot.bak *)
  d_past : list (slot * slot);        (* earlier snapshots and backups, since the last directory sync *)
  d_parent : bool;                    (* the path names its directory *)
  d_env : list sys;
}.

Abbreviation fs := (M dir io_error).

Definition set_env (env : list sys) (d : dir) : dir :=
  MkDir (d_main d) (d_temp d) (d_backup d) (d_past d) (d_parent d) env.
Definition set_main (s : slot) (d : dir) : dir :=
  MkDir s (d_temp d) (d_backup d) (d_past d) (d_parent d) (d_env d).
Definition set_temp (s : slot) (d : dir) : dir :=
  MkDir (d_main d) s (d_backup d) (d_past d) (d_parent d) (d_env d).
Definition set_backup (s : slot) (d : dir) : dir :=
  MkDir (d_main d) (d_temp d) s (d_past d) (d_parent d) (d_env d).
(** Before a change of names: a crash may still find the present ones. *)
Definition remember (d : dir) : dir :=
  MkDir (d_main d) (d_temp d) (d_backup d) ((d_main d, d_backup d) :: d_past d) (d_parent d) (d_env d).

Definition dir_call : fs unit := λ d,
  match d_env d with
  | [] => (Ok tt, d)
  | SysOk :: env => (Ok tt, set_env env d)
  | SysFail _ e :: env => (Err e, set_env env d)
  end.

(** A file operation on one of the names. *)
Definition on_slot {A} (get : dir → slot) (put : slot → dir → dir) (m : M file io_error A) : fs A := λ d,
  let f := match get d with
           | Some s => File true (now s) (kept s) (d_env d) []
           | None => File false [] [] (d_env d) []
           end in
  let '(r, f') := m f in
  (r, put (if f_exists f' then Some (MkStored (f_content f') (f_synced f')) else None)
          (set_env (f_env f') d)).

Definition not_found : io_error := IoError NotFound "No such file or directory (os error 2)".

Definition remove_temp : fs unit :=
  _ ← dir_call; d ← get_state; _ ← guard (bool_decide (is_Some (d_temp d))) not_found;
  modify (set_temp None).
Definition remove_backup : fs unit :=
  _ ← dir_call; d ← get_state; _ ← guard (bool_decide (is_Some (d_backup d))) not_found;
  modify (λ d, set_backup None (remember d)).

(** [fs::rename] replaces its target atomically. *)
Definition rename_main_backup : fs unit :=
  _ ← dir_call; d ← get_state; _ ← guard (bool_decide (is_Some (d_main d))) not_found;
  modify (λ d, set_backup (d_main d) (set_main None (remember d))).
Definition rename_temp_main : fs unit :=
  _ ← dir_call; d ← get_state; _ ← guard (bool_decide (is_Some (d_temp d))) not_found;
  modify (λ d, set_main (d_temp d) (set_temp None (remember d))).
Definition rename_backup_main : fs unit :=
  _ ← dir_call; d ← get_state; _ ← guard (bool_decide (is_Some (d_backup d))) not_found;
  modify (λ d, set_main (d_backup d) (set_backup None (remember d))).

(** [let _ = ...]: the result is ignored. *)
Definition ignore {A} (m : fs A) : fs unit := λ d,
  match m d with (Panic s, d') => (Panic s, d') | (_, d') => (Ok tt, d') end.

Definition exists_ (s : slot) : bool := bool_decide (is_Some s).

(** The new snapshot in place; a failure puts the old one back. *)
Definition publish_temp : fs unit := λ d,
  match rename_temp_main d with
  | (Ok _, d) => ignore remove_backup d
  | (Err error, d) =>
    (_ ← (if exists_ (d_backup d) then ignore rename_backup_main else mret tt); fail error) d
  | (Panic s, d) => (Panic s, d)
  end.

Definition publish_snapshot : fs unit :=
  _ ← ignore remove_backup;
  d ← get_state;
  _ ← (if exists_ (d_main d) then rename_main_backup else mret tt);
  publish_temp.

(** [sync_parent]: opening and syncing the parent, when the path has one. *)
Definition sync_parent : fs unit :=
  d ← get_state;
  if d_parent d then
    _ ← dir_call; _ ← dir_call;
    modify (λ d, MkDir (d_main d) (d_temp d) (d_backup d) [] (d_parent d) (d_env d))
  else mret tt.

Definition save (t : BTreeIndex) : fs unit :=
  _ ← ignore remove_temp;
  _ ← on_slot d_temp set_temp (write_file t);
  _ ← publish_snapshot;
  sync_parent.

Definition load : fs BTreeIndex := λ d,
  if exists_ (d_main d) then
    match on_slot d_main set_main load_exact d with
    | (Ok t, d) => (Ok t, d)
    | (Err error, d) =>
      if exists_ (d_backup d) then on_slot d_backup set_backup load_exact d else (Err error, d)
    | (Panic s, d) => (Panic s, d)
    end
  else if exists_ (d_backup d) then on_slot d_backup set_backup load_exact d
  else (Ok BTree.new, d).
