(* ===== verification/SnapshotSpec.v ===== *)
(** Snapshots round trip: the proofs of BTreeFile.v.

    [image t c] says that the bytes [c] are the pages of the index [t]; a saved
    file is one, and loading one gives back the very same arena.  [pair_holds]
    lifts this to a directory with its snapshot and backup. *)

From stdpp Require Import gmap.
From S2P Require Import Prelude Bytes Crc Wal Page Pager BTree BTreeSpec BTreeFile.
From Stdlib Require Import Ascii.

(** ** Cells *)

Definition pair_cell (key value : string) : bytes :=
  u32_le (Z.of_nat (str_len key)) ++ u32_le (Z.of_nat (str_len value)) ++ as_bytes key ++ as_bytes value.

Lemma encode_pair_ok key value cell : encode_pair key value = Ok cell → cell = pair_cell key value ∧
  u32_range (Z.of_nat (str_len key)) ∧ u32_range (Z.of_nat (str_len value)).
Proof.
  unfold encode_pair. intros H. invert_ok.
  repeat match goal with H : u32_try_from _ _ = Ok _ |- _ => apply u32_try_from_ok in H as [-> ?] end.
  done.
Qed.

Lemma length_pair_cell key value : length (pair_cell key value) = 8 + str_len key + str_len value.
Proof. unfold pair_cell, str_len. rewrite !length_app, !length_u32_le. lia. Qed.

Ltac by_len := unfold str_len; rewrite ?length_app, ?length_u32_le; lia.

Lemma slice_at pre x post bs i j :
  bs = pre ++ x ++ post → i = length pre → j = length pre + length x → slice bs i j = Ok x.
Proof. intros ->. apply slice_app. Qed.

Lemma decode_pair_cell key value rest :
  is_str key → is_str value → u32_range (Z.of_nat (str_len key)) → u32_range (Z.of_nat (str_len value)) →
  decode_pair (pair_cell key value ++ rest) = Ok (key, value, length (pair_cell key value)).
Proof.
  intros Hk Hv Hkl Hvl. unfold decode_pair.
  rewrite length_app, length_pair_cell. rewrite (proj2 (Nat.ltb_ge _ _)) by lia.
  unfold pair_cell. rewrite <- !app_assoc.
  rewrite take_app_length' by done. rewrite drop_app_length' by done. rewrite take_app_length' by done.
  rewrite !u32_le_inv by done. rewrite (proj2 (Z.leb_le _ _)) by lia. cbn [negb].
  rewrite !Nat2Z.id.
  set (a := u32_le (Z.of_nat (str_len key))). set (b := u32_le (Z.of_nat (str_len value))).
  assert (length a = 4 ∧ length b = 4) as [Hla Hlb] by done.
  rewrite (slice_at (a ++ b) (as_bytes key) (as_bytes value ++ rest) _ 8 (8 + str_len key)); [|by rewrite <- !app_assoc|by_len..].
  cbn [mbind result_bind]. rewrite from_utf8_as_bytes by done. cbn [mbind result_bind].
  rewrite (slice_at (a ++ b ++ as_bytes key) (as_bytes value) rest);
    [|by rewrite <- !app_assoc|by_len..].
  cbn [mbind result_bind]. by rewrite from_utf8_as_bytes.
Qed.

Lemma take_u64_run pre n rest i :
  u64_range (Z.of_nat n) → i = length pre → take_u64 (pre ++ u64_of n ++ rest) i = Ok (Z.of_nat n).
Proof.
  intros Hn ->. unfold take_u64, u64_of.
  pose proof (get_range_app pre (u64_le (Z.of_nat n)) rest) as H. rewrite length_u64_le in H.
  change (Z.of_nat 8) with 8%Z in H. rewrite H. by rewrite u64_le_inv.
Qed.

Lemma page_to_index_run n count : n < count → page_to_index (Z.of_nat (n + 1)) count = Ok n.
Proof.
  intros H. unfold page_to_index. rewrite (proj2 (Z.leb_le _ _)), (proj2 (Z.ltb_lt _ _)) by lia.
  cbn. f_equal. lia.
Qed.

(** ** A node and its page *)

(** What a node of a well-formed arena of [count] nodes satisfies. *)
Record node_wf (count : nat) (n : Node) : Prop := NodeWf {
  nw_values : length (values n) = length (keys n);
  nw_children : children n = [] ∨ length (children n) = S (length (keys n));
  nw_bounds i : i ∈ children n → i < count;
  nw_keys k : k ∈ keys n → is_str k;
  nw_vals v : v ∈ values n → is_str v;
}.

Definition kind_of (n : Node) : PageKind := if leaf n then Leaf else Internal.

Lemma leaf_true n : leaf n = true → children n = [].
Proof. unfold leaf. by destruct (children n). Qed.
Lemma leaf_false n : leaf n = false → children n ≠ [].
Proof. unfold leaf. by destruct (children n). Qed.

Lemma insert_inv k cs crc c p :
  page_fits cs → length crc = 4 → Page.insert c (MkPage (layout k cs crc)) = Ok p →
  page_fits (cs ++ [c]) ∧ p = MkPage (layout k (cs ++ [c]) crc).
Proof.
  intros Hf Hc H. destruct (decide (Z.of_nat (length c) <= 65535)%Z); [|by rewrite insert_too_large in H].
  destruct (decide (page_fits (cs ++ [c]))) as [Hf'|Hf']; [|by rewrite insert_full in H].
  rewrite insert_layout in H by done. by injection H as <-.
Qed.

(** The loop that fills a page, in terms of the cells it stores. *)
Lemma fill_page {A} (f : A → io bytes) k crc l cs p :
  page_fits cs → length crc = 4 →
  try_fold l (λ a page, c ← f a; Page.insert c page) (MkPage (layout k cs crc)) = Ok p →
  ∃ cs', Forall2 (λ a c, f a = Ok c) l cs' ∧ page_fits (cs ++ cs') ∧ p = MkPage (layout k (cs ++ cs') crc).
Proof.
  intros Hf Hc. revert cs Hf. induction l as [|a l IH]; intros cs Hf; cbn [try_fold]; intros H.
  - injection H as <-. exists []. rewrite app_nil_r. by split_and!.
  - destruct (f a) as [c| |] eqn:Ha; cbn [mbind result_bind] in H; [|done..].
    destruct (Page.insert c _) as [p1| |] eqn:Hi; cbn [mbind result_bind] in H; [|done..].
    apply insert_inv in Hi as [Hf1 ->]; [|done..].
    destruct (IH _ Hf1 H) as (cs' & H2 & Hf2 & ->). exists (c :: cs').
    rewrite <- app_assoc in Hf2 |- *. split_and!; [by constructor|done..].
Qed.

(** The cells of a node, before its entries' ones. *)
Definition left_cells (n : Node) (cs : list bytes) : Prop :=
  if leaf n then cs = [] else ∃ c, children n !! 0 = Some c ∧ cs = [u64_of (c + 1)].

Lemma node_page_inv n bs :
  node_page n = Ok bs →
  ∃ cs0 cs, left_cells n cs0 ∧ Forall2 (λ i c, node_cell n i = Ok c) (seq 0 (length (keys n))) cs ∧
    page_fits (cs0 ++ cs) ∧ bs = layout (kind_of n) (cs0 ++ cs) (page_crc (kind_of n) (cs0 ++ cs)).
Proof.
  unfold node_page. fold (kind_of n). rewrite new_layout. cbn [mbind result_bind]. intros H.
  assert (∃ cs0, left_cells n cs0 ∧ page_fits cs0 ∧
    (if leaf n then Ok (MkPage (layout (kind_of n) [] (zeros 4))) else
       left ← index (children n) 0;
       Page.insert (u64_of (left + 1)) (MkPage (layout (kind_of n) [] (zeros 4))))
    = Ok (MkPage (layout (kind_of n) cs0 (zeros 4)))) as (cs0 & Hleft & Hf0 & Hrun).
  { unfold left_cells. destruct (leaf n).
    - exists []. split_and!; auto using page_fits_nil.
    - destruct (index (children n) 0) as [c| |] eqn:Hi; cbn [mbind result_bind] in H; [|done..].
      apply index_ok in Hi. destruct (Page.insert _ _) as [p| |] eqn:Hp; cbn [mbind result_bind] in H; [|done..].
      apply insert_inv in Hp as [Hf ->]; [|apply page_fits_nil|done].
      exists [u64_of (c + 1)]. cbn [mbind result_bind]. split_and!; eauto. }
  rewrite Hrun in H. cbn [mbind result_bind] in H.
  destruct (try_fold _ _ _) as [p| |] eqn:Hp; cbn [mbind result_bind] in H; [|done..].
  apply fill_page in Hp as (cs & Hcs & Hf & ->); [|done..].
  rewrite finish_layout in H by done. injection H as <-. by exists cs0, cs.
Qed.

Lemma node_cell_inv n i c :
  node_cell n i = Ok c →
  ∃ k v, keys n !! i = Some k ∧ values n !! i = Some v ∧
    u32_range (Z.of_nat (str_len k)) ∧ u32_range (Z.of_nat (str_len v)) ∧
    if leaf n then c = pair_cell k v
    else ∃ ch, children n !! (i + 1) = Some ch ∧ c = pair_cell k v ++ u64_of (ch + 1).
Proof.
  unfold node_cell. intros H.
  destruct (index (keys n) i) as [k| |] eqn:Hk; cbn [mbind result_bind] in H; [|done..].
  destruct (index (values n) i) as [v| |] eqn:Hv; cbn [mbind result_bind] in H; [|done..].
  destruct (encode_pair k v) as [cell| |] eqn:He; cbn [mbind result_bind] in H; [|done..].
  apply index_ok in Hk, Hv. apply encode_pair_ok in He as (-> & Hkl & Hvl). exists k, v. split_and!; auto.
  destruct (leaf n); [by injection H as <-|].
  destruct (index (children n) (i + 1)) as [ch| |] eqn:Hch; cbn [mbind result_bind] in H; [|done..].
  apply index_ok in Hch. injection H as <-. by exists ch.
Qed.

Lemma small_index count i : (Z.of_nat count < U64_MAX)%Z → i < count → u64_range (Z.of_nat (i + 1)).
Proof. unfold u64_range. intros. lia. Qed.

(** The node rebuilt from its first [m] cells. *)
Definition partial (n : Node) (m : nat) : Node :=
  MkNode (take m (keys n)) (take m (values n)) (if leaf n then [] else take (S m) (children n)).

Lemma kind_internal n : kind_of n = Internal ↔ leaf n = false.
Proof. unfold kind_of. by destruct (leaf n). Qed.

Lemma read_cells_spec count n m l cs :
  node_wf count n → (Z.of_nat count < U64_MAX)%Z → m + l = length (keys n) →
  Forall2 (λ i c, node_cell n i = Ok c) (seq m l) cs →
  read_cells (kind_of n) count cs (partial n m) = Ok (partial n (length (keys n))).
Proof.
  intros Hn Hcount. revert m cs. induction l as [|l IH]; intros m cs Hm Hcs.
  - inversion Hcs; subst. cbn [read_cells]. by rewrite <- Hm, Nat.add_0_r.
  - inversion Hcs as [|? c ? cs' Hc Hcs']; subst. cbn [read_cells].
    destruct (node_cell_inv _ _ _ Hc) as (k & v & Hk & Hv & Hkl & Hvl & Hcell).
    assert (is_str k) as Hks by (eapply nw_keys; [done|by eapply list_elem_of_lookup_2]).
    assert (is_str v) as Hvs by (eapply nw_vals; [done|by eapply list_elem_of_lookup_2]).
    specialize (IH (S m) cs' ltac:(lia) Hcs').
    unfold partial in IH at 1. rewrite (take_S_r _ _ _ Hk), (take_S_r _ _ _ Hv) in IH.
    destruct (leaf n) eqn:Hleaf.
    + subst c. rewrite <- (app_nil_r (pair_cell k v)) at 1. rewrite decode_pair_cell by done.
      cbn [mbind result_bind]. rewrite decide_False by (rewrite kind_internal; congruence).
      rewrite Nat.eqb_refl. cbn [negb mbind result_bind].
      etrans; [|exact IH]. unfold partial. by rewrite Hleaf.
    + destruct Hcell as (ch & Hch & ->). rewrite decode_pair_cell by done.
      cbn [mbind result_bind]. rewrite decide_True by (by apply kind_internal).
      pose proof (nw_bounds _ _ Hn ch ltac:(by eapply list_elem_of_lookup_2)) as Hb.
      rewrite <- (app_nil_r (u64_of (ch + 1))) at 1.
      rewrite take_u64_run by (by eauto using small_index). cbn [mbind result_bind].
      rewrite page_to_index_run by done. cbn [mbind result_bind].
      rewrite length_app. unfold u64_of at 1. rewrite length_u64_le, Nat.eqb_refl. cbn [negb mbind result_bind].
      rewrite Nat.add_1_r in Hch. rewrite (take_S_r _ _ _ Hch) in IH.
      etrans; [|exact IH]. unfold partial. by rewrite Hleaf.
Qed.

Lemma partial_full count n : node_wf count n → partial n (length (keys n)) = n.
Proof.
  intros Hn. unfold partial. rewrite take_ge by done. rewrite take_ge by (by rewrite (nw_values _ _ Hn)).
  destruct (leaf n) eqn:Hl.
  - apply leaf_true in Hl. destruct n; cbn in *. congruence.
  - apply leaf_false in Hl. destruct (nw_children _ _ Hn) as [?|Hc]; [done|].
    rewrite take_ge by lia. by destruct n.
Qed.

(** A node's page reads back as the node. *)
Lemma read_node_page count n bs :
  node_wf count n → (Z.of_nat count < U64_MAX)%Z → node_page n = Ok bs → read_node bs count = Ok n.
Proof.
  intros Hn Hcount Hpage. apply node_page_inv in Hpage as (cs0 & cs & Hleft & Hcs & Hf & ->).
  unfold read_node. rewrite from_bytes_layout by done. cbn [mbind result_bind].
  rewrite layout_cells by (done || apply length_page_crc). cbn [mbind result_bind].
  rewrite kind_layout. cbn [mbind result_bind].
  pose proof (read_cells_spec count n 0 _ cs Hn Hcount eq_refl Hcs) as Hread.
  rewrite (partial_full count n Hn) in Hread.
  assert (negb (leaf n) && negb (length (children n) =? length (keys n) + 1) = false) as Hck.
  { destruct (leaf n) eqn:Hl; [done|]. apply leaf_false in Hl.
    destruct (nw_children _ _ Hn) as [?|Hc]; [done|]. rewrite Hc, Nat.add_1_r, Nat.eqb_refl. done. }
  unfold left_cells in Hleft. unfold partial in Hread. destruct (leaf n) eqn:Hl.
  - subst cs0. cbn [app]. rewrite decide_False by (rewrite kind_internal; congruence).
    rewrite bool_decide_true by (unfold kind_of; by rewrite Hl). cbn [negb mbind result_bind].
    assert (default_node = MkNode (take 0 (keys n)) (take 0 (values n)) []) as -> by done.
    rewrite Hread. cbn [mbind result_bind]. by rewrite Hl.
  - destruct Hleft as (c & Hc & ->). cbn [app]. rewrite decide_True by (by apply kind_internal).
    pose proof (nw_bounds _ _ Hn c ltac:(by eapply list_elem_of_lookup_2)) as Hb.
    unfold u64_of at 1. rewrite length_u64_le. cbn [Nat.eqb negb].
    rewrite <- (app_nil_r (u64_of (c + 1))), <- (app_nil_l (u64_of (c + 1) ++ [])).
    rewrite take_u64_run by (by eauto using small_index). cbn [mbind result_bind].
    rewrite page_to_index_run by done. cbn [mbind result_bind].
    assert (take 1 (children n) = [c]) as Ht by (by apply (take_S_r _ 0 c)).
    rewrite Ht in Hread. change (take 0 (keys n)) with (@nil string) in Hread.
    change (take 0 (values n)) with (@nil string) in Hread. rewrite Hread. cbn [mbind result_bind].
    by rewrite Hl, Hck.
Qed.

(** ** The pages of an index *)

(** An index that a snapshot can hold. *)
Record tree_ok (t : BTreeIndex) : Prop := TreeOk {
  to_nodes n : n ∈ nodes t → node_wf (length (nodes t)) n;
  to_root : root t < length (nodes t);
  to_count : (Z.of_nat (length (nodes t)) < U64_MAX)%Z;
  to_len : (Z.of_nat (len t) ≤ U64_MAX)%Z;
  to_entries : ∃ es, entries t = Ok es ∧ length es = len t;
}.

Definition pages_of (t : BTreeIndex) (ps : list bytes) : Prop :=
  ∃ mp nps, ps = mp :: nps ∧ meta_page t = Ok mp ∧ Forall2 (λ n b, node_page n = Ok b) (nodes t) nps.

Definition image (t : BTreeIndex) (c : bytes) : Prop := ∃ ps, pages_of t ps ∧ c = concat ps.

Definition metadata (t : BTreeIndex) : bytes :=
  u64_of (root t + 1) ++ u64_of (length (nodes t)) ++ u64_of (len t).

Lemma page_length n bs : node_page n = Ok bs → length bs = PAGE_SIZE.
Proof.
  intros (cs0 & cs & _ & _ & Hf & ->)%node_page_inv. apply length_layout; [done|apply length_page_crc].
Qed.

Lemma metadata_fits t : page_fits [metadata t].
Proof.
  unfold page_fits, front_of, metadata, u64_of. cbn [used length]. rewrite !length_app, !length_u64_le.
  pose proof page_size. unfold HEADER_SIZE. lia.
Qed.

Lemma meta_page_layout t : meta_page t = Ok (layout Meta [metadata t] (page_crc Meta [metadata t])).
Proof.
  unfold meta_page. fold (metadata t). rewrite new_layout. cbn [mbind result_bind].
  pose proof (metadata_fits t) as Hf.
  rewrite (insert_layout Meta []) by done. cbn [mbind result_bind app]. by rewrite finish_layout.
Qed.

Lemma meta_page_length t mp : meta_page t = Ok mp → length mp = PAGE_SIZE.
Proof.
  rewrite meta_page_layout. intros [= <-]. apply length_layout; [apply metadata_fits|apply length_page_crc].
Qed.

Definition whole (ps : list bytes) : Prop := Forall (λ b : bytes, length b = PAGE_SIZE) ps.

Lemma pages_length t ps : pages_of t ps → whole ps.
Proof.
  intros (mp & nps & -> & Hm & Hn). constructor.
  - by eapply meta_page_length.
  - clear Hm. induction Hn; constructor; [by eapply page_length|done].
Qed.

(** A file is determined by its pages. *)
Lemma length_concat_pages ps : whole ps → length (concat ps) = length ps * PAGE_SIZE.
Proof. induction 1 as [|b ps Hb _ IH]; [done|]. cbn [concat length]. rewrite length_app, Hb, IH. lia. Qed.

Lemma file_page_cons b c i : length b = PAGE_SIZE → file_page (b ++ c) (S i) = file_page c i.
Proof.
  intros Hb. unfold file_page. rewrite length_app, Hb. cbn [Nat.mul].
  replace (PAGE_SIZE + i * PAGE_SIZE + PAGE_SIZE <=? PAGE_SIZE + length c)
    with (i * PAGE_SIZE + PAGE_SIZE <=? length c).
  2: { apply eq_true_iff_eq. rewrite !Nat.leb_le. lia. }
  case_match; [|done]. do 2 f_equal. rewrite <- Hb at 1. by rewrite drop_app_add.
Qed.

Lemma file_page_head b c : length b = PAGE_SIZE → file_page (b ++ c) 0 = Some b.
Proof.
  intros Hb. unfold file_page. rewrite (proj2 (Nat.leb_le _ _)) by (rewrite length_app; lia).
  cbn [Nat.mul drop]. f_equal. by apply take_app_length'.
Qed.

Lemma file_page_concat ps i b : whole ps → ps !! i = Some b → file_page (concat ps) i = Some b.
Proof.
  intros Hps. revert i. induction Hps as [|p ps Hp _ IH]; intros [|i] Hi; cbn in *; [done|done| |].
  - injection Hi as <-. by apply file_page_head.
  - rewrite file_page_cons by done. by apply IH.
Qed.

Lemma file_of_pages ps c :
  whole ps → length c = length ps * PAGE_SIZE → (∀ i b, ps !! i = Some b → file_page c i = Some b) →
  c = concat ps.
Proof.
  intros Hps. revert c. induction Hps as [|p ps Hp _ IH]; intros c Hl Hc.
  - by apply nil_length_inv.
  - pose proof (Hc 0 p eq_refl) as H0. unfold file_page in H0. cbn [length Nat.mul] in *.
    rewrite (proj2 (Nat.leb_le _ _)) in H0 by lia. injection H0 as H0.
    rewrite drop_0 in H0. rewrite <- (take_drop PAGE_SIZE c), H0. cbn [concat]. f_equal.
    apply IH; [rewrite length_drop; lia|]. intros i b Hi. rewrite <- (file_page_cons p) by done.
    rewrite <- H0, take_drop. by apply Hc.
Qed.

(** ** Saving *)

Lemma lift_ok {S E A} (r : result E A) (s s' : S) a : lift r s = (Ok a, s') → r = Ok a ∧ s' = s.
Proof. by intros [= -> ->]. Qed.

Lemma allocate_ok p id p' :
  pager_wf p → allocate p = (Ok id, p') → pager_wf p' ∧ pages p' = S (pages p).
Proof.
  intros Hwf H. destruct (allocate_spec p Hwf) as (r & p1 & Hrun & _ & Hp & Hc).
  rewrite H in Hrun. injection Hrun as <- <-. by destruct Hc.
Qed.

Lemma allocate_all {A} (l : list A) p p' :
  pager_wf p → for_each l (λ _, _ ← allocate; mret tt) p = (Ok tt, p') →
  pager_wf p' ∧ pages p' = pages p + length l.
Proof.
  revert p. induction l as [|a l IH]; intros p Hwf H; cbn [for_each] in H.
  - injection H as <-. split; [done|]. cbn. lia.
  - apply M_bind_ok in H as ([] & p1 & H1 & H). apply M_bind_ok in H1 as (id & p2 & H1 & H2).
    injection H2 as <-. apply allocate_ok in H1 as [Hwf1 Hp1]; [|done].
    destruct (IH _ Hwf1 H) as [? Hp]. split; [done|]. cbn [length]. lia.
Qed.

Lemma write_ok p id bs p' :
  pager_wf p → id < pages p → length bs = PAGE_SIZE → write id bs p = (Ok tt, p') →
  pager_wf p' ∧ pages p' = pages p ∧ view p' id = Some bs ∧
  (∀ i b, i ≠ id → view p i = Some b → view p' i = Some b).
Proof.
  intros Hwf Hlt Hl H. destruct (write_spec id bs p Hwf ltac:(lia) Hl) as (r & p1 & Hrun & _ & Hp & Hc).
  rewrite H in Hrun. injection Hrun as <- <-. destruct Hc as (? & _ & ? & ? & _).
  split_and!; [done|lia|done|done].
Qed.

Lemma write_nodes_spec ns i p p' :
  pager_wf p → i + length ns < pages p → write_nodes i ns p = (Ok tt, p') →
  pager_wf p' ∧ pages p' = pages p ∧ (∀ j b, j ≤ i → view p j = Some b → view p' j = Some b) ∧
  ∃ nps, Forall2 (λ n b, node_page n = Ok b) ns nps ∧
    ∀ j b, nps !! j = Some b → view p' (i + 1 + j) = Some b.
Proof.
  revert i p. induction ns as [|n ns IH]; intros i p Hwf Hlt H; cbn [write_nodes] in H.
  - injection H as <-. split_and!; auto. exists []. split; [constructor|done].
  - apply M_bind_ok in H as (bs & p1 & H1 & H). apply lift_ok in H1 as [Hbs ->].
    apply M_bind_ok in H as ([] & p1 & H1 & H). cbn [length] in Hlt.
    apply write_ok in H1 as (Hwf1 & Hp1 & Hv1 & Hk1); [|done|lia|by eapply page_length].
    destruct (IH (S i) p1 Hwf1 ltac:(lia) H) as (Hwf' & Hp' & Hk & nps & Hn & Hv).
    split_and!; [done|congruence| |].
    + intros j b Hj Hb. apply Hk; [lia|]. apply Hk1; [lia|done].
    + exists (bs :: nps). split; [by constructor|]. intros [|j] b Hj; cbn in Hj.
      * injection Hj as <-. apply Hk; [lia|]. by rewrite Nat.add_0_r.
      * rewrite <- (Hv j b Hj). f_equal. lia.
Qed.

(** A file that holds exactly the pages [ps], durably. *)
Definition holds (ps : list bytes) (f : file) : Prop := f_content f = concat ps ∧ f_synced f = concat ps.

Lemma save_pages_spec t p p' :
  pager_wf p → pages p = 0 → save_pages t p = (Ok tt, p') →
  ∃ ps, pages_of t ps ∧ holds ps (p_file p') ∧ pager_wf p' ∧ pages p' = length ps ∧
    (∀ i c, cache p' !! i = Some c → dirty c = false).
Proof.
  intros Hwf Hp0 H. unfold save_pages in H.
  apply M_bind_ok in H as (id & p1 & H1 & H). apply allocate_ok in H1 as [Hwf1 Hp1]; [|done].
  apply M_bind_ok in H as ([] & p2 & H2 & H). apply allocate_all in H2 as [Hwf2 Hp2]; [|done].
  apply M_bind_ok in H as (mp & p3 & H3 & H). apply lift_ok in H3 as [Hmp ->].
  apply M_bind_ok in H as ([] & p3 & H3 & H).
  apply write_ok in H3 as (Hwf3 & Hp3 & Hv3 & _); [|done|lia|by eapply meta_page_length].
  apply M_bind_ok in H as ([] & p4 & H4 & H).
  apply write_nodes_spec in H4 as (Hwf4 & Hp4 & Hk4 & nps & Hn & Hv4); [|done|lia].
  destruct (flush_spec p4 Hwf4) as (r & p5 & Hrun & _ & Hstep & Hp5 & Hok).
  rewrite H in Hrun. injection Hrun as <- <-. destruct (Hok eq_refl) as (Hlen & Heq & Hall & Hclean).
  assert (pages_of t (mp :: nps)) as Hps by exact (ex_intro _ mp (ex_intro _ nps (conj eq_refl (conj Hmp Hn)))).
  assert (pages p4 = length (mp :: nps)) as Hcount.
  { cbn [length]. rewrite <- (Forall2_length _ _ _ Hn). clear Hlen. lia. }
  assert (f_synced (p_file p') = concat (mp :: nps)) as Hsync.
  { apply file_of_pages; [by eapply pages_length|by rewrite Hlen, <- Hcount|].
    intros [|i] b Hi; apply Hall; cbn in Hi.
    - injection Hi as <-. apply Hk4; [lia|done].
    - exact (Hv4 i b Hi). }
  exists (mp :: nps). split; [exact Hps|split_and!; [split; congruence|by destruct Hstep|congruence|done]].
Qed.

(** Closing a pager whose cache is clean writes nothing. *)
Lemma clean_no_dirty p : (∀ i c, cache p !! i = Some c → dirty c = false) → dirty_ids (cache p) = [].
Proof.
  intros Hc. unfold dirty_ids. destruct (base.filter _ _) as [|[i c] l] eqn:Hf; [done|].
  assert ((i, c) ∈ base.filter (λ e, dirty e.2 = true) (map_to_list (cache p))) as Hin by (rewrite Hf; left).
  apply list_elem_of_filter in Hin as [Hd Hin%elem_of_map_to_list]. cbn in Hd. by rewrite (Hc i c Hin) in Hd.
Qed.

Lemma set_len_holds ps n f :
  holds ps f → length (concat ps) = n → holds ps (snd (set_len (Z.of_nat n) f)).
Proof.
  destruct f as [x c y env rd]. intros [Hc Hs] Hl. cbn in Hc, Hs. subst c y n. unfold holds.
  assert (take (Z.to_nat (Z.of_nat (length (concat ps)))) (concat ps) = concat ps) as Ht
    by (rewrite Nat2Z.id; by apply take_ge).
  destruct env as [|[|k e] env]; unfold set_len, sys_call, next_sys, mbind, M_bind; cbn;
    rewrite ?Z.leb_refl, ?Ht; done.
Qed.

Lemma sync_holds ps f : holds ps f → holds ps (snd (sync_all f)).
Proof.
  destruct f as [x c y env rd]. intros [Hc Hs]. cbn in Hc, Hs. subst c y.
  by destruct env as [|[|k e] env].
Qed.

Lemma on_file_file {A} (m : M file io_error A) p : p_file (snd (on_file m p)) = snd (m (p_file p)).
Proof. unfold on_file, zoom. by destruct (m (p_file p)). Qed.

Lemma drop_clean ps p :
  holds ps (p_file p) → whole ps → pages p = length ps → (∀ i c, cache p !! i = Some c → dirty c = false) →
  holds ps (drop_pager p).
Proof.
  intros Hh Hw Hp Hc. unfold drop_pager, flush. run_steps. rewrite clean_no_dirty by done. cbn [for_each].
  run_steps. unfold mbind, M_bind.
  pose proof (on_file_file (set_len (Z.of_nat (pages p * PAGE_SIZE))) p) as Hf.
  pose proof (set_len_holds ps (pages p * PAGE_SIZE) (p_file p) Hh
    ltac:(by rewrite length_concat_pages, Hp)) as Hh1.
  rewrite <- Hf in Hh1. destruct (on_file _ p) as [[[]|e|s] p1]; cbn [snd] in *; [|done..].
  rewrite on_file_file. by apply sync_holds.
Qed.

Lemma stable_write_nodes i ns : stable p_exists (write_nodes i ns).
Proof. revert i. induction ns; intros i; cbn [write_nodes]; stable_tac. Qed.
#[export] Hint Resolve stable_write_nodes : stable.
Lemma stable_save t : stable p_exists (save_pages t).
Proof. unfold save_pages. stable_tac. Qed.

(** Writing the snapshot file: a success is durable, whatever the file held. *)
Lemma write_file_spec t f f' :
  write_file t f = (Ok tt, f') → ∃ ps, pages_of t ps ∧ holds ps f' ∧ f_exists f' = true.
Proof.
  unfold write_file, with_pager. destruct (create CACHE f) as [[p|e|s] f1] eqn:Ho; [|done..].
  pose proof (stable_save t p (open_inner_exists _ _ _ _ _ Ho)) as Hx.
  apply open_inner_wf in Ho as (Hwf & _ & _ & _ & Hlen & Hc). intros H.
  destruct (save_pages t p) as [r p'] eqn:Hs. apply pair_eq in H as [-> <-].
  cbn [snd] in Hx. pose proof (stable_flush p' Hx) as Hx'.
  apply save_pages_spec in Hs as (ps & Hps & Hh & Hwf' & Hp & Hclean); [|done|].
  - exists ps. split; [exact Hps|]. split; [|exact Hx'].
    apply drop_clean; [done|by eapply pages_length|done..].
  - rewrite Hc in Hlen. cbn [length] in Hlen. pose proof page_pos. nia.
Qed.

(** ** Loading *)

Lemma read_page_ok p i b :
  pager_wf p → f_env (p_file p) = [] → view p i = Some b →
  ∃ p', read i p = (Ok b, p') ∧ step_ok p p' ∧ pages p' = pages p.
Proof.
  intros Hwf He Hv. destruct (read_spec i p Hwf) as (r & p' & Hrun & Hr & Hnp & Hstep & Hp & Hb).
  pose proof (view_lt p i Hwf (ex_intro _ _ Hv)) as Hlt. specialize (Hr (ex_intro _ _ Hv) Hlt).
  destruct r as [b'|e|s]; [|done|done]. exists p'. split; [|done].
  pose proof (step_keeps _ _ Hstep _ _ Hv) as Hv'. rewrite (Hb b' eq_refl) in Hv'. congruence.
Qed.

Lemma read_nodes_spec ns nps first count p :
  pager_wf p → f_env (p_file p) = [] → (Z.of_nat count < U64_MAX)%Z →
  (∀ n, n ∈ ns → node_wf count n) → Forall2 (λ n b, node_page n = Ok b) ns nps →
  (∀ i b, nps !! i = Some b → view p (first + i) = Some b) →
  ∃ p', read_nodes first (length ns) count p = (Ok ns, p') ∧ step_ok p p' ∧ pages p' = pages p.
Proof.
  intros Hwf He Hcount Hns Hn. revert first p Hwf He.
  induction Hn as [|n b ns nps Hb Hn IH]; intros first p Hwf He Hv; cbn [read_nodes length].
  - exists p. split_and!; auto using step_refl.
  - destruct (read_page_ok p first b) as (p1 & Hr1 & Hs1 & Hp1); [done|done| |].
    { rewrite <- (Nat.add_0_r first). by apply (Hv 0). }
    erewrite M_bind_run by exact Hr1. rewrite (read_node_page count n b); [|apply Hns; left|done|done].
    run_steps. destruct (IH ltac:(intros n' Hn'; apply Hns; by right) (S first) p1) as (p2 & Hr2 & Hs2 & Hp2).
    { apply (step_wf _ _ Hs1). }
    { by apply (step_env _ _ Hs1). }
    { intros i b' Hi. apply (step_keeps _ _ Hs1). rewrite Nat.add_succ_comm. by apply (Hv (S i)). }
    exists p2. split; [|split; [by eapply step_trans|congruence]].
    by erewrite M_bind_run by exact Hr2.
Qed.

Lemma take_u64_at pre n rest bs i :
  u64_range (Z.of_nat n) → bs = pre ++ u64_of n ++ rest → i = length pre → take_u64 bs i = Ok (Z.of_nat n).
Proof. intros Hn ->. by apply take_u64_run. Qed.

Lemma metadata_fields t :
  tree_ok t → length (metadata t) = 24 ∧ take_u64 (metadata t) 0 = Ok (Z.of_nat (root t + 1)) ∧
  take_u64 (metadata t) 8 = Ok (Z.of_nat (length (nodes t))) ∧
  take_u64 (metadata t) 16 = Ok (Z.of_nat (len t)).
Proof.
  intros [_ Hr Hc Hl _]. unfold metadata, u64_of. rewrite !length_app, !length_u64_le. fold (u64_of (root t + 1)).
  assert (length (u64_of (root t + 1)) = 8) as H1 by apply length_u64_le.
  assert (length (u64_of (length (nodes t))) = 8) as H2 by apply length_u64_le.
  unfold u64_range. split_and!; [done| | |].
  - eapply (take_u64_at []); [|done|done]. unfold u64_range. lia.
  - eapply (take_u64_at (u64_of (root t + 1))); [|done|done]. unfold u64_range. lia.
  - eapply (take_u64_at (u64_of (root t + 1) ++ u64_of (length (nodes t))) _ []); [unfold u64_range; lia| |].
    + by rewrite <- app_assoc, app_nil_r.
    + by rewrite length_app, H1, H2.
Qed.

Lemma stable_read_nodes first n count : stable p_exists (read_nodes first n count).
Proof. revert first. induction n; intros first; cbn [read_nodes]; stable_tac. Qed.
#[export] Hint Resolve stable_read_nodes : stable.
Lemma stable_load : stable p_exists load_pages.
Proof. unfold load_pages. stable_tac. Qed.

Lemma load_pages_spec t ps p :
  tree_ok t → pages_of t ps → pager_wf p → f_env (p_file p) = [] → pages p = length ps →
  (∀ i b, ps !! i = Some b → view p i = Some b) →
  ∃ p', load_pages p = (Ok t, p') ∧ step_ok p p' ∧ pages p' = pages p.
Proof.
  intros Hok (mp & nps & -> & Hmp & Hn) Hwf He Hp Hv. unfold load_pages. run_steps.
  replace (page_count p =? 0) with false by (unfold page_count; by rewrite Hp).
  destruct (read_page_ok p 0 mp Hwf He (Hv 0 mp eq_refl)) as (p1 & Hr & Hs1 & Hp1).
  erewrite M_bind_run by exact Hr. rewrite meta_page_layout in Hmp. injection Hmp as <-.
  pose proof (metadata_fits t) as Hfit.
  rewrite from_bytes_layout by done. run_steps. rewrite kind_layout. run_steps.
  rewrite bool_decide_true by done. cbn [negb].
  rewrite layout_cells by (done || apply length_page_crc). run_steps.
  destruct (metadata_fields t Hok) as (Hl & H0 & H8 & H16). rewrite Hl, H0, H8, H16. cbn [Nat.eqb negb].
  run_steps. destruct Hok as [Hnodes Hroot Hcount Hlen (es & Hes & Hesl)].
  assert (page_count p1 = S (length (nodes t))) as Hpc.
  { unfold page_count. rewrite Hp1, Hp. cbn [length]. by rewrite (Forall2_length _ _ _ Hn). }
  rewrite Hpc. rewrite (proj2 (Z.eqb_neq _ 0)) by lia. rewrite (proj2 (Z.eqb_neq (Z.of_nat (length _)) 0)) by lia.
  rewrite Z.mod_small by (unfold U64_MAX in Hcount; lia). rewrite (proj2 (Z.eqb_eq _ _)) by lia.
  cbn [negb orb]. rewrite !Nat2Z.id.
  destruct (read_nodes_spec (nodes t) nps 1 (length (nodes t)) p1) as (p2 & Hr2 & Hs2 & Hp2);
    [by destruct Hs1|by apply (step_env _ _ Hs1)|done|done|done| |].
  { intros i b Hi. apply (step_keeps _ _ Hs1). by apply (Hv (S i)). }
  erewrite M_bind_run by exact Hr2. rewrite page_to_index_run by done. run_steps.
  replace (MkTree (nodes t) (root t) (len t)) with t by (by destruct t). rewrite Hes. run_steps.
  rewrite Hesl, Z.eqb_refl. cbn [negb]. exists p2.
  split; [done|split; [by eapply step_trans|congruence]].
Qed.

Lemma open_run_pages ps f :
  whole ps → f_content f = concat ps → f_env f = [] → f_exists f = true →
  ∃ p f', open CACHE f = (Ok p, f') ∧ pager_wf p ∧ f_env (p_file p) = [] ∧ pages p = length ps ∧
    p_exists p ∧ ∀ i b, ps !! i = Some b → view p i = Some b.
Proof.
  intros Hw Hc He Hx. destruct f as [x c y env rd]. cbn in Hc, He, Hx. subst x c env.
  set (f' := File true (concat ps) y [] rd).
  set (p := MkPager f' CACHE 0 (length ps) ∅).
  assert (open CACHE f' = (Ok p, f')) as Ho.
  { unfold open, open_inner, create_file, size, sys_call, next_sys, mbind, M_bind. cbn.
    rewrite length_concat_pages by done. pose proof page_pos.
    rewrite Nat2Z.inj_mul, Z.mod_mul, Z.div_mul by lia. cbn. by rewrite Nat2Z.id. }
  exists p, f'. split; [exact Ho|]. apply open_inner_wf in Ho as (Hwf & _).
  split_and!; [done..|]. intros i b Hi. unfold view, p. cbn. by apply file_page_concat.
Qed.

(** Loading a healthy file that holds an index returns that very index, and
    leaves the file as it is. *)
Lemma load_file_spec t ps f :
  tree_ok t → pages_of t ps → f_content f = concat ps → f_env f = [] → f_exists f = true →
  ∃ f', load_exact f = (Ok t, f') ∧ holds ps f' ∧ f_env f' = [] ∧ f_exists f' = true.
Proof.
  intros Hok Hps Hc He Hx. pose proof (pages_length t ps Hps) as Hw.
  destruct (open_run_pages ps f Hw Hc He Hx) as (p & f1 & Ho & Hwf & Hpe & Hp & Hpx & Hv).
  unfold load_exact, with_pager. rewrite Ho.
  destruct (load_pages_spec t ps p Hok Hps Hwf Hpe Hp Hv) as (p1 & Hrun & Hs1 & Hp1).
  pose proof (stable_load p Hpx) as Hx1. rewrite Hrun in Hx1 |- *. cbn [snd] in Hx1.
  exists (drop_pager p1). split; [done|]. unfold drop_pager.
  pose proof (stable_flush p1 Hx1) as Hx2.
  destruct (flush_spec p1 (step_wf _ _ Hs1)) as (r & p2 & Hf & Hr & Hs2 & Hp2 & Hok2).
  pose proof (step_env _ _ Hs1 Hpe) as He1. rewrite Hf in Hx2 |- *. cbn [snd] in *.
  destruct r as [[]|e|s]; [|done|done]. destruct (Hok2 eq_refl) as (Hl & Heq & Hall & _).
  assert (f_synced (p_file p2) = concat ps) as Hsync.
  { apply file_of_pages; [done|by rewrite Hl, Hp1, Hp|]. intros i b Hi.
    apply Hall, (step_keeps _ _ Hs1), Hv, Hi. }
  split; [split; congruence|]. split; [by apply (step_env _ _ Hs2)|exact Hx2].
Qed.

(** ** Well-formed trees of strings can be saved *)

Definition strings (es : list entry) : Prop := Forall (λ e : entry, is_str e.1 ∧ is_str e.2) es.

Lemma flank_r_nodes kvs subs e c :
  length subs = length kvs → c ∈ subs → e ∈ s_ents c → e ∈ flank_r kvs subs.
Proof.
  revert subs. induction kvs as [|kv kvs IH]; intros [|s subs] Hl Hc He; try discriminate Hl.
  - by apply elem_of_nil in Hc.
  - change (flank_r (kv :: kvs) (s :: subs)) with (kv :: (s_ents s ++ flank_r kvs subs)).
    injection Hl as Hl. right. apply elem_of_app. apply elem_of_cons in Hc as [->|Hc]; [by left|right; by apply IH].
Qed.

Lemma node_ents_own kvs subs e : arity kvs subs → e ∈ kvs → e ∈ node_ents subs kvs.
Proof.
  intros [->|Hl] He; [done|]. destruct subs as [|s subs]; [discriminate Hl|]. injection Hl as Hl.
  cbn [node_ents]. apply elem_of_app. right. by apply flank_r_in.
Qed.

Lemma node_ents_sub kvs subs e c : arity kvs subs → c ∈ subs → e ∈ s_ents c → e ∈ node_ents subs kvs.
Proof.
  intros [->|Hl] Hc He; [by apply elem_of_nil in Hc|]. destruct subs as [|s subs]; [discriminate Hl|].
  injection Hl as Hl. cbn [node_ents]. apply elem_of_app.
  apply elem_of_cons in Hc as [->|Hc]; [by left|right; by eapply flank_r_nodes].
Qed.

Lemma shape_node_wf h lo ns s i :
  shape h lo ns s → strings (s_ents s) → i ∈ s_foot s → ∃ n, ns !! i = Some n ∧ node_wf (length ns) n.
Proof.
  unfold strings. revert lo s. induction h as [|h IH]; intros lo s Hs Hstr Hi;
    destruct (shape_inv _ _ _ _ Hs) as (kvs & subs & (Hn & Hl & Hf & He) & Ha & Hc);
    rewrite Forall_forall in Hstr; rewrite Forall_forall in Hc; rewrite Hf in Hi; apply elem_of_cons in Hi as [->|Hi].
  1, 3: eexists; split; [exact Hn|]; split; cbn [keys values children].
  all: try by rewrite !length_fmap.
  1, 5: destruct Ha as [->|Ha]; [by left|right; by rewrite !length_fmap].
  1, 4: intros j (c & -> & Hc')%list_elem_of_fmap; destruct (Hc c Hc') as (h' & _ & Hsh);
    apply (shape_foot _ _ _ _ (s_id c)) in Hsh; [done|];
    destruct (shape_inv _ _ _ _ Hsh) as (? & ? & (_ & _ & -> & _) & _); left.
  1-4: intros x (e & -> & He')%list_elem_of_fmap; apply (Hstr e); rewrite He; by apply node_ents_own.
  - apply list_elem_of_bind in Hi as (c & Hi & Hc'). by destruct (Hc c Hc') as (h' & [=] & _).
  - apply list_elem_of_bind in Hi as (c & Hi & Hc'). destruct (Hc c Hc') as (h' & [= <-] & Hsh).
    apply (IH _ c Hsh); [|done]. apply Forall_forall. intros e He'. apply Hstr. rewrite He.
    by eapply node_ents_sub.
Qed.

(** Every node of the arena belongs to the tree. *)
Lemma full_foot (f : list nat) n i : NoDup f → (∀ j, j ∈ f → j < n) → length f = n → i < n → i ∈ f.
Proof.
  intros Hnd Hlt Hl Hi. assert (seq 0 n ⊆ f) as Hsub; [|apply Hsub, elem_of_seq; lia].
  assert (f ≡ₚ seq 0 n) as ->; [|done].
  apply submseteq_length_Permutation; [|by rewrite length_seq, Hl].
  apply NoDup_submseteq; [done|]. intros j Hj. apply elem_of_seq. apply Hlt in Hj. lia.
Qed.

(** A node other than a leaf root holds an entry. *)
Lemma shape_count h lo ns s : shape h lo ns s → 1 ≤ lo → length (s_foot s) ≤ length (s_ents s).
Proof.
  revert lo s. induction h as [|h IH]; intros lo s (kvs & subs & (Hn & Hl & Hf & He) & Hb) Hlo; rewrite He, Hf.
  - subst subs. cbn. lia.
  - destruct Hb as [Hlen Hb].
    assert (Forall (λ c, length (s_foot c) ≤ length (s_ents c)) subs) as Hall.
    { eapply Forall_impl; [exact Hb|]. intros c Hc. eapply IH; [exact Hc|]. unfold MIN_DEGREE. lia. }
    destruct subs as [|c subs]; [discriminate Hlen|]. injection Hlen as Hlen. cbn [node_ents].
    change ((c :: subs) ≫= s_foot) with (s_foot c ++ (subs ≫= s_foot)).
    cbn [length]. rewrite !length_app. apply Forall_cons in Hall as [Hc Hall].
    assert (length (subs ≫= s_foot) + length kvs ≤ length (flank_r kvs subs)); [|lia].
    clear -Hlen Hall. revert kvs Hlen.
    induction Hall as [|c subs Hc Hall IH]; intros [|kv kvs] Hlen; try discriminate Hlen; [cbn; lia|].
    change (flank_r (kv :: kvs) (c :: subs)) with ((kv :: s_ents c) ++ flank_r kvs subs).
    change ((c :: subs) ≫= s_foot) with (s_foot c ++ (subs ≫= s_foot)).
    rewrite !length_app. cbn [length]. injection Hlen as Hlen. specialize (IH kvs Hlen). lia.
Qed.

Lemma tree_ok_of t es :
  tree_wf t es → strings es → (Z.of_nat (S (length es)) < U64_MAX)%Z → tree_ok t.
Proof.
  intros Hwf Hstr Hsmall. pose proof (entries_spec t es Hwf) as Hes.
  destruct Hwf as (h & f & Hsh & Hnd & _ & Hlen & Hf).
  assert (length (nodes t) ≤ S (length es)) as Hcount.
  { rewrite <- Hf. destruct h as [|h].
    - destruct Hsh as (kvs & subs & (_ & _ & Hfoot & _) & ->). cbn in Hfoot. rewrite Hfoot. cbn. lia.
    - apply (shape_count (S h)) in Hsh; cbn in *; lia. }
  split.
  - intros n (i & Hi)%list_elem_of_lookup. pose proof (lookup_lt_Some _ _ _ Hi) as Hlt.
    destruct (shape_node_wf _ _ _ _ i Hsh Hstr) as (n' & Hn' & Hwf'); [|congruence].
    cbn. eapply full_foot; [done| |done|done]. intros j Hj. by eapply (shape_foot _ _ _ _ j Hsh).
  - destruct (shape_node _ _ _ _ Hsh) as (n & Hn & _). by eapply lookup_lt_Some.
  - lia.
  - lia.
  - by exists es.
Qed.

(** ** The directory *)

(** A file that durably holds the index [t]. *)
Definition good (t : BTreeIndex) (s : stored_file) : Prop :=
  ∃ ps, pages_of t ps ∧ now s = concat ps ∧ kept s = concat ps.

(** A snapshot and its backup from which [load] gets [t]: the snapshot, or the
    backup alone, or nothing at all for the empty index. *)
Inductive loads_as (t : BTreeIndex) : slot * slot → Prop :=
| loads_main s b : good t s → loads_as t (Some s, b)
| loads_backup s : good t s → loads_as t (None, Some s)
| loads_none : t = new → loads_as t (None, None).

(** Between checkpoints the backup is not needed. *)
Inductive settled (t : BTreeIndex) : slot * slot → Prop :=
| settled_main s b : good t s → settled t (Some s, b)
| settled_none : t = new → settled t (None, None).

#[export] Hint Constructors loads_as settled : core.

Lemma settled_loads t p : settled t p → loads_as t p.
Proof. destruct 1; auto. Qed.

Definition here (d : dir) : slot * slot := (d_main d, d_backup d).
(** Every pair of names a crash may find. *)
Definition states (d : dir) : list (slot * slot) := here d :: d_past d.

Lemma dir_call_cases d :
  ∃ env, (dir_call d = (Ok tt, set_env env d) ∨ ∃ e, dir_call d = (Err e, set_env env d)).
Proof.
  destruct d as [m t b pa pr [|[|n e] env]]; [exists []|exists env..]; eauto.
Qed.

(** A change of names happens, remembering the names before, or does not. *)
Lemma name_change_cases (get : dir → slot) (f : dir → dir) d :
  let op := _ ← dir_call; d ← get_state; _ ← guard (bool_decide (is_Some (get d))) not_found; modify f in
  (∀ env, get (set_env env d) = get d) →
  ∃ env, (op d = (Ok tt, f (set_env env d)) ∧ is_Some (get d)) ∨ ∃ e, op d = (Err e, set_env env d).
Proof.
  intros op Hget. destruct (dir_call_cases d) as (env & [H|[e H]]); exists env; unfold op.
  - erewrite M_bind_run by exact H. run_steps. rewrite Hget. case_bool_decide; [left|right]; eauto.
  - right. exists e. by erewrite M_bind_err by exact H.
Qed.

Lemma ignore_run (m : fs unit) d r d' : m d = (r, d') → (∀ s, r ≠ Panic s) → ignore m d = (Ok tt, d').
Proof. intros H Hr. unfold ignore. rewrite H. destruct r; naive_solver. Qed.

(** What removing the backup leaves. *)
Definition backup_removed (d d' : dir) : Prop :=
  ∃ env, d' = set_env env d ∨ d' = set_backup None (remember (set_env env d)).

Lemma ignore_remove_backup d : ∃ d', ignore remove_backup d = (Ok tt, d') ∧ backup_removed d d'.
Proof.
  destruct (name_change_cases d_backup (λ d, set_backup None (remember d)) d) as (env & [[H _]|[e H]]); [done|..].
  - eexists. split; [by eapply ignore_run|]. exists env. by right.
  - eexists. split; [by eapply ignore_run|]. exists env. by left.
Qed.

Lemma ignore_remove_temp d : ∃ tmp env, ignore remove_temp d = (Ok tt, set_temp tmp (set_env env d)).
Proof.
  destruct (name_change_cases d_temp (set_temp None) d) as (env & [[H _]|[e H]]); [done|..].
  - exists None, env. by eapply ignore_run.
  - exists (d_temp d), env. by eapply ignore_run.
Qed.

Lemma write_temp t d r d' :
  on_slot d_temp set_temp (write_file t) d = (r, d') →
  ∃ tmp env, d' = set_temp tmp (set_env env d) ∧ (r = Ok tt → ∃ s, tmp = Some s ∧ good t s).
Proof.
  unfold on_slot. destruct (write_file t _) as [r' f] eqn:Hw. intros [= <- <-].
  eexists _, _. split; [done|]. intros ->. apply write_file_spec in Hw as (ps & Hps & [Hc Hs] & Hx).
  rewrite Hx. eexists. split; [done|]. exists ps. split; [exact Hps|]. by split.
Qed.

(** ** Saving to a directory *)

(** The pairs of names in which the old index or the new one is found. *)
Definition either (old t : BTreeIndex) (p : slot * slot) : Prop := loads_as old p ∨ loads_as t p.

Section publish.
(** A property of the names that putting the new snapshot in place keeps. *)
Context (t : BTreeIndex) (P : slot * slot → Prop).
Context (P_new : ∀ s b, good t s → P (Some s, b)).
Context (P_renamed : ∀ s b, P (Some s, b) → P (None, Some s)).
Context (P_restored : ∀ s, P (None, Some s) → P (Some s, None)).

(** What [publish_temp], [publish_snapshot] and [save] guarantee. *)
Definition published (d : dir) (r : io unit) (d' : dir) : Prop :=
  Forall P (states d') ∧ d_parent d' = d_parent d ∧ (r = Ok tt → settled t (here d')).

Lemma publish_temp_spec d s :
  d_main d = None → d_temp d = Some s → good t s → Forall P (states d) →
  ∃ r d', publish_temp d = (r, d') ∧ published d r d'.
Proof.
  intros Hm Ht Hs Hall. apply Forall_cons in Hall as [Hhere Hpast]. unfold publish_temp.
  destruct (name_change_cases d_temp (λ d, set_main (d_temp d) (set_temp None (remember d))) d)
    as (env & [[H _]|[e H]]); [done|..]; fold rename_temp_main in H; rewrite H.
  - set (d1 := set_main _ _). destruct (ignore_remove_backup d1) as (d2 & Hr & env' & Hd2).
    exists (Ok tt), d2. split; [done|].
    destruct Hd2 as [-> | ->]; unfold published, states, here; cbn; rewrite Ht.
    all: split_and!; [|done|auto]; repeat apply Forall_cons_2; auto.
  - change (d_backup (set_env env d)) with (d_backup d). destruct (exists_ (d_backup d)) eqn:Hb.
    2: { run_steps. eexists _, _. split; [done|]. split_and!; [by constructor|done|done]. }
    destruct (name_change_cases d_backup (λ d, set_main (d_backup d) (set_backup None (remember d)))
      (set_env env d)) as (env' & [[H' [b Hb']]|[e' H']]); [done|..]; fold rename_backup_main in H';
      erewrite M_bind_run by (by eapply ignore_run); eexists _, _; (split; [reflexivity|]);
      unfold published, states, here in *; cbn in *; (split_and!; [|done|done]).
    + rewrite Hm, Hb' in *. repeat apply Forall_cons_2; auto.
    + by constructor.
Qed.

Lemma publish_snapshot_spec d s :
  d_temp d = Some s → good t s → P (here d) → P (d_main d, None) → Forall P (d_past d) →
  ∃ r d', publish_snapshot d = (r, d') ∧ published d r d'.
Proof.
  intros Ht Hs Hhere Hcut Hpast. unfold publish_snapshot.
  destruct (ignore_remove_backup d) as (d1 & Hr & env & Hd1). erewrite M_bind_run by exact Hr. run_steps.
  assert (d_temp d1 = Some s ∧ d_parent d1 = d_parent d ∧ Forall P (states d1)) as (Ht1 & Hp1 & Hall).
  { unfold states, here in *. destruct Hd1 as [-> | ->]; cbn; split_and!; auto. }
  unfold published. rewrite <- Hp1. clear Hr Hd1 Hhere Hcut Ht Hpast Hp1 d.
  destruct (exists_ (d_main d1)) eqn:Hx.
  - destruct (name_change_cases d_main (λ d, set_backup (d_main d) (set_main None (remember d))) d1)
      as (env' & [[H [m Hm]]|[e H]]); [done|..]; fold rename_main_backup in H.
    + erewrite M_bind_run by exact H. set (d2 := set_backup _ _).
      destruct (publish_temp_spec d2 s) as (r & d' & Hrun & Hpub); [done|done|done| |].
      * unfold states, here in *. cbn. rewrite Hm in *. apply Forall_cons in Hall as [Hh Hpast].
        repeat apply Forall_cons_2; eauto.
      * by exists r, d'.
    + erewrite M_bind_err by exact H. eexists _, _. split; [done|]. by split_and!.
  - run_steps. unfold exists_ in Hx. apply bool_decide_eq_false, eq_None_not_Some in Hx.
    by apply (publish_temp_spec d1 s).
Qed.

Lemma save_steps d :
  P (here d) → P (d_main d, None) → Forall P (d_past d) →
  ∃ r d', save t d = (r, d') ∧ published d r d' ∧ (r = Ok tt → d_parent d = true → d_past d' = []).
Proof.
  intros Hhere Hcut Hpast. unfold save.
  destruct (ignore_remove_temp d) as (tmp & env & Hr). erewrite M_bind_run by exact Hr.
  destruct (on_slot d_temp set_temp (write_file t) (set_temp tmp (set_env env d))) as [r d1] eqn:Hw.
  apply write_temp in Hw as Hw'. destruct Hw' as (tmp' & env' & Hd1 & Htmp).
  assert (here d1 = here d ∧ d_main d1 = d_main d ∧ d_past d1 = d_past d ∧ d_parent d1 = d_parent d ∧
    d_temp d1 = tmp') as (Hh & Hm & Hp & Hpa & Ht1) by (subst d1; done).
  unfold mbind at 1, M_bind at 1. rewrite Hw. destruct r as [[]|e|msg].
  2, 3: eexists _, d1; (split; [done|]); (split; [|done]); split_and!; [|done|done];
    constructor; rewrite ?Hh, ?Hp; done.
  destruct (Htmp eq_refl) as (s & Hs & Hgood).
  destruct (publish_snapshot_spec d1 s) as (r & d2 & Hrun & Hall & Hpar & Hok);
    [congruence|done|by rewrite Hh|by rewrite Hm|by rewrite Hp|].
  unfold published. rewrite <- Hpa. clear -Hrun Hall Hpar Hok.
  destruct r as [[]|e|msg]; [erewrite M_bind_run by exact Hrun|
    unfold mbind, M_bind; rewrite Hrun; eexists _, d2; split; [done|split; [by split_and!|done]]..].
  unfold sync_parent. run_steps. destruct (d_parent d2) eqn:Hd2.
  2: { eexists _, d2. split; [done|]. split; [split_and!; [done|congruence|auto]|congruence]. }
  destruct (dir_call_cases d2) as (e1 & [H1|[x1 H1]]).
  2: { erewrite M_bind_err by exact H1. eexists _, _. split; [done|]. split; [|done].
       split_and!; [done|cbn; congruence|done]. }
  erewrite M_bind_run by exact H1.
  destruct (dir_call_cases (set_env e1 d2)) as (e2 & [H2|[x2 H2]]).
  2: { erewrite M_bind_err by exact H2. eexists _, _. split; [done|]. split; [|done].
       split_and!; [done|cbn; congruence|done]. }
  erewrite M_bind_run by exact H2. eexists _, _. split; [reflexivity|].
  unfold states, here in *. cbn. apply Forall_cons in Hall as [Hhere _].
  split; [|done]. split_and!; [by apply Forall_cons_2|cbn; congruence|]. intros _. by apply Hok.
Qed.
End publish.

(** Saving is atomic: whatever fails, and whenever the machine stops, the names
    found afterwards hold the old index or the new one; a save that succeeds
    leaves the new one, for good once the directory is synced. *)
Lemma save_spec old t d :
  settled old (here d) → d_past d = [] →
  ∃ r d', save t d = (r, d') ∧ Forall (either old t) (states d') ∧ d_parent d' = d_parent d ∧
    (r = Ok tt → settled t (here d') ∧ (d_parent d = true → d_past d' = [])).
Proof.
  intros Hold Hpast.
  destruct (save_steps t (either old t)) with (d := d) as (r & d' & Hrun & (Hall & Hp & Hok) & Hclear).
  - intros s b Hs. right. auto.
  - intros s b [Hl|Hl]; [left|right]; inversion Hl; subst; auto.
  - intros s [Hl|Hl]; [left|right]; inversion Hl; subst; auto.
  - left. by apply settled_loads.
  - left. unfold here in Hold. inversion Hold; subst; auto.
  - by rewrite Hpast.
  - exists r, d'. split_and!; auto.
Qed.

(** A save that succeeds needs nothing of what was there. *)
Lemma save_ok t d d' :
  save t d = (Ok tt, d') → settled t (here d') ∧ d_parent d' = d_parent d ∧ (d_parent d = true → d_past d' = []).
Proof.
  intros H. destruct (save_steps t (λ _, True)) with (d := d) as (r & d1 & Hrun & (_ & Hp & Hok) & Hclear);
    [done..|by apply Forall_true|].
  rewrite H in Hrun. injection Hrun as <- <-. auto.
Qed.

(** ** Loading from a directory *)

Lemma load_slot get put d s t :
  get d = Some s → tree_ok t → good t s → d_env d = [] →
  ∃ s', on_slot get put load_exact d = (Ok t, put (Some s') (set_env [] d)) ∧ good t s'.
Proof.
  intros Hg Hok (ps & Hps & Hn & Hk) He. unfold on_slot. rewrite Hg, He.
  destruct (load_file_spec t ps (File true (now s) (kept s) [] [])) as (f & Hrun & [Hc Hs] & Hfe & Hx); [done..|].
  rewrite Hrun, Hx, Hfe. eexists. split; [done|]. exists ps. split; [exact Hps|]. by split.
Qed.

Lemma exists_some s : exists_ (Some s) = true.
Proof. done. Qed.
Lemma exists_none : exists_ None = false.
Proof. done. Qed.

Lemma load_spec t d :
  loads_as t (here d) → tree_ok t → d_env d = [] →
  ∃ d', load d = (Ok t, d') ∧ loads_as t (here d') ∧ (settled t (here d) → settled t (here d')) ∧
    d_past d' = d_past d ∧ d_parent d' = d_parent d ∧ d_env d' = [].
Proof.
  intros Hl Hok He. unfold load. destruct d as [m tmp b pa pr env]. cbn in He. subst env. unfold here in *.
  cbn [d_main d_backup] in *. inversion Hl as [s b' Hg Heq|s Hg Heq|Hn Heq]; subst; rewrite ?exists_some, ?exists_none.
  - destruct (load_slot d_main set_main (MkDir (Some s) tmp b pa pr []) s t) as (s' & Hrun & Hg'); [done..|].
    rewrite Hrun. eexists. split; [done|]. cbn. split_and!; auto.
  - destruct (load_slot d_backup set_backup (MkDir None tmp (Some s) pa pr []) s t) as (s' & Hrun & Hg'); [done..|].
    rewrite Hrun.
    eexists. split; [done|]. cbn. split_and!; auto. intros Hs. inversion Hs.
  - eexists. split; [done|]. cbn. split_and!; auto.
Qed.

(** ** Properties *)

(** What a crash leaves of a directory: one of the pairs of names since the last
    directory sync, each file with some contents it may keep, any temporary. *)
Inductive settle : slot → slot → Prop :=
| settle_none : settle None None
| settle_some s c :
    crash_image (File true (now s) (kept s) [] []) c → settle (Some s) (Some (MkStored c c)).

Record crash_dir (d d' : dir) : Prop := CrashDir {
  cd_names : ∃ p, p ∈ states d ∧ settle p.1 (d_main d') ∧ settle p.2 (d_backup d');
  cd_past : d_past d' = [];
  cd_parent : d_parent d' = d_parent d;
  cd_env : d_env d' = [];
}.

Lemma good_settle t s s' : good t s → settle (Some s) s' → ∃ s1, s' = Some s1 ∧ good t s1.
Proof.
  intros (ps & Hps & Hn & Hk) Hs. inversion Hs as [|? c Hc]; subst. eexists. split; [done|].
  exists ps. split; [exact Hps|]. cbn. rewrite Hn, Hk in Hc.
  assert (c = concat ps) as ->; [|done]. inversion Hc as [c' H1 H2| |]; subst; cbn in *; [|done..].
  by apply (anti_symm prefix).
Qed.

Lemma loads_settle t p m b : loads_as t p → settle p.1 m → settle p.2 b → loads_as t (m, b).
Proof.
  intros Hl Hm Hb. destruct Hl as [s b' Hg|s Hg|Hn]; cbn in *.
  - apply (good_settle t) in Hm as (s1 & -> & ?); auto.
  - inversion Hm; subst. apply (good_settle t) in Hb as (s1 & -> & ?); auto.
  - inversion Hm; inversion Hb; auto.
Qed.

Lemma crash_loads (P : slot * slot → Prop) d d' t :
  Forall P (states d) → (∀ p, P p → loads_as t p) → crash_dir d d' → loads_as t (here d').
Proof.
  intros Hall HP [(p & Hp & Hm & Hb) _ _ _]. rewrite Forall_forall in Hall. by eapply loads_settle, Hb; [apply HP, Hall|].
Qed.

Lemma crash_either old t d d' :
  Forall (either old t) (states d) → crash_dir d d' → either old t (here d').
Proof.
  intros Hall [(p & Hp & Hm & Hb) _ _ _]. rewrite Forall_forall in Hall.
  destruct (Hall p Hp); [left|right]; by eapply loads_settle.
Qed.

(** An index of Rust strings, of a size a machine can hold. *)
Definition savable (t : BTreeIndex) : Prop :=
  ∃ es, tree_wf t es ∧ strings es ∧ (Z.of_nat (S (length es)) < U64_MAX)%Z.

Lemma savable_ok t : savable t → tree_ok t.
Proof. intros (es & ? & ? & ?). by eapply tree_ok_of. Qed.

(** C11. Saving is atomic.  Let the directory hold the old index under the
    snapshot's own name, or nothing if the old index is empty ([settled]), with
    no renames still to be made durable.  Then, whatever system calls fail and
    whenever the machine stops during [save], the directory found afterwards
    loads as the old index or as the new one, node for node; and once [save] has
    returned [Ok] only as the new one, provided that the path names its
    directory, which is then synced ([d_parent]). *)
Theorem save_is_atomic old t d r d1 d2 :
  savable old → savable t → settled old (here d) → d_past d = [] →
  save t d = (r, d1) → crash_dir d1 d2 →
  ∃ t' d3, load d2 = (Ok t', d3) ∧ (t' = old ∨ t' = t) ∧
    (r = Ok tt → d_parent d = true → t' = t) ∧ loads_as t' (here d3).
Proof.
  intros Ho Ht Hs Hpast Hsave Hcrash.
  destruct (save_spec old t d Hs Hpast) as (r' & d' & Hrun & Hall & Hpar & Hok).
  rewrite Hsave in Hrun. injection Hrun as <- <-.
  assert (loads_as old (here d2) ∨ loads_as t (here d2)) as Hcase by exact (crash_either old t d1 d2 Hall Hcrash).
  assert (r = Ok tt → d_parent d = true → loads_as t (here d2)) as Hnew.
  { intros Hr Hp. destruct (Hok Hr) as [Hset Hclear]. eapply (crash_loads (loads_as t)); [|done|exact Hcrash].
    unfold states. rewrite Hclear by done. constructor; [by apply settled_loads|done]. }
  assert (∃ t', loads_as t' (here d2) ∧ (t' = old ∨ t' = t) ∧ (r = Ok tt → d_parent d = true → t' = t))
    as (t' & Hl & Hor & Hr').
  { destruct (decide (r = Ok tt ∧ d_parent d = true)) as [[H1 H2]|Hne]; [exists t; auto|].
    destruct Hcase; [exists old|exists t]; split_and!; auto. intros H1 H2. by destruct Hne. }
  assert (tree_ok t') as Hok' by (destruct Hor as [-> | ->]; by apply savable_ok).
  destruct (load_spec t' d2 Hl Hok' (cd_env _ _ Hcrash)) as (d3 & Hrun & Hl3 & _).
  exists t', d3. auto.
Qed.

(** A directory with a snapshot of one entry, in which a save of two is cut off
    between its two renames. *)
Definition one : BTreeIndex := snd (insert "a" "1" new).
Definition two : BTreeIndex := snd (insert "b" "2" one).
Definition empty_dir (env : list sys) : dir := MkDir None None None [] true env.
Definition with_one : dir := snd (save one (empty_dir [])).
Definition crash : sys := SysFail 0 (IoError Other "power").
(** Removing the temporary, writing it, removing the backup, the first rename. *)
Definition until_second_rename : list sys := replicate 14 SysOk ++ replicate 9 crash.
Definition cut_save : dir := snd (save two (set_env until_second_rename with_one)).
Definition settled_slot (s : slot) : slot := (λ s, MkStored (kept s) (kept s)) <$> s.
Definition after_crash (p : slot * slot) (d : dir) : dir :=
  MkDir (settled_slot p.1) None (settled_slot p.2) [] (d_parent d) [].

Lemma settle_slot s : settle s (settled_slot s).
Proof. destruct s as [s|]; constructor. apply crash_old. Qed.

Lemma crash_after p d : p ∈ states d → crash_dir d (after_crash p d).
Proof. intros Hp. split; [exists p; split_and!; [done|apply settle_slot..]|done..]. Qed.


Lemma insert_ok t es k v :
  tree_wf t es → tree_wf (snd (insert k v t)) (upsert k v es).
Proof. intros H. by destruct (insert_spec t es k v H) as (t' & -> & ?). Qed.

Lemma one_wf : tree_wf one [("a", "1")].
Proof. exact (insert_ok new [] "a" "1" new_wf). Qed.
Lemma two_wf : tree_wf two [("a", "1"); ("b", "2")].
Proof. exact (insert_ok one _ "b" "2" one_wf). Qed.
Lemma one_savable : savable one.
Proof. exists [("a", "1")]. split_and!; [apply one_wf|repeat constructor|done]. Qed.
Lemma two_savable : savable two.
Proof. exists [("a", "1"); ("b", "2")]. split_and!; [apply two_wf|repeat constructor|done]. Qed.

Lemma with_one_settled : settled one (here with_one).
Proof.
  assert (save one (empty_dir []) = (Ok tt, with_one)) as H by (vm_compute; reflexivity).
  by apply save_ok in H as [? _].
Qed.

Lemma save_is_atomic_witness :
  let d := set_env until_second_rename with_one in
  let d2 := after_crash (here cut_save) cut_save in
  savable one ∧ savable two ∧ settled one (here d) ∧ d_past d = [] ∧
  save two d = (fst (save two d), cut_save) ∧ crash_dir cut_save d2 ∧
  (d_main cut_save = None ∧ is_err (fst (save two d)) = true) ∧
  ∃ t' d3, load d2 = (Ok t', d3) ∧ (t' = one ∨ t' = two) ∧
    (fst (save two d) = Ok tt → d_parent d = true → t' = two) ∧ loads_as t' (here d3).
Proof.
  cbv zeta.
  assert (save two (set_env until_second_rename with_one)
    = (fst (save two (set_env until_second_rename with_one)), cut_save)) as H5
    by apply surjective_pairing.
  assert (d_past (set_env until_second_rename with_one) = []) as H4 by (vm_compute; reflexivity).
  assert (crash_dir cut_save (after_crash (here cut_save) cut_save)) as H6 by (apply crash_after; left).
  assert (d_main cut_save = None ∧ is_err (fst (save two (set_env until_second_rename with_one))) = true)
    as H7 by (vm_compute; split; reflexivity).
  exact (conj one_savable (conj two_savable (conj with_one_settled (conj H4 (conj H5 (conj H6 (conj H7
    (save_is_atomic one two (set_env until_second_rename with_one) _ cut_save _
      one_savable two_savable with_one_settled H4 H5 H6)))))))).
Defined.
