(* ===== verification/Store.v ===== *)
(** The durable key-value store: src/src/store.rs.

    A [Store] is the write-ahead log of Wal.v, the snapshot directory of
    BTreeFile.v and the index of BTree.v; [open] works on a [disk], the two
    persistent parts.  A mutation is logged, synced, then applied in memory; a
    checkpoint saves the index, then empties the log. *)

From stdpp Require Import gmap.
From S2P Require Import Prelude Bytes Crc Wal Cursor Command Page Pager BTree BTreeFile.

Record Recovery : Type := MkRecovery {
  records_replayed : nat;
  was_truncated : bool;
  recovered_bytes : Z;
}.

(** The persistent state: the log and, beside it, the snapshot's directory. *)
Record disk : Type := Disk { log : file; snapshot : dir }.

Record Store : Type := MkStore {
  wal : file;
  page_dir : dir;
  data : BTreeIndex;
  recovery : Recovery;
}.

Abbreviation store := (M Store io_error).

Definition set_wal (f : file) (s : Store) : Store := MkStore f (page_dir s) (data s) (recovery s).
Definition set_page_dir (d : dir) (s : Store) : Store := MkStore (wal s) d (data s) (recovery s).
Definition set_data (t : BTreeIndex) (s : Store) : Store := MkStore (wal s) (page_dir s) t (recovery s).

Definition on_wal {A} (m : M file io_error A) : store A := zoom wal set_wal m.
Definition on_dir {A} (m : fs A) : store A := zoom page_dir set_page_dir m.
Definition on_data {A} (m : tree A) : store A := zoom data set_data m.

Definition on_log {A} (m : M file io_error A) : M disk io_error A :=
  zoom log (λ f d, Disk f (snapshot d)) m.
Definition on_snapshot {A} (m : fs A) : M disk io_error A :=
  zoom snapshot (λ s d, Disk (log d) s) m.

(** ** Applying a command *)

Definition apply_memory (c : Command) : tree unit :=
  match c with
  | CSet key value => insert key value
  | CDelete key => _ ← delete key; mret tt
  | CCheckpoint => mret tt
  end.

(** [for record in records { apply_memory(&mut data, Command::decode(&record)?) }] *)
Definition apply_records (rs : list bytes) : tree unit :=
  for_each rs (λ record, c ← lift (decode record); apply_memory c).

Definition open : M disk io_error Store :=
  r ← on_log replay;
  t ← on_snapshot load;
  let '(applied, t) := apply_records (records r) t in
  _ ← lift applied;
  _ ← (if truncated r then on_log (truncate_path (valid_bytes r)) else mret tt);
  _ ← on_log Wal.open;
  d ← get_state;
  mret (MkStore (log d) (snapshot d) t
          (MkRecovery (length (records r)) (truncated r) (valid_bytes r))).

Definition apply (c : Command) : store unit :=
  _ ← on_wal (append (encode c));
  _ ← on_wal sync;
  on_data (apply_memory c).

Definition set (key value : string) : store unit := apply (CSet key value).
Definition delete (key : string) : store unit := apply (CDelete key).

Definition is_checkpoint (c : Command) : bool := match c with CCheckpoint => true | _ => false end.

Definition apply_batch (cs : list Command) : store unit :=
  if existsb is_checkpoint cs then fail (invalid_input "store: checkpoint is not a user mutation") else
  _ ← for_each cs (λ c, on_wal (append (encode c)));
  _ ← on_wal sync;
  for_each cs (λ c, on_data (apply_memory c)).

Definition set_batch (entries : list (string * string)) : store unit :=
  apply_batch ((λ e, CSet e.1 e.2) <$> entries).

(** ** Checkpoints *)

Definition stage_error (stage : string) (error : io_error) : io_error :=
  IoError (err_kind error) ("store: failed to " +:+ stage +:+ ": " +:+ err_msg error).

(** [.map_err(|error| stage_error(stage, error))?] *)
Definition staged {A} (stage : string) (m : store A) : store A := λ s,
  let '(r, s) := m s in (map_err (stage_error stage) r, s).

Definition checkpoint : store unit :=
  s ← get_state;
  _ ← staged "write page snapshot" (on_dir (save (data s)));
  _ ← staged "append checkpoint record" (on_wal (append (encode CCheckpoint)));
  _ ← staged "sync checkpoint record" (on_wal sync);
  staged "truncate checkpointed WAL" (on_wal reset).

(** ** Reading *)

Definition get (s : Store) (key : string) : io (option string) := BTree.get (data s) key.
Definition contains (s : Store) (key : string) : io bool :=
  v ← BTree.get (data s) key; Ok (bool_decide (is_Some v)).
Definition len (s : Store) : nat := BTree.len (data s).
Definition is_empty (s : Store) : bool := BTree.is_empty (data s).
Definition keys_sorted (s : Store) : io (list string) := keys_of (data s).
Definition range (s : Store) (start stop : string) : io (list (string * string)) :=
  BTree.range (data s) start stop.
Definition wal_size : store Z := on_wal size.

(** The source's test: a checkpoint empties the log and nothing is lost. *)
Definition new_disk : disk := Disk absent (MkDir None None None [] true []).
Definition reopen (s : Store) : io Store * disk := open (Disk (stored (f_synced (wal s))) (page_dir s)).

Example checkpoint_reopens :
  match open new_disk with
  | (Ok s, _) =>
    match (_ ← set_batch [("a", "1"); ("b", "2")]; _ ← checkpoint; _ ← set "c" "3"; delete "a") s with
    | (Ok _, s) =>
      match reopen s with
      | (Ok s', _) => keys_sorted s' = Ok ["b"; "c"] ∧ records_replayed (recovery s') = 2 ∧
          get s' "b" = Ok (Some "2") ∧ contains s' "a" = Ok false ∧ len s' = 2
      | _ => False
      end
    | _ => False
    end
  | _ => False
  end.
Proof. vm_compute. done. Qed.
