(* ===== verification/StoreSpec.v ===== *)
(** What the key-value store promises: the proofs of Store.v.

    The specification is a finite map of strings.  An operation changes it by its
    commands; a crash keeps all of an acknowledged operation and some prefix of
    the commands of the one in flight.  [disk_ok] relates a disk to a map: a
    snapshot that loads, and a log of commands that lead from it to the map. *)

From stdpp Require Import gmap.
From S2P Require Import Prelude Bytes Crc Wal Cursor Command Page Pager BTree BTreeSpec BTreeFile SnapshotSpec Store.

(** ** Commands on a map *)

Definition apply_command (m : gmap string string) (c : Command) : gmap string string :=
  match c with
  | CSet key value => <[key := value]> m
  | CDelete key => base.delete key m
  | CCheckpoint => m
  end.
Definition apply_commands (cs : list Command) (m : gmap string string) : gmap string string :=
  foldl apply_command m cs.

Lemma apply_commands_app cs cs' m :
  apply_commands (cs ++ cs') m = apply_commands cs' (apply_commands cs m).
Proof. apply foldl_app. Qed.

(** What a log says of one key: the last command about it. *)
Definition about (key : string) (c : Command) : option (option string) :=
  match c with
  | CSet k v => if decide (k = key) then Some (Some v) else None
  | CDelete k => if decide (k = key) then Some None else None
  | CCheckpoint => None
  end.
Definition last_about (key : string) (cs : list Command) : option (option string) :=
  foldl (λ a c, match about key c with Some x => Some x | None => a end) None cs.

Lemma apply_command_lookup m c key :
  apply_command m c !! key = match about key c with Some x => x | None => m !! key end.
Proof. destruct c; cbn; [case_decide; by simplify_map_eq..|done]. Qed.

Lemma apply_commands_lookup cs m key :
  apply_commands cs m !! key = match last_about key cs with Some x => x | None => m !! key end.
Proof.
  induction cs as [|c cs IH] using rev_ind; [done|].
  rewrite apply_commands_app. unfold last_about in *. rewrite foldl_app. cbn.
  rewrite apply_command_lookup. by destruct (about key c).
Qed.

(** Replaying a log over the state it already led to changes nothing. *)
Lemma apply_commands_twice cs m : apply_commands cs (apply_commands cs m) = apply_commands cs m.
Proof. apply map_eq. intros key. rewrite !apply_commands_lookup. by destruct (last_about key cs). Qed.

Lemma apply_checkpoints n cs m :
  apply_commands (cs ++ take n [CCheckpoint]) m = apply_commands cs m.
Proof. rewrite apply_commands_app. by destruct n as [|[|n]]. Qed.

(** ** The index of a map *)

(** An index that stands for a map of Rust strings. *)
Record holds_map (t : BTreeIndex) (m : gmap string string) : Prop := HoldsMap {
  hm_rep : represents t m;
  hm_strings : map_Forall (λ k v, is_str k ∧ is_str v) m;
}.
(** A map that a machine's memory can hold. *)
Definition room (m : gmap string string) : Prop := (Z.of_nat (S (base.size m)) < U64_MAX)%Z.

Lemma holds_savable t m : holds_map t m → room m → savable t.
Proof.
  intros [Hr Hs] Hroom. pose proof (answers_len _ _ (represents_answers t m Hr)) as Hl.
  destruct Hr as (es & Hwf & <-). exists es. split; [done|]. split.
  - apply Forall_forall. intros [k v] He. apply (Hs k v).
    apply elem_of_list_to_map_1; [by apply sorted_NoDup, (tree_wf_sorted t)|done].
  - destruct Hwf as (h & f & _ & _ & _ & Hl' & _). unfold room in Hroom. by rewrite <- Hl, Hl' in Hroom.
Qed.

Lemma holds_new : holds_map new ∅.
Proof. split; [apply represents_new|apply map_Forall_empty]. Qed.

Lemma apply_memory_spec c t m :
  command_strings c → holds_map t m →
  ∃ t', apply_memory c t = (Ok tt, t') ∧ holds_map t' (apply_command m c).
Proof.
  intros Hc [Hr Hs]. destruct c as [k v|k|]; cbn [apply_memory apply_command].
  - destruct (change_spec t m (Insert k v) Hr) as (t' & Hrun & Hr'). cbn [apply_change] in Hrun.
    apply M_bind_ok in Hrun as ([] & t1 & Hrun & [= ->]). exists t'. split; [done|].
    split; [done|]. by apply map_Forall_insert_2.
  - destruct (change_spec t m (Delete k) Hr) as (t' & Hrun & Hr'). cbn [apply_change] in Hrun.
    exists t'. split; [by erewrite M_bind_run by exact Hrun|]. split; [done|]. by apply map_Forall_delete.
  - by exists t.
Qed.

Lemma apply_all_spec cs t m :
  Forall command_strings cs → holds_map t m →
  ∃ t', for_each cs apply_memory t = (Ok tt, t') ∧ holds_map t' (apply_commands cs m).
Proof.
  intros Hcs. revert t m. induction Hcs as [|c cs Hc Hcs IH]; intros t m Ht; cbn [for_each]; [by exists t|].
  destruct (apply_memory_spec c t m Hc Ht) as (t1 & Hrun & Ht1). erewrite M_bind_run by exact Hrun.
  by apply IH.
Qed.

(** ** Commands in the log *)

Definition logged (cs : list Command) : bytes := log_bytes (encode <$> cs).

Lemma logged_app cs cs' : logged (cs ++ cs') = logged cs ++ logged cs'.
Proof. unfold logged. rewrite fmap_app. apply log_bytes_app. Qed.

Lemma logged_one c : logged [c] = frame (encode c).
Proof. apply log_bytes_one. Qed.
Lemma logged_cons c cs : logged (c :: cs) = frame (encode c) ++ logged cs.
Proof. change (c :: cs) with ([c] ++ cs). by rewrite logged_app, logged_one. Qed.

(** A command whose record the log accepts. *)
Definition loggable (c : Command) : Prop := command_strings c ∧ small (encode c).

Lemma apply_records_spec cs t m :
  Forall loggable cs → holds_map t m →
  ∃ t', apply_records (encode <$> cs) t = (Ok tt, t') ∧ holds_map t' (apply_commands cs m).
Proof.
  intros Hcs. revert t m. induction Hcs as [|c cs [Hc Hsm] Hcs IH]; intros t m Ht; [by exists t|].
  unfold apply_records in *. cbn [fmap list_fmap for_each].
  rewrite decode_encode by (by apply small_command_fits). rewrite run_bind. run_steps.
  destruct (apply_memory_spec c t m Hc Ht) as (t1 & Hrun & Ht1). erewrite M_bind_run by exact Hrun.
  by apply IH.
Qed.

Lemma loggable_small cs : Forall loggable cs → Forall small (encode <$> cs).
Proof. intros H. apply Forall_fmap. eapply Forall_impl; [exact H|]. by intros c [_ ?]. Qed.

(** What a crash of the log may leave: these commands, and nothing else. *)
Definition leaves (f : file) (P : list Command → Prop) : Prop :=
  ∀ c, crash_image f c → ∃ ds t, replays c (encode <$> ds) t ∧ Forall loggable ds ∧ P ds.

Lemma leaves_prefix f cs new :
  Forall loggable (cs ++ new) → logged cs `prefix_of` f_synced f → f_synced f `prefix_of` f_content f →
  f_content f `prefix_of` logged (cs ++ new) →
  leaves f (λ ds, ∃ j, ds = cs ++ take j new).
Proof.
  intros Hall H1 H2 H3 c Hc.
  assert (logged cs `prefix_of` c ∧ c `prefix_of` logged (cs ++ new)) as [Hlo Hhi].
  { destruct Hc as [c Hc1 Hc2| |]; (split; [etrans; eauto|]); repeat (etrans; [eassumption|]); done. }
  destruct Hlo as [q ->]. rewrite logged_app in Hhi. apply prefix_app_inv in Hhi.
  apply Forall_app in Hall as [Hcs Hnew]. apply prefix_of_log in Hhi as (k & t & Hk); [|by apply loggable_small].
  exists (cs ++ take k new), t. split_and!.
  - rewrite fmap_app, fmap_take. apply replays_prepend; [by apply loggable_small|done].
  - apply Forall_app. split; [done|by apply Forall_take].
  - by exists k.
Qed.

(** ** The log's operations, whatever the environment answers *)

Lemma append_steps p f r f' :
  append p f = (r, f') →
  f_synced f' = f_synced f ∧ f_exists f' = f_exists f ∧
  ∃ k, f_content f' = f_content f ++ k ∧ k `prefix_of` frame p ∧
    (r = Ok tt → k = frame p) ∧ (r = Ok tt ∨ k ≠ [] → small p).
Proof.
  destruct f as [x c y env rd]. intros H. destruct (decide (small p)) as [Hs|Hs].
  2: { rewrite append_too_large in H by done. injection H as <- <-. split_and!; [done..|].
       exists []. rewrite app_nil_r. split_and!; [done|apply prefix_nil|done|naive_solver]. }
  unfold append in H. erewrite M_bind_run in H; [|unfold lift; rewrite u32_try_from_run by done; reflexivity].
  cbv zeta in H. fold (frame p) in H.
  destruct env as [|[|n e] env]; unfold write_all, next_sys, mbind, M_bind in H; cbn in H; injection H as <- <-;
    (split_and!; [done..|]).
  1, 2: exists (frame p); by split_and!.
  exists (take n (frame p)). split_and!; [done|apply prefix_take|done|done].
Qed.

Lemma sync_steps f r f' :
  sync f = (r, f') →
  f_content f' = f_content f ∧ f_exists f' = f_exists f ∧
  ((r = Ok tt ∧ f_synced f' = f_content f) ∨ (r ≠ Ok tt ∧ f_synced f' = f_synced f)).
Proof.
  destruct f as [x c y [|[|n e] env] rd]; intros H; injection H as <- <-;
    (split_and!; [done..|]); [by left|by left|by right].
Qed.

Lemma reset_steps f r f' :
  reset f = (r, f') →
  f_exists f' = f_exists f ∧
  ((r = Ok tt ∧ f_content f' = [] ∧ f_synced f' = []) ∨
   (r ≠ Ok tt ∧ f_synced f' = f_synced f ∧ (f_content f' = f_content f ∨ f_content f' = []))).
Proof.
  destruct f as [x c y [|[|n e] [|[|n' e'] env]] rd]; intros H; injection H as <- <-; cbn;
    (split; [done|]); [by left|by left|by left|right..]; by auto.
Qed.

(** ** A running store and a disk at rest *)

(** A log that durably holds the commands [cs]. *)
Record log_holds (f : file) (cs : list Command) : Prop := LogHolds {
  lh_exists : f_exists f = true;
  lh_content : f_content f = logged cs;
  lh_synced : f_synced f = logged cs;
  lh_loggable : Forall loggable cs;
}.

(** A snapshot [b] of the map [mb] and commands leading from it to [m]. *)
Record based (p : slot * slot) (cs : list Command) (m : gmap string string) : Prop := Based {
  bs_base : ∃ b mb, holds_map b mb ∧ savable b ∧ loads_as b p ∧ m = apply_commands cs mb;
}.

Record store_ok (s : Store) (m : gmap string string) : Prop := StoreOk {
  so_data : holds_map (data s) m;
  so_past : d_past (page_dir s) = [];
  so_parent : d_parent (page_dir s) = true;
  so_log : ∃ cs, log_holds (wal s) cs ∧ based (here (page_dir s)) cs m;
}.

(** A disk from which [open] recovers the map [m]. *)
Record disk_ok (d : disk) (m : gmap string string) : Prop := DiskOk {
  do_past : d_past (snapshot d) = [];
  do_parent : d_parent (snapshot d) = true;
  do_env : d_env (snapshot d) = [];
  do_log : ∃ cs, Forall loggable cs ∧ based (here (snapshot d)) cs m ∧
    (log d = absent ∧ cs = [] ∨ ∃ c t, log d = stored c ∧ replays c (encode <$> cs) t);
}.

(** What a crash leaves of a running store. *)
Record crash_store (s : Store) (d : disk) : Prop := CrashStore {
  cs_log : ∃ c, crash_image (wal s) c ∧ log d = stored c;
  cs_dir : crash_dir (page_dir s) (snapshot d);
}.
Definition survives (s : Store) (P : gmap string string → Prop) : Prop :=
  ∀ d, crash_store s d → ∃ m, P m ∧ disk_ok d m.

Lemma new_disk_ok : disk_ok new_disk ∅.
Proof.
  split; [done..|]. exists []. split_and!; [constructor| |by left].
  split. exists new, ∅. split_and!; [apply holds_new| |auto|done].
  by apply (holds_savable new ∅ holds_new).
Qed.

(** ** Opening *)

Lemma replay_disk d cs :
  Forall loggable cs →
  (log d = absent ∧ cs = [] ∨ ∃ c t, log d = stored c ∧ replays c (encode <$> cs) t) →
  ∃ r f f', replay (log d) = (Ok r, log d) ∧ records r = encode <$> cs ∧
    (if truncated r then truncate_path (valid_bytes r) else mret tt) (log d) = (Ok tt, f) ∧
    Wal.open f = (Ok tt, f') ∧ log_holds f' cs.
Proof.
  intros Hcs [[-> ->]|(c & t & -> & Hrep)].
  - eexists _, _, _. split_and!; [by apply replay_absent|done|done|by apply open_run|]. by split.
  - assert (readable (stored c)) as Hr by (split; [done|constructor]).
    destruct (repair_log c _ t Hrep) as (f & Hrun & Hf). destruct (log_open _ _ _ Hf) as (f' & Ho & Hf').
    eexists _, f, f'. split_and!; [by apply replay_of|done|exact Hrun|exact Ho|].
    destruct Hf' as [Hx _ _ Hc Hs]. rewrite app_nil_r in Hc. by split.
Qed.

Lemma open_spec d m : disk_ok d m → ∃ s d', open d = (Ok s, d') ∧ store_ok s m.
Proof.
  intros [Hpast Hpar Henv (cs & Hcs & [(b & mb & Hb & Hsv & Hl & ->)] & Hlog)].
  destruct d as [f dr]. cbn [log snapshot] in *.
  destruct (replay_disk (Disk f dr) cs Hcs Hlog) as (r & f1 & f2 & Hr & Hrec & Htr & Ho & Hf2).
  cbn [log] in Hr, Htr.
  destruct (load_spec b dr Hl (savable_ok _ Hsv) Henv) as (dr1 & Hload & Hl1 & _ & Hp1 & Hpa1 & _).
  destruct (apply_records_spec cs b mb Hcs Hb) as (t & Happ & Ht).
  unfold open. erewrite M_bind_run by (unfold on_log, zoom; cbn [log snapshot]; rewrite Hr; reflexivity).
  erewrite M_bind_run by (unfold on_snapshot, zoom; cbn [log snapshot]; rewrite Hload; reflexivity).
  rewrite Hrec, Happ. run_steps.
  assert ((if truncated r then on_log (truncate_path (valid_bytes r)) else mret tt : M disk io_error unit)
    (Disk f dr1) = (Ok tt, Disk f1 dr1)) as Htr'.
  { destruct (truncated r); [|by injection Htr as ->]. unfold on_log, zoom. cbn [log snapshot]. by rewrite Htr. }
  erewrite M_bind_run by exact Htr'.
  erewrite M_bind_run by (unfold on_log, zoom; cbn [log snapshot]; rewrite Ho; reflexivity). run_steps.
  eexists _, _. split; [reflexivity|]. split; cbn; [done|congruence|congruence|].
  exists cs. split; [done|]. split. exists b, mb. by split_and!.
Qed.

(** ** Surviving a crash *)

Lemma crash_survives s P Q :
  d_parent (page_dir s) = true → leaves (wal s) Q →
  (∀ d ds, crash_dir (page_dir s) d → Q ds → ∃ m, P m ∧ based (here d) ds m) → survives s P.
Proof.
  intros Hpar Hleaves H [f d] [(c & Hc & Hlog) Hdir]. cbn in Hlog, Hdir. subst f.
  destruct (Hleaves c Hc) as (ds & t & Hrep & Hlg & HQ). destruct (H d ds Hdir HQ) as (m & Hm & Hb).
  exists m. split; [done|]. destruct Hdir as [_ H1 H2 H3].
  split; cbn; [done|congruence|done|]. exists ds. split_and!; [done..|]. right. by exists c, t.
Qed.

Lemma based_crash d d' cs m :
  d_past d = [] → crash_dir d d' → based (here d) cs m → based (here d') cs m.
Proof.
  intros Hp Hc [(b & mb & Hb & Hsv & Hl & ->)]. split. exists b, mb. split_and!; [done..| |done].
  eapply (crash_loads (loads_as b)); [|done|exact Hc]. unfold states. rewrite Hp. by apply Forall_cons_2.
Qed.

Lemma based_more p cs m new : based p cs m → based p (cs ++ new) (apply_commands new m).
Proof. intros [(b & mb & Hb & Hsv & Hl & ->)]. split. exists b, mb. by rewrite apply_commands_app. Qed.

(** ** Mutations *)

Lemma store_wal_run {A} (m : M file io_error A) s r s' :
  on_wal m s = (r, s') → ∃ f, m (wal s) = (r, f) ∧ s' = set_wal f s.
Proof. unfold on_wal, zoom. destruct (m (wal s)) as [r' f]. intros [= <- <-]. by exists f. Qed.

(** The loop that logs a batch: some prefix of its records, whole or cut. *)
Lemma append_loop cs s r s' :
  Forall command_strings cs → for_each cs (λ c, on_wal (append (encode c))) s = (r, s') →
  ∃ f n k, s' = set_wal f s ∧ f_synced f = f_synced (wal s) ∧ f_exists f = f_exists (wal s) ∧
    f_content f = f_content (wal s) ++ k ∧ k `prefix_of` logged (take n cs) ∧ Forall loggable (take n cs) ∧
    (r = Ok tt → take n cs = cs ∧ k = logged cs).
Proof.
  intros Hcs. revert s r s'. induction Hcs as [|c cs Hc Hcs IH]; intros s r s'; cbn [for_each].
  { intros [= <- <-]. exists (wal s), 0, []. rewrite app_nil_r. split_and!; try done. by destruct s. }
  destruct (on_wal (append (encode c)) s) as [r1 s1] eqn:H1.
  apply store_wal_run in H1 as H1'. destruct H1' as (f1 & Ha & ->).
  destruct (append_steps _ _ _ _ Ha) as (Hs1 & Hx1 & k1 & Hc1 & Hk1 & Hok1 & Hsm).
  unfold mbind, M_bind. rewrite H1.
  assert (∃ n, k1 `prefix_of` logged (take n (c :: cs)) ∧ Forall loggable (take n (c :: cs))) as (n1 & Hn1 & Hl1).
  { destruct (decide (k1 = [])) as [->|Hne].
    - exists 0. split; [apply prefix_nil|by apply Forall_nil_2].
    - exists 1. cbn [take]. rewrite take_0, logged_one. split; [done|].
      apply Forall_cons_2; [|by apply Forall_nil_2]. split; [done|]. by apply Hsm; right. }
  destruct r1 as [[]|e|msg].
  - intros H. destruct (IH _ _ _ H) as (f & n & k & -> & Hs2 & Hx2 & Hc2 & Hk2 & Hl2 & Hok2). cbn in *.
    rewrite Hok1 in Hc1 by done. exists f, (S n), (frame (encode c) ++ k).
    split_and!; [done|congruence|congruence|by rewrite Hc2, Hc1, app_assoc| | |].
    + cbn [take]. rewrite logged_cons. by apply prefix_app.
    + cbn [take]. constructor; [|done]. split; [done|]. by apply Hsm; left.
    + intros Hr. destruct (Hok2 Hr) as [Ht ->]. cbn [take]. rewrite Ht. done.
  - intros [= <- <-]. exists f1, n1, k1. by split_and!.
  - intros [= <- <-]. exists f1, n1, k1. by split_and!.
Qed.

(** A store whose log holds the commands [cs] and parts of [new]. *)
Lemma logging_survives s m cs new f n k :
  store_ok s m → log_holds (wal s) cs → based (here (page_dir s)) cs m →
  Forall loggable (take n new) → f_content f = logged cs ++ k → k `prefix_of` logged (take n new) →
  f_synced f = logged cs →
  survives (set_wal f s) (λ m', ∃ j, m' = apply_commands (take j new) m).
Proof.
  intros [Hd Hpast Hpar _] [Hx Hc Hs Hl] Hb Hl' Hc' Hk Hs'.
  apply (crash_survives (set_wal f s) _ (λ ds, ∃ j, ds = cs ++ take j (take n new))); [done| |].
  - apply leaves_prefix; cbn [wal set_wal].
    + by apply Forall_app.
    + by rewrite Hs'.
    + rewrite Hs', Hc'. by apply prefix_app_r.
    + rewrite Hc', logged_app. by apply prefix_app.
  - intros d ds Hdir (j & ->). exists (apply_commands (take j (take n new)) m). split.
    + rewrite take_take. by eexists.
    + apply based_more. by eapply based_crash.
Qed.

Lemma synced_survives s m : store_ok s m → survives s (λ m', m' = m).
Proof.
  intros [Hd Hpast Hpar (cs & [Hx Hc Hs Hl] & Hb)].
  apply (crash_survives s _ (λ ds, ∃ j, ds = cs ++ take j [])); [done| |].
  - apply leaves_prefix; rewrite ?app_nil_r, ?Hc, ?Hs; done.
  - intros d ds Hdir (j & ->). exists m. split; [done|]. rewrite take_nil, app_nil_r. by eapply based_crash.
Qed.

Lemma survives_impl s (P Q : gmap string string → Prop) :
  survives s P → (∀ m, P m → Q m) → survives s Q.
Proof. intros H HPQ d Hd. destruct (H d Hd) as (m & Hm & Hok). eauto. Qed.

Lemma on_data_loop cs s t :
  for_each cs apply_memory (data s) = (Ok tt, t) →
  for_each cs (λ c, on_data (apply_memory c)) s = (Ok tt, set_data t s).
Proof.
  revert s. induction cs as [|c cs IH]; intros s; cbn [for_each].
  - intros [= <-]. by destruct s.
  - intros ([] & t1 & H1 & H)%M_bind_ok.
    erewrite M_bind_run by (unfold on_data, zoom; rewrite H1; reflexivity).
    apply (IH (set_data t1 s)). exact H.
Qed.

(** A batch: acknowledged, it is the new state; otherwise a crash keeps a prefix. *)
Lemma apply_batch_spec cs s m r s' :
  store_ok s m → Forall command_strings cs → apply_batch cs s = (r, s') →
  (r = Ok tt → store_ok s' (apply_commands cs m)) ∧
  survives s' (λ m', ∃ j, m' = apply_commands (take j cs) m ∧ (r = Ok tt → take j cs = cs)).
Proof.
  intros Hok Hcs. unfold apply_batch. destruct (existsb is_checkpoint cs).
  { intros [= <- <-]. split; [done|]. eapply survives_impl; [by apply synced_survives|].
    intros m' ->. exists 0. rewrite take_0. by split. }
  pose proof Hok as [Hd Hpast Hpar (ds & Hlog & Hb)]. pose proof Hlog as [Hx Hc Hs Hl].
  destruct (for_each cs (λ c, on_wal (append (encode c))) s) as [r1 s1] eqn:H1. intros H.
  destruct (append_loop cs s r1 s1 Hcs H1) as (f & n & k & -> & Hs1 & Hx1 & Hc1 & Hk & Hln & Hok1).
  rewrite Hc in Hc1. rewrite Hs in Hs1.
  pose proof (logging_survives s m ds cs f n k Hok Hlog Hb Hln Hc1 Hk Hs1) as Hsv.
  unfold mbind at 1, M_bind at 1 in H. rewrite H1 in H.
  destruct r1 as [[]|e|msg].
  2, 3: injection H as <- <-; split; [done|]; eapply survives_impl; [exact Hsv|]; intros m' [j ->]; by exists j.
  destruct (Hok1 eq_refl) as [Htk ->]. rewrite Htk in Hln.
  destruct (on_wal sync (set_wal f s)) as [r2 s2] eqn:H2. apply store_wal_run in H2 as H2'.
  destruct H2' as (f2 & Hsync & ->). cbn [wal set_wal] in Hsync.
  destruct (sync_steps _ _ _ Hsync) as (Hc2 & Hx2 & Hs2). unfold mbind, M_bind in H. rewrite H2 in H.
  change (set_wal f2 (set_wal f s)) with (set_wal f2 s) in H.
  destruct Hs2 as [[-> Hs2]|[Hne Hs2]].
  - destruct (apply_all_spec cs (data s) m Hcs Hd) as (t & Hrun & Ht).
    rewrite (on_data_loop cs (set_wal f2 s) t Hrun) in H. injection H as <- <-.
    assert (store_ok (set_data t (set_wal f2 s)) (apply_commands cs m)) as Hok'.
    { split; [done..|]. exists (ds ++ cs). split; [|by apply based_more].
      split; cbn; [congruence| | |by apply Forall_app]; rewrite logged_app; congruence. }
    split; [done|]. eapply survives_impl; [by apply synced_survives|]. intros m' ->.
    exists (length cs). by rewrite firstn_all.
  - assert (survives (set_wal f2 s) (λ m', ∃ j, m' = apply_commands (take j cs) m)) as Hsv2.
    { apply (logging_survives s m ds cs f2 (length cs) (logged cs)); auto;
        rewrite ?firstn_all; try done; congruence. }
    destruct r2 as [[]|e|msg]; [done|..]; injection H as <- <-; (split; [done|]);
      (eapply survives_impl; [exact Hsv2|]); intros m' [j ->]; by exists j.
Qed.

(** ** Checkpoints *)

Definition mark_log : store unit :=
  _ ← staged "append checkpoint record" (on_wal (append (encode CCheckpoint)));
  _ ← staged "sync checkpoint record" (on_wal sync);
  staged "truncate checkpointed WAL" (on_wal reset).

Lemma staged_wal {A} stage (m : M file io_error A) s r s' :
  staged stage (on_wal m) s = (r, s') →
  ∃ r1 f, m (wal s) = (r1, f) ∧ r = map_err (stage_error stage) r1 ∧ s' = set_wal f s.
Proof.
  unfold staged. destruct (on_wal m s) as [r1 s1] eqn:H. intros [= <- <-].
  apply store_wal_run in H as (f & Hm & ->). by exists r1, f.
Qed.

Lemma staged_bind stage (m : M file io_error unit) (k : store unit) s r s' :
  (_ ← staged stage (on_wal m); k) s = (r, s') →
  ∃ q f, m (wal s) = (q, f) ∧
    ((q = Ok tt ∧ k (set_wal f s) = (r, s')) ∨ (q ≠ Ok tt ∧ r ≠ Ok tt ∧ s' = set_wal f s)).
Proof.
  unfold mbind at 1, M_bind at 1. destruct (staged stage (on_wal m) s) as [r1 s1] eqn:H1.
  apply staged_wal in H1 as (q & f & Hm & -> & ->). intros H. exists q, f. split; [done|].
  destruct q as [[]|e|msg]; cbn [map_err] in H; [by left|right..]; by injection H as <- <-.
Qed.

Lemma map_err_unit {E F} (g : E → F) (r : result E unit) : map_err g r = Ok tt ↔ r = Ok tt.
Proof. apply map_err_ok. Qed.

Lemma checkpoint_loggable : loggable CCheckpoint.
Proof. split; [done|]. unfold small, u32_range, U32_MAX. cbn. lia. Qed.

Lemma leaves_impl f (P Q : list Command → Prop) : leaves f P → (∀ ds, P ds → Q ds) → leaves f Q.
Proof. intros H HPQ c Hc. destruct (H c Hc) as (ds & t & ? & ? & ?). exists ds, t. auto. Qed.

(** A file emptied behind its last sync holds all of it or nothing. *)
Lemma leaves_emptied f cs new :
  Forall loggable (cs ++ new) → f_content f = [] → logged cs `prefix_of` f_synced f →
  f_synced f `prefix_of` logged (cs ++ new) →
  leaves f (λ ds, ds = [] ∨ ∃ j, ds = cs ++ take j new).
Proof.
  intros Hall Hc Hlo Hhi c Hcr.
  assert (c = [] ∨ c = f_synced f) as [->| ->].
  { destruct Hcr as [c H1 H2| |]; [left|by right|by left]. rewrite Hc in H2. by apply prefix_nil_inv in H2. }
  - exists [], []. split_and!; [apply replays_stop, torn_nil|constructor|by left].
  - destruct (leaves_prefix (File true (f_synced f) (f_synced f) [] []) cs new Hall Hlo) with (c := f_synced f)
      as (ds & t & ? & ? & ?); 
      [done|exact Hhi|exact (crash_old (File true (f_synced f) (f_synced f) [] []))|].
    exists ds, t. auto.
Qed.

Lemma mark_log_spec cs s r s' :
  log_holds (wal s) cs → mark_log s = (r, s') →
  ∃ f, s' = set_wal f s ∧ f_exists f = true ∧ (r = Ok tt → f_content f = [] ∧ f_synced f = []) ∧
    leaves f (λ ds, ds = [] ∨ ∃ j, ds = cs ++ take j [CCheckpoint]).
Proof.
  intros [Hx Hc Hs Hl] H. unfold mark_log in H.
  assert (Forall loggable (cs ++ [CCheckpoint])) as Hl'.
  { apply Forall_app. split; [done|]. apply Forall_singleton, checkpoint_loggable. }
  apply staged_bind in H as (q1 & f1 & Ha & H).
  destruct (append_steps _ _ _ _ Ha) as (Hs1 & Hx1 & k & Hc1 & Hk & Hok1 & _).
  assert (leaves f1 (λ ds, ds = [] ∨ ∃ j, ds = cs ++ take j [CCheckpoint])) as Hlv1.
  { eapply leaves_impl; [apply (leaves_prefix f1 cs [CCheckpoint] Hl')|naive_solver].
    - by rewrite Hs1, Hs.
    - rewrite Hs1, Hs, Hc1, Hc. by apply prefix_app_r.
    - rewrite Hc1, Hc, logged_app, logged_one. by apply prefix_app. }
  destruct H as [[-> H]|(_ & Hr & ->)]; [|exists f1; split_and!; [done|congruence|done|done]].
  rewrite Hok1 in Hc1 by done.
  apply staged_bind in H as (q2 & f2 & Hsy & H). cbn [wal set_wal] in Hsy.
  destruct (sync_steps _ _ _ Hsy) as (Hc2 & Hx2 & Hs2).
  assert (f_content f2 = logged (cs ++ [CCheckpoint])) as Hc2'.
  { rewrite Hc2, Hc1, Hc, logged_app, logged_one. done. }
  assert (logged cs `prefix_of` f_synced f2 ∧ f_synced f2 `prefix_of` logged (cs ++ [CCheckpoint])) as [Hlo2 Hhi2].
  { destruct Hs2 as [[_ ->]|[_ ->]]; rewrite ?Hs1, ?Hs, <- ?Hc2, ?Hc2', ?logged_app;
      split; try done; by apply prefix_app_r. }
  assert (leaves f2 (λ ds, ds = [] ∨ ∃ j, ds = cs ++ take j [CCheckpoint])) as Hlv2.
  { eapply leaves_impl; [apply (leaves_prefix f2 cs [CCheckpoint] Hl' Hlo2)|naive_solver]; by rewrite Hc2'. }
  change (set_wal f2 (set_wal f1 s)) with (set_wal f2 s) in H.
  destruct H as [[-> H]|(_ & Hr & ->)]; [|exists f2; split_and!; [done|congruence|done|done]].
  apply staged_wal in H as (q3 & f3 & Hr & -> & ->). cbn [wal set_wal] in Hr.
  destruct (reset_steps _ _ _ Hr) as (Hx3 & H3). exists f3. split_and!; [done|congruence|..].
  - rewrite map_err_unit. intros ->. by destruct H3 as [(_ & ? & ?)|(? & _)].
  - destruct H3 as [(_ & Hc3 & Hs3)|(_ & Hs3 & [Hc3|Hc3])].
    + eapply leaves_impl; [apply (leaves_prefix f3 [] []); [by apply Forall_nil_2|by rewrite Hs3|by rewrite Hs3, Hc3|by rewrite Hc3]|].
      intros ds [j ->]. left. by rewrite take_nil.
    + eapply leaves_impl; [apply (leaves_prefix f3 cs [CCheckpoint] Hl')|naive_solver];
        rewrite ?Hs3, ?Hc3; [done| |]; by rewrite Hc2'.
    + apply leaves_emptied; [done..| |]; by rewrite Hs3.
Qed.

Lemma based_self p t m cs :
  settled t p → holds_map t m → savable t → apply_commands cs m = m → based p cs m.
Proof. intros Hp Ht Hs Hcs. split. exists t, m. split_and!; [done|done|by apply settled_loads|done]. Qed.

(** The snapshot that a checkpoint replaces is not the only copy. *)
Definition has_main (d : dir) : Prop := d_main d = None → d_backup d = None.

Lemma checkpoint_spec s m r s' :
  store_ok s m → room m → checkpoint s = (r, s') →
  (r = Ok tt → store_ok s' m) ∧ (has_main (page_dir s) → survives s' (λ m', m' = m)).
Proof.
  intros Hok Hroom H. pose proof Hok as [Hd Hpast Hpar (cs & Hlog & [(b & mb & Hb & Hsv & Hl & Hm)])].
  pose proof (holds_savable _ _ Hd Hroom) as Hsvt.
  assert (apply_commands cs m = m) as Htwice by (rewrite Hm; apply apply_commands_twice).
  unfold checkpoint in H. revert H. run_steps. fold mark_log. intros H.
  destruct (save (data s) (page_dir s)) as [r1 d1] eqn:Hsave.
  assert (staged "write page snapshot" (on_dir (save (data s))) s
    = (map_err (stage_error "write page snapshot") r1, set_page_dir d1 s)) as Hst.
  { unfold staged, on_dir, zoom. by rewrite Hsave. }
  assert (r1 ≠ Ok tt → has_main (page_dir s) → survives (set_page_dir d1 s) (λ m', m' = m)) as Hfailed.
  { intros _ Hmain.
    assert (settled b (here (page_dir s))) as Hold.
    { unfold here, has_main in *. inversion Hl as [s0 b0 Hg Heq|s0 Hg Heq|Hn Heq].
      - by constructor.
      - specialize (Hmain (eq_sym Heq)). congruence.
      - by constructor. }
    destruct (save_spec b (data s) (page_dir s) Hold Hpast) as (r' & d' & Hrun & Hall & Hpar' & _).
    rewrite Hsave in Hrun. injection Hrun as <- <-. pose proof Hlog as [Hx Hc Hs Hlg].
    apply (crash_survives (set_page_dir d1 s) _ (λ ds, ∃ j, ds = cs ++ take j [])); [cbn; congruence| |].
    + apply leaves_prefix; cbn; rewrite ?app_nil_r, ?Hc, ?Hs; done.
    + intros d ds Hdir (j & ->). exists m. split; [done|]. rewrite take_nil, app_nil_r.
      destruct (crash_either _ _ _ _ Hall Hdir) as [Hl'|Hl']; split.
      * by exists b, mb.
      * by exists (data s), m. }
  unfold mbind, M_bind in H. rewrite Hst in H. destruct r1 as [[]|e|msg]; cbn [map_err] in H.
  - destruct (save_ok _ _ _ Hsave) as (Hset & Hpar1 & Hpast1). specialize (Hpast1 Hpar).
    destruct (mark_log_spec cs (set_page_dir d1 s) r s' Hlog H) as (f & -> & Hx & Hrok & Hleaves).
    split.
    + intros Hr. destruct (Hrok Hr) as [Hc Hs]. split; cbn; [done|done|congruence|].
      exists []. split; [by split|]. by apply (based_self _ (data s)).
    + intros _. eapply (crash_survives (set_wal f (set_page_dir d1 s))); [cbn; congruence|exact Hleaves|].
      cbn. intros d ds Hdir Hds. exists m. split; [done|]. apply (based_crash d1); [done|done|].
      apply (based_self _ (data s)); [done..|]. destruct Hds as [->|[j ->]]; [done|].
      by rewrite apply_checkpoints.
  - injection H as <- <-. split; [done|by apply Hfailed].
  - injection H as <- <-. split; [done|by apply Hfailed].
Qed.

(** ** Operations and lifetimes *)

Inductive store_op : Type :=
| OpSet (key value : string)
| OpDelete (key : string)
| OpBatch (cs : list Command)
| OpSetBatch (entries : list (string * string))
| OpCheckpoint.

Definition run_op (o : store_op) : store unit :=
  match o with
  | OpSet key value => Store.set key value
  | OpDelete key => Store.delete key
  | OpBatch cs => apply_batch cs
  | OpSetBatch entries => set_batch entries
  | OpCheckpoint => checkpoint
  end.

Definition commands_of (o : store_op) : list Command :=
  match o with
  | OpSet key value => [CSet key value]
  | OpDelete key => [CDelete key]
  | OpBatch cs => cs
  | OpSetBatch entries => (λ e, CSet e.1 e.2) <$> entries
  | OpCheckpoint => []
  end.

(** Its arguments are Rust strings. *)
Definition op_strings (o : store_op) : Prop := Forall command_strings (commands_of o).

Lemma for_each_one {S E A} (a : A) (f : A → M S E unit) s : for_each [a] f s = f a s.
Proof. cbn [for_each]. unfold mbind, M_bind. by destruct (f a s) as [[[]|e|p] s']. Qed.

Lemma bind_cong {S E A B} (m m' : M S E A) (f f' : A → M S E B) s :
  m s = m' s → (∀ a s, f a s = f' a s) → (m ≫= f) s = (m' ≫= f') s.
Proof. intros H Hf. unfold mbind, M_bind. rewrite H. by destruct (m' s) as [[]]. Qed.

Definition logged_then (w : store unit) (m : store unit) : store unit := _ ← w; _ ← on_wal sync; m.

Lemma logged_then_cong w w' m m' s :
  (∀ s, w s = w' s) → (∀ s, m s = m' s) → logged_then w m s = logged_then w' m' s.
Proof. intros Hw Hm. apply bind_cong; [apply Hw|]. intros _ s1. apply bind_cong; [done|]. intros _. apply Hm. Qed.

Lemma apply_eq c : apply c = logged_then (on_wal (append (encode c))) (on_data (apply_memory c)).
Proof. reflexivity. Qed.

Lemma apply_batch_eq cs :
  existsb is_checkpoint cs = false →
  apply_batch cs = logged_then (for_each cs (λ c, on_wal (append (encode c))))
                               (for_each cs (λ c, on_data (apply_memory c))).
Proof. intros H. unfold apply_batch. rewrite H. reflexivity. Qed.

Lemma apply_single c s : is_checkpoint c = false → apply c s = apply_batch [c] s.
Proof.
  intros Hc. rewrite apply_eq, apply_batch_eq by (cbn [existsb]; by rewrite Hc).
  apply logged_then_cong; intros s1; symmetry; exact (for_each_one c _ s1).
Qed.

Definition acknowledged_by (o : store_op) (r : io unit) (m m' : gmap string string) : Prop :=
  ∃ j, m' = apply_commands (take j (commands_of o)) m ∧ (r = Ok tt → take j (commands_of o) = commands_of o).

Definition op_sound (o : store_op) : Prop := ∀ s m r s',
  store_ok s m → room m → op_strings o → run_op o s = (r, s') →
  (r = Ok tt → store_ok s' (apply_commands (commands_of o) m)) ∧
  ((o = OpCheckpoint → has_main (page_dir s)) → survives s' (acknowledged_by o r m)).

Lemma batch_op_ok o :
  (∀ s, run_op o s = apply_batch (commands_of o) s) → op_sound o.
Proof.
  intros Ho s m r s' Hok _ Hs H. rewrite Ho in H.
  destruct (apply_batch_spec _ _ _ _ _ Hok Hs H) as [H1 H2]. split; [exact H1|]. intros _. exact H2.
Qed.

Lemma run_op_spec o : op_sound o.
Proof.
  destruct o as [k v|k|cs|es|].
  - apply batch_op_ok. intros s. exact (apply_single (CSet k v) s eq_refl).
  - apply batch_op_ok. intros s. exact (apply_single (CDelete k) s eq_refl).
  - apply batch_op_ok. intros s. exact eq_refl.
  - apply batch_op_ok. intros s. exact eq_refl.
  - intros s m r s' Hok Hroom _ H. destruct (checkpoint_spec s m r s' Hok Hroom H) as [H1 H2].
    split; [exact H1|]. intros Hmain. eapply survives_impl; [exact (H2 (Hmain eq_refl))|].
    intros m' ->. by exists 0.
Qed.

(** The answers the environment will give to the next operation. *)
Definition with_env (e e' : list sys) (s : Store) : Store :=
  MkStore (File (f_exists (wal s)) (f_content (wal s)) (f_synced (wal s)) e (f_reads (wal s)))
          (set_env e' (page_dir s)) (data s) (recovery s).

Lemma with_env_ok e e' s m : store_ok s m → store_ok (with_env e e' s) m.
Proof.
  intros [Hd Hpast Hpar (cs & [Hx Hc Hs Hl] & Hb)]. split; [done..|]. exists cs. split; [by split|done].
Qed.

(** A store's lifetime from an empty disk: operations that succeed, whatever the
    environment answers underneath, and crashes in the middle of an operation,
    followed by a reopening.  Each operation comes with whether it returned [Ok].
    A crash inside a checkpoint is considered when the snapshot is in place. *)
Inductive lifetime : list (store_op * bool) → Store → Prop :=
| life_open s d : open new_disk = (Ok s, d) → lifetime [] s
| life_done es s o e e' s' :
    lifetime es s → op_strings o → run_op o (with_env e e' s) = (Ok tt, s') →
    lifetime (es ++ [(o, true)]) s'
| life_crash es s o e e' r s1 d s' d' :
    lifetime es s → op_strings o → (o = OpCheckpoint → has_main (page_dir s)) →
    run_op o (with_env e e' s) = (r, s1) → crash_store s1 d → open d = (Ok s', d') →
    lifetime (es ++ [(o, is_ok r)]) s'.

(** The specification: an acknowledged operation happens, one in flight at a
    crash happens up to some of its commands. *)
Inductive allowed : list (store_op * bool) → gmap string string → Prop :=
| allowed_none : allowed [] ∅
| allowed_done es m o : allowed es m → allowed (es ++ [(o, true)]) (apply_commands (commands_of o) m)
| allowed_cut es m o j :
    allowed es m → allowed (es ++ [(o, false)]) (apply_commands (take j (commands_of o)) m).

Definition all_commands (es : list (store_op * bool)) : list Command := es ≫= λ e, commands_of e.1.

Lemma size_apply cs m : base.size (apply_commands cs m) ≤ base.size m + length cs.
Proof.
  revert m. induction cs as [|c cs IH]; intros m; cbn; [lia|]. etrans; [apply IH|].
  assert (base.size (apply_command m c) ≤ S (base.size m)); [|lia].
  destruct c as [k v|k|]; cbn; [| |lia].
  - destruct (m !! k) eqn:Hk; [rewrite map_size_insert_Some by eauto|rewrite map_size_insert_None by done]; lia.
  - destruct (m !! k) eqn:Hk; [rewrite map_size_delete_Some by eauto|rewrite map_size_delete_None by done]; lia.
Qed.

Lemma allowed_size es m : allowed es m → base.size m ≤ length (all_commands es).
Proof.
  induction 1 as [|es m o H IH|es m o j H IH]; [rewrite map_size_empty; cbn; lia|..].
  all: unfold all_commands in *; rewrite bind_app, length_app; cbn; rewrite app_nil_r.
  - pose proof (size_apply (commands_of o) m). lia.
  - pose proof (size_apply (take j (commands_of o)) m). rewrite length_take in *. lia.
Qed.

Lemma lifetime_ok es s :
  lifetime es s → (Z.of_nat (S (length (all_commands es))) < U64_MAX)%Z → ∃ m, allowed es m ∧ store_ok s m.
Proof.
  induction 1 as [s d Ho|es s o e e' s' H IH Hs Hrun|es s o e e' r s1 d s' d' H IH Hs Hmain Hrun Hcr Ho];
    intros Hsmall.
  - exists ∅. split; [constructor|]. destruct (open_spec _ _ new_disk_ok) as (s' & d' & Ho' & Hok).
    rewrite Ho in Ho'. by injection Ho' as <- <-.
  - unfold all_commands in Hsmall. rewrite bind_app, length_app in Hsmall.
    destruct IH as (m & Hm & Hok); [unfold all_commands; lia|].
    assert (room m) as Hroom by (pose proof (allowed_size _ _ Hm); unfold room, all_commands in *; lia).
    destruct (run_op_spec o _ m _ s' (with_env_ok e e' s m Hok) Hroom Hs Hrun) as [Hok' _].
    eexists. split; [by constructor|]. by apply Hok'.
  - unfold all_commands in Hsmall. rewrite bind_app, length_app in Hsmall.
    destruct IH as (m & Hm & Hok); [unfold all_commands; lia|].
    assert (room m) as Hroom by (pose proof (allowed_size _ _ Hm); unfold room, all_commands in *; lia).
    destruct (run_op_spec o _ m _ s1 (with_env_ok e e' s m Hok) Hroom Hs Hrun) as [_ Hsv].
    destruct (Hsv Hmain d Hcr) as (m' & (j & -> & Hj) & Hd).
    destruct (open_spec _ _ Hd) as (s2 & d2 & Ho' & Hok'). rewrite Ho in Ho'. injection Ho' as <- <-.
    eexists. split; [|exact Hok']. destruct r as [[]|err|msg]; cbn [is_ok].
    + rewrite Hj by done. by constructor.
    + by constructor.
    + by constructor.
Qed.

(** What a store answers. *)
Record serves (s : Store) (m : gmap string string) : Prop := Serves {
  sv_get key : Store.get s key = Ok (m !! key);
  sv_contains key : contains s key = Ok (bool_decide (is_Some (m !! key)));
  sv_len : Store.len s = base.size m;
  sv_empty : Store.is_empty s = (base.size m =? 0);
  sv_keys : keys_sorted s = Ok (btree_keys m);
  sv_range start stop :
    Store.range s start stop = Ok (base.filter (λ e, in_range start stop e.1 = true) (btree_iter m));
}.

Lemma store_serves s m : store_ok s m → serves s m.
Proof.
  intros [[Hr _] _ _ _]. destruct (represents_answers _ _ Hr) as [Hg Hl He Hk Hra]. split; auto.
  - intros key. unfold contains. by rewrite Hg.
  - unfold Store.is_empty, BTree.is_empty. by rewrite Hl.
Qed.

(** ** Properties *)


(** A lifetime with two checkpoints: one succeeds, one is cut off between its two
    renames, so that the snapshot survives under the backup's name only. *)
Definition dummy_store : Store := MkStore absent (empty_dir []) new (MkRecovery 0 false 0).
Definition opened (d : disk) : Store := match fst (open d) with Ok s => s | _ => dummy_store end.
Definition after_op (o : store_op) (e' : list sys) (s : Store) : Store := snd (run_op o (with_env [] e' s)).
Definition cut_disk (s : Store) : disk :=
  Disk (stored (f_synced (wal s))) (after_crash (here (page_dir s)) (page_dir s)).

Definition demo_a : Store := after_op (OpSet "a" "1") [] (opened new_disk).
Definition demo_saved : Store := after_op OpCheckpoint [] demo_a.
Definition demo_b : Store := after_op (OpSet "b" "2") [] demo_saved.
Definition demo_cut : Store := after_op OpCheckpoint until_second_rename demo_b.
Definition demo_reopened : Store := opened (cut_disk demo_cut).
(** The next checkpoint stops once it has removed the backup. *)
Definition until_first_rename : list sys := replicate 13 SysOk ++ replicate 9 crash.
Definition demo_cut_again : Store := after_op OpCheckpoint until_first_rename demo_reopened.
Definition demo_final : Store := opened (cut_disk demo_cut_again).

Definition demo_events : list (store_op * bool) :=
  [(OpSet "a" "1", true); (OpCheckpoint, true); (OpSet "b" "2", true); (OpCheckpoint, false)].

Lemma life_after es s o e' :
  lifetime es s → op_strings o → fst (run_op o (with_env [] e' s)) = Ok tt →
  lifetime (es ++ [(o, true)]) (after_op o e' s).
Proof.
  intros Hl Hs Hok. apply (life_done es s o [] e'); [done|done|]. unfold after_op.
  rewrite <- Hok. apply surjective_pairing.
Qed.

Lemma opened_run d : is_ok (fst (open d)) = true → open d = (Ok (opened d), snd (open d)).
Proof. unfold opened. by destruct (open d) as [[] ?]. Qed.

Lemma cut_crash s : crash_store s (cut_disk s).
Proof. split; [exists (f_synced (wal s)); split; [apply crash_old|done]|]. apply crash_after. left. Qed.

Lemma demo_lifetime : lifetime demo_events demo_reopened.
Proof.
  assert (lifetime [] (opened new_disk)) as H0.
  { apply (life_open _ (snd (open new_disk))), opened_run. vm_compute. reflexivity. }
  assert (lifetime ([] ++ [(OpSet "a" "1", true)]) demo_a) as H1.
  { apply life_after; [exact H0|repeat constructor|]. vm_compute. reflexivity. }
  assert (lifetime (([] ++ [(OpSet "a" "1", true)]) ++ [(OpCheckpoint, true)]) demo_saved) as H2.
  { apply life_after; [exact H1|repeat constructor|]. vm_compute. reflexivity. }
  assert (lifetime ((([] ++ [(OpSet "a" "1", true)]) ++ [(OpCheckpoint, true)]) ++ [(OpSet "b" "2", true)]) demo_b) as H3.
  { apply life_after; [exact H2|repeat constructor|]. vm_compute. reflexivity. }
  assert (is_ok (fst (run_op OpCheckpoint (with_env [] until_second_rename demo_b))) = false) as Hr
    by (vm_compute; reflexivity).
  change demo_events with (((([] ++ [(OpSet "a" "1", true)]) ++ [(OpCheckpoint, true)])
    ++ [(OpSet "b" "2", true)]) ++ [(OpCheckpoint, false)]). rewrite <- Hr.
  apply (life_crash _ demo_b OpCheckpoint [] until_second_rename
    (fst (run_op OpCheckpoint (with_env [] until_second_rename demo_b))) demo_cut (cut_disk demo_cut)
    demo_reopened (snd (open (cut_disk demo_cut)))).
  - exact H3.
  - constructor.
  - intros _ H. exfalso. revert H. vm_compute. discriminate.
  - apply surjective_pairing.
  - apply cut_crash.
  - apply opened_run. vm_compute. reflexivity.
Qed.


(** Two interrupted checkpoints lose acknowledged data.  After a checkpoint
    cut off between its renames the only snapshot is the backup; the store opens
    and answers from it, but the next checkpoint removes the backup before it has
    put anything in its place.  A crash there leaves no snapshot: the store opens
    without the key [a] that was set, acknowledged and checkpointed, although the
    new snapshot lies complete in the temporary file. *)
Theorem interrupted_checkpoints_lose_data :
  ∃ s r s1 d s' d', lifetime demo_events s ∧ Store.get s "a" = Ok (Some "1") ∧
    run_op OpCheckpoint (with_env [] until_first_rename s) = (r, s1) ∧ crash_store s1 d ∧
    open d = (Ok s', d') ∧ Store.get s' "a" = Ok None ∧ Store.get s' "b" = Ok (Some "2").
Proof.
  exists demo_reopened, (fst (run_op OpCheckpoint (with_env [] until_first_rename demo_reopened))),
    demo_cut_again, (cut_disk demo_cut_again), demo_final, (snd (open (cut_disk demo_cut_again))).
  split; [exact demo_lifetime|]. split; [vm_compute; reflexivity|].
  split; [apply surjective_pairing|]. split; [apply cut_crash|].
  split; [apply opened_run; vm_compute; reflexivity|]. split; vm_compute; reflexivity.
Qed.


(** A disk whose path does not name its directory. *)
Definition bare_disk : disk := Disk absent (MkDir None None None [] false []).
Definition bare_saved : Store := after_op OpCheckpoint [] (after_op (OpSet "a" "1") [] (opened bare_disk)).
Definition bare_crashed : disk := Disk (stored []) (after_crash (None, None) (page_dir bare_saved)).
Definition acknowledged (o : store_op) (s s' : Store) : Prop := run_op o s = (Ok tt, s').

(** A store whose path is a bare file name never syncs its directory: after a
    checkpoint that returned [Ok] a crash may still find the names of before it,
    with the log already emptied, and an acknowledged key is gone. *)
Theorem bare_path_checkpoint_is_not_durable :
  ∃ s0 d0 s1 s2 d s3 d3, open bare_disk = (Ok s0, d0) ∧ acknowledged (OpSet "a" "1") s0 s1 ∧
    acknowledged OpCheckpoint s1 s2 ∧ crash_store s2 d ∧ open d = (Ok s3, d3) ∧
    Store.get s2 "a" = Ok (Some "1") ∧ Store.get s3 "a" = Ok None.
Proof.
  exists (opened bare_disk), (snd (open bare_disk)), (after_op (OpSet "a" "1") [] (opened bare_disk)),
    bare_saved, bare_crashed, (opened bare_crashed), (snd (open bare_crashed)).
  split; [apply opened_run; vm_compute; reflexivity|].
  split; [vm_compute; reflexivity|]. split; [vm_compute; reflexivity|]. split.
  { split; [exists []; split; [|done]|].
    - assert (f_content (wal bare_saved) = []) as <- by (vm_compute; reflexivity). apply crash_new.
    - split; [|done..]. exists (None, None). split; [|split; constructor].
      apply (list_elem_of_lookup_2 _ 1). vm_compute. reflexivity. }
  split; [apply opened_run; vm_compute; reflexivity|]. split; vm_compute; reflexivity.
Qed.
