(* ===== verification/SqlAst.v ===== *)
(** The SQL front end's data: src/src/sql/ast.rs and the tokens of lexer.rs.

    Integers are 64-bit and signed; [i64_range] is the type's invariant. *)

From S2P Require Import Prelude Bytes.
From Stdlib Require Import Ascii.

Definition I64_MIN : Z := - 2 ^ 63.
Definition I64_MAX : Z := 2 ^ 63 - 1.
Definition i64_range (z : Z) : Prop := (I64_MIN ≤ z ≤ I64_MAX)%Z.

Inductive TokenKind : Type :=
| TWord (word : string)
| TInteger (value : Z)
| TString (value : string)
| TComma | TLeftParen | TRightParen | TStar | TSemicolon
| TEq | TNe | TLt | TLe | TGt | TGe
| TEnd.

Record Token : Type := MkToken { t_kind : TokenKind; t_pos : nat }.

#[export] Instance token_kind_eq_dec : EqDecision TokenKind.
Proof. solve_decision. Defined.

(** ** Syntax *)

Inductive DataType : Type := DInteger | DText | DBoolean.

Inductive Value : Type :=
| VNull
| VInteger (value : Z)
| VText (value : string)
| VBoolean (value : bool).

(** [Display for Value] *)
Definition value_text (v : Value) : string :=
  match v with
  | VNull => "NULL"
  | VInteger z => pretty z
  | VText s => s
  | VBoolean b => if b then "true" else "false"
  end.

Record ColumnDef : Type := MkColumn { c_name : string; data_type : DataType; primary_key : bool }.

Inductive BinaryOp : Type := OEq | ONe | OLt | OLe | OGt | OGe | OAnd | OOr.

Inductive Expr : Type :=
| EColumn (name : string)
| ELiteral (value : Value)
| EBinary (op : BinaryOp) (left right : Expr).

Inductive Projection : Type := PAll | PColumns (names : list string).

Record Select : Type := MkSelect {
  s_table : string;
  s_projection : Projection;
  s_filter : option Expr;
  s_order : option (string * bool);
  s_limit : option Z;
}.

Inductive Statement : Type :=
| SCreateTable (table : string) (columns : list ColumnDef)
| SInsert (table : string) (columns : list string) (values : list Value)
| SSelect (select : Select)
| SUpdate (table : string) (assignments : list (string * Value)) (filter : option Expr)
| SDelete (table : string) (filter : option Expr)
| SBegin | SCommit | SRollback
| SExplain (select : Select).

Inductive SqlResult : Type :=
| RAffected (count : nat)
| RRows (columns : list string) (rows : list (list Value))
| RBegun | RCommitted | RRolledBack
| RExplain (text : string).

#[export] Instance data_type_eq_dec : EqDecision DataType.
Proof. solve_decision. Defined.
#[export] Instance value_eq_dec : EqDecision Value.
Proof. solve_decision. Defined.
#[export] Instance column_def_eq_dec : EqDecision ColumnDef.
Proof. solve_decision. Defined.
#[export] Instance binary_op_eq_dec : EqDecision BinaryOp.
Proof. solve_decision. Defined.
#[export] Instance expr_eq_dec : EqDecision Expr.
Proof. solve_decision. Defined.
