(* ===== verification/SqlLexer.v ===== *)
(** The SQL lexer: src/src/sql/lexer.rs.

    The loop keeps the byte offset and the bytes from there on; its fuel is the
    number of bytes left, each round taking at least one.  Where the source
    slices its text, the slice panics off a character boundary; the pieces are
    kept as bytes. *)

From S2P Require Import Prelude Bytes SqlAst.
From Stdlib Require Import Ascii.

(** [u8::is_ascii_whitespace], [is_ascii_digit], [is_ascii_alphabetic]. *)
Definition is_whitespace (b : u8) : bool :=
  existsb (λ n, (u8_val b =? n)%Z) [32; 9; 10; 12; 13]%Z.
Definition is_digit (b : u8) : bool := in_range 48 57 b.
Definition is_alpha (b : u8) : bool := in_range 65 90 b || in_range 97 122 b.
Definition is_word_byte (b : u8) : bool := is_alpha b || is_digit b || bool_decide (b = "_"%char).

Definition error (pos : nat) (message : string) : io_error :=
  invalid_input ("sql at byte " +:+ pretty pos +:+ ": " +:+ message).

(** [byte as char], printed: Latin-1, in UTF-8. *)
Definition as_char (b : u8) : string :=
  if (u8_val b <? 128)%Z then of_bytes [b]
  else of_bytes [to_u8 (192 + u8_val b / 64); to_u8 (128 + u8_val b mod 64)].

(** The bytes while [f] holds, and the rest. *)
Fixpoint span (f : u8 → bool) (bs : bytes) : bytes * bytes :=
  match bs with
  | [] => ([], [])
  | b :: rest => if f b then let '(taken, ahead) := span f rest in (b :: taken, ahead) else ([], bs)
  end.

(** [str::to_ascii_uppercase]. *)
Definition upper (b : u8) : u8 := if in_range 97 122 b then to_u8 (u8_val b - 32) else b.
Definition to_ascii_uppercase (bs : bytes) : string := of_bytes (upper <$> bs).

(** [str::parse::<i64>] of an optional minus sign and decimal digits. *)
Definition digit_value (b : u8) : Z := u8_val b - 48.
Definition decimal (ds : bytes) : Z := foldl (λ n d, (10 * n + digit_value d)%Z) 0%Z ds.
Definition parse_i64 (bs : bytes) : option Z :=
  let z := match bs with
           | b :: ds => if decide (b = "-"%char) then (- decimal ds)%Z else decimal bs
           | [] => 0%Z
           end in
  if ((I64_MIN <=? z) && (z <=? I64_MAX))%Z then Some z else None.

(** The length in bytes of the character a string begins with. *)
Definition char_len (b : u8) : nat :=
  if (u8_val b <? 128)%Z then 1 else if (u8_val b <? 224)%Z then 2 else if (u8_val b <? 240)%Z then 3 else 4.

(** [str::is_char_boundary] of the offset with [rest] behind it. *)
Definition is_char_boundary (rest : bytes) : bool :=
  match rest with [] => true | b :: _ => negb (in_range 128 191 b) end.

(** [&source[offset..]], and [&source[start..offset]] with [ahead] behind it. *)
Definition slice_from (rest : bytes) : io bytes :=
  if is_char_boundary rest then Ok rest else Panic "byte index is not a char boundary".
Definition slice (piece ahead : bytes) : io bytes :=
  if is_char_boundary (piece ++ ahead) && is_char_boundary ahead then Ok piece
  else Panic "byte index is not a char boundary".

(** The [loop] of a text literal, after its opening quote: the value, and the
    bytes behind the closing one.  A doubled quote stands for one. *)
Fixpoint lex_string (fuel : nat) (pos : nat) (rest : bytes) (value : bytes) : io (bytes * bytes) :=
  match fuel with
  | O => Panic "lex_string: out of fuel"
  | S fuel =>
    match rest with
    | [] => Err (error pos "unterminated string literal")
    | b :: r =>
      if decide (b = "'"%char) then
        match r with
        | b' :: r' => if decide (b' = "'"%char) then lex_string fuel pos r' (value ++ ["'"%char]) else Ok (value, r)
        | [] => Ok (value, r)
        end
      else
        tail ← slice_from rest;
        lex_string fuel pos (drop (char_len b) tail) (value ++ take (char_len b) tail)
    end
  end.

(** One token, at the byte [b] followed by [r]: its kind and what is left. *)
Definition lex_token (pos : nat) (b : u8) (r : bytes) : io (TokenKind * bytes) :=
  let followed := match r with b' :: _ => bool_decide (b' = "="%char) | [] => false end in
  if decide (b = ","%char) then Ok (TComma, r) else
  if decide (b = "("%char) then Ok (TLeftParen, r) else
  if decide (b = ")"%char) then Ok (TRightParen, r) else
  if decide (b = "*"%char) then Ok (TStar, r) else
  if decide (b = ";"%char) then Ok (TSemicolon, r) else
  if decide (b = "="%char) then Ok (TEq, r) else
  if bool_decide (b = "!"%char) && followed then Ok (TNe, drop 1 r) else
  if bool_decide (b = "<"%char) && followed then Ok (TLe, drop 1 r) else
  if bool_decide (b = ">"%char) && followed then Ok (TGe, drop 1 r) else
  if decide (b = "<"%char) then Ok (TLt, r) else
  if decide (b = ">"%char) then Ok (TGt, r) else
  if decide (b = "'"%char) then
    '(value, ahead) ← lex_string (S (length r)) pos r []; Ok (TString (of_bytes value), ahead)
  else if bool_decide (b = "-"%char) || is_digit b then
    if bool_decide (b = "-"%char) && negb (match r with d :: _ => is_digit d | [] => false end)
    then Err (error pos "expected digits after '-'") else
    let '(digits, ahead) := span is_digit r in
    text ← slice (b :: digits) ahead;
    match parse_i64 text with
    | Some value => Ok (TInteger value, ahead)
    | None => Err (error pos "integer literal out of range")
    end
  else if is_alpha b || bool_decide (b = "_"%char) then
    let '(word, ahead) := span is_word_byte r in
    text ← slice (b :: word) ahead;
    Ok (TWord (to_ascii_uppercase text), ahead)
  else Err (error pos ("unexpected character '" +:+ as_char b +:+ "'")).

(** The [while offset < bytes.len()] loop, from the offset [pos] with [rest]
    ahead. *)
Fixpoint lex_loop (fuel : nat) (pos : nat) (rest : bytes) (tokens : list Token) : io (list Token) :=
  match rest with
  | [] => Ok (tokens ++ [MkToken TEnd pos])
  | b :: r =>
    match fuel with
    | O => Panic "lex: out of fuel"
    | S fuel =>
      if is_whitespace b then lex_loop fuel (S pos) r tokens else
      '(kind, ahead) ← lex_token pos b r;
      lex_loop fuel (pos + (length rest - length ahead)) ahead (tokens ++ [MkToken kind pos])
    end
  end.

Definition lex (source : string) : io (list Token) :=
  let bs := as_bytes source in lex_loop (length bs) 0 bs [].

(** The source's test strings, and the corner cases of literals. *)
Example lex_create : (map t_kind <$> match lex "create t(id INT)" with Ok ts => Some ts | _ => None end)
  = Some [TWord "CREATE"; TWord "T"; TLeftParen; TWord "ID"; TWord "INT"; TRightParen; TEnd].
Proof. vm_compute. reflexivity. Qed.
Example lex_quotes : lex "'it''s <é>' != -12"
  = Ok [MkToken (TString "it's <é>") 0; MkToken TNe 13; MkToken (TInteger (-12)) 16; MkToken TEnd 19].
Proof. vm_compute. reflexivity. Qed.
Example lex_extreme : lex "-9223372036854775808" = Ok [MkToken (TInteger (-9223372036854775808)) 0; MkToken TEnd 20] ∧
  lex "9223372036854775808" = Err (error 0 "integer literal out of range").
Proof. vm_compute. split; reflexivity. Qed.
Example slice_inside_a_character : slice_from (drop 1 (as_bytes "é")) = Panic "byte index is not a char boundary".
Proof. vm_compute. reflexivity. Qed.
Example lex_unterminated : lex "select 'oops" = Err (error 7 "unterminated string literal").
Proof. vm_compute. reflexivity. Qed.
