(* ===== verification/SqlParser.v ===== *)
(** The SQL parser: src/src/sql/parser.rs.

    A [Parser] is the token vector and an offset into it; every method is a
    computation over it, and indexing past the end is a panic.  Loops and the
    recursion through parentheses run on fuel, the number of tokens: every round
    consumes one.  Nesting is not bounded by the machine's stack here. *)

From S2P Require Import Prelude Bytes SqlAst SqlLexer.

Record Parser : Type := MkParser { tokens : list Token; offset : nat }.

Abbreviation parser := (M Parser io_error).

Definition set_offset (n : nat) (p : Parser) : Parser := MkParser (tokens p) n.

(** [self.offset += 1] *)
Definition skip : parser unit := modify (λ p, set_offset (S (offset p)) p).

Definition peek : parser Token := p ← get_state; lift (index (tokens p) (offset p)).

Definition at_end : parser bool := t ← peek; mret (bool_decide (t_kind t = TEnd)).

Definition advance : parser Token :=
  p ← get_state;
  e ← at_end;
  _ ← (if (e : bool) then mret tt else skip);
  lift (index (tokens p) (offset p)).

Definition expected {A} (what : string) : parser A :=
  t ← peek; fail (error (t_pos t) ("expected " +:+ what)).

Definition check_word (word : string) : parser bool :=
  t ← peek; mret (bool_decide (t_kind t = TWord word)).

Definition consume_word (word : string) : parser bool :=
  found ← check_word word;
  if (found : bool) then _ ← skip; mret true else mret false.

Definition consume_simple (kind : TokenKind) : parser bool :=
  t ← peek;
  if decide (t_kind t = kind) then _ ← skip; mret true else mret false.

Definition expect_word (word : string) : parser unit :=
  found ← consume_word word;
  if (found : bool) then mret tt else expected ("'" +:+ word +:+ "'").

Definition expect_simple (kind : TokenKind) (description : string) : parser unit :=
  found ← consume_simple kind;
  if (found : bool) then mret tt else expected description.

Definition word : parser string :=
  t ← advance;
  match t_kind t with
  | TWord w => mret w
  | _ => fail (error (t_pos t) "expected an identifier")
  end.

Definition identifier : parser string := word.

Definition literal : parser Value :=
  t ← advance;
  match t_kind t with
  | TInteger value => mret (VInteger value)
  | TString value => mret (VText value)
  | TWord w =>
    if decide (w = "NULL") then mret VNull else
    if decide (w = "TRUE") then mret (VBoolean true) else
    if decide (w = "FALSE") then mret (VBoolean false) else
    fail (error (t_pos t) "expected a literal value")
  | _ => fail (error (t_pos t) "expected a literal value")
  end.

(** ** Lists *)

Definition fuelled {A} (m : nat → parser A) : parser A := p ← get_state; m (S (length (tokens p))).

(** [loop { push(item()?); if !consume_simple(Comma) { break } }] *)
Fixpoint comma_loop {A} (fuel : nat) (item : parser A) (acc : list A) : parser (list A) :=
  match fuel with
  | O => panic "comma_loop: out of fuel"
  | S fuel =>
    a ← item;
    more ← consume_simple TComma;
    if (more : bool) then comma_loop fuel item (acc ++ [a]) else mret (acc ++ [a])
  end.
Definition comma_list {A} (item : parser A) : parser (list A) := fuelled (λ n, comma_loop n item []).

(** [loop { push(identifier()?); if stop() { break } expect(Comma)? }] *)
Fixpoint names_loop (fuel : nat) (stop : parser bool) (names : list string) : parser (list string) :=
  match fuel with
  | O => panic "names_loop: out of fuel"
  | S fuel =>
    name ← identifier;
    stopped ← stop;
    if (stopped : bool) then mret (names ++ [name]) else
    _ ← expect_simple TComma "','";
    names_loop fuel stop (names ++ [name])
  end.
Definition identifier_list (close : TokenKind) : parser (list string) :=
  fuelled (λ n, names_loop n (consume_simple close) []).
Definition identifier_list_until_word (w : string) : parser (list string) :=
  fuelled (λ n, names_loop n (check_word w) []).

(** ** Expressions *)

Definition comparison_op (kind : TokenKind) : option BinaryOp :=
  match kind with
  | TEq => Some OEq | TNe => Some ONe | TLt => Some OLt | TLe => Some OLe | TGt => Some OGt | TGe => Some OGe
  | _ => None
  end.

Definition is_constant (w : string) : bool := bool_decide (w ∈ ["NULL"; "TRUE"; "FALSE"]).

Definition primary (expr : parser Expr) : parser Expr :=
  paren ← consume_simple TLeftParen;
  if (paren : bool) then
    e ← expr;
    _ ← expect_simple TRightParen "')'";
    mret e
  else
    t ← peek;
    match t_kind t with
    | TInteger _ | TString _ => v ← literal; mret (ELiteral v)
    | TWord w =>
      if is_constant w then v ← literal; mret (ELiteral v) else c ← identifier; mret (EColumn c)
    | _ => expected "column, literal, or parenthesized expression"
    end.

Definition comparison (expr : parser Expr) : parser Expr :=
  l ← primary expr;
  t ← peek;
  match comparison_op (t_kind t) with
  | Some op => _ ← skip; r ← primary expr; mret (EBinary op l r)
  | None => mret l
  end.

(** [while consume_word(w) { e = Binary { op, e, operand()? } }] *)
Fixpoint operand_loop (fuel : nat) (w : string) (op : BinaryOp) (operand : parser Expr) (e : Expr)
  : parser Expr :=
  match fuel with
  | O => panic "operand_loop: out of fuel"
  | S fuel =>
    more ← consume_word w;
    if (more : bool) then r ← operand; operand_loop fuel w op operand (EBinary op e r) else mret e
  end.

Definition and_ (expr : parser Expr) : parser Expr :=
  e ← comparison expr;
  fuelled (λ n, operand_loop n "AND" OAnd (comparison expr) e).

Definition or_ (expr : parser Expr) : parser Expr :=
  e ← and_ expr;
  fuelled (λ n, operand_loop n "OR" OOr (and_ expr) e).

Fixpoint expr_loop (fuel : nat) : parser Expr :=
  match fuel with
  | O => panic "expr: out of fuel"
  | S fuel => or_ (expr_loop fuel)
  end.
Definition expr : parser Expr := fuelled expr_loop.

(** ** Statements *)

Definition column_type (name : string) : parser DataType :=
  if bool_decide (name ∈ ["INT"; "INTEGER"]) then mret DInteger else
  if bool_decide (name = "TEXT") then mret DText else
  if bool_decide (name ∈ ["BOOL"; "BOOLEAN"]) then mret DBoolean else
  expected "INT, TEXT, or BOOLEAN".

Definition column_def : parser ColumnDef :=
  name ← identifier;
  type_name ← word;
  ty ← column_type type_name;
  primary ← consume_word "PRIMARY";
  key ← (if (primary : bool) then _ ← expect_word "KEY"; mret true else mret false);
  mret (MkColumn name ty key).

Definition create_table : parser Statement :=
  table ← identifier;
  _ ← expect_simple TLeftParen "'('";
  columns ← comma_list column_def;
  _ ← expect_simple TRightParen "')'";
  mret (SCreateTable table columns).

Definition insert : parser Statement :=
  table ← identifier;
  _ ← expect_simple TLeftParen "'('";
  columns ← identifier_list TRightParen;
  _ ← expect_word "VALUES";
  _ ← expect_simple TLeftParen "'('";
  values ← comma_list literal;
  _ ← expect_simple TRightParen "')'";
  mret (SInsert table columns values).

(** [if consume_word("WHERE") { Some(expr()?) } else { None }] *)
Definition where_ : parser (option Expr) :=
  found ← consume_word "WHERE";
  if (found : bool) then e ← expr; mret (Some e) else mret None.

Definition order_by : parser (option (string * bool)) :=
  found ← consume_word "ORDER";
  if (found : bool) then
    _ ← expect_word "BY";
    column ← identifier;
    descending ← consume_word "DESC";
    ascending ← (if (descending : bool) then mret false else _ ← consume_word "ASC"; mret true);
    mret (Some (column, ascending))
  else mret None.

Definition limit : parser (option Z) :=
  found ← consume_word "LIMIT";
  if (found : bool) then
    t ← advance;
    match t_kind t with
    | TInteger value =>
      if (0 <=? value)%Z then mret (Some value)
      else fail (error (t_pos t) "LIMIT expects a nonnegative integer")
    | _ => fail (error (t_pos t) "LIMIT expects a nonnegative integer")
    end
  else mret None.

Definition select_after_keyword : parser Select :=
  star ← consume_simple TStar;
  projection ← (if (star : bool) then mret PAll
                else names ← identifier_list_until_word "FROM"; mret (PColumns names));
  _ ← expect_word "FROM";
  table ← identifier;
  filter ← where_;
  order ← order_by;
  lim ← limit;
  mret (MkSelect table projection filter order lim).

Definition assignment : parser (string * Value) :=
  column ← identifier;
  _ ← expect_simple TEq "'='";
  value ← literal;
  mret (column, value).

Definition update : parser Statement :=
  table ← identifier;
  _ ← expect_word "SET";
  assignments ← comma_list assignment;
  filter ← where_;
  mret (SUpdate table assignments filter).

Definition delete : parser Statement :=
  table ← identifier;
  filter ← where_;
  mret (SDelete table filter).

(** The keyword that begins a statement decides the rest. *)
Definition statement : parser Statement :=
  b ← consume_word "CREATE";
  if (b : bool) then _ ← expect_word "TABLE"; create_table else
  b ← consume_word "INSERT";
  if (b : bool) then _ ← expect_word "INTO"; insert else
  b ← consume_word "SELECT";
  if (b : bool) then s ← select_after_keyword; mret (SSelect s) else
  b ← consume_word "UPDATE";
  if (b : bool) then update else
  b ← consume_word "DELETE";
  if (b : bool) then _ ← expect_word "FROM"; delete else
  b ← consume_word "BEGIN";
  if (b : bool) then mret SBegin else
  b ← consume_word "COMMIT";
  if (b : bool) then mret SCommit else
  b ← consume_word "ROLLBACK";
  if (b : bool) then mret SRollback else
  b ← consume_word "EXPLAIN";
  if (b : bool) then _ ← expect_word "SELECT"; s ← select_after_keyword; mret (SExplain s) else
  expected "CREATE, INSERT, SELECT, UPDATE, DELETE, or transaction command".

(** [while !parser.at_end() { ... }] *)
Fixpoint statements_loop (fuel : nat) (acc : list Statement) : parser (list Statement) :=
  match fuel with
  | O => panic "parse: out of fuel"
  | S fuel =>
    finished ← at_end;
    if (finished : bool) then mret acc else
    semicolon ← consume_simple TSemicolon;
    if (semicolon : bool) then statements_loop fuel acc else
    s ← statement;
    semicolon ← consume_simple TSemicolon;
    finished ← (if (semicolon : bool) then mret true else at_end);
    if (finished : bool) then statements_loop fuel (acc ++ [s]) else expected "';' between statements"
  end.

Definition parse_tokens (ts : list Token) : io (list Statement) :=
  statements ← fst (fuelled (λ n, statements_loop n []) (MkParser ts 0));
  match statements with
  | [] => Err (error 0 "expected a statement")
  | _ => Ok statements
  end.

Definition parse (source : string) : io (list Statement) :=
  ts ← lex source; parse_tokens ts.

(** The source's tests. *)
Example parse_precedence :
  parse "SELECT * FROM t WHERE a = 1 OR b = 2 AND NOT_C = TRUE ORDER BY a DESC LIMIT 3;"
  = Ok [SSelect (MkSelect "T" PAll
      (Some (EBinary OOr (EBinary OEq (EColumn "A") (ELiteral (VInteger 1)))
        (EBinary OAnd (EBinary OEq (EColumn "B") (ELiteral (VInteger 2)))
                      (EBinary OEq (EColumn "NOT_C") (ELiteral (VBoolean true))))))
      (Some ("A", false)) (Some 3%Z))].
Proof. vm_compute. reflexivity. Qed.
Example parse_error_position : parse "SELECT FROM" = Err (error 11 "expected ','") ∧
  parse "BEGIN COMMIT" = Err (error 6 "expected ';' between statements") ∧
  parse " ;; " = Err (error 0 "expected a statement").
Proof. vm_compute. split_and!; reflexivity. Qed.
