(* ===== verification/SqlTotal.v ===== *)
(** The SQL front end always answers: the proofs that [lex] and [parse] return
    or fail with a positioned error on every input.

    A text is valid UTF-8, as a [String] of the source is; the lexer keeps to
    character boundaries, where it may slice, and reads names of word bytes, texts
    that are valid again and integers of 64 bits ([kind_wf]).
    [runs m p Q] says that the computation [m], started in the parser state [p],
    either returns with [Q] or fails with an error that carries a byte offset. *)

From S2P Require Import Prelude Bytes SqlAst SqlLexer SqlParser.
From Stdlib Require Import Ascii.

(** ** Characters *)

(** Whole characters: what follows decides alone. *)
Definition whole (v : bytes) : Prop := ∀ x, utf8_valid (v ++ x) = utf8_valid x.

Lemma whole_nil : whole [].
Proof. done. Qed.
Lemma whole_app v w : whole v → whole w → whole (v ++ w).
Proof. intros Hv Hw x. by rewrite <- app_assoc, Hv, Hw. Qed.
Lemma whole_valid v : whole v → utf8_valid v = true.
Proof. intros Hv. specialize (Hv []). by rewrite app_nil_r in Hv. Qed.

Definition is_ascii (b : u8) : bool := in_range 0 127 b.

Lemma whole_ascii b : is_ascii b = true → whole [b].
Proof. intros Hb x. cbn [app utf8_valid]. unfold is_ascii in Hb. by rewrite Hb. Qed.

Lemma utf8_first b r :
  utf8_valid (b :: r) = true →
  ∃ t r', r = t ++ r' ∧ length (b :: t) = char_len b ∧ utf8_valid r' = true ∧ whole (b :: t).
Proof.
  intros Hv. cbn [utf8_valid] in Hv. destruct (in_range 0 127 b) eqn:H0.
  { exists [], r. split_and!; [done| |done|by apply whole_ascii].
    unfold in_range in H0. zify_bools. unfold char_len. by rewrite (proj2 (Z.ltb_lt _ _)) by lia. }
  assert (128 ≤ u8_val b)%Z as Hlo.
  { pose proof (u8_val_range b). unfold in_range in H0. apply andb_false_iff in H0 as [?|?]; zify_bools; lia. }
  unfold char_len. rewrite (proj2 (Z.ltb_ge _ 128)) by lia.
  destruct r as [|b1 r]; [done|]. destruct (in_range 194 223 b) eqn:H1.
  { exists [b1], r. apply andb_true_iff in Hv as [Hb1 Hv]. split_and!; [done| |done|].
    - unfold in_range in H1. zify_bools. by rewrite (proj2 (Z.ltb_lt _ _)) by lia.
    - intros x. cbn [app utf8_valid]. by rewrite H0, H1, Hb1. }
  destruct r as [|b2 r]; [done|]. destruct (in_range 224 239 b) eqn:H2.
  { exists [b1; b2], r. apply andb_true_iff in Hv as [Hb Hv]. split_and!; [done| |done|].
    - unfold in_range in H2. zify_bools. by rewrite (proj2 (Z.ltb_ge _ 224)), (proj2 (Z.ltb_lt _ _)) by lia.
    - intros x. cbn [app utf8_valid]. by rewrite H0, H1, H2, Hb. }
  destruct r as [|b3 r]; [done|]. destruct (in_range 240 244 b) eqn:H3; [|done].
  exists [b1; b2; b3], r. apply andb_true_iff in Hv as [Hb Hv]. split_and!; [done| |done|].
  - unfold in_range in H3. zify_bools. by rewrite (proj2 (Z.ltb_ge _ 224)), (proj2 (Z.ltb_ge _ 240)) by lia.
  - intros x. cbn [app utf8_valid]. by rewrite H0, H1, H2, H3, Hb.
Qed.

Lemma utf8_tail b r : utf8_valid (b :: r) = true → is_ascii b = true → utf8_valid r = true.
Proof. intros Hv Hb. change (b :: r) with ([b] ++ r) in Hv. by rewrite (whole_ascii b Hb) in Hv. Qed.

Lemma boundary_valid bs : utf8_valid bs = true → is_char_boundary bs = true.
Proof.
  destruct bs as [|b r]; [done|]. intros Hv. cbn [is_char_boundary]. destruct (in_range 128 191 b) eqn:Hb; [|done]. exfalso.
  unfold in_range in Hb. apply andb_true_iff in Hb as [H1 H2]. rewrite Z.leb_le in H1, H2. cbn [utf8_valid] in Hv.
  assert (∀ lo hi, (hi < 128 ∨ 191 < lo)%Z → in_range lo hi b = false) as Hout.
  { intros lo hi Hr. unfold in_range. apply andb_false_iff. rewrite !Z.leb_gt. lia. }
  rewrite !Hout in Hv by lia. destruct r as [|? [|? [|? ?]]]; done.
Qed.

Lemma slice_from_valid bs : utf8_valid bs = true → slice_from bs = Ok bs.
Proof. intros Hv. unfold slice_from. by rewrite boundary_valid. Qed.
Lemma slice_valid piece ahead :
  utf8_valid (piece ++ ahead) = true → utf8_valid ahead = true → slice piece ahead = Ok piece.
Proof. intros Hp Ha. unfold slice. by rewrite !boundary_valid. Qed.

(** ** The lexer *)

Definition word_name (w : string) : Prop := Forall (λ b, is_word_byte b = true) (as_bytes w).

Definition kind_wf (k : TokenKind) : Prop :=
  match k with TWord w => word_name w | TInteger z => i64_range z | TString s => is_str s | _ => True end.

Lemma word_byte_ascii b : is_word_byte b = true → is_ascii b = true.
Proof.
  unfold is_word_byte, is_alpha, is_digit, is_ascii, in_range. intros H.
  destruct (bool_decide (b = "_"%char)) eqn:Hu; [zify_bools; by subst|].
  apply andb_true_iff; rewrite !Z.leb_le. rewrite orb_false_r in H.
  repeat (apply orb_true_iff in H as [H|H]); zify_bools; lia.
Qed.

Lemma word_byte_upper b : is_word_byte b = true → is_word_byte (upper b) = true.
Proof.
  unfold upper. destruct (in_range 97 122 b) eqn:Hr; [|done]. intros _. unfold in_range in Hr. zify_bools.
  unfold is_word_byte, is_alpha, in_range. rewrite u8_val_to_u8, Z.mod_small by lia.
  by rewrite (proj2 (Z.leb_le 65 _)), (proj2 (Z.leb_le _ 90)) by lia.
Qed.

Lemma digit_word b : is_digit b = true → is_word_byte b = true.
Proof. intros H. unfold is_word_byte. by rewrite H, orb_true_r. Qed.

Lemma span_wf f bs :
  (∀ b, f b = true → is_ascii b = true) → utf8_valid bs = true →
  Forall (λ b, f b = true) (span f bs).1 ∧ utf8_valid (span f bs).2 = true.
Proof.
  intros Hf. induction bs as [|b bs IH]; intros Hv; [by split|]. cbn [span]. destruct (f b) eqn:Hb; [|by split].
  destruct (IH (utf8_tail b bs Hv (Hf _ Hb))) as [Ha Hr]. destruct (span f bs). by split; [constructor|].
Qed.

Lemma parse_i64_wf bs z : parse_i64 bs = Some z → i64_range z.
Proof. unfold parse_i64. cbv zeta. case_match eqn:H; [|done]. intros [= <-]. zify_bools. by split. Qed.

Lemma whitespace_ascii b : is_whitespace b = true → is_ascii b = true.
Proof.
  unfold is_whitespace. intros (n & Hin & Hn)%existsb_exists. zify_bools. unfold is_ascii, in_range. rewrite Hn.
  cbn in Hin. by destruct_or! Hin; subst n.
Qed.

Definition tokens_wf (ts : list Token) : Prop := Forall (λ t, kind_wf (t_kind t)) ts.

Definition positioned (e : io_error) : Prop := ∃ pos message, e = error pos message.

Definition answers {A} (r : io A) (P : A → Prop) : Prop :=
  match r with Ok a => P a | Err e => positioned e | Panic _ => False end.

Lemma positioned_error pos message : positioned (error pos message).
Proof. by exists pos, message. Qed.
#[export] Hint Resolve positioned_error : core.

Lemma answers_bind {A B} (r : io A) (f : A → io B) P Q :
  answers r P → (∀ a, P a → answers (f a) Q) → answers (r ≫= f) Q.
Proof. destruct r; cbn; auto. Qed.

Lemma lex_string_answers fuel pos rest value :
  length rest < fuel → utf8_valid rest = true → whole value →
  answers (lex_string fuel pos rest value) (λ '(v, ahead), length ahead ≤ length rest ∧ whole v ∧ utf8_valid ahead = true).
Proof.
  revert rest value. induction fuel as [|fuel IH]; intros rest value Hf Hr Hv; [lia|]. cbn [lex_string].
  destruct rest as [|b r]; [by apply positioned_error|]. cbn [length] in *. case_decide as Hb.
  - subst b. apply utf8_tail in Hr; [|done]. destruct r as [|b' r']; cbn [length] in *; [split_and!; [cbn; lia|done..]|].
    case_decide as Hb'; [|split_and!; [cbn; lia|done..]]. subst b'.
    assert (answers (lex_string fuel pos r' (value ++ ["'"%char]))
      (λ '(v, ahead), length ahead ≤ length r' ∧ whole v ∧ utf8_valid ahead = true)) as H'
      by (apply IH; [lia|by eapply utf8_tail|by apply whole_app; [|apply whole_ascii]]).
    destruct (lex_string _ _ _ _) as [[v a]| |]; cbn in *; [|done..]. destruct H' as (? & ? & ?). split_and!; [lia|done..].
  - rewrite slice_from_valid by done. cbn [mbind result_bind]. destruct (utf8_first b r Hr) as (t & r' & -> & Hl & Hr' & Ht).
    rewrite <- Hl. change (b :: t ++ r') with ((b :: t) ++ r'). rewrite take_app_length, drop_app_length.
    rewrite length_app in *.
    assert (answers (lex_string fuel pos r' (value ++ b :: t))
      (λ '(v, ahead), length ahead ≤ length r' ∧ whole v ∧ utf8_valid ahead = true)) as H'
      by (apply IH; [lia|done|by apply whole_app]).
    destruct (lex_string _ _ _ _) as [[v a]| |]; cbn in *; [|done..]. destruct H' as (? & ? & ?). split_and!; [lia|done..].
Qed.

Lemma span_length f bs : length (snd (span f bs)) ≤ length bs.
Proof.
  induction bs as [|b bs IH]; [done|]. cbn. case_match; [|done]. destruct (span f bs). cbn in *. lia.
Qed.

Lemma span_split f bs : bs = (span f bs).1 ++ (span f bs).2.
Proof. induction bs as [|b bs IH]; [done|]. cbn. case_match; [|done]. destruct (span f bs). cbn in *. by rewrite <- IH. Qed.

Lemma lex_token_answers pos b r :
  utf8_valid (b :: r) = true →
  answers (lex_token pos b r)
    (λ '(kind, ahead), length ahead ≤ length r ∧ kind ≠ TEnd ∧ kind_wf kind ∧ utf8_valid ahead = true).
Proof.
  intros Hv. assert (is_ascii b = true → utf8_valid r = true) as Ht by (by apply utf8_tail).
  unfold lex_token. cbv zeta.
  do 6 (case_decide; [subst b; split_and!; [done..|by apply Ht]|]).
  do 3 (case_match eqn:Hc; [|clear Hc]; [apply andb_true_iff in Hc as [Hb Hf]; zify_bools; subst b; specialize (Ht eq_refl);
    destruct r as [|b' r]; [done|]; zify_bools; subst b'; split_and!; [rewrite length_drop; lia|done|done|by eapply utf8_tail]|]).
  do 2 (case_decide; [subst b; split_and!; [done..|by apply Ht]|]).
  case_decide.
  { subst b. specialize (Ht eq_refl). eapply answers_bind; [by apply lex_string_answers; [lia|done|apply whole_nil]|].
    intros [v a] (Ha & Hw & Hva). split_and!; [lia|done| |done]. cbn. unfold is_str. rewrite as_of_bytes. by apply whole_valid. }
  destruct (bool_decide (b = "-"%char) || is_digit b) eqn:Hd.
  { case_match; [by apply positioned_error|]. assert (is_ascii b = true) as Ha.
    { apply orb_true_iff in Hd as [Hd|Hd]; [zify_bools; by subst b|by apply word_byte_ascii, digit_word]. }
    pose proof (span_length is_digit r) as Hl. pose proof (span_split is_digit r) as Hsp.
    destruct (span_wf is_digit r) as [_ Hr]; [intros c Hc; by apply word_byte_ascii, digit_word|by apply Ht|].
    destruct (span is_digit r) as [ds a]. cbn [fst snd] in *. rewrite slice_valid; [|by rewrite Hsp in Hv|done]. cbn [mbind result_bind].
    destruct (parse_i64 (b :: ds)) as [z|] eqn:Hp; [|by apply positioned_error].
    split_and!; [done|done|by eapply parse_i64_wf|done]. }
  destruct (is_alpha b || bool_decide (b = "_"%char)) eqn:Hw; [|by apply positioned_error].
  assert (is_word_byte b = true) as Hb by (unfold is_word_byte; apply orb_true_iff in Hw as [->| ->]; [done|by rewrite orb_true_r]).
  pose proof (span_length is_word_byte r) as Hl. pose proof (span_split is_word_byte r) as Hsp.
  destruct (span_wf is_word_byte r) as [Hs Hr]; [apply word_byte_ascii|by apply Ht, word_byte_ascii|].
  destruct (span is_word_byte r) as [w a]. cbn [fst snd] in *. rewrite slice_valid; [|by rewrite Hsp in Hv|done]. cbn [mbind result_bind].
  split_and!; [done|done| |done]. cbn [kind_wf].
  unfold word_name, to_ascii_uppercase. rewrite as_of_bytes. apply Forall_fmap.
  apply (Forall_impl (λ b, is_word_byte b = true)); [by constructor|]. intros c Hc. by apply word_byte_upper.
Qed.

(** A token vector ends with the only end token. *)
Definition ended (ts : list Token) : Prop :=
  ∃ pre e, ts = pre ++ [e] ∧ t_kind e = TEnd ∧ Forall (λ t, t_kind t ≠ TEnd) pre.

Lemma tokens_wf_snoc ts t : tokens_wf ts → kind_wf (t_kind t) → tokens_wf (ts ++ [t]).
Proof. intros Hl Ht. apply Forall_app. split; [done|by constructor]. Qed.

Lemma lex_loop_answers fuel pos rest ts :
  length rest ≤ fuel → utf8_valid rest = true → Forall (λ t, t_kind t ≠ TEnd) ts → tokens_wf ts →
  answers (lex_loop fuel pos rest ts) (λ ts, ended ts ∧ tokens_wf ts).
Proof.
  revert pos rest ts. induction fuel as [|fuel IH]; intros pos [|b r] ts Hf Hv Hts Hwf; cbn [lex_loop length] in *; try lia.
  1, 2: split; [by exists ts, (MkToken TEnd pos)|by apply tokens_wf_snoc].
  destruct (is_whitespace b) eqn:Hw; [apply IH; [lia|by eapply utf8_tail, whitespace_ascii|done..]|].
  eapply answers_bind; [by apply lex_token_answers|]. intros [kind a] (Ha & Hk & Hkw & Hva).
  apply IH; [lia|done| |by apply tokens_wf_snoc]. apply Forall_app. split; [done|by constructor].
Qed.

Lemma lex_answers source : is_str source → answers (lex source) (λ ts, ended ts ∧ tokens_wf ts).
Proof. intros Hs. apply lex_loop_answers; [done|done|constructor..]. Qed.

(** ** The parser *)

Definition parser_wf (p : Parser) : Prop :=
  ∃ pre e, tokens p = pre ++ [e] ∧ t_kind e = TEnd ∧ Forall (λ t, t_kind t ≠ TEnd) pre ∧
    offset p ≤ length pre.

(** How many tokens are ahead, the end not counted. *)
Definition remaining (p : Parser) : nat := length (tokens p) - S (offset p).

(** [p'] is [p] at least [k] tokens on. *)
Definition advanced (k : nat) (p p' : Parser) : Prop :=
  parser_wf p' ∧ tokens p' = tokens p ∧ offset p + k ≤ offset p'.

Definition runs {A} (m : parser A) (p : Parser) (Q : A → Parser → Prop) : Prop :=
  match m p with (Ok a, p') => Q a p' | (Err e, _) => positioned e | (Panic _, _) => False end.

Lemma runs_bind {A B} (m : parser A) (f : A → parser B) p P Q :
  runs m p P → (∀ a p', P a p' → runs (f a) p' Q) → runs (m ≫= f) p Q.
Proof.
  intros Hm Hf. unfold runs in Hm |- *. unfold mbind, M_bind.
  destruct (m p) as [[a|e|s] p']; [by apply Hf|done..].
Qed.

Lemma runs_mono {A} (m : parser A) p (P Q : A → Parser → Prop) :
  runs m p P → (∀ a p', P a p' → Q a p') → runs m p Q.
Proof. unfold runs. destruct (m p) as [[a|e|s] p']; auto. Qed.

Lemma runs_ret {A} (a : A) p (Q : A → Parser → Prop) : Q a p → runs (mret a) p Q.
Proof. done. Qed.

Lemma advanced_refl p : parser_wf p → advanced 0 p p.
Proof. intros H. split_and!; [done|done|lia]. Qed.
Lemma advanced_trans j k p q r : advanced j p q → advanced k q r → advanced (j + k) p r.
Proof. intros (? & ? & ?) (? & ? & ?). split_and!; [done|congruence|lia]. Qed.
Lemma advanced_weaken j k p q : k ≤ j → advanced j p q → advanced k p q.
Proof. intros ? (? & ? & ?). split_and!; [done..|lia]. Qed.
Lemma advanced_wf k p q : advanced k p q → parser_wf q.
Proof. by intros (? & ? & ?). Qed.
Lemma advanced_remaining k p q : advanced k p q → parser_wf p → remaining q + k ≤ remaining p.
Proof.
  intros ((pre & e & Ht & _ & _ & Ho) & Hts & Hk) _. unfold remaining. rewrite <- Hts, Ht, length_app. cbn. lia.
Qed.

Lemma peek_run p : parser_wf p → ∃ t, peek p = (Ok t, p) ∧ tokens p !! offset p = Some t.
Proof.
  intros (pre & e & Ht & _ & _ & Ho). unfold peek. run_steps.
  destruct (index_lt (E:=io_error) (tokens p) (offset p)) as (t & Hi & Hl).
  { rewrite Ht, length_app. cbn. lia. }
  exists t. unfold lift. by rewrite Hi.
Qed.

Lemma runs_peek p : parser_wf p → runs peek p (λ t p', p' = p ∧ tokens p !! offset p = Some t).
Proof. intros Hp. destruct (peek_run p Hp) as (t & Hr & Ht). unfold runs. by rewrite Hr. Qed.

Lemma skip_advanced p t :
  parser_wf p → tokens p !! offset p = Some t → t_kind t ≠ TEnd → advanced 1 p (set_offset (S (offset p)) p).
Proof.
  intros (pre & e & Ht & He & Hpre & Ho) Hl Hk. split_and!; [|done|cbn; lia].
  exists pre, e. split_and!; [done..|]. cbn. rewrite Ht in Hl.
  destruct (decide (offset p = length pre)) as [Heq|]; [|lia].
  rewrite Heq, list_lookup_middle in Hl by done. congruence.
Qed.

Lemma runs_expected {A} p what (Q : A → Parser → Prop) : parser_wf p → runs (expected what) p Q.
Proof.
  intros Hp. unfold expected. eapply runs_bind; [by apply runs_peek|]. intros t p' _. cbn. eauto.
Qed.

(** A consumed token is one step; otherwise nothing moves. *)
Definition consumed (p : Parser) (found : bool) (p' : Parser) : Prop :=
  if found then advanced 1 p p' else p' = p.

Lemma runs_consume_word w p : parser_wf p → runs (consume_word w) p (consumed p).
Proof.
  intros Hp. unfold consume_word, check_word. destruct (peek_run p Hp) as (t & Hr & Ht).
  unfold runs, mbind, M_bind. rewrite Hr. cbn. case_bool_decide as Hk; cbn; [|done].
  apply (skip_advanced p t); [done..|congruence].
Qed.

Lemma runs_consume_simple k p : parser_wf p → k ≠ TEnd → runs (consume_simple k) p (consumed p).
Proof.
  intros Hp Hne. unfold consume_simple. destruct (peek_run p Hp) as (t & Hr & Ht).
  unfold runs, mbind, M_bind. rewrite Hr. cbn. case_decide as Hk; cbn; [|done].
  apply (skip_advanced p t); [done..|congruence].
Qed.

Lemma runs_expect_word w p : parser_wf p → runs (expect_word w) p (λ _, advanced 1 p).
Proof.
  intros Hp. unfold expect_word. eapply runs_bind; [by apply runs_consume_word|].
  intros [|] p' H; [done|]. cbn in H. subst p'. by apply runs_expected.
Qed.

Lemma runs_expect_simple k d p : parser_wf p → k ≠ TEnd → runs (expect_simple k d) p (λ _, advanced 1 p).
Proof.
  intros Hp Hk. unfold expect_simple. eapply runs_bind; [by apply runs_consume_simple|].
  intros [|] p' H; [done|]. cbn in H. subst p'. by apply runs_expected.
Qed.

(** [advance] moves on unless at the end, whose token it returns. *)
Lemma runs_advance p :
  parser_wf p → runs advance p (λ t p', if decide (t_kind t = TEnd) then p' = p else advanced 1 p p').
Proof.
  intros Hp. unfold advance, at_end. destruct (peek_run p Hp) as (t & Hr & Ht).
  unfold runs. run_steps. rewrite run_bind. erewrite M_bind_run by exact Hr. run_steps.
  assert (index (E:=io_error) (tokens p) (offset p) = Ok t) as Hi by (by apply index_ok).
  case_bool_decide as Hk.
  - run_steps. unfold lift. rewrite Hi. by rewrite decide_True.
  - unfold skip. run_steps. unfold lift. rewrite Hi. rewrite decide_False by done. by apply (skip_advanced p t).
Qed.

Lemma not_end k (P Q : Prop) : (if decide (k = TEnd) then P else Q) → k ≠ TEnd → Q.
Proof. intros H Hk. by rewrite decide_False in H. Qed.

Lemma runs_word p : parser_wf p → runs word p (λ _, advanced 1 p).
Proof.
  intros Hp. unfold word. eapply runs_bind; [by apply runs_advance|]. intros t p' H.
  cbv beta in H. destruct (t_kind t) eqn:Hk; try (by apply positioned_error). by apply not_end in H.
Qed.

Lemma runs_literal p : parser_wf p → runs literal p (λ _, advanced 1 p).
Proof.
  intros Hp. unfold literal. eapply runs_bind; [by apply runs_advance|]. intros t p' H.
  cbv beta in H. destruct (t_kind t) as [w|z|s| | | | | | | | | | | |] eqn:Hk; try (by apply positioned_error);
    apply not_end in H; try done.
  repeat (case_decide; [done|]). by apply positioned_error.
Qed.

(** ** Composing computations

    [goes k n m]: with at most [n] tokens ahead, [m] answers, and consumes at
    least [k] of them when it returns. *)

Definition goes {A} (k n : nat) (m : parser A) : Prop :=
  ∀ p, parser_wf p → remaining p ≤ n → runs m p (λ _, advanced k p).

Lemma goes_le {A} k n k' n' (m : parser A) : goes k n m → k' ≤ k → n' ≤ n → goes k' n' m.
Proof.
  intros H Hk Hn p Hp Hr. eapply runs_mono; [apply H; [done|lia]|]. intros a p'. by apply advanced_weaken.
Qed.

Lemma goes_bind {A B} j k n (m : parser A) (f : A → parser B) :
  goes j n m → (∀ a, j ≤ n → goes k (n - j) (f a)) → goes (j + k) n (m ≫= f).
Proof.
  intros Hm Hf p Hp Hr. eapply runs_bind; [by apply Hm|]. intros a q Hq.
  pose proof (advanced_remaining j p q Hq Hp). eapply runs_mono.
  - apply Hf; [lia|exact (advanced_wf j p q Hq)|lia].
  - intros b q' Hq'. exact (advanced_trans j k p q q' Hq Hq').
Qed.

Lemma goes_then {A B} j k n (m : parser A) (f : A → parser B) :
  goes j n m → (∀ a, j ≤ n → goes (k - j) (n - j) (f a)) → goes k n (m ≫= f).
Proof.
  intros Hm Hf. eapply (goes_le (j + (k - j)) n); [by apply goes_bind|lia|lia].
Qed.

Lemma goes_ret {A} k n (a : A) : k ≤ 0 → goes k n (mret a).
Proof. intros Hk p Hp _. eapply (advanced_weaken 0); [done|by apply advanced_refl]. Qed.

Lemma goes_fail {A} k n pos message : goes k n (fail (error pos message) : parser A).
Proof. intros p Hp _. by apply positioned_error. Qed.

Lemma goes_expected {A} k n what : goes k n (expected what : parser A).
Proof. intros p Hp _. by apply runs_expected. Qed.

Lemma goes_peek {A} k n (f : Token → parser A) : (∀ t, goes k n (f t)) → goes k n (peek ≫= f).
Proof.
  intros Hf p Hp Hr. eapply runs_bind; [by apply runs_peek|]. intros t q [-> _]. by apply Hf.
Qed.

Lemma goes_consumed {A} k n (m : parser bool) (f : bool → parser A) :
  (∀ p, parser_wf p → runs m p (consumed p)) →
  (1 ≤ n → goes (k - 1) (n - 1) (f true)) → goes k n (f false) → goes k n (m ≫= f).
Proof.
  intros Hm Ht Hf p Hp Hr. eapply runs_bind; [by apply Hm|]. intros [|] q Hq; cbn in Hq.
  - pose proof (advanced_remaining 1 p q Hq Hp). eapply runs_mono.
    + apply Ht; [lia|exact (advanced_wf 1 p q Hq)|lia].
    + intros b q' Hq'. apply (advanced_weaken (1 + (k - 1))); [lia|].
      exact (advanced_trans 1 (k - 1) p q q' Hq Hq').
  - subst q. by apply Hf.
Qed.

Lemma goes_word n : goes 1 n word.
Proof. intros p Hp _. by apply runs_word. Qed.
Lemma goes_literal n : goes 1 n literal.
Proof. intros p Hp _. by apply runs_literal. Qed.
Lemma goes_expect_word n w : goes 1 n (expect_word w).
Proof. intros p Hp _. by apply runs_expect_word. Qed.
Lemma goes_expect_simple n k d : k ≠ TEnd → goes 1 n (expect_simple k d).
Proof. intros Hk p Hp _. by apply runs_expect_simple. Qed.

Create HintDb goes discriminated.
#[export] Hint Resolve goes_ret goes_fail goes_expected goes_word goes_literal goes_expect_word
  goes_expect_simple runs_consume_word runs_consume_simple : goes.

(** One step of a computation: a token that must be there, one that may be, or a
    look ahead; [k] is settled at the end. *)
Ltac go :=
  repeat first
    [ progress intros
    | match goal with
      | |- goes _ _ (consume_word _ ≫= _) => apply goes_consumed; [intros; by apply runs_consume_word|..]
      | |- goes _ _ (consume_simple _ ≫= _) => apply goes_consumed; [intros; by apply runs_consume_simple|..]
      | |- goes _ _ (peek ≫= _) => apply goes_peek
      | |- goes _ _ (word ≫= _) => eapply (goes_then 1); [apply goes_word|]
      | |- goes _ _ (identifier ≫= _) => eapply (goes_then 1); [apply goes_word|]
      | |- goes _ _ (literal ≫= _) => eapply (goes_then 1); [apply goes_literal|]
      | |- goes _ _ (expect_word _ ≫= _) => eapply (goes_then 1); [apply goes_expect_word|]
      | |- goes _ _ (expect_simple _ _ ≫= _) => eapply (goes_then 1); [by apply goes_expect_simple|]
      | |- goes _ _ ((_ ≫= _) ≫= _) => eapply (goes_then 0)
      | |- goes _ _ (mret _ ≫= _) => eapply (goes_then 0)
      | |- goes _ _ (expected _ ≫= _) => eapply (goes_then 0)
      | |- goes _ _ (expected _) => apply goes_expected
      | |- goes _ _ (fail (error _ _)) => apply goes_fail
      | |- goes _ _ (mret _) => apply goes_ret; lia
      end
    | progress cbv beta iota ].

(** ** Loops: enough fuel for the tokens ahead *)

Lemma goes_fuelled {A} k n (m : nat → parser A) :
  (∀ f n', n' < f → n' ≤ n → goes k n' (m f)) → goes k n (fuelled m).
Proof.
  intros H p Hp Hr. unfold fuelled, runs. run_steps.
  apply (H (S (length (tokens p))) (remaining p)); [unfold remaining; lia|done|done|done].
Qed.

Lemma goes_comma_loop {A} fuel n (item : parser A) acc :
  goes 1 n item → n < fuel → goes 1 n (comma_loop fuel item acc).
Proof.
  revert n acc. induction fuel as [|fuel IH]; intros n acc Hi Hf; [lia|]. cbn [comma_loop].
  eapply (goes_then 1); [exact Hi|]. go.
  eapply goes_le; [apply (IH (n - 2)); [eapply goes_le; [exact Hi|lia|lia]|lia]|lia|lia].
Qed.

Lemma goes_comma_list {A} n (item : parser A) : goes 1 n item → goes 1 n (comma_list item).
Proof. intros Hi. apply goes_fuelled. intros f n' Hf Hn. apply goes_comma_loop; [eapply goes_le; [exact Hi|lia|lia]|done]. Qed.

(** A test that moves at most one token. *)
Definition tests (m : parser bool) : Prop := ∀ p, parser_wf p → runs m p (λ _, advanced 0 p).

Lemma tests_check_word w : tests (check_word w).
Proof.
  intros p Hp. unfold check_word. eapply runs_bind; [by apply runs_peek|]. intros t q [-> _]. by apply advanced_refl.
Qed.

Lemma tests_consume_simple k : k ≠ TEnd → tests (consume_simple k).
Proof.
  intros Hk p Hp. eapply runs_mono; [by apply runs_consume_simple|]. intros [|] q Hq; cbn in Hq.
  - by eapply (advanced_weaken 1); [lia|].
  - subst q. by apply advanced_refl.
Qed.

Lemma goes_names_loop fuel n stop names :
  tests stop → n < fuel → goes 1 n (names_loop fuel stop names).
Proof.
  intros Hstop. revert n names. induction fuel as [|fuel IH]; intros n names Hf; [lia|]. cbn [names_loop]. go.
  eapply (goes_then 0); [intros p Hp _; by apply Hstop|]. intros [|] _; go.
  eapply goes_le; [apply (IH (n - 2)); lia|lia|lia].
Qed.

Lemma goes_identifier_list n close : close ≠ TEnd → goes 1 n (identifier_list close).
Proof. intros Hc. apply goes_fuelled. intros f n' Hf _. by apply goes_names_loop; [apply tests_consume_simple|]. Qed.
Lemma goes_until_word n w : goes 1 n (identifier_list_until_word w).
Proof. apply goes_fuelled. intros f n' Hf _. by apply goes_names_loop; [apply tests_check_word|]. Qed.

(** ** Expressions *)

(** Looking at a token, and passing it when it is of the right kind. *)
Lemma goes_choose {A X} k n (g : TokenKind → option X) (f : X → parser A) (h : parser A) :
  g TEnd = None → (∀ x, 1 ≤ n → goes (k - 1) (n - 1) (f x)) → goes k n h →
  goes k n (t ← peek; match g (t_kind t) with Some x => _ ← skip; f x | None => h end).
Proof.
  intros Hend Hf Hh p Hp Hr. eapply runs_bind; [by apply runs_peek|]. intros t q [-> Ht].
  destruct (g (t_kind t)) as [x|] eqn:Hg; [|by apply Hh].
  assert (advanced 1 p (set_offset (S (offset p)) p)) as Hs by (apply (skip_advanced p t); [done..|congruence]).
  pose proof (advanced_remaining 1 p _ Hs Hp). unfold runs, skip. run_steps.
  eapply (runs_mono (f x)).
  - apply (Hf x); [lia|exact (advanced_wf _ _ _ Hs)|lia].
  - intros b q' Hq'. apply (advanced_weaken (1 + (k - 1))); [lia|]. exact (advanced_trans 1 (k - 1) p _ q' Hs Hq').
Qed.

Section operators.
(** The recursive call, which only has to work behind a parenthesis. *)
Context (e : parser Expr) (n : nat).
Hypothesis goes_e : 1 ≤ n → goes 1 (n - 1) e.

Lemma goes_primary n' : n' ≤ n → goes 1 n' (primary e).
Proof.
  intros Hn. unfold primary. apply goes_consumed; [intros; by apply runs_consume_simple|..].
  - intros Hn'. cbn. eapply (goes_then 1); [eapply goes_le; [apply goes_e; lia|lia|lia]|]. go.
  - apply goes_peek. intros t. destruct (t_kind t) as [w|z|s| | | | | | | | | | | |]; go. destruct (is_constant w); go.
Qed.

Lemma goes_comparison n' : n' ≤ n → goes 1 n' (comparison e).
Proof.
  intros Hn. unfold comparison. eapply (goes_then 1); [by apply goes_primary|]. intros l Hl.
  apply goes_choose; [done| |go]. intros op Hop. eapply (goes_then 1); [apply goes_primary; lia|]. go.
Qed.

Lemma goes_operand_loop fuel w op (operand : parser Expr) l n' :
  (∀ n', n' ≤ n → goes 1 n' operand) → n' < fuel → n' ≤ n → goes 0 n' (operand_loop fuel w op operand l).
Proof.
  intros Ho. revert l n'. induction fuel as [|fuel IH]; intros l n' Hf Hn; [lia|]. cbn [operand_loop]. go.
  eapply (goes_then 1); [apply Ho; lia|]. intros r Hr.
  eapply goes_le; [apply (IH (EBinary op l r) (n' - 2)); lia|lia|lia].
Qed.

Lemma goes_and n' : n' ≤ n → goes 1 n' (and_ e).
Proof.
  intros Hn. unfold and_. eapply (goes_then 1); [by apply goes_comparison|]. intros l Hl.
  apply goes_fuelled. intros f n'' Hf Hn''. apply goes_operand_loop; [apply goes_comparison|lia..].
Qed.

Lemma goes_or n' : n' ≤ n → goes 1 n' (or_ e).
Proof.
  intros Hn. unfold or_. eapply (goes_then 1); [by apply goes_and|]. intros l Hl.
  apply goes_fuelled. intros f n'' Hf Hn''. apply goes_operand_loop; [apply goes_and|lia..].
Qed.
End operators.

Lemma goes_expr_loop fuel n : n < fuel → goes 1 n (expr_loop fuel).
Proof.
  revert n. induction fuel as [|fuel IH]; intros n Hf; [lia|]. cbn [expr_loop].
  apply (goes_or _ n); [|done]. intros Hn. apply IH. lia.
Qed.

Lemma goes_expr n : goes 1 n expr.
Proof. apply goes_fuelled. intros f n' Hf _. by apply goes_expr_loop. Qed.

(** ** Statements *)

Lemma goes_where n : goes 0 n where_.
Proof. unfold where_. go. eapply (goes_then 1); [apply goes_expr|]. go. Qed.

Lemma goes_column_type n name : goes 0 n (column_type name).
Proof. unfold column_type. repeat case_match; go. Qed.

Lemma goes_column_def n : goes 1 n column_def.
Proof. unfold column_def. go. eapply (goes_then 0); [apply goes_column_type|]. go. Qed.

Lemma goes_order_by n : goes 0 n order_by.
Proof. unfold order_by. go. Qed.

Lemma goes_advance {A} n (f : Token → parser A) :
  (∀ t n', n' ≤ n → goes 0 n' (f t)) → goes 0 n (advance ≫= f).
Proof.
  intros Hf p Hp Hr. eapply runs_bind; [by apply runs_advance|]. intros t q Hq. cbv beta in Hq.
  assert (advanced 0 p q) as Hq'.
  { case_decide; [subst q; by apply advanced_refl|by apply (advanced_weaken 1); [lia|]]. }
  pose proof (advanced_remaining 0 p q Hq' Hp). eapply runs_mono.
  - apply (Hf t n); [done|exact (advanced_wf _ _ _ Hq')|lia].
  - intros a q2 Hq2. exact (advanced_trans 0 0 p q q2 Hq' Hq2).
Qed.

Lemma goes_limit n : goes 0 n limit.
Proof.
  unfold limit. go. apply goes_advance. intros t n' _. destruct (t_kind t); go. case_match; go.
Qed.

Lemma goes_select n : goes 1 n select_after_keyword.
Proof.
  unfold select_after_keyword. go.
  - eapply (goes_then 0); [apply goes_where|]. intros f _. eapply (goes_then 0); [apply goes_order_by|]. intros o _.
    eapply (goes_then 0); [apply goes_limit|]. go.
  - eapply (goes_then 1); [apply goes_until_word|]. go.
  - eapply (goes_then 0); [apply goes_where|]. intros f _. eapply (goes_then 0); [apply goes_order_by|]. intros o _.
    eapply (goes_then 0); [apply goes_limit|]. go.
Qed.

Lemma goes_create_table n : goes 1 n create_table.
Proof.
  unfold create_table. go. eapply (goes_then 1); [apply goes_comma_list, goes_column_def|]. go.
Qed.

Lemma goes_insert n : goes 1 n insert.
Proof.
  unfold insert. go. eapply (goes_then 1); [by apply goes_identifier_list|]. go.
  eapply (goes_then 1); [apply goes_comma_list, goes_literal|]. go.
Qed.

Lemma goes_assignment n : goes 1 n assignment.
Proof. unfold assignment. go. Qed.

Lemma goes_update n : goes 1 n update.
Proof.
  unfold update. go. eapply (goes_then 1); [apply goes_comma_list, goes_assignment|]. intros assignments _.
  eapply (goes_then 0); [apply goes_where|]. go.
Qed.

Lemma goes_delete n : goes 1 n delete.
Proof. unfold delete. go. eapply (goes_then 0); [apply goes_where|]. go. Qed.

#[export] Hint Resolve goes_create_table goes_insert goes_update goes_delete goes_select : goes.

Lemma goes_weak {A} n (m : parser A) : goes 1 n m → goes 0 n m.
Proof. intros H. by eapply goes_le; [exact H|lia|]. Qed.

Lemma goes_statement n : goes 1 n statement.
Proof.
  unfold statement. go; try (apply goes_weak; auto with goes).
  all: eapply (goes_then 1); [apply goes_select|]; go.
Qed.

Lemma goes_at_end {A} k n (f : bool → parser A) : (∀ b, goes k n (f b)) → goes k n (at_end ≫= f).
Proof.
  intros Hf p Hp Hr. unfold at_end. apply (runs_bind _ _ _ (λ _ q, q = p)).
  - eapply runs_bind; [by apply runs_peek|]. intros t q [-> _]. exact (eq_refl p).
  - intros b q Hq. cbv beta in Hq. subst q. by apply Hf.
Qed.

Lemma goes_statements_loop fuel n acc : n < fuel → goes 0 n (statements_loop fuel acc).
Proof.
  revert n acc. induction fuel as [|fuel IH]; intros n acc Hf; [lia|]. cbn [statements_loop].
  apply goes_at_end. intros [|]; go; [eapply goes_le; [apply (IH (n - 1)); lia|lia|lia]|].
  eapply (goes_then 1); [apply goes_statement|]. intros s Hn. go.
  - destruct a; go. eapply goes_le; [apply (IH (n - 2)); lia|lia|lia].
  - apply goes_at_end. intros [|]; go. eapply goes_le; [apply (IH (n - 1)); lia|lia|lia].
Qed.

Lemma parse_tokens_answers ts : ended ts → answers (parse_tokens ts) (λ ss, ss ≠ []).
Proof.
  intros (pre & e & Hts & He & Hpre). unfold parse_tokens.
  assert (parser_wf (MkParser ts 0)) as Hp by (exists pre, e; split_and!; [done..|cbn; lia]).
  assert (runs (fuelled (λ n, statements_loop n [])) (MkParser ts 0) (λ _, advanced 0 (MkParser ts 0))) as Hr.
  { apply (goes_fuelled 0 (remaining (MkParser ts 0))); [|done|done].
    intros f n' Hf _. by apply goes_statements_loop. }
  unfold runs in Hr. destruct (fuelled _ _) as [[ss|err|msg] p']; cbn in *; [|done|done].
  destruct ss; [by apply positioned_error|done].
Qed.

(** ** Properties *)

(** C32. The front end always answers.  For every text, that is every string of
    valid UTF-8, [parse] terminates and does not panic, in particular not by
    slicing the text inside a character: it returns at least one statement, or it
    fails with an error that carries a byte offset.  The stack that nested
    expressions take is not bounded by the model, nor by the code. *)
Theorem parse_always_answers source :
  is_str source →
  match parse source with Ok statements => statements ≠ [] | Err e => positioned e | Panic _ => False end.
Proof.
  intros Hs. pose proof (lex_answers source Hs) as Hl. unfold parse.
  destruct (lex source) as [ts|e|msg]; cbn in *; [|done|done]. by apply parse_tokens_answers, Hl.
Qed.

Definition accented : string := "SELECT * FROM T WHERE NAME = 'é; ''ü'''".

Lemma parse_always_answers_witness :
  is_str accented ∧ is_ok (parse accented) = true ∧
  match parse accented with Ok statements => statements ≠ [] | Err e => positioned e | Panic _ => False end.
Proof.
  assert (is_str accented) as H by (vm_compute; reflexivity).
  assert (is_ok (parse accented) = true) as H2 by (vm_compute; reflexivity).
  exact (conj H (conj H2 (parse_always_answers accented H))).
Defined.
