(* ===== verification/SqlPrint.v ===== *)
(** The SQL front end inverts printing.

    [show_statement] prints the syntax of a statement as tokens, with only the
    parentheses that precedence asks for, and [render] prints tokens as text;
    neither is in the source, they are the specification.  [eats m ks v G] says
    that the computation [m], with the tokens [ks] ahead and then a token that
    satisfies [G], returns [v] and leaves exactly what follows. *)

From S2P Require Import Prelude Bytes SqlAst SqlLexer SqlParser.
From Stdlib Require Import Ascii.

(** ** Printing syntax *)

Definition show_value (v : Value) : TokenKind :=
  match v with
  | VNull => TWord "NULL"
  | VInteger z => TInteger z
  | VText s => TString s
  | VBoolean b => TWord (if b then "TRUE" else "FALSE")
  end.

Definition show_op (op : BinaryOp) : TokenKind :=
  match op with
  | OEq => TEq | ONe => TNe | OLt => TLt | OLe => TLe | OGt => TGt | OGe => TGe
  | OAnd => TWord "AND" | OOr => TWord "OR"
  end.

(** Precedence: [OR] binds weakest, then [AND], then the comparisons. *)
Inductive level : Type := LOr | LAnd | LComparison | LPrimary.
Definition rank (l : level) : nat :=
  match l with LOr => 0 | LAnd => 1 | LComparison => 2 | LPrimary => 3 end.
Definition op_level (op : BinaryOp) : level :=
  match op with OOr => LOr | OAnd => LAnd | _ => LComparison end.
(** The levels of an operator's operands: chains associate to the left. *)
Definition left_level (op : BinaryOp) : level :=
  match op with OOr => LOr | OAnd => LAnd | _ => LPrimary end.
Definition right_level (op : BinaryOp) : level :=
  match op with OOr => LAnd | OAnd => LComparison | _ => LPrimary end.

Fixpoint show_expr (l : level) (e : Expr) : list TokenKind :=
  match e with
  | EColumn c => [TWord c]
  | ELiteral v => [show_value v]
  | EBinary op a b =>
    let body := show_expr (left_level op) a ++ [show_op op] ++ show_expr (right_level op) b in
    if rank l <=? rank (op_level op) then body else [TLeftParen] ++ body ++ [TRightParen]
  end.

(** [x1, x2, ..., xn] *)
Fixpoint show_commas {A} (show : A → list TokenKind) (l : list A) : list TokenKind :=
  match l with
  | [] => []
  | [a] => show a
  | a :: l => show a ++ [TComma] ++ show_commas show l
  end.

Definition show_type (ty : DataType) : TokenKind :=
  TWord (match ty with DInteger => "INT" | DText => "TEXT" | DBoolean => "BOOLEAN" end).
Definition show_column (c : ColumnDef) : list TokenKind :=
  [TWord (c_name c); show_type (data_type c)] ++ (if primary_key c then [TWord "PRIMARY"; TWord "KEY"] else []).
Definition show_assignment (a : string * Value) : list TokenKind := [TWord a.1; TEq; show_value a.2].

Definition show_where (filter : option Expr) : list TokenKind :=
  match filter with Some e => TWord "WHERE" :: show_expr LOr e | None => [] end.
Definition show_order (order : option (string * bool)) : list TokenKind :=
  match order with
  | Some (c, asc) => [TWord "ORDER"; TWord "BY"; TWord c; TWord (if asc : bool then "ASC" else "DESC")]
  | None => []
  end.
Definition show_limit (limit : option Z) : list TokenKind :=
  match limit with Some n => [TWord "LIMIT"; TInteger n] | None => [] end.
Definition show_projection (p : Projection) : list TokenKind :=
  match p with PAll => [TStar] | PColumns names => show_commas (λ n, [TWord n]) names end.
Definition show_select (s : Select) : list TokenKind :=
  show_projection (s_projection s) ++ [TWord "FROM"; TWord (s_table s)]
  ++ show_where (s_filter s) ++ show_order (s_order s) ++ show_limit (s_limit s).

Definition show_statement (s : Statement) : list TokenKind :=
  match s with
  | SCreateTable table columns =>
    [TWord "CREATE"; TWord "TABLE"; TWord table; TLeftParen] ++ show_commas show_column columns ++ [TRightParen]
  | SInsert table columns values =>
    [TWord "INSERT"; TWord "INTO"; TWord table; TLeftParen] ++ show_commas (λ n, [TWord n]) columns
    ++ [TRightParen; TWord "VALUES"; TLeftParen] ++ show_commas (λ v, [show_value v]) values ++ [TRightParen]
  | SSelect s => TWord "SELECT" :: show_select s
  | SUpdate table assignments filter =>
    [TWord "UPDATE"; TWord table; TWord "SET"] ++ show_commas show_assignment assignments ++ show_where filter
  | SDelete table filter => [TWord "DELETE"; TWord "FROM"; TWord table] ++ show_where filter
  | SBegin => [TWord "BEGIN"]
  | SCommit => [TWord "COMMIT"]
  | SRollback => [TWord "ROLLBACK"]
  | SExplain s => [TWord "EXPLAIN"; TWord "SELECT"] ++ show_select s
  end.

Definition show_script (ss : list Statement) : list TokenKind :=
  ss ≫= λ s, show_statement s ++ [TSemicolon].

(** ** Tokens ahead *)

Definition ahead (p : Parser) (ks : list TokenKind) : Prop := t_kind <$> drop (offset p) (tokens p) = ks.

Definition eats {A} (m : parser A) (ks : list TokenKind) (v : A) (G : TokenKind → Prop) : Prop :=
  ∀ p k rest, ahead p (ks ++ k :: rest) → G k →
  ∃ p', m p = (Ok v, p') ∧ ahead p' (k :: rest) ∧ tokens p' = tokens p.

Definition anything (k : TokenKind) : Prop := True.

Lemma ahead_skip p k ks : ahead p (k :: ks) → ahead (set_offset (S (offset p)) p) ks.
Proof.
  unfold ahead. cbn. intros H. rewrite <- Nat.add_1_r, <- drop_drop, fmap_drop, H. done.
Qed.

Lemma ahead_index p k ks : ahead p (k :: ks) → ∃ t, index (E:=io_error) (tokens p) (offset p) = Ok t ∧ t_kind t = k.
Proof.
  unfold ahead. intros H. destruct (drop (offset p) (tokens p)) as [|t l] eqn:Hd; [done|].
  injection H as Hk _. exists t. split; [|done]. apply index_ok.
  rewrite <- (Nat.add_0_r (offset p)), <- lookup_drop, Hd. done.
Qed.

Lemma ahead_length p ks : ahead p ks → length ks ≤ length (tokens p).
Proof. unfold ahead. intros <-. rewrite length_fmap, length_drop. lia. Qed.

Lemma peek_ahead p k ks : ahead p (k :: ks) → ∃ t, peek p = (Ok t, p) ∧ t_kind t = k.
Proof.
  intros H. destruct (ahead_index p k ks H) as (t & Hi & Hk). exists t. split; [|done].
  unfold peek. run_steps. unfold lift. by rewrite Hi.
Qed.

(** ** Composition *)

Lemma eats_ret {A} (v : A) : eats (mret v) [] v anything.
Proof. intros p k rest H _. by exists p. Qed.

Lemma eats_weaken {A} (m : parser A) ks v (G G' : TokenKind → Prop) :
  eats m ks v G → (∀ k, G' k → G k) → eats m ks v G'.
Proof. intros H HG p k rest Ha Hk. eapply H; eauto. Qed.

(** [f] goes on where [m] stopped: at its own first token, or at what follows. *)
Lemma eats_bind {A B} (m : parser A) (f : A → parser B) ks ks' v w (G G' : TokenKind → Prop) :
  eats m ks v G → eats (f v) ks' w G' → (∀ k, G' k → G (default k (head ks'))) →
  eats (m ≫= f) (ks ++ ks') w G'.
Proof.
  intros Hm Hf HG p k rest Ha Hk. rewrite <- app_assoc in Ha.
  assert (∃ k0 rest0, ks' ++ k :: rest = k0 :: rest0 ∧ G k0) as (k0 & rest0 & Heq & Hk0).
  { pose proof (HG k Hk) as Hg. destruct ks' as [|k1 ks1]; cbn in *; eauto. }
  rewrite Heq in Ha. destruct (Hm p k0 rest0 Ha Hk0) as (p1 & Hr1 & Ha1 & Ht1).
  rewrite <- Heq in Ha1. destruct (Hf p1 k rest Ha1 Hk) as (p2 & Hr2 & Ha2 & Ht2).
  exists p2. split; [by erewrite M_bind_run by exact Hr1|]. split; [done|congruence].
Qed.

(** The same, when [m] does not care what follows. *)
Lemma eats_seq {A B} (m : parser A) (f : A → parser B) ks ks' v w G :
  eats m ks v anything → eats (f v) ks' w G → eats (m ≫= f) (ks ++ ks') w G.
Proof. intros Hm Hf. by eapply eats_bind. Qed.

(** A last step that reads nothing. *)
Lemma eats_map {A B} (m : parser A) (f : A → B) ks v G :
  eats m ks v G → eats (a ← m; mret (f a)) ks (f v) G.
Proof.
  intros Hm. rewrite <- (app_nil_r ks). eapply eats_bind; [exact Hm|by eapply eats_weaken; [apply eats_ret|]|done].
Qed.

Lemma eats_fuelled {A} (m : nat → parser A) ks v G :
  (∀ n, length ks < n → eats (m n) ks v G) → eats (fuelled m) ks v G.
Proof.
  intros H p k rest Ha Hk. pose proof (ahead_length _ _ Ha) as Hl. rewrite length_app in Hl. cbn in Hl.
  unfold fuelled. run_steps. eapply H; eauto. lia.
Qed.

(** ** Single tokens *)

Lemma eats_consume_word w : eats (consume_word w) [TWord w] true anything.
Proof.
  intros p k rest Ha _. destruct (peek_ahead _ _ _ Ha) as (t & Hr & Hk).
  exists (set_offset (S (offset p)) p). unfold consume_word, check_word.
  split; [|split; [by apply ahead_skip in Ha|done]].
  rewrite run_bind. erewrite M_bind_run by exact Hr. run_steps. rewrite Hk, bool_decide_true by done. done.
Qed.

Lemma eats_no_word w : eats (consume_word w) [] false (λ k, k ≠ TWord w).
Proof.
  intros p k rest Ha Hne. destruct (peek_ahead _ _ _ Ha) as (t & Hr & Hk). exists p. split; [|done].
  unfold consume_word, check_word. rewrite run_bind. erewrite M_bind_run by exact Hr. run_steps.
  by rewrite Hk, bool_decide_false.
Qed.

Lemma eats_check_word w b : eats (check_word w) [] b (λ k, b = bool_decide (k = TWord w)).
Proof.
  intros p k rest Ha ->. destruct (peek_ahead _ _ _ Ha) as (t & Hr & Hk). exists p. split; [|done].
  unfold check_word. erewrite M_bind_run by exact Hr. by rewrite Hk.
Qed.

Lemma eats_consume_simple k0 : eats (consume_simple k0) [k0] true anything.
Proof.
  intros p k rest Ha _. destruct (peek_ahead _ _ _ Ha) as (t & Hr & Hk).
  exists (set_offset (S (offset p)) p). unfold consume_simple.
  split; [|split; [by apply ahead_skip in Ha|done]].
  erewrite M_bind_run by exact Hr. rewrite decide_True by done. done.
Qed.

Lemma eats_no_simple k0 : eats (consume_simple k0) [] false (λ k, k ≠ k0).
Proof.
  intros p k rest Ha Hne. destruct (peek_ahead _ _ _ Ha) as (t & Hr & Hk). exists p. split; [|done].
  unfold consume_simple. erewrite M_bind_run by exact Hr. rewrite decide_False by congruence. done.
Qed.

Lemma eats_expect_word w : eats (expect_word w) [TWord w] tt anything.
Proof. eapply (eats_seq _ _ [TWord w] []); [apply eats_consume_word|apply eats_ret]. Qed.
Lemma eats_expect_simple k0 d : eats (expect_simple k0 d) [k0] tt anything.
Proof. eapply (eats_seq _ _ [k0] []); [apply eats_consume_simple|apply eats_ret]. Qed.

Lemma eats_advance {A} k0 (f : Token → parser A) ks v G :
  k0 ≠ TEnd → (∀ t, t_kind t = k0 → eats (f t) ks v G) → eats (advance ≫= f) (k0 :: ks) v G.
Proof.
  intros Hne Hf p k rest Ha Hk. destruct (peek_ahead _ _ _ Ha) as (t & Hr & Ht).
  destruct (ahead_index _ _ _ Ha) as (t' & Hi & _).
  assert (advance p = (Ok t', set_offset (S (offset p)) p)) as Hadv.
  { unfold advance, at_end. run_steps. rewrite run_bind. erewrite M_bind_run by exact Hr. run_steps.
    rewrite Ht, bool_decide_false by done. unfold skip. run_steps. unfold lift. by rewrite Hi. }
  assert (t' = t) as ->.
  { unfold peek in Hr. revert Hr. run_steps. unfold lift. rewrite Hi. by intros [= ->]. }
  destruct (Hf t Ht (set_offset (S (offset p)) p) k rest) as (p2 & Hr2 & Ha2 & Ht2).
  { by apply ahead_skip in Ha. }
  { done. }
  exists p2. split; [by erewrite M_bind_run by exact Hadv|done].
Qed.

Lemma eats_word w : eats word [TWord w] w anything.
Proof. apply eats_advance; [done|]. intros t ->. apply eats_ret. Qed.

Lemma eats_literal v : eats literal [show_value v] v anything.
Proof.
  apply eats_advance; [by destruct v|]. intros t ->. destruct v as [|z|s|b]; cbn; try apply eats_ret.
  by destruct b; apply eats_ret.
Qed.

(** ** Lists *)

Lemma show_commas_cons {A} (show : A → list TokenKind) a b l :
  show_commas show (a :: b :: l) = show a ++ [TComma] ++ show_commas show (b :: l).
Proof. done. Qed.

Lemma commas_length {A} (show : A → list TokenKind) (l : list A) : length l ≤ S (length (show_commas show l)).
Proof.
  induction l as [|a [|b l] IH]; [cbn; lia..|]. rewrite show_commas_cons, !length_app. cbn [length] in *. lia.
Qed.

Lemma eats_comma_loop {A} (item : parser A) show l acc fuel (G0 G : TokenKind → Prop) :
  (∀ a, a ∈ l → eats item (show a) a G0) → G0 TComma → (∀ k, G k → G0 k ∧ k ≠ TComma) → l ≠ [] →
  length l ≤ fuel → eats (comma_loop fuel item acc) (show_commas show l) (acc ++ l) G.
Proof.
  intros Hi HG0 HG. revert acc fuel. induction l as [|a l IH]; [done|]. intros acc [|fuel] _ Hf; [cbn in Hf; lia|].
  cbn [comma_loop]. destruct l as [|b l].
  - cbn [show_commas]. rewrite <- (app_nil_r (show a)).
    eapply eats_bind; [apply Hi; left| |intros k Hk; cbn; by apply HG].
    eapply (eats_bind _ _ [] []); [apply eats_no_simple|apply eats_weaken with anything; [apply eats_ret|done]|].
    intros k Hk. cbn. by apply HG.
  - rewrite show_commas_cons. eapply eats_bind; [apply Hi; left| |done].
    eapply (eats_seq _ _ [TComma]); [apply eats_consume_simple|]. cbn.
    replace (acc ++ a :: b :: l) with ((acc ++ [a]) ++ b :: l) by (by rewrite <- app_assoc).
    apply IH; [intros c Hc; apply Hi; by right|done|cbn in *; lia].
Qed.

Lemma eats_comma_list {A} (item : parser A) show l (G0 G : TokenKind → Prop) :
  (∀ a, a ∈ l → eats item (show a) a G0) → G0 TComma → (∀ k, G k → G0 k ∧ k ≠ TComma) → l ≠ [] →
  eats (comma_list item) (show_commas show l) l G.
Proof.
  intros Hi HG0 HG Hl. apply eats_fuelled. intros n Hn. pose proof (commas_length show l).
  apply (eats_comma_loop item show l [] n G0); auto; lia.
Qed.

Definition show_names (names : list string) : list TokenKind := show_commas (λ n, [TWord n]) names.

(** A list of names, closed by what [stop] recognises and [close] consumes. *)
Lemma eats_names_loop (stop : parser bool) close fuel names acc (G G' : TokenKind → Prop) :
  eats stop [] false (λ k, k = TComma) → eats stop close true G → (∀ k, G' k → G (default k (head close))) →
  (∀ k, G' k → G k) → names ≠ [] → length names ≤ fuel →
  eats (names_loop fuel stop acc) (show_names names ++ close) (acc ++ names) G'.
Proof.
  intros Hno Hyes HGc HG. revert acc fuel. induction names as [|a names IH]; [done|].
  intros acc [|fuel] _ Hf; [cbn in Hf; lia|]. cbn [names_loop]. destruct names as [|b names].
  - cbn [show_names show_commas]. eapply (eats_seq _ _ [TWord a]); [apply eats_word|].
    rewrite <- (app_nil_r close).
    eapply eats_bind; [exact Hyes|apply eats_weaken with anything; [apply eats_ret|done]|].
    intros k Hk. by apply HG.
  - unfold show_names. rewrite show_commas_cons, <- !app_assoc.
    eapply (eats_seq _ _ [TWord a]); [apply eats_word|].
    eapply (eats_bind _ _ []); [exact Hno| |done].
    eapply (eats_seq _ _ [TComma]); [apply eats_expect_simple|].
    replace (acc ++ a :: b :: names) with ((acc ++ [a]) ++ b :: names) by (by rewrite <- app_assoc).
    apply IH; [done|cbn in *; lia].
Qed.

Lemma eats_identifier_list names :
  names ≠ [] → eats (identifier_list TRightParen) (show_names names ++ [TRightParen]) names anything.
Proof.
  intros Hn. apply eats_fuelled. intros n Hl. pose proof (commas_length (λ n, [TWord n]) names) as Hc.
  rewrite length_app in Hl. unfold show_names in Hl. cbn in Hl.
  eapply (eats_names_loop _ _ _ _ [] anything); [|apply eats_consume_simple|done|done|done|lia].
  eapply eats_weaken; [apply eats_no_simple|]. by intros k ->.
Qed.

Lemma eats_until_from names :
  names ≠ [] → eats (identifier_list_until_word "FROM") (show_names names) names (λ k, k = TWord "FROM").
Proof.
  intros Hn. apply eats_fuelled. intros n Hl. pose proof (commas_length (λ n, [TWord n]) names) as Hc.
  unfold show_names in Hl. rewrite <- (app_nil_r (show_names names)).
  eapply (eats_names_loop _ [] _ _ [] (λ k, k = TWord "FROM")); [|
    |by intros k ->|done|done|lia].
  - eapply eats_weaken; [apply (eats_check_word "FROM")|]. by intros k ->.
  - eapply eats_weaken; [apply (eats_check_word "FROM")|]. intros k ->. by rewrite bool_decide_true.
Qed.

(** ** Expressions *)

(** Columns that are not read as constants. *)
Fixpoint expr_ok (e : Expr) : Prop :=
  match e with
  | EColumn c => is_constant c = false
  | ELiteral _ => True
  | EBinary _ a b => expr_ok a ∧ expr_ok b
  end.

Fixpoint height (e : Expr) : nat :=
  match e with EBinary _ a b => S (height a `max` height b) | _ => 0 end.

(** What may follow an expression of a level. *)
Definition stops (l : level) (k : TokenKind) : Prop :=
  (rank l ≤ 2 → comparison_op k = None) ∧ (rank l ≤ 1 → k ≠ TWord "AND") ∧ (rank l ≤ 0 → k ≠ TWord "OR").

(** The parser of a level, over a parser for parenthesized expressions. *)
Definition parse_level (l : level) (e : parser Expr) : parser Expr :=
  match l with LOr => or_ e | LAnd => and_ e | LComparison => comparison e | LPrimary => primary e end.

Lemma stops_le l l' k : stops l k → rank l ≤ rank l' → stops l' k.
Proof. unfold stops. intros (? & ? & ?) ?. split_and!; auto with lia. Qed.

Lemma eats_atom (e : parser Expr) k0 x :
  (∃ v, k0 = show_value v ∧ x = ELiteral v) ∨ (∃ c, k0 = TWord c ∧ x = EColumn c ∧ is_constant c = false) →
  eats (primary e) [k0] x anything.
Proof.
  intros Hk p k rest Ha _. assert (k0 ≠ TLeftParen) as Hne.
  { destruct Hk as [([| | |[]] & -> & _)|(? & -> & _)]; done. }
  destruct (eats_no_simple TLeftParen p k0 (k :: rest) Ha Hne) as (p1 & H1 & Ha1 & Ht1).
  unfold primary. erewrite M_bind_run by exact H1. destruct (peek_ahead _ _ _ Ha1) as (t & Hr & Hkt).
  erewrite M_bind_run by exact Hr. rewrite Hkt.
  destruct Hk as [(v & -> & ->)|(c & -> & -> & Hc)].
  - destruct (eats_literal v p1 k rest Ha1 I) as (p2 & H2 & Ha2 & Ht2). exists p2.
    split; [|split; [done|congruence]].
    destruct v as [|z|s|[]]; cbn [show_value];
      repeat match goal with |- context [is_constant ?w] => change (is_constant w) with true end;
      cbv iota; by erewrite M_bind_run by exact H2.
  - rewrite Hc. destruct (eats_word c p1 k rest Ha1 I) as (p2 & H2 & Ha2 & Ht2). exists p2.
    split; [|split; [done|congruence]]. unfold identifier. by erewrite M_bind_run by exact H2.
Qed.

Lemma eats_paren (e : parser Expr) ks x :
  eats e ks x (stops LOr) → eats (primary e) ([TLeftParen] ++ ks ++ [TRightParen]) x anything.
Proof.
  intros He. unfold primary. eapply (eats_seq _ _ [TLeftParen]); [apply eats_consume_simple|].
  eapply eats_bind; [exact He| |by intros k _; cbn].
  eapply (eats_seq _ _ [TRightParen] []); [apply eats_expect_simple|apply eats_ret].
Qed.

Lemma eats_no_choice {A X} (g : TokenKind → option X) (f : X → parser A) (h : A) :
  eats (t ← peek; match g (t_kind t) with Some x => _ ← skip; f x | None => mret h end) [] h (λ k, g k = None).
Proof.
  intros p k rest Ha Hk. destruct (peek_ahead _ _ _ Ha) as (t & Hr & Ht). exists p. split; [|done].
  erewrite M_bind_run by exact Hr. by rewrite Ht, Hk.
Qed.

Lemma eats_choice {A X} (g : TokenKind → option X) (f : X → parser A) (h : parser A) k0 x ks v G :
  g k0 = Some x → eats (f x) ks v G →
  eats (t ← peek; match g (t_kind t) with Some x => _ ← skip; f x | None => h end) (k0 :: ks) v G.
Proof.
  intros Hg Hf p k rest Ha Hk. destruct (peek_ahead _ _ _ Ha) as (t & Hr & Ht).
  destruct (Hf (set_offset (S (offset p)) p) k rest) as (p2 & H2 & Ha2 & Ht2); [by apply ahead_skip in Ha|done|].
  exists p2. split; [|done]. erewrite M_bind_run by exact Hr. rewrite Ht, Hg. unfold skip. by run_steps.
Qed.

Section levels.
Context (e : parser Expr).

Lemma up_comparison ks x : eats (primary e) ks x anything → eats (comparison e) ks x (stops LComparison).
Proof.
  intros Hx. unfold comparison. rewrite <- (app_nil_r ks). eapply eats_seq; [exact Hx|].
  eapply eats_weaken; [apply (eats_no_choice comparison_op)|]. intros k (Hk & _). apply Hk. cbn. lia.
Qed.

Lemma eats_compare op a b ksa ksb :
  op_level op = LComparison → eats (primary e) ksa a anything → eats (primary e) ksb b anything →
  eats (comparison e) (ksa ++ [show_op op] ++ ksb) (EBinary op a b) (stops LComparison).
Proof.
  intros Hop Ha Hb. unfold comparison. eapply eats_seq; [exact Ha|].
  apply (eats_choice comparison_op _ _ (show_op op) op); [by destruct op|].
  rewrite <- (app_nil_r ksb). eapply eats_seq; [exact Hb|]. eapply eats_weaken; [apply eats_ret|done].
Qed.

(** A chain of operands in the middle: the loop still has fuel for every token. *)
Definition pending (m : parser Expr) (w : string) (op : BinaryOp) (operand : parser Expr)
    (ks : list TokenKind) (x : Expr) (G : TokenKind → Prop) : Prop :=
  ∀ p k rest, ahead p (ks ++ k :: rest) → G k → ∃ p' fuel,
    m p = operand_loop fuel w op operand x p' ∧ length (k :: rest) < fuel ∧
    ahead p' (k :: rest) ∧ tokens p' = tokens p.

Definition chain (w : string) (op : BinaryOp) (operand : parser Expr) : parser Expr :=
  x ← operand; fuelled (λ n, operand_loop n w op operand x).

Lemma pending_start w op operand ks x G :
  eats operand ks x G → pending (chain w op operand) w op operand ks x G.
Proof.
  intros Hx p k rest Ha Hk. destruct (Hx p k rest Ha Hk) as (p1 & H1 & Ha1 & Ht1).
  exists p1, (S (length (tokens p1))). unfold chain. erewrite M_bind_run by exact H1.
  unfold fuelled. run_steps. split_and!; [done| |done..]. pose proof (ahead_length _ _ Ha1). lia.
Qed.

Lemma pending_step m w op operand ks ks' x y G :
  pending m w op operand ks x G → G (TWord w) → eats operand ks' y G →
  pending m w op operand (ks ++ [TWord w] ++ ks') (EBinary op x y) G.
Proof.
  intros Hm Hw Hy p k rest Ha Hk. rewrite <- !app_assoc in Ha.
  destruct (Hm p (TWord w) (ks' ++ k :: rest) Ha Hw) as (p1 & fuel & H1 & Hf & Ha1 & Ht1).
  destruct fuel as [|fuel]; [lia|].
  destruct (eats_consume_word w p1) with (k := default k (head (ks' ++ k :: rest))) (rest := tail (ks' ++ k :: rest))
    as (p2 & H2 & Ha2 & Ht2); [by destruct ks'|done|].
  replace (default k (head (ks' ++ k :: rest)) :: tail (ks' ++ k :: rest)) with (ks' ++ k :: rest) in Ha2
    by (by destruct ks').
  destruct (Hy p2 k rest Ha2 Hk) as (p3 & H3 & Ha3 & Ht3).
  exists p3, fuel. split; [|split_and!; [|done|congruence]].
  - rewrite H1. cbn [operand_loop]. erewrite M_bind_run by exact H2.
    cbv iota. by erewrite M_bind_run by exact H3.
  - cbn [length] in *. rewrite length_app in Hf. cbn [length] in Hf. lia.
Qed.

Lemma pending_done m w op operand ks x (G : TokenKind → Prop) :
  pending m w op operand ks x G → eats m ks x (λ k, G k ∧ k ≠ TWord w).
Proof.
  intros Hm p k rest Ha [Hk Hne]. destruct (Hm p k rest Ha Hk) as (p1 & fuel & H1 & Hf & Ha1 & Ht1).
  destruct fuel as [|fuel]; [lia|]. exists p1. split; [|done]. rewrite H1. cbn [operand_loop].
  destruct (eats_no_word w p1 k rest Ha1 Hne) as (p2 & H2 & Ha2 & Ht2). erewrite M_bind_run by exact H2.
  unfold consume_word, check_word in H2. destruct (peek_ahead _ _ _ Ha1) as (t & Hr & Ht).
  rewrite run_bind in H2. erewrite M_bind_run in H2 by exact Hr. revert H2. run_steps.
  rewrite Ht, bool_decide_false by done. by intros [= <-].
Qed.

Definition pending_and := pending (and_ e) "AND" OAnd (comparison e).
Definition pending_or := pending (or_ e) "OR" OOr (and_ e).

Lemma stops_and k : stops LComparison k ∧ k ≠ TWord "AND" ↔ stops LAnd k.
Proof. unfold stops. cbn. split; [intros [(? & _) ?]|intros (? & ? & _)]; split_and!; auto with lia. Qed.
Lemma stops_or k : stops LAnd k ∧ k ≠ TWord "OR" ↔ stops LOr k.
Proof. unfold stops. cbn. split; [intros [(? & ? & _) ?]|intros (? & ? & ?)]; split_and!; auto with lia. Qed.

Lemma finish_and ks x : pending_and ks x (stops LComparison) → eats (and_ e) ks x (stops LAnd).
Proof. intros H. eapply eats_weaken; [by apply (pending_done _ _ _ _ _ _ _ H)|]. intros k. apply stops_and. Qed.
Lemma finish_or ks x : pending_or ks x (stops LAnd) → eats (or_ e) ks x (stops LOr).
Proof. intros H. eapply eats_weaken; [by apply (pending_done _ _ _ _ _ _ _ H)|]. intros k. apply stops_or. Qed.

(** What is read at a level is read at the weaker ones. *)
Record reads (l : level) (ks : list TokenKind) (x : Expr) : Prop := Reads {
  reads_level l' : rank l' ≤ rank l → eats (parse_level l' e) ks x (stops l');
  reads_and : rank LAnd ≤ rank l → pending_and ks x (stops LComparison);
  reads_or : pending_or ks x (stops LAnd);
}.

Lemma reads_from_or ks x : pending_or ks x (stops LAnd) → reads LOr ks x.
Proof.
  intros H. split; [|cbn; lia|done]. intros l' Hl. destruct l'; cbn in Hl; try lia. by apply finish_or.
Qed.

Lemma reads_from_and ks x : pending_and ks x (stops LComparison) → reads LAnd ks x.
Proof.
  intros H. pose proof (finish_and _ _ H) as Ha. pose proof (pending_start "OR" OOr _ _ _ _ Ha) as Ho.
  split; [|done|exact Ho]. intros [] Hl; cbn in Hl; try lia; [by apply finish_or|done].
Qed.

Lemma reads_from_comparison ks x : eats (comparison e) ks x (stops LComparison) → reads LComparison ks x.
Proof.
  intros H. pose proof (pending_start "AND" OAnd _ _ _ _ H) as Ha. destruct (reads_from_and _ _ Ha) as [Hl _ Ho].
  split; [|done|done]. intros [] Hr; cbn in Hr; try lia; [by apply Hl; cbn; lia..|done].
Qed.

Lemma reads_from_primary ks x : eats (primary e) ks x anything → reads LPrimary ks x.
Proof.
  intros H. destruct (reads_from_comparison _ _ (up_comparison _ _ H)) as [Hl Ha Ho].
  split; [|intros _; apply Ha; cbn; lia|done]. intros [] Hr; cbn in Hr.
  1-3: apply Hl; cbn; lia. eapply eats_weaken; [exact H|done].
Qed.

Lemma reads_weaker l l' ks x : reads l ks x → rank l' ≤ rank l → reads l' ks x.
Proof. intros [Hl Ha Ho] Hr. split; [intros; apply Hl; lia|intros; apply Ha; lia|done]. Qed.
End levels.

(** The operators' bodies, over a parser that reads their operands. *)
Lemma reads_body e op a b :
  (∀ l, reads e l (show_expr l a) a) → (∀ l, reads e l (show_expr l b) b) →
  reads e (op_level op) (show_expr (left_level op) a ++ [show_op op] ++ show_expr (right_level op) b) (EBinary op a b).
Proof.
  intros Ha Hb.
  assert (op_level op = LComparison → eats (comparison e)
    (show_expr LPrimary a ++ [show_op op] ++ show_expr LPrimary b) (EBinary op a b) (stops LComparison)) as Hc.
  { intros Hop. apply eats_compare; [done|..]; eapply eats_weaken.
    - apply (reads_level e LPrimary _ _ (Ha LPrimary) LPrimary). lia.
    - intros k _. unfold stops; cbn. split_and!; lia.
    - apply (reads_level e LPrimary _ _ (Hb LPrimary) LPrimary). lia.
    - intros k _. unfold stops; cbn. split_and!; lia. }
  destruct op; cbn [op_level left_level right_level]; try (by apply reads_from_comparison, Hc).
  - apply reads_from_and. apply pending_step.
    + apply (reads_and e LAnd _ _ (Ha LAnd)). done.
    + unfold stops; cbn; split_and!; done || lia.
    + apply (reads_level e LComparison _ _ (Hb LComparison) LComparison). lia.
  - apply reads_from_or. apply pending_step.
    + apply (reads_or e LOr _ _ (Ha LOr)).
    + unfold stops; cbn; split_and!; done || lia.
    + apply (reads_level e LAnd _ _ (Hb LAnd) LAnd). lia.
Qed.

(** Every expression is read back, given fuel for its nesting. *)
Lemma reads_expr x fuel l :
  expr_ok x → height x ≤ fuel → reads (expr_loop fuel) l (show_expr l x) x.
Proof.
  revert fuel l. induction x as [c|v|op a IHa b IHb]; intros fuel l Hok Hf.
  - eapply reads_weaker; [apply (reads_from_primary _ [TWord c]), eats_atom; right; by exists c|by destruct l; cbn; lia].
  - eapply reads_weaker; [apply (reads_from_primary _ [show_value v]), eats_atom; left; by exists v|by destruct l; cbn; lia].
  - destruct Hok as [Hoka Hokb]. cbn [height] in Hf. destruct fuel as [|fuel]; [lia|]. cbn [show_expr].
    destruct (rank l <=? rank (op_level op)) eqn:Hl.
    + apply Nat.leb_le in Hl. eapply reads_weaker; [|exact Hl].
      apply reads_body; intros l'; [apply IHa|apply IHb]; auto; lia.
    + eapply (reads_weaker _ LPrimary); [|destruct l; cbn; lia]. apply reads_from_primary, eats_paren.
      apply (reads_level (expr_loop fuel) (op_level op) _ _) with (l' := LOr); [|cbn; lia].
      apply reads_body; intros l'; [apply IHa|apply IHb]; auto; lia.
Qed.

Lemma height_show l x : height x ≤ length (show_expr l x).
Proof.
  revert l. induction x as [c|v|op a IHa b IHb]; intros l; cbn [height show_expr]; [cbn; lia..|].
  pose proof (IHa (left_level op)). pose proof (IHb (right_level op)).
  case_match; rewrite !length_app; cbn [length]; lia.
Qed.

Lemma eats_expr x : expr_ok x → eats expr (show_expr LOr x) x (stops LOr).
Proof.
  intros Hok. apply eats_fuelled. intros [|n] Hn; [lia|]. cbn [expr_loop].
  pose proof (height_show LOr x). apply (reads_level _ LOr _ _ (reads_expr x n LOr Hok ltac:(lia)) LOr). lia.
Qed.

(** ** Statements *)

Definition filter_ok (f : option Expr) : Prop := match f with Some e => expr_ok e | None => True end.
Definition select_ok (s : Select) : Prop :=
  (match s_projection s with PAll => True | PColumns names => names ≠ [] end) ∧ filter_ok (s_filter s) ∧
  (match s_limit s with Some n => (0 ≤ n)%Z | None => True end).

(** What the grammar can express. *)
Definition statement_ok (s : Statement) : Prop :=
  match s with
  | SCreateTable _ columns => columns ≠ []
  | SInsert _ columns values => columns ≠ [] ∧ values ≠ []
  | SSelect s | SExplain s => select_ok s
  | SUpdate _ assignments f => assignments ≠ [] ∧ filter_ok f
  | SDelete _ f => filter_ok f
  | _ => True
  end.

(** A word that is there, and one that is not. *)
Ltac hit w := eapply (eats_seq _ _ [TWord w]); [apply eats_consume_word || apply eats_expect_word || apply eats_word|]; cbv iota.
Ltac sym k := eapply (eats_seq _ _ [k]); [apply eats_consume_simple || apply eats_expect_simple|]; cbv iota.
Ltac miss := eapply (eats_bind _ _ []); [apply eats_no_word || apply eats_no_simple| |try done]; cbv iota.
Ltac yield := eapply eats_weaken; [apply eats_ret|done].

Lemma eats_where f :
  filter_ok f → eats where_ (show_where f) f (λ k, stops LOr k ∧ k ≠ TWord "WHERE").
Proof.
  intros Hf. unfold where_. destruct f as [e|]; cbn [show_where].
  - hit "WHERE". rewrite <- (app_nil_r (show_expr LOr e)).
    eapply eats_bind; [by apply eats_expr|yield|]. intros k [Hk _]. exact Hk.
  - miss; [yield|]. intros k [_ Hk]. exact Hk.
Qed.

Lemma eats_order order : eats order_by (show_order order) order (λ k, k ≠ TWord "ORDER").
Proof.
  unfold order_by. destruct order as [[c asc]|]; cbn [show_order].
  - hit "ORDER". hit "BY". hit c. destruct asc.
    + miss. eapply (eats_seq _ _ [TWord "ASC"] []); [|yield].
      eapply (eats_seq _ _ [TWord "ASC"] []); [apply eats_consume_word|apply eats_ret].
    + hit "DESC". eapply (eats_seq _ _ [] []); [apply eats_ret|yield].
  - miss. yield.
Qed.

Lemma eats_limit lim :
  (match lim with Some n => (0 ≤ n)%Z | None => True end) → eats limit (show_limit lim) lim (λ k, k ≠ TWord "LIMIT").
Proof.
  intros Hn. unfold limit. destruct lim as [n|]; cbn [show_limit].
  - hit "LIMIT". apply eats_advance; [done|]. intros t ->. rewrite (proj2 (Z.leb_le 0 n)) by done. yield.
  - miss. yield.
Qed.

(** Where a statement may end. *)
Definition statement_end (k : TokenKind) : Prop := k = TSemicolon ∨ k = TEnd.

Lemma show_limit_head lim k :
  statement_end k → ∃ k', default k (head (show_limit lim)) = k' ∧ (k' = TWord "LIMIT" ∨ statement_end k').
Proof. destruct lim; cbn; eauto. Qed.

Lemma show_order_head order lim k :
  statement_end k → ∃ k', default k (head (show_order order ++ show_limit lim)) = k' ∧
    (k' = TWord "ORDER" ∨ k' = TWord "LIMIT" ∨ statement_end k').
Proof. destruct order as [[c []]|], lim; cbn; eauto. Qed.

Lemma eats_clauses f order lim (mk : option Expr → option (string * bool) → option Z → Select) :
  filter_ok f → (match lim with Some n => (0 ≤ n)%Z | None => True end) →
  eats (x ← where_; o ← order_by; l ← limit; mret (mk x o l))
    (show_where f ++ show_order order ++ show_limit lim) (mk f order lim) statement_end.
Proof.
  intros Hf Hl. eapply eats_bind; [by apply eats_where| |].
  - eapply eats_bind; [apply eats_order| |].
    + rewrite <- (app_nil_r (show_limit lim)). eapply eats_bind; [by apply eats_limit|yield|].
      intros k [->| ->]; done.
    + intros k Hk. destruct (show_limit_head lim k Hk) as (k' & -> & [->|[->| ->]]); done.
  - intros k Hk. destruct (show_order_head order lim k Hk) as (k' & -> & [->|[->|[->| ->]]]);
      unfold stops; cbn; by split_and!.
Qed.

Lemma eats_select s : select_ok s → eats select_after_keyword (show_select s) s statement_end.
Proof.
  destruct s as [table pr f order lim]. intros (Hp & Hf & Hl). cbn in Hp, Hf, Hl.
  unfold select_after_keyword, show_select. cbn [s_table s_projection s_filter s_order s_limit].
  destruct pr as [|names]; cbn [show_projection].
  - sym TStar. eapply (eats_seq _ _ []); [apply eats_ret|]. hit "FROM". hit table.
    by apply (eats_clauses f order lim (MkSelect table PAll)).
  - eapply (eats_bind _ _ []); [apply eats_no_simple| |].
    + cbv iota. eapply (eats_bind _ _ (show_commas _ names) _ _ _ (λ k, k = TWord "FROM")); [| |done].
      { by apply (eats_map _ PColumns), eats_until_from. }
      hit "FROM". hit table. by apply (eats_clauses f order lim (MkSelect table (PColumns names))).
    + intros k _. destruct names as [|a [|b l]]; done.
Qed.

Lemma eats_column c : eats column_def (show_column c) c (λ k, k ≠ TWord "PRIMARY").
Proof.
  destruct c as [name ty key]. unfold column_def, show_column. cbn [c_name data_type primary_key].
  hit name. eapply (eats_seq _ _ [show_type ty]); [apply eats_word|].
  eapply (eats_seq _ _ []); [destruct ty; apply eats_ret|]. destruct key.
  - hit "PRIMARY". eapply (eats_seq _ _ [TWord "KEY"] []); [|yield].
    eapply (eats_seq _ _ [TWord "KEY"] []); [apply eats_expect_word|apply eats_ret].
  - miss. eapply (eats_seq _ _ [] []); [apply eats_ret|yield].
Qed.

Lemma eats_assignment a : eats assignment (show_assignment a) a anything.
Proof.
  destruct a as [c v]. unfold assignment, show_assignment. hit c. sym TEq.
  eapply (eats_seq _ _ [show_value v] []); [apply eats_literal|apply eats_ret].
Qed.

Lemma eats_create_table table columns :
  columns ≠ [] →
  eats create_table ([TWord table; TLeftParen] ++ show_commas show_column columns ++ [TRightParen])
    (SCreateTable table columns) anything.
Proof.
  intros Hc. unfold create_table. hit table. sym TLeftParen. cbn [app].
  eapply eats_bind; [apply (eats_comma_list _ _ _ (λ k, k ≠ TWord "PRIMARY") (λ k, k = TRightParen)); try done| |done].
  - intros a _. apply eats_column.
  - intros k ->. done.
  - sym TRightParen. apply eats_ret.
Qed.

Lemma eats_insert table columns values :
  columns ≠ [] → values ≠ [] →
  eats insert ([TWord table; TLeftParen] ++ show_names columns ++ [TRightParen; TWord "VALUES"; TLeftParen]
    ++ show_commas (λ v, [show_value v]) values ++ [TRightParen]) (SInsert table columns values) anything.
Proof.
  intros Hc Hv. unfold insert. hit table. sym TLeftParen. cbn [app].
  change (show_names columns ++ TRightParen :: ?l) with (show_names columns ++ [TRightParen] ++ l).
  rewrite app_assoc. eapply eats_seq; [by apply eats_identifier_list|]. hit "VALUES". sym TLeftParen.
  eapply eats_bind; [apply (eats_comma_list _ _ _ anything (λ k, k = TRightParen)); try done| |done].
  - intros a _. apply eats_literal.
  - intros k ->. done.
  - sym TRightParen. apply eats_ret.
Qed.

Lemma where_head f k : statement_end k → default k (head (show_where f)) = TWord "WHERE" ∨ statement_end (default k (head (show_where f))).
Proof. destruct f; cbn; auto. Qed.

Lemma eats_update table assignments f :
  assignments ≠ [] → filter_ok f →
  eats update ([TWord table; TWord "SET"] ++ show_commas show_assignment assignments ++ show_where f)
    (SUpdate table assignments f) statement_end.
Proof.
  intros Ha Hf. unfold update. hit table. hit "SET". cbn [app].
  eapply eats_bind; [apply (eats_comma_list _ _ _ anything (λ k, k ≠ TComma)); try done| |].
  - intros a _. apply eats_assignment.
  - rewrite <- (app_nil_r (show_where f)). eapply eats_bind; [by apply eats_where|yield|].
    intros k [->| ->]; unfold stops; cbn; by split_and!.
  - intros k Hk. destruct (where_head f k Hk) as [->|[->| ->]]; done.
Qed.

Lemma eats_delete table f :
  filter_ok f → eats delete ([TWord table] ++ show_where f) (SDelete table f) statement_end.
Proof.
  intros Hf. unfold delete. hit table. rewrite <- (app_nil_r (show_where f)).
  eapply eats_bind; [by apply eats_where|yield|]. intros k [->| ->]; unfold stops; cbn; by split_and!.
Qed.

Lemma eats_statement s : statement_ok s → eats statement (show_statement s) s statement_end.
Proof.
  intros Hs. unfold statement. destruct s as [table cs|table cs vs|s|table asg f|table f| | | |s];
    cbn [show_statement statement_ok] in *.
  - hit "CREATE". hit "TABLE". eapply eats_weaken; [apply eats_create_table, Hs|done].
  - miss. hit "INSERT". hit "INTO". eapply eats_weaken; [apply eats_insert; apply Hs|done].
  - do 2 miss. hit "SELECT". apply (eats_map _ SSelect), eats_select, Hs.
  - do 3 miss. hit "UPDATE". apply eats_update; apply Hs.
  - do 4 miss. hit "DELETE". hit "FROM". by apply eats_delete.
  - do 5 miss. hit "BEGIN". yield.
  - do 6 miss. hit "COMMIT". yield.
  - do 7 miss. hit "ROLLBACK". yield.
  - do 8 miss. hit "EXPLAIN". hit "SELECT". apply (eats_map _ SExplain), eats_select, Hs.
Qed.

(** ** Scripts *)

Lemma eats_at_end b : eats at_end [] b (λ k, b = bool_decide (k = TEnd)).
Proof.
  intros p k rest Ha ->. destruct (peek_ahead _ _ _ Ha) as (t & Hr & Hk). exists p. split; [|done].
  unfold at_end. erewrite M_bind_run by exact Hr. by rewrite Hk.
Qed.

(** No statement begins with a semicolon, or with the end. *)
Lemma show_statement_head s : ∃ w ks, show_statement s = TWord w :: ks.
Proof. destruct s; cbn; eauto. Qed.

Lemma eats_statements ss acc fuel :
  Forall statement_ok ss → length ss < fuel →
  eats (statements_loop fuel acc) (show_script ss) (acc ++ ss) (λ k, k = TEnd).
Proof.
  revert acc fuel. induction ss as [|s ss IH]; intros acc [|fuel] Hok Hf; cbn in Hf; try lia; cbn [statements_loop].
  - rewrite app_nil_r. eapply (eats_bind _ _ [] [] true); [apply eats_at_end|cbv iota; yield|].
    intros k ->. by rewrite bool_decide_true.
  - inversion Hok as [|? ? Hs Hss]; subst. destruct (show_statement_head s) as (w & ks & Hw).
    change (show_script (s :: ss)) with ((show_statement s ++ [TSemicolon]) ++ show_script ss).
    rewrite <- app_assoc. eapply (eats_bind _ _ [] _ false); [apply eats_at_end| |by rewrite Hw]. cbv iota.
    eapply (eats_bind _ _ [] _ false); [apply eats_no_simple| |by rewrite Hw]. cbv iota.
    eapply eats_bind; [by apply eats_statement| |by left].
    eapply (eats_seq _ _ [TSemicolon]); [apply eats_consume_simple|]. cbv iota.
    eapply (eats_seq _ _ []); [apply eats_ret|]. cbv iota.
    rewrite (app_assoc acc [s] ss : acc ++ s :: ss = (acc ++ [s]) ++ ss). apply IH; [done|lia].
Qed.

Lemma show_script_length ss : length ss ≤ length (show_script ss).
Proof.
  induction ss as [|s ss IH]; [done|].
  change (show_script (s :: ss)) with ((show_statement s ++ [TSemicolon]) ++ show_script ss).
  rewrite !length_app. cbn. lia.
Qed.

Lemma parse_tokens_show ts ss :
  t_kind <$> ts = show_script ss ++ [TEnd] → ss ≠ [] → Forall statement_ok ss → parse_tokens ts = Ok ss.
Proof.
  intros Hts Hne Hok. unfold parse_tokens. pose proof (show_script_length ss) as Hl.
  assert (length ts = S (length (show_script ss))) as Ht.
  { rewrite <- (length_fmap t_kind), Hts, length_app. cbn. lia. }
  destruct (eats_statements ss [] (S (length ts)) Hok ltac:(lia) (MkParser ts 0) TEnd []) as (p & Hr & _); [done..|].
  unfold fuelled. rewrite run_get. cbn [tokens] in *. rewrite Hr. by destruct ss.
Qed.
