(* ===== verification/SqlText.v ===== *)
(** The text of tokens, and that the lexer reads it back.

    [render] is part of the specification: every token followed by a space,
    integers in decimal, text quoted with its quotes doubled. *)

From S2P Require Import Prelude Bytes SqlAst SqlLexer SqlParser SqlTotal SqlPrint.
From Stdlib Require Import Ascii.

(** ** Rendering *)

Definition quote : u8 := "'"%char.
Definition space : u8 := " "%char.
Definition escape (bs : bytes) : bytes := bs ≫= λ b, if decide (b = quote) then [quote; quote] else [b].

Definition render_token (k : TokenKind) : bytes :=
  match k with
  | TWord w => as_bytes w
  | TInteger z => as_bytes (pretty z)
  | TString s => quote :: escape (as_bytes s) ++ [quote]
  | TComma => as_bytes "," | TLeftParen => as_bytes "(" | TRightParen => as_bytes ")"
  | TStar => as_bytes "*" | TSemicolon => as_bytes ";" | TEq => as_bytes "=" | TNe => as_bytes "!="
  | TLt => as_bytes "<" | TLe => as_bytes "<=" | TGt => as_bytes ">" | TGe => as_bytes ">="
  | TEnd => []
  end.

Definition render (ks : list TokenKind) : bytes := ks ≫= λ k, render_token k ++ [space].

(** A name the lexer can produce: an upper-case word. *)
Definition word_start (b : u8) : bool := is_alpha b || bool_decide (b = "_"%char).
Definition is_name (w : string) : bool :=
  match as_bytes w with
  | b :: bs => word_start b && forallb (λ b, is_word_byte b && bool_decide (upper b = b)) (b :: bs)
  | [] => false
  end.

Definition lexable (k : TokenKind) : Prop :=
  match k with
  | TWord w => is_name w = true
  | TInteger z => i64_range z
  | TString s => is_str s
  | TEnd => False
  | _ => True
  end.

(** ** Decimal text *)

Lemma decimal_snoc ds d : decimal (ds ++ [d]) = (10 * decimal ds + digit_value d)%Z.
Proof. unfold decimal. by rewrite foldl_app. Qed.

Lemma pretty_char_digit x :
  (x < 10)%N → is_digit (pretty_N_char x) = true ∧ digit_value (pretty_N_char x) = Z.of_N x.
Proof.
  intros Hx. assert (x = 0 ∨ x = 1 ∨ x = 2 ∨ x = 3 ∨ x = 4 ∨ x = 5 ∨ x = 6 ∨ x = 7 ∨ x = 8 ∨ x = 9)%N as Hin by lia.
  destruct_or! Hin; subst; vm_compute; by split.
Qed.

Lemma pretty_go_digits x s :
  ∃ ds, as_bytes (pretty_N_go x s) = ds ++ as_bytes s ∧ Forall (λ d, is_digit d = true) ds ∧
    decimal ds = Z.of_N x ∧ ((0 < x)%N → ds ≠ []).
Proof.
  revert s. induction x as [x IH] using (well_founded_induction N.lt_wf_0). intros s.
  destruct (decide (x = 0)%N) as [->|Hx].
  { exists []. by rewrite pretty_N_go_0. }
  rewrite pretty_N_go_step by lia.
  destruct (IH (x / 10)%N ltac:(apply N.div_lt; lia) (String (pretty_N_char (x mod 10)) s)) as (ds & Hb & Hd & Hn & _).
  pose proof (N.mod_lt x 10 ltac:(done)) as Hm. destruct (pretty_char_digit _ Hm) as [Hc Hv].
  exists (ds ++ [pretty_N_char (x mod 10)]). rewrite Hb, <- app_assoc. split_and!; [done| | |].
  - apply Forall_app. split; [done|by constructor].
  - rewrite decimal_snoc, Hn, Hv. pose proof (N.div_mod' x 10). lia.
  - intros _ He. apply (f_equal length) in He. rewrite length_app in He. cbn in He. lia.
Qed.

Lemma pretty_N_digits x :
  ∃ d ds, as_bytes (pretty x) = d :: ds ∧ Forall (λ d, is_digit d = true) (d :: ds) ∧ decimal (d :: ds) = Z.of_N x.
Proof.
  unfold pretty, pretty_N. case_decide as Hx.
  { subst. exists "0"%char, []. split; [done|]. split; [by repeat constructor|done]. }
  destruct (pretty_go_digits x "") as (ds & Hb & Hd & Hn & Hne). rewrite app_nil_r in Hb.
  destruct ds as [|d ds]; [by destruct Hne; [lia|]|]. by exists d, ds.
Qed.

Lemma digit_not_minus d : is_digit d = true → d ≠ "-"%char.
Proof. by intros ? ->. Qed.

Lemma pretty_Z_digits z :
  ∃ d ds, as_bytes (pretty z) = (if (z <? 0)%Z then ["-"%char] else []) ++ d :: ds ∧
    Forall (λ d, is_digit d = true) (d :: ds) ∧ decimal (d :: ds) = Z.abs z.
Proof.
  destruct z as [|p|p].
  - exists "0"%char, []. split_and!; [done| |done]. by repeat constructor.
  - apply (pretty_N_digits (Npos p)).
  - destruct (pretty_N_digits (Npos p)) as (d & ds & Hb & Hd & Hn). exists d, ds. split_and!; [|done..].
    change (pretty (Z.neg p)) with ("-" +:+ pretty (Npos p)). by rewrite as_bytes_app, Hb.
Qed.

(** ** Spans *)

Lemma span_app f bs b rest :
  Forall (λ c, f c = true) bs → f b = false → span f (bs ++ b :: rest) = (bs, b :: rest).
Proof.
  intros Hbs Hb. induction Hbs as [|c bs Hc Hbs IH]; cbn; [by rewrite Hb|]. by rewrite Hc, IH.
Qed.

(** ** Text literals *)

Lemma lex_string_char fuel pos b rest value :
  b ≠ quote → is_char_boundary [b] = true →
  lex_string (S fuel) pos (b :: rest) value =
  lex_string fuel pos (drop (char_len b) (b :: rest)) (value ++ take (char_len b) (b :: rest)).
Proof.
  intros Hb Hc. cbn [lex_string]. rewrite decide_False by done. unfold slice_from.
  change (is_char_boundary (b :: rest)) with (is_char_boundary [b]). by rewrite Hc.
Qed.

Lemma escape_app bs cs : escape (bs ++ cs) = escape bs ++ escape cs.
Proof. apply bind_app. Qed.

Lemma escape_same bs : Forall (λ b, b ≠ quote) bs → escape bs = bs.
Proof.
  induction 1 as [|b bs Hb _ IH]; [done|]. change (escape (b :: bs)) with (escape ([b] ++ bs)).
  rewrite escape_app, IH. cbn. by rewrite decide_False.
Qed.

(** The first character of a valid string is whole, and no byte of it is a
    quote unless it is the quote. *)
Lemma utf8_step b r :
  utf8_valid (b :: r) = true → b ≠ quote →
  char_len b ≤ S (length r) ∧ utf8_valid (drop (char_len b) (b :: r)) = true ∧
  Forall (λ c, c ≠ quote) (take (char_len b) (b :: r)).
Proof.
  intros Hv Hb. assert (∀ lo hi c, (128 ≤ lo)%Z → in_range lo hi c = true → c ≠ quote) as Hq.
  { intros lo hi c Hlo Hc ->. unfold in_range in Hc. zify_bools. vm_compute u8_val in *. lia. }
  unfold char_len. cbn [utf8_valid] in Hv. destruct (in_range 0 127 b) eqn:H0.
  { unfold in_range in H0. zify_bools. rewrite (proj2 (Z.ltb_lt _ _)) by lia. cbn. split_and!; [lia|done|].
    by repeat constructor. }
  unfold in_range in H0. pose proof (u8_val_range b) as Hr.
  assert (128 ≤ u8_val b)%Z as Hlo.
  { apply andb_false_iff in H0 as [H0|H0]; zify_bools; lia. }
  rewrite (proj2 (Z.ltb_ge _ _)) by lia. destruct r as [|b1 r]; [done|].
  destruct (in_range 194 223 b) eqn:H1.
  { apply andb_true_iff in Hv as [Hb1 Hv]. unfold in_range in H1. zify_bools.
    rewrite (proj2 (Z.ltb_lt _ _)) by lia. cbn. split_and!; [lia|done|].
    repeat constructor; [done|]. by eapply Hq; [|exact Hb1]. }
  destruct r as [|b2 r]; [done|]. destruct (in_range 224 239 b) eqn:H2.
  { apply andb_true_iff in Hv as [Hv' Hv]. apply andb_true_iff in Hv' as [Hb1 Hb2]. unfold in_range in H2. zify_bools.
    rewrite (proj2 (Z.ltb_ge _ 224)), (proj2 (Z.ltb_lt _ _)) by lia. cbn. split_and!; [lia|done|].
    repeat constructor; [done| |by eapply Hq; [|exact Hb2]].
    repeat case_match; by eapply Hq; [|exact Hb1]. }
  destruct r as [|b3 r]; [done|]. destruct (in_range 240 244 b) eqn:H3; [|done].
  apply andb_true_iff in Hv as [Hv' Hv]. apply andb_true_iff in Hv' as [Hv' Hb3].
  apply andb_true_iff in Hv' as [Hb1 Hb2]. unfold in_range in H3. zify_bools.
  rewrite (proj2 (Z.ltb_ge _ 224)), (proj2 (Z.ltb_ge _ 240)) by lia. cbn. split_and!; [lia|done|].
  repeat constructor; [done| |by eapply Hq; [|exact Hb2]|by eapply Hq; [|exact Hb3]].
  repeat case_match; by eapply Hq; [|exact Hb1].
Qed.

Lemma utf8_char b r :
  utf8_valid (b :: r) = true → b ≠ quote →
  ∃ t r', r = t ++ r' ∧ length (b :: t) = char_len b ∧ utf8_valid r' = true ∧ Forall (λ c, c ≠ quote) (b :: t).
Proof.
  intros Hv Hb. destruct (utf8_step b r Hv Hb) as (Hl & Hv' & Hq).
  destruct (char_len b) as [|n] eqn:Hn; [unfold char_len in Hn; repeat case_match; lia|].
  exists (take n r), (drop n r). cbn [drop take] in *. split_and!; [by rewrite take_drop| |done|done].
  cbn [length]. rewrite length_take. lia.
Qed.

Lemma lex_string_escape fuel pos bs b rest value :
  utf8_valid bs = true → b ≠ quote → length (escape bs) < fuel →
  lex_string fuel pos (escape bs ++ quote :: b :: rest) value = Ok (value ++ bs, b :: rest).
Proof.
  revert fuel value. induction bs as [bs IH] using (induction_ltof1 _ (@length u8)).
  intros [|fuel] value Hv Hb Hf; [lia|]. destruct bs as [|c r].
  { cbn [app escape mbind list_bind lex_string]. rewrite decide_True by done. rewrite decide_False by done.
    by rewrite app_nil_r. }
  destruct (decide (c = quote)) as [->|Hc].
  - change (escape (quote :: r)) with (quote :: quote :: escape r) in *. cbn [app lex_string length] in *.
    rewrite !decide_True by done. rewrite IH; [by rewrite <- app_assoc|unfold ltof; cbn; lia|done|done|lia].
  - destruct (utf8_char c r Hv Hc) as (t & r' & -> & Hl & Hv' & Hq).
    change (c :: t ++ r') with ((c :: t) ++ r') in *. rewrite escape_app, (escape_same _ Hq) in *.
    rewrite <- app_assoc. cbn [app]. rewrite lex_string_char by (done || by apply (boundary_valid _ Hv)).
    change (c :: t ++ ?x) with ((c :: t) ++ x). rewrite <- Hl.
    rewrite take_app_length, drop_app_length, IH; [by rewrite <- app_assoc| |done|done|].
    + unfold ltof. rewrite length_app. cbn. lia.
    + rewrite length_app in Hf. cbn in Hf. lia.
Qed.

(** ** Single tokens *)

(** The bytes that begin words, numbers and symbols differ. *)
Lemma lex_token_word pos b r :
  word_start b = true →
  lex_token pos b r = (let '(word, ahead) := span is_word_byte r in
    text ← slice (b :: word) ahead; Ok (TWord (to_ascii_uppercase text), ahead)).
Proof.
  intros Hb. unfold lex_token. repeat (rewrite decide_False by (by intros ->)).
  rewrite !(bool_decide_false (b = _)) by (by intros ->).
  assert (is_digit b = false) as ->.
  { destruct (is_digit b) eqn:Hd; [|done]. exfalso. unfold word_start, is_alpha, is_digit, in_range in *.
    apply orb_true_iff in Hb as [Hb|Hb]; [apply orb_true_iff in Hb as [Hb|Hb]|]; zify_bools; try lia.
    subst b. vm_compute u8_val in *. lia. }
  cbn [andb orb negb]. unfold word_start in Hb. apply orb_true_iff in Hb as [->|Hb]; [done|].
  zify_bools. by subst b.
Qed.

Lemma lex_token_number pos b r :
  is_digit b = true ∨ b = "-"%char ∧ (∃ d r', r = d :: r' ∧ is_digit d = true) →
  lex_token pos b r = (let '(digits, ahead) := span is_digit r in
    text ← slice (b :: digits) ahead;
    match parse_i64 text with
    | Some value => Ok (TInteger value, ahead)
    | None => Err (error pos "integer literal out of range")
    end).
Proof.
  intros Hb. unfold lex_token.
  assert (∀ c, is_digit c = false → c ≠ "-"%char → b ≠ c) as Hne.
  { intros c Hc Hm ->. destruct Hb as [Hb|[-> _]]; [by rewrite Hb in Hc|done]. }
  repeat (rewrite decide_False by (by apply Hne)).
  rewrite (bool_decide_false (b = "!"%char)), (bool_decide_false (b = "<"%char)), (bool_decide_false (b = ">"%char))
    by (by apply Hne).
  cbn [andb]. destruct Hb as [Hb|[-> (d & r' & -> & Hd)]].
  - by rewrite (bool_decide_false (b = "-"%char)), Hb by (by apply digit_not_minus).
  - cbn [bool_decide orb]. rewrite Hd, andb_false_r. done.
Qed.

Lemma slice_to_space b piece rest : is_word_byte b = true ∨ b = "-"%char → slice (b :: piece) (space :: rest) = Ok (b :: piece).
Proof.
  intros Hb. unfold slice. rewrite andb_true_r. assert (is_ascii b = true) as Ha by (destruct Hb as [Hb| ->]; [by apply word_byte_ascii|done]).
  change (is_char_boundary ((b :: piece) ++ space :: rest)) with (is_char_boundary [b]).
  rewrite boundary_valid; [done|]. apply whole_valid. by apply whole_ascii.
Qed.

Lemma to_ascii_uppercase_fixed bs : Forall (λ b, upper b = b) bs → to_ascii_uppercase bs = of_bytes bs.
Proof. intros H. unfold to_ascii_uppercase. f_equal. induction H as [|b bs Hb _ IH]; [done|]. cbn. by rewrite Hb, IH. Qed.

Lemma parse_i64_pretty z : i64_range z → parse_i64 (as_bytes (pretty z)) = Some z.
Proof.
  intros [Hlo Hhi]. destruct (pretty_Z_digits z) as (d & ds & -> & Hd & Hn). inversion Hd as [|? ? Hd1 _]; subst.
  unfold parse_i64. destruct (z <? 0)%Z eqn:Hz; zify_bools; cbn [app].
  - rewrite decide_True by done. rewrite Hn.
    rewrite (proj2 (Z.leb_le _ _)), (proj2 (Z.leb_le _ I64_MAX)) by lia. cbn. f_equal. lia.
  - rewrite decide_False by (by apply digit_not_minus). rewrite Hn.
    rewrite (proj2 (Z.leb_le _ _)), (proj2 (Z.leb_le _ I64_MAX)) by lia. cbn. f_equal. lia.
Qed.

Lemma render_token_cons k : lexable k → ∃ b r, render_token k = b :: r ∧ is_whitespace b = false.
Proof.
  destruct k as [w|z|s| | | | | | | | | | | |]; cbn; intros Hk; [..|done]; try (by eexists _, _); [|].
  - unfold is_name in Hk. destruct (as_bytes w) as [|b bs]; [done|]. exists b, bs. split; [done|].
    apply andb_true_iff in Hk as [Hb _]. destruct (is_whitespace b) eqn:Hw; [|done].
    exfalso. unfold is_whitespace in Hw. apply existsb_exists in Hw as (n & Hin & Hn). zify_bools.
    unfold word_start, is_alpha, in_range in Hb. cbn in Hin.
    apply orb_true_iff in Hb as [Hb|Hb]; [apply orb_true_iff in Hb as [Hb|Hb]|]; zify_bools; [lia..|].
    subst b. vm_compute u8_val in *. lia.
  - destruct (pretty_Z_digits z) as (d & ds & -> & Hd & _). destruct (z <? 0)%Z; [by eexists _, _|].
    exists d, ds. split; [done|]. inversion Hd as [|? ? Hd1 _]; subst. destruct (is_whitespace d) eqn:Hw; [|done].
    exfalso. unfold is_whitespace in Hw. apply existsb_exists in Hw as (n & Hin & Hn). zify_bools.
    unfold is_digit, in_range in Hd1. zify_bools. cbn in Hin. lia.
Qed.

(** The lexer reads the first token of a text, up to its space. *)
Lemma lex_token_render pos k b r rest :
  lexable k → render_token k = b :: r → lex_token pos b (r ++ space :: rest) = Ok (k, space :: rest).
Proof.
  destruct k as [w|z|s| | | | | | | | | | | |]; cbn [lexable render_token]; intros Hk Hr;
    try (injection Hr as <- <-; reflexivity); [| | |done].
  - unfold is_name in Hk. rewrite Hr in Hk. apply andb_true_iff in Hk as [Hb Hbs].
    rewrite lex_token_word by done.
    assert (Forall (λ b, is_word_byte b = true ∧ upper b = b) (b :: r)) as Hall.
    { apply Forall_forall. intros c Hc. apply forallb_forall with (x := c) in Hbs; [|by apply list_elem_of_In].
      apply andb_true_iff in Hbs as [? ?]. zify_bools. done. }
    apply Forall_and in Hall as [Hw Hu]. inversion Hw; subst.
    rewrite span_app by done. rewrite slice_to_space by (by left). cbn [mbind result_bind].
    rewrite to_ascii_uppercase_fixed by done. by rewrite <- Hr, of_as_bytes.
  - destruct (pretty_Z_digits z) as (d & ds & Hp & Hd & _). pose proof (parse_i64_pretty z Hk) as Hparse.
    rewrite Hr in Hp. inversion Hd as [|? ? Hd1 Hds]; subst. destruct (z <? 0)%Z; cbn in Hp; injection Hp as -> ->.
    + rewrite lex_token_number by (right; split; [done|]; by eexists _, _).
      rewrite (span_app is_digit (d :: ds)) by done. rewrite slice_to_space by (by right). cbn [mbind result_bind]. by rewrite <- Hr, Hparse.
    + rewrite lex_token_number by (by left). rewrite span_app by done.
      rewrite slice_to_space by (left; by apply digit_word). cbn [mbind result_bind]. by rewrite <- Hr, Hparse.
  - injection Hr as <- <-. unfold lex_token. cbn -[lex_string]. rewrite <- app_assoc. cbn [app].
    rewrite lex_string_escape; [|done|done|rewrite !length_app; cbn; lia]. cbn. by rewrite of_as_bytes.
Qed.

Lemma lex_loop_render ks fuel pos acc :
  Forall lexable ks → length (render ks) ≤ fuel →
  ∃ ts, lex_loop fuel pos (render ks) acc = Ok (acc ++ ts) ∧ t_kind <$> ts = ks ++ [TEnd].
Proof.
  intros Hks. revert fuel pos acc. induction Hks as [|k ks Hk Hks IH]; intros fuel pos acc Hf.
  { exists [MkToken TEnd pos]. by destruct fuel. }
  destruct (render_token_cons k Hk) as (b & r & Hr & Hw).
  assert (render (k :: ks) = b :: r ++ space :: render ks) as Heq.
  { change (render (k :: ks)) with ((render_token k ++ [space]) ++ render ks). by rewrite Hr, <- app_assoc. }
  rewrite Heq in Hf |- *. cbn in Hf. rewrite length_app in Hf. cbn in Hf. destruct fuel as [|[|fuel]]; [lia..|].
  cbn [lex_loop]. rewrite Hw, (lex_token_render pos k b r _ Hk Hr). cbn [mbind result_bind].
  change (is_whitespace space) with true. cbv iota.
  destruct (IH fuel (S (pos + (length (b :: r ++ space :: render ks) - length (space :: render ks))))
    (acc ++ [MkToken k pos])) as (ts & Hl & Hts); [lia|].
  exists (MkToken k pos :: ts). rewrite Hl, <- app_assoc. split; [done|]. cbn. by rewrite Hts.
Qed.

Lemma lex_render ks :
  Forall lexable ks → ∃ ts, lex (of_bytes (render ks)) = Ok ts ∧ t_kind <$> ts = ks ++ [TEnd].
Proof.
  intros Hks. unfold lex. rewrite as_of_bytes. by destruct (lex_loop_render ks _ 0 [] Hks (le_n _)) as (ts & ? & ?); eauto.
Qed.

(** ** The round trip *)

(** The text of a script: its statements, each with its semicolon. *)
Definition script_text (ss : list Statement) : string := of_bytes (render (show_script ss)).

(** C26. Parsing inverts printing: the text of any script whose statements the
    grammar can express ([statement_ok]: lists where it wants them, non-negative
    limits, no column named like a constant inside an expression) and whose names,
    integers and texts are the lexer's ([lexable]) is lexed and parsed back to
    exactly that script.  The text has parentheses only where precedence needs
    them, so the grouping of AND, OR and the comparisons is part of what is shown. *)
Theorem parse_inverts_printing ss :
  ss ≠ [] → Forall statement_ok ss → Forall lexable (show_script ss) →
  parse (script_text ss) = Ok ss.
Proof.
  intros Hne Hok Hlex. destruct (lex_render _ Hlex) as (ts & Hl & Hts).
  unfold parse, script_text. rewrite Hl. by apply parse_tokens_show.
Qed.

Definition sample_script : list Statement :=
  [SCreateTable "ITEMS" [MkColumn "ID" DInteger true; MkColumn "NAME" DText false];
   SInsert "ITEMS" ["ID"; "NAME"] [VInteger (-42); VText "it's; 'é' -- x"];
   SSelect (MkSelect "ITEMS" (PColumns ["NAME"; "ID"])
     (Some (EBinary OAnd
        (EBinary OOr (EBinary OEq (EColumn "ID") (ELiteral (VInteger 0)))
                     (EBinary OGe (EColumn "ID") (ELiteral (VInteger 7))))
        (EBinary ONe (EBinary OLt (EColumn "ID") (EColumn "AND")) (ELiteral (VBoolean false)))))
     (Some ("NAME", false)) (Some 3%Z));
   SDelete "ITEMS" None].

Example sample_text : script_text sample_script =
  "CREATE TABLE ITEMS ( ID INT PRIMARY KEY , NAME TEXT ) ; INSERT INTO ITEMS ( ID , NAME ) VALUES ( -42 , 'it''s; ''é'' -- x' ) ; SELECT NAME , ID FROM ITEMS WHERE ( ID = 0 OR ID >= 7 ) AND ( ID < AND ) != FALSE ORDER BY NAME DESC LIMIT 3 ; DELETE FROM ITEMS ; "%string.
Proof. vm_compute. reflexivity. Qed.

Lemma parse_inverts_printing_witness :
  sample_script ≠ [] ∧ Forall statement_ok sample_script ∧ Forall lexable (show_script sample_script) ∧
  parse (script_text sample_script) = Ok sample_script.
Proof.
  assert (sample_script ≠ []) as H1 by done.
  assert (Forall statement_ok sample_script) as H2.
  { repeat constructor; cbn; try done; try lia; intros [= ?]; done. }
  assert (Forall lexable (show_script sample_script)) as H3.
  { cbn [show_script sample_script mbind list_bind show_statement app show_commas show_column show_select].
    repeat constructor; vm_compute; done. }
  exact (conj H1 (conj H2 (conj H3 (parse_inverts_printing sample_script H1 H2 H3)))).
Defined.
