(* ===== verification/Catalog.v ===== *)
(** The catalog: src/src/catalog.rs.

    Table schemas and rows as ordinary keys and values.  The part that reads
    and writes them through a transaction is in Executor.v; here are the
    schema's own checks, the keys and the codecs.  [String]s are cut into their
    bytes to be split and joined. *)

From S2P Require Import Prelude Bytes SqlAst.
From Stdlib Require Import Ascii.

Definition CATALOG_PREFIX : string := "__CATALOG:".
Definition ROW_PREFIX : string := "__ROW:".

Record Schema : Type := MkSchema { s_name : string; columns : list ColumnDef }.

(** [Iterator::position]. *)
Fixpoint position {A} (f : A → bool) (l : list A) : option nat :=
  match l with
  | [] => None
  | a :: l => if f a then Some 0 else S <$> position f l
  end.

(** [for (index, column) in columns { if columns[..index].any(..) .. }] *)
Fixpoint check_names (earlier rest : list ColumnDef) : io unit :=
  match rest with
  | [] => Ok tt
  | c :: rest =>
    if existsb (λ e, bool_decide (c_name e = c_name c)) earlier
    then Err (invalid_input "catalog: duplicate column")
    else check_names (earlier ++ [c]) rest
  end.

Definition validate (s : Schema) : io unit :=
  match columns s with
  | [] => Err (invalid_input "catalog: table needs at least one column")
  | cs =>
    if negb (length (List.filter primary_key cs) =? 1)
    then Err (invalid_input "catalog: table needs exactly one primary key")
    else check_names [] cs
  end.

(** [position(..).expect("validated schema")] *)
Definition primary_index (s : Schema) : io nat :=
  match position primary_key (columns s) with Some i => Ok i | None => Panic "validated schema" end.
Definition column_index (s : Schema) (name : string) : option nat :=
  position (λ c, bool_decide (c_name c = name)) (columns s).

Definition catalog_key (table : string) : string := CATALOG_PREFIX +:+ table.
Definition row_prefix (table : string) : string := ROW_PREFIX +:+ table +:+ ":".

Definition check_type (v : Value) (ty : DataType) : io unit :=
  match v, ty with
  | VNull, _ | VInteger _, DInteger | VText _, DText | VBoolean _, DBoolean => Ok tt
  | _, _ => Err (invalid_input "sql: value has the wrong column type")
  end.

(** ** Values as bytes *)

(** [i64::to_le_bytes], [from_le_bytes]: two's complement. *)
Definition i64_le (z : Z) : bytes := u64_le (z mod 2 ^ 64).
Definition i64_of_le (bs : bytes) : Z :=
  let u := from_le_bytes bs in if (u <? 2 ^ 63)%Z then u else (u - 2 ^ 64)%Z.

Definition encode_value (v : Value) : bytes :=
  match v with
  | VNull => ["N"%char]
  | VInteger z => "I"%char :: i64_le z
  | VText s => "T"%char :: as_bytes s
  | VBoolean b => ["B"%char; to_u8 (if b then 1 else 0)]
  end.

Definition invalid (msg : string) : io_error := IoError InvalidData msg.
Definition malformed : io Value := Err (invalid "catalog: malformed row value").

Definition decode_value (bs : bytes) : io Value :=
  match bs with
  | [] => malformed
  | tag :: r =>
    if bool_decide (tag = "N"%char) && (length bs =? 1) then Ok VNull else
    if bool_decide (tag = "I"%char) && (length bs =? 9) then Ok (VInteger (i64_of_le (take 8 r))) else
    if bool_decide (tag = "T"%char) then
      s ← from_utf8 r (invalid "catalog: row text is not UTF-8"); Ok (VText s) else
    match r with
    | [b] => if bool_decide (tag = "B"%char) && (u8_val b <=? 1)%Z
             then Ok (VBoolean (u8_val b =? 1)%Z) else malformed
    | _ => malformed
    end
  end.

(** ** Hexadecimal *)

Definition DIGITS : bytes := as_bytes "0123456789abcdef".
Definition hex_byte (b : u8) : bytes :=
  [nth (Z.to_nat (Z.shiftr (u8_val b) 4)) DIGITS "0"%char;
   nth (Z.to_nat (Z.land (u8_val b) 0x0F)) DIGITS "0"%char].
Definition hex (bs : bytes) : bytes := bs ≫= hex_byte.

Definition digit (b : u8) : io Z :=
  if in_range 48 57 b then Ok (u8_val b - 48)%Z else
  if in_range 97 102 b then Ok (u8_val b - 97 + 10)%Z else
  Err (invalid "catalog: invalid hex").

(** [chunks_exact(2)], of a slice of even length. *)
Fixpoint pairs (bs : bytes) : list (u8 * u8) :=
  match bs with a :: b :: r => (a, b) :: pairs r | _ => [] end.

Definition unhex_pair (p : u8 * u8) : io u8 :=
  high ← digit p.1; low ← digit p.2; Ok (to_u8 (Z.lor (Z.shiftl high 4) low)).
Definition unhex (bs : bytes) : io bytes :=
  if negb (length bs mod 2 =? 0) then Err (invalid "catalog: odd hex length")
  else try_map unhex_pair (pairs bs).

(** ** Splitting and joining *)

(** [str::split] at a byte: at least one piece. *)
Fixpoint split_on (sep : u8) (bs : bytes) : list bytes :=
  match bs with
  | [] => [[]]
  | b :: r =>
    if decide (b = sep) then [] :: split_on sep r else
    match split_on sep r with p :: ps => (b :: p) :: ps | [] => [[b]] end
  end.

(** [<[String]>::join] with a byte. *)
Fixpoint join (sep : u8) (ps : list bytes) : bytes :=
  match ps with
  | [] => []
  | [p] => p
  | p :: ps => p ++ sep :: join sep ps
  end.

(** [str::lines]: a carriage return before the newline goes with it, and what
    follows the last newline is a line when it is not empty. *)
Definition NEWLINE : u8 := "010"%char.
Definition RETURN : u8 := "013"%char.
Fixpoint strip_return (line : bytes) : bytes :=
  match line with
  | [] => []
  | [b] => if decide (b = RETURN) then [] else [b]
  | b :: r => b :: strip_return r
  end.
Fixpoint lines_of (ps : list bytes) : list bytes :=
  match ps with
  | [] | [[]] => []
  | [p] => [p]
  | p :: ps => strip_return p :: lines_of ps
  end.
Definition lines (bs : bytes) : list bytes := lines_of (split_on NEWLINE bs).

(** ** Rows *)

Definition encode_row (row : list Value) : string :=
  of_bytes (join ":"%char (hex ∘ encode_value <$> row)).

Fixpoint check_row (row : list Value) (cs : list ColumnDef) : io unit :=
  match row, cs with
  | v :: row, c :: cs => _ ← check_type v (data_type c); check_row row cs
  | _, _ => Ok tt
  end.

Definition decode_row (encoded : string) (s : Schema) : io (list Value) :=
  values ← try_map (λ part, bs ← unhex part; decode_value bs) (split_on ":"%char (as_bytes encoded));
  if negb (length values =? length (columns s)) then Err (invalid "catalog: row column count mismatch") else
  _ ← check_row values (columns s);
  Ok values.

(** [schema.columns[schema.primary_index()]] *)
Definition primary_column (s : Schema) : io ColumnDef :=
  i ← primary_index s; index (columns s) i.

Definition row_key_for_primary (s : Schema) (primary : Value) : io string :=
  if decide (primary = VNull) then Err (invalid_input "sql: primary key cannot be NULL") else
  c ← primary_column s;
  _ ← check_type primary (data_type c);
  Ok (row_prefix (s_name s) +:+ of_bytes (hex (encode_value primary))).

Definition row_key (s : Schema) (row : list Value) : io string :=
  i ← primary_index s;
  primary ← ok_or (row !! i) (invalid_input "sql: row does not match schema");
  if decide (primary = VNull) then Err (invalid_input "sql: primary key cannot be NULL") else
  row_key_for_primary s primary.

(** ** Schemas *)

Definition encode_column (c : ColumnDef) : bytes :=
  as_bytes (c_name c) ++ "|"%char
  :: (match data_type c with DInteger => ["I"%char] | DText => ["T"%char] | DBoolean => ["B"%char] end)
  ++ "|"%char :: (if primary_key c then ["1"%char] else ["0"%char]).
Definition encode_schema (s : Schema) : string :=
  of_bytes (join NEWLINE (encode_column <$> columns s)).

Definition decode_type (field : bytes) : io DataType :=
  if decide (field = ["I"%char]) then Ok DInteger else
  if decide (field = ["T"%char]) then Ok DText else
  if decide (field = ["B"%char]) then Ok DBoolean else
  Err (invalid "catalog: unknown column type").
Definition decode_flag (field : bytes) : io bool :=
  if decide (field = ["0"%char]) then Ok false else
  if decide (field = ["1"%char]) then Ok true else
  Err (invalid "catalog: malformed primary-key flag").

Definition decode_column (line : bytes) : io ColumnDef :=
  match split_on "|"%char line with
  | [name; kind; flag] =>
    ty ← decode_type kind; key ← decode_flag flag; Ok (MkColumn (of_bytes name) ty key)
  | _ => Err (invalid "catalog: malformed schema")
  end.

Definition decode_schema (name : string) (encoded : string) : io Schema :=
  cs ← try_map decode_column (lines (as_bytes encoded));
  let s := MkSchema name cs in
  _ ← validate s;
  Ok s.

(** The bytes on disk for a row and a schema. *)
Definition sample_schema : Schema :=
  MkSchema "T" [MkColumn "ID" DInteger true; MkColumn "NAME" DText false].
Example encode_row_sample : encode_row [VInteger (-2); VText "a:"; VNull; VBoolean true]
  = "49feffffffffffffff:54613a:4e:4201"%string.
Proof. vm_compute. reflexivity. Qed.
Example decode_row_sample :
  decode_row "49feffffffffffffff:54613a" sample_schema = Ok [VInteger (-2); VText "a:"] ∧
  decode_row "49feffffffffffffff" sample_schema = Err (invalid "catalog: row column count mismatch") ∧
  decode_row "49feffffffffffffff:4201" sample_schema = Err (invalid_input "sql: value has the wrong column type").
Proof. vm_compute. split_and!; reflexivity. Qed.
Example schema_sample :
  decode_schema "T" (encode_schema sample_schema) = Ok sample_schema ∧
  decode_schema "T" "" = Err (invalid_input "catalog: table needs at least one column").
Proof. vm_compute. split; reflexivity. Qed.
