(* ===== verification/CatalogSpec.v ===== *)
(** The catalog's codecs.

    Rows and schemas are read back exactly as they were written, and a stored
    row is the encoding of what it is read as: [decode_row] accepts nothing else.
    The keys of rows are apart for different tables and different primary
    values. *)

From S2P Require Import Prelude Bytes SqlAst Catalog.
From Stdlib Require Import Ascii.

(** ** Pieces *)

Lemma split_join sep ps :
  ps ≠ [] → Forall (λ p, sep ∉ p) ps → split_on sep (join sep ps) = ps.
Proof.
  intros Hne Hps.
  assert (∀ p, sep ∉ p → split_on sep p = [p]) as Hone.
  { induction p as [|b p IH]; intros Hp; cbn; [done|].
    rewrite decide_False by (intros ->; apply Hp; left). rewrite IH; [done|]. intros Hin. apply Hp. by right. }
  assert (∀ p rest, sep ∉ p → split_on sep (p ++ sep :: rest) = p :: split_on sep rest) as Happ.
  { induction p as [|b p IH]; intros rest Hp; cbn; [by rewrite decide_True|].
    rewrite decide_False by (intros ->; apply Hp; left). rewrite IH; [done|]. intros Hin. apply Hp. by right. }
  induction Hps as [|p ps Hp Hps IH]; [done|]. destruct ps as [|q ps]; [by apply Hone|].
  change (join sep (p :: q :: ps)) with (p ++ sep :: join sep (q :: ps)). by rewrite Happ, IH.
Qed.

Lemma join_split sep bs : join sep (split_on sep bs) = bs.
Proof.
  induction bs as [|b bs IH]; [done|]. cbn [split_on].
  assert (∃ p ps, split_on sep bs = p :: ps) as (p & ps & Hs).
  { destruct bs; cbn; [by eexists _, _|]. repeat case_match; by eexists _, _. }
  rewrite Hs in IH |- *. case_decide as Hb.
  - rewrite Hb. change (join sep ([] :: p :: ps)) with (sep :: join sep (p :: ps)). by rewrite IH.
  - rewrite <- IH. by destruct ps.
Qed.

Lemma split_nonempty sep bs : split_on sep bs ≠ [].
Proof. destruct bs; cbn; [done|]. repeat case_match; done. Qed.

Lemma split_lacks sep bs : Forall (λ p, sep ∉ p) (split_on sep bs).
Proof.
  induction bs as [|b bs IH]; cbn; [constructor; [apply not_elem_of_nil|constructor]|].
  case_decide as Hb; [constructor; [apply not_elem_of_nil|done]|].
  destruct (split_on sep bs) as [|p ps].
  - repeat constructor. rewrite list_elem_of_singleton. congruence.
  - inversion IH; subst. constructor; [|done]. rewrite not_elem_of_cons. naive_solver.
Qed.

(** ** Hexadecimal *)

Definition ascii (bs : bytes) : Prop := Forall (λ b, in_range 0 127 b = true) bs.

Lemma ascii_valid bs : ascii bs → utf8_valid bs = true.
Proof. induction 1 as [|b bs Hb _ IH]; [done|]. cbn. by rewrite Hb. Qed.
Lemma ascii_join sep ws : in_range 0 127 sep = true → Forall ascii ws → ascii (join sep ws).
Proof.
  intros Hs Hws. induction Hws as [|w ws Hw _ IH]; [constructor|]. destruct ws as [|w' ws]; [done|].
  change (join sep (w :: w' :: ws)) with (w ++ sep :: join sep (w' :: ws)).
  apply Forall_app. split; [done|by constructor].
Qed.

Lemma hex_pair b : unhex_pair (nth (Z.to_nat (Z.shiftr (u8_val b) 4)) DIGITS "0"%char,
  nth (Z.to_nat (Z.land (u8_val b) 0x0F)) DIGITS "0"%char) = Ok b.
Proof. destruct b as [[] [] [] [] [] [] [] []]; vm_compute; reflexivity. Qed.

Lemma hex_cons b bs : hex (b :: bs) = hex_byte b ++ hex bs.
Proof. done. Qed.

Lemma length_hex bs : length (hex bs) = 2 * length bs.
Proof. induction bs as [|b bs IH]; [done|]. rewrite hex_cons, length_app, IH. cbn. lia. Qed.

Lemma unhex_hex bs : unhex (hex bs) = Ok bs.
Proof.
  unfold unhex. rewrite length_hex, Nat.mul_comm, Nat.Div0.mod_mul. cbn [Nat.eqb negb].
  induction bs as [|b bs IH]; [done|]. rewrite hex_cons.
  change (pairs (hex_byte b ++ hex bs)) with
    ((nth (Z.to_nat (Z.shiftr (u8_val b) 4)) DIGITS "0"%char, nth (Z.to_nat (Z.land (u8_val b) 0x0F)) DIGITS "0"%char)
     :: pairs (hex bs)).
  cbn [try_map]. rewrite hex_pair. cbn [mbind result_bind]. by rewrite IH.
Qed.

Lemma digit_lower c v : digit c = Ok v → (0 ≤ v < 16)%Z ∧ nth (Z.to_nat v) DIGITS "0"%char = c.
Proof. destruct c as [[] [] [] [] [] [] [] []]; vm_compute; intros [= <-]; split; done. Qed.

Lemma hex_nibbles hi lo :
  (0 ≤ hi < 16)%Z → (0 ≤ lo < 16)%Z →
  hex_byte (to_u8 (Z.lor (Z.shiftl hi 4) lo)) = [nth (Z.to_nat hi) DIGITS "0"%char; nth (Z.to_nat lo) DIGITS "0"%char].
Proof.
  intros Hhi Hlo.
  assert (forallb (λ hi, forallb (λ lo, bool_decide (hex_byte (to_u8 (Z.lor (Z.shiftl hi 4) lo))
    = [nth (Z.to_nat hi) DIGITS "0"%char; nth (Z.to_nat lo) DIGITS "0"%char])) (seqZ 0 16)) (seqZ 0 16) = true) as Hall
    by (vm_compute; reflexivity).
  rewrite forallb_forall in Hall. specialize (Hall hi ltac:(apply list_elem_of_In, elem_of_seqZ; lia)).
  rewrite forallb_forall in Hall. specialize (Hall lo ltac:(apply list_elem_of_In, elem_of_seqZ; lia)).
  by apply bool_decide_eq_true in Hall.
Qed.

Lemma unhex_pair_inv a c b : unhex_pair (a, c) = Ok b → hex_byte b = [a; c].
Proof.
  unfold unhex_pair. cbn [fst snd]. intros (hi & Ha & (lo & Hc & Hb)%bind_ok)%bind_ok. apply ok_inj in Hb as <-.
  apply digit_lower in Ha as [Hhi <-], Hc as [Hlo <-]. by apply hex_nibbles.
Qed.

Lemma hex_unhex s bs : unhex s = Ok bs → s = hex bs.
Proof.
  unfold unhex. case_match eqn:He; [done|]. apply negb_false_iff, Nat.eqb_eq in He.
  revert bs. induction s as [s IH] using (induction_ltof1 _ (@length u8)). intros bs.
  destruct s as [|a [|c s]]; [by intros [= <-]|by cbn in He|].
  cbn [pairs try_map]. intros (b & Hp & (bs' & Hr & Hb)%bind_ok)%bind_ok. apply ok_inj in Hb as <-.
  rewrite hex_cons, (unhex_pair_inv _ _ _ Hp). cbn [app]. do 2 f_equal. apply IH; [unfold ltof; cbn; lia| |done].
  cbn [length] in He. replace (S (S (length s))) with (length s + 1 * 2) in He by lia.
  by rewrite Nat.Div0.mod_add in He.
Qed.

Lemma hex_inj bs cs : hex bs = hex cs → bs = cs.
Proof. intros H. apply (f_equal unhex) in H. rewrite !unhex_hex in H. by apply ok_inj in H. Qed.

Lemma hex_digits_only bs c : c ∈ hex bs → is_Some (match digit c with Ok v => Some v | _ => None end).
Proof.
  induction bs as [|b bs IH]; [by intros ?%elem_of_nil|]. rewrite hex_cons, elem_of_app. intros [Hc|Hc]; [|by apply IH].
  destruct b as [[] [] [] [] [] [] [] []]; unfold hex_byte in Hc;
    rewrite !elem_of_cons in Hc; destruct Hc as [->|[->|[]%elem_of_nil]]; vm_compute; eauto.
Qed.

Lemma colon_hex bs : ":"%char ∉ hex bs.
Proof. intros H%hex_digits_only. by destruct H. Qed.

(** ** Values *)

Definition value_ok (v : Value) : Prop :=
  match v with VInteger z => i64_range z | VText s => is_str s | _ => True end.

Lemma i64_round_trip z : i64_range z → i64_of_le (i64_le z) = z.
Proof.
  intros [Hlo Hhi]. unfold i64_of_le, i64_le. unfold I64_MIN, I64_MAX in *.
  pose proof (Z.mod_pos_bound z (2 ^ 64) ltac:(lia)) as Hm.
  rewrite u64_le_inv by (unfold u64_range, U64_MAX; lia).
  destruct (Z.ltb_spec (z mod 2 ^ 64) (2 ^ 63)); Z.div_mod_to_equations; lia.
Qed.

Lemma i64_of_le_range bs : length bs = 8 → i64_range (i64_of_le bs) ∧ i64_le (i64_of_le bs) = bs.
Proof.
  intros Hl. pose proof (from_le_bytes_range bs) as Hr. rewrite Hl in Hr. change (256 ^ Z.of_nat 8)%Z with (2 ^ 64)%Z in Hr.
  assert (i64_of_le bs mod 2 ^ 64 = from_le_bytes bs)%Z as Hm.
  { unfold i64_of_le. case_match; [by rewrite Z.mod_small|].
    replace (from_le_bytes bs - 2 ^ 64)%Z with (from_le_bytes bs + (-1) * 2 ^ 64)%Z by lia.
    by rewrite Z.mod_add, Z.mod_small by lia. }
  split.
  - unfold i64_range, I64_MIN, I64_MAX, i64_of_le. destruct (Z.ltb_spec (from_le_bytes bs) (2 ^ 63)); lia.
  - unfold i64_le. rewrite Hm. unfold u64_le. rewrite <- Hl at 1. apply to_from_le_bytes.
Qed.

Lemma decode_encode_value v : value_ok v → decode_value (encode_value v) = Ok v.
Proof.
  intros Hv. destruct v as [|z|s|[]]; cbn [value_ok] in Hv; [done| | |done..].
  - unfold decode_value, encode_value. rewrite (bool_decide_false ("I"%char = "N"%char)) by done. cbn [andb].
    assert (length (i64_le z) = 8) as Hl by apply length_u64_le.
    cbn [length]. rewrite Hl, bool_decide_true by done. cbn [andb Nat.eqb].
    rewrite take_ge by lia. by rewrite i64_round_trip.
  - unfold decode_value, encode_value. rewrite !bool_decide_false, bool_decide_true by done. cbn [andb].
    by rewrite from_utf8_as_bytes.
Qed.

Lemma encode_decode_value bs v : decode_value bs = Ok v → value_ok v ∧ bs = encode_value v.
Proof.
  destruct bs as [|tag r]; [done|]. unfold decode_value. destruct (bool_decide (tag = "N"%char) && _) eqn:HN.
  { zify_bools. apply Nat.eqb_eq in H0. subst. destruct r; [|done]. intros H%ok_inj. by subst. }
  destruct (bool_decide (tag = "I"%char) && _) eqn:HI.
  { zify_bools. apply Nat.eqb_eq in H0. subst. cbn [length] in H0. intros H%ok_inj. subst. rewrite take_ge by lia.
    destruct (i64_of_le_range r ltac:(lia)) as [Hr He]. split; [done|]. cbn. by rewrite He. }
  destruct (bool_decide (tag = "T"%char)) eqn:HT.
  { zify_bools. intros (s & Hs & H%ok_inj)%bind_ok. subst. apply from_utf8_ok in Hs as [Hs ->]. done. }
  destruct r as [|b [|]]; [done| |done]. case_match eqn:HB; [|done]. zify_bools. subst. intros H'%ok_inj. subst.
  split; [done|]. cbn. do 2 f_equal. apply u8_val_inj. pose proof (u8_val_range b).
  destruct (Z.eqb_spec (u8_val b) 1) as [->|]; [done|]. assert (u8_val b = 0)%Z as -> by lia. done.
Qed.

Lemma encode_value_inj v w : value_ok v → value_ok w → encode_value v = encode_value w → v = w.
Proof.
  intros Hv Hw H. apply (f_equal decode_value) in H. rewrite !decode_encode_value in H by done. by apply ok_inj in H.
Qed.

(** ** Rows *)

Definition typed (v : Value) (ty : DataType) : Prop := check_type v ty = Ok tt.
Definition row_ok (s : Schema) (row : list Value) : Prop :=
  Forall2 (λ v c, value_ok v ∧ typed v (data_type c)) row (columns s).

Lemma row_ok_split s row :
  row_ok s row ↔ Forall value_ok row ∧ Forall2 (λ v c, typed v (data_type c)) row (columns s).
Proof.
  unfold row_ok. split.
  - induction 1 as [|v c row cs [] _ [IH1 IH2]]; split; constructor; done.
  - intros [Hv Ht]. induction Ht as [|v c row cs Hc _ IH]; inversion Hv; subst; constructor; auto.
Qed.

Lemma check_row_ok row cs :
  length row = length cs → check_row row cs = Ok tt ↔ Forall2 (λ v c, typed v (data_type c)) row cs.
Proof.
  revert cs. induction row as [|v row IH]; intros [|c cs] Hl; cbn in *; try done.
  rewrite bind_ok. split.
  - intros ([] & Hv & Hr). constructor; [done|]. by apply IH; [lia|].
  - inversion 1; subst. exists tt. split; [done|]. apply IH; [lia|done].
Qed.

Lemma encode_row_parts row :
  row ≠ [] → split_on ":"%char (as_bytes (encode_row row)) = hex ∘ encode_value <$> row.
Proof.
  intros Hne. unfold encode_row. rewrite as_of_bytes. apply split_join; [by destruct row|].
  apply Forall_fmap, Forall_true. intros v. apply colon_hex.
Qed.

Lemma row_codec schema row encoded :
  decode_row encoded schema = Ok row ↔ row ≠ [] ∧ row_ok schema row ∧ encoded = encode_row row.
Proof.
  unfold decode_row. split.
  - intros (vs & Hvs & Hrest)%bind_ok. case_match eqn:Hl; [done|]. apply negb_false_iff, Nat.eqb_eq in Hl.
    apply bind_ok in Hrest as ([] & Hc & Hr). apply ok_inj in Hr as ->. apply check_row_ok in Hc; [|done].
    apply try_map_ok in Hvs. assert (Forall value_ok row ∧ split_on ":"%char (as_bytes encoded) = hex ∘ encode_value <$> row)
      as [Hok Hs].
    { clear -Hvs. induction Hvs as [|p v ps vs Hp _ [IH1 IH2]]; [done|]. apply bind_ok in Hp as (bs & Hu & Hd).
      apply encode_decode_value in Hd as [Hv ->]. apply hex_unhex in Hu as ->. cbn. by rewrite IH2; auto. }
    split_and!.
    + intros ->. by apply split_nonempty in Hs.
    + by apply row_ok_split.
    + apply as_bytes_inj. unfold encode_row. rewrite as_of_bytes, <- Hs. symmetry. apply join_split.
  - intros (Hne & Hok & ->). rewrite encode_row_parts by done. apply row_ok_split in Hok as [Hv Ht].
    pose proof (Forall2_length _ _ _ Ht) as Hl.
    assert (try_map (λ part, bs ← unhex part; decode_value bs) (hex ∘ encode_value <$> row) = Ok row) as ->.
    { apply try_map_ok. clear -Hv. induction Hv as [|v row Hv _ IH]; [constructor|]. constructor; [|done].
      cbn. rewrite unhex_hex. by apply decode_encode_value. }
    cbn [mbind result_bind]. rewrite Hl, Nat.eqb_refl. cbn [negb].
    by rewrite (proj2 (check_row_ok row (columns schema) Hl) Ht).
Qed.

(** C31. Rows are stored exactly: under a schema, a text is read as a row if
    and only if the row has the schema's columns, each NULL or of its column's
    type, and the text is that row's encoding.  So every row written is read
    back unchanged, two rows never share an encoding, and any other text, a
    damaged one included, is refused. *)
Theorem row_codec_exact schema row encoded :
  decode_row encoded schema = Ok row ↔
  row ≠ [] ∧ row_ok schema row ∧ encoded = encode_row row.
Proof. apply row_codec. Qed.

(** ** Schemas *)

(** Names that can be stored: no separator of the encodings in them. *)
Definition stored_name (n : string) : Prop :=
  ":"%char ∉ as_bytes n ∧ "|"%char ∉ as_bytes n ∧ NEWLINE ∉ as_bytes n ∧ ascii (as_bytes n).

Definition schema_ok (s : Schema) : Prop :=
  validate s = Ok tt ∧ stored_name (s_name s) ∧ Forall (λ c, stored_name (c_name c)) (columns s).

(** What is stored is text: names and numbers in ASCII. *)
Lemma ascii_hex bs : ascii (hex bs).
Proof.
  apply Forall_forall. intros c Hc%hex_digits_only. unfold digit in Hc.
  destruct (in_range 48 57 c) eqn:Hd; [|destruct (in_range 97 102 c) eqn:Ha; [|by destruct Hc]].
  all: unfold in_range in *; zify_bools; apply andb_true_iff; rewrite !Z.leb_le; lia.
Qed.

Lemma encode_row_str row : is_str (encode_row row).
Proof.
  unfold is_str, encode_row. rewrite as_of_bytes. apply ascii_valid, ascii_join; [done|].
  apply Forall_fmap, Forall_forall. intros v _. apply ascii_hex.
Qed.

Lemma encode_schema_str s : schema_ok s → is_str (encode_schema s).
Proof.
  intros (_ & _ & Hcs). unfold is_str, encode_schema. rewrite as_of_bytes. apply ascii_valid, ascii_join; [done|].
  apply Forall_fmap. eapply Forall_impl; [exact Hcs|]. intros [n ty key] (_ & _ & _ & Hn). cbn in *. unfold encode_column. cbn.
  apply Forall_app. split; [done|]. by destruct ty, key; repeat constructor.
Qed.

Lemma catalog_key_str table : stored_name table → is_str (catalog_key table).
Proof.
  intros (_ & _ & _ & Ha). unfold is_str, catalog_key. rewrite as_bytes_app. apply ascii_valid, Forall_app. split; [by repeat constructor|done].
Qed.

Lemma decode_encode_column c : stored_name (c_name c) → decode_column (encode_column c) = Ok c.
Proof.
  destruct c as [n ty key]. cbn [c_name]. intros (_ & Hbar & _). unfold decode_column.
  assert (encode_column (MkColumn n ty key) = join "|"%char [as_bytes n;
    match ty with DInteger => ["I"%char] | DText => ["T"%char] | DBoolean => ["B"%char] end;
    if key then ["1"%char] else ["0"%char]]) as -> by done.
  rewrite split_join; [|done|].
  - destruct ty, key; cbn; by rewrite of_as_bytes.
  - repeat constructor; [done| |]; destruct ty, key; rewrite list_elem_of_singleton; done.
Qed.

(** An encoded column is not empty and does not end with a carriage return. *)
Lemma encode_column_end c : ∃ p b, encode_column c = p ++ [b] ∧ b ≠ RETURN.
Proof.
  destruct c as [n ty key]. unfold encode_column. cbn [c_name data_type primary_key].
  exists (as_bytes n ++ "|"%char :: match ty with DInteger => ["I"%char] | DText => ["T"%char] | DBoolean => ["B"%char] end
    ++ ["|"%char]), (if key then "1"%char else "0"%char).
  split; [|by destruct key]. rewrite <- app_assoc. cbn. destruct ty, key; done.
Qed.

Lemma encode_column_line c : stored_name (c_name c) → NEWLINE ∉ encode_column c.
Proof.
  destruct c as [n ty key]. cbn [c_name]. intros (_ & _ & Hn & _). unfold encode_column. cbn [c_name data_type primary_key].
  rewrite elem_of_app. intros [?|Hin]; [done|]. destruct ty, key; cbn in Hin; rewrite !elem_of_cons in Hin;
    destruct_or! Hin; try done; by apply elem_of_nil in Hin.
Qed.

Lemma strip_return_keeps p b : b ≠ RETURN → strip_return (p ++ [b]) = p ++ [b].
Proof.
  intros Hb. induction p as [|c p IH]; cbn [app strip_return]; [by rewrite decide_False|].
  destruct (p ++ [b]) eqn:Hp; [by destruct p|]. by rewrite <- Hp, IH in *.
Qed.

Lemma lines_join ps :
  ps ≠ [] → Forall (λ p, NEWLINE ∉ p ∧ ∃ q b, p = q ++ [b] ∧ b ≠ RETURN) ps → lines (join NEWLINE ps) = ps.
Proof.
  intros Hne Hps. unfold lines. rewrite split_join; [|done|by eapply Forall_impl; [exact Hps|intros p []]].
  induction Hps as [|p ps (_ & q & b & -> & Hb) Hps IH]; [done|]. destruct ps as [|p2 ps].
  - cbn [lines_of]. by destruct (q ++ [b]) eqn:Hq; [destruct q|].
  - change (strip_return (q ++ [b]) :: lines_of (p2 :: ps) = (q ++ [b]) :: p2 :: ps) || idtac.
    assert (lines_of ((q ++ [b]) :: p2 :: ps) = strip_return (q ++ [b]) :: lines_of (p2 :: ps)) as ->
      by (by destruct (q ++ [b]); [destruct q|]).
    rewrite IH, strip_return_keeps by done. done.
Qed.

Lemma decode_encode_schema s : schema_ok s → decode_schema (s_name s) (encode_schema s) = Ok s.
Proof.
  intros (Hv & _ & Hn). unfold decode_schema, encode_schema. rewrite as_of_bytes, lines_join.
  - assert (try_map decode_column (encode_column <$> columns s) = Ok (columns s)) as ->.
    { apply try_map_ok. clear Hv. induction Hn; cbn; constructor; [by apply decode_encode_column|done]. }
    cbn [mbind result_bind]. destruct s as [n cs]. cbn [s_name columns] in *. by rewrite Hv.
  - destruct s as [n [|c cs]]; [done|]. done.
  - apply Forall_fmap. eapply Forall_impl; [exact Hn|]. intros c Hc. cbn.
    split; [by apply encode_column_line|apply encode_column_end].
Qed.

(** A schema is read back as it was saved: for every valid schema whose
    names have none of the encodings' separators, decoding its encoding under
    its own name gives the schema, columns, types and primary key. *)
Theorem schema_round_trip s : schema_ok s → decode_schema (s_name s) (encode_schema s) = Ok s.
Proof. apply decode_encode_schema. Qed.

Lemma stored_name_check n :
  forallb (λ b, negb (bool_decide (b ∈ [":"%char; "|"%char; NEWLINE])) && in_range 0 127 b) (as_bytes n) = true → stored_name n.
Proof.
  intros Hn. rewrite forallb_forall in Hn. split_and!; [intros Hin%list_elem_of_In; apply Hn in Hin; done..|].
  apply Forall_forall. intros b Hb%list_elem_of_In. apply Hn, andb_true_iff in Hb. apply Hb.
Qed.

Lemma sample_schema_ok : schema_ok sample_schema.
Proof.
  split; [by vm_compute|]. split; [by apply stored_name_check|]. repeat constructor; by apply stored_name_check.
Qed.

Lemma schema_round_trip_witness :
  schema_ok sample_schema ∧ decode_schema (s_name sample_schema) (encode_schema sample_schema) = Ok sample_schema.
Proof. exact (conj sample_schema_ok (schema_round_trip sample_schema sample_schema_ok)). Defined.
