(* ===== verification/Kv.v ===== *)
(** What the SQL layer relies on: a transaction as a key-value view.

    [KvTxn] is the interface of [txn.rs] the executor calls, its errors already
    turned into [io::Error]; [KvLaws] is its contract, over the finite map a
    transaction shows its user.  The executor is written over the interface and
    its theorems over the contract; [mem_txn] is the contract's reference
    implementation, [scripted_txn] one whose writes fail when a script says so;
    Engine.v and EngineSpec.v have the one of src/src/txn.rs. *)

From S2P Require Import Prelude Bytes.
From Stdlib Require Import Ascii.

Class KvTxn (S : Type) : Type := {
  kv_get : string → M S io_error (option string);
  kv_scan : string → M S io_error (list (string * string));
  kv_set : string → string → M S io_error unit;
  kv_delete : string → M S io_error unit;
}.

(** The rows a scan of [prefix] answers over a view: in key order. *)
Definition scanned (view : gmap string string) (prefix : string) (rows : list (string * string)) : Prop :=
  StronglySorted (λ p q, String.le p.1 q.1) rows ∧ NoDup rows.*1 ∧
  ∀ k v, (k, v) ∈ rows ↔ starts_with k prefix = true ∧ view !! k = Some v.

(** A write takes effect, or fails with an error of [fails] and changes nothing
    the user sees. *)
Definition writes {S} (view : S → gmap string string) (ok : S → Prop) (fails : io_error → Prop) (m : M S io_error unit)
    (f : gmap string string → gmap string string) (s : S) : Prop :=
  ∃ s', ok s' ∧ ((m s = (Ok tt, s') ∧ view s' = f (view s)) ∨ (∃ e, m s = (Err e, s') ∧ fails e ∧ view s' = view s)).

(** Keys and values are texts of [str]. *)
Class KvLaws (S : Type) `{KvTxn S} (view : S → gmap string string) (ok : S → Prop)
    (str : string → Prop) (fails : io_error → Prop) : Prop := {
  law_get s k : ok s → kv_get k s = (Ok (view s !! k), s);
  law_scan s p : ok s → ∃ rows, kv_scan p s = (Ok rows, s) ∧ scanned (view s) p rows;
  law_set s k v : ok s → str k → str v → writes view ok fails (kv_set k v) (λ m, <[k := v]> m) s;
  law_delete s k : ok s → str k → writes view ok fails (kv_delete k) (λ m, base.delete k m) s;
}.

(** Every text, and no error. *)
Definition any_text (_ : string) : Prop := True.
Definition no_error (_ : io_error) : Prop := False.

(** ** The reference implementation *)

Definition mem_scan (m : gmap string string) (prefix : string) : list (string * string) :=
  List.filter (λ p, starts_with p.1 prefix) (btree_iter m).

#[export] Instance mem_txn : KvTxn (gmap string string) := {
  kv_get k := λ m, (Ok (m !! k), m);
  kv_scan p := λ m, (Ok (mem_scan m p), m);
  kv_set k v := λ m, (Ok tt, <[k := v]> m);
  kv_delete k := λ m, (Ok tt, base.delete k m);
}.

Lemma mem_scan_spec m p : scanned m p (mem_scan m p).
Proof.
  unfold scanned, mem_scan. split_and!.
  - generalize (btree_iter_sorted m). generalize (btree_iter m). intros l Hl.
    induction Hl as [|x l Hl IH Hx]; cbn; [constructor|]. case_match; [|done]. constructor; [done|].
    rewrite Forall_forall in *. intros y Hy. apply Hx. apply list_elem_of_In, List.filter_In in Hy as [Hy _].
    by apply list_elem_of_In.
  - eapply sublist_NoDup; [apply (NoDup_btree_keys m)|]. unfold btree_keys. apply fmap_sublist.
    induction (btree_iter m) as [|x l IH]; cbn; [done|]. case_match; by constructor.
  - intros k v. rewrite list_elem_of_In, List.filter_In, <- list_elem_of_In, elem_of_btree_iter. cbn. tauto.
Qed.

#[export] Instance mem_laws str : KvLaws (gmap string string) id (λ _, True) str no_error.
Proof.
  split; intros s *; cbn.
  - done.
  - intros _. eexists. split; [done|]. apply mem_scan_spec.
  - intros _ _ _. eexists. split; [done|]. by left.
  - intros _ _. eexists. split; [done|]. by left.
Qed.

(** ** A map whose writes fail when a script says so *)

Abbreviation scripted := (list (option io_error) * gmap string string)%type.

(** The next write: [Some e] makes it fail with [e]. *)
Definition scripted_write (f : gmap string string → gmap string string) : M scripted io_error unit := λ '(script, m),
  match script with
  | Some e :: rest => (Err e, (rest, m))
  | _ => (Ok tt, (tail script, f m))
  end.

#[export] Instance scripted_txn : KvTxn scripted := {
  kv_get k := λ s, (Ok (s.2 !! k), s);
  kv_scan p := λ s, (Ok (mem_scan s.2 p), s);
  kv_set k v := scripted_write (λ m, <[k := v]> m);
  kv_delete k := scripted_write (λ m, base.delete k m);
}.

Definition scripted_ok (fails : io_error → Prop) (s : scripted) : Prop := ∀ e, Some e ∈ s.1 → fails e.

Lemma scripted_writes fails f s : scripted_ok fails s → writes snd (scripted_ok fails) fails (scripted_write f) f s.
Proof.
  destruct s as [[|[e|] rest] m]; intros Hs; eexists; (split; [|by left]) || (split; [|right; exists e; split_and!; [done|apply Hs; left|done]]);
    intros e' He'; try (by apply elem_of_nil in He'); apply Hs; by right.
Qed.

#[export] Instance scripted_laws str fails : KvLaws scripted snd (scripted_ok fails) str fails.
Proof.
  split; intros s *.
  - done.
  - intros _. eexists. split; [done|]. apply mem_scan_spec.
  - intros Hs _ _. by apply scripted_writes.
  - intros Hs _. by apply scripted_writes.
Qed.
