(* ===== verification/Executor.v ===== *)
(** Planning and execution: src/src/sql/plan.rs, src/src/sql/executor.rs and
    the catalog access of src/src/catalog.rs.

    [eval] computes filters in three-valued logic, [RowSource] is the pull
    iterator, [select_rows], [insert], [update] and [delete] are the statements
    over a transaction.  Engine.v runs them over the transactional store.

    The source's [sort_by] is the standard library's stable sort; it is written
    as an insertion sort. *)

From S2P Require Import Prelude Bytes SqlAst Catalog Kv.
From Stdlib Require Import Ascii.

Abbreviation Row := (list Value).

(** ** Planning *)

Inductive Access : Type := FullScan | PrimaryKey (value : Value).
Record Plan : Type := MkPlan { access : Access; p_select : Select }.

Definition primary_equality (e : Expr) (primary : string) : option Value :=
  match e with
  | EBinary OEq (EColumn c) (ELiteral v) | EBinary OEq (ELiteral v) (EColumn c) =>
    if decide (c = primary) then Some v else None
  | _ => None
  end.

Definition plan_select (s : Select) (schema : Schema) : io Plan :=
  primary ← primary_column schema;
  let access :=
    match s_filter s ≫= λ e, primary_equality e (c_name primary) with
    | Some v => PrimaryKey v
    | None => FullScan
    end in
  Ok (MkPlan access s).

(** [Display for Plan] *)
Definition plan_text (p : Plan) : string :=
  let s := p_select p in
  (match access p with
   | FullScan => "Scan(table=" +:+ s_table s +:+ ")"
   | PrimaryKey v => "IndexLookup(table=" +:+ s_table s +:+ ", primary_key=" +:+ value_text v +:+ ")"
   end)
  +:+ (match s_filter s with Some _ => " -> Filter" | None => "" end)
  +:+ " -> Project"
  +:+ (match s_order s with
       | Some (c, asc) => " -> Sort(" +:+ c +:+ " " +:+ (if asc : bool then "ASC" else "DESC") +:+ ")"
       | None => ""
       end)
  +:+ (match s_limit s with Some n => " -> Limit(" +:+ pretty n +:+ ")" | None => "" end).

(** ** Expressions *)

(** [bool] and derived ordering of [Value]. *)
Definition bool_cmp (a b : bool) : comparison :=
  match a, b with false, true => Lt | true, false => Gt | _, _ => Eq end.
Definition variant (v : Value) : Z :=
  match v with VNull => 0 | VInteger _ => 1 | VText _ => 2 | VBoolean _ => 3 end.
Definition value_cmp (a b : Value) : comparison :=
  match a, b with
  | VInteger a, VInteger b => (a ?= b)%Z
  | VText a, VText b => str_cmp a b
  | VBoolean a, VBoolean b => bool_cmp a b
  | _, _ => (variant a ?= variant b)%Z
  end.

Definition truth (v : Value) : io (option bool) :=
  match v with
  | VBoolean b => Ok (Some b)
  | VNull => Ok None
  | _ => Err (invalid_input "sql: AND/OR expects boolean values")
  end.

Definition logic_and (left right : Value) : io Value :=
  l ← truth left; r ← truth right;
  match l, r with
  | Some false, _ | _, Some false => Ok (VBoolean false)
  | Some true, Some true => Ok (VBoolean true)
  | _, _ => Ok VNull
  end.

Definition logic_or (left right : Value) : io Value :=
  l ← truth left; r ← truth right;
  match l, r with
  | Some true, _ | _, Some true => Ok (VBoolean true)
  | Some false, Some false => Ok (VBoolean false)
  | _, _ => Ok VNull
  end.

Definition order_satisfies (op : BinaryOp) (order : comparison) : io bool :=
  match op, order with
  | OEq, Eq | ONe, (Lt | Gt) | OLt, Lt | OLe, (Lt | Eq) | OGt, Gt | OGe, (Eq | Gt) => Ok true
  | (OAnd | OOr), _ => Panic "handled above"
  | _, _ => Ok false
  end.

Definition compare (op : BinaryOp) (left right : Value) : io Value :=
  match left, right with
  | VNull, _ | _, VNull => Ok VNull
  | _, _ =>
    order ← (match left, right with
             | VInteger a, VInteger b => Ok (a ?= b)%Z
             | VText a, VText b => Ok (str_cmp a b)
             | VBoolean a, VBoolean b => Ok (bool_cmp a b)
             | _, _ => Err (invalid_input "sql: cannot compare different types")
             end);
    b ← order_satisfies op order; Ok (VBoolean b)
  end.

Definition unknown_column (column : string) : io_error :=
  invalid_input ("sql: unknown column '" +:+ column +:+ "'").

Fixpoint eval (e : Expr) (row : Row) (schema : Schema) : io Value :=
  match e with
  | ELiteral v => Ok v
  | EColumn column =>
    i ← ok_or (column_index schema column) (unknown_column column); index row i
  | EBinary op l r =>
    left ← eval l row schema;
    right ← eval r row schema;
    match op with
    | OAnd => logic_and left right
    | OOr => logic_or left right
    | _ => compare op left right
    end
  end.

Definition matches_filter (filter : option Expr) (row : Row) (schema : Schema) : io bool :=
  match filter with
  | None => Ok true
  | Some e => v ← eval e row schema; Ok (bool_decide (v = VBoolean true))
  end.

(** ** Row sources *)

Inductive RowSource : Type :=
| VecSource (rows : list Row)
| FilterSource (input : RowSource) (filter : Expr) (schema : Schema).

(** Enough for every call: the rows left, and the sources stacked. *)
Fixpoint source_fuel (src : RowSource) : nat :=
  match src with VecSource rows => S (length rows) | FilterSource input _ _ => S (source_fuel input) end.

Definition set_input (filter : Expr) (schema : Schema) (input : RowSource) (_ : RowSource) : RowSource :=
  FilterSource input filter schema.

(** [RowSource::next]. *)
Fixpoint next (fuel : nat) : M RowSource io_error (option Row) := λ src,
  match fuel with
  | O => (Panic "next: out of fuel", src)
  | S fuel =>
    match src with
    | VecSource [] => (Ok None, VecSource [])
    | VecSource (row :: rows) => (Ok (Some row), VecSource rows)
    | FilterSource input filter schema =>
      (found ← zoom (λ _, input) (set_input filter schema) (next fuel);
       match found with
       | None => mret None
       | Some row =>
         keep ← lift (matches_filter (Some filter) row schema);
         if (keep : bool) then mret (Some row) else next fuel
       end) src
    end
  end.

(** [while let Some(row) = source.next()? { materialized.push(row) }] *)
Fixpoint drain (fuel : nat) (acc : list Row) : M RowSource io_error (list Row) :=
  match fuel with
  | O => panic "drain: out of fuel"
  | S fuel =>
    src ← get_state;
    found ← next (source_fuel src);
    match found with Some row => drain fuel (acc ++ [row]) | None => mret acc end
  end.
Definition materialize (src : RowSource) : io (list Row) := fst (drain (source_fuel src) [] src).

(** ** Sorting *)

Fixpoint insert_by {A} (cmp : A → A → comparison) (a : A) (l : list A) : list A :=
  match l with
  | [] => [a]
  | b :: l => match cmp a b with Gt => b :: insert_by cmp a l | _ => a :: b :: l end
  end.
Definition sort_by {A} (cmp : A → A → comparison) (l : list A) : list A := foldr (insert_by cmp) [] l.

Definition compare_for_sort (left right : Value) : comparison :=
  match left, right with
  | VNull, VNull => Eq
  | VNull, _ => Lt
  | _, VNull => Gt
  | _, _ => value_cmp left right
  end.

(** The cell at an index in range; [sort_cells] is where one out of range panics:
    sorting two rows or more compares each of them. *)
Definition cell (row : Row) (i : nat) : Value := default VNull (row !! i).
Definition sort_cells (i : nat) (rows : list Row) : io unit :=
  match rows with
  | _ :: _ :: _ => _ ← try_map (λ row, index row i) rows; Ok tt
  | _ => Ok tt
  end.

Definition row_order (i : nat) (ascending : bool) (left right : Row) : comparison :=
  let order := compare_for_sort (cell left i) (cell right i) in
  if ascending then order else CompOpp order.

Definition sort_rows (schema : Schema) (order : option (string * bool)) (rows : list Row) : io (list Row) :=
  match order with
  | None => Ok rows
  | Some (column, ascending) =>
    i ← ok_or (column_index schema column) (invalid_input ("sql: unknown ORDER BY column '" +:+ column +:+ "'"));
    _ ← sort_cells i rows;
    Ok (sort_by (row_order i ascending) rows)
  end.

(** [Vec::truncate]. *)
Definition truncate (limit : option Z) (rows : list Row) : list Row :=
  match limit with
  | Some n => if (n <? Z.of_nat (length rows))%Z then take (Z.to_nat n) rows else rows
  | None => rows
  end.

Definition projection (schema : Schema) (p : Projection) : io (list string * list nat) :=
  match p with
  | PAll => Ok (c_name <$> columns schema, seq 0 (length (columns schema)))
  | PColumns names =>
    indexes ← try_map (λ c, ok_or (column_index schema c) (unknown_column c)) names;
    Ok (names, indexes)
  end.

(** What [select_rows] does with the rows accessed. *)
Definition answer_select (s : Select) (schema : Schema) (rows : list Row) : io SqlResult :=
  let source :=
    match s_filter s with
    | Some filter => FilterSource (VecSource rows) filter schema
    | None => VecSource rows
    end in
  materialized ← materialize source;
  sorted ← sort_rows schema (s_order s) materialized;
  let limited := truncate (s_limit s) sorted in
  '(names, indexes) ← projection schema (s_projection s);
  projected ← try_map (λ row, try_map (index row) indexes) limited;
  Ok (RRows names projected).

(** ** Statements *)

(** [row[index] = value] *)
Definition set_index {A} (l : list A) (i : nat) (a : A) : io (list A) :=
  if i <? length l then Ok (<[i := a]> l) else Panic "index out of bounds".

(** One [column = value] of an INSERT or UPDATE. *)
Definition assign (schema : Schema) (row : Row) (column : string) (value : Value) : io Row :=
  i ← ok_or (column_index schema column) (unknown_column column);
  c ← index (columns schema) i;
  _ ← check_type value (data_type c);
  set_index row i value.

(** [for (column, value) in columns.into_iter().zip(values)] *)
Fixpoint fill_row (schema : Schema) (pairs : list (string * Value)) (row : Row) (assigned : list bool) : io Row :=
  match pairs with
  | [] => Ok row
  | (column, value) :: pairs =>
    i ← ok_or (column_index schema column) (unknown_column column);
    seen ← index assigned i;
    if (seen : bool) then Err (invalid_input "sql: duplicate INSERT column") else
    row ← assign schema row column value;
    assigned ← set_index assigned i true;
    fill_row schema pairs row assigned
  end.

Fixpoint assign_all (schema : Schema) (assignments : list (string * Value)) (row : Row) : io Row :=
  match assignments with
  | [] => Ok row
  | (column, value) :: rest => row ← assign schema row column value; assign_all schema rest row
  end.

Section statements.
Context {S : Type} `{KvTxn S}.
Abbreviation sql := (M S io_error).

Definition load_schema (table : string) : sql Schema :=
  found ← kv_get (catalog_key table);
  encoded ← lift (ok_or found (invalid_input ("sql: unknown table '" +:+ table +:+ "'")));
  lift (decode_schema table encoded).

Definition save_schema (schema : Schema) : sql unit :=
  _ ← lift (validate schema);
  kv_set (catalog_key (s_name schema)) (encode_schema schema).

Definition create_table (table : string) (cs : list ColumnDef) : sql SqlResult :=
  let schema := MkSchema table cs in
  _ ← lift (validate schema);
  found ← kv_get (catalog_key table);
  if decide (is_Some found) then fail (invalid_input ("sql: table '" +:+ table +:+ "' already exists")) else
  _ ← save_schema schema;
  mret (RAffected 0).

Definition insert (table : string) (names : list string) (values : list Value) : sql SqlResult :=
  schema ← load_schema table;
  if negb (length names =? length values) then fail (invalid_input "sql: INSERT column/value count mismatch") else
  let width := length (columns schema) in
  row ← lift (fill_row schema (zip names values) (replicate width VNull) (replicate width false));
  key ← lift (row_key schema row);
  found ← kv_get key;
  if decide (is_Some found) then fail (invalid_input "sql: duplicate primary key") else
  _ ← kv_set key (encode_row row);
  mret (RAffected 1).

Definition all_rows (schema : Schema) : sql (list (string * Row)) :=
  found ← kv_scan (row_prefix (s_name schema));
  lift (try_map (λ '(key, encoded), row ← decode_row encoded schema; Ok (key, row)) found).

Definition access_rows (schema : Schema) (plan : Plan) : sql (list Row) :=
  match access plan with
  | FullScan => rows ← all_rows schema; mret (rows.*2)
  | PrimaryKey v =>
    if decide (v = VNull) then mret [] else
    key ← lift (row_key_for_primary schema v);
    found ← kv_get key;
    match found with
    | Some encoded => row ← lift (decode_row encoded schema); mret [row]
    | None => mret []
    end
  end.

Definition select_rows (s : Select) : sql SqlResult :=
  schema ← load_schema (s_table s);
  plan ← lift (plan_select s schema);
  rows ← access_rows schema plan;
  lift (answer_select s schema rows).

(** The move of an updated row to its key. *)
Definition move_row (old_key new_key : string) : sql unit :=
  if decide (new_key = old_key) then mret tt else
  found ← kv_get new_key;
  if decide (is_Some found) then fail (invalid_input "sql: duplicate primary key") else kv_delete old_key.

Fixpoint update_rows (schema : Schema) (assignments : list (string * Value)) (filter : option Expr)
    (rows : list (string * Row)) (affected : nat) : sql nat :=
  match rows with
  | [] => mret affected
  | (old_key, row) :: rows =>
    hit ← lift (matches_filter filter row schema);
    if negb hit then update_rows schema assignments filter rows affected else
    row ← lift (assign_all schema assignments row);
    new_key ← lift (row_key schema row);
    _ ← move_row old_key new_key;
    _ ← kv_set new_key (encode_row row);
    update_rows schema assignments filter rows (affected + 1)
  end.

Definition update (table : string) (assignments : list (string * Value)) (filter : option Expr) : sql SqlResult :=
  schema ← load_schema table;
  rows ← all_rows schema;
  affected ← update_rows schema assignments filter rows 0;
  mret (RAffected affected).

Fixpoint delete_rows (schema : Schema) (filter : option Expr) (rows : list (string * Row)) (affected : nat) : sql nat :=
  match rows with
  | [] => mret affected
  | (key, row) :: rows =>
    hit ← lift (matches_filter filter row schema);
    if negb hit then delete_rows schema filter rows affected else
    _ ← kv_delete key;
    delete_rows schema filter rows (affected + 1)
  end.

Definition delete (table : string) (filter : option Expr) : sql SqlResult :=
  schema ← load_schema table;
  rows ← all_rows schema;
  affected ← delete_rows schema filter rows 0;
  mret (RAffected affected).

Definition explain (s : Select) : sql SqlResult :=
  schema ← load_schema (s_table s);
  plan ← lift (plan_select s schema);
  mret (RExplain (plan_text plan)).

Definition execute_data (s : Statement) : sql SqlResult :=
  match s with
  | SCreateTable table cs => create_table table cs
  | SInsert table names values => insert table names values
  | SSelect s => select_rows s
  | SUpdate table assignments filter => update table assignments filter
  | SDelete table filter => delete table filter
  | SExplain s => explain s
  | SBegin | SCommit | SRollback => fail (invalid_input "sql: internal transaction dispatch error")
  end.
End statements.
