(* ===== verification/Engine.v ===== *)
(** The SQL engine over the transactional store: [SqlEngine] of
    src/src/sql/executor.rs.

    A statement outside a transaction gets one of its own, which its success
    commits and its failure aborts.  [mvcc_txn] is src/src/txn.rs as the
    executor's transaction interface; a panic drops the handle, as unwinding
    does. *)

From S2P Require Import Prelude Bytes Wal Versions Mvcc SqlAst SqlLexer SqlParser Catalog Kv Executor.
From Stdlib Require Import Ascii.

(** [txn_error] *)
Definition txn_error (e : TxnError) : io_error :=
  match e with TIo e => e | other => IoError InvalidInput (txn_error_text other) end.

(** A call of a transaction's method from the SQL layer. *)
Definition sql_call {S A} (m : M S TxnError A) : M S io_error A := λ s,
  let '(r, s') := m s in (map_err txn_error r, s').

Definition txn_get (key : string) : handle (option string) :=
  s ← get_state; on_inner (Mvcc.get (snd s) key).
Definition txn_scan (prefix : string) : handle (list (string * string)) :=
  s ← get_state; on_inner (scan_prefix (snd s) prefix).

#[export] Instance mvcc_txn : KvTxn (Inner * Transaction) := {
  kv_get key := sql_call (txn_get key);
  kv_scan prefix := sql_call (txn_scan prefix);
  kv_set key value := sql_call (Mvcc.set key value);
  kv_delete key := sql_call (Mvcc.delete key);
}.

Record Engine : Type := MkEngine { e_store : Inner; e_active : option Transaction }.

Abbreviation engine := (M Engine io_error).

Definition set_store (i : Inner) (e : Engine) : Engine := MkEngine i (e_active e).
Definition set_transaction (t : option Transaction) (e : Engine) : Engine := MkEngine (e_store e) t.

(** A method of the store. *)
Definition on_store {A} (m : store A) : engine A := zoom e_store set_store (sql_call m).

Definition open_engine : M file io_error Engine := i ← Mvcc.open; mret (MkEngine i None).

(** [operation(txn)]: the statement works on the store through a handle. *)
Definition run_in (t : Transaction) {A} (operation : M (Inner * Transaction) io_error A)
  : engine (result io_error A * Transaction) := λ e,
  let '(r, (i, t')) := operation (e_store e, t) in (Ok (r, t'), set_store i e).

Definition with_transaction {A} (operation : M (Inner * Transaction) io_error A) : engine A :=
  e ← get_state;
  match e_active e with
  | Some t =>
    '(r, t') ← run_in t operation;
    _ ← modify (set_transaction (Some t'));
    lift r
  | None =>
    t ← on_store begin;
    '(r, t') ← run_in t operation;
    match r with
    | Ok a => _ ← on_store (commit t'); mret a
    | Err error => λ e, let '(_, e') := on_store (abort t') e in (Err error, e')
    | Panic p => _ ← on_store (modify (drop_txn t')); panic p
    end
  end.

(** [self.active.take().ok_or_else(..)?] *)
Definition take_active : engine Transaction :=
  e ← get_state;
  _ ← modify (set_transaction None);
  lift (ok_or (e_active e) (invalid_input "sql: no active transaction")).

Definition execute_statement (s : Statement) : engine SqlResult :=
  match s with
  | SBegin =>
    e ← get_state;
    if decide (is_Some (e_active e)) then fail (invalid_input "sql: transaction already active") else
    t ← on_store begin;
    _ ← modify (set_transaction (Some t));
    mret RBegun
  | SCommit => t ← take_active; _ ← on_store (commit t); mret RCommitted
  | SRollback => t ← take_active; _ ← on_store (abort t); mret RRolledBack
  | other => with_transaction (execute_data other)
  end.

Fixpoint execute_all (statements : list Statement) (results : list SqlResult) : engine (list SqlResult) :=
  match statements with
  | [] => mret results
  | s :: rest => r ← execute_statement s; execute_all rest (results ++ [r])
  end.

Definition execute (source : string) : engine (list SqlResult) :=
  statements ← lift (parse source); execute_all statements [].

(** ** The source's behaviour on small scripts *)

Definition new_engine : Engine := MkEngine new_store None.

(** The results of scripts run one after another, failures included. *)
Fixpoint session (e : Engine) (sources : list string) : list (io (list SqlResult)) :=
  match sources with
  | [] => []
  | s :: rest => let '(r, e') := execute s e in r :: session e' rest
  end.

Example session_crud : session new_engine
  ["CREATE TABLE users (id INT PRIMARY KEY, name TEXT);";
   "INSERT INTO users (name, id) VALUES ('Ada', 2); INSERT INTO users (id) VALUES (1);";
   "SELECT * FROM users ORDER BY name DESC;";
   "UPDATE users SET name = 'Bob' WHERE id = 1; SELECT name FROM users WHERE id = 1;";
   "INSERT INTO users (id) VALUES (2);";
   "DELETE FROM users WHERE name = 'Ada'; SELECT id FROM users WHERE id >= 0 LIMIT 5;"]
  = [Ok [RAffected 0];
     Ok [RAffected 1; RAffected 1];
     Ok [RRows ["ID"; "NAME"] [[VInteger 2; VText "Ada"]; [VInteger 1; VNull]]];
     Ok [RAffected 1; RRows ["NAME"] [[VText "Bob"]]];
     Err (invalid_input "sql: duplicate primary key");
     Ok [RAffected 1; RRows ["ID"] [[VInteger 1]]]].
Proof. vm_compute. reflexivity. Qed.

Example session_transaction : session new_engine
  ["CREATE TABLE t (id INT PRIMARY KEY);"; "BEGIN; INSERT INTO t (id) VALUES (1); ROLLBACK;";
   "SELECT * FROM t;"; "BEGIN; BEGIN;"; "COMMIT; COMMIT;"; "EXPLAIN SELECT * FROM t WHERE 1 = id LIMIT 2;"]
  = [Ok [RAffected 0]; Ok [RBegun; RAffected 1; RRolledBack];
     Ok [RRows ["ID"] []]; Err (invalid_input "sql: transaction already active");
     Err (invalid_input "sql: no active transaction");
     Ok [RExplain "IndexLookup(table=T, primary_key=1) -> Filter -> Project -> Limit(2)"]].
Proof. vm_compute. reflexivity. Qed.
