(* ===== verification/ExecutorSpec.v ===== *)
(** What the statements do to the tables.

    [db_ok] is the invariant of a database seen as one finite map: every key is
    the catalog entry of a valid schema, or the key of a row of a table that
    has one, and its value that row's encoding.  [hoare P m Q E] says that [m],
    from a transaction showing a map that satisfies [P], returns with [Q] or
    fails with [E], and never panics; it is used with the contract of Kv.v, so
    that the theorems hold for every implementation of it. *)

From Stdlib Require Import Ascii.
From S2P Require Import Prelude Bytes SqlAst Catalog CatalogSpec Kv Executor.

Abbreviation db := (gmap string string).

(** ** Keys *)

Lemma starts_with_app k p : starts_with k p = true ↔ ∃ r, k = p +:+ r.
Proof.
  unfold starts_with. revert k. induction p as [|a p IH]; intros k; cbn.
  - split; [intros _; by exists k|intros _; by destruct k].
  - destruct k as [|b k]; cbn; [split; [done|by intros [r [=]]]|].
    destruct (Ascii.ascii_dec a b) as [->|Hne].
    + rewrite IH. split; intros [r Hr]; exists r; [by rewrite Hr|by injection Hr].
    + split; [done|]. intros [r Hr]. by injection Hr.
Qed.

Lemma app_colon_inj n1 n2 r1 r2 :
  ":"%char ∉ n1 → ":"%char ∉ n2 → n1 ++ ":"%char :: r1 = n2 ++ ":"%char :: r2 → n1 = n2 ∧ r1 = r2.
Proof.
  revert n2. induction n1 as [|a n1 IH]; intros [|b n2] H1 H2; cbn.
  - by intros [= ->].
  - intros [= <- _]. by destruct H2; left.
  - intros [= -> _]. by destruct H1; left.
  - intros [= -> He]. apply IH in He as [-> ->]; [done|..]; intros ?; [apply H1|apply H2]; by right.
Qed.

Lemma catalog_key_inj t1 t2 : catalog_key t1 = catalog_key t2 → t1 = t2.
Proof. unfold catalog_key. intros H. apply as_bytes_inj. apply (f_equal as_bytes) in H. rewrite !as_bytes_app in H. by apply app_inv_head in H. Qed.

Lemma as_bytes_row_prefix t : as_bytes (row_prefix t) = as_bytes ROW_PREFIX ++ as_bytes t ++ [":"%char].
Proof. unfold row_prefix. by rewrite !as_bytes_app. Qed.

Lemma catalog_not_row t k r : catalog_key t = row_prefix k +:+ r → False.
Proof.
  intros H. apply (f_equal as_bytes) in H. rewrite as_bytes_app, as_bytes_row_prefix in H.
  unfold catalog_key in H. by rewrite as_bytes_app in H.
Qed.

Lemma row_prefix_inj t1 t2 r1 r2 :
  stored_name t1 → stored_name t2 → row_prefix t1 +:+ r1 = row_prefix t2 +:+ r2 → t1 = t2 ∧ r1 = r2.
Proof.
  intros (H1 & _) (H2 & _) H. apply (f_equal as_bytes) in H. rewrite !as_bytes_app, !as_bytes_row_prefix in H.
  rewrite <- !app_assoc in H. apply app_inv_head in H. apply app_colon_inj in H as [Ht Hr]; [|done..].
  split; by apply as_bytes_inj.
Qed.

(** ** Schemas *)

Lemma position_some {A} (f : A → bool) l i :
  position f l = Some i → ∃ a, l !! i = Some a ∧ f a = true.
Proof.
  revert i. induction l as [|a l IH]; intros i; cbn; [done|]. destruct (f a) eqn:Ha.
  - intros [= <-]. by exists a.
  - intros (j & Hj & ->)%fmap_Some. by apply IH.
Qed.

Lemma position_none {A} (f : A → bool) l : position f l = None → List.filter f l = [].
Proof.
  induction l as [|a l IH]; cbn; [done|]. destruct (f a); [done|]. intros H%fmap_None. auto.
Qed.

Lemma validate_primary s : validate s = Ok tt → ∃ i c, primary_index s = Ok i ∧ columns s !! i = Some c ∧ primary_key c = true ∧ primary_column s = Ok c.
Proof.
  unfold validate, primary_column, primary_index. destruct (columns s) as [|c0 cs0] eqn:Hcs; [done|].
  rewrite <- Hcs. clear Hcs. case_match eqn:Hn; [done|]. intros _.
  destruct (position primary_key (columns s)) as [i|] eqn:Hp.
  - apply position_some in Hp as (c & Hc & Hk). exists i, c. split_and!; [done..|].
    cbn [mbind result_bind]. by rewrite (proj2 (index_ok _ _ _) Hc).
  - apply position_none in Hp. by rewrite Hp in Hn.
Qed.

Lemma row_key_inv s row k :
  row_key s row = Ok k →
  ∃ i v c, primary_index s = Ok i ∧ row !! i = Some v ∧ v ≠ VNull ∧ primary_column s = Ok c ∧
    typed v (data_type c) ∧ k = row_prefix (s_name s) +:+ of_bytes (hex (encode_value v)).
Proof.
  unfold row_key. intros (i & Hi & (v & Hv%ok_or_ok & Hk)%bind_ok)%bind_ok. case_decide; [done|].
  unfold row_key_for_primary in Hk. rewrite decide_False in Hk by done.
  apply bind_ok in Hk as (c & Hc & ([] & Ht & Hk)%bind_ok). apply ok_inj in Hk as <-.
  by exists i, v, c.
Qed.

Lemma row_key_total s row :
  validate s = Ok tt → row_ok s row → (∃ k, row_key s row = Ok k) ∨ row_key s row = Err (invalid_input "sql: primary key cannot be NULL").
Proof.
  intros Hs Hr. destruct (validate_primary s Hs) as (i & c & Hi & Hc & _ & Hpc). unfold row_key. rewrite Hi. cbn [mbind result_bind].
  destruct (Forall2_lookup_r _ _ _ _ _ Hr Hc) as (v & Hv & _ & Ht). rewrite Hv. cbn [ok_or mbind result_bind].
  case_decide; [by right|]. left. unfold row_key_for_primary. rewrite decide_False by done. rewrite Hpc. cbn [mbind result_bind].
  rewrite Ht. cbn. by eexists.
Qed.

Lemma row_key_str s row k : schema_ok s → row_key s row = Ok k → is_str k.
Proof.
  intros (_ & (_ & _ & _ & Hn) & _) (i & v & c & _ & _ & _ & _ & _ & ->)%row_key_inv. unfold is_str, row_prefix.
  rewrite !as_bytes_app, as_of_bytes. apply ascii_valid. unfold ascii. rewrite !Forall_app. split_and!; [by repeat constructor|done|by repeat constructor|apply ascii_hex].
Qed.

(** ** The invariant *)

Definition table_schema (m : db) (s : Schema) : Prop :=
  m !! catalog_key (s_name s) = Some (encode_schema s) ∧ schema_ok s.

(** The row stored at a key of a table. *)
Definition table_row (m : db) (s : Schema) (k : string) (row : Row) : Prop :=
  row_key s row = Ok k ∧ row_ok s row ∧ m !! k = Some (encode_row row).

Definition db_ok (m : db) : Prop :=
  ∀ k v, m !! k = Some v →
    (∃ s, table_schema m s ∧ k = catalog_key (s_name s)) ∨ (∃ s row, table_schema m s ∧ table_row m s k row).

Lemma row_ok_nonempty s row : validate s = Ok tt → row_ok s row → row ≠ [].
Proof.
  intros Hs Hr ->. apply Forall2_nil_inv_l in Hr. unfold validate in Hs. by rewrite Hr in Hs.
Qed.

Lemma table_schema_decodes m s : table_schema m s → decode_schema (s_name s) (encode_schema s) = Ok s.
Proof. intros [_ H]. by apply decode_encode_schema. Qed.

Lemma schema_det m s s' : table_schema m s → table_schema m s' → s_name s = s_name s' → s = s'.
Proof.
  intros H H' Hn. pose proof (table_schema_decodes m s H) as Hd. pose proof (table_schema_decodes m s' H') as Hd'.
  destruct H as [H _], H' as [H' _]. rewrite Hn in H, Hd. rewrite H in H'. injection H' as He.
  rewrite He, Hd' in Hd. by apply ok_inj in Hd.
Qed.

Lemma row_key_starts s row k : row_key s row = Ok k → starts_with k (row_prefix (s_name s)) = true.
Proof. intros (i & v & c & _ & _ & _ & _ & _ & ->)%row_key_inv. apply starts_with_app. eauto. Qed.

Lemma row_key_not_catalog s row k t : row_key s row = Ok k → catalog_key t ≠ k.
Proof.
  intros Hk%row_key_starts <-. apply starts_with_app in Hk as [r Hr]. by apply catalog_not_row in Hr.
Qed.

Lemma db_schema m table enc :
  db_ok m → m !! catalog_key table = Some enc → ∃ s, s_name s = table ∧ table_schema m s ∧ enc = encode_schema s.
Proof.
  intros Hdb Hm. destruct (Hdb _ _ Hm) as [(s & Hs & Hk)|(s & row & Hs & Hk & _)].
  - apply catalog_key_inj in Hk as ->. exists s. split_and!; [done..|]. destruct Hs as [Hs _]. rewrite Hs in Hm. by injection Hm.
  - by apply row_key_not_catalog with (t := table) in Hk.
Qed.

Lemma db_row m s k v :
  db_ok m → table_schema m s → starts_with k (row_prefix (s_name s)) = true → m !! k = Some v →
  ∃ row, table_row m s k row ∧ v = encode_row row.
Proof.
  intros Hdb Hs Hk Hm. apply starts_with_app in Hk as [r Hk].
  destruct (Hdb _ _ Hm) as [(s' & _ & Hc)|(s' & row & Hs' & (Hkey & Hrow & He))].
  - exfalso. eapply catalog_not_row. by rewrite <- Hc.
  - pose proof (row_key_inv _ _ _ Hkey) as (i & v' & c & _ & _ & _ & _ & _ & Hk').
    rewrite Hk in Hk'. apply row_prefix_inj in Hk' as [Hn _]; [|apply Hs|apply Hs'].
    pose proof (schema_det _ _ _ Hs Hs' Hn) as <-. exists row. split; [done|]. rewrite He in Hm. by injection Hm.
Qed.

Lemma db_row_decodes m s k row : table_schema m s → table_row m s k row → decode_row (encode_row row) s = Ok row.
Proof.
  intros [_ (Hv & _)] (_ & Hr & _). pose proof (row_ok_nonempty _ _ Hv Hr).
  by apply row_codec.
Qed.

Lemma schema_kept m s k v : (∀ t, catalog_key t ≠ k) → table_schema m s → table_schema (<[k := v]> m) s.
Proof. intros Hk [H ?]. split; [|done]. by rewrite lookup_insert_ne. Qed.
Lemma schema_left m s k : (∀ t, catalog_key t ≠ k) → table_schema m s → table_schema (base.delete k m) s.
Proof. intros Hk [H ?]. split; [|done]. by rewrite lookup_delete_ne. Qed.

Lemma put_row m s k row :
  db_ok m → table_schema m s → row_ok s row → row_key s row = Ok k → db_ok (<[k := encode_row row]> m).
Proof.
  intros Hdb Hs Hr Hk k' v. assert (∀ t, catalog_key t ≠ k) as Hc by (intros t; by eapply row_key_not_catalog).
  destruct (decide (k' = k)) as [->|Hne].
  - rewrite lookup_insert_eq. intros [= <-]. right. exists s, row. split; [by apply schema_kept|].
    split_and!; [done..|]. by rewrite lookup_insert_eq.
  - rewrite lookup_insert_ne by done. intros Hm. destruct (Hdb _ _ Hm) as [(s' & Hs' & He)|(s' & row' & Hs' & Hk' & Hr' & He)].
    + left. exists s'. split; [by apply schema_kept|done].
    + right. exists s', row'. split; [by apply schema_kept|]. split_and!; [done..|]. by rewrite lookup_insert_ne.
Qed.

Lemma remove_row m t k :
  db_ok m → starts_with k (row_prefix t) = true → db_ok (base.delete k m).
Proof.
  intros Hdb Hk k' v. apply starts_with_app in Hk as [r ->].
  assert (∀ t', catalog_key t' ≠ row_prefix t +:+ r) as Hc by (intros t' H; by eapply catalog_not_row).
  rewrite lookup_delete_Some. intros [Hne Hm].
  destruct (Hdb _ _ Hm) as [(s' & Hs' & He)|(s' & row' & Hs' & Hk' & Hr' & He)].
  - left. exists s'. split; [by apply schema_left|done].
  - right. exists s', row'. split; [by apply schema_left|]. split_and!; [done..|]. by rewrite lookup_delete_ne.
Qed.

Lemma add_table m s :
  db_ok m → schema_ok s → m !! catalog_key (s_name s) = None → db_ok (<[catalog_key (s_name s) := encode_schema s]> m).
Proof.
  intros Hdb Hs Hnew k v.
  assert (∀ s', table_schema m s' → table_schema (<[catalog_key (s_name s) := encode_schema s]> m) s') as Hkeep.
  { intros s' [Hl Ho]. split; [|done]. rewrite lookup_insert_ne; [done|]. intros He. rewrite <- He in Hl. by rewrite Hl in Hnew. }
  destruct (decide (k = catalog_key (s_name s))) as [->|Hne].
  - intros _. left. exists s. split; [|done]. split; [by rewrite lookup_insert_eq|done].
  - rewrite lookup_insert_ne by done. intros Hm. destruct (Hdb _ _ Hm) as [(s' & Hs' & He)|(s' & row' & Hs' & Hk' & Hr' & He)].
    + left. exists s'. split; [by apply Hkeep|done].
    + right. exists s', row'. split; [by apply Hkeep|]. split_and!; [done..|]. by rewrite lookup_insert_ne.
Qed.

Lemma db_ok_empty : db_ok ∅.
Proof. intros k v. by rewrite lookup_empty. Qed.

(** ** Pure steps *)

Lemma row_ok_lookup s row i c :
  row_ok s row → columns s !! i = Some c → ∃ v, row !! i = Some v ∧ value_ok v ∧ typed v (data_type c).
Proof. intros Hr Hc. destruct (Forall2_lookup_r _ _ _ _ _ Hr Hc) as (v & ? & ? & ?). eauto. Qed.

Lemma column_index_some s name i :
  column_index s name = Some i → ∃ c, columns s !! i = Some c ∧ c_name c = name.
Proof. intros (c & Hc & Hn)%position_some. zify_bools. eauto. Qed.

Lemma compare_safe op a b p : op ≠ OAnd → op ≠ OOr → compare op a b ≠ Panic p.
Proof.
  intros Ha Ho. unfold compare. destruct a, b; try done; cbn [mbind result_bind];
    match goal with |- context [order_satisfies op ?o] => destruct op, o; done end.
Qed.

Lemma eval_safe e row s p : row_ok s row → eval e row s ≠ Panic p.
Proof.
  intros Hr. induction e as [c|v|op l IHl r IHr] in p |- *; cbn [eval]; [|done|].
  - destruct (column_index s c) as [i|] eqn:Hi; [|done]. cbn [ok_or mbind result_bind].
    apply column_index_some in Hi as (col & Hc & _). destruct (row_ok_lookup _ _ _ _ Hr Hc) as (v & Hv & _).
    by rewrite (proj2 (index_ok _ _ _) Hv).
  - destruct (eval l row s) as [a| |]; [|done|by destruct (IHl msg)]. cbn [mbind result_bind].
    destruct (eval r row s) as [b| |]; [|done|by destruct (IHr msg)]. cbn [mbind result_bind].
    destruct op; try (by apply compare_safe); destruct a, b; cbn; repeat case_match; done.
Qed.

Lemma matches_safe f row s p : row_ok s row → matches_filter f row s ≠ Panic p.
Proof.
  intros Hr. destruct f as [e|]; [|done]. cbn [matches_filter]. pose proof (λ p, eval_safe e row s p Hr) as He.
  destruct (eval e row s); [done|done|by destruct (He msg)].
Qed.

(** An assignment keeps the row well-typed. *)
Lemma assign_ok s row column v :
  row_ok s row → value_ok v → match assign s row column v with Ok row' => row_ok s row' | Err _ => True | Panic _ => False end.
Proof.
  intros Hr Hv. unfold assign. destruct (column_index s column) as [i|] eqn:Hi; [|done]. cbn [ok_or mbind result_bind].
  apply column_index_some in Hi as (c & Hc & _). rewrite (proj2 (index_ok _ _ _) Hc). cbn [mbind result_bind].
  destruct (check_type v (data_type c)) as [[]|e|p] eqn:Ht; [|done|by destruct v, (data_type c)]. cbn [mbind result_bind].
  unfold set_index. pose proof (Forall2_length _ _ _ Hr) as Hl. pose proof (lookup_lt_Some _ _ _ Hc).
  rewrite (proj2 (Nat.ltb_lt _ _)) by lia. unfold row_ok.
  rewrite <- (list_insert_id (columns s) i c Hc). by apply Forall2_insert.
Qed.

Lemma assign_all_ok s assignments row :
  row_ok s row → Forall (λ a, value_ok a.2) assignments →
  match assign_all s assignments row with Ok row' => row_ok s row' | Err _ => True | Panic _ => False end.
Proof.
  intros Hr Hv. revert row Hr. induction Hv as [|[column v] rest Hv _ IH]; intros row Hr; cbn [assign_all]; [done|].
  pose proof (assign_ok s row column v Hr Hv). destruct (assign s row column v); [by apply IH|done..].
Qed.

Lemma fill_row_ok s pairs row assigned :
  row_ok s row → length assigned = length row → Forall (λ a, value_ok a.2) pairs →
  match fill_row s pairs row assigned with Ok row' => row_ok s row' | Err _ => True | Panic _ => False end.
Proof.
  intros Hr Hl Hv. revert row assigned Hr Hl. induction Hv as [|[column v] rest Hv _ IH]; intros row assigned Hr Hl; cbn [fill_row]; [done|].
  destruct (column_index s column) as [i|] eqn:Hi; [|done]. cbn [ok_or mbind result_bind].
  pose proof (column_index_some _ _ _ Hi) as (c & Hc & _). pose proof (lookup_lt_Some _ _ _ Hc) as Hlt.
  pose proof (Forall2_length _ _ _ Hr) as Hlr.
  destruct (index_lt (E:=io_error) assigned i ltac:(lia)) as (b & Hb & _). rewrite Hb. cbn [mbind result_bind].
  destruct b; [done|]. pose proof (assign_ok s row column v Hr Hv) as Ha.
  destruct (assign s row column v) as [row'|e|p]; [|done..]. cbn [mbind result_bind].
  unfold set_index. rewrite (proj2 (Nat.ltb_lt _ _)) by lia. cbn [mbind result_bind].
  apply IH; [done|]. pose proof (Forall2_length _ _ _ Ha). rewrite length_insert. lia.
Qed.

Lemma null_row_ok s : row_ok s (replicate (length (columns s)) VNull).
Proof. unfold row_ok. induction (columns s); constructor; done. Qed.

Lemma plan_safe sel s : validate s = Ok tt → ∃ p, plan_select sel s = Ok p ∧ p_select p = sel.
Proof.
  intros Hs. destruct (validate_primary s Hs) as (i & c & _ & _ & _ & Hpc). unfold plan_select. rewrite Hpc.
  cbn [mbind result_bind]. by eexists.
Qed.

(** ** Computations *)

Section laws.
Context {S : Type} `{HL : KvLaws S view ok is_str fails}.
Abbreviation sql := (M S io_error).

Definition hoare {A} (P : db → Prop) (m : sql A) (Q : A → db → Prop) (E : io_error → db → Prop) : Prop :=
  ∀ s, ok s → P (view s) → ∃ r s', m s = (r, s') ∧ ok s' ∧
    match r with Ok a => Q a (view s') | Err e => E e (view s') | Panic _ => False end.

Lemma hoare_ret {A} (a : A) P (Q : A → db → Prop) E : (∀ m, P m → Q a m) → hoare P (mret a) Q E.
Proof. intros H0 s Hs HP. exists (Ok a), s. split_and!; auto. Qed.
Lemma hoare_fail {A} e (P : db → Prop) (Q : A → db → Prop) E : (∀ m, P m → E e m) → hoare P (fail e) Q E.
Proof. intros H0 s Hs HP. exists (Err e), s. split_and!; auto. Qed.

Lemma hoare_bind {A B} (m : sql A) (f : A → sql B) P Q R E :
  hoare P m Q E → (∀ a, hoare (Q a) (f a) R E) → hoare P (m ≫= f) R E.
Proof.
  intros Hm Hf s Hs HP. destruct (Hm s Hs HP) as (r & s1 & Hr & Hs1 & HQ).
  destruct r as [a|e|p]; [|exists (Err e), s1; by rewrite (M_bind_err _ _ _ _ _ Hr)|done].
  destruct (Hf a s1 Hs1 HQ) as (r & s2 & Hr2 & H2). exists r, s2. by rewrite (M_bind_run _ _ _ _ _ Hr).
Qed.

(** A pure step: what it returns, and that it does not panic. *)
Lemma hoare_lift {A} (r : io A) (P : db → Prop) (Q : A → db → Prop) E :
  (∀ p, r ≠ Panic p) → (∀ e m, r = Err e → P m → E e m) → (∀ a m, r = Ok a → P m → Q a m) → hoare P (lift r) Q E.
Proof.
  intros Hp HE HQ s Hs HP. exists r, s. split_and!; [done..|]. destruct r as [a|e|p]; [by apply HQ|by apply HE|by eapply Hp].
Qed.

Lemma hoare_get k (P : db → Prop) (Q : option string → db → Prop) E :
  (∀ m, P m → Q (m !! k) m) → hoare P (kv_get k) Q E.
Proof. intros HQ s Hs HP. exists (Ok (view s !! k)), s. rewrite law_get by done. split_and!; auto. Qed.

Lemma hoare_scan p (P : db → Prop) (Q : list (string * string) → db → Prop) E :
  (∀ m rows, P m → scanned m p rows → Q rows m) → hoare P (kv_scan p) Q E.
Proof. intros HQ s Hs HP. destruct (law_scan s p Hs) as (rows & Hr & Hrows). exists (Ok rows), s. rewrite Hr. split_and!; auto. Qed.

Lemma hoare_write m f (P : db → Prop) (E : io_error → db → Prop) (Q : unit → db → Prop) :
  (∀ s, ok s → writes view ok fails m f s) → (∀ e d, P d → E e d) → (∀ d, P d → Q tt (f d)) → hoare P m Q E.
Proof.
  intros Hm HE HQ s Hs HP. destruct (Hm s Hs) as (s' & Hs' & [[Hr Hv]|(e & Hr & _ & Hv)]).
  - exists (Ok tt), s'. rewrite Hv. auto.
  - exists (Err e), s'. rewrite Hv. auto.
Qed.

(** A pure fact of the precondition is a hypothesis. *)
Lemma hoare_pure {A} (φ : Prop) (m : sql A) (P : db → Prop) Q E :
  (φ → hoare P m Q E) → hoare (λ d, P d ∧ φ) m Q E.
Proof. intros Hm s Hs [HP Hφ]. by apply Hm. Qed.

Lemma hoare_conseq {A} (m : sql A) (P P' : db → Prop) (Q Q' : A → db → Prop) (E E' : io_error → db → Prop) :
  hoare P m Q E → (∀ d, P' d → P d) → (∀ a d, Q a d → Q' a d) → (∀ e d, E e d → E' e d) → hoare P' m Q' E'.
Proof.
  intros Hm HP HQ HE s Hs Hp. destruct (Hm s Hs (HP _ Hp)) as (r & s' & Hr & Hs' & H0). exists r, s'.
  split_and!; [done..|]. destruct r; auto.
Qed.

(** Reading a schema, and the rows of its table. *)
Lemma load_schema_spec m table (E : io_error → db → Prop) :
  db_ok m → (∀ e, E e m) →
  hoare (λ d, d = m) (load_schema table) (λ s d, d = m ∧ s_name s = table ∧ table_schema m s) E.
Proof.
  intros Hdb HE. unfold load_schema.
  eapply hoare_bind; [apply (hoare_get _ _ (λ o d, d = m ∧ o = m !! catalog_key table)); by intros d ->|].
  intros o. cbn. eapply (hoare_bind _ _ _ (λ enc d, d = m ∧ m !! catalog_key table = Some enc)).
  - apply hoare_lift; [by destruct o|by intros e d _ [-> _]|]. intros enc d Ho [-> ->]. by apply ok_or_ok in Ho.
  - intros enc. cbn. intros st Hst [Hv Hm]. destruct (db_schema m table enc Hdb Hm) as (s & <- & Hs & ->).
    exists (Ok s), st. unfold lift. rewrite (table_schema_decodes m s Hs). by rewrite Hv.
Qed.

(** The rows of a table, in the order of their keys. *)
Definition table_list (m : db) (s : Schema) (rows : list (string * Row)) : Prop :=
  StronglySorted (λ p q, String.le p.1 q.1) rows ∧ NoDup rows.*1 ∧
  ∀ k row, (k, row) ∈ rows ↔ table_row m s k row.

Lemma decode_rows m s found :
  db_ok m → table_schema m s → scanned m (row_prefix (s_name s)) found →
  ∃ rows, try_map (λ '(key, encoded), row ← decode_row encoded s; Ok (key, row)) found = Ok rows ∧ table_list m s rows.
Proof.
  intros Hdb Hs (Hsort & Hnd & Hin).
  assert (∃ rows, try_map (λ '(key, encoded), row ← decode_row encoded s; Ok (key, row)) found = Ok rows ∧
    Forall2 (λ p q, p.1 = q.1 ∧ table_row m s q.1 q.2) found rows) as (rows & Hrows & Hall).
  { assert (∀ k v, (k, v) ∈ found → starts_with k (row_prefix (s_name s)) = true ∧ m !! k = Some v) as Hf by (intros; by apply Hin).
    clear Hin Hsort Hnd. induction found as [|[k v] found IH]; [by exists []; split; [|constructor]|].
    destruct IH as (rows & Hrows & Hall); [intros; apply Hf; by right|]. destruct (Hf k v ltac:(left)) as [Hk Hm].
    destruct (db_row m s k v Hdb Hs Hk Hm) as (row & Hrow & ->). exists ((k, row) :: rows). cbn.
    rewrite (db_row_decodes m s k row Hs Hrow). cbn [mbind result_bind]. rewrite Hrows. split; [done|]. by constructor. }
  exists rows. split; [done|].
  assert (rows.*1 = found.*1) as Hkeys.
  { clear -Hall. induction Hall as [|[] [] ? ? [? _] _ IH]; cbn in *; [done|]. by f_equal. }
  split_and!.
  - clear -Hsort Hall. revert rows Hall. induction Hsort as [|p found _ IH Hp]; intros rows Hall; inversion Hall; subst; constructor; [by apply IH|].
    destruct H1 as [<- _]. clear -Hp H3. induction H3 as [|a b la lb [Hab _] _ IH]; [constructor|]. inversion Hp; subst.
    constructor; [by rewrite <- Hab|by apply IH].
  - by rewrite Hkeys.
  - intros k row. split.
    + intros Hk. apply list_elem_of_lookup in Hk as (i & Hi). destruct (Forall2_lookup_r _ _ _ _ _ Hall Hi) as (p & _ & _ & Ht). done.
    + intros Ht. pose proof Ht as (Hk & _ & Hm). apply row_key_starts in Hk.
      assert ((k, encode_row row) ∈ found) as Hf by (by apply Hin).
      apply list_elem_of_lookup in Hf as (i & Hi). destruct (Forall2_lookup_l _ _ _ _ _ Hall Hi) as ([k' row'] & Hr & Hkk & Ht').
      cbn in Hkk, Ht'. subst k'. assert (row' = row) as ->.
      { pose proof (db_row_decodes m s k row Hs Ht) as Hd. pose proof (db_row_decodes m s k row' Hs Ht') as Hd'.
        destruct Ht as (_ & _ & Hm1), Ht' as (_ & _ & Hm2). rewrite Hm1 in Hm2. injection Hm2 as He.
        rewrite He, Hd' in Hd. by apply ok_inj in Hd. }
      by apply list_elem_of_lookup_2 in Hr.
Qed.

Lemma all_rows_spec m s (E : io_error → db → Prop) :
  db_ok m → table_schema m s →
  hoare (λ d, d = m) (all_rows s) (λ rows d, d = m ∧ table_list m s rows) E.
Proof.
  intros Hdb Hs. unfold all_rows.
  eapply hoare_bind; [apply (hoare_scan _ _ (λ found d, d = m ∧ scanned m (row_prefix (s_name s)) found)); by intros d rows ->|].
  intros found st Hst [Hv Hf]. destruct (decode_rows m s found Hdb Hs Hf) as (rows & Hr & Hl).
  exists (Ok rows), st. unfold lift. by rewrite Hr.
Qed.
End laws.
