(* ===== verification/ExecutorSim.v ===== *)
(** Every lawful transaction runs a statement as a plain map does.

    The executor is one program over the interface of Kv.v.  [sim] relates its
    runs over two implementations, one kept to its contract and the other a map
    whose writes fail when a script says so: the same answers, and what the one
    shows is the other's map.  So what a statement answers, refuses and leaves
    behind depends on the tables it sees and on which writes fail, and on
    nothing else. *)

From S2P Require Import Prelude Bytes SqlAst Catalog CatalogSpec Kv Executor ExecutorSpec.
From Stdlib Require Import Ascii.

(** A statement over a map, some of its writes failing with errors of [fails]. *)
Definition runs_on (fails : io_error → Prop) (stmt : Statement) (m : db) (r : io SqlResult) (m' : db) : Prop :=
  ∃ script rest, scripted_ok fails (script, m) ∧ execute_data stmt (script, m) = (r, (rest, m')).

Lemma scanned_unique m p rows rows' : scanned m p rows → scanned m p rows' → rows = rows'.
Proof.
  intros (Hs1 & Hn1 & Hi1) (Hs2 & Hn2 & Hi2). eapply StronglySorted_unique_strong; [|exact Hs1|exact Hs2|].
  - intros [k v] [k' v'] H1 H2 Hle Hle'. cbn in Hle, Hle'. assert (k = k') as <- by (by apply (anti_symm String.le)).
    apply Hi1 in H1 as [_ H1]. apply Hi2 in H2 as [_ H2]. congruence.
  - apply NoDup_Permutation; [by eapply NoDup_fmap_1|by eapply NoDup_fmap_1|]. intros [k v]. by rewrite Hi1, Hi2.
Qed.

Section sim.
Context {S : Type} `{HL : KvLaws S view ok any_text fails}.

(** [m'], given the failures of [m]'s writes, answers as [m] and ends in the map
    that [m] then shows. *)
Definition sim {A} (m : M S io_error A) (m' : M scripted io_error A) : Prop :=
  ∀ s, ok s → ∃ script r s', m s = (r, s') ∧ ok s' ∧ (∀ e, Some e ∈ script → fails e) ∧
    ∀ rest, m' (script ++ rest, view s) = (r, (rest, view s')).

Lemma sim_pure {A} (m : M S io_error A) (m' : M scripted io_error A) r :
  (∀ s, m s = (r, s)) → (∀ s, m' s = (r, s)) → sim m m'.
Proof. intros Hm Hm' s Hs. exists [], r, s. split_and!; [done..|by intros e ?%elem_of_nil|done]. Qed.

Lemma sim_ret {A} (a : A) : sim (mret a) (mret a).
Proof. by eapply sim_pure. Qed.
Lemma sim_fail {A} e : sim (fail e : M S io_error A) (fail e).
Proof. by eapply sim_pure. Qed.
Lemma sim_lift {A} (r : io A) : sim (lift r) (lift r).
Proof. by eapply sim_pure. Qed.

Lemma sim_bind {A B} (m : M S io_error A) m' (f : A → M S io_error B) f' :
  sim m m' → (∀ a, sim (f a) (f' a)) → sim (m ≫= f) (m' ≫= f').
Proof.
  intros Hm Hf s Hs. destruct (Hm s Hs) as (sc & r & s1 & Hr & Hs1 & Hsc & Hr'). destruct r as [a|e|p].
  - destruct (Hf a s1 Hs1) as (sc2 & r2 & s2 & Hr2 & Hs2 & Hsc2 & Hr2'). exists (sc ++ sc2), r2, s2.
    split_and!; [by rewrite (M_bind_run _ _ _ _ _ Hr)|done| |].
    + intros e [?|?]%elem_of_app; auto.
    + intros rest. rewrite <- app_assoc. by rewrite (M_bind_run _ _ _ _ _ (Hr' _)).
  - exists sc, (Err e), s1. split_and!; [by rewrite (M_bind_err _ _ _ _ _ Hr)|done..|].
    intros rest. by rewrite (M_bind_err _ _ _ _ _ (Hr' _)).
  - exists sc, (Panic p), s1. split_and!; [by rewrite (M_bind_panic _ _ _ _ _ Hr)|done..|].
    intros rest. by rewrite (M_bind_panic _ _ _ _ _ (Hr' _)).
Qed.

Lemma sim_get k : sim (kv_get k) (kv_get k).
Proof. intros s Hs. exists [], (Ok (view s !! k)), s. split_and!; [by apply law_get|done|by intros e ?%elem_of_nil|done]. Qed.

Lemma sim_scan p : sim (kv_scan p) (kv_scan p).
Proof.
  intros s Hs. destruct (law_scan s p Hs) as (rows & Hr & Hrows). exists [], (Ok rows), s.
  split_and!; [done|done|by intros e ?%elem_of_nil|]. intros rest. cbn. do 2 f_equal.
  apply (scanned_unique (view s) p); [apply mem_scan_spec|done].
Qed.

Lemma sim_write m f : (∀ s, ok s → writes view ok fails m f s) → sim m (scripted_write f).
Proof.
  intros Hm s Hs. destruct (Hm s Hs) as (s' & Hs' & [[Hr Hv]|(e & Hr & He & Hv)]).
  - exists [None], (Ok tt), s'. split_and!; [done..| |].
    + by intros e Hin%list_elem_of_singleton.
    + intros rest. cbn. by rewrite Hv.
  - exists [Some e], (Err e), s'. split_and!; [done..| |].
    + intros e' [= <-]%list_elem_of_singleton. done.
    + intros rest. cbn. by rewrite Hv.
Qed.

Lemma sim_set k v : sim (kv_set k v) (kv_set k v).
Proof. apply sim_write. intros s Hs. by apply law_set. Qed.
Lemma sim_delete k : sim (kv_delete k) (kv_delete k).
Proof. apply sim_write. intros s Hs. by apply law_delete. Qed.

Ltac sim_tac :=
  repeat first
    [ progress intros
    | solve [auto using sim_ret, sim_fail, sim_lift, sim_get, sim_scan, sim_set, sim_delete]
    | match goal with |- sim (_ ≫= _) _ => apply sim_bind end
    | match goal with |- sim (if ?b then _ else _) _ => destruct b end
    | match goal with |- sim (match ?x with _ => _ end) _ => destruct x end ].

Lemma sim_load_schema table : sim (load_schema table) (load_schema table).
Proof. unfold load_schema. sim_tac. Qed.
Lemma sim_all_rows s : sim (all_rows s) (all_rows s).
Proof. unfold all_rows. sim_tac. Qed.
Lemma sim_access_rows s p : sim (access_rows s p) (access_rows s p).
Proof. pose proof sim_all_rows. unfold access_rows. sim_tac. Qed.
Lemma sim_move_row old new : sim (move_row old new) (move_row old new).
Proof. unfold move_row. sim_tac. Qed.
Lemma sim_update_rows s assignments f rows n : sim (update_rows s assignments f rows n) (update_rows s assignments f rows n).
Proof. pose proof sim_move_row. revert n. induction rows as [|[k row] rows IH]; intros n; cbn [update_rows]; sim_tac. Qed.
Lemma sim_delete_rows s f rows n : sim (delete_rows s f rows n) (delete_rows s f rows n).
Proof. revert n. induction rows as [|[k row] rows IH]; intros n; cbn [delete_rows]; sim_tac. Qed.

Lemma sim_statement stmt : sim (execute_data stmt) (execute_data stmt).
Proof.
  pose proof sim_load_schema. pose proof sim_all_rows. pose proof sim_access_rows.
  pose proof sim_update_rows. pose proof sim_delete_rows.
  destruct stmt; cbn [execute_data];
    unfold create_table, save_schema, insert, select_rows, update, delete, explain; sim_tac.
Qed.

Lemma sim_runs stmt st r st' :
  ok st → execute_data stmt st = (r, st') → runs_on fails stmt (view st) r (view st') ∧ ok st'.
Proof.
  intros Hst Hrun. destruct (sim_statement stmt st Hst) as (script & r' & s' & Hr & Hs' & Hsc & Hr').
  rewrite Hrun in Hr. injection Hr as <- <-. split; [|done]. exists script, []. split; [done|].
  specialize (Hr' []). by rewrite app_nil_r in Hr'.
Qed.

End sim.

(** An UPDATE of the primary key whose second write fails: the row is gone. *)
Definition full : io_error := IoError Other "full".
Definition only_full (e : io_error) : Prop := e = full.
Definition one_row : db :=
  foldl (λ d stmt, (execute_data stmt d).2) ∅
    [SCreateTable "T" [MkColumn "ID" DInteger true]; SInsert "T" ["ID"] [VInteger 1]].
Definition move_it : Statement := SUpdate "T" [("ID", VInteger 5)] None.
Definition before_move : scripted := ([None; Some full], one_row).
Definition after_move : scripted := (execute_data move_it before_move).2.

