(* ===== verification/QuerySpec.v ===== *)
(** What queries answer.

    The pull iterator computes the filter of a list, [sort_by] a stable sort, and
    the access path the planner chooses does not change the answer.  The meaning
    of a query is stated without them: which rows, in which order of which
    column's values ([ordered_by]), which lines under which headings
    ([query_answer]), and when there is an answer at all ([answerable]). *)

From Stdlib Require Import Ascii.
From S2P Require Import Prelude Bytes SqlAst Catalog CatalogSpec Kv Executor ExecutorSpec.

(** ** The pull iterator *)

(** Keep what [f] accepts, left to right, stopping at the first failure. *)
Fixpoint try_filter {A} (f : A → io bool) (l : list A) : io (list A) :=
  match l with
  | [] => Ok []
  | a :: l => b ← f a; rest ← try_filter f l; Ok (if (b : bool) then a :: rest else rest)
  end.

Lemma try_filter_ok {A} (f : A → io bool) l kept :
  try_filter f l = Ok kept →
  kept = List.filter (λ a, match f a with Ok b => b | _ => false end) l ∧ Forall (λ a, ∃ b, f a = Ok b) l.
Proof.
  revert kept. induction l as [|a l IH]; intros kept; cbn; [by intros [= <-]|].
  intros (b & Hb & (rest & Hr & Hk)%bind_ok)%bind_ok. apply ok_inj in Hk as <-. destruct (IH _ Hr) as [-> Hall].
  rewrite Hb. split; [by destruct b|]. constructor; [by exists b|done].
Qed.

Lemma try_filter_all {A} (f : A → io bool) l : (∀ a, f a = Ok true) → try_filter f l = Ok l.
Proof. intros Hf. induction l as [|a l IH]; [done|]. cbn. by rewrite Hf, IH. Qed.

Lemma try_filter_one {A} (f : A → io bool) a : f a = Ok true → try_filter f [a] = Ok [a].
Proof. intros Hf. cbn. by rewrite Hf. Qed.

Lemma try_filter_safe {A} (f : A → io bool) l p :
  Forall (λ a, ∀ p, f a ≠ Panic p) l → try_filter f l ≠ Panic p.
Proof.
  intros Hl. induction Hl as [|a l Ha _ IH] in p |- *; [done|]. cbn.
  destruct (f a); [|done|by destruct (Ha msg)]. cbn. destruct (try_filter f l); [done|done|by destruct (IH msg)].
Qed.

Definition filtering (rows : list Row) (e : Expr) (s : Schema) : RowSource := FilterSource (VecSource rows) e s.

(** One call on a source whose first row is [row]. *)
Lemma next_filtering row rows e s :
  next (source_fuel (filtering (row :: rows) e s)) (filtering (row :: rows) e s)
  = match matches_filter (Some e) row s with
    | Ok true => (Ok (Some row), filtering rows e s)
    | Ok false => next (source_fuel (filtering rows e s)) (filtering rows e s)
    | Err x => (Err x, filtering rows e s)
    | Panic p => (Panic p, filtering rows e s)
    end.
Proof.
  unfold filtering. cbn [source_fuel length].
  change (next (S (S (S (length rows))))) with
    (λ src : RowSource,
      match src with
      | VecSource [] => (Ok None, VecSource [])
      | VecSource (row :: rows) => (Ok (Some row), VecSource rows)
      | FilterSource input filter schema =>
        (found ← zoom (λ _, input) (set_input filter schema) (next (S (S (length rows))));
         match found with
         | None => mret None
         | Some row =>
           keep ← lift (matches_filter (Some filter) row schema);
           if (keep : bool) then mret (Some row) else next (S (S (length rows)))
         end : M RowSource io_error (option Row)) src
      end). cbv beta iota.
  erewrite M_bind_run by reflexivity. unfold set_input. cbv beta iota.
  destruct (matches_filter (Some e) row s) as [[]| |]; reflexivity.
Qed.

Lemma drain_filtering rows e s acc fuel :
  length rows < fuel →
  fst (drain fuel acc (filtering rows e s))
  = (kept ← try_filter (λ row, matches_filter (Some e) row s) rows; Ok (acc ++ kept)).
Proof.
  revert acc fuel. induction rows as [|row rows IH]; intros acc fuel Hf; (destruct fuel as [|fuel]; [lia|]).
  { cbn. by rewrite app_nil_r. }
  cbn [drain]. rewrite run_get. cbn [try_filter].
  assert (∀ (g : option Row → M RowSource io_error (list Row)), (next (source_fuel (filtering (row :: rows) e s)) ≫= g) (filtering (row :: rows) e s)
    = match matches_filter (Some e) row s with
      | Ok true => g (Some row) (filtering rows e s)
      | Ok false => (next (source_fuel (filtering rows e s)) ≫= g) (filtering rows e s)
      | Err x => (Err x, filtering rows e s)
      | Panic p => (Panic p, filtering rows e s)
      end) as Hstep.
  { intros g. unfold mbind at 1, M_bind at 1. rewrite next_filtering.
    by destruct (matches_filter (Some e) row s) as [[]| |]. }
  rewrite Hstep. destruct (matches_filter (Some e) row s) as [[]|x|p]; [| |done..]; cbn [mbind result_bind].
  - cbn [length] in Hf. rewrite IH by lia. destruct (try_filter _ rows); [|done..]. cbn. by rewrite <- app_assoc.
  - cbn [length] in Hf. specialize (IH acc (S fuel) ltac:(lia)). cbn [drain] in IH. rewrite run_get in IH.
    etransitivity; [exact IH|]. by destruct (try_filter _ rows).
Qed.

Lemma drain_vec rows acc fuel :
  length rows < fuel → fst (drain fuel acc (VecSource rows)) = Ok (acc ++ rows).
Proof.
  revert acc fuel. induction rows as [|row rows IH]; intros acc fuel Hf; (destruct fuel as [|fuel]; [lia|]).
  { cbn. by rewrite app_nil_r. }
  cbn [drain]. rewrite run_get. cbn [source_fuel]. erewrite M_bind_run by reflexivity. cbv iota beta.
  cbn [length] in Hf. rewrite IH by lia. by rewrite <- app_assoc.
Qed.

(** ** The answer to a query over rows *)

Definition run_query (s : Schema) (q : Select) (rows : list Row) : io SqlResult :=
  kept ← try_filter (λ row, matches_filter (s_filter q) row s) rows;
  sorted ← sort_rows s (s_order q) kept;
  '(names, indexes) ← projection s (s_projection q);
  projected ← try_map (λ row, try_map (index row) indexes) (truncate (s_limit q) sorted);
  Ok (RRows names projected).

Lemma answer_select_query q s rows : answer_select q s rows = run_query s q rows.
Proof.
  unfold answer_select, run_query, materialize. destruct (s_filter q) as [e|].
  - change (FilterSource (VecSource rows) e s) with (filtering rows e s). rewrite drain_filtering by (cbn; lia).
    by destruct (try_filter _ rows).
  - rewrite drain_vec by (cbn; lia). cbn [mbind result_bind app].
    by rewrite try_filter_all.
Qed.

Lemma column_index_range s name i : column_index s name = Some i → i < length (columns s).
Proof. intros (c & Hc & _)%column_index_some. by eapply lookup_lt_Some. Qed.

Lemma elem_of_insert_by {A} (cmp : A → A → comparison) a l : insert_by cmp a l ≡ₚ a :: l.
Proof.
  induction l as [|b l IH]; cbn; [done|]. destruct (cmp a b); [done|done|]. rewrite IH. apply Permutation_swap.
Qed.

Lemma sort_by_perm {A} (cmp : A → A → comparison) l : sort_by cmp l ≡ₚ l.
Proof.
  induction l as [|a l IH]; [done|]. change (sort_by cmp (a :: l)) with (insert_by cmp a (sort_by cmp l)).
  by rewrite elem_of_insert_by, IH.
Qed.

Lemma truncate_sub limit rows row : row ∈ truncate limit rows → row ∈ rows.
Proof. unfold truncate. repeat case_match; try done. apply subseteq_take. Qed.

(** ** Ordering *)

Record total_cmp {A} (cmp : A → A → comparison) : Prop := TotalCmp {
  cmp_opp a b : cmp b a = CompOpp (cmp a b);
  cmp_trans a b c : cmp a b ≠ Gt → cmp b c ≠ Gt → cmp a c ≠ Gt;
}.

Lemma total_flip {A} (cmp : A → A → comparison) : total_cmp cmp → total_cmp (λ a b, CompOpp (cmp a b)).
Proof.
  intros [Ho Ht]. split.
  - intros a b. by rewrite (Ho a b).
  - intros a b c. rewrite <- !Ho. intros H1 H2. by apply Ht with b.
Qed.

Lemma total_comap {A B} (f : A → B) (cmp : B → B → comparison) : total_cmp cmp → total_cmp (λ a b, cmp (f a) (f b)).
Proof. intros [Ho Ht]. split; intros *; [apply Ho|apply Ht]. Qed.

Lemma total_values : total_cmp value_cmp.
Proof.
  split.
  - intros [|x|x|x] [|y|y|y]; cbn; try done; [apply Z.compare_antisym|unfold str_cmp; apply String.compare_antisym|by destruct x, y].
  - assert (∀ a b c : string, str_cmp a b ≠ Gt → str_cmp b c ≠ Gt → str_cmp a c ≠ Gt) as Hs.
    { assert (∀ a b, str_cmp a b ≠ Gt ↔ String.le a b) as Hle.
      { intros a b. unfold str_cmp, String.le, String.leb. by destruct (String.compare a b). }
      intros a b c. rewrite !Hle. apply (transitivity (R:=String.le)). }
    intros [|x|x|x] [|y|y|y] [|z|z|z]; cbn; try done; [rewrite !Z.compare_gt_iff; lia|apply Hs|].
    by destruct x, y, z.
Qed.

Lemma compare_for_sort_cmp a b : compare_for_sort a b = value_cmp a b.
Proof. by destruct a, b. Qed.

Lemma total_rows i asc : total_cmp (row_order i asc).
Proof.
  assert (total_cmp (λ a b, compare_for_sort (cell a i) (cell b i))) as H.
  { apply (total_comap (λ r, cell r i)). destruct total_values as [Ho Ht].
    split; intros *; rewrite !compare_for_sort_cmp; [apply Ho|apply Ht]. }
  destruct asc; [exact H|exact (total_flip _ H)].
Qed.

Lemma sort_by_sorted {A} (cmp : A → A → comparison) l :
  total_cmp cmp → StronglySorted (λ a b, cmp a b ≠ Gt) (sort_by cmp l).
Proof.
  intros [Ho Ht]. induction l as [|a l IH]; [constructor|].
  change (sort_by cmp (a :: l)) with (insert_by cmp a (sort_by cmp l)). induction IH as [|b l' Hs IH Hb]; cbn.
  { repeat constructor. }
  destruct (cmp a b) eqn:Hab.
  3: { constructor; [exact IH|]. rewrite elem_of_insert_by. constructor; [|done]. rewrite Ho, Hab. done. }
  all: constructor; [by constructor|]; constructor; [by rewrite Hab|];
    eapply Forall_impl; [exact Hb|]; intros c Hc; apply Ht with b; [by rewrite Hab|done].
Qed.

Definition same_rank {A} (cmp : A → A → comparison) (a b : A) : bool :=
  match cmp a b with Eq => true | _ => false end.

(** Equal elements keep their order. *)
Lemma sort_by_stable {A} (cmp : A → A → comparison) x l :
  total_cmp cmp → List.filter (same_rank cmp x) (sort_by cmp l) = List.filter (same_rank cmp x) l.
Proof.
  intros [Ho Ht]. induction l as [|a l IH]; [done|].
  change (sort_by cmp (a :: l)) with (insert_by cmp a (sort_by cmp l)). cbn [List.filter]. rewrite <- IH. clear IH.
  induction (sort_by cmp l) as [|b l' IH]; [done|]. cbn [insert_by]. destruct (cmp a b) eqn:Hab; [done|done|].
  cbn [List.filter]. rewrite IH. destruct (same_rank cmp x a) eqn:Ha; [|done].
  destruct (same_rank cmp x b) eqn:Hb; [|done]. exfalso. unfold same_rank in *.
  destruct (cmp x a) eqn:Hxa; try done. destruct (cmp x b) eqn:Hxb; try done.
  apply (Ht a x b); [by rewrite Ho, Hxa|by rewrite Hxb|done].
Qed.

(** ** Filters on the primary key *)

Lemma check_names_spec earlier rest :
  check_names earlier rest = Ok tt → NoDup (c_name <$> earlier) → NoDup (c_name <$> earlier ++ rest).
Proof.
  revert earlier. induction rest as [|c rest IH]; intros earlier; cbn; [by rewrite app_nil_r|].
  case_match eqn:Hd; [done|]. intros Hr Hnd. change (c :: rest) with ([c] ++ rest). rewrite app_assoc. apply IH; [done|].
  rewrite fmap_app. apply NoDup_app. split_and!; [done| |apply NoDup_singleton].
  intros n Hn Hc. cbn in Hc. apply list_elem_of_singleton in Hc as ->. apply list_elem_of_fmap in Hn as (e & He & Hin).
  apply not_true_iff_false in Hd. apply Hd. apply existsb_exists. exists e. split; [by apply list_elem_of_In|].
  by apply bool_decide_eq_true.
Qed.

Lemma validate_names s : validate s = Ok tt → NoDup (c_name <$> columns s).
Proof.
  unfold validate. destruct (columns s) as [|c cs] eqn:Hcs; [done|]. case_match; [done|].
  intros Hn. apply (check_names_spec []) in Hn; [done|constructor].
Qed.

Lemma position_first {A} (f : A → bool) l i a :
  l !! i = Some a → f a = true → (∀ j b, l !! j = Some b → f b = true → j = i) → position f l = Some i.
Proof.
  revert i. induction l as [|b l IH]; intros i Hi Ha Hu; [done|]. cbn. destruct (f b) eqn:Hb.
  - f_equal. by apply (Hu 0 b).
  - destruct i as [|i]; [cbn in Hi; congruence|]. cbn in Hi. rewrite (IH i Hi Ha); [done|].
    intros j c Hj Hc. specialize (Hu (S j) c Hj Hc). lia.
Qed.

Lemma column_index_name s i c :
  validate s = Ok tt → columns s !! i = Some c → column_index s (c_name c) = Some i.
Proof.
  intros Hv Hi. unfold column_index. eapply position_first; [exact Hi|by apply bool_decide_eq_true|].
  intros j b Hj Hb. zify_bools. pose proof (validate_names s Hv) as Hnd.
  apply (NoDup_lookup _ j i (c_name c) Hnd); rewrite list_lookup_fmap; [by rewrite Hj, <- Hb|by rewrite Hi].
Qed.

Lemma compare_eq_values v w ty :
  typed v ty → typed w ty → v ≠ VNull → w ≠ VNull → compare OEq v w = Ok (VBoolean (bool_decide (v = w))).
Proof.
  intros Hv Hw Hnv Hnw. destruct v as [|x|x|x], w as [|y|y|y], ty; try done; cbn.
  - destruct (Z.compare_spec x y) as [->|H|H]; cbn; do 2 f_equal; symmetry;
      [by apply bool_decide_eq_true|apply bool_decide_eq_false; intros [=]; lia..].
  - destruct (str_cmp x y) eqn:H; cbn; do 2 f_equal; symmetry.
    + apply bool_decide_eq_true. f_equal. by apply String.compare_eq_iff.
    + apply bool_decide_eq_false. intros [= ->]. unfold str_cmp in H. pose proof (String.compare_antisym y y) as Ha. by rewrite H in Ha.
    + apply bool_decide_eq_false. intros [= ->]. unfold str_cmp in H. pose proof (String.compare_antisym y y) as Ha. by rewrite H in Ha.
  - by destruct x, y.
Qed.

Lemma primary_equality_inv e name v :
  primary_equality e name = Some v →
  e = EBinary OEq (EColumn name) (ELiteral v) ∨ e = EBinary OEq (ELiteral v) (EColumn name).
Proof.
  unfold primary_equality. destruct e as [| |[] [] []]; try done; case_decide; naive_solver.
Qed.

Lemma bool_decide_true_value b : bool_decide (VBoolean b = VBoolean true) = b.
Proof. by destruct b. Qed.

(** On a row of the table, such a filter compares the row's primary value. *)
Lemma match_primary m s k row c e v :
  validate s = Ok tt → table_row m s k row → primary_column s = Ok c → primary_equality e (c_name c) = Some v →
  typed v (data_type c) →
  ∃ w, matches_filter (Some e) row s = Ok (bool_decide (w = v)) ∧ w ≠ VNull ∧ value_ok w ∧
    k = row_prefix (s_name s) +:+ of_bytes (hex (encode_value w)).
Proof.
  intros Hv (Hk & Hr & _) Hc He Ht. destruct (row_key_inv _ _ _ Hk) as (i & w & c' & Hi & Hw & Hnn & Hc' & Htw & ->).
  rewrite Hc in Hc'. apply ok_inj in Hc' as <-.
  destruct (validate_primary s Hv) as (i' & c' & Hi' & Hcc & _ & Hpc). rewrite Hi in Hi'. apply ok_inj in Hi' as <-.
  rewrite Hc in Hpc. apply ok_inj in Hpc as <-. pose proof (column_index_name s i c Hv Hcc) as Hci.
  destruct (row_ok_lookup _ _ _ _ Hr Hcc) as (w' & Hw' & Hok & _). rewrite Hw in Hw'. injection Hw' as <-.
  exists w. split_and!; [|done..]. pose proof (proj2 (index_ok (E:=io_error) row i w) Hw) as Hidx.
  destruct (decide (v = VNull)) as [->|Hnv].
  - rewrite bool_decide_false by done. apply primary_equality_inv in He as [->| ->]; cbn [matches_filter eval mbind result_bind];
      rewrite Hci; cbn [ok_or mbind result_bind]; rewrite Hidx; cbn [mbind result_bind]; by destruct w.
  - apply primary_equality_inv in He as [->| ->]; cbn [matches_filter eval mbind result_bind]; rewrite Hci;
      cbn [ok_or mbind result_bind]; rewrite Hidx; cbn [mbind result_bind].
    + rewrite (compare_eq_values w v (data_type c)) by done. cbn [mbind result_bind]. by rewrite bool_decide_true_value.
    + rewrite (compare_eq_values v w (data_type c)) by done. cbn [mbind result_bind].
      rewrite bool_decide_true_value. f_equal. apply bool_decide_ext. by split.
Qed.

(** The rows a primary-key filter keeps: at most the one at its key. *)
Lemma filter_key (rows : list (string * Row)) k :
  NoDup rows.*1 →
  List.filter (λ p, bool_decide (p.1 = k)) rows =
  match (list_to_map rows : gmap string Row) !! k with Some row => [(k, row)] | None => [] end.
Proof.
  induction rows as [|[k' row] rows IH]; cbn; [done|]. intros [Hni Hnd]%NoDup_cons. rewrite IH by done. clear IH.
  destruct (decide (k' = k)) as [->|Hne].
  - rewrite bool_decide_true by done. rewrite lookup_insert_eq, not_elem_of_list_to_map_1; done.
  - rewrite bool_decide_false by done. by rewrite lookup_insert_ne.
Qed.

Lemma try_filter_pairs {A B} (f : B → io bool) (g : A → bool) (l : list (A * B)) :
  Forall (λ p, f p.2 = Ok (g p.1)) l → try_filter f l.*2 = Ok (List.filter (λ p, g p.1) l).*2.
Proof.
  induction 1 as [|[a b] l Hp _ IH]; [done|]. cbn [fst snd] in Hp. cbn [fmap list_fmap snd try_filter List.filter fst].
  rewrite Hp. cbn [mbind result_bind]. rewrite IH. by destruct (g a).
Qed.

(** The constants of an expression. *)
Fixpoint expr_wf (e : Expr) : Prop :=
  match e with EColumn _ => True | ELiteral v => value_ok v | EBinary _ l r => expr_wf l ∧ expr_wf r end.
Definition filter_wf (f : option Expr) : Prop := match f with Some e => expr_wf e | None => True end.

(** Whether a literal that the filter compares with the key is of its type. *)
Definition literal_fits (s : Schema) (q : Select) : bool :=
  match primary_column s, s_filter q with
  | Ok c, Some e => match primary_equality e (c_name c) with Some v => is_ok (check_type v (data_type c)) | None => true end
  | _, _ => true
  end.
Definition wrong_type : io_error := invalid_input "sql: value has the wrong column type".

Lemma primary_equality_wf e key v : expr_wf e → primary_equality e key = Some v → value_ok v.
Proof. intros He [-> | ->]%primary_equality_inv; apply He. Qed.

Lemma table_list_lookup m s rows k row :
  table_list m s rows → (list_to_map rows : gmap string Row) !! k = Some row ↔ table_row m s k row.
Proof. intros (_ & Hnd & Hin). rewrite <- elem_of_list_to_map by done. apply Hin. Qed.

Lemma table_row_det m s k row row' : table_schema m s → table_row m s k row → table_row m s k row' → row = row'.
Proof.
  intros Hs Ht Ht'. pose proof (db_row_decodes m s k row Hs Ht) as Hd. pose proof (db_row_decodes m s k row' Hs Ht') as Hd'.
  destruct Ht as (_ & _ & Hm1), Ht' as (_ & _ & Hm2). rewrite Hm1 in Hm2. injection Hm2 as He.
  rewrite He, Hd' in Hd. by apply ok_inj in Hd.
Qed.

Lemma table_list_det m s rows rows' : table_schema m s → table_list m s rows → table_list m s rows' → rows = rows'.
Proof.
  intros Hs (Hs1 & Hn1 & Hi1) (Hs2 & Hn2 & Hi2).
  eapply StronglySorted_unique_strong; [|exact Hs1|exact Hs2|].
  - intros [k row] [k' row'] H1 H2 Hle Hle'. cbn in Hle, Hle'. assert (k = k') as <- by (by apply (anti_symm String.le)).
    apply Hi1 in H1. apply Hi2 in H2. by rewrite (table_row_det m s k row row').
  - apply NoDup_Permutation; [by eapply NoDup_fmap_1|by eapply NoDup_fmap_1|]. intros [k row]. by rewrite Hi1, Hi2.
Qed.

Lemma primary_filter m s rows c e v :
  validate s = Ok tt → table_list m s rows → primary_column s = Ok c → primary_equality e (c_name c) = Some v →
  value_ok v → typed v (data_type c) →
  try_filter (λ row, matches_filter (Some e) row s) rows.*2 =
  Ok (match (list_to_map rows : gmap string Row) !! (row_prefix (s_name s) +:+ of_bytes (hex (encode_value v))) with
      | Some row => if decide (v = VNull) then [] else [row] | None => [] end).
Proof.
  intros Hv Hl Hc He Hok Ht. destruct Hl as (Hs & Hnd & Hin).
  set (key := row_prefix (s_name s) +:+ of_bytes (hex (encode_value v))).
  set (g := λ k, bool_decide (k = key) && negb (bool_decide (v = VNull))).
  assert (Forall (λ p, matches_filter (Some e) p.2 s = Ok (g p.1)) rows) as Hall.
  { apply Forall_forall. intros [k row] Hk. apply Hin in Hk. cbn [fst snd].
    destruct (match_primary m s k row c e v Hv Hk Hc He Ht) as (w & Hm & Hn & Hw & Hkey). rewrite Hm. f_equal.
    unfold g. destruct (decide (v = VNull)) as [->|Hnv].
    - rewrite (bool_decide_true (VNull = VNull)) by done. rewrite andb_false_r. by apply bool_decide_eq_false.
    - rewrite (bool_decide_false (v = VNull)) by done. rewrite andb_true_r. apply bool_decide_ext. split; [by intros ->|].
      rewrite Hkey. unfold key. intros Hk'. apply (f_equal as_bytes) in Hk'. rewrite !as_bytes_app, !as_of_bytes in Hk'.
      apply app_inv_head, hex_inj, encode_value_inj in Hk'; done. }
  rewrite (try_filter_pairs (λ row, matches_filter (Some e) row s) g) by exact Hall.
  f_equal. unfold g. destruct (decide (v = VNull)) as [->|Hnv].
  - rewrite (bool_decide_true (VNull = VNull)) by done. cbn [negb].
    assert (List.filter (λ p : string * Row, bool_decide (p.1 = key) && false) rows = []) as ->.
    { clear. induction rows as [|p rows IH]; [done|]. cbn. by rewrite andb_false_r. }
    by destruct (_ !! key).
  - rewrite (bool_decide_false (v = VNull)) by done. cbn [negb].
    assert (List.filter (λ p : string * Row, bool_decide (p.1 = key) && true) rows = List.filter (λ p, bool_decide (p.1 = key)) rows) as ->.
    { clear. induction rows as [|p rows IH]; [done|]. cbn. by rewrite andb_true_r, IH. }
    rewrite filter_key by done. by destruct (_ !! key).
Qed.

(** A query over well-typed rows never panics. *)
Lemma projection_range s p names indexes :
  projection s p = Ok (names, indexes) → Forall (λ i, i < length (columns s)) indexes.
Proof.
  destruct p as [|cs]; cbn.
  - intros [= <- <-]. apply Forall_forall. intros i Hi. apply elem_of_seq in Hi. lia.
  - intros (ixs & His & Hp)%bind_ok. apply ok_inj in Hp. injection Hp as _ <-. apply try_map_ok in His.
    clear -His. induction His as [|c i cs ixs Hc _ IH]; constructor; [|done]. apply ok_or_ok in Hc. by eapply column_index_range.
Qed.

Lemma projection_safe s p msg : projection s p ≠ Panic msg.
Proof.
  destruct p as [|cs]; cbn; [done|]. assert (∀ msg, try_map (λ c, ok_or (column_index s c) (unknown_column c)) cs ≠ Panic msg) as H.
  { intros m. induction cs as [|c cs IH]; cbn; [done|]. destruct (column_index s c); [|done]. cbn. by destruct (try_map _ cs). }
  destruct (try_map _ cs); [done|done|by destruct (H msg0)].
Qed.

Lemma project_row s row indexes :
  row_ok s row → Forall (λ i, i < length (columns s)) indexes →
  try_map (E:=io_error) (index row) indexes = Ok (cell row <$> indexes).
Proof.
  intros Hrow Hi. apply try_map_ok. pose proof (Forall2_length _ _ _ Hrow) as Hl.
  induction Hi as [|i ixs Hlt _ IH]; constructor; [|done].
  apply index_ok. unfold cell. destruct (lookup_lt_is_Some_2 row i) as [v Hv]; [lia|]. by rewrite Hv.
Qed.

Lemma project_rows s rows indexes :
  Forall (row_ok s) rows → Forall (λ i, i < length (columns s)) indexes →
  try_map (E:=io_error) (λ row, try_map (index row) indexes) rows = Ok ((λ row, cell row <$> indexes) <$> rows).
Proof.
  intros Hr Hi. apply try_map_ok. induction Hr as [|row rows Hrow _ IH]; constructor; [by eapply project_row|done].
Qed.

Lemma sort_rows_ok s order rows sorted : sort_rows s order rows = Ok sorted → sorted ≡ₚ rows.
Proof.
  unfold sort_rows. destruct order as [[c asc]|]; [|by intros [= <-]].
  intros (i & _ & (_ & _ & H)%bind_ok)%bind_ok. apply ok_inj in H as <-. apply sort_by_perm.
Qed.

Lemma sort_rows_safe s order rows msg : Forall (row_ok s) rows → sort_rows s order rows ≠ Panic msg.
Proof.
  intros Hr. unfold sort_rows. destruct order as [[c asc]|]; [|done]. destruct (column_index s c) as [i|] eqn:Hi; [|done].
  cbn [ok_or mbind result_bind]. assert (sort_cells i rows = Ok tt) as ->; [|done].
  assert (try_map (E:=io_error) (λ row, index row i) rows = Ok ((λ row, cell row i) <$> rows)) as H.
  { apply try_map_ok. induction Hr as [|row rows Hrow _ IH]; constructor; [|done].
    apply index_ok. unfold cell. destruct (lookup_lt_is_Some_2 row i) as [v Hv]; [|by rewrite Hv].
    rewrite (Forall2_length _ _ _ Hrow). by eapply column_index_range. }
  unfold sort_cells. rewrite H. by destruct rows as [|? [|? ?]].
Qed.

Lemma truncate_incl limit rows s : Forall (row_ok s) rows → Forall (row_ok s) (truncate limit rows).
Proof. rewrite !Forall_forall. intros H row Hr. by apply H, (truncate_sub limit). Qed.

Lemma filter_rows_ok s f rows : Forall (row_ok s) rows → Forall (row_ok s) (List.filter f rows).
Proof.
  rewrite !Forall_forall. intros Hr row Hin. apply list_elem_of_In, List.filter_In in Hin as [Hin _].
  by apply Hr, list_elem_of_In.
Qed.

Lemma run_query_safe s q rows msg : Forall (row_ok s) rows → run_query s q rows ≠ Panic msg.
Proof.
  intros Hr. unfold run_query.
  pose proof (try_filter_safe (λ row, matches_filter (s_filter q) row s) rows) as Hf.
  destruct (try_filter _ rows) as [kept|e|p] eqn:Hk; [|done|].
  2: { exfalso. apply (Hf p); [|done]. eapply Forall_impl; [exact Hr|]. intros row Hrow p'. by apply matches_safe. }
  cbn [mbind result_bind]. destruct (sort_rows s (s_order q) kept) as [sorted|e|p] eqn:Hs; [|done|].
  2: { exfalso. eapply (sort_rows_safe s); [|exact Hs]. apply try_filter_ok in Hk as [-> _]. by apply filter_rows_ok. }
  cbn [mbind result_bind]. destruct (projection s (s_projection q)) as [[names indexes]|e|p] eqn:Hp; [|done|by apply projection_safe in Hp].
  cbn [mbind result_bind]. apply sort_rows_ok in Hs. apply try_filter_ok in Hk as [-> _].
  rewrite (project_rows s); [done| |by eapply projection_range]. apply truncate_incl. rewrite Hs. by apply filter_rows_ok.
Qed.

Section laws.
Context {S : Type} `{HL : KvLaws S view ok is_str fails}.

Lemma load_schema_ok m s :
  db_ok m → table_schema m s →
  hoare (view := view) (ok := ok) (λ d, d = m) (load_schema (s_name s)) (λ s' d, d = m ∧ s' = s) (λ _ _, False).
Proof.
  intros Hdb Hs st Hst Hv. exists (Ok s), st. split_and!; [|done|done|done]. unfold load_schema.
  rewrite (M_bind_run _ _ _ _ _ (law_get st _ Hst)), Hv, (proj1 Hs). cbn [ok_or]. rewrite run_lift_ok.
  unfold lift. by rewrite (table_schema_decodes m s Hs).
Qed.

(** The access path does not change what the query answers. *)
Lemma access_rows_spec m s q rows p :
  db_ok m → table_schema m s → table_list m s rows → filter_wf (s_filter q) → plan_select q s = Ok p →
  hoare (view := view) (ok := ok) (λ d, d = m) (access_rows s p)
    (λ found d, d = m ∧ literal_fits s q = true ∧ run_query s q found = run_query s q rows.*2)
    (λ e d, d = m ∧ literal_fits s q = false ∧ e = wrong_type).
Proof.
  intros Hdb Hs Hl Hwf Hp. pose proof (proj2 Hs) as (Hval & _).
  destruct (validate_primary s Hval) as (i & c & Hi & Hci & _ & Hc).
  unfold plan_select in Hp. rewrite Hc in Hp. cbn [mbind result_bind] in Hp. apply ok_inj in Hp as <-. unfold access_rows. cbn [access].
  assert (literal_fits s q = true → hoare (view := view) (ok := ok) (λ d, d = m) (rows ← all_rows s; mret rows.*2)
    (λ found d, d = m ∧ literal_fits s q = true ∧ run_query s q found = run_query s q rows.*2)
    (λ e d, d = m ∧ literal_fits s q = false ∧ e = wrong_type)) as Hscan.
  { intros Hfit. eapply hoare_conseq with (P := λ d, d = m) (Q := λ f d, d = m ∧ ∃ l, f = l.*2 ∧ table_list m s l) (E := λ _ _, False); [|done| |done].
    - eapply hoare_bind; [by apply all_rows_spec|]. intros found. apply hoare_ret. intros d [-> Hf]. eauto.
    - intros f d (-> & l & -> & Hf). split_and!; [done..|]. by rewrite (table_list_det m s l rows). }
  unfold literal_fits in *. rewrite Hc in *. destruct (s_filter q) as [e|] eqn:He; [|by apply Hscan]. cbn [mbind option_bind].
  destruct (primary_equality e (c_name c)) as [v|] eqn:Hpe; [|by apply Hscan].
  pose proof (primary_equality_wf e _ v Hwf Hpe) as Hok. clear Hscan.
  destruct (check_type v (data_type c)) as [[]|x|x] eqn:Ht; cbn [is_ok].
  2,3: assert (v ≠ VNull) as Hnv by (by intros ->); rewrite decide_False by done.
  2: { assert (row_key_for_primary s v = Err wrong_type) as ->.
       { unfold row_key_for_primary. rewrite decide_False by done. rewrite Hc. cbn [mbind result_bind]. rewrite Ht. cbn. by destruct v, (data_type c); cbn in Ht; (discriminate || by injection Ht as <-). }
       eapply (hoare_bind _ _ _ (λ _ _, False)); [by apply hoare_lift; [|intros e' d [= <-]|]|]. intros k st _ []. }
  2: by destruct v, (data_type c).
  pose proof (primary_filter m s rows c e v Hval Hl Hc Hpe Hok Ht) as Hfilter.
  eapply hoare_conseq with (P := λ d, d = m) (Q := λ found d, d = m ∧ run_query s q found = run_query s q rows.*2) (E := λ _ _, False); [|done|by intros f d []|done].
  unfold run_query. rewrite He, Hfilter. destruct (decide (v = VNull)) as [->|Hnv].
  { apply hoare_ret. intros d ->. split; [done|]. cbv beta. by destruct (list_to_map (M:=gmap string Row) rows !! _). }
  assert (row_key_for_primary s v = Ok (row_prefix (s_name s) +:+ of_bytes (hex (encode_value v)))) as ->.
  { unfold row_key_for_primary. rewrite decide_False by done. rewrite Hc. cbn [mbind result_bind]. by rewrite Ht. }
  set (key := row_prefix (s_name s) +:+ of_bytes (hex (encode_value v))) in *.
  eapply (hoare_bind _ _ _ (λ k d, d = m ∧ k = key)); [by apply hoare_lift; [| |intros a d [= <-]]|].
  intros k. cbn. eapply (hoare_bind _ _ _ (λ o d, d = m ∧ o = m !! key)).
  { apply hoare_get. by intros d [-> ->]. }
  intros o. cbn. destruct (m !! key) as [enc|] eqn:Hm.
  - assert (starts_with key (row_prefix (s_name s)) = true) as Hst by (apply starts_with_app; eauto).
    destruct (db_row m s key enc Hdb Hs Hst Hm) as (row & Hrow & ->).
    rewrite (proj2 (table_list_lookup m s rows key row Hl) Hrow).
    intros st Hst' [Hv ->]. exists (Ok [row]), st. rewrite (db_row_decodes m s key row Hs Hrow).
    split; [done|]. split; [done|]. split; [done|].
    destruct (match_primary m s key row c e v Hval Hrow Hc Hpe Ht) as (w & Hw & Hn & Hwok & Hkey).
    rewrite try_filter_one; [done|]. refine (eq_trans Hw _). f_equal. apply bool_decide_eq_true.
    unfold key in Hkey. apply (f_equal as_bytes) in Hkey. rewrite !as_bytes_app, !as_of_bytes in Hkey.
    symmetry. by apply app_inv_head, hex_inj, encode_value_inj in Hkey.
  - intros st Hst' [Hv ->]. exists (Ok []), st. split_and!; [done..|].
    destruct (list_to_map rows !! key) as [row|] eqn:Hlk; [|done]. apply (table_list_lookup m s rows key row Hl) in Hlk as (_ & _ & Hlk).
    by rewrite Hlk in Hm.
Qed.
End laws.

(** ** What a query means *)

(** The rows a filter accepts. *)
Definition accepts (f : option Expr) (s : Schema) (row : Row) : bool :=
  match matches_filter f row s with Ok b => b | _ => false end.

(** The value of the column named [c] in a row. *)
Definition field (s : Schema) (row : Row) (c : string) : option Value :=
  (list_to_map (zip (c_name <$> columns s) row) : gmap string Value) !! c.

(** The order of values: NULL first. *)
Definition before (v w : Value) : Prop :=
  match v, w with
  | VNull, _ => True
  | VInteger x, VInteger y => (x ≤ y)%Z
  | VText x, VText y => String.le x y
  | VBoolean x, VBoolean y => x = true → y = true
  | _, _ => False
  end.

(** [rows] brought into the order of a column; rows of one value stay as they
    were among themselves. *)
Definition ordered_by (s : Schema) (c : string) (asc : bool) (rows ordered : list Row) : Prop :=
  ordered ≡ₚ rows ∧
  StronglySorted (λ a b, ∀ v w, field s a c = Some v → field s b c = Some w → if asc then before v w else before w v) ordered ∧
  ∀ v, List.filter (λ row, bool_decide (field s row c = Some v)) ordered = List.filter (λ row, bool_decide (field s row c = Some v)) rows.

Definition headings (s : Schema) (p : Projection) : list string :=
  match p with PAll => c_name <$> columns s | PColumns names => names end.

(** The line of the answer for a row. *)
Definition projected (s : Schema) (p : Projection) (row line : list Value) : Prop :=
  match p with PAll => line = row | PColumns names => Forall2 (λ n v, field s row n = Some v) names line end.

(** The filter has a value on every row, and the columns named exist. *)
Definition answerable (s : Schema) (q : Select) (rows : list Row) : Prop :=
  Forall (λ row, ∃ b, matches_filter (s_filter q) row s = Ok b) rows ∧
  (∀ c asc, s_order q = Some (c, asc) → c ∈ c_name <$> columns s) ∧
  (∀ c, c ∈ headings s (s_projection q) → c ∈ c_name <$> columns s).

Definition query_answer (s : Schema) (q : Select) (rows : list Row) (r : SqlResult) : Prop :=
  answerable s q rows ∧ ∃ ordered lines,
    let kept := List.filter (accepts (s_filter q) s) rows in
    (match s_order q with None => ordered = kept | Some (c, asc) => ordered_by s c asc kept ordered end) ∧
    Forall2 (projected s (s_projection q)) (match s_limit q with Some n => take (Z.to_nat n) ordered | None => ordered end) lines ∧
    r = RRows (headings s (s_projection q)) lines.

Lemma column_index_some_name s c i : column_index s c = Some i → c ∈ c_name <$> columns s.
Proof. intros (col & Hc & <-)%column_index_some. apply list_elem_of_fmap. exists col. split; [done|]. by eapply list_elem_of_lookup_2. Qed.

Lemma column_index_exists s c : validate s = Ok tt → c ∈ c_name <$> columns s → is_Some (column_index s c).
Proof.
  intros Hv (col & -> & (i & Hi)%list_elem_of_lookup)%list_elem_of_fmap. exists i. by apply column_index_name.
Qed.

Lemma field_cell s row c i :
  validate s = Ok tt → row_ok s row → column_index s c = Some i → field s row c = Some (cell row i).
Proof.
  intros Hv Hr Hi. destruct (column_index_some _ _ _ Hi) as (col & Hc & Hn).
  destruct (row_ok_lookup _ _ _ _ Hr Hc) as (v & Hrow & _). unfold cell. rewrite Hrow. cbn [default from_option id].
  apply elem_of_list_to_map_1.
  - rewrite fst_zip; [by apply validate_names|]. rewrite length_fmap, (Forall2_length _ _ _ Hr). done.
  - apply (list_elem_of_lookup_2 _ i). rewrite lookup_zip_with, list_lookup_fmap, Hc. cbn. by rewrite Hrow, Hn.
Qed.

Lemma cell_typed s row c i col :
  row_ok s row → column_index s c = Some i → columns s !! i = Some col → typed (cell row i) (data_type col).
Proof. intros Hr Hi Hc. destruct (row_ok_lookup _ _ _ _ Hr Hc) as (v & Hrow & _ & Ht). unfold cell. by rewrite Hrow. Qed.

Lemma before_cmp v w ty : typed v ty → typed w ty → compare_for_sort v w ≠ Gt ↔ before v w.
Proof.
  intros Hv Hw. destruct v as [|x|x|x], w as [|y|y|y], ty; try done; cbn.
  - unfold str_cmp, String.le, String.leb. by destruct (String.compare x y).
  - destruct x, y; cbn; naive_solver.
Qed.

Lemma str_cmp_refl x : str_cmp x x = Eq.
Proof. unfold str_cmp. pose proof (String.compare_antisym x x) as H. by destruct (String.compare x x). Qed.

Lemma cmp_eq v w : compare_for_sort v w = Eq ↔ v = w.
Proof.
  split.
  - destruct v as [|x|x|x], w as [|y|y|y]; cbn; try done.
    + by intros ->%Z.compare_eq.
    + unfold str_cmp. by intros ->%String.compare_eq_iff.
    + by destruct x, y.
  - intros <-. destruct v as [|x|x|x]; cbn; [done|apply Z.compare_refl|apply str_cmp_refl|by destruct x].
Qed.

Lemma CompOpp_not_gt c : CompOpp c ≠ Gt ↔ c ≠ Lt.
Proof. by destruct c. Qed.

Lemma row_order_before s c i asc a b v w :
  validate s = Ok tt → row_ok s a → row_ok s b → column_index s c = Some i →
  row_order i asc a b ≠ Gt → field s a c = Some v → field s b c = Some w → if asc then before v w else before w v.
Proof.
  intros Hv Ha Hb Hi Ho Hfa Hfb. rewrite (field_cell s a c i) in Hfa by done. rewrite (field_cell s b c i) in Hfb by done. injection Hfa as <-. injection Hfb as <-.
  destruct (column_index_some _ _ _ Hi) as (col & Hc & _).
  assert (typed (cell a i) (data_type col)) as Hta by (by eapply cell_typed).
  assert (typed (cell b i) (data_type col)) as Htb by (by eapply cell_typed).
  unfold row_order in Ho. destruct asc; [by eapply before_cmp|].
  eapply before_cmp; [done..|]. rewrite compare_for_sort_cmp in *. by rewrite (cmp_opp _ total_values).
Qed.

Lemma sort_meaning s c i asc rows :
  validate s = Ok tt → Forall (row_ok s) rows → column_index s c = Some i →
  ordered_by s c asc rows (sort_by (row_order i asc) rows).
Proof.
  intros Hv Hr Hi. pose proof (total_rows i asc) as Htot.
  assert (Forall (row_ok s) (sort_by (row_order i asc) rows)) as Hr' by (by rewrite sort_by_perm).
  split; [apply sort_by_perm|]. split.
  - pose proof (sort_by_sorted _ rows Htot) as Hs. revert Hr'. induction Hs as [|a l _ IH Ha]; intros Hl; [constructor|].
    inversion Hl as [|? ? Hra Hrl]; subst. constructor; [by apply IH|]. rewrite Forall_forall in *. intros b Hb v w.
    apply (row_order_before s c i asc a b); auto.
  - intros v. assert (∀ l, Forall (row_ok s) l → List.filter (λ row, bool_decide (field s row c = Some v)) l
      = List.filter (λ row, bool_decide (cell row i = v)) l) as Hf.
    { intros l Hl. induction Hl as [|a l Ha _ IH]; [done|]. cbn. rewrite IH, (field_cell s a c i) by done.
      by rewrite (bool_decide_ext (Some (cell a i) = Some v) (cell a i = v)) by (split; congruence). }
    rewrite !Hf by done. destruct (List.filter (λ row, bool_decide (cell row i = v)) rows) as [|x l] eqn:Hx.
    + apply elem_of_nil_inv. intros y [Hin Hy]%list_elem_of_In%List.filter_In. apply list_elem_of_In in Hin.
      rewrite (sort_by_perm _ rows) in Hin. apply (not_elem_of_nil y). rewrite <- Hx. apply list_elem_of_In, List.filter_In.
      split; [by apply list_elem_of_In|done].
    + assert (cell x i = v) as <-.
      { assert (x ∈ x :: l) as Hin by left. rewrite <- Hx in Hin. apply list_elem_of_In, List.filter_In in Hin as [_ Hin]. by zify_bools. }
      rewrite <- Hx. assert (∀ y, same_rank (row_order i asc) x y = bool_decide (cell y i = cell x i)) as Hsame.
      { intros y. unfold same_rank, row_order. destruct (decide (cell y i = cell x i)) as [He|Hne].
        - rewrite (bool_decide_true _ He), (proj2 (cmp_eq _ _) (eq_sym He)). by destruct asc.
        - rewrite (bool_decide_false _ Hne). assert (compare_for_sort (cell x i) (cell y i) ≠ Eq) as Hc by (intros He%cmp_eq; by rewrite He in Hne).
          by destruct asc, (compare_for_sort _ _). }
      rewrite <- !(List.filter_ext _ _ Hsame). by apply sort_by_stable.
Qed.

Lemma projection_meaning s p :
  validate s = Ok tt →
  match projection s p with
  | Ok (names, indexes) => names = headings s p ∧ Forall (λ i, i < length (columns s)) indexes ∧
      (∀ c, c ∈ headings s p → c ∈ c_name <$> columns s) ∧
      ∀ row, row_ok s row → projected s p row (cell row <$> indexes)
  | Err _ => ¬ ∀ c, c ∈ headings s p → c ∈ c_name <$> columns s
  | Panic _ => False
  end.
Proof.
  intros Hv. pose proof (projection_range s p) as Hrange. destruct p as [|names]; cbn [projection headings projected] in *.
  - split_and!; [done|by eapply Hrange|done|]. intros row Hr. rewrite <- (Forall2_length _ _ _ Hr).
    apply list_eq. intros i. rewrite list_lookup_fmap. destruct (row !! i) as [v|] eqn:Hi.
    + rewrite lookup_seq_lt by (by eapply lookup_lt_Some). cbn. unfold cell. by rewrite Hi.
    + by rewrite lookup_seq_ge by (by apply lookup_ge_None).
  - pose proof (projection_safe s (PColumns names)) as Hsafe. cbn [projection] in Hsafe.
    destruct (try_map _ names) as [ixs|e|msg] eqn:Hmap; cbn [mbind result_bind] in *; [|..].
    + split_and!; [done|by eapply Hrange|..]; apply try_map_ok in Hmap.
      * intros c (j & Hj)%list_elem_of_lookup. destruct (Forall2_lookup_l _ _ _ _ _ Hmap Hj) as (i & _ & Hi).
        apply ok_or_ok in Hi. by eapply column_index_some_name.
      * intros row Hr. clear Hrange Hsafe. induction Hmap as [|n i names ixs Hi _ IH]; constructor; [|done].
        apply ok_or_ok in Hi. by apply field_cell.
    + intros Hall. clear Hrange Hsafe. induction names as [|n names IH] in Hmap, e, Hall |- *; [done|]. cbn in Hmap.
      destruct (column_index_exists s n Hv) as [i Hi]; [apply Hall; left|]. rewrite Hi in Hmap. cbn [ok_or mbind result_bind] in Hmap.
      destruct (try_map _ names) as [ixs|e'|msg] eqn:Hm; [done| |done]. eapply IH; [done|]. intros c Hc. apply Hall. by right.
    + by apply (Hsafe msg).
Qed.

Lemma sort_rows_cases s order rows :
  validate s = Ok tt → Forall (row_ok s) rows →
  match sort_rows s order rows with
  | Ok sorted => Forall (row_ok s) sorted ∧ (∀ c asc, order = Some (c, asc) → c ∈ c_name <$> columns s) ∧
      match order with None => sorted = rows | Some (c, asc) => ordered_by s c asc rows sorted end
  | Err _ => ∃ c asc, order = Some (c, asc) ∧ c ∉ c_name <$> columns s
  | Panic _ => False
  end.
Proof.
  intros Hv Hr. pose proof (sort_rows_safe s order rows) as Hsafe. unfold sort_rows in *. destruct order as [[c asc]|]; [|by split_and!].
  destruct (column_index s c) as [i|] eqn:Hi; cbn [ok_or mbind result_bind] in *.
  - destruct (sort_cells i rows) as [[]|e|msg] eqn:Hc; cbn [mbind result_bind] in *; [| |by apply (Hsafe msg)].
    + split; [by rewrite sort_by_perm|]. split; [intros c' asc' [= <- _]; by eapply column_index_some_name|by apply sort_meaning].
    + exfalso. revert Hc. unfold sort_cells. destruct rows as [|a [|b rows]]; [done..|]. 
      assert (Forall (λ row, ∃ v, index (E:=io_error) row i = Ok v) (a :: b :: rows)) as Hall.
      { eapply Forall_impl; [exact Hr|]. intros row Hrow. destruct (column_index_some _ _ _ Hi) as (col & Hcol & _).
        destruct (row_ok_lookup _ _ _ _ Hrow Hcol) as (v & Hlk & _). exists v. by apply index_ok. }
      assert (∃ vs, try_map (E:=io_error) (λ row, index row i) (a :: b :: rows) = Ok vs) as [vs ->]; [|done].
      revert Hall. clear. generalize (a :: b :: rows). induction 1 as [|x l (v & Hx) _ (vs & IH)]; [by exists []|]. exists (v :: vs). cbn. by rewrite Hx, IH.
  - exists c, asc. split; [done|]. intros Hin. destruct (column_index_exists s c Hv Hin) as [i Hi']. by rewrite Hi in Hi'.
Qed.

Lemma try_filter_err {A} (f : A → io bool) l e : try_filter f l = Err e → ¬ Forall (λ a, ∃ b, f a = Ok b) l.
Proof.
  intros H Hall. induction Hall as [|a l (b & Hb) _ IH]; [done|]. cbn in H. rewrite Hb in H. cbn in H.
  destruct (try_filter f l); cbn in H; [done|by apply IH|done].
Qed.

Lemma limit_take limit (rows : list Row) :
  truncate limit rows = match limit with Some n => take (Z.to_nat n) rows | None => rows end.
Proof.
  unfold truncate. destruct limit as [n|]; [|done]. destruct (Z.ltb_spec n (Z.of_nat (length rows))); [done|]. by rewrite take_ge by lia.
Qed.

Lemma query_meaning s q rows :
  validate s = Ok tt → Forall (row_ok s) rows →
  match run_query s q rows with
  | Ok r => query_answer s q rows r
  | Err _ => ¬ answerable s q rows
  | Panic _ => False
  end.
Proof.
  intros Hv Hr. pose proof (run_query_safe s q rows) as Hsafe. destruct (run_query s q rows) as [r|e|msg] eqn:Hq; [..|by apply (Hsafe msg)]; clear Hsafe; unfold run_query in Hq.
  - apply bind_ok in Hq as (kept & Hk & (sorted & Hs & ([names ixs] & Hp & (lines & Hl & Hout)%bind_ok)%bind_ok)%bind_ok).
    apply ok_inj in Hout as <-. apply try_filter_ok in Hk as [-> Hall]. fold (accepts (s_filter q) s) in Hs.
    pose proof (sort_rows_cases s (s_order q) _ Hv (filter_rows_ok s (accepts (s_filter q) s) rows Hr)) as Hsort. rewrite Hs in Hsort. destruct Hsort as (Hrs & Hc & Hord).
    pose proof (projection_meaning s (s_projection q) Hv) as Hproj. rewrite Hp in Hproj. destruct Hproj as (-> & Hrange & Hcols & Hline).
    assert (Forall (row_ok s) (truncate (s_limit q) sorted)) as Hrt by (by apply truncate_incl).
    rewrite (project_rows s) in Hl by done. apply ok_inj in Hl as <-. split; [by split_and!|].
    exists sorted, ((λ row, cell row <$> ixs) <$> truncate (s_limit q) sorted). cbv zeta. split_and!; [exact Hord| |done].
    rewrite <- limit_take. clear -Hrt Hline. induction Hrt as [|row l Hrow _ IH]; constructor; [by apply Hline|done].
  - intros (Hall & Hc & Hcols). destruct (try_filter _ rows) as [kept|e'|msg] eqn:Hk; cbn [mbind result_bind] in Hq; [|by apply try_filter_err in Hk|done].
    apply try_filter_ok in Hk as [-> _]. fold (accepts (s_filter q) s) in Hq.
    pose proof (sort_rows_cases s (s_order q) _ Hv (filter_rows_ok s (accepts (s_filter q) s) rows Hr)) as Hsort.
    destruct (sort_rows s (s_order q) _) as [sorted|e'|msg]; cbn [mbind result_bind] in Hq; [| |done].
    2: { destruct Hsort as (c & asc & Ho & Hn). by apply Hn, (Hc c asc). }
    pose proof (projection_meaning s (s_projection q) Hv) as Hproj.
    destruct (projection s (s_projection q)) as [[names ixs]|e'|msg]; cbn [mbind result_bind] in Hq; [|by apply Hproj|done].
    destruct Hproj as (_ & Hrange & _). rewrite (project_rows s) in Hq; [done|apply truncate_incl, Hsort|done].
Qed.

(** C29. What a query means: over well-typed rows of a valid schema the pull
    iterator answers exactly when the filter has a value on every row and the
    columns named exist, else with an error and never a panic.  The answer has
    the column names asked for as headings; its lines are, cell by cell in the
    order asked for, those of the rows the filter accepts, with ORDER BY brought
    into the ascending or descending order of that column's values, NULL lowest
    and rows of one value as they were, without it as they were; of these the
    first LIMIT ones. *)
Theorem query_answers s q rows :
  validate s = Ok tt → Forall (row_ok s) rows →
  match answer_select q s rows with
  | Ok r => query_answer s q rows r
  | Err _ => ¬ answerable s q rows
  | Panic _ => False
  end.
Proof. intros Hv Hr. rewrite answer_select_query. by apply query_meaning. Qed.

Definition sample_query : Select :=
  MkSelect "T" (PColumns ["NAME"]) (Some (EBinary OGt (EColumn "ID") (ELiteral (VInteger 1)))) (Some ("NAME", false)) (Some 2%Z).
Definition sample_rows : list Row :=
  [[VInteger 1; VText "x"]; [VInteger 2; VNull]; [VInteger 3; VText "b"]; [VInteger 4; VText "c"]].

Lemma query_answers_witness :
  validate sample_schema = Ok tt ∧ Forall (row_ok sample_schema) sample_rows ∧
  answer_select sample_query sample_schema sample_rows = Ok (RRows ["NAME"] [[VText "c"]; [VText "b"]]) ∧
  match answer_select sample_query sample_schema sample_rows with
  | Ok r => query_answer sample_schema sample_query sample_rows r
  | Err _ => ¬ answerable sample_schema sample_query sample_rows
  | Panic _ => False
  end.
Proof.
  assert (validate sample_schema = Ok tt) as H0 by (vm_compute; reflexivity).
  assert (Forall (row_ok sample_schema) sample_rows) as H1.
  { repeat constructor; vm_compute; done. }
  assert (answer_select sample_query sample_schema sample_rows = Ok (RRows ["NAME"] [[VText "c"]; [VText "b"]])) as H2
    by (vm_compute; reflexivity).
  exact (conj H0 (conj H1 (conj H2 (query_answers sample_schema sample_query sample_rows H0 H1)))).
Defined.
