(* ===== verification/FilterSpec.v ===== *)
(** Filters: typing, and their meaning in three-valued logic.

    [denote] is the meaning the language intends, total and without errors:
    the truth values are ordered false < unknown < true, AND is the minimum and
    OR the maximum, a comparison with NULL is unknown.  [has_type] checks an
    expression against a schema. *)

From Stdlib Require Import Ascii.
From S2P Require Import Prelude Bytes SqlAst Catalog CatalogSpec Executor ExecutorSpec.

(** ** Meaning *)

Definition rank (v : Value) : nat :=
  match v with VBoolean false => 0 | VBoolean true => 2 | _ => 1 end.
Definition of_rank (n : nat) : Value :=
  match n with 0 => VBoolean false | 1 => VNull | _ => VBoolean true end.

Definition holds (op : BinaryOp) (order : comparison) : bool :=
  match op with
  | OEq => bool_decide (order = Eq) | ONe => negb (bool_decide (order = Eq))
  | OLt => bool_decide (order = Lt) | OGe => negb (bool_decide (order = Lt))
  | OGt => bool_decide (order = Gt) | OLe => negb (bool_decide (order = Gt))
  | OAnd | OOr => false
  end.

Definition compare3 (op : BinaryOp) (a b : Value) : Value :=
  match a, b with
  | VNull, _ | _, VNull => VNull
  | _, _ => VBoolean (holds op (value_cmp a b))
  end.

Fixpoint denote (s : Schema) (row : Row) (e : Expr) : Value :=
  match e with
  | ELiteral v => v
  | EColumn c => default VNull (column_index s c ≫= λ i, row !! i)
  | EBinary OAnd l r => of_rank (rank (denote s row l) `min` rank (denote s row r))
  | EBinary OOr l r => of_rank (rank (denote s row l) `max` rank (denote s row r))
  | EBinary op l r => compare3 op (denote s row l) (denote s row r)
  end.

(** ** Typing *)

Definition types : list DataType := [DInteger; DText; DBoolean].

Fixpoint has_type (s : Schema) (e : Expr) (ty : DataType) : bool :=
  match e with
  | ELiteral v => is_ok (check_type v ty)
  | EColumn c => bool_decide (data_type <$> (column_index s c ≫= λ i, columns s !! i) = Some ty)
  | EBinary op l r =>
    bool_decide (ty = DBoolean) &&
    match op with
    | OAnd | OOr => has_type s l DBoolean && has_type s r DBoolean
    | _ => existsb (λ t, has_type s l t && has_type s r t) types
    end
  end.

Lemma typed_boolean v : typed v DBoolean → v = VNull ∨ ∃ b, v = VBoolean b.
Proof. destruct v; try done; eauto. Qed.

Lemma logic_and_min a b :
  typed a DBoolean → typed b DBoolean → logic_and a b = Ok (of_rank (rank a `min` rank b)).
Proof. intros [->|[[] ->]]%typed_boolean [->|[[] ->]]%typed_boolean; reflexivity. Qed.
Lemma logic_or_max a b :
  typed a DBoolean → typed b DBoolean → logic_or a b = Ok (of_rank (rank a `max` rank b)).
Proof. intros [->|[[] ->]]%typed_boolean [->|[[] ->]]%typed_boolean; reflexivity. Qed.
Lemma typed_of_rank n : typed (of_rank n) DBoolean.
Proof. by destruct n as [|[|n]]. Qed.

Lemma compare_typed op a b ty :
  op ≠ OAnd → op ≠ OOr → typed a ty → typed b ty →
  compare op a b = Ok (compare3 op a b).
Proof.
  intros Ha Ho Hta Htb. destruct a, b, ty; try done; cbn [compare compare3 value_cmp]; try done; cbn [mbind result_bind];
    match goal with |- context [order_satisfies op ?o] => destruct op, o; done end.
Qed.

(** C30. Well-typed filters never fail, and mean what SQL says.  On every row
    of the table, an expression that [has_type] accepts evaluates without error
    to its meaning in three-valued logic, a value of its type.  So a WHERE
    clause that is checked keeps exactly the rows whose meaning is true. *)
Theorem well_typed_filters_evaluate s e ty row :
  has_type s e ty = true → row_ok s row →
  eval e row s = Ok (denote s row e) ∧ typed (denote s row e) ty ∧
  (ty = DBoolean → matches_filter (Some e) row s = Ok (bool_decide (denote s row e = VBoolean true))).
Proof.
  intros Hty Hr. assert (eval e row s = Ok (denote s row e) ∧ typed (denote s row e) ty) as [He Ht].
  { revert ty Hty. induction e as [c|v|op l IHl r IHr]; intros ty Hty; cbn [eval denote has_type] in *.
    - apply bool_decide_eq_true in Hty. destruct (column_index s c) as [i|]; [|done]. cbn [ok_or mbind result_bind option_bind] in *.
      destruct (columns s !! i) as [col|] eqn:Hc; [|done]. injection Hty as <-.
      destruct (row_ok_lookup _ _ _ _ Hr Hc) as (v & Hv & _ & Htv). rewrite (proj2 (index_ok _ _ _) Hv), Hv. done.
    - split; [done|]. unfold typed. by destruct v, ty.
    - apply andb_true_iff in Hty as [Hb Hop]. apply bool_decide_eq_true in Hb as ->.
      assert (∃ t, has_type s l t = true ∧ has_type s r t = true ∧ (op = OAnd ∨ op = OOr → t = DBoolean)) as (t & Hl & Hr' & Ht).
      { destruct op; try (apply existsb_exists in Hop as (t & _ & [Hl Hr']%andb_true_iff); exists t; split_and!; naive_solver);
          apply andb_true_iff in Hop as [Hl Hr']; by exists DBoolean. }
      destruct (IHl t Hl) as [El Tl], (IHr t Hr') as [Er Tr]. rewrite El, Er. cbn [mbind result_bind].
      destruct op; cbv iota; try (rewrite (compare_typed _ _ _ t) by done; split; [done|]; unfold typed; destruct (denote s row l), (denote s row r); reflexivity).
      + rewrite (Ht (or_introl eq_refl)) in Tl, Tr. rewrite logic_and_min by done. split; [done|apply typed_of_rank].
      + rewrite (Ht (or_intror eq_refl)) in Tl, Tr. rewrite logic_or_max by done. split; [done|apply typed_of_rank]. }
  split_and!; [done..|]. intros _. cbn [matches_filter]. by rewrite He.
Qed.

Definition sample_filter : Expr :=
  EBinary OOr (EBinary OGe (EColumn "ID") (ELiteral (VInteger 9)))
    (EBinary OAnd (EBinary ONe (EColumn "NAME") (ELiteral VNull)) (ELiteral (VBoolean true))).

Lemma well_typed_filters_evaluate_witness :
  has_type sample_schema sample_filter DBoolean = true ∧ row_ok sample_schema [VInteger 3; VText "x"] ∧
  eval sample_filter [VInteger 3; VText "x"] sample_schema = Ok (denote sample_schema [VInteger 3; VText "x"] sample_filter) ∧
  typed (denote sample_schema [VInteger 3; VText "x"] sample_filter) DBoolean ∧
  (DBoolean = DBoolean → matches_filter (Some sample_filter) [VInteger 3; VText "x"] sample_schema
    = Ok (bool_decide (denote sample_schema [VInteger 3; VText "x"] sample_filter = VBoolean true))).
Proof.
  assert (has_type sample_schema sample_filter DBoolean = true) as H1 by (vm_compute; reflexivity).
  assert (row_ok sample_schema [VInteger 3; VText "x"]) as H2 by (repeat constructor; vm_compute; done).
  exact (conj H1 (conj H2 (well_typed_filters_evaluate _ _ _ _ H1 H2))).
Defined.
