(* ===== verification/TableSpec.v ===== *)
(** What the statements do to the tables of a transaction.

    Every statement keeps the invariant of the tables and never panics;
    queries answer as a scan of the table would; INSERT adds its row, UPDATE puts
    the reassigned rows in place of those its filter accepts, also under other
    keys, and DELETE removes them, and nothing else ([effect]). *)

From Stdlib Require Import Ascii.
From S2P Require Import Prelude Bytes SqlAst Catalog CatalogSpec Kv Executor ExecutorSpec QuerySpec.

(** The names and constants of a statement can be stored. *)
Definition statement_wf (st : Statement) : Prop :=
  match st with
  | SCreateTable table cs => stored_name table ∧ Forall (λ c, stored_name (c_name c)) cs
  | SInsert _ _ values => Forall value_ok values
  | SUpdate _ assignments _ => Forall (λ a, value_ok a.2) assignments
  | SSelect q => filter_wf (s_filter q)
  | _ => True
  end.

Lemma forall_zip {A B} (P : B → Prop) (l : list A) (k : list B) : Forall P k → Forall (λ p, P p.2) (zip l k).
Proof. intros Hk. revert l. induction Hk as [|b k Hb _ IH]; intros [|a l]; cbn; constructor; auto. Qed.

Lemma row_key_safe s row p : validate s = Ok tt → row_ok s row → row_key s row ≠ Panic p.
Proof. intros Hs Hr. destruct (row_key_total s row Hs Hr) as [[k ->]| ->]; done. Qed.

Lemma row_key_primary_safe s v p : validate s = Ok tt → row_key_for_primary s v ≠ Panic p.
Proof.
  intros Hs. destruct (validate_primary s Hs) as (i & c & _ & _ & _ & Hc). unfold row_key_for_primary. case_decide; [done|].
  rewrite Hc. cbn [mbind result_bind]. by destruct v, (data_type c).
Qed.

Lemma check_names_safe earlier rest p : check_names earlier rest ≠ Panic p.
Proof. revert earlier. induction rest as [|c rest IH]; intros earlier; cbn; [done|]. case_match; [done|]. apply IH. Qed.

Lemma validate_safe s p : validate s ≠ Panic p.
Proof. unfold validate. destruct (columns s); [done|]. case_match; [done|]. apply check_names_safe. Qed.

Section laws.
Context {S : Type} `{HL : KvLaws S view ok is_str fails}.
Abbreviation triple := (hoare (view := view) (ok := ok)).
Abbreviation safe := (λ (_ : io_error) (d : db), db_ok d).

Definition with_table (s : Schema) (d : db) : Prop := db_ok d ∧ table_schema d s.

Lemma load_schema_keeps table :
  triple db_ok (load_schema table) (λ s d, s_name s = table ∧ with_table s d) safe.
Proof.
  intros st Hst Hdb. destruct (load_schema_spec (view st) table (λ _ d, d = view st) Hdb) with (s := st)
    as (r & st' & Hr & Hst' & HQ); [|done|done|]; [|].
  - intros e. done.
  - exists r, st'. split_and!; [done..|]. destruct r as [s|e|p]; [|by rewrite HQ|done]. destruct HQ as (-> & ? & ?). done.
Qed.

Lemma keep_lift {A} (r : io A) (P : db → Prop) (Q : A → db → Prop) :
  (∀ p, r ≠ Panic p) → (∀ m, P m → db_ok m) → (∀ a m, r = Ok a → P m → Q a m) → triple P (lift r) Q safe.
Proof. intros Hp HP HQ. apply hoare_lift; auto. Qed.

Lemma keep_get k (P : db → Prop) : triple P (kv_get k) (λ o d, P d ∧ o = d !! k) safe.
Proof. by apply hoare_get. Qed.

(** Removing a row, and putting one in its place. *)
Lemma delete_keeps s k :
  starts_with k (row_prefix (s_name s)) = true → is_str k → triple (with_table s) (kv_delete k) (λ _, with_table s) safe.
Proof.
  intros Hk Hstr. apply (hoare_write (fails := fails) _ (λ m, base.delete k m)); [intros st Hst; by apply law_delete|by intros e d []|].
  intros d [Hd Hs]. split; [by eapply remove_row|]. apply schema_left; [|done].
  intros t Ht. subst k. apply starts_with_app in Hk as [r Hr]. by apply catalog_not_row in Hr.
Qed.

Lemma put_keeps s k row :
  schema_ok s → row_ok s row → row_key s row = Ok k → triple (with_table s) (kv_set k (encode_row row)) (λ _, with_table s) safe.
Proof.
  intros Hok Hr Hk. apply (hoare_write (fails := fails) _ (λ m, <[k := encode_row row]> m));
    [intros st Hst; apply law_set; [done|by eapply row_key_str|apply encode_row_str]|by intros e d []|].
  intros d [Hd Hs]. split; [by eapply put_row|]. apply schema_kept; [|done]. intros t. by eapply row_key_not_catalog.
Qed.

Lemma move_keeps s old new :
  starts_with old (row_prefix (s_name s)) = true → is_str old → triple (with_table s) (move_row old new) (λ _, with_table s) safe.
Proof.
  intros Hk Hstr. unfold move_row. case_decide; [by apply hoare_ret|].
  eapply hoare_bind; [apply keep_get|]. intros found. case_decide.
  - apply hoare_fail. by intros m [[] _].
  - eapply hoare_conseq; [by apply delete_keeps|by intros d []|done|done].
Qed.

Definition listed (s : Schema) (p : string * Row) : Prop :=
  starts_with p.1 (row_prefix (s_name s)) = true ∧ is_str p.1 ∧ row_ok s p.2.

Lemma table_list_listed m s rows : schema_ok s → table_list m s rows → Forall (listed s) rows.
Proof.
  intros Hok (_ & _ & Hin). apply Forall_forall. intros [k row] (Hk & Hr & _)%Hin. split_and!; [by eapply row_key_starts|by eapply row_key_str|done].
Qed.

Lemma update_rows_keeps s assignments f rows n :
  schema_ok s → Forall (λ a, value_ok a.2) assignments → Forall (listed s) rows →
  triple (with_table s) (update_rows s assignments f rows n) (λ _ d, db_ok d) safe.
Proof.
  intros Hok Ha Hl. pose proof (proj1 Hok) as Hv. revert n. induction Hl as [|[old row] rows (Hk & Hstr & Hr) _ IH]; intros n; cbn [update_rows].
  { apply hoare_ret. by intros m []. }
  eapply hoare_bind; [apply (keep_lift _ _ (λ _, with_table s)); [by intros p; apply matches_safe|by intros m []|done]|].
  intros [|]; cbn [negb]; [|apply IH]. pose proof (assign_all_ok s assignments row Hr Ha) as Hassign.
  eapply hoare_bind.
  { apply (keep_lift _ _ (λ row' d, with_table s d ∧ row_ok s row')).
    - intros p Hp. by rewrite Hp in Hassign.
    - by intros m [].
    - intros row' m Hrow Hm. by rewrite Hrow in Hassign. }
  intros row'. apply hoare_pure. intros Hr'. eapply hoare_bind.
  { apply (keep_lift _ _ (λ k d, with_table s d ∧ row_key s row' = Ok k)); [by intros p; apply row_key_safe|by intros m []|done]. }
  intros k. apply hoare_pure. intros Hkey.
  eapply hoare_bind; [by apply move_keeps|]. intros []. eapply hoare_bind; [by apply put_keeps|]. intros []. apply IH.
Qed.

Lemma delete_rows_keeps s f rows n :
  Forall (listed s) rows → triple (with_table s) (delete_rows s f rows n) (λ _ d, db_ok d) safe.
Proof.
  intros Hl. revert n. induction Hl as [|[k row] rows (Hk & Hstr & Hr) _ IH]; intros n; cbn [delete_rows].
  { apply hoare_ret. by intros m []. }
  eapply hoare_bind; [apply (keep_lift _ _ (λ _, with_table s)); [by intros p; apply matches_safe|by intros m []|done]|].
  intros [|]; cbn [negb]; [|apply IH]. eapply hoare_bind; [by apply delete_keeps|]. intros []. apply IH.
Qed.

(** A computation specified from each map it may start in. *)
Lemma from_each {A} (P : db → Prop) (m : M S io_error A) Q E :
  (∀ d, P d → triple (λ d', d' = d) m Q E) → triple P m Q E.
Proof. intros Hm st Hst HP. by apply (Hm (view st) HP). Qed.

Lemma all_rows_keeps s :
  triple (with_table s) (all_rows s) (λ rows d, with_table s d ∧ Forall (listed s) rows) safe.
Proof.
  apply from_each. intros d [Hd Hs]. eapply hoare_conseq; [by apply (all_rows_spec d s safe)|done| |done].
  intros rows d' [-> Hl]. split; [done|]. eapply table_list_listed; [apply Hs|done].
Qed.

Lemma access_rows_keeps s p :
  validate s = Ok tt →
  triple (with_table s) (access_rows s p) (λ rows d, db_ok d ∧ Forall (row_ok s) rows) safe.
Proof.
  intros Hv. unfold access_rows. destruct (access p) as [|v].
  { eapply hoare_bind; [apply all_rows_keeps|]. intros rows. apply hoare_ret. intros m [[Hm _] Hl]. split; [done|].
    apply Forall_fmap. eapply Forall_impl; [exact Hl|]. by intros q (_ & _ & ?). }
  case_decide; [apply hoare_ret; by intros m []|].
  eapply hoare_bind.
  { apply (keep_lift _ _ (λ k d, with_table s d ∧ starts_with k (row_prefix (s_name s)) = true));
      [by intros msg; apply row_key_primary_safe|by intros m []|].
    intros k m Hk Hm. split; [done|]. unfold row_key_for_primary in Hk. rewrite decide_False in Hk by done.
    apply bind_ok in Hk as (c & _ & ([] & _ & Hk)%bind_ok). apply ok_inj in Hk as <-. apply starts_with_app. by eexists. }
  intros k. apply hoare_pure. intros Hk. eapply hoare_bind; [apply keep_get|].
  intros [encoded|]; [|apply hoare_ret; by intros m [[] _]].
  intros st Hst [[Hdb Hs] Hm]. destruct (db_row _ s k encoded Hdb Hs Hk (eq_sym Hm)) as (row & Hrow & ->).
  exists (Ok [row]), st. unfold lift. erewrite M_bind_run by (rewrite (db_row_decodes _ s k row Hs Hrow); reflexivity).
  split_and!; [done..|]. constructor; [|done]. apply Hrow.
Qed.

Lemma with_table_validate s (P : db → Prop) {A} (m : M S io_error A) Q E :
  (∀ d, P d → with_table s d) → (schema_ok s → triple P m Q E) → triple P m Q E.
Proof. intros HP Hm st Hst Hp. apply Hm; [|done|done]. by destruct (HP _ Hp) as [_ [_ ?]]. Qed.

Lemma create_table_keeps table cs :
  stored_name table → Forall (λ c, stored_name (c_name c)) cs →
  triple db_ok (create_table table cs) (λ _ d, db_ok d) safe.
Proof.
  intros Ht Hcs. unfold create_table.
  pose proof (validate_safe (MkSchema table cs)) as Hnp.
  eapply hoare_bind; [by apply (keep_lift _ _ (λ _ d, db_ok d ∧ validate (MkSchema table cs) = Ok tt)); [| |intros [] m]|].
  intros []. apply hoare_pure. intros Hv. eapply hoare_bind; [apply keep_get|]. intros found.
  case_decide as Hf; [apply hoare_fail; by intros m []|].
  eapply (hoare_bind _ _ _ (λ _ d, db_ok d)); [|intros []; by apply hoare_ret]. unfold save_schema. rewrite Hv.
  eapply hoare_bind.
  { apply (keep_lift _ _ (λ _ d, db_ok d ∧ d !! catalog_key table = None)); [done|by intros m []|].
    intros [] m _ [Hm Heq]. split; [done|]. rewrite <- Heq. by apply eq_None_not_Some. }
  intros []. apply (hoare_write (fails := fails) _ (λ m, <[catalog_key table := encode_schema (MkSchema table cs)]> m)).
  - assert (schema_ok (MkSchema table cs)) as Hok by done.
    intros st Hst. apply law_set; [done|by apply catalog_key_str|by apply encode_schema_str].
  - by intros e d [].
  - intros d [Hd Hn]. by apply (add_table d (MkSchema table cs)).
Qed.

Lemma insert_keeps table names values :
  Forall value_ok values → triple db_ok (insert table names values) (λ _ d, db_ok d) safe.
Proof.
  intros Hv. unfold insert. eapply hoare_bind; [apply load_schema_keeps|]. intros s.
  apply (with_table_validate s); [by intros d [_ ?]|]. intros Hok. pose proof (proj1 Hok) as Hval.
  destruct (negb _); [apply hoare_fail; by intros m [_ []]|].
  pose proof (fill_row_ok s (zip names values) (replicate (length (columns s)) VNull) (replicate (length (columns s)) false)
    (null_row_ok s) ltac:(by rewrite !length_replicate) (forall_zip _ _ _ Hv)) as Hfill.
  eapply hoare_bind.
  { apply (keep_lift _ _ (λ row d, with_table s d ∧ row_ok s row)).
    - intros p Hp. by rewrite Hp in Hfill.
    - by intros m [_ []].
    - intros row m Hrow [_ Hm]. by rewrite Hrow in Hfill. }
  intros row. apply hoare_pure. intros Hr. eapply hoare_bind.
  { apply (keep_lift _ _ (λ k d, with_table s d ∧ row_key s row = Ok k)); [by intros p; apply row_key_safe|by intros m []|done]. }
  intros k. apply hoare_pure. intros Hk. eapply hoare_bind; [apply keep_get|]. intros found.
  case_decide; [apply hoare_fail; by intros m [[] _]|].
  eapply (hoare_bind _ _ _ (λ _, with_table s)); [|intros []; apply hoare_ret; by intros m []].
  eapply hoare_conseq; [by apply put_keeps|by intros d []|done|done].
Qed.

Lemma select_keeps q : triple db_ok (select_rows q) (λ _ d, db_ok d) safe.
Proof.
  unfold select_rows. eapply hoare_bind; [apply load_schema_keeps|]. intros s.
  apply (with_table_validate s); [by intros d [_ ?]|]. intros (Hval & _).
  destruct (plan_safe q s Hval) as (p & -> & _).
  eapply hoare_bind; [by apply (keep_lift _ _ (λ _, with_table s)); [|intros m [_ []]|intros a m _ [_ ?]]|].
  intros p'. eapply hoare_bind; [by apply access_rows_keeps|]. intros rows. apply hoare_pure. intros Hr.
  rewrite answer_select_query. apply keep_lift; [|done|done]. intros msg. by apply run_query_safe.
Qed.

Lemma execute_data_keeps stmt :
  statement_wf stmt → triple db_ok (execute_data stmt) (λ _ d, db_ok d) safe.
Proof.
  destruct stmt as [table cs|table names values|q|table assignments f|table f| | | |q]; cbn [statement_wf execute_data].
  - intros []. by apply create_table_keeps.
  - apply insert_keeps.
  - intros _. apply select_keeps.
  - intros Ha. unfold update. eapply hoare_bind; [apply load_schema_keeps|]. intros s.
    apply (with_table_validate s); [by intros d [_ ?]|]. intros Hok.
    eapply hoare_bind; [eapply hoare_conseq; [apply all_rows_keeps|by intros d []|done|done]|].
    intros rows. apply hoare_pure. intros Hl. eapply hoare_bind; [by apply update_rows_keeps|].
    intros n. by apply hoare_ret.
  - intros _. unfold delete. eapply hoare_bind; [apply load_schema_keeps|]. intros s.
    eapply hoare_bind; [eapply hoare_conseq; [apply all_rows_keeps|by intros d []|done|done]|].
    intros rows. apply hoare_pure. intros Hl. eapply hoare_bind; [by apply delete_rows_keeps|].
    intros n. by apply hoare_ret.
  - intros _. by apply hoare_fail.
  - intros _. by apply hoare_fail.
  - intros _. by apply hoare_fail.
  - intros _. unfold explain. eapply hoare_bind; [apply load_schema_keeps|]. intros s.
    apply (with_table_validate s); [by intros d [_ ?]|]. intros (Hval & _).
    destruct (plan_safe q s Hval) as (p & -> & _).
    eapply hoare_bind; [by apply (keep_lift _ _ (λ _, db_ok)); [|intros m [_ []]|intros a m _ [_ []]]|].
    intros p'. by apply hoare_ret.
Qed.
End laws.

(** ** INSERT *)

Lemma assign_run s row column v row' :
  assign s row column v = Ok row' →
  ∃ i c, column_index s column = Some i ∧ columns s !! i = Some c ∧ c_name c = column ∧ i < length row ∧ row' = <[i := v]> row.
Proof.
  unfold assign. intros (i & Hi%ok_or_ok & (c & Hc%index_ok & ([] & _ & Hset)%bind_ok)%bind_ok)%bind_ok.
  destruct (column_index_some _ _ _ Hi) as (c' & Hc' & Hn). rewrite Hc in Hc'. injection Hc' as <-.
  unfold set_index in Hset. case_match eqn:Hl; [|done]. apply ok_inj in Hset as <-. apply Nat.ltb_lt in Hl. by exists i, c.
Qed.

Lemma fill_row_spec s pairs row assigned row' :
  validate s = Ok tt → length row = length (columns s) → length assigned = length (columns s) →
  fill_row s pairs row assigned = Ok row' →
  NoDup pairs.*1 ∧ length row' = length (columns s) ∧
  (∀ n, n ∈ pairs.*1 → ∃ i, column_index s n = Some i ∧ assigned !! i = Some false) ∧
  (∀ i c, columns s !! i = Some c →
     row' !! i = match (list_to_map pairs : gmap string Value) !! c_name c with Some v => Some v | None => row !! i end).
Proof.
  intros Hv. revert row assigned. induction pairs as [|[n v] rest IH]; intros row assigned Hlr Hla; cbn [fill_row].
  { intros H%ok_inj. subst. split_and!; [constructor|done|by intros n ?%elem_of_nil|]. intros i c _. reflexivity. }
  intros (i0 & Hi0%ok_or_ok & (seen & Hseen%index_ok & Hrest)%bind_ok)%bind_ok. destruct seen; [done|].
  apply bind_ok in Hrest as (row1 & Ha & (assigned1 & Hset & Hrest)%bind_ok).
  apply assign_run in Ha as (i & c0 & Hi & Hc0 & Hn0 & Hlt & ->). rewrite Hi0 in Hi. injection Hi as <-.
  unfold set_index in Hset. case_match; [|done]. apply ok_inj in Hset as <-.
  destruct (IH (<[i0:=v]> row) (<[i0:=true]> assigned)) as (Hnd & Hlen & Hall & Hcells);
    [by rewrite length_insert..|done|].
  assert (n ∉ rest.*1) as Hfresh.
  { intros Hin. destruct (Hall n Hin) as (i & Hi & Hf). rewrite Hi0 in Hi. injection Hi as <-.
    rewrite list_lookup_insert_eq in Hf by lia. done. }
  split_and!; [by constructor|done| |].
  - cbn [fmap list_fmap fst]. intros n' [->|Hin]%elem_of_cons; [by exists i0|].
    destruct (Hall n' Hin) as (i & Hi & Hf). exists i. split; [done|].
    destruct (decide (i = i0)) as [->|]; [by rewrite list_lookup_insert_eq in Hf by lia|by rewrite list_lookup_insert_ne in Hf].
  - intros i c Hc. rewrite (Hcells i c Hc). rewrite list_to_map_cons.
    destruct (decide (c_name c = n)) as [Heq|Hne].
    + pose proof (column_index_name s i c Hv Hc) as Hidx. rewrite Heq, Hi0 in Hidx. injection Hidx as <-.
      rewrite Heq, lookup_insert_eq, not_elem_of_list_to_map_1 by done. by rewrite list_lookup_insert_eq.
    + rewrite lookup_insert_ne by done. case_match; [done|]. rewrite list_lookup_insert_ne; [done|].
      intros <-. rewrite Hc0 in Hc. injection Hc as <-. done.
Qed.

(** The row an INSERT describes: its values under its names, NULL elsewhere. *)
Definition described (s : Schema) (names : list string) (values : list Value) (row : Row) : Prop :=
  length names = length values ∧ NoDup names ∧ (∀ n, n ∈ names → is_Some (column_index s n)) ∧
  length row = length (columns s) ∧ row_ok s row ∧
  ∀ i c, columns s !! i = Some c → row !! i = Some (default VNull ((list_to_map (zip names values) : gmap string Value) !! c_name c)).

Section functional.
Context {S : Type} `{HL : KvLaws S view ok is_str fails}.
Abbreviation triple := (hoare (view := view) (ok := ok)).

Lemma insert_effect m table names values :
  db_ok m → Forall value_ok values →
  triple (λ d, d = m) (insert table names values)
    (λ r d, r = RAffected 1 ∧ ∃ s row k, table_schema m s ∧ s_name s = table ∧ described s names values row ∧
       row_key s row = Ok k ∧ m !! k = None ∧ d = <[k := encode_row row]> m)
    (λ _ d, d = m).
Proof.
  intros Hdb Hv. unfold insert. eapply hoare_bind; [by apply (load_schema_spec m table (λ _ d, d = m) Hdb)|]. intros s.
  intros st Hst (Hm & Hn & Hs). revert st Hst Hm. pose proof (proj2 Hs) as (Hval & _).
  change (triple (λ d, d = m) (if negb (length names =? length values) then fail (invalid_input "sql: INSERT column/value count mismatch") else
    row ← lift (fill_row s (zip names values) (replicate (length (columns s)) VNull) (replicate (length (columns s)) false));
    key ← lift (row_key s row);
    found ← kv_get key;
    if decide (is_Some found) then fail (invalid_input "sql: duplicate primary key") else
    _ ← kv_set key (encode_row row);
    mret (RAffected 1)) (λ r d, r = RAffected 1 ∧ ∃ s row k, table_schema m s ∧ s_name s = table ∧ described s names values row ∧
       row_key s row = Ok k ∧ m !! k = None ∧ d = <[k := encode_row row]> m) (λ _ d, d = m)).
  destruct (length names =? length values) eqn:Hlen; cbn [negb]; [|by apply hoare_fail]. apply Nat.eqb_eq in Hlen.
  pose proof (fill_row_ok s (zip names values) (replicate (length (columns s)) VNull) (replicate (length (columns s)) false)
    (null_row_ok s) ltac:(by rewrite !length_replicate) (forall_zip _ _ _ Hv)) as Hfill.
  eapply hoare_bind.
  { apply (hoare_lift _ _ (λ row d, d = m ∧ described s names values row)); [by intros p Hp; rewrite Hp in Hfill|done|].
    intros row d Hrow ->. split; [done|]. rewrite Hrow in Hfill.
    destruct (fill_row_spec _ _ _ _ _ Hval (length_replicate _ _) (length_replicate _ _) Hrow) as (Hnd & Hlr & Hall & Hcells).
    rewrite fst_zip in Hnd, Hall by lia. split_and!; [done|done| |done|done|].
    - intros n Hin. destruct (Hall n Hin) as (i & Hi & _). eauto.
    - intros i c Hc. rewrite (Hcells i c Hc). case_match; [done|]. apply lookup_replicate_2. by eapply lookup_lt_Some. }
  intros row. apply hoare_pure. intros Hd. assert (row_ok s row) as Hr by apply Hd.
  eapply hoare_bind.
  { apply (hoare_lift _ _ (λ k d, d = m ∧ row_key s row = Ok k)); [by intros p; apply row_key_safe|done|done]. }
  intros k. apply hoare_pure. intros Hk. eapply hoare_bind; [apply (hoare_get _ _ (λ o d, d = m ∧ o = m !! k)); by intros d ->|].
  intros found. apply hoare_pure. intros ->. case_decide as Hf; [by apply hoare_fail|]. apply eq_None_not_Some in Hf.
  eapply (hoare_bind _ _ _ (λ _ d, d = <[k := encode_row row]> m)).
  - apply (hoare_write (fails := fails) _ (λ m, <[k := encode_row row]> m)); [|done|by intros d ->].
    intros st0 Hst0. apply law_set; [done|eapply row_key_str; [apply Hs|done]|apply encode_row_str].
  - intros []. apply hoare_ret. intros d ->. split; [done|]. by exists s, row, k.
Qed.

(** ** DELETE *)

Lemma delete_rows_spec s f rows n m :
  Forall (listed s) rows →
  triple (λ d, d = m) (delete_rows s f rows n)
    (λ n' d, let hits := List.filter (λ p, accepts f s p.2) rows in
       n' = n + length hits ∧ d = foldl (λ d k, base.delete k d) m hits.*1 ∧
       Forall (λ p, ∃ b, matches_filter f p.2 s = Ok b) rows) (λ _ _, True).
Proof.
  intros Hl. revert n m. induction Hl as [|[k row] rows (_ & Hstr & Hr) _ IH]; intros n m; cbn [delete_rows].
  { apply hoare_ret. intros d ->. split_and!; [cbn; lia|done|constructor]. }
  eapply hoare_bind.
  { apply (hoare_lift _ _ (λ b d, d = m ∧ matches_filter f row s = Ok b)); [by intros p; apply matches_safe|done|done]. }
  intros b. apply hoare_pure. intros Hb. destruct b; cbn [negb].
  - eapply (hoare_bind _ _ _ (λ _ d, d = base.delete k m)).
    { apply (hoare_write (fails := fails) _ (λ m, base.delete k m)); [intros st Hst; by apply law_delete|done|by intros d ->]. }
    intros []. eapply hoare_conseq; [apply (IH (n + 1) (base.delete k m))|done| |done]. intros n' d. cbv zeta. cbn [List.filter snd].
    assert (accepts f s row = true) as -> by (unfold accepts; by rewrite Hb). cbn [length fmap list_fmap foldl fst].
    intros (-> & -> & Hall). split_and!; [lia|done|]. constructor; [by exists true|done].
  - eapply hoare_conseq; [apply (IH n m)|done| |done]. intros n' d. cbv zeta. cbn [List.filter snd].
    assert (accepts f s row = false) as -> by (unfold accepts; by rewrite Hb).
    intros (-> & -> & Hall). split_and!; [done|done|]. constructor; [by exists false|done].
Qed.

Lemma lookup_delete_all (m : db) ks k : foldl (λ d k, base.delete k d) m ks !! k = if decide (k ∈ ks) then None else m !! k.
Proof.
  revert m. induction ks as [|k' ks IH]; intros m; cbn [foldl].
  - rewrite decide_False; [done|apply not_elem_of_nil].
  - rewrite IH. destruct (decide (k = k')) as [->|Hne].
    + rewrite lookup_delete_eq. rewrite (decide_True (P := k' ∈ k' :: ks)) by left. by case_decide.
    + rewrite lookup_delete_ne by done. apply decide_ext. rewrite elem_of_cons. naive_solver.
Qed.

Lemma delete_effect m table f :
  db_ok m →
  triple (λ d, d = m) (delete table f)
    (λ r d, ∃ s rows, table_schema m s ∧ s_name s = table ∧ table_list m s rows ∧
       let hits := List.filter (λ p, accepts f s p.2) rows in
       r = RAffected (length hits) ∧ Forall (λ p, ∃ b, matches_filter f p.2 s = Ok b) rows ∧
       ∀ k, d !! k = if decide (k ∈ hits.*1) then None else m !! k)
    (λ _ _, True).
Proof.
  intros Hdb. unfold delete. eapply hoare_bind; [by apply (load_schema_spec m table (λ _ _, True) Hdb)|]. intros s.
  eapply (hoare_bind _ _ _ (λ rows d, (d = m ∧ table_list m s rows) ∧ s_name s = table ∧ table_schema m s)).
  { intros st Hst (Hm & Hn & Hs). destruct (all_rows_spec m s (λ _ _, True) Hdb Hs st Hst Hm) as (r & st' & Hr & Hst' & HQ).
    exists r, st'. split_and!; [done..|]. by destruct r. }
  intros rows. apply hoare_pure. intros [Hn Hs]. apply hoare_pure. intros Hl.
  eapply hoare_bind; [apply delete_rows_spec; eapply table_list_listed; [apply Hs|done]|].
  intros n. apply hoare_ret. intros d (-> & -> & Hall). exists s, rows. split_and!; [done..|]. intros k. apply lookup_delete_all.
Qed.

(** ** UPDATE *)

(** What assignments leave in a column: the last one wins. *)
Definition last_assigned (assignments : list (string * Value)) (c : string) : option Value :=
  (list_to_map (reverse assignments) : gmap string Value) !! c.

Definition reassigned (s : Schema) (assignments : list (string * Value)) (row row' : Row) : Prop :=
  row_ok s row' ∧ (∀ c, c ∈ assignments.*1 → c ∈ c_name <$> columns s) ∧
  ∀ c, c ∈ c_name <$> columns s →
    field s row' c = match last_assigned assignments c with Some v => Some v | None => field s row c end.

Lemma last_assigned_cons n v rest c :
  last_assigned ((n, v) :: rest) c = match last_assigned rest c with Some w => Some w | None => if decide (c = n) then Some v else None end.
Proof.
  unfold last_assigned. rewrite reverse_cons, list_to_map_app, lookup_union. cbn.
  destruct (decide (c = n)) as [->|Hne]; [rewrite lookup_insert_eq|rewrite lookup_insert_ne, lookup_empty by done];
    by destruct (list_to_map (M:=gmap string Value) (reverse rest) !! _).
Qed.

Lemma assign_field s row n v row' c :
  validate s = Ok tt → row_ok s row → value_ok v → assign s row n v = Ok row' →
  n ∈ c_name <$> columns s ∧ row_ok s row' ∧
  (c ∈ c_name <$> columns s → field s row' c = if decide (c = n) then Some v else field s row c).
Proof.
  intros Hv Hr Hok Ha. pose proof (assign_ok s row n v Hr Hok) as Hr'. rewrite Ha in Hr'.
  apply assign_run in Ha as (i & col & Hi & Hcol & Hn & Hlt & ->).
  split_and!; [by eapply column_index_some_name|done|]. intros Hc. destruct (column_index_exists s c Hv Hc) as [j Hj].
  rewrite (field_cell s _ c j), (field_cell s row c j) by done. unfold cell. destruct (decide (c = n)) as [->|Hne].
  - rewrite Hi in Hj. injection Hj as <-. by rewrite list_lookup_insert_eq.
  - rewrite list_lookup_insert_ne; [done|]. intros <-. destruct (column_index_some _ _ _ Hj) as (col' & Hcol' & Hn').
    rewrite Hcol in Hcol'. injection Hcol' as <-. congruence.
Qed.

Lemma assign_all_meaning s assignments row row' :
  validate s = Ok tt → row_ok s row → Forall (λ a, value_ok a.2) assignments →
  assign_all s assignments row = Ok row' → reassigned s assignments row row'.
Proof.
  intros Hv Hr Ha. revert row Hr. induction Ha as [|[n v] rest Hok _ IH]; intros row Hr; cbn [assign_all].
  { intros <-%ok_inj. split_and!; [done|by intros c ?%elem_of_nil|done]. }
  intros (row1 & Hassign & Hrest)%bind_ok. pose proof (assign_field s row n v row1 n Hv Hr Hok Hassign) as (Hin & Hr1 & _).
  destruct (IH row1 Hr1 Hrest) as (Hr' & Hcols & Hfields). split_and!; [done| |].
  - cbn. intros c [->|Hc]%elem_of_cons; [done|by apply Hcols].
  - intros c Hc. rewrite (Hfields c Hc), last_assigned_cons.
    destruct (assign_field s row n v row1 c Hv Hr Hok Hassign) as (_ & _ & Hf). rewrite (Hf Hc).
    by destruct (last_assigned rest c), (decide (c = n)).
Qed.

(** The rows [hits] of [m] rewritten as [after], under keys that are their own
    or were free once the rewritten rows are gone. *)
Record rewritten (s : Schema) (assignments : list (string * Value)) (m : db) (hits after : list (string * Row)) (d : db) : Prop := Rewritten {
  rw_rows : Forall2 (λ p q, reassigned s assignments p.2 q.2 ∧ row_key s q.2 = Ok q.1) hits after;
  rw_nodup : NoDup after.*1;
  rw_free k : k ∈ after.*1 → k ∈ hits.*1 ∨ m !! k = None;
  rw_lookup k : d !! k = match (list_to_map after : gmap string Row) !! k with
                         | Some row => Some (encode_row row)
                         | None => if decide (k ∈ hits.*1) then None else m !! k
                         end;
}.

Lemma rewritten_nil s assignments m : rewritten s assignments m [] [] m.
Proof. split; [constructor|constructor|by intros k ?%elem_of_nil|]. intros k. cbn. by rewrite lookup_empty, decide_False by apply not_elem_of_nil. Qed.

Lemma list_to_map_snoc_lookup {A} (l : list (string * A)) k a k' :
  k ∉ l.*1 → (list_to_map (l ++ [(k, a)]) : gmap string A) !! k' = if decide (k' = k) then Some a else (list_to_map l : gmap string A) !! k'.
Proof.
  intros Hk. rewrite list_to_map_snoc by done. destruct (decide (k' = k)) as [->|Hne]; [by rewrite lookup_insert_eq|by rewrite lookup_insert_ne].
Qed.

Lemma rewritten_snoc s assignments m hits after d old row new row' :
  rewritten s assignments m hits after d → old ∉ hits.*1 → is_Some (m !! old) →
  reassigned s assignments row row' → row_key s row' = Ok new → new = old ∨ d !! new = None →
  rewritten s assignments m (hits ++ [(old, row)]) (after ++ [(new, row')])
    (<[new := encode_row row']> (if decide (new = old) then d else base.delete old d)).
Proof.
  intros [Hrows Hnd Hfree Hd] Hold [x Hx] Hre Hkey Hnew.
  assert (new ∉ after.*1) as Hfresh.
  { intros Hin. destruct Hnew as [-> |Hnone].
    - destruct (Hfree _ Hin) as [?|Hn]; [done|by rewrite Hx in Hn].
    - rewrite Hd in Hnone. destruct (list_to_map (M:=gmap string Row) after !! new) eqn:Hl; [done|].
      by apply not_elem_of_list_to_map_2 in Hl. }
  split.
  - apply Forall2_app; [done|]. by apply Forall2_cons; split; [|constructor].
  - rewrite fmap_app. apply NoDup_app. split_and!; [done| |apply NoDup_singleton]. intros k Hk ->%list_elem_of_singleton. done.
  - intros k. rewrite !fmap_app, !elem_of_app. cbn. intros [Hin| ->%list_elem_of_singleton].
    + destruct (Hfree _ Hin); [left; by left|by right].
    + destruct Hnew as [-> |Hnone]; [left; right; by left|]. rewrite Hd, not_elem_of_list_to_map_1 in Hnone by done.
      case_decide; [left; by left|by right].
  - intros k. rewrite list_to_map_snoc_lookup by done. rewrite fmap_app. destruct (decide (k = new)) as [->|Hkn]; [by rewrite lookup_insert_eq|].
    rewrite lookup_insert_ne by done. destruct (decide (k = old)) as [->|Hko].
    + rewrite decide_False by done. rewrite lookup_delete_eq. 
      assert (list_to_map (M:=gmap string Row) after !! old = None) as ->.
      { apply not_elem_of_list_to_map_1. intros Hin. destruct (Hfree _ Hin) as [?|Hn]; [done|by rewrite Hx in Hn]. }
      rewrite decide_True; [done|]. apply elem_of_app. right. by left.
    + assert ((if decide (new = old) then d else base.delete old d) !! k = d !! k) as -> by (case_decide; [done|by rewrite lookup_delete_ne]).
      rewrite Hd. case_match; [done|]. apply decide_ext. rewrite elem_of_app. cbn. split; [by left|]. by intros [?| ->%list_elem_of_singleton].
Qed.

Lemma move_row_spec m old new :
  is_str old →
  triple (λ d, d = m) (move_row old new)
    (λ _ d, (new = old ∨ m !! new = None) ∧ d = if decide (new = old) then m else base.delete old m) (λ _ _, True).
Proof.
  intros Hstr. unfold move_row. destruct (decide (new = old)) as [->|Hne].
  { apply hoare_ret. intros d ->. split; [by left|done]. }
  eapply hoare_bind; [apply (hoare_get _ _ (λ o d, d = m ∧ o = m !! new)); by intros d ->|]. intros found. apply hoare_pure. intros ->.
  case_decide as Hf; [by apply hoare_fail|]. apply eq_None_not_Some in Hf.
  apply (hoare_write (fails := fails) _ (λ m, base.delete old m)); [intros st Hst; by apply law_delete|done|].
  intros d ->. split; [by right|done].
Qed.

Lemma update_rows_spec s assignments f rows n m hits after d0 :
  schema_ok s → Forall (λ a, value_ok a.2) assignments → Forall (listed s) rows →
  (∀ k row, (k, row) ∈ rows → is_Some (m !! k)) → NoDup (hits.*1 ++ rows.*1) → rewritten s assignments m hits after d0 →
  triple (λ d, d = d0) (update_rows s assignments f rows n)
    (λ n' d, let found := List.filter (λ p, accepts f s p.2) rows in
       n' = n + length found ∧ Forall (λ p, ∃ b, matches_filter f p.2 s = Ok b) rows ∧
       ∃ after', rewritten s assignments m (hits ++ found) after' d) (λ _ _, True).
Proof.
  intros Hok Ha Hl. pose proof (proj1 Hok) as Hv. revert n hits after d0.
  induction Hl as [|[k row] rows (Hk & Hstr & Hr) _ IH]; intros n hits after d0 Hin Hnd Hre; cbn [update_rows].
  { apply hoare_ret. intros d ->. split; [cbn; lia|]. split; [constructor|]. exists after. by rewrite app_nil_r. }
  cbn [fst snd] in *. assert (∀ k' row', (k', row') ∈ rows → is_Some (m !! k')) as Hin' by (intros k' row' ?; apply (Hin k' row'); by right).
  eapply hoare_bind.
  { apply (hoare_lift _ _ (λ b d, d = d0 ∧ matches_filter f row s = Ok b)); [by intros p; apply matches_safe|done|done]. }
  intros b. apply hoare_pure. intros Hb. destruct b; cbn [negb].
  2: { eapply hoare_conseq; [apply (IH n hits after d0 Hin'); [|done]|done| |done].
       - apply NoDup_app in Hnd as (? & Hd & Hn). apply NoDup_app. cbn in Hn, Hd. apply NoDup_cons in Hn as [_ Hn].
         split_and!; [done| |done]. intros x Hx Hx'. apply (Hd x Hx). by right.
       - intros n' d. cbv zeta. cbn [List.filter snd]. assert (accepts f s row = false) as -> by (unfold accepts; by rewrite Hb).
         intros (-> & Hall & ?). split_and!; [done| |done]. constructor; [by exists false|done]. }
  pose proof (assign_all_ok s assignments row Hr Ha) as Hassign. eapply hoare_bind.
  { apply (hoare_lift _ _ (λ row' d, d = d0 ∧ assign_all s assignments row = Ok row')); [by intros p Hp; rewrite Hp in Hassign|done|done]. }
  intros row'. apply hoare_pure. intros Hrow'. rewrite Hrow' in Hassign.
  eapply hoare_bind.
  { apply (hoare_lift _ _ (λ k' d, d = d0 ∧ row_key s row' = Ok k')); [by intros p; apply row_key_safe|done|done]. }
  intros new. apply hoare_pure. intros Hnew.
  eapply hoare_bind; [by apply move_row_spec|]. intros [].
  set (d1 := if decide (new = k) then d0 else base.delete k d0).
  eapply (hoare_bind _ _ _ (λ _ d, d = <[new := encode_row row']> d1 ∧ (new = k ∨ d0 !! new = None))).
  { apply (hoare_write (fails := fails) _ (λ m, <[new := encode_row row']> m)); [|done|by intros d [? ->]].
    intros st Hst. apply law_set; [done|by eapply row_key_str|apply encode_row_str]. }
  intros []. apply hoare_pure. intros Hfree.
  assert (k ∉ hits.*1) as Hnot.
  { intros Hh. apply NoDup_app in Hnd as (_ & Hd & _). apply (Hd k Hh). left. }
  assert (rewritten s assignments m (hits ++ [(k, row)]) (after ++ [(new, row')]) (<[new := encode_row row']> d1)) as Hre'.
  { apply rewritten_snoc; [done|done|by apply (Hin k row); left|by apply assign_all_meaning|done|done]. }
  eapply hoare_conseq; [apply (IH (n + 1) (hits ++ [(k, row)]) (after ++ [(new, row')]) (<[new := encode_row row']> d1) Hin'); [|exact Hre']|done| |done].
  - by rewrite fmap_app, <- app_assoc.
  - intros n' d. cbv zeta. cbn [List.filter snd]. assert (accepts f s row = true) as -> by (unfold accepts; by rewrite Hb).
    intros (-> & Hall & after' & Hafter). split_and!; [cbn [length]; lia|constructor; [by exists true|done]|].
    exists after'. by rewrite <- app_assoc in Hafter.
Qed.

Lemma update_effect m table assignments f :
  db_ok m → Forall (λ a, value_ok a.2) assignments →
  triple (λ d, d = m) (update table assignments f)
    (λ r d, ∃ s rows after, table_schema m s ∧ s_name s = table ∧ table_list m s rows ∧
       let hits := List.filter (λ p, accepts f s p.2) rows in
       r = RAffected (length hits) ∧ Forall (λ p, ∃ b, matches_filter f p.2 s = Ok b) rows ∧
       rewritten s assignments m hits after d)
    (λ _ _, True).
Proof.
  intros Hdb Ha. unfold update. eapply hoare_bind; [by apply (load_schema_spec m table (λ _ _, True) Hdb)|]. intros s.
  eapply (hoare_bind _ _ _ (λ rows d, (d = m ∧ table_list m s rows) ∧ s_name s = table ∧ table_schema m s)).
  { intros st Hst (Hm & Hn & Hs). destruct (all_rows_spec m s (λ _ _, True) Hdb Hs st Hst Hm) as (r & st' & Hr & Hst' & HQ).
    exists r, st'. split_and!; [done..|]. by destruct r. }
  intros rows. apply hoare_pure. intros [Hn Hs]. apply hoare_pure. intros Hl. assert (schema_ok s) as Hok by apply Hs.
  eapply hoare_bind; [apply (update_rows_spec s assignments f rows 0 m [] [] m Hok Ha (table_list_listed _ _ _ Hok Hl))|].
  - intros k row Hin. apply Hl in Hin as (_ & _ & ->). by eexists.
  - apply Hl.
  - apply rewritten_nil.
  - intros n. apply hoare_ret. intros d (-> & Hall & after & Hafter). by exists s, rows, after.
Qed.
End functional.

(** ** Statements that only read, and CREATE TABLE *)

Section reading.
Context {S : Type} `{HL : KvLaws S view ok is_str fails}.
Abbreviation triple := (hoare (view := view) (ok := ok)).

Definition unchanged (m : db) (st : S) : Prop := ok st ∧ view st = m.

Lemma get_unchanged m k : stable (unchanged m) (kv_get k).
Proof. intros st [Hst Hv]. rewrite law_get by done. done. Qed.
Lemma scan_unchanged m p : stable (unchanged m) (kv_scan p).
Proof. intros st [Hst Hv]. destruct (law_scan st p Hst) as (rows & -> & _). done. Qed.

Lemma load_unchanged m table : stable (unchanged m) (load_schema table).
Proof. unfold load_schema. pose proof (get_unchanged m). stable_tac. Qed.

Lemma select_unchanged m q : stable (unchanged m) (select_rows q).
Proof.
  unfold select_rows, access_rows, all_rows. pose proof (get_unchanged m). pose proof (scan_unchanged m).
  pose proof (load_unchanged m). stable_tac.
Qed.

Lemma explain_unchanged m q : stable (unchanged m) (explain q).
Proof. unfold explain. pose proof (load_unchanged m). stable_tac. Qed.

Lemma create_spec m table cs :
  stored_name table → Forall (λ c, stored_name (c_name c)) cs →
  triple (λ d, d = m) (create_table table cs)
    (λ r d, r = RAffected 0 ∧ m !! catalog_key table = None ∧ validate (MkSchema table cs) = Ok tt ∧
       d = <[catalog_key table := encode_schema (MkSchema table cs)]> m) (λ _ d, d = m).
Proof.
  intros Ht Hcs. unfold create_table. pose proof (validate_safe (MkSchema table cs)) as Hnp.
  eapply hoare_bind; [by apply (hoare_lift _ _ (λ _ d, d = m ∧ validate (MkSchema table cs) = Ok tt)); [| |intros [] d]|].
  intros []. apply hoare_pure. intros Hv. eapply hoare_bind; [apply (hoare_get _ _ (λ o d, d = m ∧ o = m !! catalog_key table)); by intros d ->|].
  intros found. apply hoare_pure. intros ->. case_decide as Hf; [by apply hoare_fail|]. apply eq_None_not_Some in Hf.
  unfold save_schema. rewrite Hv.
  eapply (hoare_bind _ _ _ (λ _ d, d = <[catalog_key table := encode_schema (MkSchema table cs)]> m)).
  - eapply (hoare_bind _ _ _ (λ _ d, d = m)); [by apply hoare_lift|]. intros [].
    apply (hoare_write (fails := fails) _ (λ m, <[catalog_key table := encode_schema (MkSchema table cs)]> m)); [|done|by intros d ->].
    assert (schema_ok (MkSchema table cs)) as Hok by done.
    intros st Hst. apply law_set; [done|by apply catalog_key_str|by apply encode_schema_str].
  - intros []. by apply hoare_ret.
Qed.

Lemma table_rows_ok m s rows : table_list m s rows → Forall (row_ok s) rows.*2.
Proof.
  intros (_ & _ & Hin). apply Forall_fmap, Forall_forall. intros [k row] (_ & Hr & _)%Hin. done.
Qed.

(** A query, whatever access path is chosen. *)
Lemma select_spec m q s rows :
  db_ok m → table_schema m s → s_name s = s_table q → table_list m s rows → filter_wf (s_filter q) →
  triple (λ d, d = m) (select_rows q)
    (λ r d, d = m ∧ literal_fits s q = true ∧ run_query s q rows.*2 = Ok r)
    (λ e d, d = m ∧ (if literal_fits s q then run_query s q rows.*2 else Err wrong_type) = Err e).
Proof.
  intros Hdb Hs Hn Hl Hwf. destruct (plan_safe q s) as (p & Hp & _); [by apply Hs|]. unfold select_rows. rewrite <- Hn.
  eapply hoare_bind; [eapply hoare_conseq; [by apply (load_schema_ok m s)|done|done|done]|].
  intros s'. intros st Hst [Hv ->]. revert st Hst Hv.
  change (triple (λ d, d = m) (plan ← lift (plan_select q s); rows ← access_rows s plan; lift (answer_select q s rows))
    (λ r d, d = m ∧ literal_fits s q = true ∧ run_query s q rows.*2 = Ok r)
    (λ e d, d = m ∧ (if literal_fits s q then run_query s q rows.*2 else Err wrong_type) = Err e)).
  rewrite Hp. eapply (hoare_bind _ _ _ (λ p' d, d = m ∧ p' = p)); [by apply hoare_lift; [| |intros p' d [= <-]]|].
  intros p'. apply hoare_pure. intros ->.
  eapply hoare_bind; [eapply hoare_conseq; [by apply (access_rows_spec m s q rows p)|done|done|]|].
  { intros e d (-> & -> & ->). done. }
  intros found st Hst (Hv & Hfit & Hq). exists (run_query s q found), st. unfold lift. rewrite answer_select_query, Hq, Hfit, Hv.
  split_and!; [done..|]. pose proof (run_query_safe s q rows.*2) as Hsafe.
  destruct (run_query s q rows.*2); [done|done|]. eapply Hsafe; [by eapply table_rows_ok|done].
Qed.

(** The access path EXPLAIN tells of: by the key when the filter compares it with
    a literal for equality, else through the table. *)
Definition chosen (q : Select) (key : string) (a : Access) : Prop :=
  let by_key v := s_filter q = Some (EBinary OEq (EColumn key) (ELiteral v)) ∨ s_filter q = Some (EBinary OEq (ELiteral v) (EColumn key)) in
  match a with PrimaryKey v => by_key v | FullScan => ∀ v, ¬ by_key v end.

Lemma plan_chosen q s p : plan_select q s = Ok p → ∃ c, primary_column s = Ok c ∧ p_select p = q ∧ chosen q (c_name c) (access p).
Proof.
  unfold plan_select. intros (c & Hc & Hp)%bind_ok. apply ok_inj in Hp as <-. exists c. split_and!; [done..|]. cbn. unfold chosen.
  destruct (s_filter q) as [e|]; cbn; [|naive_solver]. destruct (primary_equality e (c_name c)) as [v|] eqn:He.
  - apply primary_equality_inv in He as [-> | ->]; auto.
  - intros v [[= ->]|[= ->]]; cbn in He; by rewrite decide_True in He.
Qed.

Lemma explain_spec m q :
  db_ok m →
  triple (λ d, d = m) (explain q)
    (λ r d, d = m ∧ ∃ s c a, table_schema m s ∧ s_name s = s_table q ∧ primary_column s = Ok c ∧ chosen q (c_name c) a ∧
       r = RExplain (plan_text (MkPlan a q))) (λ _ d, d = m).
Proof.
  intros Hdb. unfold explain. eapply hoare_bind; [by apply (load_schema_spec m (s_table q) (λ _ d, d = m) Hdb)|]. intros s.
  intros st Hst (Hv & Hn & Hs). revert st Hst Hv. destruct (plan_safe q s) as (p & Hp & _); [by apply Hs|].
  change (triple (λ d, d = m) (plan ← lift (plan_select q s); mret (RExplain (plan_text plan)))
    (λ r d, d = m ∧ ∃ s c a, table_schema m s ∧ s_name s = s_table q ∧ primary_column s = Ok c ∧ chosen q (c_name c) a ∧
       r = RExplain (plan_text (MkPlan a q))) (λ _ d, d = m)).
  rewrite Hp. eapply (hoare_bind _ _ _ (λ p' d, d = m ∧ p' = p)); [by apply hoare_lift; [| |intros p' d [= <-]]|].
  intros p'. apply hoare_pure. intros ->. apply hoare_ret. intros d ->. split; [done|].
  destruct (plan_chosen q s p Hp) as (c & Hc & Hq & Ha). exists s, c, (access p). split_and!; [done..|]. destruct p; cbn in *. by subst.
Qed.

(** What a statement that succeeds answered, and did to the map. *)
Definition effect (stmt : Statement) (m : db) (r : SqlResult) (d : db) : Prop :=
  match stmt with
  | SCreateTable table cs =>
    r = RAffected 0 ∧ m !! catalog_key table = None ∧ schema_ok (MkSchema table cs) ∧
    d = <[catalog_key table := encode_schema (MkSchema table cs)]> m
  | SInsert table names values =>
    r = RAffected 1 ∧ ∃ s row k, table_schema m s ∧ s_name s = table ∧ described s names values row ∧
      row_key s row = Ok k ∧ m !! k = None ∧ d = <[k := encode_row row]> m
  | SUpdate table assignments f =>
    ∃ s rows after, table_schema m s ∧ s_name s = table ∧ table_list m s rows ∧
      let hits := List.filter (λ p, accepts f s p.2) rows in
      r = RAffected (length hits) ∧ Forall (λ p, ∃ b, matches_filter f p.2 s = Ok b) rows ∧
      rewritten s assignments m hits after d
  | SDelete table f =>
    ∃ s rows, table_schema m s ∧ s_name s = table ∧ table_list m s rows ∧
      let hits := List.filter (λ p, accepts f s p.2) rows in
      r = RAffected (length hits) ∧ Forall (λ p, ∃ b, matches_filter f p.2 s = Ok b) rows ∧
      ∀ k, d !! k = if decide (k ∈ hits.*1) then None else m !! k
  | SSelect q =>
    d = m ∧ ∃ s rows, table_schema m s ∧ s_name s = s_table q ∧ table_list m s rows ∧ query_answer s q rows.*2 r
  | SExplain q =>
    d = m ∧ ∃ s c a, table_schema m s ∧ s_name s = s_table q ∧ primary_column s = Ok c ∧ chosen q (c_name c) a ∧
      r = RExplain (plan_text (MkPlan a q))
  | SBegin | SCommit | SRollback => False
  end.

Lemma select_effect m q :
  db_ok m → filter_wf (s_filter q) →
  triple (λ d, d = m) (select_rows q)
    (λ r d, d = m ∧ ∃ s rows, table_schema m s ∧ s_name s = s_table q ∧ table_list m s rows ∧ query_answer s q rows.*2 r)
    (λ _ d, d = m).
Proof.
  intros Hdb Hwf st Hst Hv.
  destruct (load_schema_spec m (s_table q) (λ _ d, d = m) Hdb (λ _, eq_refl) st Hst Hv) as (rs & st1 & Hload & Hst1 & HQ).
  destruct rs as [s|e|p]; [|exists (Err e), st1; unfold select_rows; by rewrite (M_bind_err _ _ _ _ _ Hload)|done].
  destruct HQ as (_ & Hn & Hs). destruct (decode_rows m s _ Hdb Hs (mem_scan_spec m _)) as (rows & _ & Hl).
  destruct (select_spec m q s rows Hdb Hs Hn Hl Hwf st Hst Hv) as (r & st2 & Hr & Hst2 & HQ). exists r, st2.
  split_and!; [done..|]. destruct r as [a|e|p]; [|by destruct HQ|done]. destruct HQ as (-> & _ & Ha). split; [done|].
  exists s, rows. split_and!; [done..|]. pose proof (query_meaning s q rows.*2) as Hq. rewrite Ha in Hq. apply Hq; [apply Hs|by eapply table_rows_ok].
Qed.

Lemma execute_effect st stmt r st' :
  ok st → db_ok (view st) → statement_wf stmt →
  execute_data stmt st = (Ok r, st') → effect stmt (view st) r (view st').
Proof.
  intros Hst Hdb Hwf Hrun.
  assert (∀ Q E, triple (λ d, d = view st) (execute_data stmt) Q E → Q r (view st')) as Hspec.
  { intros Q E Ht. destruct (Ht st Hst eq_refl) as (r' & st1 & Hr & _ & HQ). rewrite Hrun in Hr. by injection Hr as <- <-. }
  destruct stmt as [table cs|table names values|q|table assignments f|table f| | | |q]; cbn [execute_data effect statement_wf] in *.
  - destruct (Hspec _ _ (create_spec _ table cs (proj1 Hwf) (proj2 Hwf))) as (-> & ? & ? & ->). by destruct Hwf.
  - by apply (Hspec _ _ (insert_effect _ table names values Hdb Hwf)).
  - by apply (Hspec _ _ (select_effect (view st) q Hdb Hwf)).
  - by apply (Hspec _ _ (update_effect (view st) table assignments f Hdb Hwf)).
  - by apply (Hspec _ _ (delete_effect _ table f Hdb)).
  - done.
  - done.
  - done.
  - by apply (Hspec _ _ (explain_spec (view st) q Hdb)).
Qed.
(** C27. What statements do.  Over any transaction that keeps its contract, a
    statement that succeeds on well-formed tables leaves: for CREATE TABLE, the
    new valid schema under a name that had none; for INSERT, one new row, the
    described values with NULL in the columns not named, under a key that was
    free; for UPDATE, in place of every row the filter accepts the row with the
    last value assigned to each column, under the key that this row has, which
    is its own old key or one that no remaining row has, and no two alike; for
    DELETE, none of the rows the filter accepts; for SELECT and EXPLAIN,
    everything.  All other keys keep their values.  The count answered is the
    number of rows accepted, a SELECT answers the query's meaning over the rows
    of the table, and EXPLAIN tells the access path that its filter gives. *)
Theorem statements_change_exactly st stmt r st' :
  ok st → db_ok (view st) → statement_wf stmt →
  execute_data stmt st = (Ok r, st') → effect stmt (view st) r (view st').
Proof. apply execute_effect. Qed.

(** C28. The planner does not change what a query answers.  On a table of a
    transaction that keeps its contract, whatever access path is chosen (an
    index lookup for an equality of the primary key with a literal, else a
    scan), a SELECT returns exactly, answer or error, what filtering, sorting,
    limiting and projecting all the table's rows gives, and changes nothing; but
    a literal compared with the key that is not of the key's type is refused
    as such before any row is read. *)
Theorem planner_keeps_answers st s q rows :
  ok st → db_ok (view st) → table_schema (view st) s → s_name s = s_table q → table_list (view st) s rows →
  filter_wf (s_filter q) →
  ∃ st', select_rows q st = (if literal_fits s q then run_query s q rows.*2 else Err wrong_type, st') ∧
    ok st' ∧ view st' = view st.
Proof.
  intros Hst Hdb Hs Hn Hl Hwf. destruct (select_spec (view st) q s rows Hdb Hs Hn Hl Hwf st Hst eq_refl) as (r & st' & Hr & Hst' & HQ).
  exists st'. destruct r as [a|e|p]; [destruct HQ as (Hv & -> & Ha)|destruct HQ as (Hv & Ha)|done]; by rewrite Hr, Ha.
Qed.
End reading.

(** ** At concrete tables *)

Definition sample_statements : list Statement :=
  [SCreateTable "T" (columns sample_schema);
   SInsert "T" ["NAME"; "ID"] [VText "a"; VInteger 1];
   SInsert "T" ["ID"] [VInteger (-7)];
   SInsert "T" ["ID"; "NAME"] [VInteger 3; VText "a"]].
Definition sample_db : db := foldl (λ d stmt, snd (execute_data stmt d)) ∅ sample_statements.

Lemma sample_wf : Forall statement_wf sample_statements.
Proof.
  repeat (apply Forall_cons; split); cbn [statement_wf]; try apply Forall_nil; try done.
  - split; [by apply stored_name_check|]. repeat constructor; by apply stored_name_check.
Qed.

Lemma sample_db_ok : db_ok sample_db.
Proof.
  unfold sample_db. generalize sample_wf. generalize db_ok_empty. generalize (∅ : db).
  induction sample_statements as [|stmt l IH]; intros d Hd Hwf; cbn [foldl]; [done|]. inversion Hwf as [|? ? Hs Hl]; subst.
  apply IH; [|done]. destruct (execute_data_keeps (view := id) (ok := λ _, True) stmt Hs d I Hd) as (r & d' & -> & _ & HQ).
  by destruct r.
Qed.

Definition sample_update : Statement :=
  SUpdate "T" [("NAME", VText "y"); ("ID", VInteger 5); ("NAME", VText "z")] (Some (EBinary OEq (EColumn "ID") (ELiteral (VInteger 3)))).

Lemma statements_change_exactly_witness :
  True ∧ db_ok sample_db ∧ statement_wf sample_update ∧
  execute_data sample_update sample_db = (Ok (RAffected 1), snd (execute_data sample_update sample_db)) ∧
  effect sample_update sample_db (RAffected 1) (snd (execute_data sample_update sample_db)).
Proof.
  assert (statement_wf sample_update) as H1.
  { cbn. rewrite !Forall_cons. split_and!; [vm_compute; done..|constructor]. }
  assert (execute_data sample_update sample_db = (Ok (RAffected 1), snd (execute_data sample_update sample_db))) as H2.
  { rewrite (surjective_pairing (execute_data sample_update sample_db)) at 1. by f_equal. }
  exact (conj I (conj sample_db_ok (conj H1 (conj H2
    (statements_change_exactly (view := id) (ok := λ _, True) sample_db sample_update _ _ I sample_db_ok H1 H2))))).
Defined.

Definition sample_lookup : Select :=
  MkSelect "T" PAll (Some (EBinary OEq (ELiteral (VInteger 3)) (EColumn "ID"))) None None.
Definition sample_list : list (string * Row) :=
  match all_rows sample_schema sample_db with (Ok rows, _) => rows | _ => [] end.

Lemma planner_keeps_answers_witness :
  True ∧ db_ok sample_db ∧ table_schema sample_db sample_schema ∧ s_name sample_schema = s_table sample_lookup ∧
  table_list sample_db sample_schema sample_list ∧ filter_wf (s_filter sample_lookup) ∧
  literal_fits sample_schema sample_lookup = true ∧
  ∃ st', select_rows sample_lookup sample_db = (if literal_fits sample_schema sample_lookup then run_query sample_schema sample_lookup sample_list.*2 else Err wrong_type, st') ∧
    True ∧ id st' = id sample_db.
Proof.
  assert (table_schema sample_db sample_schema) as H1.
  { split; [vm_compute; reflexivity|exact sample_schema_ok]. }
  assert (s_name sample_schema = s_table sample_lookup) as H2 by reflexivity.
  assert (table_list sample_db sample_schema sample_list) as H3.
  { destruct (all_rows_spec (view := id) (ok := λ _, True) sample_db sample_schema (λ _ _, False) sample_db_ok H1 sample_db I eq_refl)
      as (r & d & Hr & _ & HQ). unfold sample_list. rewrite Hr. destruct r as [l|e|p]; [exact (proj2 HQ)|destruct HQ..]. }
  assert (filter_wf (s_filter sample_lookup)) as H4 by (repeat constructor; done).
  assert (literal_fits sample_schema sample_lookup = true) as H5 by (vm_compute; reflexivity).
  exact (conj I (conj sample_db_ok (conj H1 (conj H2 (conj H3 (conj H4 (conj H5
    (planner_keeps_answers (view := id) (ok := λ _, True) sample_db sample_schema sample_lookup sample_list I sample_db_ok H1 H2 H3 H4)))))))).
Defined.

(** The same query answers by a scan and is refused by a lookup. *)
Example misfit_is_refused :
  let q f := MkSelect "T" PAll (Some f) None None in
  let empty := snd (execute_data (SCreateTable "T" (columns sample_schema)) (∅ : db)) in
  let text := ELiteral (VText "x") in
  fst (select_rows (q (EBinary OEq (EColumn "ID") text)) empty) = Err wrong_type ∧
  fst (select_rows (q (EBinary OAnd (EBinary OEq (EColumn "ID") text) (ELiteral (VBoolean true)))) empty)
  = Ok (RRows ["ID"; "NAME"] []).
Proof. split; vm_compute; reflexivity. Qed.
