(* ===== verification/SqlWords.v ===== *)
(** What a parsed script can contain.

    The lexer reads valid UTF-8 into names of word bytes, texts that are valid
    UTF-8 again and integers of 64 bits ([kind_wf]); the parser makes statements
    of nothing else.  So the names of a parsed script are free of the separators
    of the catalog's encodings, and its constants can be stored: the precondition
    [statement_wf] of the theorems on statements holds of every parsed one. *)

From Stdlib Require Import Ascii.
From S2P Require Import Prelude Bytes SqlAst SqlLexer SqlParser SqlTotal Catalog CatalogSpec Kv Executor ExecutorSpec QuerySpec TableSpec.

(** ** The lexer *)

Lemma lex_wf source ts : is_str source → lex source = Ok ts → tokens_wf ts.
Proof. intros Hs Hl. pose proof (lex_answers source Hs) as Ha. rewrite Hl in Ha. apply Ha. Qed.

(** ** The parser

    [gives m Q]: over well-formed tokens, which it leaves alone, [m] returns only
    values with [Q]. *)

Definition gives {A} (m : parser A) (Q : A → Prop) : Prop :=
  ∀ p v p', tokens_wf (tokens p) → m p = (Ok v, p') → Q v ∧ tokens p' = tokens p.

Lemma gives_bind {A B} (P : A → Prop) (m : parser A) (f : A → parser B) Q :
  gives m P → (∀ a, P a → gives (f a) Q) → gives (m ≫= f) Q.
Proof.
  intros Hm Hf p v p' Hp (a & p1 & Ha & Hb)%M_bind_ok. destruct (Hm _ _ _ Hp Ha) as [HP He].
  rewrite <- He. eapply Hf; [exact HP| |exact Hb]. by rewrite He.
Qed.

Lemma gives_mono {A} (m : parser A) (P Q : A → Prop) : gives m P → (∀ a, P a → Q a) → gives m Q.
Proof. intros Hm HPQ p v p' Hp Hr. destruct (Hm _ _ _ Hp Hr). auto. Qed.

Lemma gives_any {A B} (m : parser A) (f : A → parser B) Q :
  gives m (λ _, True) → (∀ a, gives (f a) Q) → gives (m ≫= f) Q.
Proof. intros Hm Hf. by eapply gives_bind. Qed.

Lemma gives_ret {A} (a : A) (Q : A → Prop) : Q a → gives (mret a) Q.
Proof. by intros HQ p v p' _ [= <- <-]. Qed.
Lemma gives_fail {A} e (Q : A → Prop) : gives (fail e) Q.
Proof. by intros p v p'. Qed.
Lemma gives_panic {A} s (Q : A → Prop) : gives (panic s) Q.
Proof. by intros p v p'. Qed.
Lemma gives_skip : gives skip (λ _, True).
Proof. by intros p v p' _ [= <- <-]. Qed.
Lemma gives_fuelled {A} (m : nat → parser A) Q : (∀ n, gives (m n) Q) → gives (fuelled m) Q.
Proof. intros Hm p v p' Hp. unfold fuelled. run_steps. by apply Hm. Qed.

Lemma gives_peek : gives peek (λ t, kind_wf (t_kind t)).
Proof.
  intros p v p' Hp. unfold peek. run_steps. unfold lift. intros [= Hi <-]. split; [|done].
  apply index_ok in Hi. by apply (Forall_lookup_1 _ _ _ _ Hp Hi).
Qed.

Lemma gives_weak {A} (m : parser A) Q : gives m Q → gives m (λ _, True).
Proof. intros Hm. by eapply gives_mono. Qed.

Lemma gives_expected {A} what (Q : A → Prop) : gives (expected what) Q.
Proof. eapply gives_bind; [apply gives_peek|]. intros t _. apply gives_fail. Qed.

Create HintDb gives discriminated.
#[export] Hint Resolve gives_fail gives_panic gives_skip gives_peek gives_weak gives_expected : gives.
#[export] Hint Extern 1 (gives (mret _) _) => apply gives_ret; done : gives.


(** A computation whose result is free. *)
Ltac gives_free :=
  repeat first
    [ progress intros
    | solve [eauto with gives]
    | match goal with |- gives (_ ≫= _) _ => apply gives_any end
    | match goal with |- gives (if ?b then _ else _) _ => destruct b end
    | match goal with |- gives (match ?x with _ => _ end) _ => destruct x end ].

Lemma gives_at_end : gives at_end (λ _, True).
Proof. unfold at_end. gives_free. Qed.
#[export] Hint Resolve gives_at_end : gives.
Lemma gives_consume_word w : gives (consume_word w) (λ _, True).
Proof. unfold consume_word, check_word. gives_free. Qed.
Lemma gives_check_word w : gives (check_word w) (λ _, True).
Proof. unfold check_word. gives_free. Qed.
Lemma gives_consume_simple k : gives (consume_simple k) (λ _, True).
Proof. unfold consume_simple. gives_free. Qed.
#[export] Hint Resolve gives_consume_word gives_check_word gives_consume_simple : gives.
Lemma gives_expect_word w : gives (expect_word w) (λ _, True).
Proof. unfold expect_word. gives_free. Qed.
Lemma gives_expect_simple k d : gives (expect_simple k d) (λ _, True).
Proof. unfold expect_simple. gives_free. Qed.
#[export] Hint Resolve gives_expect_word gives_expect_simple : gives.

Lemma gives_get {A} (f : Parser → parser A) Q :
  (∀ p, tokens_wf (tokens p) → gives (f p) Q) → gives (get_state ≫= f) Q.
Proof. intros Hf p v p' Hp. run_steps. by apply Hf. Qed.

Lemma gives_index ts i : tokens_wf ts → gives (lift (index ts i)) (λ t, kind_wf (t_kind t)).
Proof. intros Hts p v p' _ [= Hi <-]. split; [|done]. apply index_ok in Hi. by apply (Forall_lookup_1 _ _ _ _ Hts Hi). Qed.

Lemma gives_advance : gives advance (λ t, kind_wf (t_kind t)).
Proof. unfold advance. apply gives_get. intros p Hp. gives_free. by apply gives_index. Qed.

Lemma word_name_stored w : word_name w → stored_name w.
Proof.
  intros Hw. unfold word_name in Hw. rewrite Forall_forall in Hw. split_and!; [intros Hin%Hw; by vm_compute in Hin..|].
  apply Forall_forall. intros b Hb. by apply word_byte_ascii, Hw.
Qed.

Lemma gives_word : gives word stored_name.
Proof.
  unfold word. eapply gives_bind; [apply gives_advance|]. intros t Ht. cbv beta in Ht. destruct (t_kind t); try apply gives_fail.
  by apply gives_ret, word_name_stored.
Qed.
Lemma gives_identifier : gives identifier stored_name.
Proof. apply gives_word. Qed.

Lemma gives_literal : gives literal value_ok.
Proof.
  unfold literal. eapply gives_bind; [apply gives_advance|]. intros t Ht.
  cbv beta in Ht. destruct (t_kind t); try apply gives_fail; [|apply gives_ret, Ht..]. gives_free.
Qed.
#[export] Hint Resolve gives_advance gives_word gives_identifier gives_literal : gives.

(** ** Lists *)

Lemma gives_comma_loop {A} (item : parser A) Q n acc :
  gives item Q → Forall Q acc → gives (comma_loop n item acc) (Forall Q).
Proof.
  intros Hi. revert acc. induction n as [|n IH]; intros acc Hacc; cbn [comma_loop]; [apply gives_panic|].
  eapply gives_bind; [exact Hi|]. intros a Ha. assert (Forall Q (acc ++ [a])) as Hsnoc.
  { apply Forall_app. by split; [|constructor]. }
  apply gives_any; [apply gives_consume_simple|]. intros []; [by apply IH|by apply gives_ret].
Qed.

Lemma gives_comma_list {A} (item : parser A) Q : gives item Q → gives (comma_list item) (Forall Q).
Proof. intros Hi. apply gives_fuelled. intros n. by apply gives_comma_loop. Qed.

Lemma gives_names_loop n stop names : gives stop (λ _, True) → gives (names_loop n stop names) (λ _, True).
Proof. intros Hs. revert names. induction n as [|n IH]; intros names; cbn [names_loop]; gives_free. Qed.

Lemma gives_identifier_list k : gives (identifier_list k) (λ _, True).
Proof. apply gives_fuelled. intros n. apply gives_names_loop, gives_consume_simple. Qed.
Lemma gives_identifier_list_until_word w : gives (identifier_list_until_word w) (λ _, True).
Proof. apply gives_fuelled. intros n. apply gives_names_loop, gives_check_word. Qed.
#[export] Hint Resolve gives_identifier_list gives_identifier_list_until_word : gives.

(** ** Expressions *)

Abbreviation plain m := (gives m (λ _, True)).

Lemma gives_comparison e : gives e expr_wf → gives (comparison e) expr_wf.
Proof.
  intros He. assert (gives (primary e) expr_wf) as Hp.
  { assert (gives (v ← literal; mret (ELiteral v)) expr_wf) as Hl by (eapply gives_bind; [apply gives_literal|]; intros v Hv; by apply gives_ret).
    unfold primary. apply gives_any; [apply gives_consume_simple|]. intros [].
    - eapply gives_bind; [exact He|]. intros x Hx. apply gives_any; [apply gives_expect_simple|]. intros _. by apply gives_ret.
    - apply gives_any; [gives_free|]. intros t. repeat case_match; gives_free. }
  unfold comparison. eapply gives_bind; [exact Hp|]. intros l Hl. apply gives_any; [gives_free|]. intros t.
  case_match; [|by apply gives_ret]. apply gives_any; [apply gives_skip|]. intros _.
  eapply gives_bind; [exact Hp|]. intros r Hr. by apply gives_ret.
Qed.

Lemma gives_operand_loop n w op m e : gives m expr_wf → expr_wf e → gives (operand_loop n w op m e) expr_wf.
Proof.
  intros Hm. revert e. induction n as [|n IH]; intros e He; cbn [operand_loop]; [apply gives_panic|].
  apply gives_any; [apply gives_consume_word|]. intros []; [|by apply gives_ret].
  eapply gives_bind; [exact Hm|]. intros r Hr. by apply IH.
Qed.

Lemma gives_expr : gives expr expr_wf.
Proof.
  apply gives_fuelled. intros n. induction n as [|n IH]; cbn [expr_loop]; [apply gives_panic|].
  pose proof (gives_comparison _ IH) as Hc.
  assert (gives (and_ (expr_loop n)) expr_wf) as Ha.
  { eapply gives_bind; [exact Hc|]. intros e He. apply gives_fuelled. intros k. by apply gives_operand_loop. }
  eapply gives_bind; [exact Ha|]. intros e He. apply gives_fuelled. intros k. by apply gives_operand_loop.
Qed.
#[export] Hint Resolve gives_expr : gives.

(** ** Statements *)

Lemma gives_where : gives where_ filter_wf.
Proof.
  unfold where_. apply gives_any; [apply gives_consume_word|]. intros []; [|by apply gives_ret].
  eapply gives_bind; [apply gives_expr|]. intros e He. by apply gives_ret.
Qed.
Lemma gives_order_by : plain order_by.
Proof. unfold order_by. gives_free. Qed.
Lemma gives_limit : plain limit.
Proof. unfold limit. gives_free. Qed.
#[export] Hint Resolve gives_where gives_order_by gives_limit : gives.
Lemma gives_select : gives select_after_keyword (λ q, filter_wf (s_filter q)).
Proof.
  unfold select_after_keyword. do 4 (apply gives_any; [gives_free|]; intros ?).
  eapply gives_bind; [apply gives_where|]. intros f Hf. do 2 (apply gives_any; [gives_free|]; intros ?). by apply gives_ret.
Qed.
Lemma gives_column_type n : plain (column_type n).
Proof. unfold column_type. gives_free. Qed.
#[export] Hint Resolve gives_select gives_column_type : gives.

Lemma gives_column_def : gives column_def (λ c, stored_name (c_name c)).
Proof. unfold column_def. eapply gives_bind; [apply gives_identifier|]. intros name Hn. gives_free. Qed.

Lemma gives_create_table : gives SqlParser.create_table statement_wf.
Proof.
  unfold SqlParser.create_table. eapply gives_bind; [apply gives_identifier|]. intros table Ht.
  apply gives_any; [gives_free|]. intros _.
  eapply gives_bind; [apply gives_comma_list, gives_column_def|]. intros cs Hcs.
  apply gives_any; [gives_free|]. intros _. by apply gives_ret.
Qed.

Lemma gives_insert : gives SqlParser.insert statement_wf.
Proof.
  unfold SqlParser.insert. do 5 (apply gives_any; [gives_free|]; intros ?).
  eapply gives_bind; [apply gives_comma_list, gives_literal|]. intros vs Hvs.
  apply gives_any; [gives_free|]. intros _. by apply gives_ret.
Qed.

Lemma gives_assignment : gives assignment (λ a, value_ok a.2).
Proof.
  unfold assignment. do 2 (apply gives_any; [gives_free|]; intros ?).
  eapply gives_bind; [apply gives_literal|]. intros v Hv. by apply gives_ret.
Qed.

Lemma gives_update : gives SqlParser.update statement_wf.
Proof.
  unfold SqlParser.update. do 2 (apply gives_any; [gives_free|]; intros ?).
  eapply gives_bind; [apply gives_comma_list, gives_assignment|]. intros vs Hvs.
  apply gives_any; [gives_free|]. intros f. by apply gives_ret.
Qed.

Lemma gives_delete : gives SqlParser.delete statement_wf.
Proof. unfold SqlParser.delete. gives_free. Qed.
#[export] Hint Resolve gives_create_table gives_insert gives_update gives_delete : gives.

Lemma gives_select_statement : gives (s ← select_after_keyword; mret (SSelect s)) statement_wf.
Proof. eapply gives_bind; [apply gives_select|]. intros q Hq. by apply gives_ret. Qed.
#[export] Hint Resolve gives_select_statement : gives.

Lemma gives_statement : gives statement statement_wf.
Proof. unfold statement. gives_free. Qed.

Lemma gives_statements_loop n acc : Forall statement_wf acc → gives (statements_loop n acc) (Forall statement_wf).
Proof.
  revert acc. induction n as [|n IH]; intros acc Hacc; cbn [statements_loop]; [apply gives_panic|].
  apply gives_any; [gives_free|]. intros []; [by apply gives_ret|].
  apply gives_any; [gives_free|]. intros []; [by apply IH|].
  eapply gives_bind; [apply gives_statement|]. intros s Hs.
  do 2 (apply gives_any; [gives_free|]; intros ?). case_match; [|apply gives_expected].
  apply IH. apply Forall_app. by split; [|constructor].
Qed.

(** What a valid text parses to is well formed. *)
Lemma parse_wf source ss : is_str source → parse source = Ok ss → Forall statement_wf ss.
Proof.
  intros Hs. unfold parse, parse_tokens. intros (ts & Hl & (l & Hp & Hne)%bind_ok)%bind_ok.
  assert (l = ss) as -> by (by destruct l; [|apply ok_inj in Hne]).
  destruct (fuelled (λ n, statements_loop n []) (MkParser ts 0)) as [r p] eqn:Hrun. cbn [fst] in Hp. subst r.
  assert (gives (fuelled (λ n, statements_loop n [])) (Forall statement_wf)) as Hg.
  { apply gives_fuelled. intros n. by apply gives_statements_loop. }
  destruct (Hg (MkParser ts 0) ss p) as [H _]; [by eapply lex_wf|done..].
Qed.
