(* ===== verification/EngineSpec.v ===== *)
(** The engine refines sessions over maps.

    Abstractly a session is a committed map and, inside an explicit
    transaction, the map that transaction shows.  [session_step] says what each
    statement may do to them; [engine_refines_sessions] shows that the engine,
    over the multi-version store and its log, does nothing else.  On the way the
    transactional store is shown to keep the contract of Kv.v, and a session's
    commits are shown never to conflict. *)

From Stdlib Require Import Ascii.
From S2P Require Import Prelude Bytes Wal TxnLog Versions Mvcc LogFaults MvccSpec MvccRecovery SqlAst SqlLexer SqlParser SqlTotal.
From S2P Require Import Catalog CatalogSpec Kv Executor ExecutorSpec ExecutorSim QuerySpec TableSpec SqlWords Engine.
Local Open Scope Z_scope.

(** ** What a transaction shows *)

Definition mvcc_view (s : Inner * Transaction) : db :=
  scan_rows (versions s.1) (t_snapshot s.2) "" (t_writes s.2).

(** The handle of the only transaction. *)
Definition only (t : Transaction) : gmap Z Transaction := {[t_id t := t]}.

Lemma only_lookup t : only t !! t_id t = Some t.
Proof. apply lookup_singleton_eq. Qed.
Lemma only_delete t : base.delete (t_id t) (only t) = ∅.
Proof. apply delete_singleton_eq. Qed.
Lemma only_insert t t' : t_id t' = t_id t → <[t_id t := t']> (only t) = only t'.
Proof. intros H. unfold only. by rewrite insert_singleton_eq, H. Qed.

Lemma starts_with_nil k : starts_with k "" = true.
Proof. by destruct k. Qed.

Lemma lookup_view i t k :
  mvcc_view (i, t) !! k = match t_writes t !! k with Some w => w | None => visible_value (versions i) k (t_snapshot t) end.
Proof. unfold mvcc_view. rewrite lookup_scan_rows, starts_with_nil. done. Qed.

(** ** Sessions, abstractly *)

Definition is_data (stmt : Statement) : bool :=
  match stmt with SBegin | SCommit | SRollback => false | _ => true end.

Section sessions.
Context (F : io_error → Prop).

(** [F]: the errors that the log may report. *)
Inductive session_step : db * option db → Statement → io SqlResult → db * option db → Prop :=
| Step_begin c : session_step (c, None) SBegin (Ok RBegun) (c, Some c)
| Step_begin_failed c e : F e → session_step (c, None) SBegin (Err e) (c, None)
| Step_begin_twice c a :
    session_step (c, Some a) SBegin (Err (invalid_input "sql: transaction already active")) (c, Some a)
| Step_commit c a : session_step (c, Some a) SCommit (Ok RCommitted) (a, None)
| Step_commit_failed c a e : F e → session_step (c, Some a) SCommit (Err e) (c, None)
| Step_rollback c a : session_step (c, Some a) SRollback (Ok RRolledBack) (c, None)
| Step_rollback_failed c a e : F e → session_step (c, Some a) SRollback (Err e) (c, None)
| Step_no_transaction c stmt :
    stmt = SCommit ∨ stmt = SRollback →
    session_step (c, None) stmt (Err (invalid_input "sql: no active transaction")) (c, None)
| Step_data c stmt r c' :
    is_data stmt = true → runs_on F stmt c (Ok r) c' → effect stmt c r c' → session_step (c, None) stmt (Ok r) (c', None)
| Step_data_failed c stmt e :
    is_data stmt = true → F e ∨ (∃ d, runs_on F stmt c (Err e) d) → session_step (c, None) stmt (Err e) (c, None)
| Step_data_in c a stmt r a' :
    is_data stmt = true → runs_on F stmt a (Ok r) a' → effect stmt a r a' → session_step (c, Some a) stmt (Ok r) (c, Some a')
| Step_data_in_failed c a stmt e a' :
    is_data stmt = true → runs_on F stmt a (Err e) a' → session_step (c, Some a) stmt (Err e) (c, Some a').

Definition session_ok (v : db * option db) : Prop :=
  db_ok v.1 ∧ match v.2 with Some a => db_ok a | None => True end.

Lemma failed_step v stmt e v' : session_step v stmt (Err e) v' → v'.1 = v.1.
Proof. intros H. by inversion H. Qed.

Inductive script_run : db * option db → list Statement → io (list SqlResult) → db * option db → Prop :=
| Run_nil v : script_run v [] (Ok []) v
| Run_step v stmt r v1 rest rs v2 :
    session_step v stmt (Ok r) v1 → session_ok v1 → script_run v1 rest rs v2 →
    script_run v (stmt :: rest) (fmap_result (cons r) rs) v2
| Run_stop v stmt e v1 rest : session_step v stmt (Err e) v1 → script_run v (stmt :: rest) (Err e) v1.

(** A text that does not parse changes nothing; one that does is run. *)
Inductive session_trace : db * option db → list string → list (io (list SqlResult)) → Prop :=
| Trace_nil v : session_trace v [] []
| Trace_refused v source e rest rs :
    parse source = Err e → session_trace v rest rs → session_trace v (source :: rest) (Err e :: rs)
| Trace_script v source stmts r v1 rest rs :
    parse source = Ok stmts → script_run v stmts r v1 → session_ok v1 →
    session_trace v1 rest rs → session_trace v (source :: rest) (r :: rs).
End sessions.

(** ** What every operation keeps *)

(** The map a history leaves. *)
Definition tells (h : history) (c : db) : Prop := ∀ k, c !! k = spec_read h k (now h).

Lemma tells_unique h c c' : tells h c → tells h c' → c = c'.
Proof. intros H H'. apply map_eq. intros k. by rewrite H, H'. Qed.

(** The map a new transaction would show. *)
Definition committed (i : Inner) : db := scan_rows (versions i) (commit_ts i) "" ∅.

Lemma committed_tells S hist txs : sys_ok S (MkSpec hist txs) → tells hist (committed (inner S)).
Proof.
  intros [_ Hts (low & [_ Hlow Hr _] & _) _ _] k. unfold committed. rewrite lookup_scan_rows, starts_with_nil, lookup_empty.
  cbn [s_hist] in *. rewrite Hts. apply Hr. lia.
Qed.

(** What an engine shows: what is committed, and what its transaction sees. *)
Definition shows (e : Engine) : db * option db :=
  (committed (e_store e), (λ t, mvcc_view (e_store e, t)) <$> e_active e).

(** The texts of an operation. *)
Definition op_texts (str : string → Prop) (o : op) : Prop :=
  match o with OSet _ k v => str k ∧ str v | ODelete _ k => str k | _ => True end.

(** An invariant of a store, next to its specification, that every operation on
    texts of [str] keeps as long as what has been committed is one of [C]; the
    log's failures still to come are of [F]. *)
Class Keeps (F : io_error → Prop) (C : db → Prop) (str : string → Prop) (Inv : Sys → Spec → Prop) : Prop := {
  keeps_ok S s : Inv S s → sys_ok S s;
  keeps_told S s : Inv S s → ∃ c, tells (s_hist s) c ∧ C c;
  keeps_env S s : Inv S s → store_in F (inner S);
  keeps_step S s o r S' : Inv S s → op_texts str o → exec S o = Some (r, S') →
    ∃ s', spec_step s o r s' ∧ sys_ok S' s' ∧ ((∃ c, tells (s_hist s') c ∧ C c) → Inv S' s');
}.

(** Consistency is such an invariant, whatever is committed and however the
    log file behaves. *)
Definition anything (_ : db) : Prop := True.
Definition sys_under (F : io_error → Prop) (S : Sys) (s : Spec) : Prop := sys_ok S s ∧ store_in F (inner S).

Lemma exec_store_in F S o r S' :
  (∀ e, e ∈ exhausted → F e) → store_in F (inner S) → exec S o = Some (r, S') → store_in F (inner S').
Proof.
  intros HF Hin. destruct o as [|h k|h p|h k v|h k|h|h|h|]; cbn [exec]; unfold exec_read, exec_update, exec_consume.
  1: { destruct (fails_begin F HF (inner S) Hin) as [Hw _]. destruct (begin (inner S)) as [[]]; intros [= _ <-]; exact Hw. }
  1-7: destruct (txns S !! h) as [t|]; [|done]; cbn.
  - intros Hrun. assert (fails_only (store_in F) (λ _, True) (Mvcc.get t k)) as Hg.
    { unfold Mvcc.get, get_at. apply fails_only_bind; [by apply fails_only_lift|]. intros _. destruct (t_writes t !! k); [apply fails_only_ret|].
      apply fails_only_bind; [apply fails_only_get|]. intros i. apply fails_only_ret. }
    destruct (Hg _ Hin) as [Hw _]. destruct (Mvcc.get t k (inner S)) as [r0 i]. by injection Hrun as _ <-.
  - intros Hrun. assert (fails_only (store_in F) (λ _, True) (scan_prefix t p)) as Hg.
    { unfold scan_prefix. apply fails_only_bind; [by apply fails_only_lift|]. intros _.
      apply fails_only_bind; [apply fails_only_get|]. intros i. apply fails_only_ret. }
    destruct (Hg _ Hin) as [Hw _]. destruct (scan_prefix t p (inner S)) as [r0 i]. by injection Hrun as _ <-.
  - destruct (fails_set F HF k v (inner S, t) Hin) as [Hw _]. destruct (Mvcc.set k v (inner S, t)) as [r0 [i t']]. by intros [= _ <-].
  - destruct (fails_delete F HF k (inner S, t) Hin) as [Hw _]. destruct (Mvcc.delete k (inner S, t)) as [r0 [i t']]. by intros [= _ <-].
  - destruct (fails_commit F HF t (inner S) Hin) as [Hw _]. destruct (commit t (inner S)) as [r0 i]. by intros [= _ <-].
  - destruct (fails_abort F HF t (inner S) Hin) as [Hw _]. destruct (abort t (inner S)) as [r0 i]. by intros [= _ <-].
  - intros [= _ <-]. unfold drop_txn. by destruct (t_finished t).
  - unfold gc. run_steps. by intros [= _ <-].
Qed.

Lemma keeps_sys_under F str : (∀ e, e ∈ exhausted → F e) → Keeps F anything str (sys_under F).
Proof.
  intros HF. split.
  - by intros S s [].
  - intros S [hist txs] [H _]. exists (committed (inner S)). split; [by eapply committed_tells|done].
  - by intros S s [].
  - intros S s o r S' [H Hin] _ He. destruct (exec_refines _ _ _ _ _ H He) as (s' & ? & ?). exists s'. split_and!; [done..|].
    intros _. split; [done|by eapply exec_store_in].
Qed.

Lemma same_history s o r s' : spec_step s o r s' → (∀ h ts, o = OCommit h → r ≠ Ok (ATimestamp ts)) → s_hist s' = s_hist s.
Proof. intros H Hr. destruct H; try done; [by destruct (Hr h (now (s_hist s) + 1))|]. by destruct (MvccSpec.consumed o). Qed.

Section Invariant.
Context (F : io_error → Prop) (HF : ∀ e, e ∈ exhausted → F e) (C : db → Prop) (str : string → Prop) (Inv : Sys → Spec → Prop).
Context `{HK : Keeps F C str Inv}.

Definition at_history (hist : history) (S : Sys) : Prop := Inv S (MkSpec hist (txns S)).

(** A store without transactions; a live handle, alone on the store, whose
    snapshot is the latest commit. *)
Definition idle (hist : history) (i : Inner) : Prop := at_history hist (MkSys i ∅).
Definition live (hist : history) (s : Inner * Transaction) : Prop :=
  at_history hist (MkSys s.1 (only s.2)) ∧ t_snapshot s.2 = now hist.

Lemma at_ok hist S : at_history hist S → sys_ok S (MkSpec hist (txns S)).
Proof. intros H. by apply keeps_ok. Qed.

Lemma at_committed hist S c : at_history hist S → (c = committed (inner S) ↔ tells hist c).
Proof.
  intros H%at_ok%committed_tells. split; [by intros ->|]. intros Hc. by eapply tells_unique.
Qed.

Lemma step_at hist S o r S' :
  at_history hist S → op_texts str o → exec S o = Some (r, S') →
  ∃ hist', spec_step (MkSpec hist (txns S)) o r (MkSpec hist' (txns S')) ∧ sys_ok S' (MkSpec hist' (txns S')) ∧
    (C (committed (inner S')) → at_history hist' S').
Proof.
  intros H Ho He. destruct (keeps_step _ _ _ _ _ H Ho He) as ([hist' txs] & Hstep & Hok & Hk).
  pose proof (ok_txns _ _ Hok) as Ht. cbn in Ht. subst txs. exists hist'. split_and!; [done..|].
  intros Hc. apply Hk. exists (committed (inner S')). split; [by eapply committed_tells|done].
Qed.

(** Whatever does not commit keeps the history. *)
Lemma step_same hist S o r S' :
  at_history hist S → op_texts str o → exec S o = Some (r, S') → (∀ h ts, o = OCommit h → r ≠ Ok (ATimestamp ts)) →
  spec_step (MkSpec hist (txns S)) o r (MkSpec hist (txns S')) ∧ at_history hist S' ∧ committed (inner S') = committed (inner S).
Proof.
  intros H Ho He Hr. destruct (step_at _ _ _ _ _ H Ho He) as (hist' & Hstep & Hok & Hk).
  pose proof (same_history _ _ _ _ Hstep Hr) as Hh. cbn in Hh. subst hist'.
  assert (committed (inner S') = committed (inner S)) as Hc by (apply (at_committed hist S); [done|by eapply committed_tells]).
  split_and!; [done| |done]. apply Hk. rewrite Hc.
  destruct (keeps_told _ _ H) as (c & Ht & HC). cbn in Ht. by rewrite <- (proj2 (at_committed hist S c H) Ht).
Qed.

(** ** A transaction keeps the contract *)

Lemma live_facts hist i t :
  live hist (i, t) → ensure_open t = Ok tt ∧ ∀ k, visible_value (versions i) k (t_snapshot t) = spec_read hist k (now hist).
Proof.
  intros [Hok%at_ok Hsn]. cbn in Hok, Hsn.
  destruct (ok_live _ _ _ _ Hok (only_lookup t)) as (_ & _ & Ho & _ & Hr & _). split; [done|]. intros k. rewrite Hr. by rewrite Hsn.
Qed.

Lemma get_law hist s k : live hist s → sql_call (txn_get k) s = (Ok (mvcc_view s !! k), s).
Proof.
  destruct s as [i t]. intros Hl. destruct (live_facts _ _ _ Hl) as [Ho _]. unfold sql_call, txn_get. run_steps. cbn [snd].
  unfold on_inner, zoom, Mvcc.get. cbn [fst snd]. rewrite Ho, run_lift_ok. rewrite lookup_view.
  destruct (t_writes t !! k); [done|]. unfold get_at. by rewrite run_get.
Qed.

Lemma scan_law hist s p :
  live hist s → ∃ rows, sql_call (txn_scan p) s = (Ok rows, s) ∧ scanned (mvcc_view s) p rows.
Proof.
  destruct s as [i t]. intros Hl. destruct (live_facts _ _ _ Hl) as [Ho _].
  exists (btree_iter (scan_rows (versions i) (t_snapshot t) p (t_writes t))). split.
  - unfold sql_call, txn_scan. run_steps. cbn [snd]. unfold on_inner, zoom, scan_prefix. cbn [fst snd]. by rewrite Ho.
  - split; [apply btree_iter_sorted|]. split; [apply NoDup_btree_keys|]. intros k v.
    rewrite elem_of_btree_iter, lookup_scan_rows, lookup_view. destruct (starts_with k p); [tauto|]. split; [done|]. by intros [].
Qed.

(** Where a write ends: the log may have changed, and the handle's writes. *)
Lemma write_op_run rec k w i t :
  ensure_open t = Ok tt →
  ∃ wl, write_op rec k w (i, t) = (Ok tt, (set_wal wl i, set_writes (<[k := w]> (t_writes t)) t)) ∨
        ∃ e, write_op rec k w (i, t) = (Err (TIo e), (set_wal wl i, t)).
Proof.
  intros Ho. unfold write_op. run_steps. cbn [snd]. rewrite Ho, run_lift_ok.
  destruct (on_inner_effect _ i t (log_record_effect (rec (t_id t)) i)) as (wl & [H|[e H]]); exists wl.
  - left. by rewrite (M_bind_run _ _ _ _ _ H).
  - right. exists e. by rewrite (M_bind_err _ _ _ _ _ H).
Qed.

Lemma view_write wl i t k w :
  mvcc_view (set_wal wl i, set_writes (<[k := w]> (t_writes t)) t) =
  match w with Some v => <[k := v]> (mvcc_view (i, t)) | None => base.delete k (mvcc_view (i, t)) end.
Proof.
  apply map_eq. intros k'. rewrite lookup_view. cbn [t_writes t_snapshot set_writes versions set_wal]. destruct (decide (k' = k)) as [->|Hne].
  - rewrite lookup_insert_eq. destruct w; [by rewrite lookup_insert_eq|by rewrite lookup_delete_eq].
  - rewrite lookup_insert_ne by done. destruct w; [rewrite lookup_insert_ne by done|rewrite lookup_delete_ne by done]; by rewrite lookup_view.
Qed.

Lemma write_law hist s o rec k w :
  live hist s → op_texts str o → (∀ e, (write_op rec k w s).1 = Err (TIo e) → F e) →
  (∀ S, exec S o = exec_update S (t_id s.2) (write_op rec k w) (λ _, ADone)) →
  writes mvcc_view (live hist) F (sql_call (write_op rec k w))
    (λ m, match w with Some v => <[k := v]> m | None => base.delete k m end) s.
Proof.
  destruct s as [i t]. intros Hl Hstr Hfail Hex. destruct (live_facts _ _ _ Hl) as [Ho _]. destruct Hl as [Hat Hsn]. cbn [fst snd] in *.
  assert (∀ r i' t', write_op rec k w (i, t) = (r, (i', t')) → t_id t' = t_id t → t_snapshot t' = t_snapshot t →
    live hist (i', t')) as Hk.
  { intros r i' t' Hr Hid Hs. split; [|cbn; congruence]. cbn [fst snd].
    apply (step_same hist (MkSys i (only t)) o (fmap_result (λ _, ADone) r)); [done..| |by destruct r].
    rewrite Hex. unfold exec_update. cbn [txns inner]. rewrite only_lookup. cbn. rewrite Hr. by rewrite only_insert. }
  unfold writes, sql_call. destruct (write_op_run rec k w i t Ho) as (wl & [Hr|[e Hr]]); rewrite Hr in *; eexists.
  - split; [by eapply Hk|]. left. split; [done|]. apply view_write.
  - split; [by eapply Hk|]. right. exists e. split_and!; [done|by apply Hfail|done].
Qed.

Lemma live_env hist s : live hist s → store_in F s.1.
Proof. intros [H _]. by apply (keeps_env _ _ H). Qed.

#[export] Instance mvcc_laws hist : KvLaws (Inner * Transaction) mvcc_view (live hist) str F.
Proof.
  split.
  - intros s k. apply get_law.
  - intros s p. apply scan_law.
  - intros s k v Hl Hk Hv. apply (write_law hist s (OSet (t_id s.2) k v) (λ id, RSet id k v) k (Some v)); [done..| |done].
    intros e. by apply (fails_set F HF k v s (live_env _ _ Hl)).
  - intros s k Hl Hk. apply (write_law hist s (ODelete (t_id s.2) k) (λ id, RDelete id k) k None); [done..| |done].
    intros e. by apply (fails_delete F HF k s (live_env _ _ Hl)).
Qed.

(** ** An engine and its history *)

Definition engine_ok (hist : history) (e : Engine) : Prop :=
  match e_active e with
  | None => idle hist (e_store e)
  | Some t => live hist (e_store e, t)
  end.

Lemma live_committed hist i t : live hist (i, t) → tells hist (committed i).
Proof. intros [H _]. by apply (at_committed _ _ _ H). Qed.

(** What the only transaction shows is its writes over what is committed. *)
Lemma live_view hist i t c :
  live hist (i, t) → tells hist c → t_writes t = ∅ → mvcc_view (i, t) = c.
Proof.
  intros Hl Hc Hw. apply map_eq. intros k. rewrite lookup_view, Hw, lookup_empty, (proj2 (live_facts _ _ _ Hl)). by rewrite Hc.
Qed.

Lemma begin_live hist i r i' :
  idle hist i → begin i = (r, i') →
  match r with
  | Ok t => live hist (i', t) ∧ committed i' = committed i ∧ mvcc_view (i', t) = committed i
  | Err e => idle hist i' ∧ committed i' = committed i ∧ F (txn_error e)
  | Panic _ => False
  end.
Proof.
  intros Hok Hb. pose proof (proj2 (fails_begin F HF i (keeps_env _ _ Hok))) as Hfail. rewrite Hb in Hfail. cbn in Hfail. pose proof (begin_refines (MkSys i ∅) _ _ _ (at_ok _ _ Hok) Hb) as H. cbn [s_hist txns] in H.
  assert (∀ a S', exec (MkSys i ∅) OBegin = Some (a, S') → at_history hist S' ∧ committed (inner S') = committed i) as Hstep.
  { intros a S' He. destruct (step_same hist (MkSys i ∅) OBegin a S') as (_ & ? & ?); done. }
  cbn [exec inner txns] in Hstep. rewrite Hb in Hstep. destruct r as [t|e|p]; [|destruct (Hstep _ _ eq_refl); split_and!; [done..|]; destruct e; [by apply (Hfail (TIo e))|done..]|done].
  destruct H as (Hsn & Hw & _). destruct (Hstep _ _ eq_refl) as [Hat Hc]. assert (live hist (i', t)) as Hl by by split.
  split_and!; [done..|]. rewrite <- Hc. eapply live_view; [done|by eapply live_committed|done].
Qed.

Lemma exec_consumed {A} (m : Transaction → store A) f i t r i' :
  m t i = (r, i') → exec_consume (MkSys i (only t)) (t_id t) m f = Some (fmap_result f r, MkSys i' ∅).
Proof. intros H. unfold exec_consume. cbn [txns inner]. rewrite only_lookup. cbn. by rewrite H, only_delete. Qed.

(** A commit of the only handle never conflicts: it publishes its view or
    fails with the log. *)
Lemma commit_live hist i t r i' :
  live hist (i, t) → commit t i = (r, i') →
  match r with
  | Ok _ => committed i' = mvcc_view (i, t) ∧ ∃ hist', C (committed i') → idle hist' i'
  | Err e => idle hist i' ∧ committed i' = committed i ∧ F (txn_error e)
  | Panic _ => False
  end.
Proof.
  intros Hl Hc. pose proof Hl as [Hok Hsn]. cbn [fst snd] in Hok, Hsn.
  pose proof (proj2 (fails_commit F HF t i (live_env _ _ Hl))) as Hfail. rewrite Hc in Hfail. cbn in Hfail.
  pose proof (exec_consumed commit ATimestamp i t r i' Hc) as He.
  destruct r as [ts|e|p].
  - destruct (step_at hist _ (OCommit (t_id t)) _ _ Hok I He) as (hist' & Hstep & Hok' & Hk). split; [|by exists hist'].
    inversion Hstep as [| | | | |h t0 Ht0 Hm| | | | |]; subst. cbn [s_txns s_hist txns] in *.
    rewrite only_lookup in Ht0. injection Ht0 as <-. apply map_eq. intros k.
    etransitivity; [exact (committed_tells _ _ _ Hok' k)|].
    rewrite now_snoc, spec_read_snoc, lookup_view. by rewrite (proj2 (live_facts _ _ _ Hl)).
  - destruct (step_same hist _ (OCommit (t_id t)) _ _ Hok I He) as (Hstep & ? & ?); [done|]. split_and!; [done..|].
    destruct e as [e|k|]; [by apply (Hfail (TIo e))| |by inversion Hstep]. exfalso.
    inversion Hstep as [| | | | | |h t0 k0 Ht0 _ Hm| | | |]; subst. cbn [s_txns s_hist txns] in *.
    rewrite only_lookup in Ht0. injection Ht0 as <-. rewrite Hsn in Hm. by apply modified_end in Hm.
  - destruct (step_at hist _ (OCommit (t_id t)) _ _ Hok I He) as (hist' & Hstep & _). by inversion Hstep.
Qed.

Lemma abort_live hist i t r i' :
  live hist (i, t) → abort t i = (r, i') →
  (∀ p, r ≠ Panic p) ∧ idle hist i' ∧ committed i' = committed i ∧ (∀ e, r = Err e → F (txn_error e)).
Proof.
  intros Hl Hc. pose proof Hl as [Hok _]. cbn [fst snd] in Hok.
  pose proof (exec_consumed abort (λ _, ADone) i t r i' Hc) as He.
  destruct (step_same hist _ (OAbort (t_id t)) _ _ Hok I He) as (Hstep & ? & ?); [done|].
  pose proof (proj2 (fails_abort F HF t i (live_env _ _ Hl))) as Hfail. rewrite Hc in Hfail. cbn in Hfail.
  split_and!; [|done..|].
  - intros p ->. by inversion Hstep.
  - intros e ->. destruct e as [e|k|]; [by apply (Hfail (TIo e))|by inversion Hstep..].
Qed.

End Invariant.

(** ** Statements *)

Lemma on_store_run {A} (m : store A) e r i : m (e_store e) = (r, i) → on_store m e = (map_err txn_error r, set_store i e).
Proof. intros H. unfold on_store, zoom, sql_call. by rewrite H. Qed.

Lemma run_in_run {A} t (m : M (Inner * Transaction) io_error A) e r i t' :
  m (e_store e, t) = (r, (i, t')) → run_in t m e = (Ok (r, t'), set_store i e).
Proof. intros H. unfold run_in. by rewrite H. Qed.

Section statements.
Context (F : io_error → Prop) (HF : ∀ e, e ∈ exhausted → F e) (C : db → Prop) (Inv : Sys → Spec → Prop).
Context `{HK : Keeps F C is_str Inv}.
Abbreviation live := (live Inv).
Abbreviation idle := (idle Inv).
Abbreviation engine_ok := (engine_ok Inv).

Lemma live_sys_under hist s : live hist s → EngineSpec.live (sys_under F) hist s.
Proof. intros [H Hsn]. split; [|done]. split; [by apply (keeps_ok _ _ H)|by apply (keeps_env _ _ H)]. Qed.

Lemma data_run hist i t stmt r i' t' :
  live hist (i, t) → db_ok (mvcc_view (i, t)) → statement_wf stmt →
  execute_data stmt (i, t) = (r, (i', t')) →
  live hist (i', t') ∧ committed i' = committed i ∧ db_ok (mvcc_view (i', t')) ∧
  runs_on F stmt (mvcc_view (i, t)) r (mvcc_view (i', t')) ∧
  match r with Ok a => effect stmt (mvcc_view (i, t)) a (mvcc_view (i', t')) | Err _ => True | Panic _ => False end.
Proof.
  intros Hl Hdb Hwf Hrun. pose proof (mvcc_laws F HF C is_str Inv hist) as Hlaws.
  destruct (execute_data_keeps (view := mvcc_view) (ok := live hist) stmt Hwf (i, t) Hl Hdb) as (r0 & s' & Hr & Hl' & HQ).
  rewrite Hrun in Hr. injection Hr as <- <-. split; [done|]. split.
  { eapply tells_unique; by eapply (live_committed F C is_str Inv). }
  pose proof (keeps_sys_under F any_text HF) as Hunder. pose proof (mvcc_laws F HF anything any_text (sys_under F) hist) as Hany.
  destruct (sim_runs (view := mvcc_view) (ok := EngineSpec.live (sys_under F) hist) (fails := F) stmt (i, t) r (i', t')) as [Hsim _];
    [by apply live_sys_under|done|].
  split; [by destruct r|]. split; [done|]. destruct r as [a|e|p]; [|done..].
  by apply (execute_effect (view := mvcc_view) (ok := live hist) (i, t) stmt a (i', t')).
Qed.

(** What the proof of each statement gives. *)
Definition refines (e : Engine) (stmt : Statement) (r : io SqlResult) (e' : Engine) : Prop :=
  session_step F (shows e) stmt r (shows e') ∧ session_ok (shows e') ∧
  ∃ hist', C (committed (e_store e')) → engine_ok hist' e'.

(** A statement that leaves the engine idle, with [c] committed. *)
Lemma leaves_idle v stmt r i c hist' :
  committed i = c → (C c → idle hist' i) → db_ok c → session_step F v stmt r (c, None) →
  session_step F v stmt r (shows (MkEngine i None)) ∧ session_ok (shows (MkEngine i None)) ∧
  ∃ hist', C (committed i) → engine_ok hist' (MkEngine i None).
Proof. intros <- Hi Hdb Hstep. split; [done|split; [done|by exists hist']]. Qed.

(** A data statement with a transaction of its own. *)
Lemma autocommit_refines hist e stmt r e' :
  e_active e = None → engine_ok hist e → session_ok (shows e) → statement_wf stmt → is_data stmt = true →
  with_transaction (execute_data stmt) e = (r, e') → refines e stmt r e'.
Proof.
  destruct e as [i act]. cbn [e_active]. intros ->. unfold engine_ok. cbn. intros Hok [Hdb _] Hwf Hd. cbn in Hdb.
  unfold with_transaction. run_steps. cbn [e_active].
  destruct (begin i) as [rb i1] eqn:Hb. pose proof (begin_live F HF C is_str Inv hist i rb i1 Hok Hb) as Hbegin.
  pose proof (on_store_run begin (MkEngine i None) rb i1 Hb) as Hrun.
  destruct rb as [t|e|p]; cbn [map_err] in Hrun; [|rewrite (M_bind_err _ _ _ _ _ Hrun); intros [= <- <-]|done].
  2: { destruct Hbegin as (Hok1 & Hc & Hf). eapply leaves_idle; [exact Hc|by intros _|done|apply Step_data_failed; [done|by left]]. }
  destruct Hbegin as (Hl & Hc1 & Hv). rewrite (M_bind_run _ _ _ _ _ Hrun).
  destruct (execute_data stmt (i1, t)) as [rd [i2 t2]] eqn:Hdata.
  rewrite (M_bind_run _ _ _ _ _ (run_in_run t (execute_data stmt) (set_store i1 (MkEngine i None)) rd i2 t2 Hdata)).
  destruct (data_run hist i1 t stmt rd i2 t2 Hl ltac:(by rewrite Hv) Hwf Hdata) as (Hl2 & Hc2 & Hdb2 & Hruns & Heff).
  unfold set_store. cbn [e_active].
  destruct rd as [a|e|p]; [| |done].
  - destruct (commit t2 i2) as [rc i3] eqn:Hcommit. pose proof (commit_live F HF C is_str Inv hist i2 t2 rc i3 Hl2 Hcommit) as Hpub.
    pose proof (on_store_run (commit t2) (MkEngine i2 None) rc i3 Hcommit) as Hrun3.
    destruct rc as [ts|x|p]; cbn [map_err] in Hrun3; [| |done].
    + rewrite (M_bind_run _ _ _ _ _ Hrun3). intros [= <- <-]. destruct Hpub as (Hc3 & hist' & Hok3).
      rewrite Hc3 in Hok3. eapply leaves_idle; [exact Hc3|exact Hok3|done|]. rewrite Hv in Hruns, Heff. by apply Step_data.
    + rewrite (M_bind_err _ _ _ _ _ Hrun3). intros [= <- <-]. destruct Hpub as (Hok3 & Hc3 & Hf).
      rewrite Hc2, Hc1 in Hc3. eapply leaves_idle; [exact Hc3|by intros _|done|apply Step_data_failed; [done|by left]].
  - destruct (abort t2 i2) as [ra i3] eqn:Habort. destruct (abort_live F HF C is_str Inv hist i2 t2 ra i3 Hl2 Habort) as (_ & Hok3 & Hc3 & _).
    rewrite (on_store_run (abort t2) (MkEngine i2 None) ra i3 Habort). intros [= <- <-].
    rewrite Hc2, Hc1 in Hc3. rewrite Hv in Hruns. eapply leaves_idle; [exact Hc3|by intros _|done|].
    apply Step_data_failed; [done|]. right. by eexists.
Qed.

(** A data statement inside a transaction. *)
Lemma inside_refines hist e stmt r e' t :
  e_active e = Some t → engine_ok hist e → session_ok (shows e) → statement_wf stmt → is_data stmt = true →
  with_transaction (execute_data stmt) e = (r, e') → refines e stmt r e'.
Proof.
  destruct e as [i act]. cbn [e_active]. intros ->. unfold engine_ok, session_ok, refines, shows. cbn. intros Hl [Hdb Hdt] Hwf Hd.
  unfold with_transaction. run_steps. cbn [e_active].
  destruct (execute_data stmt (i, t)) as [rd [i2 t2]] eqn:Hdata.
  rewrite (M_bind_run _ _ _ _ _ (run_in_run t (execute_data stmt) (MkEngine i (Some t)) rd i2 t2 Hdata)).
  destruct (data_run hist i t stmt rd i2 t2 Hl Hdt Hwf Hdata) as (Hl2 & Hc2 & Hdb2 & Hruns & Heff).
  run_steps. unfold set_transaction, set_store, lift. cbn [e_store]. intros [= <- <-]. cbn. rewrite Hc2.
  split; [|split; [done|by exists hist]].
  destruct rd; [by apply Step_data_in|by apply Step_data_in_failed|done].
Qed.

Lemma begin_refines_step hist e r e' :
  engine_ok hist e → session_ok (shows e) → execute_statement SBegin e = (r, e') → refines e SBegin r e'.
Proof.
  destruct e as [i act]. intros Hok Hs Hrun. cbn [execute_statement] in Hrun. run_steps in Hrun. cbn [e_active] in Hrun.
  destruct act as [t|]; [rewrite decide_True in Hrun by eauto|rewrite decide_False in Hrun by (by intros [])].
  { injection Hrun as <- <-. split; [apply Step_begin_twice|split; [exact Hs|by exists hist]]. }
  destruct (begin i) as [rb i1] eqn:Hb. pose proof (begin_live F HF C is_str Inv hist i rb i1 Hok Hb) as Hbegin.
  pose proof (on_store_run begin (MkEngine i None) rb i1 Hb) as Hrun1.
  destruct rb as [t|e|p]; cbn [map_err] in Hrun1; [|rewrite (M_bind_err _ _ _ _ _ Hrun1) in Hrun|done].
  - rewrite (M_bind_run _ _ _ _ _ Hrun1) in Hrun. run_steps in Hrun. injection Hrun as <- <-. destruct Hbegin as (Hl & Hc & Hv).
    unfold refines, session_ok, shows, set_transaction, set_store in *. cbn in *. rewrite Hv, Hc.
    split; [apply Step_begin|split; [split; apply Hs|by exists hist]].
  - injection Hrun as <- <-. destruct Hbegin as (Hok1 & Hc & Hf).
    eapply leaves_idle; [exact Hc|by intros _|apply Hs|by apply Step_begin_failed].
Qed.

(** [COMMIT] and [ROLLBACK] take the transaction, and end it. *)
Lemma end_refines {A} hist e stmt (m : Transaction → store A) done_ r e' :
  engine_ok hist e → session_ok (shows e) → stmt = SCommit ∨ stmt = SRollback →
  (t ← take_active; _ ← on_store (m t); mret done_) e = (r, e') →
  (∀ i t rm i', e = MkEngine i (Some t) → m t i = (rm, i') →
     match rm with
     | Ok _ => refines e stmt (Ok done_) (MkEngine i' None)
     | Err x => refines e stmt (Err (txn_error x)) (MkEngine i' None)
     | Panic _ => False
     end) →
  refines e stmt r e'.
Proof.
  destruct e as [i act]. intros Hok Hs Hstmt Hrun Hm. unfold take_active in Hrun.
  rewrite run_bind in Hrun. run_steps in Hrun. rewrite run_bind in Hrun. run_steps in Hrun.
  cbn [e_active] in Hrun. destruct act as [t|]; cbn [ok_or] in Hrun; run_steps in Hrun.
  2: { injection Hrun as <- <-. split; [by apply Step_no_transaction|split; [exact Hs|by exists hist]]. }
  unfold set_transaction in Hrun. cbn [e_store] in Hrun. destruct (m t i) as [rm i3] eqn:Hmt.
  pose proof (on_store_run (m t) (MkEngine i None) rm i3 Hmt) as Hrun3. specialize (Hm i t rm i3 eq_refl Hmt).
  destruct rm as [a|x|p]; cbn [map_err] in Hrun3; [| |done].
  - rewrite (M_bind_run _ _ _ _ _ Hrun3) in Hrun. by injection Hrun as <- <-.
  - rewrite (M_bind_err _ _ _ _ _ Hrun3) in Hrun. by injection Hrun as <- <-.
Qed.

Lemma statement_refines hist e stmt r e' :
  engine_ok hist e → session_ok (shows e) → statement_wf stmt →
  execute_statement stmt e = (r, e') → refines e stmt r e'.
Proof.
  intros Hok Hs Hwf Hrun. destruct (is_data stmt) eqn:Hd.
  { assert (with_transaction (execute_data stmt) e = (r, e')) as Hrun' by (by destruct stmt).
    destruct (e_active e) as [t|] eqn:Ha; [by eapply inside_refines|by eapply autocommit_refines]. }
  destruct stmt; try done; [by eapply begin_refines_step|..].
  - apply (end_refines hist e SCommit commit RCommitted r e' Hok Hs (or_introl eq_refl) Hrun).
    intros i t rm i' -> Hm. pose proof (commit_live F HF C is_str Inv hist i t rm i' Hok Hm) as Hpub. destruct rm as [ts|x|p]; [| |done].
    + destruct Hpub as (Hc & hist' & Hi). rewrite Hc in Hi. eapply leaves_idle; [exact Hc|exact Hi|apply Hs|apply Step_commit].
    + destruct Hpub as (Hi & Hc & Hf). eapply leaves_idle; [exact Hc|by intros _|apply Hs|by apply Step_commit_failed].
  - apply (end_refines hist e SRollback abort RRolledBack r e' Hok Hs (or_intror eq_refl) Hrun).
    intros i t rm i' -> Hm. destruct (abort_live F HF C is_str Inv hist i t rm i' Hok Hm) as (Hnp & Hi & Hc & Hf). destruct rm as [a|x|p]; [| |by destruct (Hnp p)].
    + eapply leaves_idle; [exact Hc|by intros _|apply Hs|apply Step_rollback].
    + eapply leaves_idle; [exact Hc|by intros _|apply Hs|by apply Step_rollback_failed, Hf].
Qed.

(** ** Scripts *)

Lemma execute_all_refines hist e stmts acc r e' :
  engine_ok hist e → session_ok (shows e) → Forall statement_wf stmts → execute_all stmts acc e = (r, e') →
  (∀ done rest rs v, stmts = done ++ rest → script_run F (shows e) done (Ok rs) v → C v.1) →
  ∃ hist' rs, engine_ok hist' e' ∧ session_ok (shows e') ∧ script_run F (shows e) stmts rs (shows e') ∧
    r = fmap_result (app acc) rs.
Proof.
  revert hist e acc. induction stmts as [|stmt rest IH]; intros hist e acc Hok Hs Hwf; cbn [execute_all].
  { intros [= <- <-] _. exists hist, (Ok []). split_and!; [done..|constructor|]. cbn. by rewrite app_nil_r. }
  inversion Hwf as [|? ? Hw Hrest]; subst. destruct (execute_statement stmt e) as [r1 e1] eqn:H1.
  destruct (statement_refines hist e stmt r1 e1 Hok Hs Hw H1) as (Hstep & Hs1 & hist1 & Hok1).
  destruct r1 as [a|x|p]; [|rewrite (M_bind_err _ _ _ _ _ H1)|by inversion Hstep].
  - rewrite (M_bind_run _ _ _ _ _ H1). intros Hrun HC.
    assert (∀ done later rs v, rest = done ++ later → script_run F (shows e1) done (Ok rs) v → C v.1) as HC1.
    { intros dn later rs v -> Hdn. apply (HC (stmt :: dn) later (a :: rs) v eq_refl). by eapply (Run_step _ _ _ _ _ _ (Ok rs)). }
    destruct (IH hist1 e1 _ (Hok1 (HC1 [] rest [] (shows e1) eq_refl (Run_nil _ _))) Hs1 Hrest Hrun HC1)
      as (hist2 & rs & Hok2 & Hs2 & Hscript & ->).
    exists hist2, (fmap_result (cons a) rs). split_and!; [done..|by eapply Run_step|].
    destruct rs; cbn; [|done..]. by rewrite <- app_assoc.
  - intros [= <- <-] HC. exists hist1, (Err x). split_and!; [|done|by eapply Run_stop|done].
    apply Hok1. pose proof (failed_step _ _ _ _ _ Hstep) as Hc. cbn in Hc. rewrite Hc.
    apply (HC [] (stmt :: rest) [] (shows e) eq_refl). constructor.
Qed.

(** A text is refused, or run as a script. *)
Lemma execute_refines hist e source r e' :
  is_str source → engine_ok hist e → session_ok (shows e) → execute source e = (r, e') →
  (∀ stmts done rest rs v, parse source = Ok stmts → stmts = done ++ rest → script_run F (shows e) done (Ok rs) v → C v.1) →
  (∃ x, parse source = Err x ∧ r = Err x ∧ e' = e) ∨
  (∃ stmts hist', parse source = Ok stmts ∧ script_run F (shows e) stmts r (shows e') ∧
     engine_ok hist' e' ∧ session_ok (shows e')).
Proof.
  intros Hsrc Hok Hs. unfold execute. pose proof (lex_answers source Hsrc) as Hl. destruct (parse source) as [stmts|x|p] eqn:Hparse.
  - rewrite run_lift_ok. intros Hrun HC. right.
    destruct (execute_all_refines hist e stmts [] r e' Hok Hs (parse_wf _ _ Hsrc Hparse) Hrun)
      as (hist1 & rs & Hok1 & Hs1 & Hscript & ->); [intros dn rest rs v; by apply HC|].
    exists stmts, hist1. split_and!; [done| |done..]. by destruct rs.
  - rewrite run_lift_err. intros [= <- <-] _. left. by exists x.
  - exfalso. unfold parse in Hparse. destruct (lex source) as [ts|x|q]; cbn in Hl, Hparse; [|done..].
    pose proof (parse_tokens_answers ts (proj1 Hl)) as Hp. by rewrite Hparse in Hp.
Qed.

End statements.

(** ** Sessions *)

Lemma session_refines F hist e sources :
  (∀ x, x ∈ exhausted → F x) → engine_ok (sys_under F) hist e → session_ok (shows e) → Forall is_str sources →
  session_trace F (shows e) sources (session e sources).
Proof.
  intros HF Hok Hs Hstr. pose proof (keeps_sys_under F is_str HF) as HK. revert hist e Hok Hs. induction Hstr as [|source rest Hsrc _ IH]; intros hist e Hok Hs; [constructor|].
  cbn [session]. destruct (execute source e) as [r e'] eqn:Hrun.
  destruct (execute_refines F HF anything (sys_under F) hist e source r e' Hsrc Hok Hs Hrun)
    as [(x & Hp & -> & ->)|(stmts & hist' & Hp & Hscript & Hok' & Hs')]; [done|..].
  - by eapply Trace_refused, IH.
  - by eapply Trace_script, IH.
Qed.

(** An engine opened on a store without records, over any log file. *)
Definition engine_on (w : file) : Engine := MkEngine (MkInner w ∅ ∅ 1 0) None.

Lemma committed_empty w : committed (MkInner w ∅ ∅ 1 0) = ∅.
Proof. apply map_eq. intros k. etransitivity; [exact (committed_tells (fresh_sys w) [] ∅ (sys_ok_fresh w) k)|]. by rewrite lookup_empty. Qed.

(** C12. Whatever texts a session sends, one after another, to an engine opened on
    an empty database, and however the log file misbehaves, the results are
    those of the abstract session.  A text that does not parse is refused and
    changes nothing.  A statement outside a transaction takes effect as a whole
    or fails and changes nothing; inside BEGIN ... COMMIT the statements act on
    a map of their own, which COMMIT publishes whole and ROLLBACK or a failed
    COMMIT discards whole.  Every data statement answers, or is refused with,
    exactly what the executor does over the plain map it sees, some writes
    failing with errors of the log ([runs_on]), and leaves that map, when it fails
    half way also; one that succeeds has its meaning on tables ([effect]): a
    SELECT answers the rows of its query, EXPLAIN the access path, and INSERT,
    UPDATE, DELETE and CREATE TABLE change what they say.  BEGIN, COMMIT and
    ROLLBACK fail only with what the log reports ([log_fails]): a COMMIT is never
    refused for a conflict.  The first failure ends its text, and the statements
    before it keep their effect.  Every map on the way is a well-formed database,
    and nothing panics. *)
Theorem engine_refines_sessions w sources :
  Forall is_str sources → session_trace (log_fails w) (∅, None) sources (session (engine_on w) sources).
Proof.
  intros Hstr. replace (∅, None) with (shows (engine_on w)) by (unfold shows; cbn; by rewrite committed_empty).
  apply (session_refines (log_fails w) []); [by right|split; [apply sys_ok_fresh|intros n e He; left; by exists n]| |done]. unfold session_ok, shows. cbn. rewrite committed_empty.
  split; [apply db_ok_empty|done].
Qed.

Definition sample_session : list string :=
  ["CREATE TABLE t (id INT PRIMARY KEY); INSERT INTO t (id) VALUES (1);";
   "BEGIN; INSERT INTO t (id) VALUES (2); SELECT * FROM t;"; "SELEC"; "ROLLBACK; SELECT * FROM t;"].

Lemma engine_refines_sessions_witness :
  Forall is_str sample_session ∧
  session (engine_on (stored [])) sample_session !! 3%nat = Some (Ok [RRolledBack; RRows ["ID"] [[VInteger 1]]]) ∧
  session_trace (log_fails (stored [])) (∅, None) sample_session (session (engine_on (stored [])) sample_session).
Proof.
  assert (Forall is_str sample_session) as H by (repeat constructor).
  split; [exact H|]. split; [vm_compute; reflexivity|]. exact (engine_refines_sessions (stored []) sample_session H).
Defined.

(** A statement that fails inside a transaction is not undone by itself: the
    first row has moved when the second one's new key is found taken, and
    COMMIT publishes the half of the UPDATE that was done. *)
Example failed_update_is_half_done : session (engine_on (stored []))
  ["CREATE TABLE t (id INT PRIMARY KEY); INSERT INTO t (id) VALUES (1); INSERT INTO t (id) VALUES (2);";
   "BEGIN; UPDATE t SET id = 9;"; "COMMIT; SELECT * FROM t;"]
  = [Ok [RAffected 0; RAffected 1; RAffected 1]; Err (invalid_input "sql: duplicate primary key");
     Ok [RCommitted; RRows ["ID"] [[VInteger 2]; [VInteger 9]]]].
Proof. vm_compute. reflexivity. Qed.
