(* ===== verification/SqlRecovery.v ===== *)
(** Sessions through power cuts.

    A session's log survives it: [sql_lives] is a database's lifetime, scripts
    run one after another and power cuts in the middle of any of them, each
    followed by [SqlEngine::open].  [recovered_sessions] is what its users may
    be told: a cut script has been run up to some statement, as far as anything
    was committed, and every transaction is gone.  The invariant of the log of
    MvccRecovery.v, with what a cut may leave of it, is one that the engine
    keeps (EngineSpec.v). *)

From Stdlib Require Import Ascii.
From S2P Require Import Prelude Bytes Wal TxnLog Versions Mvcc LogFaults MvccSpec MvccRecovery SqlAst SqlLexer SqlParser SqlTotal.
From S2P Require Import Catalog CatalogSpec Kv Executor ExecutorSpec TableSpec SqlWords Engine EngineSpec.
Local Open Scope Z_scope.

(** ** What a cut leaves, as an invariant *)

(** On a disk that works, the log only reports what does not fit it. *)
Definition unfit (e : io_error) : Prop := e ∈ exhausted.
Definition unfit_only (e : io_error) (H : e ∈ exhausted) : unfit e := H.

Lemma log_ok_env S s : log_ok S s → store_in unfit (inner S).
Proof. intros [_ _ (d & r & rr & [Hf _] & _)] n e. rewrite (proj1 (log_readable _ _ _ Hf)). by intros ?%elem_of_nil. Qed.

Lemma op_texts_strs o : op_texts is_str o → op_strs o.
Proof. by destruct o. Qed.

#[export] Instance keeps_log_ok : Keeps unfit anything is_str log_ok.
Proof.
  split; [| |apply log_ok_env|].
  - intros S s. apply lo_sys.
  - intros S [hist txs] H. exists (committed (inner S)). split; [by eapply committed_tells, lo_sys|done].
  - intros S s o r S' H Ho%op_texts_strs He. destruct (log_ok_step _ _ _ _ _ H Ho He) as (s' & Hs & H').
    exists s'. split_and!; [done|apply H'|done].
Qed.

(** A content of the log that opens to a store without transactions, with one
    of [C] committed. *)
Definition reopens (C : db → Prop) (c : bytes) : Prop :=
  ∃ i hist, Mvcc.open (stored c) = (Ok i, wal i) ∧ log_ok (MkSys i ∅) (MkSpec hist ∅) ∧ C (committed i).

(** Whatever a cut leaves since the log was [f] reopens. *)
Record durable (C : db → Prop) (f : file) (S : Sys) (s : Spec) : Prop := Durable {
  du_log : log_ok S s;
  du_told : ∃ c, tells (s_hist s) c ∧ C c;
  du_cut c : cut f (wal (inner S)) c → reopens C c;
}.

Lemma reopens_told C i hist :
  log_ok (MkSys i ∅) (MkSpec hist ∅) → (∃ c, tells hist c ∧ C c) → C (committed i).
Proof.
  intros H (c & Ht & HC). pose proof (committed_tells _ _ _ (lo_sys _ _ H)) as Hc. cbn in Hc.
  by rewrite (tells_unique _ _ _ Hc Ht).
Qed.

#[export] Instance keeps_durable C f : Keeps unfit C is_str (durable C f).
Proof.
  split.
  - intros S s H. apply lo_sys, H.
  - intros S s. apply du_told.
  - intros S s H. eapply log_ok_env, du_log, H.
  - intros S s o r S' [Hl Ht Hcut] Ho%op_texts_strs He. destruct (log_ok_step _ _ _ _ _ Hl Ho He) as (s' & Hs & Hl').
    exists s'. split_and!; [done|apply Hl'|]. intros Ht'. split; [done..|]. intros c [Hc1 Hc2].
    destruct (log_ok_grows _ _ _ _ _ Hl Ho He) as [Hgrow Hsync].
    destruct (prefix_weak_total _ _ _ Hc2 Hgrow) as [Hc|Hc]; [by apply Hcut|].
    destruct (cut_op _ _ _ _ _ _ c Hl Ho He Hs Hl') as (i & hist & Hopen & Hi & Hh); [split; [by etransitivity|done]|].
    exists i, hist. split_and!; [done..|]. eapply reopens_told; [done|]. by destruct Hh as [-> | ->].
Qed.

(** It can be taken up at any moment. *)
Lemma durable_now C hist S :
  at_history log_ok hist S → C (committed (inner S)) → at_history (durable C (wal (inner S))) hist S.
Proof.
  intros Hl HC. assert (∃ c, tells hist c ∧ C c) as Ht.
  { exists (committed (inner S)). split; [eapply committed_tells, lo_sys, Hl|done]. }
  split; [done..|]. intros c [Hc1 Hc2].
  destruct (reopen_after_crash _ _ c Hl) as (i & Hopen & _ & Hi); [by apply crash_tail|].
  exists i, hist. split_and!; [done..|]. by eapply reopens_told.
Qed.

Definition engine_log (e : Engine) : file := wal (e_store e).

Lemma durable_engine C hist e :
  engine_ok log_ok hist e → C (committed (e_store e)) → engine_ok (durable C (engine_log e)) hist e.
Proof.
  destruct e as [i [t|]]; intros He HC; [destruct He as [He Hsn]; split; [|done]|].
  - by apply (durable_now C hist (MkSys i (only t))).
  - by apply (durable_now C hist (MkSys i ∅)).
Qed.

Lemma engine_durable C f hist e : engine_ok (durable C f) hist e → engine_ok log_ok hist e.
Proof.
  unfold engine_ok, live, idle, at_history. destruct (e_active e); [intros [H Hsn]; split; [apply H|done]|by intros []].
Qed.

Lemma engine_cut C f hist e c : engine_ok (durable C f) hist e → cut f (engine_log e) c → reopens C c.
Proof. unfold engine_ok, live, idle, at_history. destruct (e_active e); [intros [[_ _ H] _]|intros [_ _ H]]; apply H. Qed.

(** ** Lifetimes *)

Inductive sql_event : Type :=
| Executed (source : string) (r : io (list SqlResult))
| PowerCut (source : string).

Inductive sql_lives : Engine → list sql_event → Engine → Prop :=
| sql_lives_nil e : sql_lives e [] e
| sql_lives_execute e source r e1 es e2 :
    is_str source → execute source e = (r, e1) → sql_lives e1 es e2 →
    sql_lives e (Executed source r :: es) e2
| sql_lives_cut e source r e1 c e2 f es e3 :
    is_str source → execute source e = (r, e1) → cut (engine_log e) (engine_log e1) c →
    open_engine (stored c) = (Ok e2, f) → sql_lives e2 es e3 →
    sql_lives e (PowerCut source :: es) e3.

(** What may be committed when the power fails during a script: what was
    committed before, or after some of its statements. *)
Inductive cut_script (v : db * option db) (source : string) : db → Prop :=
| cut_before : cut_script v source v.1
| cut_after stmts ran rest rs v' :
    parse source = Ok stmts → stmts = ran ++ rest → script_run unfit v ran (Ok rs) v' → cut_script v source v'.1.

Inductive recovered_sessions : db * option db → list sql_event → db * option db → Prop :=
| recovered_nil v : recovered_sessions v [] v
| recovered_refused v source e es v' :
    parse source = Err e → recovered_sessions v es v' → recovered_sessions v (Executed source (Err e) :: es) v'
| recovered_script v source stmts r v1 es v' :
    parse source = Ok stmts → script_run unfit v stmts r v1 → session_ok v1 →
    recovered_sessions v1 es v' → recovered_sessions v (Executed source r :: es) v'
| recovered_cut v source c es v' :
    cut_script v source c → db_ok c → recovered_sessions (c, None) es v' →
    recovered_sessions v (PowerCut source :: es) v'.

Definition healthy (e : Engine) : Prop := (∃ hist, engine_ok log_ok hist e) ∧ session_ok (shows e).

Lemma script_ok v stmts rs v' : script_run unfit v stmts (Ok rs) v' → session_ok v → session_ok v'.
Proof.
  intros H. remember (Ok rs) as r eqn:Hr. revert rs Hr. induction H as [v|v stmt a v1 rest rs1 v2 _ Hs _ IH|]; intros rs Hr; [done| |done].
  intros _. destruct rs1 as [rs1| |]; [|done..]. by eapply IH.
Qed.

Lemma cut_script_ok v source c : cut_script v source c → session_ok v → db_ok c.
Proof. intros [|stmts ran rest rs v' _ _ Hrun] Hs; [apply Hs|]. by apply (script_ok _ _ _ _ Hrun) in Hs as [? _]. Qed.

(** One script: what it answers, and what a cut in the middle of it leaves. *)
Lemma execute_durable e source r e' :
  healthy e → is_str source → execute source e = (r, e') →
  healthy e' ∧
  ((∃ x, parse source = Err x ∧ r = Err x ∧ e' = e) ∨
   (∃ stmts, parse source = Ok stmts ∧ script_run unfit (shows e) stmts r (shows e') ∧ session_ok (shows e'))) ∧
  ∀ c, cut (engine_log e) (engine_log e') c → reopens (cut_script (shows e) source) c.
Proof.
  intros [[hist He] Hs] Hsrc Hrun. set (C := cut_script (shows e) source).
  pose proof (durable_engine C hist e He (cut_before _ _)) as Hd.
  destruct (execute_refines unfit unfit_only C (durable C (engine_log e)) hist e source r e' Hsrc Hd Hs Hrun)
    as [(x & Hp & -> & ->)|(stmts & hist' & Hp & Hscript & Hd' & Hs')].
  - intros stmts ran rest rs v Hp Happ Hran. by eapply cut_after.
  - split_and!; [split; [by exists hist|done]|left; by exists x|]. intros c. by eapply engine_cut.
  - split_and!; [split; [exists hist'; by eapply engine_durable|done]|right; by exists stmts|]. intros c. by eapply engine_cut.
Qed.

Lemma reopens_engine v source c :
  session_ok v → reopens (cut_script v source) c →
  ∃ e, open_engine (stored c) = (Ok e, engine_log e) ∧ healthy e ∧ e_active e = None ∧ cut_script v source (shows e).1.
Proof.
  intros Hs (i & hist & Hopen & Hi & Hc). exists (MkEngine i None).
  split; [unfold open_engine; by rewrite (M_bind_run _ _ _ _ _ Hopen)|].
  split_and!; [|done|done]. split; [by exists hist|]. split; [|done]. by eapply cut_script_ok.
Qed.

Lemma sql_lives_refine e es e' :
  healthy e → sql_lives e es e' → recovered_sessions (shows e) es (shows e') ∧ healthy e'.
Proof.
  intros He Hl. revert He. induction Hl as [e|e source r e1 es e2 Hsrc Hrun _ IH|e source r e1 c e2 f es e3 Hsrc Hrun Hc Hopen _ IH];
    intros He; [split; [constructor|done]|..].
  - destruct (execute_durable _ _ _ _ He Hsrc Hrun) as (He1 & Hr & _). destruct (IH He1) as [IH1 He2]. split; [|done].
    destruct Hr as [(x & Hp & -> & ->)|(stmts & Hp & Hscript & Hs)]; [by constructor|by eapply recovered_script].
  - destruct (execute_durable _ _ _ _ He Hsrc Hrun) as (_ & _ & Hcut).
    destruct (reopens_engine _ _ _ (proj2 He) (Hcut c Hc)) as (e2' & Hopen' & He2 & Ha & Hcs).
    rewrite Hopen in Hopen'. injection Hopen' as <- _. destruct (IH He2) as [IH1 He3]. split; [|done].
    apply (recovered_cut _ _ (shows e2).1); [done|apply He2|]. unfold shows in IH1 at 1. by rewrite Ha in IH1.
Qed.

Lemma shows_new : shows new_engine = (∅, None).
Proof. exact (f_equal (λ c, (c, None)) (committed_empty (stored []))). Qed.

Lemma new_engine_healthy : healthy new_engine.
Proof. split; [exists []; exact log_ok_new|]. rewrite shows_new. split; [apply db_ok_empty|done]. Qed.

(** A lifetime: a table; a cut inside a transaction; a cut while COMMIT writes
    its record. *)
Definition setup : string := "CREATE TABLE t (id INT PRIMARY KEY); INSERT INTO t (id) VALUES (1);".
Definition open_work : string := "BEGIN; INSERT INTO t (id) VALUES (2);".
Definition autocommit : string := "INSERT INTO t (id) VALUES (3); INSERT INTO t (id) VALUES (4);".
Definition look : string := "SELECT * FROM t;".

Definition run (e : Engine) (source : string) : Engine := (execute source e).2.
Definition power_on (c : bytes) : Engine := match open_engine (stored c) with (Ok e, _) => e | _ => new_engine end.
(** What the log holds, less its last [n] bytes. *)
Definition torn (n : nat) (e : Engine) : bytes := take (length (f_content (engine_log e)) - n) (f_content (engine_log e)).

Definition life1 : Engine := run new_engine setup.
Definition life2 : Engine := power_on (torn 0 (run life1 open_work)).
Definition life3 : Engine := power_on (torn 1 (run life2 autocommit)).
Definition told_then : io (list SqlResult) := (execute look life3).1.
Definition life : list sql_event :=
  [Executed setup (execute setup new_engine).1; PowerCut open_work; PowerCut autocommit; Executed look told_then].

Lemma cut_decide f f' c : bool_decide (f_synced f `prefix_of` c ∧ c `prefix_of` f_content f') = true → cut f f' c.
Proof. apply bool_decide_eq_true. Qed.

Lemma run_execute e source : execute source e = ((execute source e).1, run e source).
Proof. apply surjective_pairing. Qed.

Lemma life_cuts :
  cut (engine_log life1) (engine_log (run life1 open_work)) (torn 0 (run life1 open_work)) ∧
  cut (engine_log life2) (engine_log (run life2 autocommit)) (torn 1 (run life2 autocommit)).
Proof. split; apply cut_decide; vm_compute; reflexivity. Qed.

Lemma life_opens :
  open_engine (stored (torn 0 (run life1 open_work))) = (Ok life2, engine_log life2) ∧
  open_engine (stored (torn 1 (run life2 autocommit))) = (Ok life3, engine_log life3).
Proof. split; vm_compute; reflexivity. Qed.

Lemma life_texts : is_str setup ∧ is_str open_work ∧ is_str autocommit ∧ is_str look.
Proof. split_and!; vm_compute; reflexivity. Qed.

Lemma life_lives : sql_lives new_engine life (run life3 look).
Proof.
  destruct life_cuts as [Hc1 Hc2], life_opens as [Ho1 Ho2], life_texts as (H1 & H2 & H3 & H4).
  apply (sql_lives_execute new_engine setup _ life1); [exact H1|apply run_execute|].
  apply (sql_lives_cut life1 open_work _ _ _ _ _ _ _ H2 (run_execute _ _) Hc1 Ho1).
  apply (sql_lives_cut life2 autocommit _ _ _ _ _ _ _ H3 (run_execute _ _) Hc2 Ho2).
  apply (sql_lives_execute life3 look _ (run life3 look)); [exact H4|apply run_execute|constructor].
Qed.

(** ** Theorems *)

(** C5. Sessions survive power cuts.  Through any lifetime of a database, scripts
    run one after another and the power failing at any moment of any of them,
    with any possible part of the unsynced log kept, the engine answers as the
    abstract session: what a script that returned has committed is there from
    then on; a script that was cut short has, as far as anyone can see
    afterwards, committed what some number of its statements commit, each of
    them wholly or not at all, and nothing of a transaction that was still open;
    and whatever a cut leaves, the database can be opened again. *)
Theorem sessions_survive_power_cuts es e :
  sql_lives new_engine es e →
  recovered_sessions (∅, None) es (shows e) ∧
  ∀ source r e1 c, is_str source → execute source e = (r, e1) → cut (engine_log e) (engine_log e1) c →
    ∃ e2, open_engine (stored c) = (Ok e2, engine_log e2) ∧ e_active e2 = None ∧ cut_script (shows e) source (shows e2).1.
Proof.
  intros Hl. destruct (sql_lives_refine _ _ _ new_engine_healthy Hl) as [Hr He]. rewrite shows_new in Hr.
  split; [done|]. intros source r e1 c Hsrc Hrun Hc. destruct (execute_durable _ _ _ _ He Hsrc Hrun) as (_ & _ & Hcut).
  destruct (reopens_engine _ _ _ (proj2 He) (Hcut c Hc)) as (e2 & Hopen & _ & Ha & Hcs). by exists e2.
Qed.

Lemma sessions_survive_power_cuts_witness :
  sql_lives new_engine life (run life3 look) ∧ told_then = Ok [RRows ["ID"] [[VInteger 1]; [VInteger 3]]] ∧
  recovered_sessions (∅, None) life (shows (run life3 look)) ∧
  ∀ source r e1 c, is_str source → execute source (run life3 look) = (r, e1) →
    cut (engine_log (run life3 look)) (engine_log e1) c →
    ∃ e2, open_engine (stored c) = (Ok e2, engine_log e2) ∧ e_active e2 = None ∧
      cut_script (shows (run life3 look)) source (shows e2).1.
Proof.
  split; [exact life_lives|]. split; [vm_compute; reflexivity|]. exact (sessions_survive_power_cuts life _ life_lives).
Defined.
