(* ===== verification/Words.v ===== *)
(** Pieces of text: what src/src/server.rs and src/src/client.rs use of [str].

    [split_whitespace], [splitn], [strip_prefix] and [parse::<u64>] of the
    standard library, on strings as their UTF-8 bytes, and what they do to text
    made of plain words. *)

From Stdlib Require Import Ascii.
From S2P Require Import Prelude Bytes SqlAst SqlLexer SqlText Catalog.

(** ** White space *)

(** [u8_val b = n] for one of the [ns]. *)
Definition one_of (ns : list Z) (b : u8) : bool := existsb (λ n, u8_val b =? n)%Z ns.

(** The length of the white-space character (Unicode's property White_Space) a
    text begins with: U+0009 to U+000D, U+0020, U+0085, U+00A0, U+1680, U+2000
    to U+200A, U+2028, U+2029, U+202F, U+205F and U+3000. *)
Definition whitespace_len (bs : bytes) : option nat :=
  match bs with
  | b :: r =>
    if in_range 9 13 b || one_of [32]%Z b then Some 1 else
    match r with
    | b1 :: r1 =>
      if one_of [0xC2]%Z b && one_of [0x85; 0xA0]%Z b1 then Some 2 else
      match r1 with
      | b2 :: _ =>
        if one_of [0xE1]%Z b && one_of [0x9A]%Z b1 && one_of [0x80]%Z b2
           || one_of [0xE2]%Z b && one_of [0x80]%Z b1 && (in_range 0x80 0x8A b2 || one_of [0xA8; 0xA9; 0xAF]%Z b2)
           || one_of [0xE2]%Z b && one_of [0x81]%Z b1 && one_of [0x9F]%Z b2
           || one_of [0xE3]%Z b && one_of [0x80]%Z b1 && one_of [0x80]%Z b2
        then Some 3 else None
      | [] => None
      end
    | [] => None
    end
  | [] => None
  end.

Definition push_word (word : bytes) (words : list bytes) : list bytes :=
  match word with [] => words | _ => word :: words end.

(** [str::split_whitespace]: the words between white space, none empty.  [skip]
    bytes of a white-space character are still to be passed. *)
Fixpoint split_words (skip : nat) (word bs : bytes) : list bytes :=
  match bs with
  | [] => push_word word []
  | b :: r =>
    match skip with
    | S skip => split_words skip word r
    | O =>
      match whitespace_len bs with
      | Some n => push_word word (split_words (pred n) [] r)
      | None => split_words 0 (word ++ [b]) r
      end
    end
  end.
Definition split_whitespace (s : string) : list string := of_bytes <$> split_words 0 [] (as_bytes s).

(** ** Cutting *)

(** [str::strip_prefix]. *)
Fixpoint strip (prefix bs : bytes) : option bytes :=
  match prefix, bs with
  | [], _ => Some bs
  | a :: prefix, b :: bs => if decide (a = b) then strip prefix bs else None
  | _, [] => None
  end.
Definition strip_prefix (prefix s : string) : option string := of_bytes <$> strip (as_bytes prefix) (as_bytes s).

(** [str::splitn] at a byte: at most [n] pieces, the last one uncut. *)
Fixpoint split_once (sep : u8) (bs : bytes) : option (bytes * bytes) :=
  match bs with
  | [] => None
  | b :: r =>
    if decide (b = sep) then Some ([], r) else
    '(before, rest) ← split_once sep r; Some (b :: before, rest)
  end.
Fixpoint splitn (n : nat) (sep : u8) (bs : bytes) : list bytes :=
  match n with
  | O => []
  | S O => [bs]
  | S n => match split_once sep bs with Some (before, rest) => before :: splitn n sep rest | None => [bs] end
  end.

(** ** Numbers *)

(** [str::parse::<u64>]: an optional plus sign and decimal digits. *)
Definition parse_unsigned (bs : bytes) : option Z :=
  let ds := match bs with b :: r => if decide (b = "+"%char) then r else bs | [] => [] end in
  match ds with
  | [] => None
  | _ => if forallb is_digit ds && (decimal ds <=? U64_MAX)%Z then Some (decimal ds) else None
  end.

Example split_whitespace_unicode :
  split_whitespace (of_bytes (to_u8 <$> [32; 65; 0xE3; 0x80; 0x80; 0xC2; 0xA0; 66; 9; 0xC2; 0xA1; 10]%Z))
  = ["A"; "B"; of_bytes (to_u8 <$> [0xC2; 0xA1]%Z)].
Proof. vm_compute. reflexivity. Qed.
Example parse_unsigned_corners :
  parse_unsigned (as_bytes "+007") = Some 7%Z ∧ parse_unsigned (as_bytes "+") = None ∧ parse_unsigned [] = None ∧
  parse_unsigned (as_bytes "-1") = None ∧ parse_unsigned (as_bytes "18446744073709551616") = None.
Proof. vm_compute. split_and!; reflexivity. Qed.

Lemma strip_app (p s : bytes) : strip p (p ++ s) = Some s.
Proof. induction p as [|b p IH]; cbn; [done|]. by rewrite decide_True. Qed.
Lemma starts_with_self p s : starts_with (p +:+ s) p = true.
Proof.
  unfold starts_with. induction p as [|b p IH]; [by destruct s|]. change (String b p +:+ s) with (String b (p +:+ s)).
  cbn [String.prefix]. by destruct (ascii_dec b b).
Qed.
Lemma strip_prefix_app p s : strip_prefix p (p +:+ s) = Some s.
Proof. unfold strip_prefix. rewrite as_bytes_app, strip_app. cbn. by rewrite of_as_bytes. Qed.

(** ** Plain words: visible ASCII *)

Definition plain_byte (b : u8) : bool := in_range 33 126 b.
Definition plain (w : bytes) : Prop := Forall (λ b, plain_byte b = true) w.

Lemma plain_not_space b r : plain_byte b = true → whitespace_len (b :: r) = None.
Proof.
  intros Hb. unfold plain_byte, in_range in Hb. apply andb_true_iff in Hb as [Hlo Hhi]. apply Z.leb_le in Hlo, Hhi.
  unfold whitespace_len.
  assert (∀ n, (n < 33 ∨ 126 < n)%Z → one_of [n]%Z b = false) as H.
  { intros n Hn. cbn. rewrite orb_false_r. apply Z.eqb_neq. lia. }
  rewrite !H by lia. assert (in_range 9 13 b = false) as ->.
  { unfold in_range. apply andb_false_iff. right. apply Z.leb_gt. lia. }
  cbn [orb andb]. by destruct r as [|? [|? ?]].
Qed.

Lemma split_words_plain w word bs :
  plain w → split_words 0 word (w ++ bs) = split_words 0 (word ++ w) bs.
Proof.
  intros Hw. induction Hw as [|b w Hb _ IH] in word |- *; [by rewrite app_nil_r|].
  change ((b :: w) ++ bs) with (b :: (w ++ bs)). cbn [split_words].
  rewrite plain_not_space by done. rewrite IH, <- app_assoc. done.
Qed.

Lemma split_words_space word bs : split_words 0 word (" "%char :: bs) = push_word word (split_words 0 [] bs).
Proof. reflexivity. Qed.

Definition nonempty (w : bytes) : bool := match w with [] => false | _ => true end.

(** Words set apart by single spaces are found again; empty ones are not. *)
Lemma split_words_join ws :
  Forall plain ws → split_words 0 [] (join " "%char ws) = List.filter nonempty ws.
Proof.
  assert (∀ w words, push_word w (List.filter nonempty words) = List.filter nonempty (w :: words)) as Hpush by (by intros []).
  intros Hws. induction Hws as [|w ws Hw Hws IH]; [done|]. destruct ws as [|w' ws].
  - cbn [join]. rewrite <- (app_nil_r w) at 1. rewrite split_words_plain by done. apply (Hpush w []).
  - change (join " "%char (w :: w' :: ws)) with (w ++ " "%char :: join " "%char (w' :: ws)).
    rewrite split_words_plain, split_words_space, IH by done. apply Hpush.
Qed.

Lemma parse_unsigned_pretty z : u64_range z → parse_unsigned (as_bytes (pretty z)) = Some z.
Proof.
  intros [Hlo Hhi]. destruct (pretty_Z_digits z) as (d & ds & -> & Hd & Hn).
  rewrite (proj2 (Z.ltb_ge _ _)) by lia. cbn [app]. unfold parse_unsigned.
  inversion Hd as [|? ? Hd1 Hds]; subst. rewrite decide_False by (by intros ->).
  assert (forallb is_digit (d :: ds) = true) as ->.
  { apply forallb_forall. intros x Hx%list_elem_of_In. rewrite Forall_forall in Hd. by apply Hd. }
  rewrite Hn, (proj2 (Z.leb_le _ _)) by lia. cbn. f_equal. lia.
Qed.

Lemma plain_digits z : u64_range z → plain (as_bytes (pretty z)) ∧ as_bytes (pretty z) ≠ [] ∧
  Forall (λ b, is_digit b = true) (as_bytes (pretty z)).
Proof.
  intros [Hlo _]. destruct (pretty_Z_digits z) as (d & ds & -> & Hd & _). rewrite (proj2 (Z.ltb_ge _ _)) by lia.
  cbn [app]. split_and!; [|done|done]. eapply Forall_impl; [exact Hd|]. intros b Hb. cbn in Hb.
  unfold is_digit, plain_byte, in_range in *. zify_bools. apply andb_true_iff. rewrite !Z.leb_le. lia.
Qed.
