(* ===== verification/Frame.v ===== *)
(** Frames: the second half of src/src/raft/transport.rs, which the Raft
    transport and the TCP cluster share.

    A frame is a big-endian 32-bit length and its payload, at most 16 MiB.  The
    source writes to any [Write] and reads from any [Read]: the vector of the
    bytes written so far, the slice of the bytes still ahead, and the two ends
    of a connection ([Stream]), which may close or time out at any byte. *)

From S2P Require Import Prelude Bytes.
From Stdlib Require Import Ascii.
Local Open Scope Z_scope.

(** ** Writers and readers *)

Class Write (W : Type) : Type := {
  write_all : bytes → M W io_error unit;
  flush : M W io_error unit;
}.
Class Read (R : Type) : Type := { read_exact : nat → M R io_error bytes }.

Definition unexpected_eof : io_error := IoError UnexpectedEof "failed to fill whole buffer".

(** [Vec<u8>] and [&[u8]]. *)
#[export] Instance vec_write : Write bytes := { write_all bs := modify (λ w, w ++ bs); flush := mret tt }.
#[export] Instance slice_read : Read bytes := {
  read_exact n :=
    r ← get_state;
    if (length r <? n)%nat then _ ← modify (λ _, []); fail unexpected_eof else _ ← modify (drop n); mret (take n r);
}.

(** One end of a connection: the bytes that will arrive and what a read past
    them ends with (the other end closes, or the timeout passes); the bytes
    sent, how many more are taken, and what the next write then ends with. *)
Record Stream : Type := MkStream {
  s_in : bytes; s_end : io_error; s_out : bytes; s_room : option nat; s_fault : io_error;
}.

#[export] Instance stream_write : Write Stream := {
  write_all bs := λ s,
    match s_room s with
    | None => (Ok tt, MkStream (s_in s) (s_end s) (s_out s ++ bs) None (s_fault s))
    | Some room =>
      (if (room <? length bs)%nat then Err (s_fault s) else Ok tt,
       MkStream (s_in s) (s_end s) (s_out s ++ take room bs) (Some (room - length bs)%nat) (s_fault s))
    end;
  flush := mret tt;
}.
#[export] Instance stream_read : Read Stream := {
  read_exact n := λ s,
    (if (length (s_in s) <? n)%nat then Err (s_end s) else Ok (take n (s_in s)),
     MkStream (drop n (s_in s)) (s_end s) (s_out s) (s_room s) (s_fault s));
}.

(** ** Frames *)

Definition MAX_FRAME : Z := 16 * 1024 * 1024.

Definition write_frame {W} `{Write W} (payload : bytes) : M W io_error unit :=
  len ← lift (u32_try_from (length payload) (invalid_input "raft: frame too large"));
  if MAX_FRAME <? Z.of_nat (length payload) then fail (invalid_input "raft: frame exceeds limit") else
  _ ← write_all (u32_be len);
  _ ← write_all payload;
  flush.

Definition read_frame {R} `{Read R} : M R io_error bytes :=
  header ← read_exact 4;
  let len := from_be_bytes header in
  if MAX_FRAME <? len then fail (invalid_data "raft: incoming frame exceeds limit") else
  read_exact (Z.to_nat len).

(** A method of a connection: [connect(..)?] and what is done with it; the stream left. *)
Definition dial {A} (connection : io Stream) (m : M Stream io_error A) : io A * option Stream :=
  match connection with
  | Ok s => let '(r, s') := m s in (r, Some s')
  | Err e => (Err e, None)
  | Panic p => (Panic p, None)
  end.

(** [TcpTransport::send] *)
Definition send (connection : io Stream) (payload : bytes) : io bytes * option Stream :=
  dial connection (_ ← write_frame payload; read_frame).

(** ** Laws *)

(** The bytes of a frame. *)
Definition framed (p : bytes) : bytes := u32_be (Z.of_nat (length p)) ++ p.
Definition fits (p : bytes) : Prop := Z.of_nat (length p) ≤ MAX_FRAME.

Lemma from_be_u32 z : u32_range z → from_be_bytes (u32_be z) = z.
Proof. intros Hz. unfold from_be_bytes, u32_be. rewrite reverse_involutive. by apply u32_le_inv. Qed.

Lemma length_u32_be z : length (u32_be z) = 4%nat.
Proof. unfold u32_be. by rewrite length_reverse, length_to_le_bytes. Qed.

Lemma fits_range p : fits p → u32_range (Z.of_nat (length p)).
Proof. unfold fits, MAX_FRAME, u32_range, U32_MAX. lia. Qed.
Lemma frame_length p : length (framed p) = (4 + length p)%nat.
Proof. unfold framed. by rewrite length_app, length_u32_be. Qed.

Lemma write_frame_run {W} `{Write W} p (w : W) :
  fits p → write_frame p w = (_ ← write_all (u32_be (Z.of_nat (length p))); _ ← write_all p; flush) w.
Proof.
  intros Hp. unfold write_frame. rewrite u32_try_from_run by by apply fits_range. run_steps.
  by rewrite (proj2 (Z.ltb_ge _ _)).
Qed.

(** A payload that does not fit is refused before anything is written. *)
Lemma write_frame_large {W} `{Write W} p (w : W) : ¬ fits p → ∃ e, write_frame p w = (Err e, w).
Proof.
  intros Hp%Z.nle_gt. unfold write_frame, u32_try_from. destruct (_ <=? U32_MAX); run_steps; [|by eexists].
  rewrite (proj2 (Z.ltb_lt _ _)) by done. by eexists.
Qed.

Lemma write_vec p (w : bytes) : fits p → write_frame p w = (Ok tt, w ++ framed p).
Proof. intros Hp. rewrite write_frame_run by done. unfold mbind, M_bind, framed. cbn. by rewrite <- app_assoc. Qed.
Lemma write_stream p s :
  fits p → s_room s = None →
  write_frame p s = (Ok tt, MkStream (s_in s) (s_end s) (s_out s ++ framed p) None (s_fault s)).
Proof. intros Hp Hr. rewrite write_frame_run by done. unfold mbind, M_bind, framed. cbn. rewrite Hr. cbn. by rewrite <- app_assoc. Qed.

Lemma slice_exact (x rest : bytes) : read_exact (length x) (x ++ rest) = (Ok x, rest).
Proof.
  unfold read_exact, slice_read. run_steps. rewrite (proj2 (Nat.ltb_ge _ _)) by (rewrite length_app; lia).
  run_steps. by rewrite take_app_length, drop_app_length.
Qed.

(** A reader that has these bytes ahead reads this frame, and is left with that. *)
Lemma read_frame_run {R} `{Read R} p (r r1 r2 : R) :
  fits p → read_exact 4 r = (Ok (u32_be (Z.of_nat (length p))), r1) → read_exact (length p) r1 = (Ok p, r2) →
  read_frame r = (Ok p, r2).
Proof.
  intros Hp Hh Hb. unfold read_frame. rewrite (M_bind_run _ _ _ _ _ Hh). rewrite from_be_u32 by by apply fits_range. cbv zeta.
  by rewrite (proj2 (Z.ltb_ge _ _)), Nat2Z.id.
Qed.

Lemma read_slice p rest : fits p → read_frame (framed p ++ rest) = (Ok p, rest).
Proof.
  intros Hp. unfold framed. rewrite <- app_assoc. eapply read_frame_run; [done| |apply slice_exact].
  rewrite <- (length_u32_be (Z.of_nat (length p))) at 1. apply slice_exact.
Qed.

Lemma stream_exact x rest s :
  s_in s = x ++ rest → read_exact (length x) s = (Ok x, MkStream rest (s_end s) (s_out s) (s_room s) (s_fault s)).
Proof.
  intros Hs. unfold read_exact, stream_read. rewrite Hs, (proj2 (Nat.ltb_ge _ _)) by (rewrite length_app; lia).
  by rewrite take_app_length, drop_app_length.
Qed.

Lemma read_stream p rest s :
  fits p → s_in s = framed p ++ rest → read_frame s = (Ok p, MkStream rest (s_end s) (s_out s) (s_room s) (s_fault s)).
Proof.
  intros Hp Hs. unfold framed in Hs. rewrite <- app_assoc in Hs. eapply read_frame_run; [done| |].
  - rewrite <- (length_u32_be (Z.of_nat (length p))). by apply stream_exact.
  - by apply (stream_exact p rest (MkStream (p ++ rest) (s_end s) (s_out s) (s_room s) (s_fault s))).
Qed.

(** A frame that is cut short is an error, never a payload. *)
Lemma read_cut p k s :
  fits p → (k < length (framed p))%nat → s_in s = take k (framed p) → ∃ s', read_frame s = (Err (s_end s), s') ∧ s_out s' = s_out s ∧
    s_room s' = s_room s ∧ s_fault s' = s_fault s.
Proof.
  intros Hp Hk Hs. rewrite frame_length in Hk. unfold read_frame. destruct (Nat.lt_ge_cases k 4) as [H4|H4].
  - eexists. unfold mbind, M_bind, read_exact, stream_read. rewrite Hs, length_take, frame_length, (proj2 (Nat.ltb_lt _ _)) by lia. done.
  - assert (s_in s = u32_be (Z.of_nat (length p)) ++ take (k - 4) p) as Hin.
    { rewrite Hs. unfold framed. rewrite take_app, length_u32_be. by rewrite take_ge by (rewrite length_u32_be; lia). }
    rewrite <- (length_u32_be (Z.of_nat (length p))), (M_bind_run _ _ _ _ _ (stream_exact _ _ s Hin)).
    rewrite from_be_u32 by by apply fits_range. cbv zeta. rewrite (proj2 (Z.ltb_ge _ _)), Nat2Z.id by done.
    eexists. unfold read_exact, stream_read. cbn [s_in]. rewrite length_take, (proj2 (Nat.ltb_lt _ _)) by lia. done.
Qed.

(** ** Many frames *)

Fixpoint read_frames {R} `{Read R} (n : nat) : M R io_error (list bytes) :=
  match n with
  | O => mret []
  | S n => p ← read_frame; ps ← read_frames n; mret (p :: ps)
  end.

(** Payloads that fit, written one after another, are read back one by one, in
    order, leaving whatever follows them. *)
Lemma frames_round_trip (ps : list bytes) (w rest : bytes) :
  Forall fits ps →
  for_each ps write_frame w = (Ok tt, w ++ mjoin (framed <$> ps)) ∧
  read_frames (length ps) (mjoin (framed <$> ps) ++ rest) = (Ok ps, rest).
Proof.
  intros H. induction H as [|p ps Hp _ IH] in w |- *; cbn [for_each length read_frames fmap list_fmap mjoin list_join].
  - by rewrite app_nil_r.
  - destruct (IH (w ++ framed p)) as [Hw Hr]. split.
    + by rewrite (M_bind_run _ _ _ _ _ (write_vec p w Hp)), Hw, app_assoc.
    + by rewrite <- app_assoc, (M_bind_run _ _ _ _ _ (read_slice p _ Hp)), (M_bind_run _ _ _ _ _ Hr).
Qed.
