(* ===== verification/Server.v ===== *)
(** A node of the TCP cluster: src/src/server.rs.

    A node keeps versioned records in its store, asks its peers over the network
    and answers one request at a time.  What a peer answers is given to the model
    ([Net]): the answers to come are a list, every request made is logged with
    the answer it got, and a request beyond the list times out.  The store is a
    [Records]: src/src/store.rs is one, and a finite map is another.  The
    connections that carry them and the loop of [run] are in Connection.v. *)

From stdpp Require Import gmap.
From Stdlib Require Import Ascii.
From S2P Require Import Prelude Bytes SqlAst SqlLexer Catalog Words Wal Store.

Definition invalid (message : string) : io_error := invalid_data message.

(** ** Text *)

(** [hex], [digit] and [unhex_string]; src/src/client.rs repeats them with errors
    of another kind. *)
Definition hex (bs : bytes) : string := of_bytes (bs ≫= hex_byte).

Section unhex.
Variable invalid : string → io_error.

Definition digit (b : u8) : io Z :=
  if in_range 48 57 b then Ok (u8_val b - 48)%Z else
  if in_range 97 102 b then Ok (u8_val b - 97 + 10)%Z else
  Err (invalid "cluster: invalid hex").

Definition unhex_pair (p : u8 * u8) : io u8 :=
  high ← digit p.1; low ← digit p.2; Ok (to_u8 (Z.lor (Z.shiftl high 4) low)).

Definition unhex_string (value : string) : io string :=
  if negb (str_len value mod 2 =? 0) then Err (invalid "cluster: odd hex length") else
  bs ← try_map unhex_pair (pairs (as_bytes value));
  from_utf8 bs (invalid "cluster: value is not UTF-8").
End unhex.

Definition parse_u64 (value : string) : io Z :=
  ok_or (parse_unsigned (as_bytes value)) (invalid "cluster: expected unsigned integer").

Definition parse_bool (value : string) : io bool :=
  if decide (value = "0") then Ok false else
  if decide (value = "1") then Ok true else
  Err (invalid "cluster: expected 0 or 1").

Definition show_bool (b : bool) : string := if b then "1" else "0".

(** ** Records *)

Record ReplicaValue : Type := MkReplica { version : Z; tombstone : bool; committed : bool; value : string }.

Definition encode_record (r : ReplicaValue) : string :=
  pretty (version r) +:+ ":" +:+ show_bool (tombstone r) +:+ ":" +:+ show_bool (committed r) +:+ ":"
  +:+ hex (as_bytes (value r)).

(** [parts.next().ok_or_else(..)?] *)
Definition next_part (parts : list bytes) : io (string * list bytes) :=
  match parts with p :: rest => Ok (of_bytes p, rest) | [] => Err (invalid "cluster: bad record") end.

Definition decode_record (encoded : string) : io ReplicaValue :=
  '(p, parts) ← next_part (splitn 4 ":"%char (as_bytes encoded));
  version ← parse_u64 p;
  '(p, parts) ← next_part parts;
  tombstone ← parse_bool p;
  '(p, parts) ← next_part parts;
  committed ← parse_bool p;
  '(p, _) ← next_part parts;
  value ← unhex_string invalid p;
  Ok (MkReplica version tombstone committed value).

(** One row of a dump. *)
Definition encode_row (key : string) (r : ReplicaValue) : bytes :=
  as_bytes (hex (as_bytes key) +:+ "," +:+ pretty (version r) +:+ "," +:+ show_bool (tombstone r) +:+ ","
            +:+ show_bool (committed r) +:+ "," +:+ hex (as_bytes (value r))).

Definition decode_row (row : bytes) : io (string * ReplicaValue) :=
  match split_on ","%char row with
  | [f0; f1; f2; f3; f4] =>
    key ← unhex_string invalid (of_bytes f0);
    version ← parse_u64 (of_bytes f1);
    tombstone ← parse_bool (of_bytes f2);
    committed ← parse_bool (of_bytes f3);
    value ← unhex_string invalid (of_bytes f4);
    Ok (key, MkReplica version tombstone committed value)
  | _ => Err (invalid "cluster: malformed dump")
  end.

Definition decode_dump (dump : string) : io (list (string * ReplicaValue)) :=
  if decide (dump = "") then Ok [] else try_map decode_row (split_on ";"%char (as_bytes dump)).

(** ** The node *)

(** The operations of the store a node uses. *)
Class Records (D : Type) : Type := {
  db_get : D → string → io (option string);
  db_set : string → string → M D io_error unit;
  db_keys : D → io (list string);
}.

#[export] Instance store_records : Records Store := {
  db_get := Store.get; db_set := Store.set; db_keys := Store.keys_sorted;
}.
#[export] Instance map_records : Records (gmap string string) := {
  db_get m key := Ok (m !! key); db_set key value := modify (λ m, <[key := value]> m); db_keys m := Ok (btree_keys m);
}.

(** [peers] are the keys of the source's map, in order; an address stands behind
    each. *)
Record Server (D : Type) : Type := MkServer { id : Z; peers : list Z; blocked : gset Z; db : D }.
Arguments MkServer {_} _ _ _ _.
Arguments id {_} _.
Arguments peers {_} _.
Arguments blocked {_} _.
Arguments db {_} _.

(** An answer of a peer, or the error of the request. *)
Abbreviation answer := (io_error + string)%type.
Record exchange : Type := Exchange { x_peer : Z; x_request : string; x_answer : answer }.
Record Net : Type := MkNet { asked : list exchange; to_come : list answer }.

Definition timed_out : answer := inl (IoError TimedOut "connection timed out").

Section node.
Context {D : Type} `{Records D}.
Abbreviation node := (M (Server D * Net) io_error).

Definition server : node (Server D) := s ← get_state; mret (fst s).
Definition set_db (d : D) (s : Server D) : Server D := MkServer (id s) (peers s) (blocked s) d.
Definition set_blocked (b : gset Z) (s : Server D) : Server D := MkServer (id s) (peers s) b (db s).
Definition on_server (f : Server D → Server D) : node unit := modify (λ s, (f (fst s), snd s)).
Definition on_db {A} (m : M D io_error A) : node A :=
  zoom (λ s, db (fst s)) (λ d s, (set_db d (fst s), snd s)) m.

(** [request_peer_fast]: its result is a value, since no caller passes its error on. *)
Definition request_peer_fast (peer : Z) (request : string) : node answer := λ '(s, n),
  let a := hd timed_out (to_come n) in
  (Ok a, (s, MkNet (asked n ++ [Exchange peer request a]) (tl (to_come n)))).

Definition read_record (key : string) : node (option ReplicaValue) :=
  s ← server;
  found ← lift (db_get (db s) key);
  match found with
  | Some encoded => r ← lift (decode_record encoded); mret (Some r)
  | None => mret None
  end.

Definition replaces (incoming current : ReplicaValue) : bool :=
  (version current <? version incoming)%Z
  || ((version incoming =? version current)%Z && committed incoming && negb (committed current)).

Definition merge (key : string) (incoming : ReplicaValue) : node unit :=
  found ← read_record key;
  let replace := match found with Some current => replaces incoming current | None => true end in
  if (replace : bool) then on_db (db_set key (encode_record incoming)) else mret tt.

Fixpoint dump_rows (keys : list string) (rows : list bytes) : node (list bytes) :=
  match keys with
  | [] => mret rows
  | key :: keys =>
    found ← read_record key;
    record ← lift (ok_or found (invalid "cluster: missing stored record"));
    if negb (committed record) then dump_rows keys rows else dump_rows keys (rows ++ [encode_row key record])
  end.
Definition dump : node string :=
  s ← server;
  keys ← lift (db_keys (db s));
  rows ← dump_rows keys [];
  mret (of_bytes (join ";"%char rows)).

(** ** Asking the peers *)

Definition answered (a : answer) (text : string) : bool := bool_decide (a = inr text).

Fixpoint ping_all (blocked : gset Z) (ids : list Z) (alive : list Z) : node (list Z) :=
  match ids with
  | [] => mret alive
  | peer :: ids =>
    if decide (peer ∈ blocked) then ping_all blocked ids alive else
    a ← request_peer_fast peer "PING";
    ping_all blocked ids (if answered a ("PONG " +:+ pretty peer) then alive ++ [peer] else alive)
  end.
Definition alive_peers : node (list Z) := s ← server; ping_all (blocked s) (peers s) [].

Definition catch_up (ids : list Z) : node unit :=
  for_each ids (λ peer,
    a ← request_peer_fast peer "DUMP";
    match a with
    | inl _ => mret tt
    | inr response =>
      match strip_prefix "DUMP " response with
      | None => mret tt
      | Some dump =>
        records ← lift (decode_dump dump);
        for_each records (λ '(key, record), merge key record)
      end
    end).

(** The requests a write sends. *)
Definition repl_request (key : string) (r : ReplicaValue) : string :=
  "REPL " +:+ hex (as_bytes key) +:+ " " +:+ pretty (version r) +:+ " " +:+ show_bool (tombstone r) +:+ " "
  +:+ hex (as_bytes (value r)).
Definition commit_request (key : string) (version : Z) : string :=
  "COMMIT " +:+ hex (as_bytes key) +:+ " " +:+ pretty version.

(** Ask each peer in turn; the peers that answer OK. *)
Fixpoint ask_all (request : string) (ids : list Z) (agreed : list Z) : node (list Z) :=
  match ids with
  | [] => mret agreed
  | peer :: ids =>
    a ← request_peer_fast peer request;
    ask_all request ids (if answered a "OK" then agreed ++ [peer] else agreed)
  end.

(** [alive.iter().copied().chain(once(self.id)).min()] *)
Definition leader_of (alive : list Z) (self : Z) : Z := foldr Z.min self alive.

Definition next_version (current : option ReplicaValue) : io Z :=
  ok_or (u64_checked_add (match current with Some r => version r | None => 0 end) 1)
    (invalid "cluster: version exhausted").

(** What a write does once this node is the leader of enough peers. *)
Definition replicate_write (alive : list Z) (key value : string) (tombstone : bool) : node string :=
  s ← server;
  _ ← catch_up alive;
  current ← read_record key;
  version ← lift (next_version current);
  staged ← ask_all (repl_request key (MkReplica version tombstone false value)) alive [];
  if (length staged + 1) * 2 <=? length (peers s) + 1 then mret "RETRY indeterminate" else
  _ ← merge key (MkReplica version tombstone true value);
  acknowledged ← ask_all (commit_request key version) staged [];
  if length (peers s) + 1 <? (1 + length acknowledged) * 2 then mret ("OK " +:+ pretty version)
  else mret "RETRY indeterminate".

Definition client_write (key value : string) (tombstone : bool) : node string :=
  s ← server;
  alive ← alive_peers;
  let leader := leader_of alive (id s) in
  if negb (leader =? id s)%Z then mret ("REDIRECT " +:+ pretty leader) else
  if length alive + 1 <=? length (peers s) / 2 then mret "RETRY no-quorum" else
  replicate_write alive key value tombstone.

Definition client_read (key : string) : node string :=
  s ← server;
  alive ← alive_peers;
  let leader := leader_of alive (id s) in
  if negb (leader =? id s)%Z then mret ("REDIRECT " +:+ pretty leader) else
  if length alive + 1 <=? length (peers s) / 2 then mret "RETRY no-quorum" else
  _ ← catch_up alive;
  found ← read_record key;
  match found with
  | Some r => if committed r && negb (tombstone r) then mret ("VALUE " +:+ hex (as_bytes (value r))) else mret "NIL"
  | None => mret "NIL"
  end.

(** ** Requests *)

Definition handle_repl (key version tombstone value : string) : node string :=
  key ← lift (unhex_string invalid key);
  value ← lift (unhex_string invalid value);
  version ← lift (parse_u64 version);
  tombstone ← lift (parse_bool tombstone);
  _ ← merge key (MkReplica version tombstone false value);
  mret "OK".

Definition handle_commit (key version : string) : node string :=
  key ← lift (unhex_string invalid key);
  v ← lift (parse_u64 version);
  found ← read_record key;
  _ ← (match found with
       | Some r =>
         if (Server.version r =? v)%Z
         then on_db (db_set key (encode_record (MkReplica (Server.version r) (tombstone r) true (value r))))
         else mret tt
       | None => mret tt
       end);
  mret "OK".

Definition unknown_request {A} : node A := fail (invalid "cluster: unknown request").

Definition handle_words (words : list string) : node string :=
  match words with
  | [c] =>
    s ← server;
    if decide (c = "PING") then mret ("PONG " +:+ pretty (id s)) else
    if decide (c = "DUMP") then text ← dump; mret ("DUMP " +:+ text) else
    if decide (c = "ADMIN_HEAL") then _ ← on_server (set_blocked ∅); mret "OK" else unknown_request
  | [c; a] =>
    if decide (c = "DELETE") then key ← lift (unhex_string invalid a); client_write key "" true else
    if decide (c = "GET") then key ← lift (unhex_string invalid a); client_read key else
    if decide (c = "ADMIN_BLOCK") then
      peer ← lift (parse_u64 a); _ ← on_server (λ s, set_blocked ({[peer]} ∪ blocked s) s); mret "OK"
    else unknown_request
  | [c; a; b] =>
    if decide (c = "COMMIT") then handle_commit a b else
    if decide (c = "PUT") then
      key ← lift (unhex_string invalid a); value ← lift (unhex_string invalid b); client_write key value false
    else unknown_request
  | [c; key; version; tombstone; value] =>
    if decide (c = "REPL") then handle_repl key version tombstone value else unknown_request
  | _ => unknown_request
  end.

Definition handle (request : bytes) : node string :=
  text ← lift (from_utf8 request (invalid "cluster: request is not UTF-8"));
  handle_words (split_whitespace text).

(** The response [run] sends. *)
Definition respond (request : bytes) : node string := λ s,
  match handle request s with
  | (Err e, s') => (Ok ("ERROR " +:+ err_msg e), s')
  | other => other
  end.
End node.

