(* ===== verification/ServerText.v ===== *)
(** The texts nodes exchange and store: records, dump rows and requests are read
    back as they were written, and a request with an empty field is not. *)

From stdpp Require Import gmap.
From Stdlib Require Import Ascii.
From S2P Require Import Prelude Bytes SqlAst SqlLexer SqlText Catalog CatalogSpec Words Server.

(** ** Hexadecimal *)

Section unhex.
Variable invalid : string → io_error.

Lemma digit_catalog b v : Server.digit invalid b = Ok v ↔ Catalog.digit b = Ok v.
Proof. unfold Server.digit, Catalog.digit. by repeat case_match. Qed.

Lemma unhex_pair_catalog p b : Server.unhex_pair invalid p = Ok b ↔ Catalog.unhex_pair p = Ok b.
Proof.
  unfold Server.unhex_pair, Catalog.unhex_pair. rewrite !bind_ok.
  split; intros (hi & Hhi & (lo & Hlo & Hb)%bind_ok); exists hi; (split; [by apply digit_catalog|]);
    apply bind_ok; exists lo; (split; [by apply digit_catalog|done]).
Qed.

Lemma unhex_string_ok s t : unhex_string invalid s = Ok t ↔ is_str t ∧ s = Server.hex (as_bytes t).
Proof.
  assert (∀ bs, (str_len s mod 2 = 0 ∧ try_map (Server.unhex_pair invalid) (pairs (as_bytes s)) = Ok bs)
    ↔ s = Server.hex bs) as Hcat.
  { intros bs. transitivity (Catalog.unhex (as_bytes s) = Ok bs).
    - unfold Catalog.unhex, str_len. destruct (length (as_bytes s) mod 2 =? 0) eqn:He; cbn [negb].
      + apply Nat.eqb_eq in He. rewrite !try_map_ok. split.
        * intros [_ Hf]. eapply Forall2_impl; [exact Hf|]. intros p b. apply unhex_pair_catalog.
        * intros Hf. split; [done|]. eapply Forall2_impl; [exact Hf|]. intros p b. apply unhex_pair_catalog.
      + apply Nat.eqb_neq in He. split; [by intros [? _]|done].
    - split; intros Hu.
      + apply hex_unhex in Hu. apply as_bytes_inj. unfold Server.hex. by rewrite as_of_bytes.
      + subst s. unfold Server.hex. rewrite as_of_bytes. apply unhex_hex. }
  unfold unhex_string. destruct (str_len s mod 2 =? 0) eqn:He; cbn [negb].
  - apply Nat.eqb_eq in He. split.
    + intros (bs & Hbs & [Ht ->]%from_utf8_ok)%bind_ok. split; [done|]. by apply Hcat.
    + intros [Ht Hs]. apply bind_ok. exists (as_bytes t). split; [by apply Hcat|]. by apply from_utf8_ok.
  - apply Nat.eqb_neq in He. split; [done|]. intros [_ Hs%Hcat]. by destruct Hs.
Qed.

Lemma unhex_string_hex t : is_str t → unhex_string invalid (Server.hex (as_bytes t)) = Ok t.
Proof. intros Ht. by apply unhex_string_ok. Qed.

Lemma digit_safe b p : Server.digit invalid b ≠ Panic p.
Proof. unfold Server.digit. by repeat case_match. Qed.
Lemma unhex_string_safe s p : unhex_string invalid s ≠ Panic p.
Proof.
  unfold unhex_string. case_match; [done|]. assert (∀ q, try_map (Server.unhex_pair invalid) (pairs (as_bytes s)) ≠ Panic q) as Hm.
  { induction (pairs (as_bytes s)) as [|[a b] l IH]; intros q; [done|]. cbn. unfold Server.unhex_pair. cbn [fst snd].
    destruct (Server.digit invalid a) eqn:Ha; cbn; [|done|by apply digit_safe in Ha].
    destruct (Server.digit invalid b) eqn:Hb; cbn; [|done|by apply digit_safe in Hb].
    destruct (try_map _ l) eqn:Hl; cbn; [done|done|by destruct (IH msg)]. }
  destruct (try_map _ _) eqn:He; cbn; [|done|by destruct (Hm msg)]. unfold from_utf8. by case_match.
Qed.
End unhex.

Definition hex_digit (b : u8) : bool := in_range 48 57 b || in_range 97 102 b.

Lemma hex_digits t : Forall (λ b, hex_digit b = true) (as_bytes (Server.hex (as_bytes t))).
Proof.
  unfold Server.hex. rewrite as_of_bytes. apply Forall_forall. intros c Hc%hex_digits_only.
  unfold Catalog.digit in Hc. unfold hex_digit. destruct (in_range 48 57 c); [done|]. by destruct (in_range 97 102 c); [|destruct Hc].
Qed.

Lemma hex_empty t : as_bytes (Server.hex (as_bytes t)) = [] ↔ t = "".
Proof.
  unfold Server.hex. rewrite as_of_bytes. split; [|by intros ->].
  intros H. pose proof (length_hex (as_bytes t)) as Hl. unfold Catalog.hex in Hl. rewrite H in Hl. destruct t; [done|]. cbn in Hl. lia.
Qed.

(** ** Fields *)

(** The bytes of fields: digits. *)
Definition field (bs : bytes) : Prop := Forall (λ b, hex_digit b = true) bs.

Lemma field_hex t : field (as_bytes (Server.hex (as_bytes t))).
Proof. apply hex_digits. Qed.
Lemma field_bool b : field (as_bytes (show_bool b)).
Proof. destruct b; by repeat constructor. Qed.
Lemma field_number z : u64_range z → field (as_bytes (pretty z)).
Proof.
  intros Hz. destruct (plain_digits z Hz) as (_ & _ & Hd). eapply Forall_impl; [exact Hd|].
  intros b Hb. unfold hex_digit. unfold is_digit in Hb. by rewrite Hb.
Qed.
#[export] Hint Resolve field_hex field_bool field_number : nutdb.

Lemma field_lacks c bs : hex_digit c = false → field bs → c ∉ bs.
Proof. intros Hc Hf Hin. unfold field in Hf. rewrite Forall_forall in Hf. apply Hf in Hin. congruence. Qed.

Lemma field_plain bs : field bs → plain bs.
Proof.
  intros Hf. eapply Forall_impl; [exact Hf|]. intros b Hb. unfold hex_digit, plain_byte, in_range in *. cbn in Hb.
  apply andb_true_iff. rewrite !Z.leb_le. apply orb_true_iff in Hb as [Hb|Hb]; zify_bools; lia.
Qed.

Lemma plain_ascii bs : plain bs → Forall (λ b, in_range 0 127 b = true) bs.
Proof.
  intros Hf. eapply Forall_impl; [exact Hf|]. intros b Hb. unfold plain_byte, in_range in *. cbn in Hb. zify_bools.
  apply andb_true_iff. rewrite !Z.leb_le. lia.
Qed.

Lemma join_ascii sep ws :
  in_range 0 127 sep = true → Forall plain ws → Forall (λ b, in_range 0 127 b = true) (join sep ws).
Proof.
  intros Hs Hws. induction Hws as [|w ws Hw Hws IH]; [constructor|]. destruct ws as [|w' ws]; [by apply plain_ascii|].
  change (join sep (w :: w' :: ws)) with (w ++ sep :: join sep (w' :: ws)).
  apply Forall_app. split; [by apply plain_ascii|]. by constructor.
Qed.

Lemma parse_u64_pretty z : u64_range z → parse_u64 (pretty z) = Ok z.
Proof. intros Hz. unfold parse_u64. by rewrite parse_unsigned_pretty. Qed.
Lemma parse_u64_range s z : parse_u64 s = Ok z → u64_range z.
Proof.
  unfold parse_u64. intros H%ok_or_ok. unfold parse_unsigned in H. cbv zeta in H.
  assert (∀ ds, Forall (λ b, is_digit b = true) ds → (0 ≤ decimal ds)%Z) as Hpos.
  { intros ds Hds. induction ds as [|d ds IH] using rev_ind; [done|]. apply Forall_app in Hds as [Hds Hd].
    inversion Hd as [|? ? Hd1]; subst. rewrite decimal_snoc. specialize (IH Hds). unfold is_digit, in_range in Hd1.
    unfold digit_value. zify_bools. lia. }
  destruct (match as_bytes s with [] => [] | b :: r => if decide (b = "+"%char) then r else as_bytes s end) as [|d ds]; [done|].
  case_match eqn:He; [|done]. injection H as <-. zify_bools. split; [|done]. apply Hpos.
  apply Forall_forall. intros x Hx%list_elem_of_In. rewrite forallb_forall in H. by apply H.
Qed.

Lemma parse_bool_show b : parse_bool (show_bool b) = Ok b.
Proof. by destruct b. Qed.

(** ** Records *)

Definition replica_ok (r : ReplicaValue) : Prop := u64_range (version r) ∧ is_str (value r).

(** The four fields of a record. *)
Definition record_fields (r : ReplicaValue) : list bytes :=
  [as_bytes (pretty (version r)); as_bytes (show_bool (tombstone r)); as_bytes (show_bool (committed r));
   as_bytes (Server.hex (as_bytes (value r)))].

Lemma encode_record_fields r : as_bytes (encode_record r) = join ":"%char (record_fields r).
Proof. unfold encode_record. rewrite !as_bytes_app. done. Qed.

Lemma record_fields_ok r : replica_ok r → Forall field (record_fields r).
Proof. intros [Hv _]. repeat constructor; auto with nutdb. Qed.

Lemma split_once_app sep p rest : sep ∉ p → split_once sep (p ++ sep :: rest) = Some (p, rest).
Proof.
  induction p as [|b p IH]; intros Hp; cbn; [by rewrite decide_True|].
  apply not_elem_of_cons in Hp as [Hb Hp]. by rewrite decide_False, IH.
Qed.
Lemma splitn_join sep ps n : Forall (λ p, sep ∉ p) ps → ps ≠ [] → splitn (length ps + n) sep (join sep ps) = ps.
Proof.
  intros Hps Hne. assert (∀ p, sep ∉ p → split_once sep p = None) as Hnone.
  { induction p as [|b p IH]; intros Hp; [done|]. apply not_elem_of_cons in Hp as [Hb Hp]. cbn.
    rewrite decide_False by done. by rewrite IH. }
  induction Hps as [|p ps Hp Hps IH]; [done|]. destruct ps as [|p' ps].
  - cbn [join length Nat.add splitn]. destruct n as [|n]; [done|]. by rewrite Hnone.
  - change (join sep (p :: p' :: ps)) with (p ++ sep :: join sep (p' :: ps)). cbn [length Nat.add splitn].
    rewrite split_once_app by done. f_equal. apply IH. done.
Qed.

Lemma fields_lack sep ps : hex_digit sep = false → Forall field ps → Forall (λ p, sep ∉ p) ps.
Proof. intros Hs Hf. eapply Forall_impl; [exact Hf|]. intros p. by apply field_lacks. Qed.

Lemma decode_encode_record r : replica_ok r → decode_record (encode_record r) = Ok r.
Proof.
  intros Hr. pose proof (record_fields_ok r Hr) as Hf. unfold decode_record.
  rewrite encode_record_fields, (splitn_join _ (record_fields r) 0) by (done || by apply fields_lack).
  unfold record_fields, next_part. cbn [mbind result_bind]. rewrite !of_as_bytes.
  rewrite parse_u64_pretty by apply Hr. cbn [mbind result_bind]. rewrite !parse_bool_show. cbn [mbind result_bind].
  rewrite unhex_string_hex by apply Hr. by destruct r.
Qed.

Lemma decode_record_ok s r : decode_record s = Ok r → replica_ok r.
Proof.
  unfold decode_record. intros ([p ps] & _ & (v & Hv & ([p1 ps1] & _ & (t & _ & ([p2 ps2] & _ & (c & _ & ([p3 ps3] & _ &
    (x & Hx & H)%bind_ok)%bind_ok)%bind_ok)%bind_ok)%bind_ok)%bind_ok)%bind_ok)%bind_ok.
  apply ok_inj in H as <-. split; [by eapply parse_u64_range|]. by apply unhex_string_ok in Hx as [? _].
Qed.

Lemma encode_record_str r : replica_ok r → is_str (encode_record r).
Proof.
  intros Hr. unfold is_str. rewrite encode_record_fields. apply ascii_valid, join_ascii; [done|].
  eapply Forall_impl; [by apply record_fields_ok|]. intros w. apply field_plain.
Qed.

(** ** Dumps *)

Definition row_fields (key : string) (r : ReplicaValue) : list bytes :=
  as_bytes (Server.hex (as_bytes key)) :: record_fields r.

Lemma encode_row_fields key r : Server.encode_row key r = join ","%char (row_fields key r).
Proof. unfold Server.encode_row. rewrite !as_bytes_app. done. Qed.

Lemma row_fields_ok key r : replica_ok r → Forall field (row_fields key r).
Proof. intros Hr. constructor; [auto with nutdb|by apply record_fields_ok]. Qed.

Lemma decode_encode_row key r : is_str key → replica_ok r → Server.decode_row (Server.encode_row key r) = Ok (key, r).
Proof.
  intros Hk Hr. unfold Server.decode_row. rewrite encode_row_fields, split_join; [|done|].
  2: { apply fields_lack; [done|]. by apply row_fields_ok. }
  unfold row_fields, record_fields. rewrite !of_as_bytes. rewrite (unhex_string_hex _ key Hk). cbn [mbind result_bind].
  rewrite parse_u64_pretty by apply Hr. cbn [mbind result_bind]. rewrite !parse_bool_show. cbn [mbind result_bind].
  rewrite unhex_string_hex by apply Hr. by destruct r.
Qed.

Lemma decode_row_ok bs key r : Server.decode_row bs = Ok (key, r) → is_str key ∧ replica_ok r.
Proof.
  unfold Server.decode_row. destruct (split_on ","%char bs) as [|f0 [|f1 [|f2 [|f3 [|f4 [|? ?]]]]]]; try done.
  intros (k & Hk & (v & Hv & (t & _ & (c & _ & (x & Hx & H)%bind_ok)%bind_ok)%bind_ok)%bind_ok)%bind_ok.
  apply ok_inj in H as [= <- <-]. apply unhex_string_ok in Hk as [? _], Hx as [? _].
  split; [done|]. split; [by eapply parse_u64_range|done].
Qed.

Lemma decode_dump_ok s rows : decode_dump s = Ok rows → Forall (λ p, is_str p.1 ∧ replica_ok p.2) rows.
Proof.
  unfold decode_dump. case_decide; [intros [= <-]; constructor|]. intros Hd%try_map_ok.
  induction Hd as [|row [key r] rows' rows Hr _ IH]; constructor; [by eapply decode_row_ok|done].
Qed.

Lemma encode_row_nonempty key r : Server.encode_row key r ≠ [].
Proof. rewrite encode_row_fields. unfold row_fields, record_fields. cbn [join]. by destruct (as_bytes (Server.hex (as_bytes key))). Qed.

(** A dump's text reads back as its rows. *)
Lemma decode_join_rows (rows : list (string * ReplicaValue)) :
  Forall (λ p, is_str p.1 ∧ replica_ok p.2) rows →
  decode_dump (of_bytes (join ";"%char ((λ p, Server.encode_row p.1 p.2) <$> rows))) = Ok rows.
Proof.
  intros Hrows. unfold decode_dump. destruct rows as [|[key r] rows]; [done|]. rewrite decide_False.
  2: { intros H%(f_equal as_bytes). rewrite as_of_bytes in H. pose proof (encode_row_nonempty key r) as Hne.
       destruct rows as [|p rows]; cbn [fmap list_fmap join fst snd] in H; destruct (Server.encode_row key r); done. }
  rewrite as_of_bytes, split_join; [|done|].
  - apply try_map_ok. apply Forall2_fmap_l. clear -Hrows. induction Hrows as [|[k x] l [Hk Hx] _ IH]; constructor; [|done].
    by apply decode_encode_row.
  - apply Forall_fmap. eapply Forall_impl; [exact Hrows|]. intros [k x] [_ Hx]. cbn in *.
    intros Hin. rewrite encode_row_fields in Hin. unfold row_fields, record_fields in Hin. cbn [join] in Hin.
    rewrite !elem_of_app, !elem_of_cons, !elem_of_app, !elem_of_cons, !elem_of_app, !elem_of_cons, !elem_of_app, !elem_of_cons in Hin.
    pose proof (row_fields_ok k x Hx) as Hf. unfold row_fields, record_fields in Hf.
    repeat (apply Forall_cons in Hf as [?%(field_lacks ";"%char) Hf]; [|done]).
    destruct_or! Hin; done.
Qed.

(** ** Requests *)

Lemma words_join (ws : list string) :
  Forall (λ w, plain (as_bytes w)) ws →
  split_whitespace (of_bytes (join " "%char (as_bytes <$> ws))) = List.filter (λ w, negb (bool_decide (w = ""))) ws.
Proof.
  intros Hws. unfold split_whitespace. rewrite as_of_bytes, split_words_join by (by apply Forall_fmap).
  clear Hws. induction ws as [|w ws IH]; [done|]. cbn [fmap list_fmap List.filter].
  destruct w as [|a w]; cbn [as_bytes]; [exact IH|]. cbn. f_equal; [|exact IH]. f_equal. apply of_as_bytes.
Qed.

Definition repl_words (key : string) (r : ReplicaValue) : list string :=
  ["REPL"; Server.hex (as_bytes key); pretty (version r); show_bool (tombstone r); Server.hex (as_bytes (value r))].

Lemma repl_request_words key r : repl_request key r = of_bytes (join " "%char (as_bytes <$> repl_words key r)).
Proof. apply as_bytes_inj. unfold repl_request. rewrite as_of_bytes, !as_bytes_app. done. Qed.

Definition commit_words (key : string) (v : Z) : list string := ["COMMIT"; Server.hex (as_bytes key); pretty v].

Lemma commit_request_words key v : commit_request key v = of_bytes (join " "%char (as_bytes <$> commit_words key v)).
Proof. apply as_bytes_inj. unfold commit_request. rewrite as_of_bytes, !as_bytes_app. done. Qed.

Lemma plain_word w : forallb plain_byte (as_bytes w) = true → plain (as_bytes w).
Proof. intros H. apply Forall_forall. intros b Hb%list_elem_of_In. rewrite forallb_forall in H. by apply H. Qed.

Lemma repl_words_plain key r : replica_ok r → Forall (λ w, plain (as_bytes w)) (repl_words key r).
Proof.
  intros [Hv _]. unfold repl_words. rewrite !Forall_cons. split_and!; [by apply plain_word| | | | |by apply Forall_nil].
  all: apply field_plain; auto with nutdb.
Qed.
Lemma commit_words_plain key v : u64_range v → Forall (λ w, plain (as_bytes w)) (commit_words key v).
Proof.
  intros Hv. unfold commit_words. rewrite !Forall_cons. split_and!; [by apply plain_word| | |by apply Forall_nil].
  all: apply field_plain; auto with nutdb.
Qed.

Lemma words_str ws : Forall (λ w, plain (as_bytes w)) ws → is_str (of_bytes (join " "%char (as_bytes <$> ws))).
Proof. intros Hws. unfold is_str. rewrite as_of_bytes. apply ascii_valid, join_ascii; [done|]. by apply Forall_fmap. Qed.
