(* ===== verification/ServerSpec.v ===== *)
(** What a node does to its records, whatever its peers answer.

    [not_older] orders what a node can hold under a key: by version, and at one
    version a committed record is not replaced.  Every request leaves every
    record at least as new ([triple], [handle_keeps]), and a write that answers OK has had
    its record staged and committed by a majority ([acked_by]). *)

From stdpp Require Import gmap.
From Stdlib Require Import Ascii.
From S2P Require Import Prelude Bytes SqlAst SqlLexer SqlText Catalog CatalogSpec Words Wal Command BTree BTreeSpec Store StoreSpec Server ServerText.

(** ** The store's contract *)

Class RecordsLaws (D : Type) `{Records D} (view : D → gmap string string) (ok : D → Prop) : Prop := {
  law_db_get d key : ok d → db_get d key = Ok (view d !! key);
  law_db_keys d : ok d → db_keys d = Ok (btree_keys (view d));
  law_db_set d key value :
    ok d → is_str key → is_str value →
    ∃ d', ok d' ∧ ((db_set key value d = (Ok tt, d') ∧ view d' = <[key := value]> (view d)) ∨
                   (∃ e, db_set key value d = (Err e, d') ∧ view d' = view d));
}.

#[export] Instance map_records_laws : RecordsLaws (gmap string string) Datatypes.id (λ _, True).
Proof. split; [done..|]. intros d key value _ _ _. eexists. split; [done|]. by left. Qed.

(** ** The order of records *)

Definition not_older (old new : option ReplicaValue) : Prop :=
  match old, new with
  | None, _ => True
  | Some o, Some n =>
    (version o < version n)%Z ∨
    version o = version n ∧
      (committed o = true → committed n = true ∧ tombstone n = tombstone o ∧ value n = value o)
  | Some _, None => False
  end.

#[export] Instance not_older_preorder : PreOrder not_older.
Proof.
  split.
  - intros [o|]; [|done]. right. by split.
  - intros [o|] [n|] [m|]; cbn; try done. intros [H1|[H1 H1']] [H2|[H2 H2']]; [left; lia..|].
    right. split; [congruence|]. intros Ho. destruct (H1' Ho) as (Hn & ? & ?). destruct (H2' Hn) as (? & ? & ?). split_and!; congruence.
Qed.

(** At least version [v], committed if [c] and the version is [v]. *)
Definition reached (r : option ReplicaValue) (v : Z) (c : bool) : Prop :=
  match r with Some r => (v < version r)%Z ∨ version r = v ∧ (c = true → committed r = true) | None => False end.

Lemma reached_later old new v c : not_older old new → reached old v c → reached new v c.
Proof.
  destruct old as [o|], new as [n|]; cbn; try done. intros [H1|[H1 H1']] [H2|[H2 H2']]; [left; lia..|].
  right. split; [congruence|]. intros Hc. by apply H1', H2'.
Qed.

Lemma replaces_not_older incoming current : replaces incoming current = true → not_older (Some current) (Some incoming).
Proof.
  unfold replaces. cbn. destruct (version current <? version incoming)%Z eqn:Hv; zify_bools; [by left|].
  cbn [orb]. intros H. zify_bools. right. split; [done|]. congruence.
Qed.
Lemma keeps_reached incoming current :
  replaces incoming current = false → reached (Some current) (version incoming) (committed incoming).
Proof.
  unfold replaces. cbn. intros H. zify_bools. destruct (decide (version incoming = version current)) as [He|]; [|left; lia].
  right. split; [done|]. intros Hc. rewrite He, Z.eqb_refl, Hc in *. cbn in *. by destruct (committed current).
Qed.

Section laws.
Context {D : Type} {HRecords : Records D} {view : D → gmap string string} {ok : D → Prop} {HL : RecordsLaws D view ok}.

(** What a store holds under a key. *)
Definition recorded (d : D) (key : string) : option ReplicaValue :=
  s ← view d !! key; match decode_record s with Ok r => Some r | _ => None end.

Definition records_ok (d : D) : Prop :=
  ok d ∧ ∀ key s, view d !! key = Some s → is_str key ∧ ∃ r, replica_ok r ∧ s = encode_record r.

Definition newer (d d' : D) : Prop := ∀ key, not_older (recorded d key) (recorded d' key).

Lemma newer_refl d : newer d d.
Proof. intros key. reflexivity. Qed.
Lemma newer_trans d d' d'' : newer d d' → newer d' d'' → newer d d''.
Proof. intros H H' key. etransitivity; [apply H|apply H']. Qed.
Lemma newer_view d d' : view d' = view d → newer d d'.
Proof. intros Hv key. unfold recorded. rewrite Hv. reflexivity. Qed.
Lemma newer_reached d d' key v c : newer d d' → reached (recorded d key) v c → reached (recorded d' key) v c.
Proof. intros H. by apply reached_later. Qed.

Lemma view_recorded d key :
  records_ok d → match view d !! key with
                 | Some s => ∃ r, recorded d key = Some r ∧ decode_record s = Ok r ∧ replica_ok r ∧ is_str key
                 | None => recorded d key = None
                 end.
Proof.
  intros [_ Hd]. unfold recorded. destruct (view d !! key) as [s|] eqn:Hk; [|done].
  destruct (Hd key s Hk) as (Hs & r & Hr & ->). cbn. rewrite (decode_encode_record r Hr). by exists r.
Qed.

Lemma set_recorded d d' key r :
  records_ok d → is_str key → replica_ok r → ok d' → view d' = <[key := encode_record r]> (view d) →
  not_older (recorded d key) (Some r) →
  records_ok d' ∧ newer d d' ∧ recorded d' key = Some r.
Proof.
  intros [_ Hd] Hk Hr Hok Hv Hord. assert (recorded d' key = Some r) as Hrec.
  { unfold recorded. rewrite Hv, lookup_insert_eq. cbn. by rewrite decode_encode_record. }
  split_and!; [|intros key'|done].
  - split; [done|]. intros key' s. rewrite Hv, lookup_insert_Some. intros [[<- <-]|[_ ?]]; [|by eapply Hd]. split; [done|]. by exists r.
  - destruct (decide (key' = key)) as [->|Hne]; [by rewrite Hrec|]. unfold recorded. rewrite Hv, lookup_insert_ne by done. reflexivity.
Qed.

(** ** Triples *)

Definition good (s : Server D) : Prop := records_ok (db s) ∧ NoDup (peers s).

(** [triple P m Q]: from a good node with [P], [m] does not panic and leaves a
    good node, of the same name and peers, with records no older; when it
    returns, [Q] holds of the result, the node and the exchanges made. *)
Definition triple {A} (P : Server D → Prop) (m : M (Server D * Net) io_error A)
    (Q : A → Server D → list exchange → Prop) : Prop :=
  ∀ s n r s' n', good s → P s → m (s, n) = (r, (s', n')) →
    ∃ new, asked n' = asked n ++ new ∧ good s' ∧ Server.id s' = Server.id s ∧ peers s' = peers s ∧
      newer (db s) (db s') ∧ match r with Ok a => Q a s' new | Err _ => True | Panic _ => False end.

Lemma triple_bind {A B} P (m : M (Server D * Net) io_error A) (f : A → M (Server D * Net) io_error B) Q R :
  triple P m Q → (∀ a new, triple (λ s, Q a s new) (f a) (λ b s new', R b s (new ++ new'))) → triple P (m ≫= f) R.
Proof.
  intros Hm Hf s n r s' n' Hs HP Hrun. unfold mbind, M_bind in Hrun. destruct (m (s, n)) as [r1 [s1 n1]] eqn:H1.
  destruct (Hm s n r1 s1 n1 Hs HP H1) as (new & Hn & Hs1 & Hi & Hp & Hnew & HQ). destruct r1 as [a|e|p]; [| |done].
  - destruct (Hf a new s1 n1 r s' n' Hs1 HQ Hrun) as (new' & Hn' & Hs' & Hi' & Hp' & Hnew' & HR).
    exists (new ++ new'). rewrite Hn', Hn, app_assoc. split_and!; [done|done|congruence|congruence|by eapply newer_trans|done].
  - injection Hrun as <- <- <-. exists new. done.
Qed.

(** A step that asks nothing. *)
Lemma triple_local {A B} P (m : M (Server D * Net) io_error A) (f : A → M (Server D * Net) io_error B)
    (Q : A → Server D → Prop) R :
  triple P m (λ a s new, Q a s ∧ new = []) → (∀ a, triple (Q a) (f a) R) → triple P (m ≫= f) R.
Proof.
  intros Hm Hf. eapply triple_bind; [exact Hm|]. intros a new s n r s' n' Hs [HQ ->] Hrun. by apply (Hf a s n).
Qed.

Lemma triple_conseq {A} (P P' : Server D → Prop) (m : M (Server D * Net) io_error A) (Q Q' : A → Server D → list exchange → Prop) :
  triple P m Q → (∀ s, P' s → P s) → (∀ a s new, Q a s new → Q' a s new) → triple P' m Q'.
Proof.
  intros Hm HP HQ s n r s' n' Hs HP' Hrun. destruct (Hm s n r s' n' Hs (HP s HP') Hrun) as (new & ? & ? & ? & ? & ? & Hr).
  exists new. split_and!; [done..|]. destruct r; [by apply HQ|done|done].
Qed.

Lemma triple_stay {A} (P : Server D → Prop) (m : M (Server D * Net) io_error A) (Q : A → Server D → list exchange → Prop) :
  (∀ s n, good s → P s → ∃ r, m (s, n) = (r, (s, n)) ∧ match r with Ok a => Q a s [] | Err _ => True | Panic _ => False end) →
  triple P m Q.
Proof.
  intros Hm s n r s' n' Hs HP Hrun. destruct (Hm s n Hs HP) as (r0 & Hr0 & HQ). rewrite Hrun in Hr0. injection Hr0 as -> -> ->.
  exists []. rewrite app_nil_r. split_and!; [done..|by apply newer_refl|done].
Qed.

Lemma triple_ret {A} P (a : A) Q : (∀ s, P s → Q a s []) → triple P (mret a) Q.
Proof. intros HQ. apply triple_stay. intros s n _ HP. eexists. split; [done|]. by apply HQ. Qed.
Lemma triple_fail {A} P e (Q : A → Server D → list exchange → Prop) : triple P (fail e) Q.
Proof. apply triple_stay. intros s n _ _. by eexists. Qed.
Lemma triple_lift {A} P (r : io A) Q :
  (∀ p, r ≠ Panic p) → (∀ s a, P s → r = Ok a → Q a s []) → triple P (lift r) Q.
Proof.
  intros Hp HQ. apply triple_stay. intros s n _ HP. exists r. split; [done|]. destruct r; [by apply HQ|done|by destruct (Hp msg)].
Qed.
Lemma triple_server P : triple P server (λ a s new, P s ∧ a = s ∧ new = []).
Proof. apply triple_stay. intros s n _ HP. by eexists. Qed.
Lemma triple_with_server {A} P (f : Server D → M (Server D * Net) io_error A) Q :
  (∀ s0, triple P (f s0) Q) → triple P (server ≫= f) Q.
Proof. intros Hf s n r s' n' Hs HP Hrun. by apply (Hf s s n r). Qed.
Lemma triple_pure {A} (φ : Prop) P (m : M (Server D * Net) io_error A) Q :
  (φ → triple P m Q) → triple (λ s, φ ∧ P s) m Q.
Proof. intros Hm s n r s' n' Hs [Hφ HP]. by apply Hm. Qed.

(** A good node, asked for nothing. *)
Lemma triple_any {A} (P : Server D → Prop) (m : M (Server D * Net) io_error A) Q :
  triple (λ _, True) m Q → triple P m Q.
Proof. intros Hm. by eapply triple_conseq. Qed.

Lemma triple_ask P peer q :
  triple P (request_peer_fast peer q) (λ a s new, P s ∧ new = [Exchange peer q a]).
Proof. intros s n r s' n' Hs HP [= <- <- <-]. eexists. split_and!; [done..|by apply newer_refl|done|done]. Qed.

Lemma triple_blocked P f : triple P (on_server (λ s, set_blocked (f s) s)) (λ _ _ new, new = []).
Proof. intros s n r s' n' Hs HP [= <- <- <-]. exists []. rewrite app_nil_r. split_and!; [done..|by apply newer_refl|done]. Qed.

Lemma triple_frame {A} (φ P : Server D → Prop) (m : M (Server D * Net) io_error A) Q :
  (∀ s s', φ s → Server.id s' = Server.id s → peers s' = peers s → newer (db s) (db s') → φ s') →
  triple P m Q → triple (λ s, P s ∧ φ s) m (λ a s new, Q a s new ∧ φ s).
Proof.
  intros Hφ Hm s n r s' n' Hs [HP Hf] Hrun. destruct (Hm s n r s' n' Hs HP Hrun) as (new & Hn & Hs' & Hi & Hp & Hnew & Hr).
  exists new. split_and!; [done..|]. destruct r; [split; [done|by eapply Hφ]|done|done].
Qed.

(** ** Reading and merging *)

Lemma read_record_run s n key :
  good s → read_record key (s, n) = (Ok (recorded (db s) key), (s, n)).
Proof.
  intros [Hd _]. unfold read_record, server. run_steps. rewrite run_bind. run_steps. cbn [fst].
  rewrite law_db_get by apply Hd. run_steps. pose proof (view_recorded (db s) key Hd) as Hv.
  destruct (view (db s) !! key) as [text|]; [|by rewrite Hv].
  destruct Hv as (r & Hrec & -> & _). run_steps. by rewrite Hrec.
Qed.

Lemma triple_read P key :
  triple P (read_record key) (λ a s new, P s ∧ a = recorded (db s) key ∧ new = []).
Proof. apply triple_stay. intros s n Hs HP. rewrite read_record_run by done. by eexists. Qed.

(** A record put where an older one was. *)
Lemma triple_put key r :
  is_str key → replica_ok r →
  triple (λ s, not_older (recorded (db s) key) (Some r)) (on_db (db_set key (encode_record r)))
    (λ _ s new, recorded (db s) key = Some r ∧ new = []).
Proof.
  intros Hk Hr s n res s' n' Hs Hold. unfold on_db, zoom. cbn [fst snd].
  destruct (law_db_set (db s) key (encode_record r) (proj1 (proj1 Hs)) Hk (encode_record_str r Hr)) as (d' & Hok & [[Hrun Hv]|(e & Hrun & Hv)]);
    rewrite Hrun; intros [= <- <- <-]; exists []; rewrite app_nil_r.
  - destruct (set_recorded (db s) d' key r (proj1 Hs) Hk Hr Hok Hv Hold) as (Hd' & Hnew & Hrec).
    split_and!; [done|split; [done|apply Hs]|done..].
  - split_and!; [done| |done|done|by apply newer_view|done]. split; [|apply Hs]. split; [done|].
    intros k t. cbn [db set_db]. rewrite Hv. apply (proj2 (proj1 Hs)).
Qed.

Lemma triple_merge key r :
  is_str key → replica_ok r →
  triple (λ _, True) (merge key r) (λ _ s new, reached (recorded (db s) key) (version r) (committed r) ∧ new = []).
Proof.
  intros Hk Hr. unfold merge.
  eapply (triple_local _ _ _ (λ found s, found = recorded (db s) key)).
  { eapply triple_conseq; [apply triple_read|exact (λ s H, H)|]. naive_solver. }
  intros found.
  assert (∀ f : bool, triple (λ s, (f = true → not_older (recorded (db s) key) (Some r)) ∧
      (f = false → reached (recorded (db s) key) (version r) (committed r)))
    (if f then on_db (db_set key (encode_record r)) else mret tt)
    (λ _ s new, reached (recorded (db s) key) (version r) (committed r) ∧ new = [])) as Hput.
  { intros []; [|apply triple_ret; naive_solver].
    eapply triple_conseq; [by apply triple_put|naive_solver|]. cbn. intros _ s new' [-> ->]. cbn. naive_solver. }
  eapply triple_conseq; [apply Hput| |done].
  cbn. intros s ->. destruct (recorded (db s) key) as [current|]; [|done].
  split; [apply replaces_not_older|apply keeps_reached].
Qed.

(** Each step of a loop leaves what no later step undoes. *)
Lemma triple_each {A} (l : list A) (body : A → M (Server D * Net) io_error unit) (R : A → Server D → list exchange → Prop) :
  (∀ a s s' n1 new n2, R a s new → newer (db s) (db s') → R a s' (n1 ++ new ++ n2)) →
  (∀ a, a ∈ l → triple (λ _, True) (body a) (λ _, R a)) →
  triple (λ _, True) (for_each l body) (λ _ s new, ∀ a, a ∈ l → R a s new).
Proof.
  intros Hmono. induction l as [|a l IH]; intros Hb; cbn [for_each].
  { apply triple_ret. by intros s _ a ?%elem_of_nil. }
  eapply triple_bind; [apply Hb; left|]. intros [] new. cbn.
  eapply triple_conseq; [apply (triple_frame (λ s, R a s new) (λ _, True)); [|apply IH; intros b Hin; apply Hb; by right]|done|].
  - intros s s' Hr _ _ Hnew. rewrite <- (app_nil_r new). by apply (Hmono a s s' []).
  - cbn. intros _ s new' [Hl Ha] b [->|Hin]%elem_of_cons.
    + apply (Hmono a s s []); [done|apply newer_refl].
    + rewrite <- (app_nil_r new'). apply (Hmono b s s new new' []); [by apply Hl|apply newer_refl].
Qed.

(** ** Parsing does not panic *)

Lemma parse_u64_safe s p : parse_u64 s ≠ Panic p.
Proof. unfold parse_u64. by destruct (parse_unsigned _). Qed.
Lemma parse_bool_safe s p : parse_bool s ≠ Panic p.
Proof. unfold parse_bool. by repeat case_decide. Qed.

Lemma bind_safe {A B} (m : io A) (f : A → io B) :
  (∀ p, m ≠ Panic p) → (∀ a p, f a ≠ Panic p) → ∀ p, m ≫= f ≠ Panic p.
Proof. intros Hm Hf p. destruct m; cbn; [apply Hf|done|by destruct (Hm msg)]. Qed.

Lemma decode_row_safe bs p : Server.decode_row bs ≠ Panic p.
Proof.
  unfold Server.decode_row. destruct (split_on ","%char bs) as [|f0 [|f1 [|f2 [|f3 [|f4 [|? ?]]]]]]; try done. revert p.
  repeat (apply bind_safe; [intros p; first [apply unhex_string_safe|apply parse_u64_safe|apply parse_bool_safe]|intros ?]). intros p. done.
Qed.

Lemma try_map_safe {A B} (f : A → io B) l p : (∀ a p, f a ≠ Panic p) → try_map f l ≠ Panic p.
Proof.
  intros Hf. revert p. induction l as [|a l IH]; intros p; [done|]. cbn [try_map].
  apply bind_safe; [intros q; apply Hf|]. intros b q. revert q. apply bind_safe; [apply IH|]. by intros bs q.
Qed.

Lemma decode_dump_safe s p : decode_dump s ≠ Panic p.
Proof. unfold decode_dump. case_decide; [done|]. apply try_map_safe. intros a q. apply decode_row_safe. Qed.

Lemma next_version_ok current v : next_version current = Ok v → match current with Some r => replica_ok r | None => True end → u64_range v.
Proof.
  unfold next_version, u64_checked_add. intros Hv%ok_or_ok Hc. destruct (_ <=? _)%Z eqn:He in Hv; [|done]. injection Hv as <-. zify_bools.
  unfold u64_range. destruct current as [r|]; [|lia]. destruct Hc as [[? ?] _]. lia.
Qed.

(** ** Catching up and asking *)

(** The records of a dump are behind this node's. *)
Definition absorbed (d : D) (text : string) : Prop :=
  ∀ rows recs key r, strip_prefix "DUMP " text = Some rows → decode_dump rows = Ok recs → (key, r) ∈ recs →
    reached (recorded d key) (version r) (committed r).

(** Each of [ids] has been asked for its records, and what it answered is absorbed. *)
Definition caught_up (d : D) (ids : list Z) (new : list exchange) : Prop :=
  ∀ j, j ∈ ids → ∃ a, Exchange j "DUMP" a ∈ new ∧ ∀ text, a = inr text → absorbed d text.

Lemma triple_absorb text :
  triple (λ _, True)
    (match strip_prefix "DUMP " text with
     | None => mret tt
     | Some dump => records ← lift (decode_dump dump); for_each records (λ '(key, record), merge key record)
     end) (λ _ s new, absorbed (db s) text).
Proof.
  destruct (strip_prefix "DUMP " text) as [rows|] eqn:Ht; [|apply triple_ret; intros s _ rows recs key r Hp; congruence].
  eapply (triple_local _ _ _ (λ records _, decode_dump rows = Ok records ∧ True)).
  { apply triple_lift; [intros p; apply decode_dump_safe|]. done. }
  intros records. apply triple_pure. intros Hrec. pose proof (decode_dump_ok rows records Hrec) as Hok. rewrite Forall_forall in Hok.
  eapply triple_conseq; [apply (triple_each records _ (λ p s _, reached (recorded (db s) p.1) (version p.2) (committed p.2)))|done|].
  - intros p s s' n1 new n2 Hr Hnew. by eapply newer_reached.
  - intros [key r] Hin. destruct (Hok _ Hin) as [Hk Hr]. eapply triple_conseq; [by apply triple_merge|done|]. by intros _ s new [? _].
  - cbn. intros _ s new Hall rows' recs key r Ht' Hd Hin. rewrite Ht in Ht'. injection Ht' as <-. rewrite Hrec in Hd. injection Hd as <-.
    exact (Hall _ Hin).
Qed.

Lemma triple_catch_up ids : triple (λ _, True) (catch_up ids) (λ _ s new, caught_up (db s) ids new).
Proof.
  unfold catch_up. apply (triple_each ids _ (λ j s new, ∃ a, Exchange j "DUMP" a ∈ new ∧ ∀ text, a = inr text → absorbed (db s) text)).
  { intros j s s' n1 new n2 (a & Hin & Ha) Hnew. exists a. rewrite !elem_of_app. split; [by right; left|].
    intros text Ht rows recs key r Hp Hd Hrec. eapply newer_reached; [exact Hnew|]. by eapply Ha. }
  intros peer _. eapply triple_bind; [apply (triple_ask (λ _, True))|]. intros a new. cbn.
  apply (triple_conseq (λ s, new = [Exchange peer "DUMP" a] ∧ True) _ _ (λ _ s new', ∃ a, Exchange peer "DUMP" a ∈ new ++ new' ∧ ∀ text, a = inr text → absorbed (db s) text));
    [|by intros s [_ ->]|done].
  apply triple_pure. intros ->. destruct a as [e|text].
  - apply triple_ret. intros s _. exists (inl e). split; [by left|done].
  - eapply triple_conseq; [apply triple_absorb|done|]. cbn. intros _ s new' Ha. exists (inr text). split; [by left|]. by intros ? [= <-].
Qed.

(** Each of [got] answered [q] with OK. *)
Definition said_ok (q : string) (got : list Z) (new : list exchange) : Prop :=
  ∀ j, j ∈ got → Exchange j q (inr "OK") ∈ new.

Lemma triple_ask_all q P ids agreed :
  triple P (ask_all q ids agreed)
    (λ res s new, P s ∧ ∃ got, res = agreed ++ got ∧ sublist got ids ∧ said_ok q got new).
Proof.
  revert P agreed. induction ids as [|peer ids IH]; intros P agreed; cbn [ask_all].
  { apply triple_ret. intros s HP. split; [done|]. exists []. rewrite app_nil_r. split_and!; [done|constructor|by intros j ?%elem_of_nil]. }
  eapply triple_bind; [apply triple_ask|]. intros a new. cbn.
  eapply triple_conseq; [apply (IH _ (if answered a "OK" then agreed ++ [peer] else agreed))|exact (λ s H, H)|].
  cbn. intros res s new' ([HP ->] & got & Hres & Hsub & Hok). split; [done|].
  unfold answered in Hres. case_bool_decide as Ha.
  - exists (peer :: got). split_and!; [by rewrite Hres, <- app_assoc|by constructor|].
    intros j [->|Hj]%elem_of_cons; [rewrite Ha; by left|]. right. by apply Hok.
  - exists got. split_and!; [done|by constructor|]. intros j Hj. right. by apply Hok.
Qed.

Lemma triple_ping_all P b ids alive :
  triple P (ping_all b ids alive) (λ res s _, P s ∧ ∃ got, res = alive ++ got ∧ sublist got ids).
Proof.
  revert P alive. induction ids as [|peer ids IH]; intros P alive; cbn [ping_all].
  { apply triple_ret. intros s HP. split; [done|]. exists []. rewrite app_nil_r. split; [done|constructor]. }
  case_decide.
  { eapply triple_conseq; [apply IH|done|]. cbn. intros res s new (HP & got & -> & Hsub). split; [done|].
    exists got. split; [done|by constructor]. }
  eapply triple_bind; [apply triple_ask|]. intros a new. cbn.
  eapply triple_conseq; [apply (IH _ (if answered a ("PONG " +:+ pretty peer) then alive ++ [peer] else alive))|exact (λ s H, H)|].
  cbn. intros res s new' ([HP ->] & got & Hres & Hsub). split; [done|].
  destruct (answered a _); [exists (peer :: got); rewrite Hres, <- app_assoc|exists got]; (split; [done|by constructor]).
Qed.

(** ** Writes *)

(** [new] has the record [r] staged and then committed by the nodes [A]. *)
Definition staged_committed (key : string) (r : ReplicaValue) (A : list Z) (new : list exchange) : Prop :=
  ∃ n1 n2, new = n1 ++ n2 ∧ said_ok (repl_request key r) A n1 ∧ said_ok (commit_request key (version r)) A n2.

(** A client's write: its key, whether it is a deletion, and its value. *)
Definition write : Type := string * bool * string.
Definition staged_record (w : write) (v : Z) : ReplicaValue := MkReplica v w.1.2 false w.2.

(** A write acknowledged at version [v]: this node holds it, and with the peers
    that staged and committed it makes a majority. *)
Definition acked_by (s : Server D) (w : write) (v : Z) (new : list exchange) : Prop :=
  reached (recorded (db s) w.1.1) v true ∧ is_str w.1.1 ∧ replica_ok (staged_record w v) ∧
  ∃ A, NoDup A ∧ A ⊆ peers s ∧ length (peers s) + 1 < (1 + length A) * 2 ∧
    staged_committed w.1.1 (staged_record w v) A new.

Definition write_result (w : write) (resp : string) (s : Server D) (new : list exchange) : Prop :=
  starts_with resp "OK " = true → ∃ v, resp = "OK " +:+ pretty v ∧ acked_by s w v new.

Lemma triple_frame_peers {A} ps P (m : M (Server D * Net) io_error A) Q :
  triple P m Q → triple (λ s, P s ∧ peers s = ps) m (λ a s new, Q a s new ∧ peers s = ps).
Proof. apply triple_frame. intros s s' Hp _ He _. congruence. Qed.

Lemma triple_replicate_write alive key value tomb :
  is_str key → is_str value →
  triple (λ s, NoDup alive ∧ alive ⊆ peers s) (replicate_write alive key value tomb) (write_result (key, tomb, value)).
Proof.
  intros Hk Hval. unfold replicate_write.
  eapply (triple_local _ _ _ (λ s0 s, (NoDup alive ∧ alive ⊆ peers s0) ∧ peers s = peers s0)).
  { eapply triple_conseq; [apply triple_server|exact (λ s H, H)|]. cbn. naive_solver. }
  intros s0. generalize (peers s0) as ps. intros ps. apply triple_pure. intros [Hnd Hsub].
  eapply (triple_bind _ _ _ (λ _ s _, True ∧ peers s = ps)).
  { eapply triple_conseq; [apply (triple_frame_peers ps), triple_catch_up|done|]. by intros _ s new [_ ?]. }
  intros [] n0.
  eapply (triple_local _ _ _ (λ current s, match current with Some r => replica_ok r | None => True end ∧ peers s = ps)).
  { intros s n r s' n' Hs [_ Hp] Hrun. destruct (triple_read (λ s, peers s = ps) key s n r s' n' Hs Hp Hrun) as (new & ? & Hs' & ? & ? & ? & Hr).
    exists new. split_and!; [done..|]. destruct r as [found| |]; [|done..]. destruct Hr as (Hp' & -> & ->). split; [|done]. split; [|done].
    pose proof (view_recorded (db s') key (proj1 Hs')) as Hv. destruct (view (db s') !! key); [|by rewrite Hv].
    by destruct Hv as (r & -> & _ & ? & _). }
  intros current. apply triple_pure. intros Hcur.
  eapply (triple_local _ _ _ (λ v s, u64_range v ∧ peers s = ps)).
  { apply triple_lift; [intros p; unfold next_version; by destruct (u64_checked_add _ _)|].
    intros s v Hp Hv. split; [|done]. split; [by eapply next_version_ok|done]. }
  intros v. apply triple_pure. intros Hv. set (r := MkReplica v tomb false value).
  eapply triple_bind; [apply (triple_ask_all (repl_request key r) (λ s, peers s = ps) alive [])|].
  intros staged n1.
  apply (triple_conseq (λ s, (sublist staged alive ∧ said_ok (repl_request key r) staged n1) ∧ peers s = ps) _ _
    (λ resp s new, write_result (key, tomb, value) resp s (n0 ++ n1 ++ new))); [|by intros s (Hp & got & -> & ? & ?)|done].
  apply triple_pure. intros [Hstaged Hsaid].
  destruct (_ <=? _); [apply triple_ret; by intros s _ [=]|].
  eapply (triple_local _ _ _ (λ _ s, reached (recorded (db s) key) v true ∧ peers s = ps)).
  { eapply triple_conseq; [apply (triple_frame_peers ps), (triple_merge key (MkReplica v tomb true value)); [done|by split]|done|].
    cbn. intros _ s new [[Hr ->] Hp]. done. }
  intros _. eapply triple_bind; [apply (triple_ask_all (commit_request key v) (λ s, reached (recorded (db s) key) v true ∧ peers s = ps) staged [])|].
  intros acks n2. destruct (Nat.ltb_spec (length ps + 1) ((1 + length acks) * 2)) as [Hmaj|]; [|apply triple_ret; by intros s _ [=]].
  apply triple_ret. intros s ([Hreach Hp] & got & Hgot & Hacks & Hsaid2) _. exists v. split; [done|].
  cbn [app] in Hgot. subst got. split_and!; [done|done|by split|]. exists acks. rewrite Hp. split_and!; [| |done|].
  - eapply sublist_NoDup; [exact Hnd|]. by etrans.
  - intros j Hj. apply Hsub. apply (sublist_subseteq acks staged) in Hj; [|done]. by apply (sublist_subseteq staged alive).
  - exists (n0 ++ n1), n2. rewrite app_nil_r, <- app_assoc. split_and!; [done| |done].
    intros j Hj. apply elem_of_app. right. apply Hsaid. by apply (sublist_subseteq acks staged).
Qed.

Lemma triple_alive P :
  triple P alive_peers (λ alive s _, P s ∧ NoDup alive ∧ alive ⊆ peers s).
Proof.
  unfold alive_peers. eapply (triple_local _ _ _ (λ s0 s, (P s ∧ NoDup (peers s0)) ∧ s = s0)).
  { intros s n r s' n' Hs HP [= <- <- <-]. exists []. rewrite app_nil_r. split_and!; [done..|apply newer_refl|done|apply Hs|done|done]. }
  intros s0. eapply triple_conseq; [apply triple_ping_all|exact (λ s H, H)|].
  cbn. intros alive s new ([[HP Hnd] ->] & got & -> & Hsub). split_and!; [done|by eapply sublist_NoDup|by apply sublist_subseteq].
Qed.

Lemma triple_client_write key value tomb :
  is_str key → is_str value → triple (λ _, True) (client_write key value tomb) (write_result (key, tomb, value)).
Proof.
  intros Hk Hv. unfold client_write.
  apply triple_with_server. intros s0.
  eapply triple_bind; [apply (triple_alive (λ _, True))|]. intros alive n0. cbv zeta.
  destruct (negb _); [apply triple_ret; by intros s _ [=]|]. destruct (_ <=? _); [apply triple_ret; by intros s _ [=]|].
  eapply triple_conseq; [by apply triple_replicate_write|by intros s (_ & ? & ?)|].
  cbn. intros resp s new Hres Hr. destruct (Hres Hr) as (v & Hv' & Hreach & ? & ? & A & ? & ? & ? & (n1 & n2 & -> & H1 & H2)).
  exists v. split; [done|]. split_and!; [done..|]. exists A. split_and!; [done..|]. exists (n0 ++ n1), n2. split_and!; [by rewrite app_assoc| |done].
  intros j Hj. apply elem_of_app. right. by apply H1.
Qed.

(** A response that acknowledges no write. *)
Definition no_ack (resp : string) : Prop := starts_with resp "OK " = false.

(** What a read answers from the record found. *)
Definition read_answer (found : option ReplicaValue) : string :=
  match found with
  | Some r => if committed r && negb (tombstone r) then "VALUE " +:+ Server.hex (as_bytes (value r)) else "NIL"
  | None => "NIL"
  end.

(** A read names another node, has no quorum, or answers after asking a quorum
    for its records. *)
Definition read_result (key resp : string) (s : Server D) (new : list exchange) : Prop :=
  (∃ leader, leader ≠ Server.id s ∧ resp = "REDIRECT " +:+ pretty leader) ∨ resp = "RETRY no-quorum" ∨
  resp = read_answer (recorded (db s) key) ∧
    ∃ alive, NoDup alive ∧ alive ⊆ peers s ∧ length (peers s) / 2 < length alive + 1 ∧ caught_up (db s) alive new.

Lemma triple_client_read key : triple (λ _, True) (client_read key) (read_result key).
Proof.
  unfold client_read, server. eapply (triple_local _ _ _ (λ s0 s, s0 = s)).
  { apply triple_stay. intros s n _ _. by eexists. }
  intros s0. eapply triple_bind; [apply triple_alive|]. intros alive n0. cbv zeta.
  destruct (Z.eqb_spec (leader_of alive (Server.id s0)) (Server.id s0)) as [_|Hl]; cbn [negb].
  2: { apply triple_ret. intros s (-> & _). left. by eexists. }
  destruct (Nat.leb_spec (length alive + 1) (length (peers s0) / 2)) as [|Hq]; [apply triple_ret; by right; left|].
  apply (triple_conseq (λ s, (NoDup alive ∧ alive ⊆ peers s0) ∧ (True ∧ peers s = peers s0)) _ _ (λ resp s new, read_result key resp s (n0 ++ new)));
    [|by intros s (-> & ? & ?)|done].
  apply triple_pure. intros [Hnd Hsub].
  eapply triple_bind; [apply (triple_frame_peers (peers s0)), triple_catch_up|]. intros [] n1.
  eapply triple_bind; [apply triple_read|]. intros found n2. cbn.
  assert (∀ resp, resp = read_answer found → triple (λ s, (caught_up (db s) alive n1 ∧ peers s = peers s0) ∧ found = recorded (db s) key ∧ n2 = [])
    (mret resp) (λ b s new', read_result key b s (n0 ++ n1 ++ n2 ++ new'))) as Hret.
  { intros resp ->. apply triple_ret. intros s ([Hc Hp] & -> & _). right. right. split; [done|]. exists alive. rewrite Hp. split_and!; [done..|].
    intros j Hj. destruct (Hc j Hj) as (a & Hin & Ha). exists a. split; [|done]. rewrite !elem_of_app. by right; left. }
  destruct found as [r|]; [|by apply Hret]. unfold read_answer in Hret. destruct (committed r && negb (tombstone r)); by apply Hret.
Qed.

Lemma read_result_no_ack key resp s new : read_result key resp s new → no_ack resp.
Proof. intros [(l & _ & ->)|[->|[-> _]]]; [done..|]. destruct (recorded _ _) as [r|]; [|done]. cbn. by destruct (_ && _). Qed.

(** ** Dumps *)

(** The committed records of a store, in the order of their keys. *)
Definition committed_rows (d : D) : list (string * ReplicaValue) :=
  omap (λ key, r ← recorded d key; if (committed r : bool) then Some (key, r) else None) (btree_keys (view d)).

Lemma dump_rows_run s n keys rows :
  good s → Forall (λ key, is_Some (view (db s) !! key)) keys →
  dump_rows keys rows (s, n) =
  (Ok (rows ++ ((λ p, Server.encode_row p.1 p.2) <$>
     omap (λ key, r ← recorded (db s) key; if (committed r : bool) then Some (key, r) else None) keys)), (s, n)).
Proof.
  intros Hs Hkeys. induction Hkeys as [|key keys [text Hk] _ IH] in rows |- *; cbn [dump_rows].
  { cbn. by rewrite app_nil_r. }
  rewrite (M_bind_run _ _ _ _ _ (read_record_run s n key Hs)).
  pose proof (view_recorded (db s) key (proj1 Hs)) as Hv. rewrite Hk in Hv. destruct Hv as (r & Hr & _).
  cbn [omap list_omap]. rewrite Hr. cbn [ok_or mbind option_bind]. run_steps.
  destruct (committed r); cbn [negb]; rewrite IH; [|done]. by rewrite <- app_assoc.
Qed.

Lemma dump_run s n :
  good s →
  dump (s, n) = (Ok (of_bytes (join ";"%char ((λ p, Server.encode_row p.1 p.2) <$> committed_rows (db s)))), (s, n)).
Proof.
  intros Hs. unfold dump, server. rewrite run_bind. run_steps. cbn [fst].
  rewrite law_db_keys by apply Hs. run_steps. erewrite M_bind_run; [|apply dump_rows_run; [done|]]; [done|].
  apply Forall_forall. intros key Hk. by apply elem_of_btree_keys.
Qed.

Lemma committed_rows_ok d : records_ok d → Forall (λ p, is_str p.1 ∧ replica_ok p.2) (committed_rows d).
Proof.
  intros Hd. apply Forall_forall. intros [key r] (key' & _ & Hr)%list_elem_of_omap. pose proof (view_recorded d key' Hd) as Hv.
  destruct (recorded d key') as [r'|] eqn:Hrec; [|done]. cbn in Hr. destruct (committed r'); [|done]. injection Hr as -> ->.
  destruct (view d !! key); [|done]. by destruct Hv as (r'' & [= <-] & _ & ? & ?).
Qed.

(** ** Requests *)

Lemma triple_handle_repl key v t x : triple (λ _, True) (handle_repl key v t x) (λ resp _ _, no_ack resp).
Proof.
  unfold handle_repl.
  eapply (triple_local _ _ _ (λ k _, is_str k)).
  { apply triple_lift; [intros p; apply unhex_string_safe|]. intros s k _ [? _]%unhex_string_ok. done. }
  intros k. eapply (triple_local _ _ _ (λ x _, (is_str k ∧ is_str x) ∧ True)).
  { apply triple_lift; [intros p; apply unhex_string_safe|]. intros s x' ? [? _]%unhex_string_ok. done. }
  intros x'. apply triple_pure. intros [Hk Hx].
  eapply (triple_local _ _ _ (λ v _, u64_range v ∧ True)).
  { apply triple_lift; [intros p; apply parse_u64_safe|]. intros s v' _ ?%parse_u64_range. done. }
  intros v'. apply triple_pure. intros Hv.
  eapply (triple_local _ _ _ (λ _ _, True)); [by apply triple_lift; [intros p; apply parse_bool_safe|]|].
  intros t'. eapply (triple_local _ _ _ (λ _ _, True)).
  { eapply triple_conseq; [by apply triple_merge; [|split]|done|]. by intros ? ? ? [_ ->]. }
  intros _. apply triple_ret. by intros s _.
Qed.

Lemma triple_handle_commit key v : triple (λ _, True) (handle_commit key v) (λ resp _ _, no_ack resp).
Proof.
  unfold handle_commit.
  eapply (triple_local _ _ _ (λ k _, is_str k ∧ True)).
  { apply triple_lift; [intros p; apply unhex_string_safe|]. intros s k _ [? _]%unhex_string_ok. done. }
  intros k. apply triple_pure. intros Hk.
  eapply (triple_local _ _ _ (λ _ _, True)); [by apply triple_lift; [intros p; apply parse_u64_safe|]|]. intros v'.
  eapply (triple_local _ _ _ (λ found s, found = recorded (db s) k)).
  { eapply triple_conseq; [apply triple_read|exact (λ s H, H)|]. naive_solver. }
  intros found. eapply (triple_local _ _ _ (λ _ _, True)); [|intros _; apply triple_ret; by intros s _].
  destruct found as [r|]; [|by apply triple_ret]. destruct (_ =? _)%Z; [|by apply triple_ret].
  intros s n res s' n' Hs Hr Hrun. assert (replica_ok r) as Hok.
  { pose proof (view_recorded (db s) k (proj1 Hs)) as Hv. rewrite <- Hr in Hv.
    destruct (view (db s) !! k); [|done]. by destruct Hv as (r' & [= <-] & _ & ? & _). }
  refine (triple_conseq _ (λ s, Some r = recorded (db s) k) _ _ _ (triple_put k (MkReplica (version r) (tombstone r) true (value r)) Hk Hok) _ _ s n res s' n' Hs Hr Hrun).
  - intros s1 <-. cbn. right. split; [done|]. by intros _.
  - by intros ? ? ? [_ ->].
Qed.

(** The write a request asks for. *)
Definition unhexed (word : string) : option string :=
  match unhex_string Server.invalid word with Ok text => Some text | _ => None end.
Definition words_write (words : list string) : option write :=
  match words with
  | [c; a] => if bool_decide (c = "DELETE") then key ← unhexed a; Some (key, true, "") else None
  | [c; a; b] => if bool_decide (c = "PUT") then key ← unhexed a; value ← unhexed b; Some (key, false, value) else None
  | _ => None
  end.
Definition request_words (request : bytes) : list string :=
  match from_utf8 request (Server.invalid "cluster: request is not UTF-8") with
  | Ok text => split_whitespace text
  | _ => []
  end.
Definition written (request : bytes) : option write := words_write (request_words request).

(** A response, and what it acknowledges. *)
Definition response_ok (w : option write) (resp : string) (s : Server D) (new : list exchange) : Prop :=
  starts_with resp "OK " = true → ∃ v x, resp = "OK " +:+ pretty v ∧ w = Some x ∧ acked_by s x v new.

Lemma no_ack_ok key resp s new : no_ack resp → response_ok key resp s new.
Proof. unfold no_ack. intros H Hr. congruence. Qed.

Lemma triple_plain P resp key : no_ack resp → triple P (mret resp) (response_ok key).
Proof. intros Hn. apply triple_ret. intros s _. by apply no_ack_ok. Qed.

Lemma triple_unhex a key (f : string → M (Server D * Net) io_error string) :
  (∀ k, unhex_string Server.invalid a = Ok k → is_str k → triple (λ _, True) (f k) (response_ok key)) →
  triple (λ _, True) (k ← lift (unhex_string Server.invalid a); f k) (response_ok key).
Proof.
  intros Hf. eapply (triple_local _ _ _ (λ k _, (unhex_string Server.invalid a = Ok k ∧ is_str k) ∧ True)).
  { apply triple_lift; [intros p; apply unhex_string_safe|]. intros s k _ Hk. pose proof Hk as [? _]%unhex_string_ok. done. }
  intros k. apply triple_pure. intros [Hk Hs]. by apply Hf.
Qed.

Lemma triple_write_response words k value tomb :
  words_write words = Some (k, tomb, value) → is_str k → is_str value →
  triple (λ _, True) (client_write k value tomb) (response_ok (words_write words)).
Proof.
  intros Hw Hk Hv. eapply triple_conseq; [by apply triple_client_write|done|].
  cbn. intros resp s new Hres Hr. destruct (Hres Hr) as (v & ? & ?). by exists v, (k, tomb, value).
Qed.

Lemma triple_handle_words words : triple (λ _, True) (handle_words words) (response_ok (words_write words)).
Proof.
  unfold handle_words, unknown_request. destruct words as [|c [|a [|b [|d [|e [|? ?]]]]]]; try apply triple_fail.
  - apply triple_with_server. intros s0. case_decide; [by apply triple_plain|]. case_decide.
    { intros s n r s' n' Hs _ Hrun. rewrite (M_bind_run _ _ _ _ _ (dump_run s n Hs)) in Hrun. injection Hrun as <- <- <-.
      exists []. rewrite app_nil_r. split_and!; [done..|apply newer_refl|by apply no_ack_ok]. }
    case_decide; [|apply triple_fail].
    eapply (triple_local _ _ _ (λ _ _, True)); [|intros _; by apply triple_plain].
    eapply triple_conseq; [apply (triple_blocked (λ _, True) (λ _, ∅))|done|done].
  - case_decide; [|case_decide; [|case_decide; [|apply triple_fail]]].
    + apply triple_unhex. intros k Hk Hs. apply triple_write_response; [|done|done]. cbn. unfold unhexed. by rewrite bool_decide_true, Hk.
    + apply triple_unhex. intros k _ _. eapply triple_conseq; [apply triple_client_read|done|]. intros. by eapply no_ack_ok, read_result_no_ack.
    + eapply (triple_local _ _ _ (λ _ _, True)); [by apply triple_lift; [intros p; apply parse_u64_safe|]|].
      intros peer. eapply (triple_local _ _ _ (λ _ _, True)); [|intros _; by apply triple_plain].
      eapply triple_conseq; [apply (triple_blocked (λ _, True) (λ s, {[peer]} ∪ blocked s))|done|done].
  - case_decide; [|case_decide; [|apply triple_fail]].
    + eapply triple_conseq; [apply triple_handle_commit|done|]. intros. by apply no_ack_ok.
    + apply triple_unhex. intros k Hk Hs. eapply (triple_local _ _ _ (λ x _, (unhex_string Server.invalid b = Ok x ∧ is_str x) ∧ True)).
      { apply triple_lift; [intros p; apply unhex_string_safe|]. intros s x _ Hx. pose proof Hx as [Hxs _]%unhex_string_ok.
        split; [|done]. split; [exact (conj Hx Hxs)|done]. }
      intros x. apply triple_pure. intros [Hx Hxs]. apply triple_write_response; [|done|done]. cbn. unfold unhexed.
      by rewrite bool_decide_true, Hk, Hx.
  - case_decide; [|apply triple_fail].
    eapply triple_conseq; [apply triple_handle_repl|done|]. intros. by apply no_ack_ok.
Qed.

Lemma triple_handle request : triple (λ _, True) (handle request) (response_ok (written request)).
Proof.
  unfold handle, written, request_words. destruct (from_utf8 request _) as [text|e|p] eqn:Hu.
  - intros s n r s' n' Hs _ Hrun. rewrite run_lift_ok in Hrun. by apply (triple_handle_words _ s n).
  - intros s n r s' n' Hs _ Hrun. rewrite run_lift_err in Hrun. by apply (triple_fail (λ _, True) e _ s n r s' n').
  - unfold from_utf8 in Hu. by destruct (utf8_valid request).
Qed.

(** ** What a peer does with the requests of a write *)

Lemma handle_joined ws (s : Server D * Net) :
  Forall (λ w, plain (as_bytes w)) ws →
  handle (as_bytes (of_bytes (join " "%char (as_bytes <$> ws)))) s
  = handle_words (List.filter (λ w, negb (bool_decide (w = ""))) ws) s.
Proof.
  intros Hws. unfold handle. rewrite from_utf8_as_bytes by (by apply words_str). rewrite run_lift_ok. by rewrite words_join.
Qed.

Lemma keep_word w ws :
  List.filter (λ w, negb (bool_decide (w = ""))) (w :: ws)
  = if bool_decide (w = "") then List.filter (λ w, negb (bool_decide (w = ""))) ws
    else w :: List.filter (λ w, negb (bool_decide (w = ""))) ws.
Proof. cbn. by destruct (bool_decide (w = "")). Qed.

Lemma hex_word_empty t : bool_decide (Server.hex (as_bytes t) = "") = bool_decide (t = "").
Proof.
  apply bool_decide_ext. split; [|by intros ->]. intros H%(f_equal as_bytes). by apply hex_empty in H.
Qed.
Lemma number_word v : u64_range v → bool_decide (pretty v = "") = false.
Proof. intros Hv. apply bool_decide_false. destruct (plain_digits v Hv) as (_ & Hne & _). intros He. by rewrite He in Hne. Qed.
Lemma bool_word b : bool_decide (show_bool b = "") = false.
Proof. by destruct b. Qed.

(** An empty key or value is no word: the request is then unknown. *)
Lemma handle_repl_request key r (s : Server D * Net) :
  is_str key → replica_ok r →
  handle (as_bytes (repl_request key r)) s =
  (if bool_decide (key = "") || bool_decide (value r = "") then unknown_request
   else _ ← merge key (MkReplica (version r) (tombstone r) false (value r)); mret "OK") s.
Proof.
  intros Hk Hr. rewrite repl_request_words, handle_joined by (by apply repl_words_plain). unfold repl_words.
  rewrite !keep_word, !hex_word_empty, number_word, bool_word by apply Hr. rewrite (bool_decide_false ("REPL" = "")) by done.
  destruct (bool_decide (key = "")), (bool_decide (value r = "")); cbn [orb]; try reflexivity.
  cbn [handle_words List.filter]. rewrite decide_True by done. unfold handle_repl.
  rewrite (unhex_string_hex _ key Hk), run_lift_ok, (unhex_string_hex _ (value r) (proj2 Hr)), run_lift_ok.
  rewrite parse_u64_pretty by apply Hr. rewrite run_lift_ok, parse_bool_show, run_lift_ok. done.
Qed.

Lemma handle_commit_request key v (s : Server D * Net) :
  is_str key → u64_range v →
  handle (as_bytes (commit_request key v)) s =
  (if bool_decide (key = "") then unknown_request else handle_commit (Server.hex (as_bytes key)) (pretty v)) s.
Proof.
  intros Hk Hv. rewrite commit_request_words, handle_joined by (by apply commit_words_plain). unfold commit_words.
  rewrite !keep_word, hex_word_empty, number_word by done. rewrite (bool_decide_false ("COMMIT" = "")) by done.
  by destruct (bool_decide (key = "")).
Qed.

Lemma respond_ok request (s s' : Server D) n n' :
  respond request (s, n) = (Ok "OK", (s', n')) → handle request (s, n) = (Ok "OK", (s', n')).
Proof. unfold respond. destruct (handle request (s, n)) as [[a|e|p] st]; [done|by intros [=]|done]. Qed.

Lemma repl_answered key r s n s' n' :
  good s → is_str key → replica_ok r → respond (as_bytes (repl_request key r)) (s, n) = (Ok "OK", (s', n')) →
  value r ≠ "" ∧ reached (recorded (db s') key) (version r) false.
Proof.
  intros Hs Hk Hr Hrun%respond_ok. rewrite handle_repl_request in Hrun by done.
  destruct (bool_decide (key = "")); [done|]. destruct (bool_decide (value r = "")) eqn:Hv; [done|]. split; [by apply bool_decide_eq_false in Hv|].
  cbn [orb] in Hrun. apply M_bind_ok in Hrun as ([] & [s1 n1] & Hm & [= -> ->]).
  destruct (triple_merge key (MkReplica (version r) (tombstone r) false (value r)) Hk Hr s n _ _ _ Hs I Hm) as (new & _ & _ & _ & _ & _ & Hreach & _).
  exact Hreach.
Qed.

Lemma commit_answered key v s n s' n' :
  good s → is_str key → u64_range v → reached (recorded (db s) key) v false →
  respond (as_bytes (commit_request key v)) (s, n) = (Ok "OK", (s', n')) → reached (recorded (db s') key) v true.
Proof.
  intros Hs Hk Hv Hreach Hrun%respond_ok. rewrite handle_commit_request in Hrun by done.
  destruct (bool_decide (key = "")); [done|]. unfold handle_commit in Hrun.
  rewrite (unhex_string_hex _ key Hk), run_lift_ok, (parse_u64_pretty v Hv), run_lift_ok in Hrun.
  rewrite (M_bind_run _ _ _ _ _ (read_record_run s n key Hs)) in Hrun. destruct (recorded (db s) key) as [r|] eqn:Hrec; [|done].
  apply M_bind_ok in Hrun as ([] & [s1 n1] & Hm & [= -> ->]). cbn in Hreach. destruct (Z.eqb_spec (version r) v) as [He|Hne].
  - assert (replica_ok r) as Hok.
    { pose proof (view_recorded (db s) key (proj1 Hs)) as Hview. rewrite Hrec in Hview.
      destruct (view (db s) !! key); [|done]. by destruct Hview as (r' & [= <-] & _ & ? & _). }
    assert (not_older (recorded (db s) key) (Some (MkReplica (version r) (tombstone r) true (value r)))) as Hold.
    { rewrite Hrec. right. split; [done|]. by intros _. }
    destruct (triple_put key (MkReplica (version r) (tombstone r) true (value r)) Hk Hok s n _ _ _ Hs Hold Hm) as (new & _ & _ & _ & _ & _ & -> & _). right. by split.
  - injection Hm as <- <-. rewrite Hrec. cbn. left. lia.
Qed.

(** [run] always has a response to send. *)
Lemma triple_respond request :
  triple (λ _, True) (respond request) (response_ok (written request)).
Proof.
  intros s n r s' n' Hs _ Hrun. unfold respond in Hrun. destruct (handle request (s, n)) as [r1 [s1 n1]] eqn:H1.
  destruct (triple_handle request s n r1 s1 n1 Hs I H1) as (new & Hn & Hs1 & Hi & Hp & Hnew & Hr). exists new.
  destruct r1 as [resp|e|p]; injection Hrun as <- <- <-; split_and!; try done.
Qed.

Lemma respond_total request s n :
  good s → ∃ resp s' n' new, respond request (s, n) = (Ok resp, (s', n')) ∧ asked n' = asked n ++ new ∧
    good s' ∧ Server.id s' = Server.id s ∧ peers s' = peers s ∧ newer (db s) (db s') ∧
    response_ok (written request) resp s' new.
Proof.
  intros Hs. destruct (respond request (s, n)) as [r [s' n']] eqn:Hrun.
  destruct (triple_respond request s n r s' n' Hs I Hrun) as (new & Hn & Hs' & Hi & Hp & Hnew & Hr).
  assert (∃ resp, r = Ok resp) as [resp ->].
  { unfold respond in Hrun. destruct (handle request (s, n)) as [[a|e|p] st]; injection Hrun as <- _; [eauto|eauto|done]. }
  by exists resp, s', n', new.
Qed.
End laws.

(** ** The durable store keeps the contract *)

Definition store_view (s : Store) : gmap string string :=
  match BTree.entries (data s) with Ok es => list_to_map es | _ => ∅ end.
Definition store_holds (s : Store) : Prop := ∃ m, holds_map (data s) m.

Lemma store_view_holds s m : holds_map (data s) m → store_view s = m.
Proof.
  intros [Hr _]. unfold store_view. rewrite (answers_entries _ _ (represents_answers _ _ Hr)).
  apply map_eq. intros k. destruct (m !! k) as [v|] eqn:Hk.
  - apply elem_of_list_to_map_1; [apply NoDup_btree_keys|]. by apply elem_of_btree_iter.
  - apply not_elem_of_list_to_map_1. intros Hin. apply elem_of_btree_keys in Hin as [v Hv]. congruence.
Qed.

Lemma append_safe p f s : fst (append p f) ≠ Panic s.
Proof.
  destruct f as [x c y env rd]. unfold append, u32_try_from. destruct (_ <=? _)%Z; [|by rewrite run_lift_err].
  rewrite run_lift_ok. cbv zeta. destruct env as [|[|n e] env]; unfold write_all, next_sys, mbind, M_bind; cbn; done.
Qed.
Lemma sync_safe f s : fst (sync f) ≠ Panic s.
Proof. by destruct f as [x c y [|[|n e] env] rd]. Qed.

#[export] Instance store_records_laws : RecordsLaws Store store_view store_holds.
Proof.
  split.
  - intros s key [m Hm]. rewrite (store_view_holds s m Hm). cbn. by apply (answers_get _ _ (represents_answers _ _ (hm_rep _ _ Hm))).
  - intros s [m Hm]. rewrite (store_view_holds s m Hm). cbn. by apply (answers_keys _ _ (represents_answers _ _ (hm_rep _ _ Hm))).
  - intros s key value [m Hm] Hk Hv. cbn [db_set store_records]. unfold Store.set, apply, on_wal, zoom.
    destruct (append (encode (CSet key value)) (wal s)) as [r1 f1] eqn:H1. pose proof (append_safe (encode (CSet key value)) (wal s)) as Hp1.
    rewrite H1 in Hp1. cbn [fst] in Hp1.
    destruct r1 as [[]|e|p]; [|exists (set_wal f1 s); split; [by exists m|]; right; exists e; split; [by rewrite (M_bind_err _ _ _ e (set_wal f1 s)) by (by rewrite H1)|done]|by destruct (Hp1 p)].
    erewrite M_bind_run by (rewrite H1; reflexivity). destruct (sync (wal (set_wal f1 s))) as [r2 f2] eqn:H2.
    pose proof (sync_safe (wal (set_wal f1 s))) as Hp2. rewrite H2 in Hp2. cbn [fst] in Hp2.
    destruct r2 as [[]|e|p]; [|exists (set_wal f2 (set_wal f1 s)); split; [by exists m|]; right; exists e; split; [by rewrite (M_bind_err _ _ _ e (set_wal f2 (set_wal f1 s))) by (by rewrite H2)|done]|by destruct (Hp2 p)].
    erewrite M_bind_run by (rewrite H2; reflexivity). unfold on_data, zoom. cbn [data set_wal].
    destruct (apply_memory_spec (CSet key value) (data s) m) as (t & Ht & Htm); [by split|done|]. rewrite Ht.
    exists (set_data t (set_wal f2 (set_wal f1 s))). split; [by exists (<[key:=value]> m)|]. left. split; [done|].
    rewrite (store_view_holds s m Hm). by apply store_view_holds.
Qed.

(** ** Properties of a node *)

Section properties.
Context {D : Type} {HRecords : Records D} {view : D → gmap string string} {ok : D → Prop} {HL : RecordsLaws D view ok}.
Abbreviation recorded := (recorded (view := view)).
Abbreviation good := (good (view := view) (ok := ok)).

(** Requests one after another, each with the answers its own requests get. *)
Fixpoint serve_all (s : Server D) (requests : list (bytes * list answer)) : list (io string) * Server D :=
  match requests with
  | [] => ([], s)
  | (request, answers) :: rest =>
    let '(r, (s', _)) := respond request (s, MkNet [] answers) in
    let '(rs, s'') := serve_all s' rest in (r :: rs, s'')
  end.

(** C16. Records never go back.  Whatever requests a node serves, whatever its
    peers answer to its own, and whichever writes to its log fail, it always has
    a response to send, and what it holds under each key afterwards is of a
    greater version than before, or of the same version, and then, when the old
    record was committed, it is the very same record. *)
Theorem records_never_go_back s requests responses s' :
  good s → serve_all s requests = (responses, s') →
  Forall (λ r, is_ok r = true) responses ∧ good s' ∧
  ∀ key old, recorded (db s) key = Some old →
    ∃ new, recorded (db s') key = Some new ∧
      ((version old < version new)%Z ∨ version new = version old ∧ (committed old = true → new = old)).
Proof.
  intros Hs Hrun. assert (Forall (λ r, is_ok r = true) responses ∧ good s' ∧ newer (view := view) (db s) (db s')) as (Hr & Hs' & Hnew).
  { revert s responses Hs Hrun. induction requests as [|[request answers] rest IH]; intros s responses Hs; cbn [serve_all].
    - intros [= <- <-]. split_and!; [constructor|done|apply newer_refl].
    - destruct (respond_total request s (MkNet [] answers) Hs) as (resp & s1 & n1 & new & -> & _ & Hs1 & _ & _ & Hnew & _).
      destruct (serve_all s1 rest) as [rs s2] eqn:Hrest. intros [= <- <-].
      destruct (IH s1 rs Hs1 Hrest) as (Hrs & Hs2 & Hnew2). split_and!; [by constructor|done|by eapply newer_trans]. }
  split_and!; [done..|]. intros key old Hold. specialize (Hnew key). rewrite Hold in Hnew.
  destruct (recorded (db s') key) as [new|]; [|done]. exists new. split; [done|].
  destruct Hnew as [Hv|[Hv Hc]]; [by left|]. right. split; [done|]. intros Ho. destruct (Hc Ho) as (? & ? & ?).
  destruct old, new. cbn in *. congruence.
Qed.

(** A node's dump reads back as exactly its committed records, in the order
    of their keys. *)
Theorem dump_round_trip s n :
  good s →
  ∃ text, dump (s, n) = (Ok text, (s, n)) ∧ decode_dump text = Ok (committed_rows (view := view) (db s)).
Proof.
  intros Hs. eexists. split; [by apply dump_run|]. apply decode_join_rows. by apply (committed_rows_ok (ok := ok)), Hs.
Qed.
End properties.

Definition sample_server : Server (gmap string string) :=
  MkServer 1 [2; 3]%Z ∅ {["k" := encode_record (MkReplica 3 false true "old")]}.

Lemma sample_server_good : good (view := Datatypes.id) (ok := λ _, True) sample_server.
Proof.
  split; [|repeat constructor; set_solver]. split; [done|]. intros key s.
  change (Datatypes.id (db sample_server)) with ({["k" := encode_record (MkReplica 3 false true "old")]} : gmap string string).
  intros [<- <-]%lookup_singleton_Some. split; [done|]. exists (MkReplica 3 false true "old"). split; [|done].
  split; [by split; vm_compute|done].
Qed.

(** PUT k new, with both peers answering, then a stale replica of the old value. *)
Definition sample_requests : list (bytes * list answer) :=
  [(as_bytes "PUT 6b 6e6577", inr <$> ["PONG 2"; "PONG 3"; "DUMP "; "DUMP "; "OK"; "OK"; "OK"; "OK"]);
   (as_bytes "REPL 6b 2 0 6f6c64", [])].

Lemma records_never_go_back_witness :
  good (view := Datatypes.id) (ok := λ _, True) sample_server ∧
  fst (serve_all sample_server sample_requests) = [Ok "OK 4"; Ok "OK"] ∧
  recorded (view := Datatypes.id) (db (snd (serve_all sample_server sample_requests))) "k" = Some (MkReplica 4 false true "new") ∧
  Forall (λ r : io string, is_ok r = true) (fst (serve_all sample_server sample_requests)) ∧
  good (view := Datatypes.id) (ok := λ _, True) (snd (serve_all sample_server sample_requests)) ∧
  ∀ key old, recorded (view := Datatypes.id) (db sample_server) key = Some old →
    ∃ new, recorded (view := Datatypes.id) (db (snd (serve_all sample_server sample_requests))) key = Some new ∧
      ((version old < version new)%Z ∨ version new = version old ∧ (committed old = true → new = old)).
Proof.
  split; [exact sample_server_good|]. split; [vm_compute; reflexivity|]. split; [vm_compute; reflexivity|].
  exact (records_never_go_back (view := Datatypes.id) (ok := λ _, True) sample_server sample_requests _ _ sample_server_good
    (surjective_pairing (serve_all sample_server sample_requests))).
Defined.

Lemma dump_round_trip_witness :
  good (view := Datatypes.id) (ok := λ _, True) sample_server ∧
  ∃ text, dump (sample_server, MkNet [] []) = (Ok text, (sample_server, MkNet [] [])) ∧
    decode_dump text = Ok (committed_rows (view := Datatypes.id) (db sample_server)).
Proof.
  exact (conj sample_server_good (dump_round_trip (view := Datatypes.id) (ok := λ _, True) sample_server (MkNet [] []) sample_server_good)).
Defined.
