(* ===== verification/TcpCluster.v ===== *)
(** The TCP cluster: several nodes of Server.v, and what an acknowledged write
    means for them.

    Every node serves one request at a time.  While it does, its own requests to
    its peers are handled by them one by one, between whatever else they serve;
    an answer that does not arrive in time may belong to a request that is
    handled later, or never.  The answers an operation gets are fixed when it
    starts ([b_answers]), and each of its steps then has to be what happens: the
    peer gives that very answer, or the answer is lost.  A node may stop at any
    moment, even in the middle of a request, and come back with what its store
    kept. *)

From stdpp Require Import gmap.
From Stdlib Require Import Ascii.
From S2P Require Import Prelude Bytes Catalog Words Server ServerText ServerSpec.

(** A request being served: its text, the answers to come, and how many of the
    node's own requests are behind it. *)
Record Busy : Type := MkBusy { b_request : bytes; b_answers : list answer; b_done : nat }.

Record Cluster (D : Type) : Type := MkCluster {
  nodes : gmap Z (Server D);
  busy : gmap Z Busy;
  posted : list (Z * bytes);            (* requests whose answer was lost *)
  answered_to : list (bytes * string);  (* client requests and their responses *)
}.
Arguments MkCluster {_} _ _ _ _.
Arguments nodes {_} _.
Arguments busy {_} _.
Arguments posted {_} _.
Arguments answered_to {_} _.

Inductive event : Type :=
| Accept (i : Z) (request : bytes) (answers : list answer)  (* node i starts to serve a request *)
| Exchanged (i : Z)                                         (* its next request is answered, or lost *)
| Late (k : nat)                                            (* a lost request is handled after all *)
| Finish (i : Z).                                           (* the response is sent *)

Section cluster.
Context {D : Type} {HRecords : Records D}.

Definition run_busy (s : Server D) (b : Busy) : io string * (Server D * Net) :=
  respond (b_request b) (s, MkNet [] (b_answers b)).
Definition own_requests (s : Server D) (b : Busy) : list exchange := asked (snd (snd (run_busy s b))).

(** An idle node handles a request that needs no requests of its own. *)
Definition handles (c : Cluster D) (j : Z) (request : bytes) : option (string * Cluster D) :=
  match busy c !! j, nodes c !! j with
  | None, Some s =>
    match respond request (s, MkNet [] []) with
    | (Ok text, (s', n)) =>
      if decide (asked n = []) then Some (text, MkCluster (<[j := s']> (nodes c)) (busy c) (posted c) (answered_to c)) else None
    | _ => None
    end
  | _, _ => None
  end.

Definition advance_busy (i : Z) (b : Busy) (c : Cluster D) : Cluster D :=
  MkCluster (nodes c) (<[i := MkBusy (b_request b) (b_answers b) (S (b_done b))]> (busy c)) (posted c) (answered_to c).
Definition post (j : Z) (request : bytes) (c : Cluster D) : Cluster D :=
  MkCluster (nodes c) (busy c) (posted c ++ [(j, request)]) (answered_to c).

Definition exec (c : Cluster D) (e : event) : option (Cluster D) :=
  match e with
  | Accept i request answers =>
    match busy c !! i, nodes c !! i with
    | None, Some _ => Some (MkCluster (nodes c) (<[i := MkBusy request answers 0]> (busy c)) (posted c) (answered_to c))
    | _, _ => None
    end
  | Exchanged i =>
    b ← busy c !! i;
    s ← nodes c !! i;
    x ← own_requests s b !! b_done b;
    match x_answer x with
    | inl _ => Some (advance_busy i b (post (x_peer x) (as_bytes (x_request x)) c))
    | inr text =>
      '(text', c') ← handles c (x_peer x) (as_bytes (x_request x));
      if decide (text = text') then Some (advance_busy i b c') else None
    end
  | Late k =>
    '(j, request) ← posted c !! k;
    '(_, c') ← handles c j request;
    Some c'
  | Finish i =>
    b ← busy c !! i;
    s ← nodes c !! i;
    if decide (b_done b = length (own_requests s b)) then
      match run_busy s b with
      | (Ok resp, (s', _)) =>
        Some (MkCluster (<[i := s']> (nodes c)) (base.delete i (busy c)) (posted c) (answered_to c ++ [(b_request b, resp)]))
      | _ => None
      end
    else None
  end.

Fixpoint exec_all (c : Cluster D) (es : list event) : option (Cluster D) :=
  match es with [] => Some c | e :: es => c' ← exec c e; exec_all c' es end.

(** Node [i] stops and comes back with the store [d]. *)
Definition restart (i : Z) (s : Server D) (d : D) (c : Cluster D) : Cluster D :=
  MkCluster (<[i := MkServer (Server.id s) (peers s) ∅ d]> (nodes c)) (base.delete i (busy c)) (posted c) (answered_to c).
End cluster.

Section safety.
Context {D : Type} {HRecords : Records D} {view : D → gmap string string} {ok : D → Prop} {HL : RecordsLaws D view ok}.
Abbreviation recorded := (recorded (view := view)).
Abbreviation newer := (newer (view := view)).
Abbreviation good := (good (view := view) (ok := ok)).

(** A cluster of the nodes [members]: each knows the others. *)
Definition member (members : gset Z) (i : Z) (s : Server D) : Prop :=
  good s ∧ Server.id s = i ∧ list_to_set (peers s) = members ∖ {[i]}.
Definition nodes_ok (members : gset Z) (c : Cluster D) : Prop :=
  dom (nodes c) = members ∧ map_Forall (member members) (nodes c).

(** What can happen from a cluster at rest.  A restarted node's store holds
    every record it held before at least as new (see StoreSpec.v). *)
Inductive reachable (c0 : Cluster D) : Cluster D → Prop :=
| Reach_start : reachable c0 c0
| Reach_event c e c' : reachable c0 c → exec c e = Some c' → reachable c0 c'
| Reach_restart c i s d :
    reachable c0 c → nodes c !! i = Some s → records_ok (view := view) (ok := ok) d → newer (db s) d →
    reachable c0 (restart i s d c).

Definition at_rest (c : Cluster D) : Prop := busy c = ∅ ∧ posted c = [] ∧ answered_to c = [].

(** ** Progress is never undone *)

Definition grows (c c' : Cluster D) : Prop :=
  ∀ j s, nodes c !! j = Some s → ∃ s', nodes c' !! j = Some s' ∧ newer (db s) (db s').

Lemma grows_self c : grows c c.
Proof. intros j s Hs. exists s. split; [done|apply newer_refl]. Qed.

Lemma cluster_grows_trans c c' c'' : grows c c' → grows c' c'' → grows c c''.
Proof.
  intros H H' j s Hs. destruct (H j s Hs) as (s' & Hs' & Hn). destruct (H' j s' Hs') as (s'' & Hs'' & Hn').
  exists s''. split; [done|]. by eapply newer_trans.
Qed.

(** Node [j] holds at least version [v] under [key]. *)
Definition holds (c : Cluster D) (j : Z) (key : string) (v : Z) (committed : bool) : Prop :=
  ∃ s, nodes c !! j = Some s ∧ reached (recorded (db s) key) v committed.

Lemma holds_grows c c' j key v b : grows c c' → holds c j key v b → holds c' j key v b.
Proof.
  intros Hg (s & Hs & Hr). destruct (Hg j s Hs) as (s' & Hs' & Hn). exists s'. split; [done|].
  by eapply (newer_reached (view := view)).
Qed.

Lemma grows_insert c j s s' ns b p a :
  nodes c !! j = Some s → newer (db s) (db s') → ns = <[j := s']> (nodes c) → grows c (MkCluster ns b p a).
Proof.
  intros Hs Hn -> k t Ht. cbn [nodes]. destruct (decide (k = j)) as [->|Hne].
  - rewrite lookup_insert_eq. exists s'. rewrite Hs in Ht. by injection Ht as <-.
  - rewrite lookup_insert_ne by done. exists t. split; [done|apply newer_refl].
Qed.

Lemma nodes_ok_insert members c j s s' ns b p a :
  nodes_ok members c → nodes c !! j = Some s → good s' → Server.id s' = Server.id s → peers s' = peers s →
  ns = <[j := s']> (nodes c) → nodes_ok members (MkCluster ns b p a).
Proof.
  intros [Hdom Hall] Hs Hg Hi Hp ->. destruct (Hall j s Hs) as (_ & Hid & Hpe). split; cbn [nodes].
  - rewrite dom_insert_L, Hdom. apply (elem_of_dom_2 (D := gset Z)) in Hs. set_solver.
  - apply map_Forall_insert_2; [|done]. split_and!; [done|congruence|congruence].
Qed.

(** ** Steps *)

Lemma handles_inv members c j request text c' :
  nodes_ok members c → handles c j request = Some (text, c') →
  ∃ s s' n, nodes c !! j = Some s ∧ busy c !! j = None ∧ respond request (s, MkNet [] []) = (Ok text, (s', n)) ∧
    c' = MkCluster (<[j := s']> (nodes c)) (busy c) (posted c) (answered_to c) ∧
    nodes_ok members c' ∧ grows c c'.
Proof.
  intros Hok. unfold handles. destruct (busy c !! j) eqn:Hb; [done|]. destruct (nodes c !! j) as [s|] eqn:Hs; [|done].
  pose proof (proj1 (proj2 Hok j s Hs)) as Hg. destruct (respond_total request s (MkNet [] []) Hg)
    as (resp & s' & n' & new & Hr & _ & Hg' & Hi & Hp & Hnew & _). rewrite Hr.
  case_decide; [|done]. intros [= <- <-]. exists s, s', n'. split_and!; [done..| |].
  - by eapply nodes_ok_insert.
  - by eapply grows_insert.
Qed.

Lemma event_grows members c e c' : nodes_ok members c → exec c e = Some c' → nodes_ok members c' ∧ grows c c'.
Proof.
  intros Hok. destruct e as [i request answers|i|k|i]; cbn [exec].
  - destruct (busy c !! i); [done|]. destruct (nodes c !! i); [|done]. intros [= <-]. exact (conj Hok (grows_self c)).
  - destruct (busy c !! i) as [b|]; [|done]. destruct (nodes c !! i) as [s|]; [|done]. cbn [mbind option_bind].
    destruct (own_requests s b !! b_done b) as [[j q [e|text]]|]; [| |done]; cbn [mbind option_bind x_answer x_peer x_request].
    + intros [= <-]. exact (conj Hok (grows_self c)).
    + destruct (handles c j (as_bytes q)) as [[text' c1]|] eqn:Hh; [|done]. cbn [mbind option_bind]. case_decide; [|done].
      intros [= <-]. destruct (handles_inv _ _ _ _ _ _ Hok Hh) as (_ & _ & _ & _ & _ & _ & _ & Hok1 & Hg). exact (conj Hok1 Hg).
  - destruct (posted c !! k) as [[j request]|]; [|done]. cbn [mbind option_bind].
    destruct (handles c j request) as [[text c1]|] eqn:Hh; [|done]. intros [= <-].
    by destruct (handles_inv _ _ _ _ _ _ Hok Hh) as (_ & _ & _ & _ & _ & _ & _ & ? & ?).
  - destruct (busy c !! i) as [b|]; [|done]. destruct (nodes c !! i) as [s|] eqn:Hs; [|done]. cbn [mbind option_bind].
    case_decide; [|done]. unfold run_busy. pose proof (proj1 (proj2 Hok i s Hs)) as Hg.
    destruct (respond_total (b_request b) s (MkNet [] (b_answers b)) Hg) as (resp & s' & n' & new & Hr & _ & Hg' & Hid & Hp & Hn & _).
    rewrite Hr. intros [= <-]. split; [by eapply nodes_ok_insert|by eapply grows_insert].
Qed.

Lemma restart_grows members c i s d :
  nodes_ok members c → nodes c !! i = Some s → records_ok (view := view) (ok := ok) d → newer (db s) d →
  nodes_ok members (restart i s d c) ∧ grows c (restart i s d c).
Proof.
  intros Hok Hs Hrec Hnew. pose proof (proj1 (proj2 Hok i s Hs)) as [_ Hnd]. split.
  - eapply (nodes_ok_insert members c i s (MkServer (Server.id s) (peers s) ∅ d)); [exact Hok|exact Hs|by split|done..].
  - by eapply (grows_insert c i s (MkServer (Server.id s) (peers s) ∅ d)).
Qed.

(** ** What the answers so far have shown *)

(** [K] is what a node's exchanges show of the cluster, at the nodes [I], as long
    as the cluster has [G]; neither is ever undone. *)
Section tracked.
Context (I : Z → Prop) (G : Cluster D → Prop) (K : Cluster D → list exchange → Prop).

Class Tracks : Prop := {
  tracks_fact c c' : grows c c' → G c → G c';
  tracks_nil c : K c [];
  tracks_grows c c' log : grows c c' → K c log → K c' log;
  tracks_lost c log j q e : K c log → K c (log ++ [Exchange j q (inl e)]);
  tracks_answered members c log j q text c' :
    nodes_ok members c → G c → handles c j (as_bytes q) = Some (text, c') → K c log → K c' (log ++ [Exchange j q (inr text)]);
}.

Definition tracked (c : Cluster D) : Prop :=
  ∀ i b s, I i → busy c !! i = Some b → nodes c !! i = Some s → K c (take (b_done b) (own_requests s b)).

Context {HT : Tracks}.

(** A step that leaves the busy nodes as they were, or idle. *)
Lemma tracked_step c c' :
  tracked c → grows c c' →
  (∀ i b, busy c' !! i = Some b → busy c !! i = Some b ∧ nodes c' !! i = nodes c !! i) → tracked c'.
Proof.
  intros Hk Hg Hsame i b s Hi Hb Hs. destruct (Hsame i b Hb) as [Hb0 Hs0]. rewrite Hs0 in Hs.
  eapply tracks_grows; [exact Hg|]. by apply (Hk i).
Qed.

Lemma handles_tracked members c j request text c' :
  nodes_ok members c → tracked c → handles c j request = Some (text, c') → tracked c'.
Proof.
  intros Hok Hk Hh. destruct (handles_inv _ _ _ _ _ _ Hok Hh) as (s & s' & n & Hs & Hidle & _ & -> & _ & Hg).
  apply (tracked_step c); [done..|]. intros i b Hb. cbn [busy nodes] in *. split; [done|].
  rewrite lookup_insert_ne; [done|]. intros ->. congruence.
Qed.

Lemma advance_tracked c i b s x :
  tracked c → busy c !! i = Some b → nodes c !! i = Some s → own_requests s b !! b_done b = Some x →
  (I i → K c (take (b_done b) (own_requests s b) ++ [x])) → tracked (advance_busy i b c).
Proof.
  intros Hk Hi Hs Hx Hkx i' b' s' HI Hi' Hs'. cbn [busy nodes advance_busy] in *.
  destruct (decide (i' = i)) as [->|Hne].
  - rewrite lookup_insert_eq in Hi'. injection Hi' as <-. rewrite Hs in Hs'. injection Hs' as <-.
    cbn [b_done]. change (own_requests s (MkBusy (b_request b) (b_answers b) (S (b_done b)))) with (own_requests s b).
    rewrite (take_S_r _ _ _ Hx). apply (tracks_grows c); [exact (grows_self c)|by apply Hkx].
  - rewrite lookup_insert_ne in Hi' by done. apply (tracks_grows c); [exact (grows_self c)|by apply (Hk i')].
Qed.

Lemma exchanged_tracked members c i c' :
  nodes_ok members c → G c → tracked c → exec c (Exchanged i) = Some c' → tracked c'.
Proof.
  intros Hok HG Hk. cbn [exec]. destruct (busy c !! i) as [b|] eqn:Hi; [|done]. destruct (nodes c !! i) as [s|] eqn:Hs; [|done].
  cbn [mbind option_bind]. destruct (own_requests s b !! b_done b) as [[j q a]|] eqn:Hx; [|done].
  cbn [mbind option_bind x_answer x_peer x_request]. destruct a as [e|text].
  - intros [= <-]. apply advance_tracked with (s := s) (x := Exchange j q (inl e)); [|done..|].
    { by apply (tracked_step c); [|exact (grows_self c)|]. }
    intros HI. apply tracks_lost, (tracks_grows c); [exact (grows_self c)|by apply (Hk i)].
  - destruct (handles c j (as_bytes q)) as [[text' c1]|] eqn:Hh; [|done]. cbn [mbind option_bind]. case_decide as Ht; [|done].
    intros [= <-]. subst text'.
    destruct (handles_inv _ _ _ _ _ _ Hok Hh) as (sj & sj' & n & Hsj & Hidle & _ & Hc1 & _).
    assert (i ≠ j) as Hne by congruence.
    apply advance_tracked with (s := s) (x := Exchange j q (inr text)); [by eapply handles_tracked|by rewrite Hc1| |done|].
    + rewrite Hc1. cbn [nodes]. by rewrite lookup_insert_ne.
    + intros HI. eapply tracks_answered; [exact Hok|exact HG|exact Hh|by apply (Hk i)].
Qed.

Lemma event_tracked members c e c' :
  nodes_ok members c → G c → tracked c → exec c e = Some c' → tracked c'.
Proof.
  intros Hok HG Hk He. destruct (event_grows _ _ _ _ Hok He) as [_ Hgrow].
  destruct e as [i request answers|i|k|i]; [|by eapply exchanged_tracked| |]; cbn [exec] in He.
  - destruct (busy c !! i) eqn:Hi; [done|]. destruct (nodes c !! i) as [s|]; [|done]. injection He as <-.
    intros i' b s' HI Hi' Hs'. cbn [busy nodes] in *.
    destruct (decide (i' = i)) as [->|Hne]; [|rewrite lookup_insert_ne in Hi' by done; apply (tracks_grows c); [exact (grows_self c)|by apply (Hk i')]].
    rewrite lookup_insert_eq in Hi'. injection Hi' as <-. apply tracks_nil.
  - destruct (posted c !! k) as [[j request]|]; [|done]. cbn [mbind option_bind] in He.
    destruct (handles c j request) as [[text c1]|] eqn:Hh; [|done]. injection He as <-. by eapply handles_tracked.
  - destruct (busy c !! i) as [b|]; [|done]. destruct (nodes c !! i) as [s|]; [|done]. cbn [mbind option_bind] in He.
    case_decide; [|done]. destruct (run_busy s b) as [[resp|e|p] [s' n']]; [|done..]. injection He as <-.
    apply (tracked_step c); [done..|]. intros i' b' Hi'. cbn [busy nodes] in *. apply lookup_delete_Some in Hi' as [Hne Hi'].
    by rewrite lookup_insert_ne.
Qed.

Lemma restart_tracked members c i s d :
  nodes_ok members c → tracked c → nodes c !! i = Some s → records_ok (view := view) (ok := ok) d → newer (db s) d →
  tracked (restart i s d c).
Proof.
  intros Hok Hk Hs Hrec Hnew. destruct (restart_grows _ _ _ _ _ Hok Hs Hrec Hnew) as [_ Hg].
  apply (tracked_step c); [done..|]. intros i' b' Hi'. cbn [busy nodes restart] in *. apply lookup_delete_Some in Hi' as [Hne Hi'].
  by rewrite lookup_insert_ne.
Qed.

(** From a cluster of these nodes on, in which the nodes [I] are idle. *)
Lemma reachable_tracked members c0 c :
  nodes_ok members c0 → G c0 → tracked c0 → reachable c0 c → nodes_ok members c ∧ grows c0 c ∧ G c ∧ tracked c.
Proof.
  intros Hn HG Hk Hr. induction Hr as [|c e c' _ IH He|c i s d _ IH Hs Hd Hnew].
  - exact (conj Hn (conj (grows_self c0) (conj HG Hk))).
  - destruct IH as (Hok & Hg & HGc & Hkc). destruct (event_grows _ _ _ _ Hok He) as [Hok' Hg'].
    refine (conj Hok' (conj (cluster_grows_trans _ _ _ Hg Hg') (conj (tracks_fact _ _ Hg' HGc) _))). eapply (event_tracked members c e c'); done.
  - destruct IH as (Hok & Hg & HGc & Hkc). destruct (restart_grows _ _ _ _ _ Hok Hs Hd Hnew) as [Hok' Hg'].
    refine (conj Hok' (conj (cluster_grows_trans _ _ _ Hg Hg') (conj (tracks_fact _ _ Hg' HGc) _))). eapply (restart_tracked members c i s d); done.
Qed.
End tracked.

(** ** Staged and committed *)

(** Each exchange that went well in [log] has left its mark on the peer. *)
Definition kept (c : Cluster D) (log : list exchange) : Prop :=
  ∀ n1 j q n2, log = n1 ++ Exchange j q (inr "OK") :: n2 →
    (∀ key r, q = repl_request key r → is_str key → replica_ok r → value r ≠ "" ∧ holds c j key (version r) false) ∧
    (∀ key r, q = commit_request key (version r) → is_str key → replica_ok r →
      Exchange j (repl_request key r) (inr "OK") ∈ n1 → holds c j key (version r) true).

Lemma kept_grows c c' log : grows c c' → kept c log → kept c' log.
Proof.
  intros Hg Hk n1 j q n2 Heq. destruct (Hk n1 j q n2 Heq) as [H1 H2]. split.
  - intros key r Hq Hs Hr. destruct (H1 key r Hq Hs Hr) as [Hv Hh]. split; [done|by eapply holds_grows].
  - intros key r Hq Hs Hr Hin. eapply holds_grows; [done|]. by apply H2.
Qed.

Lemma kept_nil c : kept c [].
Proof. intros [|x n1] j q n2 Heq; discriminate Heq. Qed.

Lemma kept_prefix c log k : kept c log → kept c (take k log).
Proof.
  intros Hk n1 j q n2 Heq. apply (Hk n1 j q (n2 ++ drop k log)).
  rewrite <- (take_drop k log) at 1. rewrite Heq. by rewrite <- app_assoc.
Qed.

Lemma kept_lost c log j q e : kept c log → kept c (log ++ [Exchange j q (inl e)]).
Proof.
  intros Hk n1 j' q' n2 Heq. destruct n2 as [|x n2 _] using rev_ind.
  - apply app_inj_tail in Heq as [_ Heq]. discriminate Heq.
  - rewrite app_comm_cons, app_assoc in Heq. apply app_inj_tail in Heq as [Heq _]. by apply (Hk n1 j' q' n2).
Qed.

Lemma kept_answered members c log j q text c' :
  nodes_ok members c → handles c j (as_bytes q) = Some (text, c') → kept c log → kept c' (log ++ [Exchange j q (inr text)]).
Proof.
  intros Hok Hh Hk. destruct (handles_inv _ _ _ _ _ _ Hok Hh) as (s & s' & n & Hs & _ & Hr & -> & _ & Hgrow).
  pose proof (proj1 (proj2 Hok j s Hs)) as Hg. pose proof (kept_grows _ _ _ Hgrow Hk) as Hk'.
  set (c' := MkCluster _ _ _ _) in *. assert (nodes c' !! j = Some s') as Hs' by apply lookup_insert_eq.
  intros n1 j' q' n2 Heq. destruct n2 as [|x n2 _] using rev_ind.
  2: { rewrite app_comm_cons, app_assoc in Heq. apply app_inj_tail in Heq as [Heq _]. by apply (Hk' n1 j' q' n2). }
  apply app_inj_tail in Heq as [<- [= <- <- ->]]. split.
  - intros key r -> Hkey Hrec. destruct (repl_answered key r s _ s' _ Hg Hkey Hrec Hr) as [Hv Hreach].
    split; [done|]. by exists s'.
  - intros key r -> Hkey Hrec Hin. exists s'. split; [done|].
    apply list_elem_of_split in Hin as (m1 & m2 & ->).
    destruct (Hk m1 j _ (m2) eq_refl) as [Hrepl _].
    destruct (Hrepl key r eq_refl Hkey Hrec) as (_ & s1 & Hs1 & Hreach). rewrite Hs in Hs1. injection Hs1 as <-.
    eapply commit_answered; [exact Hg|done|apply Hrec|exact Hreach|exact Hr].
Qed.

#[export] Instance kept_tracks : Tracks (λ _, True) kept.
Proof.
  split; [done|exact kept_nil|exact kept_grows|exact kept_lost|].
  intros members c log j q text c' Hok _ Hh. by eapply kept_answered.
Qed.

(** ** The invariant *)

Definition on_majority (members : gset Z) (c : Cluster D) (key : string) (v : Z) : Prop :=
  ∃ Q : gset Z, Q ⊆ members ∧ size members < 2 * size Q ∧ ∀ j, j ∈ Q → holds c j key v true.

Definition acknowledged_ok (members : gset Z) (c : Cluster D) (request : bytes) (resp : string) : Prop :=
  starts_with resp "OK " = true → ∃ v w, resp = "OK " +:+ pretty v ∧ written request = Some w ∧
    (2 ≤ size members → w.2 ≠ "") ∧ on_majority members c w.1.1 v.

Record inv (members : gset Z) (c : Cluster D) : Prop := Inv {
  inv_nodes : nodes_ok members c;
  inv_busy : tracked (λ _, True) kept c;
  inv_done request resp : (request, resp) ∈ answered_to c → acknowledged_ok members c request resp;
}.

Lemma on_majority_grows members c c' key v : grows c c' → on_majority members c key v → on_majority members c' key v.
Proof.
  intros Hg (Q & HQ & Hs & Hh). exists Q. split_and!; [done..|]. intros j Hj. eapply holds_grows; [done|by apply Hh].
Qed.
Lemma acknowledged_grows members c c' request resp :
  grows c c' → acknowledged_ok members c request resp → acknowledged_ok members c' request resp.
Proof.
  intros Hg Ha Hv. destruct (Ha Hv) as (v & w & Hr & Hw & Hne & Hm). exists v, w. split_and!; [done..|]. by eapply on_majority_grows.
Qed.

Lemma members_size members c i s : nodes_ok members c → nodes c !! i = Some s → size members = length (peers s) + 1.
Proof.
  intros [Hdom Hall] Hs. destruct (Hall i s Hs) as ([_ Hnp] & _ & Hpe).
  assert (i ∈ members) as Him by (rewrite <- Hdom; by eapply elem_of_dom_2).
  rewrite <- (size_list_to_set (C := gset Z) (peers s)) by done. rewrite Hpe.
  rewrite (union_difference_L {[i]} members) at 1 by set_solver. rewrite size_union, size_singleton by set_solver. lia.
Qed.

(** A majority with the node itself. *)
Lemma majority_set members (c : Cluster D) i s A key v :
  nodes_ok members c → nodes c !! i = Some s → NoDup A → A ⊆ peers s →
  length (peers s) + 1 < (1 + length A) * 2 →
  (∀ j, j ∈ A → holds c j key v true) → holds c i key v true → on_majority members c key v.
Proof.
  intros [Hdom Hall] Hs Hnd Hsub Hmaj Hh Hi. destruct (Hall i s Hs) as ([_ Hnp] & _ & Hpe).
  assert (i ∈ members) as Him by (rewrite <- Hdom; by eapply elem_of_dom_2).
  assert (∀ j, j ∈ A → j ∈ members ∧ j ≠ i) as HA.
  { intros j Hj. apply Hsub in Hj. apply (elem_of_list_to_set (C := gset Z)) in Hj. rewrite Hpe in Hj. set_solver. }
  exists ({[i]} ∪ list_to_set A). split_and!.
  - intros j. rewrite elem_of_union, elem_of_singleton, elem_of_list_to_set. intros [->|Hj]; [done|]. by apply HA.
  - rewrite size_union by (intros j; rewrite elem_of_singleton, elem_of_list_to_set; intros -> Hj; by destruct (HA _ Hj)).
    rewrite size_singleton, size_list_to_set by done.
    rewrite (members_size members c i s) by (done || by split). lia.
  - intros j. rewrite elem_of_union, elem_of_singleton, elem_of_list_to_set. intros [->|Hj]; [done|by apply Hh].
Qed.

Lemma finish_acknowledged members c i b s resp s' n' c' :
  inv members c → busy c !! i = Some b → nodes c !! i = Some s → b_done b = length (own_requests s b) →
  run_busy s b = (Ok resp, (s', n')) → nodes_ok members c' → grows c c' → nodes c' !! i = Some s' →
  acknowledged_ok members c' (b_request b) resp.
Proof.
  intros Hinv Hi Hs Hend Hrun Hok Hgrow Hs'. unfold run_busy in Hrun. pose proof (proj1 (proj2 (inv_nodes _ _ Hinv) i s Hs)) as Hg.
  destruct (respond_total (b_request b) s (MkNet [] (b_answers b)) Hg) as (resp0 & s0 & n0 & new & Hr & Hnew & Hg' & Hid & Hp & Hn & Hres).
  rewrite Hr in Hrun. injection Hrun as -> -> ->.
  assert (own_requests s b = new) as Hown by (unfold own_requests, run_busy; by rewrite Hr).
  assert (kept c' new) as Hk.
  { eapply kept_grows; [exact Hgrow|]. pose proof (inv_busy _ _ Hinv i b s I Hi Hs) as Hk. rewrite Hend, Hown in Hk.
    by rewrite take_ge in Hk by done. }
  intros Hv. destruct (Hres Hv) as (v & w & Hresp & Hw & Hreach & Hkey & Hrok & A & HndA & HsubA & Hmaj & (n1 & n2 & Heq & H1 & H2)).
  exists v, w. split; [done|]. split; [done|].
  assert (∀ j, j ∈ A → w.2 ≠ "" ∧ holds c' j w.1.1 v true) as HA.
  { intros j Hj. pose proof (H1 j Hj) as Hrepl. pose proof (H2 j Hj) as (m1 & m2 & Hm)%list_elem_of_split.
    pose proof Hrepl as (l1 & l2 & Hl)%list_elem_of_split. split.
    - destruct (Hk l1 j (repl_request w.1.1 (staged_record w v)) (l2 ++ n2)) as [Hst _]; [by rewrite Heq, Hl, <- app_assoc|]. by apply (Hst w.1.1 (staged_record w v)).
    - destruct (Hk (n1 ++ m1) j (commit_request w.1.1 v) m2) as [_ Hco]; [by rewrite Heq, Hm, <- app_assoc|].
      apply (Hco w.1.1 (staged_record w v)); [done..|]. apply elem_of_app. by left. }
  split.
  - intros Hsize. destruct A as [|j A]; [|by destruct (HA j) as [? _]; [left|]]. exfalso. rewrite Hp in Hmaj.
    rewrite (members_size members c i s) in Hsize by (done || apply Hinv). cbn [length] in Hmaj. lia.
  - eapply (majority_set members c' i s'); [done..| |by exists s'].
    intros j Hj. by apply HA.
Qed.

(** How serving a request ends. *)
Lemma finish_run c i c' :
  exec c (Finish i) = Some c' →
  ∃ b s resp s' n', busy c !! i = Some b ∧ nodes c !! i = Some s ∧ b_done b = length (own_requests s b) ∧
    run_busy s b = (Ok resp, (s', n')) ∧ nodes c' !! i = Some s' ∧ answered_to c' = answered_to c ++ [(b_request b, resp)].
Proof.
  cbn [exec]. destruct (busy c !! i) as [b|]; [|done]. destruct (nodes c !! i) as [s|]; [|done]. cbn [mbind option_bind].
  case_decide; [|done]. destruct (run_busy s b) as [[resp|e|p] [s' n']] eqn:Hr; [|done..]. intros [= <-].
  exists b, s, resp, s', n'. cbn [nodes answered_to]. by rewrite lookup_insert_eq.
Qed.

(** What a step adds to the clients' answers. *)
Lemma event_answers c e c' :
  exec c e = Some c' →
  answered_to c' = answered_to c ∨
  ∃ i b s resp s' n', busy c !! i = Some b ∧ nodes c !! i = Some s ∧ b_done b = length (own_requests s b) ∧
    run_busy s b = (Ok resp, (s', n')) ∧ nodes c' !! i = Some s' ∧ answered_to c' = answered_to c ++ [(b_request b, resp)].
Proof.
  destruct e as [i request answers|i|k|i]; [..|by intros (b & s & resp & s' & n' & H)%finish_run; right; exists i, b, s, resp, s', n'];
    cbn [exec]; unfold handles.
  - destruct (busy c !! i); [done|]. destruct (nodes c !! i); [|done]. intros [= <-]. by left.
  - destruct (busy c !! i) as [b|]; [|done]. destruct (nodes c !! i) as [s|]; [|done]. cbn [mbind option_bind].
    destruct (own_requests s b !! b_done b) as [[j q [e|text]]|]; [| |done]; cbn [mbind option_bind x_answer x_peer x_request].
    + intros [= <-]. by left.
    + destruct (busy c !! j); [done|]. destruct (nodes c !! j); [|done]. destruct (respond _ _) as [[t|?|?] [? ?]]; [|done..].
      case_decide; [|done]. cbn [mbind option_bind]. case_decide; [|done]. intros [= <-]. by left.
  - destruct (posted c !! k) as [[j request]|]; [|done]. cbn [mbind option_bind].
    destruct (busy c !! j); [done|]. destruct (nodes c !! j); [|done]. destruct (respond _ _) as [[t|?|?] [? ?]]; [|done..].
    case_decide; [|done]. intros [= <-]. by left.
Qed.

Lemma event_keeps members c e c' : inv members c → exec c e = Some c' → inv members c'.
Proof.
  intros Hinv He. destruct (event_grows _ _ _ _ (inv_nodes _ _ Hinv) He) as [Hok Hg].
  split; [done|exact (event_tracked _ (λ _, True) kept members c e c' (inv_nodes _ _ Hinv) I (inv_busy _ _ Hinv) He)|].
  - intros request resp Hin. destruct (event_answers _ _ _ He) as [Hsame|(i & b & s & r & s' & n' & Hi & Hs & Hend & Hrun & Hs' & Hans)].
    + rewrite Hsame in Hin. eapply acknowledged_grows; [exact Hg|]. by apply (inv_done _ _ Hinv).
    + rewrite Hans in Hin. apply elem_of_app in Hin as [Hin|[= -> ->]%list_elem_of_singleton].
      * eapply acknowledged_grows; [exact Hg|]. by apply (inv_done _ _ Hinv).
      * by eapply finish_acknowledged.
Qed.

Lemma restart_keeps members c i s d :
  inv members c → nodes c !! i = Some s → records_ok (view := view) (ok := ok) d → newer (db s) d → inv members (restart i s d c).
Proof.
  intros Hinv Hs Hrec Hnew. destruct (restart_grows _ _ _ _ _ (inv_nodes _ _ Hinv) Hs Hrec Hnew) as [Hok Hg].
  split; [done|by apply (restart_tracked _ (λ _, True) kept members c i s d (inv_nodes _ _ Hinv) (inv_busy _ _ Hinv))|].
  intros request resp Hin. eapply acknowledged_grows; [exact Hg|]. by apply (inv_done _ _ Hinv).
Qed.

Lemma reachable_inv members c0 c : nodes_ok members c0 → at_rest c0 → reachable c0 c → inv members c.
Proof.
  intros Hn (Hb & Hp & Ha) Hr. induction Hr as [|c e c' _ IH He|c i s d _ IH Hs Hd Hnew].
  - split; [done| |]; [intros i b s _ Hi; by rewrite Hb, lookup_empty in Hi|intros request resp Hin; by rewrite Ha in Hin; apply elem_of_nil in Hin].
  - by eapply event_keeps.
  - by apply restart_keeps.
Qed.

Lemma majority_records members c key v :
  on_majority members c key v →
  ∃ Q : gset Z, Q ⊆ members ∧ size members < 2 * size Q ∧
    ∀ j, j ∈ Q → ∃ s r, nodes c !! j = Some s ∧ recorded (db s) key = Some r ∧
      ((v < version r)%Z ∨ version r = v ∧ committed r = true).
Proof.
  intros (Q & HQ & Hsize & Hh). exists Q. split_and!; [done..|]. intros j Hj.
  destruct (Hh j Hj) as (s & Hs & Hreach). destruct (recorded (db s) key) as [r|] eqn:Hrec; [|done].
  exists s, r. split_and!; [done..|]. destruct Hreach as [?|[? Hc]]; [by left|]. right. split; [done|by apply Hc].
Qed.

(** C13. An acknowledged write is on a majority.  Take nodes at rest that know each
    other, and let them serve any requests: requests interleave, answers are
    lost, requests are handled late, nodes stop in the middle of a request and
    come back with what they had stored.  Whenever a client has been answered OK,
    with a version, its request was a PUT or DELETE of some key, and from then
    on a majority of the nodes holds under that key a greater version, or a
    committed record of that version. *)
Theorem acknowledged_writes_reach_majority members c0 c request resp :
  nodes_ok members c0 → at_rest c0 → reachable c0 c →
  (request, resp) ∈ answered_to c → starts_with resp "OK " = true →
  ∃ v key tomb value, resp = "OK " +:+ pretty v ∧ written request = Some (key, tomb, value) ∧
    ∃ Q : gset Z, Q ⊆ members ∧ size members < 2 * size Q ∧
      ∀ j, j ∈ Q → ∃ s r, nodes c !! j = Some s ∧ recorded (db s) key = Some r ∧
        ((v < version r)%Z ∨ version r = v ∧ committed r = true).
Proof.
  intros Hn Hrest Hr Hin Hresp.
  destruct (inv_done _ _ (reachable_inv _ _ _ Hn Hrest Hr) _ _ Hin Hresp) as (v & [[key tomb] value] & Hv & Hw & _ & Hm).
  exists v, key, tomb, value. split_and!; [done..|]. by apply majority_records.
Qed.

(** C37. A DELETE, or a PUT of the empty text, is never acknowledged in a cluster
    of two nodes or more: the value is the last word of the request for
    replication, the empty one is no word for the peer that splits the request
    at white space, and the peer answers that it does not know the request. *)
Theorem empty_values_are_never_acknowledged members c0 c request key tomb resp :
  nodes_ok members c0 → at_rest c0 → reachable c0 c → 2 ≤ size members →
  written request = Some (key, tomb, "") → (request, resp) ∈ answered_to c → starts_with resp "OK " = false.
Proof.
  intros Hn Hrest Hr Hsize Hw Hin. destruct (starts_with resp "OK ") eqn:Hresp; [|done].
  destruct (inv_done _ _ (reachable_inv _ _ _ Hn Hrest Hr) _ _ Hin Hresp) as (v & w & _ & Hw' & Hne & _).
  rewrite Hw in Hw'. injection Hw' as <-. by destruct (Hne Hsize).
Qed.
End safety.

(** ** Three nodes *)

Abbreviation mem := (gmap string string).
Definition empty_node (i : Z) (others : list Z) : Server mem := MkServer i others ∅ ∅.
Definition three : Cluster mem :=
  MkCluster {[1%Z := empty_node 1 [2; 3]%Z; 2%Z := empty_node 2 [1; 3]%Z; 3%Z := empty_node 3 [1; 2]%Z]} ∅ [] [].
Definition three_members : gset Z := {[1; 2; 3]}%Z.

Definition lost : answer := timed_out.
Definition said (texts : list string) : list answer := inr <$> texts.

(** Serve a request at node [i] from beginning to end. *)
Definition serve (i : Z) (request : string) (answers : list answer) : list event :=
  Accept i (as_bytes request) answers :: replicate (length answers) (Exchanged i) ++ [Finish i].

Definition after_events (es : list event) : Cluster mem := default three (exec_all three es).

Lemma exec_all_reachable c0 es c c' :
  reachable (view := Datatypes.id) (ok := λ _ : mem, True) c0 c → exec_all c es = Some c' →
  reachable (view := Datatypes.id) (ok := λ _ : mem, True) c0 c'.
Proof.
  revert c. induction es as [|e es IH]; intros c Hc; cbn [exec_all]; [by intros [= <-]|].
  destruct (exec c e) as [c1|] eqn:He; [|done]. apply IH. by eapply Reach_event.
Qed.

Lemma after_reachable es :
  is_Some (exec_all three es) → reachable (view := Datatypes.id) (ok := λ _ : mem, True) three (after_events es).
Proof. intros [c Hc]. unfold after_events. rewrite Hc. by eapply exec_all_reachable; [constructor|]. Qed.

Lemma empty_node_good i others : NoDup others → good (view := Datatypes.id) (ok := λ _ : mem, True) (empty_node i others).
Proof. intros Hnd. split; [|done]. split; [done|]. intros key s. change (Datatypes.id (db (empty_node i others))) with (∅ : mem). by rewrite lookup_empty. Qed.

Lemma three_ok : nodes_ok (view := Datatypes.id) (ok := λ _ : mem, True) three_members three.
Proof.
  split; [vm_compute; reflexivity|]. intros i s Hs. cbn [nodes three] in Hs. unfold member.
  apply lookup_insert_Some in Hs as [[<- <-]|[_ Hs]]; [|apply lookup_insert_Some in Hs as [[<- <-]|[_ Hs]];
    [|apply lookup_singleton_Some in Hs as [<- <-]]].
  all: split_and!; [apply empty_node_good; repeat constructor; set_solver|done|by vm_compute].
Qed.

Definition put_events : list event :=
  serve 2 "PUT 6b 61" (lost :: said ["PONG 3"; "DUMP "; "OK"; "OK"]).

Lemma acknowledged_writes_reach_majority_witness :
  nodes_ok (view := Datatypes.id) (ok := λ _ : mem, True) three_members three ∧ at_rest three ∧
  reachable (view := Datatypes.id) (ok := λ _ : mem, True) three (after_events put_events) ∧
  (as_bytes "PUT 6b 61", "OK 1") ∈ answered_to (after_events put_events) ∧ starts_with "OK 1" "OK " = true ∧
  ∃ v key tomb value, "OK 1" = "OK " +:+ pretty v ∧ written (as_bytes "PUT 6b 61") = Some (key, tomb, value) ∧
    ∃ Q : gset Z, Q ⊆ three_members ∧ size three_members < 2 * size Q ∧
      ∀ j, j ∈ Q → ∃ s r, nodes (after_events put_events) !! j = Some s ∧ recorded (view := Datatypes.id) (db s) key = Some r ∧
        ((v < version r)%Z ∨ version r = v ∧ committed r = true).
Proof.
  assert (at_rest three) as H1 by done.
  assert (reachable (view := Datatypes.id) (ok := λ _ : mem, True) three (after_events put_events)) as H2
    by (apply after_reachable; vm_compute; eauto).
  assert ((as_bytes "PUT 6b 61", "OK 1") ∈ answered_to (after_events put_events)) as H3
    by (apply list_elem_of_lookup; exists 0%nat; vm_compute; reflexivity).
  exact (conj three_ok (conj H1 (conj H2 (conj H3 (conj eq_refl (acknowledged_writes_reach_majority (view := Datatypes.id)
    (ok := λ _ : mem, True) three_members three _ _ _ three_ok H1 H2 H3 eq_refl)))))).
Defined.

Definition delete_events : list event :=
  put_events ++ serve 2 "DELETE 6b" (lost :: said ["PONG 3"; "DUMP 6b,1,0,1,61"; "ERROR cluster: unknown request"]).

Lemma empty_values_are_never_acknowledged_witness :
  nodes_ok (view := Datatypes.id) (ok := λ _ : mem, True) three_members three ∧ at_rest three ∧
  reachable (view := Datatypes.id) (ok := λ _ : mem, True) three (after_events delete_events) ∧ 2 ≤ size three_members ∧
  written (as_bytes "DELETE 6b") = Some ("k", true, "") ∧
  (as_bytes "DELETE 6b", "RETRY indeterminate") ∈ answered_to (after_events delete_events) ∧
  starts_with "RETRY indeterminate" "OK " = false.
Proof.
  assert (at_rest three) as H1 by done.
  assert (reachable (view := Datatypes.id) (ok := λ _ : mem, True) three (after_events delete_events)) as H2
    by (apply after_reachable; vm_compute; eauto).
  assert (2 ≤ size three_members) as H3 by (vm_compute; lia).
  assert (written (as_bytes "DELETE 6b") = Some ("k", true, "")) as H4 by (vm_compute; reflexivity).
  assert ((as_bytes "DELETE 6b", "RETRY indeterminate") ∈ answered_to (after_events delete_events)) as H5
    by (apply list_elem_of_lookup; exists 1%nat; vm_compute; reflexivity).
  exact (conj three_ok (conj H1 (conj H2 (conj H3 (conj H4 (conj H5 (empty_values_are_never_acknowledged
    (view := Datatypes.id) (ok := λ _ : mem, True) three_members three _ _ "k" true _ three_ok H1 H2 H3 H4 H5))))))).
Defined.

(** Node 2 serves a PUT while node 1 cannot be reached; node 1 is reached again,
    but the answers to its DUMP requests are lost. *)
Definition lost_write_events : list event :=
  put_events
  ++ serve 1 "GET 6b" (said ["PONG 2"; "PONG 3"] ++ [lost; lost])
  ++ serve 1 "PUT 6b 62" (said ["PONG 2"; "PONG 3"] ++ [lost; lost] ++ said ["OK"; "OK"; "OK"; "OK"])
  ++ serve 2 "GET 6b" (lost :: said ["PONG 3"; "DUMP 6b,1,0,1,61"]).

(** A catch-up that fails is not noticed.  [catch_up] passes over a peer that
    answered PING but whose DUMP is lost, so a leader that comes back may read
    and write from an old store: it answers that a key just written is not
    there, and gives a new write a version the others already have.  They
    answer OK to it without keeping it, the write is acknowledged, and the next
    leader returns the old value. *)
Theorem unanswered_dumps_lose_an_acknowledged_write :
  (λ c, answered_to c) <$> exec_all three lost_write_events =
  Some [(as_bytes "PUT 6b 61", "OK 1"); (as_bytes "GET 6b", "NIL");
        (as_bytes "PUT 6b 62", "OK 1"); (as_bytes "GET 6b", "VALUE 61")].
Proof. vm_compute. reflexivity. Qed.
