(* ===== verification/TcpReads.v ===== *)
(** What a read finds of the writes the TCP cluster has acknowledged.

    The nodes a read asks and the nodes that hold an acknowledged write have one
    in common, and its dump shows the write unless a later one is already staged
    over it ([shown]).  The executions at the end are what happens when one is,
    when the answers to DUMP are lost, and when two nodes lead. *)

From stdpp Require Import gmap.
From Stdlib Require Import Ascii.
From S2P Require Import Prelude Bytes Catalog Words Server ServerText ServerSpec TcpCluster.

Section reads.
Context {D : Type} {HRecords : Records D} {view : D → gmap string string} {ok : D → Prop} {HL : RecordsLaws D view ok}.
Abbreviation recorded := (recorded (view := view)).
Abbreviation holds := (holds (view := view)).
Abbreviation grows := (grows (view := view)).
Abbreviation good := (good (view := view) (ok := ok)).
Abbreviation nodes_ok := (nodes_ok (view := view) (ok := ok)).
Abbreviation reachable := (reachable (view := view) (ok := ok)).

(** ** What a dump shows *)

Lemma respond_dump s n text s' n' :
  good s → respond (as_bytes "DUMP") (s, n) = (Ok text, (s', n')) →
  s' = s ∧ ∃ rows, strip_prefix "DUMP " text = Some rows ∧ decode_dump rows = Ok (committed_rows (view := view) (db s)).
Proof.
  intros Hs. unfold respond.
  assert (handle (as_bytes "DUMP") (s, n) = handle_words ["DUMP"] (s, n)) as -> by reflexivity.
  unfold handle_words, server. rewrite run_bind. run_steps. cbn [fst]. rewrite !(decide_False (P := "DUMP" = "PING")) by done.
  rewrite decide_True by done. rewrite (M_bind_run _ _ _ _ _ (dump_run s n Hs)). intros [= <- <- <-]. split; [done|].
  eexists. split; [exact (strip_prefix_app "DUMP " _)|]. apply decode_join_rows. by apply (committed_rows_ok (ok := ok)), Hs.
Qed.

(** Some node holds a version of [key] after [v]. *)
Definition later_write (c : Cluster D) (key : string) (v : Z) : Prop :=
  ∃ j s r, nodes c !! j = Some s ∧ recorded (db s) key = Some r ∧ (v < version r)%Z.

Lemma later_holds c key v : later_write c key v ↔ ∃ j, holds c j key (v + 1) false.
Proof.
  split.
  - intros (j & s & r & Hs & Hr & Hv). exists j, s. split; [done|]. rewrite Hr. cbn. destruct (decide (version r = v + 1)%Z); [by right|left; lia].
  - intros (j & s & Hs & Hr). destruct (recorded (db s) key) as [r|] eqn:Hrec; [|done].
    exists j, s, r. split_and!; [done..|]. destruct Hr as [?|[? _]]; lia.
Qed.
Lemma later_grows c c' key v : grows c c' → later_write c key v → later_write c' key v.
Proof. intros Hg. rewrite !later_holds. intros [j Hj]. exists j. by eapply holds_grows. Qed.

Lemma held_or_later c j s key v :
  nodes c !! j = Some s → reached (recorded (db s) key) v true →
  later_write c key v ∨ ∃ r, recorded (db s) key = Some r ∧ version r = v ∧ committed r = true.
Proof.
  intros Hs Hr. destruct (recorded (db s) key) as [r|] eqn:Hrec; [|done]. destruct Hr as [Hv|[Hv Hc]].
  - left. by exists j, s, r.
  - right. exists r. split_and!; [done..|by apply Hc].
Qed.

(** A dump shows the committed record of version [v], or there is a later one. *)
Definition shows (key : string) (v : Z) (c : Cluster D) (text : string) : Prop :=
  later_write c key v ∨
  ∃ rows recs r, strip_prefix "DUMP " text = Some rows ∧ decode_dump rows = Ok recs ∧ (key, r) ∈ recs ∧
    version r = v ∧ committed r = true.

Definition shown (Q : gset Z) (key : string) (v : Z) (c : Cluster D) (log : list exchange) : Prop :=
  ∀ j text, j ∈ Q → Exchange j "DUMP" (inr text) ∈ log → shows key v c text.
Definition held (Q : gset Z) (key : string) (v : Z) (c : Cluster D) : Prop := ∀ j, j ∈ Q → holds c j key v true.

Lemma committed_row (d : D) key r :
  records_ok (view := view) (ok := ok) d → recorded d key = Some r → committed r = true → (key, r) ∈ committed_rows (view := view) d.
Proof.
  intros Hd Hr Hc. apply list_elem_of_omap. exists key. rewrite Hr. cbn. rewrite Hc. split; [|done].
  apply elem_of_btree_keys. pose proof (view_recorded d key Hd) as Hv. destruct (view d !! key) as [x|]; [by exists x|congruence].
Qed.

Lemma dump_shows Q key v members c j text c' :
  nodes_ok members c → held Q key v c → handles c j (as_bytes "DUMP") = Some (text, c') → j ∈ Q → shows key v c' text.
Proof.
  intros Hok Hheld Hh Hj. destruct (handles_inv _ _ _ _ _ _ Hok Hh) as (s & s' & n & Hs & _ & Hr & _ & _ & Hg).
  pose proof (proj1 (proj2 Hok j s Hs)) as Hgood.
  destruct (respond_dump s _ text s' n Hgood Hr) as (_ & rows & Hrows & Hd).
  destruct (Hheld j Hj) as (s0 & Hs0 & Hreach). rewrite Hs in Hs0. injection Hs0 as <-.
  destruct (held_or_later c j s key v Hs Hreach) as [Hl|(r & Hrec & Hv & Hc)]; [left; by eapply later_grows|right].
  exists rows, (committed_rows (view := view) (db s)), r. split_and!; [done..| |done|done]. by apply committed_row; [apply Hgood|..].
Qed.

#[export] Instance shown_tracks Q key v : Tracks (view := view) (ok := ok) (held Q key v) (shown Q key v).
Proof.
  split.
  - intros c c' Hg Hh j Hj. eapply holds_grows; [exact Hg|by apply Hh].
  - by intros c j text _ ?%elem_of_nil.
  - intros c c' log Hg Hs j text Hj Hin. destruct (Hs j text Hj Hin) as [Hl|Hr]; [left; by eapply later_grows|by right].
  - intros c log j q e Hs j' text Hj [Hin|[=]%list_elem_of_singleton]%elem_of_app. by apply (Hs j').
  - intros members c log j q text c' Hok Hheld Hh Hs j' text' Hj [Hin|[= -> <- ->]%list_elem_of_singleton]%elem_of_app.
    + destruct (handles_inv _ _ _ _ _ _ Hok Hh) as (_ & _ & _ & _ & _ & _ & _ & _ & Hg).
      destruct (Hs j' text' Hj Hin) as [Hl|Hr]; [left; by eapply later_grows|by right].
    + by eapply dump_shows.
Qed.

(** ** Quorums *)

(** The nodes a read has asked and a majority have one in common. *)
Lemma quorums_meet members c i s (Q : gset Z) (alive : list Z) :
  nodes_ok members c → nodes c !! i = Some s → Q ⊆ members → size members < 2 * size Q →
  NoDup alive → alive ⊆ peers s → length (peers s) / 2 < length alive + 1 →
  i ∈ Q ∨ ∃ j, j ∈ Q ∧ j ∈ alive.
Proof.
  intros Hok Hs HQ Hmaj Hnd Hsub Hq. destruct (decide (i ∈ Q)) as [|Hi]; [by left|right].
  destruct (decide (Q ∩ list_to_set alive = ∅)) as [Hdis|(j & [? ?%elem_of_list_to_set]%elem_of_intersection)%set_choose_L]; [|by exists j].
  exfalso. pose proof (members_size members c i s Hok Hs) as Hsize. destruct Hok as [Hdom Hall]. destruct (Hall i s Hs) as ([_ Hnp] & _ & Hpe).
  assert (i ∈ members) as Him by (rewrite <- Hdom; by eapply elem_of_dom_2).
  assert (size ({[i]} ∪ (Q ∪ list_to_set alive)) ≤ size members) as Hle.
  { apply subseteq_size. intros j. rewrite !elem_of_union, elem_of_singleton, elem_of_list_to_set. intros [->|[Hj|Hj]]; [done|by apply HQ|].
    apply Hsub in Hj. apply (elem_of_list_to_set (C := gset Z)) in Hj. rewrite Hpe in Hj. set_solver. }
  rewrite !size_union, size_singleton, size_list_to_set in Hle; [|done|set_solver|].
  - pose proof (Nat.div_mod_eq (length (peers s)) 2) as Hdm. pose proof (Nat.mod_upper_bound (length (peers s)) 2). lia.
  - intros j. rewrite elem_of_singleton, elem_of_union, elem_of_list_to_set. intros -> [?|Hj]; [done|].
    apply Hsub in Hj. apply (elem_of_list_to_set (C := gset Z)) in Hj. rewrite Hpe in Hj. set_solver.
Qed.

(** ** Reads *)

Lemma handle_get request key st :
  is_str key → request_words request = ["GET"; Server.hex (as_bytes key)] → handle request st = client_read key st.
Proof.
  unfold request_words, handle. intros Hk. destruct (from_utf8 request _) as [text|e|p]; [|done..]. rewrite run_lift_ok. intros ->.
  unfold handle_words. rewrite (decide_False (P := "GET" = "DELETE")), decide_True by done.
  by rewrite unhex_string_hex, run_lift_ok.
Qed.

Lemma read_ends s b key resp s' n' :
  good s → is_str key → request_words (b_request b) = ["GET"; Server.hex (as_bytes key)] →
  run_busy s b = (Ok resp, (s', n')) →
  newer (view := view) (db s) (db s') ∧ peers s' = peers s ∧ Server.id s' = Server.id s ∧
  (starts_with resp "ERROR " = true ∨ read_result (view := view) key resp s' (own_requests s b)).
Proof.
  intros Hs Hk Hw Hrun. unfold own_requests. rewrite Hrun. cbn [fst snd]. unfold run_busy, respond in Hrun.
  rewrite (handle_get _ key) in Hrun by done. destruct (client_read key (s, MkNet [] (b_answers b))) as [r [s1 n1]] eqn:Hr.
  destruct (triple_client_read (ok := ok) key s (MkNet [] (b_answers b)) r s1 n1 Hs I Hr) as (new & Hn & _ & Hid & Hp & Hnew & Hres).
  cbn [asked app] in Hn. destruct r as [a|e|p]; [| |done]; simplify_eq; split_and!; [done..| |done|done|done|left; exact (starts_with_self "ERROR " _)].
  by right.
Qed.

Definition dump_answered (x : exchange) : Prop := x_request x = "DUMP" → ∃ text, x_answer x = inr text.

(** The record a quorum's answers have brought to the reader. *)
Lemma read_reaches members c c' i s s' (Q : gset Z) key v log alive :
  nodes_ok members c → nodes c !! i = Some s → peers s' = peers s → newer (view := view) (db s) (db s') →
  Q ⊆ members → size members < 2 * size Q → held Q key v c → shown Q key v c log → Forall dump_answered log →
  grows c c' → NoDup alive → alive ⊆ peers s' → length (peers s') / 2 < length alive + 1 →
  caught_up (view := view) (db s') alive log →
  later_write c' key v ∨ reached (recorded (db s') key) v true.
Proof.
  intros Hok Hs Hp Hnew HQ Hmaj Hheld Hshown Hans Hg Hnd Hsub Hq Hcaught. rewrite Hp in Hsub, Hq.
  destruct (quorums_meet members c i s Q alive) as [Hi|(j & HjQ & Hj)]; [done..| |].
  - destruct (Hheld i Hi) as (s0 & Hs0 & Hr). rewrite Hs in Hs0. injection Hs0 as <-. right.
    by eapply (newer_reached (view := view)).
  - destruct (Hcaught j Hj) as (a & Hin & Ha). rewrite Forall_forall in Hans. destruct (Hans _ Hin eq_refl) as [text Ht].
    cbn in Ht. subst a. destruct (Hshown j text HjQ Hin) as [Hl|(rows & recs & r & Hrows & Hd & Hr & Hv & Hc)].
    + left. by eapply later_grows.
    + right. specialize (Ha text eq_refl rows recs key r Hrows Hd Hr). by rewrite Hv, Hc in Ha.
Qed.

(** C14. A read finds the writes acknowledged before it.  A PUT or DELETE of [key]
    has been acknowledged at version [v]; a node that is idle then serves, later
    and between whatever else happens, a GET of [key] whose requests for dumps
    are all answered.  When the read ends it names another node, has no quorum,
    or fails on the node's disk; or it answers with the committed record of
    version [v] that it holds by then, unless some node holds a later version. *)
Theorem reads_find_acknowledged_writes members c0 c1 c2 c3 request key tomb val v i b s :
  nodes_ok members c0 → at_rest c0 → reachable c0 c1 →
  (request, "OK " +:+ pretty v) ∈ answered_to c1 → written request = Some (key, tomb, val) →
  busy c1 !! i = None → reachable c1 c2 →
  busy c2 !! i = Some b → nodes c2 !! i = Some s →
  is_str key → request_words (b_request b) = ["GET"; Server.hex (as_bytes key)] →
  Forall dump_answered (own_requests s b) → exec c2 (Finish i) = Some c3 →
  ∃ resp, answered_to c3 = answered_to c2 ++ [(b_request b, resp)] ∧
    ((∃ leader, leader ≠ i ∧ resp = "REDIRECT " +:+ pretty leader) ∨ resp = "RETRY no-quorum" ∨
     starts_with resp "ERROR " = true ∨ later_write c3 key v ∨
     ∃ s' r, nodes c3 !! i = Some s' ∧ recorded (db s') key = Some r ∧ version r = v ∧ committed r = true ∧
       resp = if tombstone r then "NIL" else "VALUE " +:+ Server.hex (as_bytes (value r))).
Proof.
  intros Hn Hrest Hr1 Hin Hw Hidle Hr2 Hb Hs Hk Hreq Hans Hfin.
  pose proof (reachable_inv members c0 c1 Hn Hrest Hr1) as Hinv.
  destruct (inv_done _ _ Hinv _ _ Hin) as (v0 & w & Hv0 & Hw0 & _ & Q & HQ & Hmaj & Hheld); [exact (starts_with_self "OK " _)|].
  assert (v0 = v) as -> by (apply (inj pretty); by injection Hv0).
  rewrite Hw in Hw0. injection Hw0 as <-. cbn [fst] in Hheld.
  assert (tracked (λ j, j = i) (shown Q key v) c1) as Hfree by (intros j b' s' -> Hb' _; congruence).
  destruct (reachable_tracked (λ j, j = i) (held Q key v) (shown Q key v) members c1 c2 (inv_nodes _ _ Hinv) Hheld Hfree Hr2)
    as (Hok2 & _ & Hheld2 & Htr).
  pose proof (event_grows members c2 (Finish i) c3 Hok2 Hfin) as [_ Hg3].
  destruct (finish_run c2 i c3 Hfin) as (b' & s0 & resp & s' & n' & Hb' & Hs0 & Hend & Hrun & Hs' & Hans').
  rewrite Hb in Hb'. injection Hb' as <-. rewrite Hs in Hs0. injection Hs0 as <-.
  exists resp. split; [done|].
  pose proof (proj2 Hok2 i s Hs) as (Hgood & Hid & _).
  destruct (read_ends s b key resp s' n' Hgood Hk Hreq Hrun) as (Hnew & Hp & Hid' & [He|[(l & Hl & ->)|[->|[-> (alive & Hnd & Hsub & Hq & Hcaught)]]]]).
  - by right; right; left.
  - left. exists l. split; [congruence|done].
  - by right; left.
  - do 3 right. pose proof (Htr i b s eq_refl Hb Hs) as Hshown. rewrite Hend, take_ge in Hshown by done.
    destruct (read_reaches members c2 c3 i s s' Q key v (own_requests s b) alive) as [Hl|Hreach]; [done..|by left|].
    destruct (held_or_later c3 i s' key v Hs' Hreach) as [Hl|(r & Hrec & Hv & Hc)]; [by left|right].
    exists s', r. split_and!; [done..|]. rewrite Hrec. cbn. rewrite Hc. by destruct (tombstone r).
Qed.
End reads.

Lemma all_answered log :
  forallb (λ x, match x_answer x with inr _ => true | inl _ => false end) log = true → Forall dump_answered log.
Proof.
  intros Ha. apply Forall_forall. intros x Hin _. rewrite forallb_forall in Ha. specialize (Ha x). rewrite <- list_elem_of_In in Ha.
  destruct (x_answer x) as [e|text]; [by specialize (Ha Hin)|by exists text].
Qed.

Definition read_events : list event :=
  Accept 1 (as_bytes "GET 6b") (said ["PONG 2"; "PONG 3"; "DUMP 6b,1,0,1,61"; "DUMP 6b,1,0,1,61"]) :: replicate 4 (Exchanged 1).

Lemma reads_find_acknowledged_writes_witness :
  let c1 := after_events put_events in
  let c2 := after_events (put_events ++ read_events) in
  let c3 := after_events (put_events ++ read_events ++ [Finish 1]) in
  let b := MkBusy (as_bytes "GET 6b") (said ["PONG 2"; "PONG 3"; "DUMP 6b,1,0,1,61"; "DUMP 6b,1,0,1,61"]) 4 in
  nodes_ok (view := Datatypes.id) (ok := λ _ : mem, True) three_members three ∧ at_rest three ∧
  reachable (view := Datatypes.id) (ok := λ _ : mem, True) three c1 ∧
  (as_bytes "PUT 6b 61", "OK 1") ∈ answered_to c1 ∧ written (as_bytes "PUT 6b 61") = Some ("k", false, "a") ∧
  busy c1 !! 1%Z = None ∧ reachable (view := Datatypes.id) (ok := λ _ : mem, True) c1 c2 ∧
  busy c2 !! 1%Z = Some b ∧ nodes c2 !! 1%Z = Some (empty_node 1 [2; 3]%Z) ∧ is_str "k" ∧
  request_words (b_request b) = ["GET"; "6b"] ∧ Forall dump_answered (own_requests (empty_node 1 [2; 3]%Z) b) ∧
  exec c2 (Finish 1) = Some c3 ∧
  ∃ resp, answered_to c3 = answered_to c2 ++ [(as_bytes "GET 6b", resp)] ∧
    ((∃ leader, leader ≠ 1%Z ∧ resp = "REDIRECT " +:+ pretty leader) ∨ resp = "RETRY no-quorum" ∨
     starts_with resp "ERROR " = true ∨ later_write (view := Datatypes.id) c3 "k" 1 ∨
     ∃ s' r, nodes c3 !! 1%Z = Some s' ∧ recorded (view := Datatypes.id) (db s') "k" = Some r ∧ version r = 1%Z ∧ committed r = true ∧
       resp = if tombstone r then "NIL" else "VALUE " +:+ Server.hex (as_bytes (value r))).
Proof.
  intros c1 c2 c3 b. assert (at_rest three) as H1 by done.
  assert (reachable (view := Datatypes.id) (ok := λ _ : mem, True) three c1) as H2 by (apply after_reachable; vm_compute; eauto).
  assert ((as_bytes "PUT 6b 61", "OK 1") ∈ answered_to c1) as H3 by (apply list_elem_of_lookup; exists 0%nat; vm_compute; reflexivity).
  assert (written (as_bytes "PUT 6b 61") = Some ("k", false, "a")) as H4 by (vm_compute; reflexivity).
  assert (busy c1 !! 1%Z = None) as H5 by (vm_compute; reflexivity).
  assert (reachable (view := Datatypes.id) (ok := λ _ : mem, True) c1 c2) as H6
    by (apply (exec_all_reachable c1 read_events c1 c2); [constructor|vm_compute; reflexivity]).
  assert (busy c2 !! 1%Z = Some b) as H7 by (vm_compute; reflexivity).
  assert (nodes c2 !! 1%Z = Some (empty_node 1 [2; 3]%Z)) as H8 by (vm_compute; reflexivity).
  assert (request_words (b_request b) = ["GET"; "6b"]) as H9 by (vm_compute; reflexivity).
  assert (Forall dump_answered (own_requests (empty_node 1 [2; 3]%Z) b)) as H10.
  { apply all_answered. vm_compute. reflexivity. }
  assert (exec c2 (Finish 1) = Some c3) as H11 by (vm_compute; reflexivity).
  exact (conj three_ok (conj H1 (conj H2 (conj H3 (conj H4 (conj H5 (conj H6 (conj H7 (conj H8 (conj eq_refl (conj H9 (conj H10 (conj H11
    (reads_find_acknowledged_writes (view := Datatypes.id) (ok := λ _ : mem, True) three_members three c1 c2 c3 _ "k" false "a" 1 1 b _
       three_ok H1 H2 H3 H4 H5 H6 H7 H8 eq_refl H9 H10 H11)))))))))))))).
Defined.

(** ** What reads do not promise *)

(** Node 1 acknowledges a PUT that all nodes hold, stages a second one at node 2
    only, and is not reached any more. *)
Definition hidden_write_events : list event :=
  serve 1 "PUT 6b 61" (said ["PONG 2"; "PONG 3"; "DUMP "; "DUMP "; "OK"; "OK"; "OK"; "OK"])
  ++ serve 1 "PUT 6b 62" (said ["PONG 2"; "PONG 3"; "DUMP 6b,1,0,1,61"; "DUMP 6b,1,0,1,61"; "OK"] ++ [lost; lost])
  ++ serve 2 "GET 6b" (lost :: said ["PONG 3"; "DUMP 6b,1,0,1,61"]).

(** A staged copy hides the committed value.  A REPL request replaces the
    record of a key by the staged one, so a node that staged a write which was
    then not committed holds nothing it can answer with: the next leader says
    that a key is absent which an acknowledged PUT has written and no DELETE was
    ever sent for, although its quorum holds the value. *)
Theorem staged_copies_hide_an_acknowledged_write :
  (λ c, answered_to c) <$> exec_all three hidden_write_events =
  Some [(as_bytes "PUT 6b 61", "OK 1"); (as_bytes "PUT 6b 62", "RETRY indeterminate"); (as_bytes "GET 6b", "NIL")].
Proof. vm_compute. reflexivity. Qed.

(** Nodes 1 and 2 do not reach each other, and both reach node 3: each serves a
    PUT, at the same time; then all reach each other again. *)
Definition two_leaders_events : list event :=
  [Accept 1 (as_bytes "PUT 6b 61") (lost :: said ["PONG 3"; "DUMP "; "OK"; "OK"]); Exchanged 1; Exchanged 1; Exchanged 1;
   Accept 2 (as_bytes "PUT 6b 62") (lost :: said ["PONG 3"; "DUMP "; "OK"; "OK"]); Exchanged 2; Exchanged 2; Exchanged 2;
   Exchanged 1; Exchanged 2; Exchanged 1; Finish 1; Exchanged 2; Finish 2]
  ++ serve 2 "GET 6b" (lost :: said ["PONG 3"; "DUMP 6b,1,0,1,61"])
  ++ serve 1 "GET 6b" (said ["PONG 2"; "PONG 3"; "DUMP 6b,1,0,1,62"; "DUMP 6b,1,0,1,61"]).

(** Two leaders acknowledge one version.  A node that reaches a majority but
    not the node before it leads too; two such nodes may give different writes
    the same version, and a peer answers OK to a REPL and a COMMIT whose record
    it did not keep.  Both writes are acknowledged, the two nodes answer
    different values from then on, and one of the writes is lost when they reach
    each other again. *)
Theorem two_leaders_acknowledge_one_version :
  (λ c, answered_to c) <$> exec_all three two_leaders_events =
  Some [(as_bytes "PUT 6b 61", "OK 1"); (as_bytes "PUT 6b 62", "OK 1");
        (as_bytes "GET 6b", "VALUE 62"); (as_bytes "GET 6b", "VALUE 61")].
Proof. vm_compute. reflexivity. Qed.
