(* ===== verification/Connection.v ===== *)
(** Connections: how the nodes and the client of the TCP cluster exchange the
    requests and answers of Server.v ([Server::bind], [Server::run],
    [request_peer], [request_peer_fast] of src/src/server.rs).

    A connection is a [Stream] at each end.  What the listener accepts, and when
    the server is told to stop, is given: a list of what each round of the loop
    finds.  Timeouts are how a [Stream] ends; the sleep of an idle round is not
    modelled. *)

From stdpp Require Import gmap.
From Stdlib Require Import Ascii.
From S2P Require Import Prelude Bytes Frame Store Server ServerSpec.

(** ** Asking *)

(** [request_peer] and [request_peer_fast]: they differ in the timeout, after
    which connecting, reading and writing fail. *)
Definition request_peer_with_timeout (connection : io Stream) (request : string) : io string * option Stream :=
  dial connection (
    _ ← write_frame (as_bytes request);
    response ← read_frame;
    lift (from_utf8 response (invalid "cluster: response is not UTF-8"))).

(** ** Serving *)

(** What a round of the loop finds: a connection, once its timeouts are set;
    nobody; or a failure of the listener. *)
Inductive incoming : Type :=
| Accepted (timeouts : io unit) (stream : Stream)
| WouldBlock
| AcceptFailed (e : io_error).

Section server.
Context {D : Type} `{Records D}.

(** The node, its network, and the connections it has closed. *)
Abbreviation listening := (M ((Server D * Net) * list Stream) io_error).

(** [read_frame(&mut stream).and_then(|request| self.handle(&request))], an error as text,
    and [let _ = write_frame(..)]. *)
Definition serve_stream (stream : Stream) : M (Server D * Net) io_error Stream := λ st,
  let '(request, stream) := read_frame stream in
  let '(response, st') := match request with Ok request => handle request st | Err e => (Err e, st) | Panic p => (Panic p, st) end in
  match response with
  | Ok text => (Ok (snd (write_frame (as_bytes text) stream)), st')
  | Err e => (Ok (snd (write_frame (as_bytes ("ERROR " +:+ err_msg e)) stream)), st')
  | Panic p => (Panic p, st')
  end.

Definition close (stream : Stream) : listening unit := modify (λ s, (fst s, snd s ++ [stream])).

Fixpoint run (rounds : list incoming) : listening unit :=
  match rounds with
  | [] => mret tt
  | Accepted timeouts stream :: rounds =>
    _ ← lift timeouts;
    stream ← zoom fst (λ st s, (st, snd s)) (serve_stream stream);
    _ ← close stream;
    run rounds
  | WouldBlock :: rounds => run rounds
  | AcceptFailed e :: _ => fail e
  end.
End server.

(** [create_dir_all] and the listener's socket may fail; the store is that of the
    data directory. *)
Definition bind (node : Z) (peers : list Z) (directory listener : io unit) : M disk io_error (Server Store) :=
  _ ← lift directory;
  _ ← lift listener;
  store ← Store.open;
  mret (MkServer node peers ∅ store).

(** ** Both ends *)

(** The end of a connection at which these bytes arrive before the other end
    closes it. *)
Definition arriving (bs : bytes) : Stream := MkStream bs unexpected_eof [] None unexpected_eof.

(** What a node sends for a response. *)
Definition sent (response : string) : bytes :=
  if decide (fits (as_bytes response)) then framed (as_bytes response) else [].

#[export] Instance fits_dec p : Decision (fits p).
Proof. apply _. Defined.

Section exchanges.
Context {D : Type} {HRecords : Records D} {view : D → gmap string string} {ok : D → Prop} {HL : RecordsLaws D view ok}.
Abbreviation good := (good (view := view) (ok := ok)).

(** A connection over which a request arrives is answered as the request is. *)
Lemma serve_answers request resp rest stream (s s' : Server D) n n' :
  fits request → s_in stream = framed request ++ rest → s_room stream = None →
  respond request (s, n) = (Ok resp, (s', n')) →
  ∃ stream', serve_stream stream (s, n) = (Ok stream', (s', n')) ∧ s_out stream' = s_out stream ++ sent resp.
Proof.
  intros Hf Hin Hroom Hr. unfold serve_stream. rewrite (read_stream request rest stream Hf Hin).
  set (st := MkStream rest _ _ _ _). assert (∀ text, s_out (snd (write_frame (as_bytes text) st)) = s_out stream ++ sent text) as Hw.
  { intros text. unfold sent. destruct (decide (fits (as_bytes text))) as [Ht|Ht].
    - by rewrite (write_stream (as_bytes text) st Ht Hroom).
    - destruct (write_frame_large (as_bytes text) st Ht) as [e ->]. cbn. by rewrite app_nil_r. }
  unfold respond in Hr. destruct (handle request (s, n)) as [[text|e|p] st']; [| |done]; injection Hr as <- ->; eexists; split; (done || apply Hw).
Qed.

(** One that is closed, or silent, before a whole frame has arrived leaves the node as it was. *)
Lemma serve_cut request k stream (st : Server D * Net) :
  fits request → k < length (framed request) → s_in stream = take k (framed request) →
  ∃ stream', serve_stream stream st = (Ok stream', st).
Proof.
  intros Hf Hk Hin. unfold serve_stream. destruct (read_cut request k stream Hf Hk Hin) as (stream' & -> & _). by eexists.
Qed.

(** What the asking end makes of what arrives. *)
Lemma request_answered request resp :
  fits (as_bytes request) → is_str resp →
  ∃ stream, request_peer_with_timeout (Ok (arriving (sent resp))) request =
    (if decide (fits (as_bytes resp)) then Ok resp else Err unexpected_eof, Some stream) ∧ s_out stream = framed (as_bytes request).
Proof.
  intros Hf Hs. unfold request_peer_with_timeout, dial. rewrite (M_bind_run _ _ _ _ _ (write_stream _ (arriving (sent resp)) Hf eq_refl)).
  cbn [s_in s_out s_end s_fault arriving app]. unfold sent. destruct (decide (fits (as_bytes resp))) as [Ht|Ht].
  - erewrite M_bind_run; [|apply (read_stream (as_bytes resp) []); [done|by rewrite app_nil_r]].
    rewrite from_utf8_as_bytes by done. eexists. split; [reflexivity|done].
  - eexists. split; [reflexivity|done].
Qed.

(** A round of the server's loop: a connection with a request, or nobody. *)
Definition knock (q : option string) : incoming :=
  match q with Some q => Accepted (Ok tt) (arriving (framed (as_bytes q))) | None => WouldBlock end.

(** What both ends have of an exchange. *)
Definition exchanged (q resp : string) (stream : Stream) : Prop :=
  s_out stream = sent resp ∧
  (is_str resp → ∃ back, request_peer_with_timeout (Ok (arriving (s_out stream))) q =
     (if decide (fits (as_bytes resp)) then Ok resp else Err unexpected_eof, Some back) ∧ s_out back = framed (as_bytes q)).

(** C18. Exchanges are what the model of the cluster takes them for.  A running
    server serves every connection over which a request arrives, in turn, as
    [respond] handles the request; the asking end sends exactly the frame the
    server reads, and gets exactly the response, if that fits a frame.  A
    response of more than 16 MiB is not sent at all, and the asking end finds
    the connection closed. *)
Theorem exchanges_cross_connections s n knocks :
  good s → Forall (λ q, fits (as_bytes q)) (omap Datatypes.id knocks) →
  ∃ resps s' n' streams,
    mapM (λ q, respond (as_bytes q)) (omap Datatypes.id knocks) (s, n) = (Ok resps, (s', n')) ∧
    run (knock <$> knocks) ((s, n), []) = (Ok tt, ((s', n'), streams)) ∧
    Forall3 exchanged (omap Datatypes.id knocks) resps streams.
Proof.
  intros Hs Hf.
  assert (∀ before, ∃ resps s' n' streams,
    mapM (λ q, respond (as_bytes q)) (omap Datatypes.id knocks) (s, n) = (Ok resps, (s', n')) ∧
    run (knock <$> knocks) ((s, n), before) = (Ok tt, ((s', n'), before ++ streams)) ∧
    Forall3 exchanged (omap Datatypes.id knocks) resps streams) as H; [|apply (H [])].
  induction knocks as [|[q|] knocks IH] in s, n, Hs, Hf |- *; intros before.
  - exists [], s, n, []. cbn. rewrite app_nil_r. split_and!; [done..|constructor].
  - apply Forall_cons in Hf as [Hq Hf].
    destruct (respond_total (as_bytes q) s n Hs) as (resp & s1 & n1 & _ & Hr & _ & Hs1 & _).
    destruct (serve_answers (as_bytes q) resp [] (arriving (framed (as_bytes q))) s s1 n n1 Hq (eq_sym (app_nil_r _)) eq_refl Hr)
      as (stream & Hserve & Hout).
    destruct (IH s1 n1 Hs1 Hf (before ++ [stream])) as (resps & s' & n' & streams & Hm & Hrun & Hall).
    exists (resp :: resps), s', n', (stream :: streams). cbn [omap list_omap Datatypes.id mapM fmap list_fmap knock run]. split_and!.
    + by rewrite (M_bind_run _ _ _ _ _ Hr), (M_bind_run _ _ _ _ _ Hm).
    + unfold mbind, M_bind, lift, zoom, close, modify. cbn [fst snd]. rewrite Hserve. cbn [fst snd]. by rewrite Hrun, <- app_assoc.
    + constructor; [|done]. split; [done|]. intros Hstr. rewrite Hout. by apply request_answered.
  - destruct (IH s n Hs Hf before) as (resps & s' & n' & streams & Hm & Hrun & Hall). by exists resps, s', n', streams.
Qed.
End exchanges.

Lemma exchanges_cross_connections_witness :
  good (view := Datatypes.id) (ok := λ _, True) sample_server ∧
  Forall (λ q, fits (as_bytes q)) (omap Datatypes.id [Some "PING"; None; Some "DUMP"]) ∧
  ∃ resps s' n' streams,
    mapM (λ q, respond (as_bytes q)) (omap Datatypes.id [Some "PING"; None; Some "DUMP"]) (sample_server, MkNet [] []) = (Ok resps, (s', n')) ∧
    run (knock <$> [Some "PING"; None; Some "DUMP"]) ((sample_server, MkNet [] []), []) = (Ok tt, ((s', n'), streams)) ∧
    Forall3 exchanged (omap Datatypes.id [Some "PING"; None; Some "DUMP"]) resps streams.
Proof.
  assert (Forall (λ q, fits (as_bytes q)) (omap Datatypes.id [Some "PING"; None; Some "DUMP"])) as H.
  { unfold fits, MAX_FRAME. cbn. repeat constructor; cbn; lia. }
  exact (conj sample_server_good (conj H (exchanges_cross_connections (view := Datatypes.id) (ok := λ _, True) sample_server (MkNet [] []) _
    sample_server_good H))).
Defined.
