(* ===== verification/Client.v ===== *)
(** The cluster client: src/src/client.rs, and what it makes of the nodes' answers.

    A request goes to the preferred node, then to the others; a redirect changes
    the preferred node and starts the next attempt, a RETRY or an error moves on
    to the next node.  Between attempts the source sleeps, longer each time; that
    is not modelled.  The answers are those of [Net], as for the nodes. *)

From stdpp Require Import gmap.
From Stdlib Require Import Ascii.
From S2P Require Import Prelude Bytes SqlLexer SqlText Catalog CatalogSpec Words Server ServerText ServerSpec TcpCluster.

Definition invalid (message : string) : io_error := invalid_input message.

(** The source has its own copies of these, with errors of its own kind. *)
Definition hex : bytes → string := Server.hex.
Definition digit : u8 → io Z := Server.digit invalid.
Definition unhex_string : string → io string := Server.unhex_string invalid.

(** [c_nodes] are the keys of the source's map of addresses, in order. *)
Record ClusterClient : Type := MkClient { c_nodes : list Z; attempts : nat }.
Definition new (nodes : list Z) : ClusterClient := MkClient nodes 8.

Abbreviation client := (M Net io_error).

Definition request_peer (node : Z) (request : string) : client answer := λ n,
  let a := hd timed_out (to_come n) in
  (Ok a, MkNet (asked n ++ [Exchange node request a]) (tl (to_come n))).

(** How a round over the nodes ends. *)
Inductive outcome : Type :=
| Answered (response : string)
| Redirected (target : option Z)
| Unanswered.

(** [self.nodes[&id]] of a node the client does not know panics. *)
Fixpoint ask_nodes (known ids : list Z) (request : string) : client outcome :=
  match ids with
  | [] => mret Unanswered
  | id :: ids =>
    if decide (id ∉ known) then panic "no entry found for key" else
    a ← request_peer id request;
    match a with
    | inl _ => ask_nodes known ids request
    | inr response =>
      match strip_prefix "REDIRECT " response with
      | Some target => mret (Redirected (parse_unsigned (as_bytes target)))
      | None => if starts_with response "RETRY " then ask_nodes known ids request else mret (Answered response)
      end
    end
  end.

(** [preferred] first, then the other nodes. *)
Definition in_turn (preferred : option Z) (known : list Z) : list Z :=
  match preferred with Some p => [p] | None => [] end ++ List.filter (λ id, negb (bool_decide (Some id = preferred))) known.

Fixpoint attempt (n : nat) (known : list Z) (preferred : option Z) (request : string) : client string :=
  match n with
  | O => fail (IoError TimedOut "cluster: no majority leader answered")
  | S n =>
    o ← ask_nodes known (in_turn preferred known) request;
    match o with
    | Answered response => mret response
    | Redirected target => attempt n known target request
    | Unanswered => attempt n known preferred request
    end
  end.

Definition request (c : ClusterClient) (text : string) : client string :=
  attempt (attempts c) (c_nodes c) (head (c_nodes c)) text.

Definition put (c : ClusterClient) (key value : string) : client unit :=
  response ← request c ("PUT " +:+ hex (as_bytes key) +:+ " " +:+ hex (as_bytes value));
  if starts_with response "OK " then mret tt
  else fail (IoError TimedOut "cluster: write remained indeterminate").

Definition delete (c : ClusterClient) (key : string) : client unit :=
  response ← request c ("DELETE " +:+ hex (as_bytes key));
  if starts_with response "OK " then mret tt
  else fail (IoError TimedOut "cluster: delete remained indeterminate").

Definition get (c : ClusterClient) (key : string) : client (option string) :=
  response ← request c ("GET " +:+ hex (as_bytes key));
  if decide (response = "NIL") then mret None else
  match strip_prefix "VALUE " response with
  | Some value => v ← lift (unhex_string value); mret (Some v)
  | None => fail (IoError TimedOut "cluster: read remained indeterminate")
  end.

(** [request_peer(..)?] of one node, and its answer compared with OK. *)
Definition command (c : ClusterClient) (node : Z) (text failed : string) : client unit :=
  if decide (node ∉ c_nodes c) then fail (invalid "cluster: unknown node") else
  a ← request_peer node text;
  match a with
  | inl e => fail e
  | inr response => if decide (response = "OK") then mret tt else fail (invalid failed)
  end.
Definition block (c : ClusterClient) (node peer : Z) : client unit :=
  command c node ("ADMIN_BLOCK " +:+ pretty peer) "cluster: block failed".
Definition heal (c : ClusterClient) (node : Z) : client unit :=
  command c node "ADMIN_HEAL" "cluster: heal failed".

(** A redirect is followed, and a RETRY passed over. *)
Example get_follows_redirects :
  get (new [1; 2; 3]%Z) "k" (MkNet [] (inr <$> ["REDIRECT 2"; "RETRY no-quorum"; "VALUE 6f6b"]))
  = (Ok (Some "ok"), MkNet [Exchange 1 "GET 6b" (inr "REDIRECT 2"); Exchange 2 "GET 6b" (inr "RETRY no-quorum");
                           Exchange 1 "GET 6b" (inr "VALUE 6f6b")] []).
Proof. vm_compute. reflexivity. Qed.

(** ** A request ends, with the answer of a node *)

(** An answer that ends a request. *)
Definition final (response : string) : Prop :=
  strip_prefix "REDIRECT " response = None ∧ starts_with response "RETRY " = false.

Definition not_final (new : list exchange) : Prop :=
  Forall (λ x, ∀ response, x_answer x = inr response → ¬ final response) new.

Definition ended_with (text response : string) (new : list exchange) : Prop :=
  ∃ node, last new = Some (Exchange node text (inr response)).

(** The last answer is a redirect to [target]. *)
Definition redirected (text : string) (target : option Z) (new : list exchange) : Prop :=
  ∃ response rest, ended_with text response new ∧ strip_prefix "REDIRECT " response = Some rest ∧
    parse_unsigned (as_bytes rest) = target.

Definition asks_for (known : list Z) (text : string) (new : list exchange) : Prop :=
  Forall (λ x, x_peer x ∈ known ∧ x_request x = text) new.

(** What a round leaves in the log, and how it ends. *)
Definition round_ended (text : string) (o : io outcome) (new : list exchange) : Prop :=
  match o with
  | Ok (Answered response) => final response ∧ ended_with text response new
  | Ok (Redirected target) => not_final new ∧ redirected text target new
  | Ok Unanswered => not_final new
  | _ => False
  end.

Lemma ended_with_app text response l new : ended_with text response new → ended_with text response (l ++ new).
Proof. intros [node H]. exists node. rewrite last_app. by rewrite H. Qed.
Lemma redirected_app text target l new : redirected text target new → redirected text target (l ++ new).
Proof. intros (response & rest & H & ?). exists response, rest. split; [by apply ended_with_app|done]. Qed.

Lemma ask_nodes_ended known ids text n o n' :
  Forall (λ id, id ∈ known) ids → ask_nodes known ids text n = (o, n') →
  ∃ new, asked n' = asked n ++ new ∧ length new ≤ length ids ∧ asks_for known text new ∧ round_ended text o new.
Proof.
  intros Hids. revert n o n'. induction Hids as [|id ids Hid Hids IH]; intros n o n'; cbn [ask_nodes].
  { intros [= <- <-]. exists []. rewrite app_nil_r. split_and!; [done|cbn; lia|constructor|constructor]. }
  rewrite decide_False by (intros H; by apply H). unfold request_peer at 1. unfold mbind, M_bind.
  set (a := hd timed_out (to_come n)). set (n1 := MkNet (asked n ++ [Exchange id text a]) (tl (to_come n))).
  assert (ask_nodes known ids text n1 = (o, n') → (∀ response, a = inr response → ¬ final response) →
    ∃ new, asked n' = asked n ++ new ∧ length new ≤ length (id :: ids) ∧ asks_for known text new ∧ round_ended text o new) as Hnext.
  { intros Hrun Hnf. destruct (IH n1 o n' Hrun) as (new & Hn & Hl & Hall & Ho). exists ([Exchange id text a] ++ new).
    split_and!; [rewrite Hn; cbn; by rewrite <- app_assoc|cbn; lia|by constructor|].
    destruct o as [[response|target|]| |]; [|..|done|done].
    - destruct Ho as [? ?]. split; [done|by apply ended_with_app].
    - destruct Ho as [Hf ?]. split; [by constructor|by apply redirected_app].
    - by constructor. }
  subst a n1. destruct (hd timed_out (to_come n)) as [e|response]; [intros Hrun; by apply Hnext|].
  destruct (strip_prefix "REDIRECT " response) as [rest|] eqn:Hre.
  - intros [= <- <-]. exists [Exchange id text (inr response)]. split_and!; [done|cbn; lia|by repeat constructor|].
    split; [|exists response, rest; split; [by exists id|done]].
    repeat constructor. cbn. intros ? [= <-] [Hf _]. congruence.
  - destruct (starts_with response "RETRY ") eqn:Hr.
    + intros Hrun. apply (Hnext Hrun). intros ? [= <-] [_ Hf]. congruence.
    + intros [= <- <-]. exists [Exchange id text (inr response)]. split_and!; [done|cbn; lia|by repeat constructor|].
      split; [done|by exists id].
Qed.

(** What a request leaves in the log, and its result. *)
Definition request_ended (known : list Z) (text : string) (r : io string) (new : list exchange) : Prop :=
  match r with
  | Ok response => final response ∧ ended_with text response new
  | Err e => e = IoError TimedOut "cluster: no majority leader answered" ∧ not_final new
  | Panic _ => ∃ target, target ∉ known ∧ redirected text (Some target) new
  end.

Lemma length_others (p : Z) known :
  NoDup known → p ∈ known → S (length (List.filter (λ id, negb (bool_decide (Some id = Some p))) known)) = length known.
Proof.
  intros Hnd. induction Hnd as [|id known Hid Hnd IH]; [by intros ?%elem_of_nil|]. intros [->|Hp]%elem_of_cons; cbn [List.filter length].
  - rewrite bool_decide_true by done. cbn [negb]. f_equal. clear IH. induction known as [|x known IH]; [done|].
    apply not_elem_of_cons in Hid as [Hx Hid]. apply NoDup_cons in Hnd as [_ Hnd]. cbn [List.filter]. rewrite bool_decide_false by congruence.
    cbn [negb length]. f_equal. by apply IH.
  - rewrite bool_decide_false by congruence. cbn [negb length]. f_equal. by apply IH.
Qed.

Lemma in_turn_known p known :
  NoDup known → (∀ x, p = Some x → x ∈ known) →
  Forall (λ id, id ∈ known) (in_turn p known) ∧ length (in_turn p known) = length known.
Proof.
  intros Hnd Hp. split.
  - unfold in_turn. apply Forall_app. split; [destruct p; repeat constructor; by apply Hp|].
    apply Forall_forall. intros id [Hin _]%list_elem_of_In%List.filter_In. by apply list_elem_of_In.
  - unfold in_turn. rewrite length_app. destruct p as [p|]; cbn [length Nat.add]; [by apply length_others, Hp|].
    f_equal. clear. induction known as [|id known IH]; [done|]. cbn [List.filter]. rewrite bool_decide_false by done. cbn. by rewrite IH.
Qed.

Lemma unknown_panics known p ids text n :
  p ∉ known → ask_nodes known (p :: ids) text n = (Panic "no entry found for key", n).
Proof. intros Hp. cbn [ask_nodes]. by rewrite decide_True. Qed.

Lemma attempt_ended k known p text n r n' :
  NoDup known → not_final (asked n) → asks_for known text (asked n) →
  (∀ target, p = Some target → target ∉ known → redirected text (Some target) (asked n)) →
  attempt k known p text n = (r, n') →
  ∃ new, asked n' = asked n ++ new ∧ length new ≤ k * length known ∧ asks_for known text (asked n') ∧
    request_ended known text r (asked n').
Proof.
  intros Hnd. revert p n. induction k as [|k IH]; intros p n Hnf Hasks Hp; cbn [attempt].
  { intros [= <- <-]. exists []. rewrite app_nil_r. split_and!; [done|cbn; lia|done|done..]. }
  assert (∀ o n1, ask_nodes known (in_turn p known) text n = (o, n1) → (∀ x, p = Some x → x ∈ known) →
    ∃ new, asked n1 = asked n ++ new ∧ length new ≤ length known ∧ asks_for known text (asked n1) ∧ round_ended text o new) as Hround.
  { intros o n1 Hrun Hkn. destruct (in_turn_known p known Hnd Hkn) as [Hids Hlen].
    destruct (ask_nodes_ended known _ text n o n1 Hids Hrun) as (new & Hn & Hl & Ha & Ho). exists new.
    rewrite Hlen in Hl. split_and!; [done..|rewrite Hn; by apply Forall_app|done]. }
  assert ((∃ t, p = Some t ∧ t ∉ known) ∨ (∀ x, p = Some x → x ∈ known)) as [(t & -> & Ht)|Hkn].
  { destruct p as [t|]; [|by right]. destruct (decide (t ∈ known)); [|by left; eauto]. right. by intros x [= <-]. }
  { unfold in_turn. cbn [app]. rewrite (M_bind_panic _ _ _ _ _ (unknown_panics known t _ text n Ht)). intros [= <- <-].
    exists []. rewrite app_nil_r. split_and!; [done|cbn; lia|done|]. exists t. split; [done|by apply Hp]. }
  destruct (ask_nodes known (in_turn p known) text n) as [o n1] eqn:H1.
  destruct (Hround o n1 eq_refl Hkn) as (new & Hn & Hl & Ha & Ho).
  assert (∀ q, not_final new → (∀ target, q = Some target → target ∉ known → redirected text (Some target) (asked n1)) →
    attempt k known q text n1 = (r, n') →
    ∃ new0, asked n' = asked n ++ new0 ∧ length new0 ≤ S k * length known ∧ asks_for known text (asked n') ∧
      request_ended known text r (asked n')) as Hmore.
  { intros q Hnf1 Hq Hrun. destruct (IH q n1) as (new2 & Hn2 & Hl2 & Ha2 & Hr2); [rewrite Hn; by apply Forall_app|done..|].
    exists (new ++ new2). split_and!; [by rewrite Hn2, Hn, app_assoc|rewrite length_app; cbn; lia|done..]. }
  destruct o as [[response|target|]| |]; [| | |done|done]; rewrite (M_bind_run _ _ _ _ _ H1).
  - intros [= <- <-]. exists new. split_and!; [done|cbn; lia|done|]. destruct Ho as [? ?]. split; [done|].
    rewrite Hn. by apply ended_with_app.
  - destruct Ho as [Hnf1 Hre]. apply Hmore; [done|]. intros t -> _. rewrite Hn. by apply redirected_app.
  - apply Hmore; [done|]. intros t -> Ht. by destruct (Ht (Hkn t eq_refl)).
Qed.

Lemma request_run c text answers r n' :
  NoDup (c_nodes c) → request c text (MkNet [] answers) = (r, n') →
  length (asked n') ≤ attempts c * length (c_nodes c) ∧ asks_for (c_nodes c) text (asked n') ∧
  request_ended (c_nodes c) text r (asked n').
Proof.
  intros Hnd Hrun. destruct (attempt_ended (attempts c) (c_nodes c) (head (c_nodes c)) text (MkNet [] answers) r n')
    as (new & Hn & Hl & Ha & Hr); [done|constructor|constructor| |done|].
  - intros target Hh Hnin. destruct (c_nodes c); [done|]. injection Hh as ->. destruct Hnin. by left.
  - cbn in Hn. rewrite Hn in *. done.
Qed.

(** C17. A request of the client ends, and means what it says.  It makes at most as
    many requests as attempts times nodes, each the one asked for and to a known
    node.  When it returns a response, that is the last answer a node gave, and
    neither a redirect nor a RETRY; when it fails, it fails with a timeout and no
    node's answer was anything else; and when it panics, the last answer was a
    redirect to a node that is not in the client's map, which is then indexed
    with it. *)
Theorem request_ends_with_an_answer c text answers r n' :
  NoDup (c_nodes c) → request c text (MkNet [] answers) = (r, n') →
  length (asked n') ≤ attempts c * length (c_nodes c) ∧
  Forall (λ x, x_peer x ∈ c_nodes c ∧ x_request x = text) (asked n') ∧
  match r with
  | Ok response => final response ∧ ended_with text response (asked n')
  | Err e => e = IoError TimedOut "cluster: no majority leader answered" ∧ not_final (asked n')
  | Panic _ => ∃ target, target ∉ c_nodes c ∧ redirected text (Some target) (asked n')
  end.
Proof.
  apply request_run.
Qed.

Definition sample_answers : list answer := inr <$> ["REDIRECT 2"; "RETRY no-quorum"; "REDIRECT 9"].

Lemma request_ends_with_an_answer_witness :
  NoDup (c_nodes (new [1; 2]%Z)) ∧
  request (new [1; 2]%Z) "GET 6b" (MkNet [] sample_answers)
    = (Panic "no entry found for key", snd (request (new [1; 2]%Z) "GET 6b" (MkNet [] sample_answers))) ∧
  length (asked (snd (request (new [1; 2]%Z) "GET 6b" (MkNet [] sample_answers)))) ≤ 8 * 2 ∧
  Forall (λ x, x_peer x ∈ [1; 2]%Z ∧ x_request x = "GET 6b")
    (asked (snd (request (new [1; 2]%Z) "GET 6b" (MkNet [] sample_answers)))) ∧
  ∃ target, target ∉ [1; 2]%Z ∧
    redirected "GET 6b" (Some target) (asked (snd (request (new [1; 2]%Z) "GET 6b" (MkNet [] sample_answers)))).
Proof.
  assert (NoDup (c_nodes (new [1; 2]%Z))) as H1 by (cbn; repeat constructor; set_solver).
  assert (request (new [1; 2]%Z) "GET 6b" (MkNet [] sample_answers)
    = (Panic "no entry found for key", snd (request (new [1; 2]%Z) "GET 6b" (MkNet [] sample_answers)))) as H2
    by (vm_compute; reflexivity).
  exact (conj H1 (conj H2 (request_ends_with_an_answer _ _ _ _ _ H1 H2))).
Defined.

(** ** A client of the cluster *)

Definition put_words (key value : string) : list string := ["PUT"; Server.hex (as_bytes key); Server.hex (as_bytes value)].

Lemma put_written key value w :
  is_str key → is_str value →
  written (as_bytes ("PUT " +:+ hex (as_bytes key) +:+ " " +:+ hex (as_bytes value))) = Some w → w = (key, false, value).
Proof.
  intros Hk Hv. unfold hex. assert ("PUT " +:+ Server.hex (as_bytes key) +:+ " " +:+ Server.hex (as_bytes value)
    = of_bytes (join " "%char (as_bytes <$> put_words key value))) as ->.
  { apply as_bytes_inj. rewrite as_of_bytes, !as_bytes_app. done. }
  assert (Forall (λ w, plain (as_bytes w)) (put_words key value)) as Hp.
  { unfold put_words. rewrite !Forall_cons. split_and!; [by apply plain_word| | |by apply Forall_nil]; apply field_plain, field_hex. }
  unfold written, request_words. rewrite from_utf8_as_bytes by (by apply words_str). rewrite words_join by done.
  unfold put_words. rewrite !keep_word, !hex_word_empty. rewrite (bool_decide_false ("PUT" = "")) by done.
  destruct (bool_decide (key = "")), (bool_decide (value = "")); cbn [words_write List.filter]; try done.
  unfold unhexed. rewrite !unhex_string_hex by done. by intros [= <-].
Qed.

Section client.
Context {D : Type} {HRecords : Records D} {view : D → gmap string string} {ok : D → Prop} {HL : RecordsLaws D view ok}.

(** C15. What the client's user may conclude.  The client of a cluster (its requests
    are answered, when they are, by nodes of the cluster, as in TcpCluster.v)
    reports a PUT as done only when the last answer it got, from some node and to
    this very PUT, was OK with the version the write was given, and a majority
    of the nodes holds, under that key, a committed record of that version, or a
    record of a greater one; and, with more than one node, the value was not
    the empty text. *)
Theorem client_put_reaches_majority members c0 c cl key value answers n' :
  nodes_ok (view := view) (ok := ok) members c0 → at_rest c0 → reachable (view := view) (ok := ok) c0 c →
  NoDup (c_nodes cl) → is_str key → is_str value →
  put cl key value (MkNet [] answers) = (Ok tt, n') →
  (∀ x response, x ∈ asked n' → x_answer x = inr response → (as_bytes (x_request x), response) ∈ answered_to c) →
  ∃ node v,
    last (asked n') = Some (Exchange node ("PUT " +:+ hex (as_bytes key) +:+ " " +:+ hex (as_bytes value)) (inr ("OK " +:+ pretty v))) ∧
    (2 ≤ size members → value ≠ "") ∧
    ∃ Q : gset Z, Q ⊆ members ∧ size members < 2 * size Q ∧
      ∀ j, j ∈ Q → ∃ s r, nodes c !! j = Some s ∧ recorded (view := view) (db s) key = Some r ∧
        ((v < version r)%Z ∨ version r = v ∧ committed r = true).
Proof.
  intros Hn Hrest Hr Hnd Hk Hv Hput Hfrom. unfold put in Hput. apply M_bind_ok in Hput as (response & n1 & Hreq & Hput).
  destruct (starts_with response "OK ") eqn:Hok; [injection Hput as ->|done].
  destruct (request_run cl _ answers _ n' Hnd Hreq) as (_ & _ & _ & node & Hlast).
  assert (Exchange node ("PUT " +:+ hex (as_bytes key) +:+ " " +:+ hex (as_bytes value)) (inr response) ∈ asked n') as Hin.
  { rewrite last_lookup in Hlast. by eapply list_elem_of_lookup_2. }
  pose proof (Hfrom _ response Hin eq_refl) as Hans.
  destruct (inv_done _ _ (reachable_inv _ _ _ Hn Hrest Hr) _ _ Hans Hok) as (v & w & -> & Hw & Hne & Hm).
  apply put_written in Hw as ->; [|done..]. exists node, v. split_and!; [done..|]. by apply majority_records.
Qed.
End client.

Lemma client_put_reaches_majority_witness :
  nodes_ok (view := Datatypes.id) (ok := λ _ : mem, True) three_members three ∧ at_rest three ∧
  reachable (view := Datatypes.id) (ok := λ _ : mem, True) three (after_events put_events) ∧
  NoDup (c_nodes (new [2; 3]%Z)) ∧ is_str "k" ∧ is_str "a" ∧
  put (new [2; 3]%Z) "k" "a" (MkNet [] [inr "OK 1"]) = (Ok tt, MkNet [Exchange 2 "PUT 6b 61" (inr "OK 1")] []) ∧
  (∀ x response, x ∈ [Exchange 2 "PUT 6b 61" (inr "OK 1")] → x_answer x = inr response →
    (as_bytes (x_request x), response) ∈ answered_to (after_events put_events)) ∧
  ∃ node v,
    last [Exchange 2 "PUT 6b 61" (inr "OK 1")]
      = Some (Exchange node ("PUT " +:+ hex (as_bytes "k") +:+ " " +:+ hex (as_bytes "a")) (inr ("OK " +:+ pretty v))) ∧
    (2 ≤ size three_members → "a" ≠ "") ∧
    ∃ Q : gset Z, Q ⊆ three_members ∧ size three_members < 2 * size Q ∧
      ∀ j, j ∈ Q → ∃ s r, nodes (after_events put_events) !! j = Some s ∧ recorded (view := Datatypes.id) (db s) "k" = Some r ∧
        ((v < version r)%Z ∨ version r = v ∧ committed r = true).
Proof.
  assert (at_rest three) as H1 by done.
  assert (reachable (view := Datatypes.id) (ok := λ _ : mem, True) three (after_events put_events)) as H2
    by (apply after_reachable; vm_compute; eauto).
  assert (NoDup (c_nodes (new [2; 3]%Z))) as H3 by (cbn; repeat constructor; set_solver).
  assert (put (new [2; 3]%Z) "k" "a" (MkNet [] [inr "OK 1"]) = (Ok tt, MkNet [Exchange 2 "PUT 6b 61" (inr "OK 1")] [])) as H4
    by (vm_compute; reflexivity).
  assert (∀ x response, x ∈ [Exchange 2 "PUT 6b 61" (inr "OK 1")] → x_answer x = inr response →
    (as_bytes (x_request x), response) ∈ answered_to (after_events put_events)) as H5.
  { intros x response ->%list_elem_of_singleton [= <-]. apply list_elem_of_lookup. exists 0%nat. vm_compute. reflexivity. }
  exact (conj three_ok (conj H1 (conj H2 (conj H3 (conj eq_refl (conj eq_refl (conj H4 (conj H5
    (client_put_reaches_majority (view := Datatypes.id) (ok := λ _ : mem, True) three_members three _ (new [2; 3]%Z) "k" "a" _ _
      three_ok H1 H2 H3 eq_refl eq_refl H4 H5))))))))).
Defined.
