(* ===== verification/RaftElects.v ===== *)
(** Elections of the simulated cluster are eventually won.

    A candidate that runs, is connected to a majority of running nodes whose
    disks work, and has a log as good as theirs wins one of its next elections,
    whatever terms and votes the nodes hold: an election it loses leaves fewer of
    them in a term past its own.  First the node, then one election as a round
    over the peers, then the rounds. *)

From stdpp Require Import gmap.
From Stdlib Require Import Ascii.
From S2P Require Import Prelude Bytes Wal RaftNode RaftDurable Transport RaftCluster Election.
Local Open Scope Z_scope.

(** ** A node whose disk works *)

(** The bytes of a state's record; the term and the vote take a fixed part. *)
Definition record_size (l : list Entry) : Z := 23 + Z.of_nat (length (l ≫= entry_field)).

(** No system call on the node's file fails from now on, and a record of its
    log fits the write-ahead log's 32-bit length. *)
Definition ready (n : RaftNode) : Prop := f_env (wal n) = [] ∧ record_size (log n) ≤ U32_MAX.

Lemma length_entry_field e : length (entry_field e) = (12 + length (command e))%nat.
Proof. unfold entry_field. rewrite !length_app, length_u64_le, length_u32_le. lia. Qed.

Lemma record_size_cons e l : record_size (e :: l) = record_size l + 12 + Z.of_nat (length (command e)).
Proof. unfold record_size. cbn. rewrite length_app, length_entry_field. lia. Qed.

Lemma record_size_app l k : record_size (l ++ k) = record_size l + record_size k - 23.
Proof. induction l as [|e l IH]; [unfold record_size; cbn; lia|]. cbn [app]. rewrite !record_size_cons. lia. Qed.

Lemma record_size_bound l : 23 + 12 * Z.of_nat (length l) ≤ record_size l.
Proof. induction l as [|e l IH]; [done|]. rewrite record_size_cons. cbn [length]. lia. Qed.

Lemma record_size_take i l : record_size (take i l) ≤ record_size l.
Proof.
  rewrite <- (take_drop i l) at 2. rewrite record_size_app.
  pose proof (record_size_bound (drop i l)). lia.
Qed.

Lemma record_size_drop i l : record_size (drop i l) ≤ record_size l.
Proof.
  rewrite <- (take_drop i l) at 2. rewrite record_size_app.
  pose proof (record_size_bound (take i l)). lia.
Qed.

Lemma encode_entries_run out l :
  record_size l ≤ U32_MAX → encode_entries out l = Ok (out ++ (l ≫= entry_field)).
Proof.
  revert out. induction l as [|e l IH]; intros out Hl; cbn [encode_entries].
  - by rewrite app_nil_r.
  - rewrite record_size_cons in Hl. pose proof (record_size_bound l).
    rewrite u32_try_from_run by (unfold u32_range; lia). cbn [mbind result_bind].
    rewrite IH by lia. f_equal. cbn. unfold put_u64, entry_field at 2. by rewrite <- !app_assoc.
Qed.

Lemma encode_fits p :
  record_size (p_log p) ≤ U32_MAX → ∃ bs, encode p = Ok bs ∧ Z.of_nat (length bs) = record_size (p_log p).
Proof.
  intros Hp. pose proof (record_size_bound (p_log p)). unfold encode.
  rewrite u32_try_from_run by (unfold u32_range; lia). cbn [mbind result_bind].
  rewrite encode_entries_run by done. eexists. split; [done|].
  unfold record_size, put_u64. rewrite !length_app, length_u32_le.
  destruct (p_voted_for p); rewrite ?length_app, ?length_u64_le; cbn [length]; lia.
Qed.

Lemma persist_quiet n : ready n → ∃ w, persist n = (Ok tt, set_wal w n) ∧ f_env w = [].
Proof.
  intros [Hw Hl]. destruct (encode_fits (persistent n) Hl) as (bs & Hbs & Hlen).
  change (p_log (persistent n)) with (log n) in Hlen.
  destruct (append_quiet bs (wal n) Hw) as (f1 & Ha & Hf1); [lia|].
  destruct (sync_quiet f1 Hf1) as (f2 & Hs & Hf2).
  exists f2. split; [|done]. unfold persist. run_steps. rewrite Hbs. run_steps.
  rewrite (M_bind_run _ _ _ _ _ (on_wal_run _ _ _ _ Ha)). exact (on_wal_run sync (set_wal f1 n) _ _ Hs).
Qed.

Lemma maybe_persist_quiet (b : bool) {A} (g : node A) n :
  ready n → ∃ w, (_ ← (if b then persist else mret tt); g) n = g (set_wal w n) ∧ f_env w = [].
Proof.
  intros Hn. destruct b.
  - destruct (persist_quiet n Hn) as (w & Hp & Hw). exists w. by rewrite persist_then, Hp.
  - exists (wal n). run_steps. destruct n. by destruct Hn.
Qed.

(** What an election leaves alone in a node. *)
Record keeps (n n' : RaftNode) : Prop := Keeps {
  k_id : node_id n' = node_id n;
  k_log : log n' = log n;
  k_commit : commit_index n' = commit_index n;
  k_applied : last_applied n' = last_applied n;
  k_ready : ready n → ready n';
}.

#[export] Instance keeps_preorder : PreOrder keeps.
Proof.
  split; [by constructor|]. intros a b c [] []. split; [congruence..|auto].
Qed.

Lemma keeps_wal n n' w :
  node_id n' = node_id n → log n' = log n → commit_index n' = commit_index n →
  last_applied n' = last_applied n → f_env w = [] → keeps n (set_wal w n').
Proof. intros ? Hl ? ? Hw. split; [done..|]. intros [_ Hr]. split; [done|]. cbn. by rewrite Hl. Qed.

Lemma start_election_quiet n :
  ready n → current_term n < U64_MAX →
  ∃ n', start_election n
        = (Ok (MkRequestVote (current_term n + 1) (node_id n) (last_log_index n) (last_log_term n)), n') ∧
        keeps n n' ∧ current_term n' = current_term n + 1.
Proof.
  intros Hn Ht. unfold start_election. run_steps. unfold u64_checked_add.
  rewrite (proj2 (Z.leb_le _ _)) by lia. cbn [ok_or]. run_steps.
  match goal with |- context [(_ ← persist; _) ?m] => destruct (persist_quiet m) as (w & Hp & Hw); [exact Hn|] end.
  rewrite (M_bind_run _ _ _ _ _ Hp). run_steps. eexists. split; [reflexivity|]. split; [|done]. by apply keeps_wal.
Qed.

Lemma observe_term_quiet t n :
  ready n → current_term n < t → ∃ n', observe_term t n = (Ok tt, n') ∧ keeps n n' ∧ current_term n' = t.
Proof.
  intros Hn Ht. unfold observe_term. run_steps. rewrite (proj2 (Z.ltb_lt _ _)) by done. run_steps.
  destruct (persist_quiet (step_down t n)) as (w & Hp & Hw); [exact Hn|].
  eexists. split; [exact Hp|]. split; [|done]. by apply keeps_wal.
Qed.

Lemma request_vote_quiet q n :
  ready n → current_term n ≤ rv_term q →
  ∃ n', request_vote q n = (Ok (MkVoteResponse (rv_term q) (vote_decision q (stepped (rv_term q) n))), n') ∧
        keeps n n' ∧ current_term n' = rv_term q.
Proof.
  intros Hn Ht. rewrite (request_vote_run _ _ Ht). set (n1 := stepped (rv_term q) n).
  pose proof (stepped_term (rv_term q) n Ht) as Ht1. fold n1 in Ht1.
  assert (keeps n n1) as Hk1 by (unfold n1, stepped; by destruct (_ <? _)).
  set (n2 := vote_state q n1). assert (keeps n1 n2 ∧ current_term n2 = current_term n1) as [Hk2 Ht2]
    by (unfold n2, vote_state; by destruct (vote_fresh q n1)).
  match goal with |- context [if ?b then persist else _] =>
    destruct (maybe_persist_quiet b (λ n2, (Ok (MkVoteResponse (current_term n2) (vote_decision q n1)), n2)) n2)
      as (w & -> & Hw) end.
  { apply Hk2, Hk1, Hn. }
  eexists. split; [f_equal; f_equal; cbn; congruence|]. split; [|cbn; congruence].
  destruct Hk1, Hk2. apply keeps_wal; congruence.
Qed.

Lemma request_vote_newer q n :
  rv_term q < current_term n → request_vote q n = (Ok (MkVoteResponse (current_term n) false), n).
Proof. intros Ht. unfold request_vote. run_steps. by rewrite (proj2 (Z.ltb_lt _ _)). Qed.

(** A node of an earlier term grants its vote to a log as good as its own. *)
Definition up_to_date (n cand : RaftNode) : bool :=
  pair_ge (last_log_term cand) (last_log_index cand) (last_log_term n) (last_log_index n).

Lemma vote_granted t cand n :
  current_term n < t → up_to_date n cand = true →
  vote_decision (MkRequestVote t (node_id cand) (last_log_index cand) (last_log_term cand)) (stepped t n) = true.
Proof.
  intros Ht Hu. unfold stepped. rewrite (proj2 (Z.ltb_lt _ _)) by done. exact Hu.
Qed.

(** ** One election, as a round over the peers *)

(** The peers an election asks. *)
Definition polled (c : RaftCluster) (cand p : Z) : bool :=
  negb (bool_decide (p = cand) || is_stopped c p
        || negb (reachable (transport c) cand p) || negb (reachable (transport c) p cand)).

Definition electorate (c : RaftCluster) (cand : Z) : list Z :=
  List.filter (polled c cand) (z_keys (nodes c)).

Definition term_of (c : RaftCluster) (id : Z) : Z := default 0 (current_term <$> nodes c !! id).

Definition put_node (id : Z) (n : RaftNode) (c : RaftCluster) : RaftCluster := set_nodes (<[id := n]> (nodes c)) c.

Record steady (c c' : RaftCluster) : Prop := Steady {
  st_transport : transport c' = transport c;
  st_stopped : stopped c' = stopped c;
  st_applied : applied c' = applied c;
  st_nodes : map_relation (λ _, keeps) (λ _ _, False) (λ _ _, False) (nodes c) (nodes c');
}.

#[export] Instance steady_preorder : PreOrder steady.
Proof.
  split.
  - intros c. split; [done..|]. intros id. by destruct (nodes c !! id).
  - intros a b c [Ht Hs Ha Hn] [Ht' Hs' Ha' Hn']. split; [congruence..|]. intros id.
    specialize (Hn id). specialize (Hn' id). destruct (nodes a !! id), (nodes b !! id), (nodes c !! id); cbn in *; try done.
    by etransitivity.
Qed.

Lemma steady_put id n n' c : nodes c !! id = Some n → keeps n n' → steady c (put_node id n' c).
Proof.
  intros Hn Hk. split; [done..|]. intros k. cbn. destruct (decide (id = k)) as [<-|Hne].
  - by rewrite Hn, lookup_insert_eq.
  - rewrite lookup_insert_ne by done. by destruct (nodes c !! k).
Qed.

Lemma steady_lookup c c' id n :
  steady c c' → nodes c !! id = Some n → ∃ n', nodes c' !! id = Some n' ∧ keeps n n'.
Proof. intros [_ _ _ H] Hn. specialize (H id). rewrite Hn in H. destruct (nodes c' !! id); [eauto|done]. Qed.

Lemma steady_keys c c' : steady c c' → dom (nodes c') = dom (nodes c).
Proof.
  intros [_ _ _ H]. apply set_eq. intros id. rewrite !elem_of_dom. specialize (H id).
  destruct (nodes c !! id), (nodes c' !! id); cbn in *; split; try done; eauto.
Qed.

Lemma elem_of_z_keys {V} (m : gmap Z V) id : id ∈ z_keys m ↔ is_Some (m !! id).
Proof.
  unfold z_keys. rewrite merge_sort_Permutation, list_elem_of_fmap. split.
  - intros ([k v] & -> & Hin). apply elem_of_map_to_list in Hin. by eexists.
  - intros [v Hv]. exists (id, v). split; [done|]. by apply elem_of_map_to_list.
Qed.

Lemma length_z_keys {V} (m : gmap Z V) : length (z_keys m) = base.size m.
Proof. unfold z_keys. by rewrite merge_sort_Permutation, length_fmap, length_map_to_list. Qed.

Lemma z_keys_dom {V W} (m : gmap Z V) (m' : gmap Z W) : dom m' = dom m → z_keys m' = z_keys m.
Proof.
  intros Hd. assert (StronglySorted Z.le (z_keys m')) as H1 by (apply (StronglySorted_merge_sort _); intros ???; lia).
  assert (StronglySorted Z.le (z_keys m)) as H2 by (apply (StronglySorted_merge_sort _); intros ???; lia).
  apply (StronglySorted_unique Z.le); try done. apply NoDup_Permutation; [apply NoDup_z_keys..|].
  intros id. rewrite !elem_of_z_keys, <- !elem_of_dom. by rewrite Hd.
Qed.

Lemma steady_polled c c' cand p : steady c c' → polled c' cand p = polled c cand p.
Proof. intros [Ht Hs _ _]. unfold polled, is_stopped. by rewrite Ht, Hs. Qed.

Lemma steady_electorate c c' cand : steady c c' → electorate c' cand = electorate c cand.
Proof.
  intros H. unfold electorate. rewrite (z_keys_dom _ _ (steady_keys _ _ H)).
  induction (z_keys (nodes c)) as [|p l IH]; [done|]. cbn. rewrite (steady_polled _ _ _ _ H), IH. done.
Qed.

Lemma term_of_put id n c k : term_of (put_node id n c) k = if decide (id = k) then current_term n else term_of c k.
Proof.
  unfold term_of, put_node. cbn. case_decide as Hd; [subst; by rewrite lookup_insert_eq|by rewrite lookup_insert_ne].
Qed.

Section round.
Context (cand : Z) (n0 : RaftNode) (t : Z).
Abbreviation q := (MkRequestVote t (node_id n0) (last_log_index n0) (last_log_term n0)).

(** What the peers of a round must be, and when all of them grant. *)
Definition askable (c : RaftCluster) (p : Z) : Prop :=
  polled c cand p = true → ∃ n, nodes c !! p = Some n ∧ ready n.
Definition grants (c : RaftCluster) (p : Z) : Prop :=
  polled c cand p = true → ∃ n, nodes c !! p = Some n ∧ current_term n < t ∧ up_to_date n n0 = true.

(** How a round over [peers] ends: every peer asked has the term of the round
    (and voted, if all would), or one of a later term stopped it. *)
Definition round_ended (peers : list Z) (votes : Z) (c : RaftCluster) (o : option Z) (c' : RaftCluster) : Prop :=
  match o with
  | Some v =>
    (∀ id, term_of c' id = if decide (id ∈ peers ∧ polled c cand id = true) then t else term_of c id) ∧
    ((∀ p, p ∈ peers → grants c p) → v = votes + Z.of_nat (length (List.filter (polled c cand) peers)))
  | None =>
    ∃ p, p ∈ peers ∧ polled c cand p = true ∧ t < term_of c p ∧ term_of c' cand = term_of c p ∧
      ∀ id, id ≠ cand → term_of c' id = term_of c id ∨ term_of c id ≤ t ∧ term_of c' id = t
  end.

Lemma round_skips p peers votes c o c' :
  polled c cand p = false → round_ended peers votes c o c' → round_ended (p :: peers) votes c o c'.
Proof.
  intros Hpoll. destruct o as [v|].
  - intros [Hterms Hv]. split.
    + intros id. rewrite Hterms. apply decide_ext. rewrite elem_of_cons. naive_solver congruence.
    + intros Hg. cbn. rewrite Hpoll. apply Hv. intros ??. apply Hg. set_solver.
  - intros (p' & ? & Hrest). exists p'. split; [set_solver|done].
Qed.

(** A peer that was asked moved to the round's term; the rest is the round over
    the others. *)
Lemma round_asks p peers votes c n n' o c' :
  p ∉ peers → p ≠ cand → polled c cand p = true → nodes c !! p = Some n → keeps n n' →
  current_term n ≤ t → current_term n' = t →
  round_ended peers (if vote_decision q (stepped t n) then votes + 1 else votes) (put_node p n' c) o c' →
  round_ended (p :: peers) votes c o c'.
Proof.
  intros Hp Hpc Hpoll Hn Hk Hle Ht'. set (c1 := put_node p n' c).
  assert (∀ k, polled c1 cand k = polled c cand k) as Hpolled by (intros k; by eapply steady_polled, steady_put).
  assert (∀ id, term_of c1 id = if decide (p = id) then t else term_of c id) as Hterm1
    by (intros id; unfold c1; by rewrite term_of_put, Ht').
  destruct o as [v|].
  - intros [Hterms Hv]. split.
    + intros id. rewrite Hterms, Hpolled, Hterm1. repeat case_decide; rewrite ?elem_of_cons in *; naive_solver.
    + intros Hg. rewrite Hv.
      2: { intros p' Hp' Hp2. rewrite Hpolled in Hp2. unfold c1. cbn. rewrite lookup_insert_ne by (intros ->; done).
           apply Hg; [set_solver|done]. }
      destruct (Hg p ltac:(set_solver) Hpoll) as (m & Hm & Hlt & Hup). rewrite Hn in Hm. injection Hm as <-.
      rewrite vote_granted by done. cbn [List.filter]. rewrite Hpoll. cbn [length].
      rewrite (List.filter_ext (polled c1 cand) (polled c cand)) by done. lia.
  - intros (p' & Hin & Hpoll' & Hlt & Hcand & Hids). rewrite Hpolled in Hpoll'. rewrite Hterm1 in Hlt, Hcand.
    rewrite decide_False in Hlt, Hcand by (intros ->; done).
    exists p'. split; [set_solver|]. split; [done|]. split; [done|]. split; [done|].
    intros id Hid. specialize (Hids id Hid). rewrite Hterm1 in Hids. case_decide as Hd; [|done]. subst id.
    right. unfold term_of at 1. rewrite Hn. cbn. lia.
Qed.

(** A peer of a later term stops the round and brings the candidate to it. *)
Lemma round_stops p peers votes c n n1 n2 :
  p ≠ cand → polled c cand p = true → nodes c !! p = Some n → nodes c !! cand = Some n1 →
  t < current_term n → current_term n2 = current_term n →
  round_ended (p :: peers) votes c None (put_node cand n2 (put_node p n c)).
Proof.
  intros Hpc Hpoll Hn Hc Hgt Ht2. exists p. split; [set_solver|]. split; [done|].
  assert (term_of c p = current_term n) as -> by (unfold term_of; by rewrite Hn).
  split; [lia|]. split; [by rewrite term_of_put, decide_True by done|].
  intros id Hid. left. rewrite !term_of_put, decide_False by congruence.
  destruct (decide (p = id)) as [<-|]; [|done]. unfold term_of. by rewrite Hn.
Qed.

Lemma ask_quiet peers votes c n1 :
  NoDup peers → nodes c !! cand = Some n1 → ready n1 → current_term n1 = t →
  (∀ p, p ∈ peers → askable c p) →
  ∃ o c', ask cand q peers votes c = (Ok o, c') ∧ steady c c' ∧ round_ended peers votes c o c'.
Proof.
  intros Hnd. revert votes c. induction Hnd as [|p peers Hp Hnd IH]; intros votes c Hc Hr1 Ht Hask; cbn [ask].
  { exists (Some votes), c. split; [done|]. split; [done|]. split; [|cbn; lia].
    intros id. rewrite decide_False; [done|]. set_solver. }
  run_steps. fold (is_stopped c p). destruct (polled c cand p) eqn:Hpoll; pose proof Hpoll as Hskip; unfold polled in Hskip.
  2: { apply negb_false_iff in Hskip. rewrite Hskip.
       destruct (IH votes c) as (o & c' & -> & Hst & Ho); [done..|intros ??; apply Hask; set_solver|].
       exists o, c'. split; [done|]. split; [done|]. by apply round_skips. }
  apply negb_true_iff in Hskip. rewrite Hskip. destruct (Hask p ltac:(set_solver) Hpoll) as (n & Hn & Hr).
  assert (p ≠ cand) as Hpc by (intros ->; by rewrite bool_decide_eq_true_2 in Hskip).
  destruct (decide (current_term n ≤ t)) as [Hle|Hgt].
  - destruct (request_vote_quiet q n Hr Hle) as (n' & Hrv & Hk & Ht'). cbn [rv_term] in *.
    rewrite (M_bind_run _ _ _ _ _ (on_node_run _ _ _ _ _ _ Hn Hrv)). cbn [vr_term vr_granted].
    rewrite Z.ltb_irrefl. fold (put_node p n' c). assert (steady c (put_node p n' c)) as Hst1 by (by eapply steady_put).
    destruct (IH (if vote_decision q (stepped t n) then votes + 1 else votes) (put_node p n' c))
      as (o & c' & Hrun & Hst & Ho); [by cbn; rewrite lookup_insert_ne|done..| |].
    { intros p' Hp'. unfold askable. rewrite (steady_polled _ _ _ _ Hst1). cbn.
      rewrite lookup_insert_ne by (intros ->; done). apply Hask. set_solver. }
    exists o, c'. split; [exact Hrun|]. split; [by etransitivity|]. by eapply round_asks.
  - rewrite (M_bind_run _ _ _ _ _ (on_node_run _ _ _ _ _ _ Hn (request_vote_newer q n ltac:(cbn; lia)))).
    cbn [vr_term vr_granted rv_term]. rewrite (proj2 (Z.ltb_lt _ _)) by lia. fold (put_node p n c).
    assert (nodes (put_node p n c) !! cand = Some n1) as Hc1 by (cbn; by rewrite lookup_insert_ne).
    destruct (observe_term_quiet (current_term n) n1 Hr1 ltac:(lia)) as (n2 & Ho & Hk & Ht2).
    rewrite (M_bind_run _ _ _ _ _ (on_node_run _ _ _ _ _ _ Hc1 Ho)). fold (put_node cand n2 (put_node p n c)).
    eexists None, _. split; [done|]. split; [etransitivity; by eapply steady_put|].
    eapply round_stops; try done; lia.
Qed.
End round.

(** ** Elections until one is won *)

(** A candidate that runs, connected both ways to enough running nodes for a
    majority, with working disks, a log at least as good as each of theirs, and
    no term above [top]. *)
Record contender (cand top : Z) (c : RaftCluster) (n0 : RaftNode) : Prop := Contender {
  ct_node : nodes c !! cand = Some n0;
  ct_running : is_stopped c cand = false;
  ct_ready : ready n0;
  ct_peers p : p ∈ electorate c cand → ∃ n, nodes c !! p = Some n ∧ ready n ∧ up_to_date n n0 = true;
  ct_majority : Z.of_nat (base.size (nodes c)) < 2 * (1 + Z.of_nat (length (electorate c cand)));
  ct_terms p : p = cand ∨ p ∈ electorate c cand → term_of c p ≤ top;
}.

Lemma elem_of_electorate c cand p :
  p ∈ electorate c cand ↔ is_Some (nodes c !! p) ∧ polled c cand p = true.
Proof. unfold electorate. rewrite list_elem_of_In, filter_In, <- list_elem_of_In, elem_of_z_keys. done. Qed.

Lemma not_in_electorate c cand : cand ∉ electorate c cand.
Proof. rewrite elem_of_electorate. unfold polled. rewrite bool_decide_eq_true_2 by done. naive_solver. Qed.

Lemma up_to_date_keeps n n' m m' : keeps n n' → keeps m m' → up_to_date n' m' = up_to_date n m.
Proof. intros [_ H _ _ _] [_ H' _ _ _]. unfold up_to_date, last_log_term, last_log_index. by rewrite H, H'. Qed.

Lemma contender_steady cand top c c' n0 n0' :
  contender cand top c n0 → steady c c' → nodes c' !! cand = Some n0' →
  (∀ p, p = cand ∨ p ∈ electorate c cand → term_of c' p ≤ top) → contender cand top c' n0'.
Proof.
  intros [Hn Hs Hr Hp Hm _] Hst Hn' Ht.
  destruct (steady_lookup _ _ _ _ Hst Hn) as (n0'' & Hn'' & Hk). rewrite Hn' in Hn''. injection Hn'' as <-.
  pose proof (steady_electorate _ _ cand Hst) as He. split; rewrite ?He; try done.
  - unfold is_stopped in *. by rewrite (st_stopped _ _ Hst).
  - by apply Hk.
  - intros p Hin. destruct (Hp p Hin) as (n & Hpn & Hpr & Hu).
    destruct (steady_lookup _ _ _ _ Hst Hpn) as (n' & Hpn' & Hk'). exists n'. split; [done|].
    split; [by apply Hk'|]. by rewrite (up_to_date_keeps _ _ _ _ Hk' Hk).
  - by rewrite <- size_dom, (steady_keys _ _ Hst), size_dom.
Qed.

(** The peers whose term is past the candidate's. *)
Definition ahead (c : RaftCluster) (cand : Z) : nat :=
  length (List.filter (λ p, term_of c cand <? term_of c p) (electorate c cand)).

Lemma filter_length_le {A} (f g : A → bool) l :
  (∀ x, x ∈ l → g x = true → f x = true) → (length (List.filter g l) ≤ length (List.filter f l))%nat.
Proof.
  induction l as [|y l IH]; intros Hgf; [done|]. cbn. specialize (IH ltac:(set_solver)).
  pose proof (Hgf y ltac:(set_solver)) as Hy. destruct (g y); [rewrite Hy by done; cbn; lia|].
  destruct (f y); cbn; lia.
Qed.

Lemma filter_length_lt {A} (f g : A → bool) l x :
  (∀ x, x ∈ l → g x = true → f x = true) → x ∈ l → f x = true → g x = false →
  (length (List.filter g l) < length (List.filter f l))%nat.
Proof.
  intros Hgf Hx Hf Hg. induction l as [|y l IH]; [by apply not_elem_of_nil in Hx|].
  apply elem_of_cons in Hx as [->|Hx]; cbn.
  - rewrite Hf, Hg. cbn. pose proof (filter_length_le f g l ltac:(set_solver)). lia.
  - specialize (IH ltac:(set_solver) Hx). pose proof (Hgf y ltac:(set_solver)) as Hy.
    destruct (g y); [rewrite Hy by done; cbn; lia|]. destruct (f y); cbn; lia.
Qed.

Lemma elem_of_List_filter {A} (f : A → bool) l x : x ∈ List.filter f l ↔ x ∈ l ∧ f x = true.
Proof. by rewrite list_elem_of_In, filter_In, <- list_elem_of_In. Qed.

Lemma nobody_ahead c cand :
  ahead c cand = 0%nat ↔ ∀ p, p ∈ electorate c cand → term_of c p ≤ term_of c cand.
Proof.
  unfold ahead. rewrite length_zero_iff_nil. split.
  - intros H p Hp. apply Z.le_ngt. intros Hlt. eapply (not_elem_of_nil p). rewrite <- H, elem_of_List_filter.
    split; [done|]. by apply Z.ltb_lt.
  - intros H. destruct (List.filter _ _) as [|p l] eqn:Hf; [done|].
    assert (p ∈ p :: l) as Hp by constructor. rewrite <- Hf, elem_of_List_filter in Hp.
    destruct Hp as [Hp Hlt]. specialize (H p Hp). lia.
Qed.

Lemma someone_ahead c cand :
  ahead c cand ≠ 0%nat → ∃ p, p ∈ electorate c cand ∧ term_of c cand < term_of c p.
Proof.
  unfold ahead. intros H. destruct (List.filter _ _) as [|p l] eqn:Hf; [done|]. exists p.
  assert (p ∈ p :: l) as Hp by constructor. rewrite <- Hf, elem_of_List_filter in Hp.
  destruct Hp as [Hp Hlt%Z.ltb_lt]. by split.
Qed.

Lemma elem_of_electorate_keys c cand p :
  p ∈ electorate c cand ↔ p ∈ z_keys (nodes c) ∧ polled c cand p = true.
Proof. by rewrite elem_of_electorate, elem_of_z_keys. Qed.

Section lost.
Context (cand top : Z) (c : RaftCluster) (n0 : RaftNode) (Hct : contender cand top c n0).
Abbreviation t := (term_of c cand + 1).

(** [c1]: the state the election asks its peers in. *)
Context (c1 : RaftCluster) (Hst1 : steady c c1).
Context (Hterm1 : ∀ id, term_of c1 id = if decide (cand = id) then t else term_of c id).
Context (Hsame : ∀ p, p ≠ cand → nodes c1 !! p = nodes c !! p).

Lemma peer_is_other p : p ∈ electorate c cand → p ≠ cand.
Proof. intros Hp ->. by apply not_in_electorate in Hp. Qed.

(** All terms after a round that asked everybody. *)
Lemma all_in_term v c2 :
  round_ended cand n0 t (z_keys (nodes c)) 1 c1 (Some v) c2 →
  ∀ id, term_of c2 id = if decide (id = cand ∨ id ∈ electorate c cand) then t else term_of c id.
Proof using Hst1 Hterm1.
  clear Hct Hsame. intros [Hterms _] id. rewrite Hterms, (steady_polled _ _ _ _ Hst1), Hterm1.
  pose proof (elem_of_electorate_keys c cand id). pose proof (not_in_electorate c cand).
  repeat case_decide; subst; naive_solver.
Qed.

(** A round lost by votes: somebody was ahead. *)
Lemma lost_by_votes v c2 :
  round_ended cand n0 t (z_keys (nodes c)) 1 c1 (Some v) c2 → v * 2 ≤ Z.of_nat (base.size (nodes c)) →
  ahead c cand ≠ 0%nat.
Proof using Hct Hst1 Hsame.
  intros [_ Hv] Hlost H0. rewrite nobody_ahead in H0. rewrite Hv in Hlost.
  - pose proof (ct_majority _ _ _ _ Hct) as Hm. unfold electorate in Hm.
    rewrite (List.filter_ext (polled c1 cand) (polled c cand)) in Hlost by (intros; by apply steady_polled). lia.
  - intros p Hp Hpoll. rewrite (steady_polled _ _ _ _ Hst1) in Hpoll.
    assert (p ∈ electorate c cand) as Hin by by apply elem_of_electorate_keys.
    destruct (ct_peers _ _ _ _ Hct p Hin) as (n & Hn & _ & Hu). exists n. rewrite (Hsame p (peer_is_other p Hin)).
    specialize (H0 p Hin). unfold term_of at 1 in H0. rewrite Hn in H0. cbn in H0. split_and!; [done|lia|done].
Qed.

Lemma lost_round o c2 :
  steady c c2 → round_ended cand n0 t (z_keys (nodes c)) 1 c1 o c2 →
  (∀ v, o = Some v → v * 2 ≤ Z.of_nat (base.size (nodes c))) →
  ∃ n', nodes c2 !! cand = Some n' ∧ contender cand top c2 n' ∧ (ahead c2 cand < ahead c cand)%nat.
Proof using Hct Hst1 Hterm1 Hsame.
  intros Hst Hround Hlost. destruct (steady_lookup _ _ _ _ Hst (ct_node _ _ _ _ Hct)) as (n' & Hn' & _).
  exists n'. split; [done|]. pose proof (steady_electorate _ _ cand Hst) as He.
  pose proof (ct_terms _ _ _ _ Hct) as Htop. destruct o as [v|].
  - pose proof (all_in_term _ _ Hround) as Hterm2.
    pose proof (lost_by_votes _ _ Hround (Hlost v eq_refl)) as Hahead.
    destruct (someone_ahead _ _ Hahead) as (p & Hp & Hlt). specialize (Htop p (or_intror Hp)).
    assert (ahead c2 cand = 0%nat) as ->.
    { apply nobody_ahead. rewrite He. intros p' Hp'. rewrite !Hterm2, !decide_True by auto. lia. }
    split; [|lia]. eapply contender_steady; [done..|]. intros p' Hp'. rewrite Hterm2, decide_True by done. lia.
  - destruct Hround as (p & Hp & Hpoll & Hlt & Hc2 & Hids).
    rewrite (steady_polled _ _ _ _ Hst1) in Hpoll.
    assert (p ∈ electorate c cand) as Hin by by apply elem_of_electorate_keys.
    pose proof (peer_is_other p Hin) as Hpc. rewrite Hterm1, decide_False in Hlt, Hc2 by congruence.
    assert (∀ id, id ≠ cand → term_of c2 id = term_of c id ∨ term_of c id ≤ t ∧ term_of c2 id = t) as Hids'.
    { intros id Hid. specialize (Hids id Hid). rewrite Hterm1, decide_False in Hids by congruence. done. }
    pose proof (Htop p (or_intror Hin)). split.
    + eapply contender_steady; [done..|]. intros p' [->|Hp']; [lia|].
      destruct (Hids' p' (peer_is_other p' Hp')) as [->|[_ ->]]; [by apply Htop; right|lia].
    + unfold ahead. rewrite He. apply (filter_length_lt _ _ _ p); [|done|apply Z.ltb_lt; lia|].
      * intros p' Hp' Hlt'%Z.ltb_lt. apply Z.ltb_lt.
        destruct (Hids' p' (peer_is_other p' Hp')) as [Heq|[? Heq]]; lia.
      * apply Z.ltb_ge. destruct (Hids' p Hpc) as [Heq|[? Heq]]; lia.
Qed.
End lost.

(** How one election goes: won, and then every peer it asked is in its term, or
    lost, and then fewer of them are ahead. *)
Definition election_over (cand top : Z) (c : RaftCluster) (won : bool) (c' : RaftCluster) : Prop :=
  ∃ n', nodes c' !! cand = Some n' ∧
  if won then
    role n' = Leader ∧ current_term n' = term_of c cand + 1 ∧
    ∀ p, p ∈ electorate c cand → term_of c' p = current_term n'
  else contender cand top c' n' ∧ (ahead c' cand < ahead c cand)%nat.

Lemma elect_quiet cand top c n0 :
  contender cand top c n0 → top < U64_MAX →
  ∃ won c', elect cand c = (Ok won, c') ∧ steady c c' ∧ election_over cand top c won c'.
Proof.
  intros Hct Htop. pose proof Hct as [Hn Hs Hr Hp Hm Ht].
  assert (term_of c cand = current_term n0) as Hc0 by (unfold term_of; by rewrite Hn).
  specialize (Ht cand (or_introl eq_refl)) as Hc0'.
  destruct (start_election_quiet n0 Hr ltac:(lia)) as (n1 & Hse & Hk1 & Ht1).
  unfold elect. run_steps. fold (is_stopped c cand). rewrite Hs, Hn. cbn [ok_or]. run_steps.
  rewrite (M_bind_run _ _ _ _ _ (on_node_run _ _ _ _ _ _ Hn Hse)). fold (put_node cand n1 c).
  rewrite <- Hc0 in *. set (c1 := put_node cand n1 c).
  assert (steady c c1) as Hst1 by (by eapply steady_put).
  assert (∀ id, term_of c1 id = if decide (cand = id) then term_of c cand + 1 else term_of c id) as Hterm1
    by (intros id; unfold c1; by rewrite term_of_put, Ht1).
  assert (∀ p, p ≠ cand → nodes c1 !! p = nodes c !! p) as Hsame
    by (intros p Hpc; unfold c1; cbn; by rewrite lookup_insert_ne).
  assert (nodes c1 !! cand = Some n1) as Hn1 by (unfold c1; cbn; by rewrite lookup_insert_eq).
  destruct (ask_quiet cand n0 (term_of c cand + 1) (z_keys (nodes c)) 1 c1 n1) as (o & c2 & Hask & Hst2 & Hround);
    [apply NoDup_z_keys|done|by apply Hk1|done| |].
  { intros p Hpk Hpoll. rewrite (steady_polled _ _ _ _ Hst1) in Hpoll.
    assert (p ∈ electorate c cand) as Hin by by apply elem_of_electorate_keys.
    destruct (Hp p Hin) as (n & Hpn & Hpr & _). exists n. by rewrite (Hsame p (peer_is_other _ _ p Hin)). }
  rewrite (M_bind_run _ _ _ _ _ Hask). assert (steady c c2) as Hst by (by etransitivity).
  assert (base.size (nodes c2) = base.size (nodes c)) as Hsize
    by (by rewrite <- !size_dom, (steady_keys _ _ Hst)).
  pose proof (lost_round cand top c n0 Hct c1 Hst1 Hterm1 Hsame o c2 Hst Hround) as Hlost.
  destruct o as [v|]; [|exists false, c2; split; [done|]; split; [done|]; by apply Hlost].
  run_steps. rewrite Hsize. destruct (_ <? v * 2) eqn:Hmaj; zify_bools.
  - destruct (steady_lookup _ _ _ _ Hst Hn) as (n2 & Hn2 & Hk2).
    assert (on_node cand (modify become_leader) c2 = (Ok tt, put_node cand (become_leader n2) c2)) as Hbl
      by (by apply on_node_run with n2).
    rewrite (M_bind_run _ _ _ _ _ Hbl). exists true, (put_node cand (become_leader n2) c2). split; [done|].
    pose proof (all_in_term cand c n0 c1 Hst1 Hterm1 _ _ Hround) as Hterm2.
    assert (current_term n2 = term_of c cand + 1) as Ht2.
    { specialize (Hterm2 cand). rewrite decide_True in Hterm2 by auto. unfold term_of at 1 in Hterm2.
      by rewrite Hn2 in Hterm2. }
    split; [transitivity c2; [done|by eapply steady_put]|].
    exists (become_leader n2). split; [cbn; by rewrite lookup_insert_eq|]. split; [done|]. split; [exact Ht2|].
    intros p Hpe. rewrite term_of_put, decide_False by (intros ->; by apply not_in_electorate in Hpe).
    rewrite Hterm2, decide_True by auto. by cbn.
  - exists false, c2. split; [done|]. split; [done|]. apply Hlost. intros v' [= <-]. done.
Qed.

(** Elections of one candidate, one after another until it wins. *)
Fixpoint elect_repeatedly (tries : nat) (cand : Z) : cluster bool :=
  match tries with
  | O => mret false
  | S tries => won ← elect cand; if won : bool then mret true else elect_repeatedly tries cand
  end.

Lemma lost_term_grows cand c c' r :
  elect cand c = (r, c') → r ≠ Ok true → is_Some (nodes c !! cand) → term_of c cand ≤ term_of c' cand.
Proof.
  intros Hrun Hr [n Hn]. pose proof (elect_lost _ _ _ _ Hrun Hr) as Hle.
  destruct (cluster_le_lookup _ _ _ _ Hle Hn) as (n' & Hn' & [Hl _ _]).
  unfold term_of. rewrite Hn, Hn'. destruct Hl as [?|[? _]]; cbn in *; lia.
Qed.

(** The cluster an election was won in. *)
Record led (cand : Z) (c c' : RaftCluster) (n' : RaftNode) : Prop := Led {
  ld_steady : steady c c';
  ld_node : nodes c' !! cand = Some n';
  ld_role : role n' = Leader;
  ld_term : term_of c cand < current_term n';
  ld_peers p : p ∈ electorate c cand → term_of c' p = current_term n';
}.

Lemma elect_repeatedly_wins cand top tries c n0 :
  contender cand top c n0 → top < U64_MAX → (ahead c cand < tries)%nat →
  ∃ c' n', elect_repeatedly tries cand c = (Ok true, c') ∧ led cand c c' n'.
Proof.
  revert c n0. induction tries as [|tries IH]; intros c n0 Hct Htop Ha; [lia|]. cbn [elect_repeatedly].
  destruct (elect_quiet _ _ _ _ Hct Htop) as (won & c1 & Hrun & Hst & n1 & Hn1 & Hover).
  rewrite (M_bind_run _ _ _ _ _ Hrun). destruct won.
  - destruct Hover as (Hrole & Hterm & Hpeers). exists c1, n1. split; [done|]. split; try done. lia.
  - destruct Hover as [Hct1 Ha1]. destruct (IH c1 n1) as (c' & n' & Hrun' & Hled); [done|done|lia|].
    exists c', n'. split; [done|]. pose proof (lost_term_grows _ _ _ _ Hrun ltac:(done) (ltac:(eexists; apply Hct))).
    destruct Hled as [Hst' Hn' Hr' Ht' Hp']. split; [by etransitivity|done|done|lia|].
    rewrite (steady_electorate _ _ _ Hst) in Hp'. done.
Qed.

Lemma ahead_bound c cand : is_Some (nodes c !! cand) → (ahead c cand < base.size (nodes c))%nat.
Proof.
  intros Hc. assert (length (z_keys (nodes c)) = base.size (nodes c)) as <-.
  { unfold z_keys. by rewrite merge_sort_Permutation, length_fmap, length_map_to_list. }
  unfold ahead. pose proof (List.filter_length_le (λ p, term_of c cand <? term_of c p) (electorate c cand)).
  pose proof (filter_length_lt (λ _, true) (polled c cand) (z_keys (nodes c)) cand ltac:(done)
    (proj2 (elem_of_z_keys _ _) Hc) eq_refl) as Hlt.
  fold (electorate c cand) in Hlt. rewrite (List.forallb_filter_id (λ _ : Z, true)) in Hlt
    by (by apply forallb_forall). unfold polled in Hlt. rewrite bool_decide_eq_true_2 in Hlt by done. specialize (Hlt eq_refl). lia.
Qed.
