(* ===== verification/RaftLogs.v ===== *)
(** The logs of a Raft cluster, abstractly: what the leaders of the terms have
    written, what has been committed, and why any two nodes agree.

    A ghost records for every term that was won the log of its leader ([g_logs])
    and every commit as the term and the place of the committed entry
    ([g_commits]).  [traced] says that a log is made of pieces of these; from it
    follow log matching and, with [complete], that commits never disagree. *)

From stdpp Require Import gmap.
From S2P Require Import Prelude Bytes RaftNode.
Local Open Scope Z_scope.

Abbreviation logs := (gmap Z (list Entry)).

(** Every prefix of the log is a prefix of the log its last entry's leader had. *)
Definition traced (L : logs) (l : list Entry) : Prop :=
  ∀ i e, l !! i = Some e → ∃ lt, L !! term e = Some lt ∧ take (S i) l = take (S i) lt.

(** Terms never decrease along a log. *)
Definition ordered (l : list Entry) : Prop :=
  ∀ i j a b, (i ≤ j)%nat → l !! i = Some a → l !! j = Some b → term a ≤ term b.

Lemma traced_nil L : traced L [].
Proof. intros i e Hi. by rewrite lookup_nil in Hi. Qed.

Lemma traced_take L k l : traced L l → traced L (take k l).
Proof.
  intros Hl i e Hi. apply lookup_take_Some in Hi as [Hi Hk]. destruct (Hl i e Hi) as (lt & Hlt & Heq).
  exists lt. split; [done|]. rewrite take_take, <- Heq. f_equal. lia.
Qed.

(** Log matching: entries of one place and one term have one past. *)
Lemma traced_matching L l k i a b :
  traced L l → traced L k → l !! i = Some a → k !! i = Some b → term a = term b → take (S i) l = take (S i) k.
Proof.
  intros Hl Hk Ha Hb Ht. destruct (Hl i a Ha) as (lt & Hlt & ->), (Hk i b Hb) as (kt & Hkt & ->). congruence.
Qed.

Lemma take_eq_le {A} (l k : list A) i j : take j l = take j k → (i ≤ j)%nat → take i l = take i k.
Proof.
  intros H Hle. assert (∀ x : list A, take i x = take i (take j x)) as Ht by (intros x; rewrite take_take; f_equal; lia).
  by rewrite (Ht l), H, <- Ht.
Qed.

Lemma take_eq_lookup {A} (l k : list A) i j : take j l = take j k → (i < j)%nat → l !! i = k !! i.
Proof. intros H Hlt. rewrite <- (lookup_take_lt l j i), H by done. by apply lookup_take_lt. Qed.

Lemma take_eq_length {A} (l k : list A) j : take j l = take j k → (j ≤ length k)%nat → (j ≤ length l)%nat.
Proof. intros H Hj. apply (f_equal length) in H. rewrite !length_take in H. lia. Qed.

(** ** Leaders' logs and commits *)

(** [(t, j)]: the leader of term [t] committed its first [S j] entries, the last
    of which is of its own term. *)
Record ghost : Type := Ghost { g_logs : logs; g_commits : list (Z * nat) }.

Record ghost_ok (G : ghost) : Prop := GhostOk {
  gh_traced t lt : g_logs G !! t = Some lt → traced (g_logs G) lt;
  gh_ordered t lt : g_logs G !! t = Some lt → ordered lt;
  gh_terms t lt : g_logs G !! t = Some lt → 0 < t ∧ Forall (λ e, term e ≤ t) lt;
  gh_own t j : (t, j) ∈ g_commits G → ∃ lt e, g_logs G !! t = Some lt ∧ lt !! j = Some e ∧ term e = t;
  (** Leader completeness. *)
  gh_complete t j lt t' lt' : (t, j) ∈ g_commits G → t < t' → g_logs G !! t = Some lt →
    g_logs G !! t' = Some lt' → take (S j) lt' = take (S j) lt;
}.

(** The first [ci] entries of [l] are committed, by leaders up to term [t]. *)
Definition committed_in (G : ghost) (t : Z) (l : list Entry) (ci : nat) : Prop :=
  ci = O ∨ ∃ t1 j lt, (t1, j) ∈ g_commits G ∧ t1 ≤ t ∧ (ci ≤ S j)%nat ∧ g_logs G !! t1 = Some lt ∧ take ci l = take ci lt.

Lemma commit_length G t j lt : ghost_ok G → (t, j) ∈ g_commits G → g_logs G !! t = Some lt → (S j ≤ length lt)%nat.
Proof.
  intros Hg Hc Hlt. destruct (gh_own _ Hg _ _ Hc) as (lt' & e & Hlt' & He & _). simplify_eq.
  apply lookup_lt_Some in He. lia.
Qed.

Lemma committed_length G t l ci : ghost_ok G → committed_in G t l ci → (ci ≤ length l)%nat.
Proof.
  intros Hg [->|(t1 & j & lt & Hc & _ & Hci & Hlt & Heq)]; [lia|].
  eapply take_eq_length; [exact Heq|]. pose proof (commit_length _ _ _ _ Hg Hc Hlt). lia.
Qed.

(** A leader of that term or later has what is committed. *)
Lemma committed_leader G t t' l ci lt :
  ghost_ok G → committed_in G t l ci → t ≤ t' → g_logs G !! t' = Some lt → take ci lt = take ci l.
Proof.
  intros Hg [->|(t1 & j & lt1 & Hc & Ht1 & Hci & Hlt1 & Heq)] Ht Hlt; [done|]. rewrite Heq.
  destruct (decide (t1 = t')) as [<-|Hne]; [congruence|].
  eapply take_eq_le; [|exact Hci].
  apply (gh_complete _ Hg t1 j lt1 t' lt); [done|lia|done..].
Qed.

(** Any two commits agree. *)
Lemma commits_agree G t l ci t' l' ci' :
  ghost_ok G → committed_in G t l ci → committed_in G t' l' ci' → (ci ≤ ci')%nat → take ci l = take ci l'.
Proof.
  intros Hg H H' Hle.
  destruct H as [->|(t1 & j & lt & Hc & Ht1 & Hci & Hlt & Heq)]; [done|].
  destruct H' as [->|(t1' & j' & lt' & Hc' & Ht1' & Hci' & Hlt' & Heq')]; [by replace ci with O by lia|].
  rewrite Heq. rewrite (take_eq_le l' lt' ci ci' Heq' Hle).
  destruct (decide (t1 = t1')) as [->|Hne]; [congruence|].
  destruct (decide (t1 < t1')) as [Hlt1|Hlt1].
  - symmetry. eapply take_eq_le; [|exact Hci]. by apply (gh_complete _ Hg t1 j lt t1' lt').
  - eapply take_eq_le; [|transitivity ci'; [exact Hle|exact Hci']].
    apply (gh_complete _ Hg t1' j' lt' t1 lt); [done|lia|done..].
Qed.

(** ** The ghost grows *)

Definition grown (G G' : ghost) : Prop :=
  (∀ t lt, g_logs G !! t = Some lt → ∃ lt', g_logs G' !! t = Some lt' ∧ lt `prefix_of` lt') ∧
  (∀ c, c ∈ g_commits G → c ∈ g_commits G').

#[export] Instance grown_preorder : PreOrder grown.
Proof.
  split.
  - intros G. split; [|done]. intros t lt Hlt. by exists lt.
  - intros G1 G2 G3 [HL HC] [HL' HC']. split; [|auto]. intros t lt Hlt.
    destruct (HL t lt Hlt) as (lt2 & Hlt2 & ?). destruct (HL' t lt2 Hlt2) as (lt3 & ? & ?).
    exists lt3. split; [done|]. by etransitivity.
Qed.

Lemma take_prefix_eq {A} (l k : list A) i : l `prefix_of` k → (i ≤ length l)%nat → take i k = take i l.
Proof. intros [r ->] Hi. by rewrite take_app_le. Qed.

Lemma traced_grown G G' l : grown G G' → traced (g_logs G) l → traced (g_logs G') l.
Proof.
  intros [HL _] Hl i e Hi. destruct (Hl i e Hi) as (lt & Hlt & Heq). destruct (HL _ _ Hlt) as (lt' & Hlt' & Hp).
  exists lt'. split; [done|]. rewrite Heq. symmetry. apply take_prefix_eq; [done|].
  eapply take_eq_length; [symmetry; exact Heq|]. apply lookup_lt_Some in Hi. lia.
Qed.

Lemma committed_grown G G' t l ci : ghost_ok G → grown G G' → committed_in G t l ci → committed_in G' t l ci.
Proof.
  intros Hg [HL HC] [->|(t1 & j & lt & Hc & Ht1 & Hci & Hlt & Heq)]; [by left|right].
  destruct (HL _ _ Hlt) as (lt' & Hlt' & Hp). exists t1, j, lt'. split_and!; try done; [by apply HC|].
  rewrite Heq. symmetry. apply take_prefix_eq; [done|]. pose proof (commit_length _ _ _ _ Hg Hc Hlt). lia.
Qed.

Lemma committed_later G t t' l ci : t ≤ t' → committed_in G t l ci → committed_in G t' l ci.
Proof. intros Ht [->|(t1 & j & lt & ? & ? & ? & ? & ?)]; [by left|right]. exists t1, j, lt. split_and!; try done. lia. Qed.

Lemma committed_alike G t l l' ci : take ci l' = take ci l → committed_in G t l ci → committed_in G t l' ci.
Proof.
  intros Hl [->|(t1 & j & lt & ? & ? & ? & ? & ?)]; [by left|right]. exists t1, j, lt. split_and!; try done. congruence.
Qed.

Lemma committed_less G t l ci ci' : (ci' ≤ ci)%nat → committed_in G t l ci → committed_in G t l ci'.
Proof.
  intros Hle [->|(t1 & j & lt & ? & ? & ? & ? & Heq)]; [left; lia|right]. exists t1, j, lt. split_and!; try done; [lia|].
  by eapply take_eq_le.
Qed.

Lemma traced_ordered G l : ghost_ok G → traced (g_logs G) l → ordered l.
Proof.
  intros Hg Hl i j a b Hij Ha Hb. destruct (Hl j b Hb) as (lt & Hlt & Heq).
  apply (gh_ordered _ Hg _ _ Hlt i j); [done|..].
  - by rewrite <- (take_eq_lookup l lt i (S j)) by (done || lia).
  - by rewrite <- (take_eq_lookup l lt j (S j)) by (done || lia).
Qed.

(** A term is won: its leader's log is the winner's. *)
Lemma ghost_won G t l :
  ghost_ok G → g_logs G !! t = None → 0 < t → traced (g_logs G) l → Forall (λ e, term e < t) l →
  (∀ t0 j lt0, (t0, j) ∈ g_commits G → t0 < t → g_logs G !! t0 = Some lt0 → take (S j) l = take (S j) lt0) →
  let G' := Ghost (<[t := l]> (g_logs G)) (g_commits G) in ghost_ok G' ∧ grown G G'.
Proof.
  intros Hg Hnone Hpos Hl Hterms Hcomp G'. assert (grown G G') as Hgrow.
  { split; [|done]. intros t1 lt1 Hlt1. exists lt1. split; [|done]. cbn. rewrite lookup_insert_ne; [done|]. by (intros ->; congruence). }
  split; [|done]. split; cbn.
  - intros t1 lt1 [[<- <-]|[_ H]]%lookup_insert_Some; [by apply (traced_grown G G')|].
    apply (traced_grown G G'); [done|]. by eapply gh_traced.
  - intros t1 lt1 [[<- <-]|[_ H]]%lookup_insert_Some; [by eapply traced_ordered|by eapply gh_ordered].
  - intros t1 lt1 [[<- <-]|[_ H]]%lookup_insert_Some; [|by eapply gh_terms]. split; [done|].
    eapply Forall_impl; [exact Hterms|]. cbn. lia.
  - intros t1 j Hc. destruct (gh_own _ Hg _ _ Hc) as (lt & e & Hlt & He). exists lt, e. split; [|done].
    rewrite lookup_insert_ne; [done|]. by (intros ->; congruence).
  - intros t1 j lt1 t2 lt2 Hc Hlt Hlt1 Hlt2. destruct (gh_own _ Hg _ _ Hc) as (lt & e & Hlt' & _).
    rewrite lookup_insert_ne in Hlt1 by (intros ->; congruence).
    apply lookup_insert_Some in Hlt2 as [[<- <-]|[_ Hlt2]]; [by eapply Hcomp|by eapply gh_complete].
Qed.

(** The leader of a term appends. *)
Lemma ghost_appended G t lt cmd :
  ghost_ok G → g_logs G !! t = Some lt →
  let G' := Ghost (<[t := lt ++ [MkEntry t cmd]]> (g_logs G)) (g_commits G) in ghost_ok G' ∧ grown G G'.
Proof.
  intros Hg Hlt G'. pose proof (gh_terms _ Hg _ _ Hlt) as [Hpos Hterms].
  assert (grown G G') as Hgrow.
  { split; [|done]. intros t1 lt1 Hlt1. cbn. destruct (decide (t = t1)) as [<-|Hne].
    - rewrite lookup_insert_eq. eexists. split; [done|]. simplify_eq. by apply prefix_app_r.
    - rewrite lookup_insert_ne by done. by exists lt1. }
  split; [|done]. split; cbn.
  - intros t1 lt1 [[<- <-]|[_ H]]%lookup_insert_Some; [|by apply (traced_grown G G'), (gh_traced _ Hg t1)].
    intros i e He. apply lookup_app_Some in He as [He|[Hi He]].
    + destruct (traced_grown G G' lt Hgrow (gh_traced _ Hg _ _ Hlt) i e He) as (l1 & Hl1 & Heq).
      exists l1. split; [done|]. rewrite <- Heq. apply take_app_le. apply lookup_lt_Some in He. lia.
    + apply list_lookup_singleton_Some in He as [_ <-]. cbn. rewrite lookup_insert_eq. eauto.
  - intros t1 lt1 [[<- <-]|[_ H]]%lookup_insert_Some; [|by eapply gh_ordered].
    intros i j a b Hij Ha Hb. apply lookup_app_Some in Hb as [Hb|[Hj Hb]].
    + rewrite lookup_app_l in Ha by (apply lookup_lt_Some in Hb; lia). by eapply (gh_ordered _ Hg t lt Hlt i j).
    + apply list_lookup_singleton_Some in Hb as [_ <-]. cbn.
      apply lookup_app_Some in Ha as [Ha|[_ Ha]]; [by eapply (Forall_lookup_1 _ _ _ _ Hterms)|].
      apply list_lookup_singleton_Some in Ha as [_ <-]. done.
  - intros t1 lt1 [[<- <-]|[_ H]]%lookup_insert_Some; [|by eapply gh_terms]. split; [done|].
    apply Forall_app. split; [done|]. by apply Forall_singleton.
  - intros t1 j Hc. destruct (gh_own _ Hg _ _ Hc) as (lt1 & e & Hlt1 & He & Ht).
    destruct (proj1 Hgrow _ _ Hlt1) as (lt1' & Hlt1' & Hp). exists lt1', e. split; [done|]. split; [|done].
    by eapply prefix_lookup_Some.
  - intros t1 j lt1 t2 lt2 Hc Hlt' Hlt1 Hlt2.
    destruct (gh_own _ Hg _ _ Hc) as (l1 & _ & Hl1 & _). pose proof (commit_length _ _ _ _ Hg Hc Hl1) as Hlen.
    assert (take (S j) lt1 = take (S j) l1) as ->.
    { destruct (proj1 Hgrow _ _ Hl1) as (l1' & Hl1' & Hp). cbn in Hl1'. rewrite Hlt1 in Hl1'. injection Hl1' as <-.
      by apply take_prefix_eq. }
    apply lookup_insert_Some in Hlt2 as [[<- <-]|[_ Hlt2]]; [|by eapply gh_complete].
    pose proof (gh_complete _ Hg _ _ _ _ _ Hc Hlt' Hl1 Hlt) as Hcomp. rewrite <- Hcomp. apply take_app_le.
    by eapply take_eq_length.
Qed.

(** A leader no later term has replaced commits. *)
Lemma ghost_committed G t lt j e :
  ghost_ok G → g_logs G !! t = Some lt → lt !! j = Some e → term e = t →
  (∀ t', is_Some (g_logs G !! t') → t' ≤ t) →
  let G' := Ghost (g_logs G) ((t, j) :: g_commits G) in ghost_ok G' ∧ grown G G'.
Proof.
  intros Hg Hlt He Ht Hlast G'. split; [|split; [eauto|by constructor]].
  destruct Hg as [H1 H2 H3 H4 H5]. split; cbn; try done.
  - intros t1 j1 [[= -> ->]|Hc]%elem_of_cons; [|by apply H4]. eauto.
  - intros t1 j1 lt1 t2 lt2 [[= -> ->]|Hc]%elem_of_cons Hlt' Hlt1 Hlt2; [|by eapply H5].
    specialize (Hlast t2 ltac:(eauto)). lia.
Qed.

(** ** Votes carry commits over *)

Definition last_term (l : list Entry) : Z := default 0 (term <$> last l).

Lemma last_term_lookup l i e : last l = Some e → i = pred (length l) → l !! i = Some e ∧ last_term l = term e.
Proof. intros Hl ->. rewrite last_lookup in Hl. split; [done|]. unfold last_term. by rewrite last_lookup, Hl. Qed.

(** A log at least as up to date as one with a commit has the commit. *)
Lemma vote_completeness G t j lt lv lc :
  ghost_ok G → (t, j) ∈ g_commits G → g_logs G !! t = Some lt →
  traced (g_logs G) lv → traced (g_logs G) lc → take (S j) lv = take (S j) lt →
  pair_ge (last_term lc) (Z.of_nat (length lc)) (last_term lv) (Z.of_nat (length lv)) = true →
  take (S j) lc = take (S j) lt.
Proof.
  intros Hg Hc Hlt Htv Htc Hv Hup. destruct (gh_own _ Hg _ _ Hc) as (lt' & e & Hlt' & He & Hte).
  rewrite Hlt in Hlt'. injection Hlt' as <-.
  pose proof (commit_length _ _ _ _ Hg Hc Hlt) as Hlen. pose proof (take_eq_length _ _ _ Hv Hlen) as Hlv.
  destruct (gh_terms _ Hg _ _ Hlt) as [Hpos Hterms].
  destruct (last lv) as [ev|] eqn:Hev; [|apply last_None in Hev as ->; cbn in Hlv; lia].
  destruct (last_term_lookup lv _ ev Hev eq_refl) as [Hiv Htv'].
  assert (term e ≤ term ev) as Hge.
  { assert (lv !! j = Some e) as Hj by (rewrite (take_eq_lookup lv lt j (S j)) by (done || lia); done).
    apply (traced_ordered G lv Hg Htv j (pred (length lv))); [lia|done..]. }
  unfold pair_ge in Hup. rewrite Htv' in Hup. apply orb_true_iff in Hup.
  destruct (last lc) as [ec|] eqn:Hec.
  2: { apply last_None in Hec as ->. cbn in Hup. destruct Hup as [H%Z.ltb_lt|[H1%Z.eqb_eq H2%Z.leb_le]%andb_true_iff]; lia. }
  destruct (last_term_lookup lc _ ec Hec eq_refl) as [Hic Htc']. rewrite Htc' in Hup.
  destruct (Htc _ _ Hic) as (ltc & Hltc & Heqc).
  assert (0 < length lc)%nat by (apply lookup_lt_Some in Hic; lia).
  replace (S (pred (length lc))) with (length lc) in Heqc by lia.
  destruct (decide (term e = term ec)) as [Heq|Hne].
  - assert (lt = ltc) as <- by congruence. apply (take_eq_le _ _ _ (length lc) Heqc).
    destruct Hup as [H1%Z.ltb_lt|[H1%Z.eqb_eq H2%Z.leb_le]%andb_true_iff]; lia.
  - assert (term e < term ec) as Hlt2.
    { destruct Hup as [H1%Z.ltb_lt|[H1%Z.eqb_eq _]%andb_true_iff]; lia. }
    pose proof (gh_complete _ Hg t j lt (term ec) ltc Hc ltac:(lia) Hlt Hltc : take (S j) ltc = take (S j) lt) as Hcomp.
    rewrite <- Hcomp. apply (take_eq_le _ _ _ (length lc) Heqc). apply Nat.le_ngt. intros Hshort.
    assert (lt !! pred (length lc) = Some ec) as Hin.
    { rewrite <- (take_eq_lookup ltc lt _ (S j)) by (done || lia).
      rewrite <- (take_eq_lookup lc ltc _ (length lc)) by (done || lia). done. }
    pose proof (Forall_lookup_1 _ _ _ _ Hterms Hin) as Hle. cbn in Hle. lia.
Qed.
