(* ===== verification/RaftSteps.v ===== *)
(** The steps of a Raft node, against the logs of the cluster's leaders: what a
    node keeps whatever request it serves ([node_ok]), and that an AppendEntries
    sent by a leader keeps it and every commit the node holds. *)

From stdpp Require Import gmap.
From S2P Require Import Prelude Bytes Wal RaftNode RaftDurable RaftRules RaftCluster RaftLogs.
Local Open Scope Z_scope.

(** A node and what it applied. *)
Record node_ok (G : ghost) (n : RaftNode) (l : list bytes) : Prop := NodeOk {
  nk_pos : 0 ≤ current_term n;
  nk_traced : traced (g_logs G) (log n);
  nk_terms : Forall (λ e, term e ≤ current_term n) (log n);
  nk_leader : role n = Leader → g_logs G !! current_term n = Some (log n);
  nk_range : 0 ≤ last_applied n ≤ commit_index n;
  nk_commit : committed_in G (current_term n) (log n) (Z.to_nat (commit_index n));
  nk_applied : l = command <$> take (Z.to_nat (last_applied n)) (log n);
}.

(** The node keeps what the leader of [t] committed at [j]. *)
Definition holder (G : ghost) (t : Z) (j : nat) (n : RaftNode) : Prop :=
  t ≤ current_term n ∧ ∃ lt, g_logs G !! t = Some lt ∧ take (S j) (log n) = take (S j) lt.

Record advances (G : ghost) (n n' : RaftNode) (l l' : list bytes) : Prop := Advances {
  ad_le : node_le n n';
  ad_ok : node_ok G n' l';
  ad_holds t j : (t, j) ∈ g_commits G → holder G t j n → holder G t j n';
}.

Lemma node_le_term n n' : node_le n n' → current_term n ≤ current_term n'.
Proof. intros [[H|[H _]] _ _]; cbn in H; lia. Qed.

Lemma committed_index G n l : ghost_ok G → node_ok G n l → commit_index n ≤ last_log_index n.
Proof. intros Hg Hn. pose proof (committed_length _ _ _ _ Hg (nk_commit _ _ _ Hn)). unfold last_log_index. lia. Qed.

Lemma node_ok_grown G G' n l :
  ghost_ok G → grown G G' → (role n = Leader → g_logs G' !! current_term n = g_logs G !! current_term n) →
  node_ok G n l → node_ok G' n l.
Proof.
  intros Hg Hgrow Hlead [H1 H2 H3 H4 H5 H6 H7]. split; try done.
  - by eapply traced_grown.
  - intros Hr. rewrite (Hlead Hr). by apply H4.
  - by eapply committed_grown.
Qed.

Lemma holder_grown G G' t j n : ghost_ok G → grown G G' → (t, j) ∈ g_commits G → holder G t j n → holder G' t j n.
Proof.
  intros Hg [HL _] Hc (Ht & lt & Hlt & Heq). split; [done|]. destruct (HL _ _ Hlt) as (lt' & Hlt' & Hp).
  exists lt'. split; [done|]. rewrite Heq. symmetry. apply take_prefix_eq; [done|]. by eapply commit_length.
Qed.

(** Terms, votes and roles change, the log does not. *)
Lemma quiet_advances G n n' l :
  node_ok G n l → node_le n n' →
  log n' = log n ∧ commit_index n' = commit_index n ∧ last_applied n' = last_applied n → advances G n n' l l.
Proof.
  intros [H1 H2 H3 H4 H5 H6 H7] Hle (Hl & Hc & Ha). pose proof (node_le_term _ _ Hle) as Ht.
  split; [done| |].
  - split; rewrite ?Hl, ?Hc, ?Ha; try done; [lia| | |by eapply committed_later].
    + eapply Forall_impl; [exact H3|]. cbn. lia.
    + intros Hr. destruct (nl_leader _ _ Hle Hr) as [Hr' ->]. by apply H4.
  - intros t j _ [Htj Hh]. split; [lia|]. by rewrite Hl.
Qed.

Section append.
Context (G : ghost) (Hg : ghost_ok G).

(** The request of a leader: its log is [lt], and what it reports as committed
    is. *)
Context (q : AppendEntries) (lt : list Entry).
Context (Hlt : g_logs G !! ae_term q = Some lt).
Context (Hcommit : committed_in G (ae_term q) lt (Z.to_nat (ae_leader_commit q))).

(** A log the leader's extends, or equals, that keeps what was committed. *)
Lemma rewritten_log n l k :
  node_ok G n l → current_term n ≤ ae_term q → k = lt ∨ k = log n ∧ k = take (length k) lt →
  traced (g_logs G) k ∧ Forall (λ e, term e ≤ ae_term q) k ∧
  committed_in G (ae_term q) k (Z.to_nat (commit_index n)) ∧
  take (Z.to_nat (commit_index n)) k = take (Z.to_nat (commit_index n)) (log n).
Proof.
  intros Hn Ht [->|[-> _]].
  - pose proof (committed_leader _ _ _ _ _ _ Hg (nk_commit _ _ _ Hn) Ht Hlt) as Heq. split_and!; try done.
    + by eapply gh_traced.
    + by eapply gh_terms.
    + eapply committed_alike; [exact Heq|]. by eapply committed_later, nk_commit.
  - split_and!; [apply Hn| | |done].
    + eapply Forall_impl; [apply Hn|]. cbn. lia.
    + by eapply committed_later, nk_commit.
Qed.

Lemma rewritten_holder n l k t j :
  node_ok G n l → current_term n ≤ ae_term q → k = lt ∨ k = log n →
  (t, j) ∈ g_commits G → holder G t j n → ∃ l0, g_logs G !! t = Some l0 ∧ take (S j) k = take (S j) l0.
Proof.
  intros Hn Ht [->| ->] Hc (Htj & l0 & Hl0 & Heq); exists l0; split; try done.
  destruct (decide (t = ae_term q)) as [->|Hne]; [congruence|].
  apply (gh_complete _ Hg t j l0 (ae_term q) lt); [done|lia|done..].
Qed.

(** What the request leaves of the node, but for its file. *)
Definition received (n n' : RaftNode) : Prop :=
  current_term n' = ae_term q ∧ role n' = Follower ∧ last_applied n' = last_applied n ∧
  (log n' = lt ∨ log n' = log n ∧ log n' = take (length (log n')) lt ∨ log n' = log n ∧ commit_index n' = commit_index n) ∧
  (commit_index n' = commit_index n ∨
   commit_index n < ae_leader_commit q ∧ commit_index n' = Z.min (ae_leader_commit q) (last_log_index n')).

Lemma received_advances n n' l :
  node_ok G n l → node_le n n' → current_term n ≤ ae_term q → received n n' → advances G n n' l l.
Proof.
  intros Hn Hle Ht (Ht' & Hr & Ha & Hlog & Hci).
  destruct (decide (log n' = log n ∧ commit_index n' = commit_index n)) as [[Hl Hc]|Hne].
  { by apply quiet_advances. }
  assert (log n' = lt ∨ log n' = log n ∧ log n' = take (length (log n')) lt) as Hk by tauto. clear Hne Hlog.
  destruct (rewritten_log n l (log n') Hn Ht Hk) as (H1 & H2 & H3 & H4).
  pose proof (nk_range _ _ _ Hn) as Hrange.
  pose proof (committed_length _ _ _ _ Hg H3) as Hlen. unfold last_log_index in Hci. split; [done| |].
  - split; rewrite ?Ht', ?Ha; try done; try congruence.
    + etransitivity; [apply Hn|done].
    + destruct Hci as [->|Hci]; lia.
    + destruct Hci as [->|Hci]; [done|].
      apply (committed_alike _ _ lt).
      * destruct Hk as [->|[_ Hk]]; [done|]. apply (take_eq_le _ _ _ (length (log n'))); [|lia].
        by rewrite firstn_all.
      * eapply committed_less; [|exact Hcommit]. lia.
    + rewrite (nk_applied _ _ _ Hn). f_equal. symmetry. eapply take_eq_le; [exact H4|lia].
  - intros t j Hc Hh. destruct (rewritten_holder n l (log n') t j Hn Ht ltac:(tauto) Hc Hh) as (l0 & Hl0 & Heq).
    split; [rewrite Ht'; destruct Hh; lia|]. by exists l0.
Qed.

(** A previous entry that matches is a past that matches. *)
Lemma prev_matches n l e :
  node_ok G n l → has_prev q (log n) → 0 < ae_prev_log_index q →
  lt !! Z.to_nat (ae_prev_log_index q - 1) = Some e → ae_prev_log_term q = term e →
  take (Z.to_nat (ae_prev_log_index q)) (log n) = take (Z.to_nat (ae_prev_log_index q)) lt.
Proof.
  intros Hn [_ Hmatch] H0 He Hte. destruct (Hmatch H0) as (e' & He' & Hte').
  replace (Z.to_nat (ae_prev_log_index q)) with (S (Z.to_nat (ae_prev_log_index q - 1))) by lia.
  apply (traced_matching (g_logs G) _ _ _ e' e); [apply Hn|by eapply gh_traced|done..|congruence].
Qed.

Definition probes (p : nat) : Prop :=
  q = probe (ae_term q) (ae_leader_id q) (ae_leader_commit q) lt p ∧ (p ≤ length lt)%nat.

Lemma probe_log n l p :
  node_ok G n l → probes p → has_prev q (log n) →
  take (Z.to_nat (ae_prev_log_index q)) (log n) ++ ae_entries q = lt.
Proof.
  intros Hn [Hq Hpl] Hp. assert (ae_prev_log_index q = Z.of_nat p) as Hi by by rewrite Hq.
  assert (ae_entries q = drop p lt) as -> by by rewrite Hq.
  destruct p as [|p]; [by rewrite Hi, drop_0|]. destruct (lookup_lt_is_Some_2 lt p ltac:(lia)) as [e He].
  rewrite (prev_matches n l e); [by rewrite Hi, Nat2Z.id, take_drop|done..|lia| |].
  - by rewrite Hi; replace (Z.to_nat (Z.of_nat (S p) - 1)) with p by lia.
  - rewrite Hq. cbn. by rewrite He.
Qed.

Lemma probe_accepted n l p a n' :
  node_ok G n l → probes p → append_entries q n = (Ok a, n') → ar_success a = true →
  current_term n' = ae_term q ∧ log n' = lt ∧ ar_match_index a = Z.of_nat (length lt).
Proof.
  intros Hn Hq Hrun Hs. destruct (decide (current_term n ≤ ae_term q)) as [Ht|Ht].
  2: { rewrite append_entries_refused in Hrun by lia. injection Hrun as <- _. done. }
  destruct (append_entries_effect _ _ _ _ Hrun Ht) as (Ht' & _ & _ & _ & _ & [(Hp & _ & Hl & Hm & _)|(_ & Hs' & _)]);
    [|congruence]. rewrite (probe_log _ _ _ Hn Hq Hp) in Hl. split_and!; try done. rewrite Hm.
  destruct Hq as [-> Hpl]. cbn. rewrite length_drop. lia.
Qed.

(** The request is a probe, or has no entries and looks at the end of the
    node's log. *)
Definition looks_at_end (n : RaftNode) : Prop :=
  ae_entries q = [] ∧ ae_prev_log_index q = last_log_index n ∧
  (0 < last_log_index n → ∃ e, lt !! Z.to_nat (last_log_index n - 1) = Some e ∧ ae_prev_log_term q = term e).

Lemma accepted_log n l :
  node_ok G n l → (∃ p, probes p) ∨ looks_at_end n → has_prev q (log n) →
  let k := (ae_merge q n).1 in k = lt ∨ k = log n ∧ k = take (length k) lt.
Proof.
  intros Hn Hq Hp. unfold ae_merge.
  destruct (merge_spec (log n) (Z.to_nat (ae_prev_log_index q)) (ae_entries q)
      (current_term n <? ae_term q)) as [-> _]; [destruct Hp; lia|].
  destruct Hq as [(p & Hq)|(He & Hi & Hlast)]; [left; by eapply probe_log|right].
  unfold last_log_index in *. rewrite He, app_nil_r, Hi, Nat2Z.id, firstn_all. split; [done|].
  destruct (decide (0 < Z.of_nat (length (log n)))) as [H0|H0]; [|by destruct (log n)].
  destruct (Hlast H0) as (e & He' & Hte). pose proof (prev_matches n l e Hn Hp) as Hpast.
  rewrite Hi, Nat2Z.id in Hpast. rewrite <- Hpast by done. by rewrite firstn_all.
Qed.

Lemma append_entries_advances n l :
  node_ok G n l → (∃ p, probes p) ∨ looks_at_end n → advances G n (append_entries q n).2 l l.
Proof.
  intros Hn Hq. pose proof (append_entries_tame q n) as Hle.
  destruct (decide (current_term n ≤ ae_term q)) as [Ht|Ht].
  2: { rewrite append_entries_refused in * by lia. by apply quiet_advances. }
  apply (received_advances _ _ _ Hn Hle Ht). clear Hle. rewrite (append_entries_run _ _ Ht).
  assert (received n (followed q n)) as Hfol.
  { unfold received. rewrite (followed_term _ _ Ht). destruct (followed_le q n) as (_ & _ & _ & -> & ->).
    split_and!; [done|unfold followed; by destruct (_ <? _)..|by right; right|by left]. }
  destruct (prev_mismatch_total q n) as [[] Hm]; rewrite Hm.
  { match goal with |- context [((_ ← (if ?b then persist else _); ?g) ?m).2] =>
      destruct (maybe_persist_state b g m) as (w & [-> | ->]) end; exact Hfol. }
  apply prev_mismatch_spec in Hm. pose proof (accepted_log n l Hn Hq Hm) as Hk.
  destruct Hfol as (H1 & H2 & H3 & _ & H5). destruct (followed_le q n) as (_ & _ & _ & Hl & Hc).
  set (n1 := followed q n) in *. clearbody n1.
  match goal with |- context [((_ ← (if ?b then persist else _); ?g) ?m).2] =>
    destruct (maybe_persist_state b g m) as (w & [-> | ->]) end.
  - unfold received. cbn in *. split_and!; try done; [tauto|by left].
  - unfold received, commit_to. cbn in *. rewrite Hc. destruct (_ <? _) eqn:Hlc; cbn; zify_bools.
    + split_and!; try done; [tauto|by right].
    + split_and!; try done; [tauto|by left].
Qed.
End append.

(** ** The leader's own steps *)

(** An entry appended, whether or not the file took it. *)
Lemma append_as_leader_state c n :
  role n = Leader →
  ∃ w, (append_as_leader c n).2 = set_wal w (set_log (log n ++ [MkEntry (current_term n) c]) n) ∧
       ∀ i, (append_as_leader c n).1 = Ok i → i = Z.of_nat (S (length (log n))).
Proof.
  intros Hr. unfold append_as_leader. run_steps. rewrite bool_decide_eq_true_2 by done. cbn [negb]. run_steps.
  rewrite persist_then. set (m := set_log _ n). destruct (persist_effect m) as (w & [->|[e ->]]); exists w.
  - run_steps. split; [done|]. intros i [= <-]. unfold last_log_index. cbn. rewrite length_app. cbn. lia.
  - by split.
Qed.

Lemma append_as_leader_refused c n : role n ≠ Leader → ∃ e, append_as_leader c n = (Err e, n).
Proof. intros Hr. unfold append_as_leader. run_steps. rewrite bool_decide_eq_false_2 by done. cbn. by eexists. Qed.

(** The leader's log is the ghost's log of its term, before and after. *)
Lemma append_as_leader_advances G n l c :
  ghost_ok G → node_ok G n l → role n = Leader →
  let k := log n ++ [MkEntry (current_term n) c] in
  let G' := Ghost (<[current_term n := k]> (g_logs G)) (g_commits G) in
  advances G' n (append_as_leader c n).2 l l.
Proof.
  intros Hg Hn Hr k G'. destruct (ghost_appended G (current_term n) (log n) c Hg (nk_leader _ _ _ Hn Hr)) as [Hg' Hgrow].
  fold k G' in Hg', Hgrow. pose proof (append_as_leader_tame c n) as Hle.
  destruct (append_as_leader_state c n Hr) as (w & Hst & _). rewrite Hst in *.
  pose proof Hn as [H1 H2 H3 H4 H5 H6 H7].
  pose proof (committed_length _ _ _ _ Hg H6) as Hlen.
  assert (∀ i, (i ≤ length (log n))%nat → take i k = take i (log n)) as Hsame by (intros i Hi; by apply take_app_le).
  split; [done| |].
  - split; cbn; try done.
    + intros i e Hi. exact (gh_traced _ Hg' (current_term n) k (lookup_insert_eq _ _ _) i e Hi).
    + apply Forall_app. split; [done|]. by apply Forall_singleton.
    + intros _. apply lookup_insert_eq.
    + apply (committed_alike _ _ (log n)); [apply Hsame; lia|]. exact (committed_grown G G' _ _ _ Hg Hgrow H6).
    + rewrite Hsame by lia. done.
  - intros t j Hc (Ht & lt & Hlt & Heq). split; [done|]. exists lt. split; [done|]. cbn. rewrite <- Heq. apply Hsame.
    eapply take_eq_length; [exact Heq|]. by eapply (commit_length G').
Qed.

(** The commit index goes to an entry of the leader's term that the ghost has as
    a commit. *)
Lemma set_commit_advances G n l t j lt :
  node_ok G n l → role n = Leader → current_term n = t → g_logs G !! t = Some lt → (t, j) ∈ g_commits G →
  commit_index n ≤ Z.of_nat (S j) → advances G n (set_commit (Z.of_nat (S j)) n) l l.
Proof.
  intros Hn Hr Ht Hlt Hc Hle. pose proof Hn as [H1 H2 H3 H4 H5 H6 H7]. split.
  - split; [done..|auto].
  - split; try done; cbn; [lia|]. rewrite Nat2Z.id. right. exists t, j, lt. split_and!; try done; [lia..|].
    assert (lt = log n) as -> by (specialize (H4 Hr); congruence). done.
  - done.
Qed.

(** Applying. *)
Lemma take_applied_advances G n l :
  ghost_ok G → node_ok G n l →
  ∃ es, (take_applied n).1 = Ok es ∧ advances G n (take_applied n).2 l (l ++ (command <$> es)).
Proof.
  intros Hg Hn. pose proof (committed_index _ _ _ Hg Hn) as Hlen. pose proof (take_applied_tame n) as Hle.
  pose proof (nk_range _ _ _ Hn) as Hr. unfold take_applied in *. run_steps in Hle. run_steps.
  rewrite take_loop_run in * by lia. cbn [fst snd app] in *. eexists. split; [done|].
  replace (last_applied n + Z.of_nat (Z.to_nat (commit_index n - last_applied n))) with (commit_index n) in * by lia.
  pose proof Hn as [H1 H2 H3 H4 H5 H6 H7]. split; [done| |done]. split; try done; cbn; [lia|].
  rewrite H7, <- fmap_app. f_equal. rewrite take_take_drop. f_equal. lia.
Qed.
