(* ===== verification/RaftSafety.v ===== *)
(** State-machine safety of the simulated cluster of src/src/raft/mod.rs.

    [safe] ties the nodes of a cluster, the elections they held and the ghost
    logs of their leaders together; every operation keeps it, the ghost only
    grows, and so what is applied anywhere is applied everywhere in one order. *)

From stdpp Require Import gmap.
From Stdlib Require Import Ascii.
From S2P Require Import Prelude Bytes Wal RaftNode RaftDurable RaftRules Transport RaftCluster Election RaftElects.
From S2P Require Import RaftLogs RaftSteps.
Local Open Scope Z_scope.

Definition quorum (c : RaftCluster) (Q : list Z) : Prop :=
  NoDup Q ∧ Z.of_nat (base.size (nodes c)) < 2 * Z.of_nat (length Q).

Record safe (ws : list win) (G : ghost) (c : RaftCluster) : Prop := Safe {
  sf_fair : fair c ws;
  sf_ghost : ghost_ok G;
  sf_won t lt : g_logs G !! t = Some lt → ∃ w vs, (t, w, vs) ∈ ws;
  sf_winner t w vs : (t, w, vs) ∈ ws → ∃ n, nodes c !! w = Some n ∧ t ≤ current_term n;
  sf_nodes id n : nodes c !! id = Some n → ∃ l, applied c !! id = Some l ∧ node_ok G n l;
  sf_applied id : is_Some (applied c !! id) → is_Some (nodes c !! id);
  sf_commits t j : (t, j) ∈ g_commits G →
    ∃ Q, quorum c Q ∧ ∀ q, q ∈ Q → ∃ n, nodes c !! q = Some n ∧ holder G t j n;
}.

(** ** Steps that leave the ghost alone *)

Lemma cluster_le_put c c' id n n' :
  nodes c !! id = Some n → node_le n n' → nodes c' = <[id := n']> (nodes c) → cluster_le c c'.
Proof.
  intros Hn Hle Hc' k. rewrite Hc'. destruct (decide (id = k)) as [<-|Hne].
  - by rewrite Hn, lookup_insert_eq.
  - rewrite lookup_insert_ne by done. destruct (nodes c !! k); [apply (reflexivity (R:=node_le))|done].
Qed.

Lemma quorum_le c c' Q : cluster_le c c' → quorum c Q → quorum c' Q.
Proof. intros Hle [H1 H2]. split; [done|]. by rewrite (cluster_le_size _ _ Hle). Qed.

(** One node and its applied log move on. *)
Lemma safe_put ws G c c' id n n' l l' :
  safe ws G c → nodes c !! id = Some n → applied c !! id = Some l → advances G n n' l l' →
  nodes c' = <[id := n']> (nodes c) → applied c' = <[id := l']> (applied c) → safe ws G c'.
Proof.
  intros [H1 H2 H3 H4 H5 H7 H6] Hn Hl [Hle Hok Hh] Hc' Ha'.
  pose proof (cluster_le_put _ _ _ _ _ Hn Hle Hc') as Hcle. split; try done.
  - by eapply fair_le.
  - intros t w vs Hin. destruct (H4 _ _ _ Hin) as (m & Hm & Ht).
    destruct (cluster_le_lookup _ _ _ _ Hcle Hm) as (m' & Hm' & Hmm). exists m'. split; [done|].
    pose proof (node_le_term _ _ Hmm). lia.
  - intros k m. rewrite Hc', Ha'. rewrite lookup_insert_Some. intros [[<- <-]|[Hne Hm]].
    + exists l'. by rewrite lookup_insert_eq.
    + rewrite lookup_insert_ne by done. by apply H5.
  - intros k. rewrite Hc', Ha'. rewrite !lookup_insert_is_Some'. intros [|]; [by left|right; by apply H7].
  - intros t j Hc. destruct (H6 _ _ Hc) as (Q & HQ & Hq). exists Q. split; [by eapply quorum_le|].
    intros q Hin. destruct (Hq q Hin) as (m & Hm & Hmh). rewrite Hc'. destruct (decide (id = q)) as [<-|Hne].
    + rewrite lookup_insert_eq. exists n'. split; [done|]. apply Hh; [done|]. by simplify_eq.
    + rewrite lookup_insert_ne by done. by exists m.
Qed.

Lemma safe_put_node ws G c id n n' :
  safe ws G c → nodes c !! id = Some n → (∀ l, node_ok G n l → advances G n n' l l) →
  safe ws G (set_nodes (<[id := n']> (nodes c)) c).
Proof.
  intros Hs Hn Had. destruct (sf_nodes _ _ _ Hs _ _ Hn) as (l & Hl & Hok).
  eapply (safe_put ws G c); [done|exact Hn|exact Hl|by apply Had|done|]. cbn. by rewrite insert_id.
Qed.

Lemma safe_on_node_step {A} ws G id (m : node A) :
  (∀ n l, node_ok G n l → advances G n (m n).2 l l) → stable (safe ws G) (on_node id m).
Proof. intros H. apply stable_on_node. intros c n Hs Hn. eapply safe_put_node; eauto. Qed.

Lemma quiet_step {A} ws G id (m : node A) : tame m → keeps_log m → stable (safe ws G) (on_node id m).
Proof. intros Ht Hk. apply safe_on_node_step. intros n l Hn. apply quiet_advances; [done|apply Ht|apply Hk]. Qed.

Lemma safe_same_nodes ws G c c' :
  nodes c' = nodes c → applied c' = applied c → safe ws G c → safe ws G c'.
Proof.
  intros Hn Ha [H1 H2 H3 H4 H5 H7 H6]. split; rewrite ?Hn, ?Ha; try done.
  - eapply fair_le; [exact H1|]. unfold cluster_le. rewrite Hn. apply (reflexivity (R:=cluster_le)).
  - intros t j Hc. destruct (H6 _ _ Hc) as (Q & [HQ1 HQ2] & Hq). exists Q. split; [|exact Hq].
    split; [done|]. by rewrite Hn.
Qed.

Lemma start_election_safe ws G id : stable (safe ws G) (on_node id start_election).
Proof. apply quiet_step; [apply start_election_tame|apply start_election_keeps_log]. Qed.

Lemma observe_term_safe ws G id t : stable (safe ws G) (on_node id (observe_term t)).
Proof. apply quiet_step; [apply observe_term_tame|apply observe_term_keeps_log]. Qed.

Lemma request_vote_safe ws G id q : stable (safe ws G) (on_node id (request_vote q)).
Proof. apply quiet_step; [apply request_vote_tame|apply request_vote_keeps_log]. Qed.
#[export] Hint Resolve start_election_safe observe_term_safe request_vote_safe : stable.

Lemma ask_keeps_safe ws G candidate q peers votes : stable (safe ws G) (ask candidate q peers votes).
Proof. revert votes. induction peers as [|p peers IH]; intros votes; cbn [ask]; stable_tac. Qed.

(** ** An election *)

Lemma safe_sizes ws G c t j Q : safe ws G c → (t, j) ∈ g_commits G → quorum c Q →
  (∀ q, q ∈ Q → is_Some (nodes c !! q)) →
  ∃ q n, q ∈ Q ∧ nodes c !! q = Some n ∧ holder G t j n.
Proof.
  intros Hs Hc [HQ1 HQ2] HQ. destruct (sf_commits _ _ _ Hs _ _ Hc) as (Q' & [HQ1' HQ2'] & Hq').
  destruct (majorities_meet (nodes c) Q Q') as (q & Hin & Hin'); try done.
  - intros q Hq. destruct (Hq' q Hq) as (n & Hn & _). eauto.
  - destruct (Hq' q Hin') as (n & Hn & Hh). by exists q, n.
Qed.

(** The winner's log becomes its term's; it has every earlier commit. *)
Lemma won_ghost ws G candidate c c1 c' n0 n1 vs :
  safe ws G c → landslide candidate c c1 c' n0 n1 vs → safe ws G c1 →
  let G' := Ghost (<[current_term n1 := log n1]> (g_logs G)) (g_commits G) in ghost_ok G' ∧ grown G G'.
Proof.
  intros Hs Hls Hs1. pose proof (fair_won _ _ _ _ _ _ _ _ (sf_fair _ _ _ Hs) Hls) as Hf'.
  destruct (sf_nodes _ _ _ Hs _ _ (ls_old _ _ _ _ _ _ _ Hls)) as (l0 & _ & Hn0).
  destruct (sf_nodes _ _ _ Hs1 _ _ (ls_new _ _ _ _ _ _ _ Hls)) as (l1 & _ & Hn1).
  pose proof (ls_term _ _ _ _ _ _ _ Hls) as Ht. pose proof (nk_pos _ _ _ Hn0) as Hpos.
  assert (log n1 = log n0) as Hlog.
  { pose proof (ls_stable _ _ _ _ _ _ _ Hls (log_is candidate (log n0))) as Hst.
    unfold log_is at 3 4 in Hst. rewrite (ls_old _ _ _ _ _ _ _ Hls), (ls_new _ _ _ _ _ _ _ Hls) in Hst. cbn in Hst.
    assert (Some (log n1) = Some (log n0)) as [= ->]; [|done]. apply Hst; [|intros; apply ask_log_is|done].
    apply log_is_on_node. right. intros n. apply start_election_keeps_log. }
  apply ghost_won; [apply Hs| |lia|apply Hn1| |].
  - destruct (g_logs G !! current_term n1) as [lt|] eqn:Hlt; [|done].
    destruct (sf_won _ _ _ Hs _ _ Hlt) as (w & vs' & Hin).
    assert (w = candidate) as ->.
    { eapply (fr_unique _ _ Hf' (current_term n1)); [right; exact Hin|left]. }
    destruct (sf_winner _ _ _ Hs _ _ _ Hin) as (n & Hn & Hle).
    rewrite (ls_old _ _ _ _ _ _ _ Hls) in Hn. injection Hn as <-. lia.
  - rewrite Hlog. eapply Forall_impl; [apply (nk_terms _ _ _ Hn0)|]. cbn. lia.
  - intros t0 j lt0 Hc Hlt Hlt0.
    assert (quorum c1 vs) as HQ.
    { eapply quorum_le; [apply Hls|]. split; apply Hls. }
    destruct (safe_sizes _ _ _ _ _ _ Hs1 Hc HQ) as (q & nq & Hq & Hnq & Htq & lt & Hlt1 & Heq).
    { intros q Hq. destruct (ls_voters _ _ _ _ _ _ _ Hls q Hq) as (_ & _ & nq & Hnq & _). eauto. }
    destruct (ls_voters _ _ _ _ _ _ _ Hls q Hq) as (_ & _ & nq' & Hnq' & Hup).
    rewrite Hnq in Hnq'. injection Hnq' as <-. rewrite Hlt0 in Hlt1. injection Hlt1 as <-.
    destruct (sf_nodes _ _ _ Hs1 _ _ Hnq) as (lq & _ & Hnodeq).
    eapply (vote_completeness G t0 j lt0 (log nq)); try done; [apply Hs|apply Hnodeq|apply Hn1].
Qed.

Lemma won_safe ws G candidate c c1 c' n0 n1 vs :
  safe ws G c → landslide candidate c c1 c' n0 n1 vs →
  ∃ G', safe ((current_term n1, candidate, vs) :: ws) G' c' ∧ grown G G'.
Proof.
  intros Hs Hls. assert (safe ws G c1) as Hs1.
  { apply (ls_stable _ _ _ _ _ _ _ Hls (safe ws G)); [apply start_election_safe|intros; apply ask_keeps_safe|done]. }
  destruct (won_ghost _ _ _ _ _ _ _ _ _ Hs Hls Hs1) as [Hg' Hgrow]. eexists. split; [|exact Hgrow].
  pose proof (fair_won _ _ _ _ _ _ _ _ (sf_fair _ _ _ Hs) Hls) as Hf'.
  pose proof (ls_new _ _ _ _ _ _ _ Hls) as Hn1. pose proof (sf_ghost _ _ _ Hs) as Hg.
  destruct (sf_nodes _ _ _ Hs1 _ _ Hn1) as (l1 & Hl1 & Hok1).
  rewrite (ls_won _ _ _ _ _ _ _ Hls) in *. clear Hls Hs. destruct Hs1 as [H1 H2 H3 H4 H5 H7 H6].
  split; cbn; try done.
  - intros t lt [[<- <-]|[_ Hlt]]%lookup_insert_Some; [by exists candidate, vs; left|].
    destruct (H3 _ _ Hlt) as (w & vs' & Hin). exists w, vs'. by right.
  - intros t w vs' [[= -> -> ->]|Hin]%elem_of_cons; [rewrite lookup_insert_eq; by eexists|].
    destruct (H4 _ _ _ Hin) as (n & Hn & Ht). destruct (decide (candidate = w)) as [<-|Hne].
    + rewrite lookup_insert_eq. eexists. split; [done|]. by simplify_eq.
    + rewrite lookup_insert_ne by done. by exists n.
  - intros id n [[<- <-]|[Hne Hn]]%lookup_insert_Some.
    + exists l1. split; [done|]. destruct (node_ok_grown G _ (set_role Follower None n1) l1 Hg Hgrow) as [K1 K2 K3 _ K5 K6 K7];
        [done|by destruct Hok1; split|]. split; try done. intros _. apply lookup_insert_eq.
    + destruct (H5 _ _ Hn) as (l & Hl & Hok). exists l. split; [done|].
      apply (node_ok_grown G); [done..| |done]. intros Hr. cbn.
      rewrite lookup_insert_ne; [done|]. intros Ht. apply Hne.
      assert (nodes (set_nodes (<[candidate := become_leader n1]> (nodes c1)) c1) !! id = Some n) as Hn'
        by (cbn; by rewrite lookup_insert_ne).
      destruct (fr_leader _ _ Hf' _ _ Hn' Hr) as [vs' Hin]. rewrite <- Ht in Hin.
      eapply (fr_unique _ _ Hf' (current_term n1)); [left|exact Hin].
  - intros id Hid. rewrite lookup_insert_is_Some'. right. by apply H7.
  - intros t j Hc. destruct (H6 _ _ Hc) as (Q & HQ & Hq). exists Q. split.
    + destruct HQ as [HQ1 HQ2]. split; [done|]. cbn. rewrite map_size_insert_Some; [done|by exists n1].
    + intros q Hin. destruct (Hq q Hin) as (n & Hn & Hh). destruct (decide (candidate = q)) as [<-|Hne].
      * rewrite lookup_insert_eq. eexists. split; [done|]. rewrite Hn1 in Hn. injection Hn as <-.
        by eapply (holder_grown G) in Hh.
      * rewrite lookup_insert_ne by done. exists n. split; [done|]. by eapply (holder_grown G).
Qed.

(** ** A leader replicates *)

Lemma node_at_some id c n : nodes c !! id = Some n → node_at id c = (Ok n, c).
Proof. intros Hn. unfold node_at. run_steps. by rewrite Hn. Qed.

Lemma node_at_none id c : nodes c !! id = None → node_at id c = (Panic "no entry found for key", c).
Proof. intros Hn. unfold node_at. run_steps. by rewrite Hn. Qed.

Section sender.
Context (ws : list win) (G : ghost) (Hg : ghost_ok G) (t leader ci : Z) (lt : list Entry).
Context (Hlt : g_logs G !! t = Some lt) (Hci : committed_in G t lt (Z.to_nat ci)).

Lemma probe_step follower p :
  (p ≤ length lt)%nat → stable (safe ws G) (on_node follower (append_entries (probe t leader ci lt p))).
Proof.
  intros Hp. apply safe_on_node_step. intros n l Hn.
  apply (append_entries_advances G Hg (probe t leader ci lt p) lt Hlt Hci n l Hn). left. by exists p.
Qed.

Lemma back_off_keeps_safe follower p :
  (p ≤ length lt)%nat → stable (safe ws G) (back_off t leader ci lt follower p).
Proof.
  induction p as [|p IH]; intros Hp; cbn [back_off]; (apply stable_bind; [by apply probe_step|]); stable_tac.
  apply IH. lia.
Qed.

(** The follower has the leader's log, in the leader's term. *)
Definition caught_up (c : RaftCluster) (f : Z) : Prop := ∃ n, nodes c !! f = Some n ∧ current_term n = t ∧ log n = lt.

Lemma back_off_ok follower p c o c' :
  safe ws G c → (p ≤ length lt)%nat → back_off t leader ci lt follower p c = (Ok o, c') →
  (∀ k, k ≠ follower → nodes c' !! k = nodes c !! k) ∧
  ∀ i, o = Some i → i = Z.of_nat (length lt) ∧ caught_up c' follower.
Proof.
  revert c. induction p as [|p IH]; intros c Hs Hp; cbn [back_off]; intros (a & c1 & Ha & Hrun)%M_bind_ok.
  all: pose proof (probe_step follower _ Hp c Hs) as Hs1; rewrite Ha in Hs1; cbn [snd] in Hs1.
  all: destruct (on_node_ok _ _ _ _ _ Ha) as (n & n' & Hn & Hrpc & ->).
  all: destruct (_ <? _); [by apply M_bind_ok in Hrun as (? & ? & _ & [=])|].
  all: destruct (ar_success a) eqn:Hsucc.
  1,3: injection Hrun as <- <-; split; [intros k Hk; cbn; by rewrite lookup_insert_ne|]; intros i [= <-];
    destruct (sf_nodes _ _ _ Hs _ _ Hn) as (l & _ & Hok);
    destruct (probe_accepted G Hg (probe t leader ci lt _) lt Hlt n l _ a n' Hok (conj eq_refl Hp) Hrpc Hsucc) as (Ht' & Hl & ->);
    split; [done|]; exists n'; cbn; by rewrite lookup_insert_eq.
  - injection Hrun as <- <-. split; [|done]. intros k Hk. cbn. by rewrite lookup_insert_ne.
  - destruct (IH _ Hs1 ltac:(lia) Hrun) as [Hk Hi]. split; [|done]. intros k Hne. rewrite Hk by done. cbn.
    by rewrite lookup_insert_ne.
Qed.

Abbreviation others := (List.filter (λ id, negb (bool_decide (id = leader)))).

(** The followers behind a round's match indices. *)
Record round (c c' : RaftCluster) (ids : list Z) (rs Q : list Z) : Prop := Round {
  rd_safe : safe ws G c';
  rd_same k : k ∉ ids ∨ k = leader → nodes c' !! k = nodes c !! k;
  rd_length : length rs = length (others ids);
  rd_nodup : NoDup Q;
  rd_ids : Q ⊆ ids;
  rd_leader : leader ∉ Q;
  rd_caught q : q ∈ Q → caught_up c' q;
  rd_count i : 0 < i → (length (List.filter (λ m, i <=? m)%Z rs) ≤ length Q)%nat;
}.

Lemma match_followers_ok ids matched c r c' :
  NoDup ids → safe ws G c → match_followers t leader ci lt ids matched c = (Ok r, c') →
  ∃ rs Q, r = matched ++ rs ∧ round c c' ids rs Q.
Proof.
  intros Hnd. revert matched c. induction Hnd as [|f ids Hf Hnd IH]; intros matched c Hs; cbn [match_followers].
  { intros [= <- <-]. exists [], []. rewrite app_nil_r. split; [done|]. split; try done; [constructor|..];
      try (intros q Hq; by apply not_elem_of_nil in Hq). apply not_elem_of_nil. }
  run_steps. destruct (bool_decide (f = leader)) eqn:Hfl; zify_bools.
  { intros Hrun. destruct (IH _ _ Hs Hrun) as (rs & Q & -> & []). exists rs, Q. split; [done|].
    split; try done; [|cbn; by rewrite bool_decide_eq_true_2|set_solver].
    intros k Hk. apply rd_same0. set_solver. }
  assert (∀ x y : list Z, length (others (f :: ids)) = S (length (others ids))) as Hlen
    by (intros _ _; cbn; by rewrite bool_decide_eq_false_2).
  specialize (Hlen [] []). destruct (_ || _).
  { intros Hrun. destruct (IH _ _ Hs Hrun) as (rs & Q & -> & []). exists (0 :: rs), Q. rewrite <- app_assoc.
    split; [done|]. split; try done; [|rewrite Hlen; cbn; congruence|set_solver|].
    - intros k Hk. apply rd_same0. set_solver.
    - intros i Hi. cbn. rewrite (proj2 (Z.leb_gt _ _)) by done. by apply rd_count0. }
  intros (o & c1 & Hb & Hrun)%M_bind_ok.
  pose proof (back_off_keeps_safe f (length lt) ltac:(done) c Hs) as Hs1. rewrite Hb in Hs1. cbn in Hs1.
  destruct (back_off_ok _ _ _ _ _ Hs ltac:(done) Hb) as [Hsame Hcaught].
  destruct (IH _ _ Hs1 Hrun) as (rs & Q & -> & []). exists (default 0 o :: rs), (if o then f :: Q else Q).
  rewrite <- app_assoc. split; [done|].
  assert (∀ k, k ∉ f :: ids ∨ k = leader → nodes c' !! k = nodes c !! k) as Hk.
  { intros k Hk. rewrite rd_same0 by set_solver. apply Hsame. set_solver. }
  assert (length (default 0 o :: rs) = length (others (f :: ids))) by (rewrite Hlen; cbn; congruence).
  destruct o as [i|].
  - destruct (Hcaught i eq_refl) as [-> Hcf]. split; try done.
    + constructor; [|done]. intros Hin. by apply Hf, rd_ids0.
    + set_solver.
    + set_solver.
    + intros q [->|Hq]%elem_of_cons; [|by apply rd_caught0]. unfold caught_up. by rewrite rd_same0 by by left.
    + intros i Hi. cbn. specialize (rd_count0 i Hi). destruct (_ <=? _); cbn; lia.
  - split; try done; [set_solver|]. intros i Hi. cbn. rewrite (proj2 (Z.leb_gt _ _)) by done. by apply rd_count0.
Qed.

Lemma match_followers_keeps_safe ids matched : stable (safe ws G) (match_followers t leader ci lt ids matched).
Proof.
  revert matched. induction ids as [|f ids IH]; intros matched; cbn [match_followers]; stable_tac.
  by apply back_off_keeps_safe.
Qed.

(** The request that publishes a commit index. *)
Lemma publish_keeps_safe follower : stable (safe ws G) (publish t leader ci lt follower).
Proof.
  intros c Hs. unfold publish. run_steps. destruct (_ || _); [done|].
  destruct (nodes c !! follower) as [n|] eqn:Hn;
    [rewrite (M_bind_run _ _ _ _ _ (node_at_some _ _ _ Hn))
    |rewrite (M_bind_panic _ _ _ _ _ (node_at_none _ _ Hn)); done].
  set (len := last_log_index n). set (prev := if len =? 0 then _ else _).
  assert (∃ r, prev c = (r, c) ∧ ∀ x, r = Ok x → len = 0 ∨ ∃ e, lt !! Z.to_nat (len - 1) = Some e ∧ x = term e)
    as (r & Hprev & Hx).
  { unfold prev. destruct (len =? 0) eqn:H0; zify_bools.
    - eexists. split; [reflexivity|]. by left.
    - unfold index. destruct (lt !! _) as [e|] eqn:He; eexists; (split; [reflexivity|]); [|done].
      intros x [= <-]. right. by exists e. }
  destruct r as [x| |];
    [rewrite (M_bind_run _ _ _ _ _ Hprev)|rewrite (M_bind_err _ _ _ _ _ Hprev); done
    |rewrite (M_bind_panic _ _ _ _ _ Hprev); done].
  specialize (Hx x eq_refl). set (q := MkAppendEntries _ _ _ _ _ _).
  pose proof (safe_put_node ws G c follower n (append_entries q n).2 Hs Hn) as Hput.
  destruct (append_entries q n) as [a n'] eqn:Hrun. pose proof (on_node_run _ _ _ _ _ _ Hn Hrun) as Hon.
  unfold mbind, M_bind. rewrite Hon.
  assert (safe ws G (set_nodes (<[follower := n']> (nodes c)) c)) as Hs'; [|by destruct a].
  apply Hput. intros l Hok. pose proof (append_entries_advances G Hg q lt Hlt Hci n l Hok) as Had.
  rewrite Hrun in Had. apply Had. right. split; [done|]. split; [done|]. intros Hpos.
  destruct Hx as [Hx|(e & He & Hx)]; [unfold len in Hx; lia|]. by exists e.
Qed.
End sender.

Lemma apply_one_keeps_safe ws G id : stable (safe ws G) (apply_one id).
Proof.
  intros c Hs. unfold apply_one. destruct (nodes c !! id) as [n|] eqn:Hn.
  2: { unfold mbind, M_bind, on_node. by rewrite Hn. }
  destruct (sf_nodes _ _ _ Hs _ _ Hn) as (l & Hl & Hok).
  destruct (take_applied_advances G n l (sf_ghost _ _ _ Hs) Hok) as (es & Hes & Had).
  destruct (take_applied n) as [r n'] eqn:Hrun. cbn in Hes, Had. subst r.
  rewrite (M_bind_run _ _ _ _ _ (on_node_run _ _ _ _ _ _ Hn Hrun)). run_steps. cbn. rewrite Hl.
  by eapply (safe_put ws G c).
Qed.

#[export] Hint Resolve apply_one_keeps_safe : stable.

Lemma apply_all_keeps_safe ws G : stable (safe ws G) apply_all.
Proof. unfold apply_all. stable_tac. Qed.
