(* ===== verification/RaftAgreement.v ===== *)
(** The operations of the simulated cluster keep what agreement rests on
    ([safe]): a leader's commits are on a majority, whoever is elected later has
    them, and replication carries them over, whatever disks and links do. *)

From stdpp Require Import gmap.
From Stdlib Require Import Ascii.
From S2P Require Import Prelude Bytes Wal RaftNode RaftDurable RaftRules Transport RaftCluster Election RaftElects.
From S2P Require Import RaftLogs RaftSteps RaftSafety.
Local Open Scope Z_scope.

(** ** The commit *)

Lemma others_length (leader : Z) ids :
  NoDup ids → leader ∈ ids → S (length (List.filter (λ id, negb (bool_decide (id = leader))) ids)) = length ids.
Proof.
  assert (∀ l, leader ∉ l → List.filter (λ id, negb (bool_decide (id = leader))) l = l) as Hall.
  { induction l as [|x l IH]; intros Hl; [done|]. cbn. rewrite bool_decide_eq_false_2 by set_solver. cbn.
    by rewrite IH by set_solver. }
  intros Hnd. induction Hnd as [|x ids Hx Hnd IH]; intros Hin; [by apply not_elem_of_nil in Hin|]. cbn.
  destruct (decide (x = leader)) as [->|Hne].
  - rewrite bool_decide_eq_true_2 by done. cbn. by rewrite Hall.
  - rewrite bool_decide_eq_false_2 by done. cbn. rewrite IH; [done|]. set_solver.
Qed.

(** A node that is in term [t] on a majority: no later term was won. *)
Lemma no_later_term ws G c t Q :
  safe ws G c → quorum c Q → (∀ q, q ∈ Q → ∃ n, nodes c !! q = Some n ∧ current_term n = t) →
  ∀ t', is_Some (g_logs G !! t') → t' ≤ t.
Proof.
  intros Hs [HQ1 HQ2] HQ t' [lt Hlt]. destruct (sf_won _ _ _ Hs _ _ Hlt) as (w & vs & Hin).
  destruct (fr_votes _ _ (sf_fair _ _ _ Hs) _ _ _ Hin) as (Hnd & Hmaj & Hv).
  destruct (majorities_meet (nodes c) Q vs) as (q & Hq & Hq'); try done.
  - intros q Hq. destruct (HQ q Hq) as (n & Hn & _). eauto.
  - intros q Hq. destruct (Hv q Hq) as (n & Hn & _). eauto.
  - destruct (HQ q Hq) as (n & Hn & <-). destruct (Hv q Hq') as (n' & Hn' & Hvote).
    rewrite Hn in Hn'. injection Hn' as <-. destruct Hvote as [H|[H _]]; cbn in H; lia.
Qed.

Lemma safe_committed ws G c t j lt e Q :
  safe ws G c → g_logs G !! t = Some lt → lt !! j = Some e → term e = t → quorum c Q →
  (∀ q, q ∈ Q → caught_up t lt c q) →
  let G' := Ghost (g_logs G) ((t, j) :: g_commits G) in safe ws G' c ∧ grown G G'.
Proof.
  intros Hs Hlt He Ht HQ Hq G'.
  destruct (ghost_committed G t lt j e (sf_ghost _ _ _ Hs) Hlt He Ht) as [Hg' Hgrow].
  { eapply no_later_term; [done|exact HQ|]. intros q Hin. destruct (Hq q Hin) as (n & Hn & Hnt & _). eauto. }
  split; [|done]. destruct Hs as [H1 H2 H3 H4 H5 H6 H7]. split; try done.
  - intros id n Hn. destruct (H5 _ _ Hn) as (l & Hl & Hok). exists l. split; [done|]. by apply (node_ok_grown G).
  - intros t1 j1 [[= -> ->]|Hc]%elem_of_cons.
    + exists Q. split; [done|]. intros q Hin. destruct (Hq q Hin) as (n & Hn & Hnt & Hl). exists n. split; [done|].
      split; [lia|]. exists lt. by rewrite Hl.
    + destruct (H7 _ _ Hc) as (Q1 & HQ1 & Hq1). exists Q1. split; [done|]. intros q Hin.
      destruct (Hq1 q Hin) as (n & Hn & Hh). exists n. split; [done|]. by eapply (holder_grown G).
Qed.

(** After a round of AppendEntries the leader's commit index is sound. *)
Lemma advance_safe ws G c0 c leader n rs Q :
  round ws G (current_term n) leader (log n) c0 c (z_keys (nodes c0)) rs Q →
  base.size (nodes c) = base.size (nodes c0) → nodes c0 !! leader = Some n → role n = Leader →
  ∃ G' commit c', on_node leader (advance_commit rs) c = (Ok commit, c') ∧ safe ws G' c' ∧ grown G G' ∧
    g_logs G' !! current_term n = Some (log n) ∧ committed_in G' (current_term n) (log n) (Z.to_nat commit).
Proof.
  intros Hround Hsize Hn0 Hr. pose proof (rd_safe _ _ _ _ _ _ _ _ _ _ Hround) as Hs.
  assert (nodes c !! leader = Some n) as Hn by (by rewrite (rd_same _ _ _ _ _ _ _ _ _ _ Hround) by by right).
  destruct (sf_nodes _ _ _ Hs _ _ Hn) as (l & Hl & Hok). pose proof (nk_leader _ _ _ Hok Hr) as Hlt.
  pose proof (nk_range _ _ _ Hok) as Hrange.
  destruct (advance_commit_run rs n) as (cm & Hrun & _ & Hlead); [lia|].
  destruct (Hlead Hr) as [Hcase _].
  pose proof (on_node_run _ _ _ _ _ _ Hn Hrun) as Hon.
  destruct Hcase as [->|(Hcm & Hcopies & e & He & Hte)].
  { exists G. do 2 eexists. split; [exact Hon|]. split; [|split_and!; [done..|apply Hok]].
    assert (set_commit (commit_index n) n = n) as -> by by destruct n.
    apply (safe_put_node ws G c leader n n Hs Hn). intros k Hk. by apply quiet_advances. }
  assert (quorum c (leader :: Q)) as HQ.
  { split; [constructor; apply Hround|]. rewrite Hsize.
    pose proof (rd_count _ _ _ _ _ _ _ _ _ _ Hround cm ltac:(lia)) as Hcount.
    pose proof (rd_length _ _ _ _ _ _ _ _ _ _ Hround) as Hlen.
    pose proof (others_length leader (z_keys (nodes c0)) (NoDup_z_keys _)) as Hothers.
    rewrite length_z_keys in Hothers. unfold copies in Hcopies. cbn [length].
    rewrite elem_of_z_keys in Hothers. specialize (Hothers (ex_intro _ _ Hn0)). lia. }
  assert (∃ j, cm = Z.of_nat (S j)) as [j ->] by (exists (pred (Z.to_nat cm)); lia).
  replace (Z.to_nat (Z.of_nat (S j) - 1)) with j in He by lia.
  destruct (safe_committed ws G c (current_term n) j (log n) e (leader :: Q)) as [Hs' Hgrow]; try done.
  { intros q [->|Hq]%elem_of_cons; [by exists n|by apply Hround]. }
  eexists. do 2 eexists. split; [exact Hon|]. split.
  - apply (safe_put_node ws _ c leader n _ Hs' Hn). intros k Hk.
    eapply (set_commit_advances _ n k (current_term n) j (log n)); try done; [by left|lia].
  - split; [done|]. split; [done|]. rewrite Nat2Z.id. right. exists (current_term n), j, (log n).
    split_and!; try done. by left.
Qed.

(** ** Replication *)

Definition leads (c : RaftCluster) (id : Z) : Prop := ∀ n, nodes c !! id = Some n → role n = Leader.

Lemma replicate_existing_keeps_safe ws G c leader :
  safe ws G c → leads c leader → ∃ G', safe ws G' (replicate_existing leader c).2 ∧ grown G G'.
Proof.
  intros Hs Hlead. unfold replicate_existing. destruct (nodes c !! leader) as [n|] eqn:Hn.
  2: { rewrite (M_bind_panic _ _ _ _ _ (node_at_none _ _ Hn)). by exists G. }
  rewrite (M_bind_run _ _ _ _ _ (node_at_some _ _ _ Hn)). run_steps. specialize (Hlead n Hn).
  destruct (sf_nodes _ _ _ Hs _ _ Hn) as (l & Hl & Hok). pose proof (nk_leader _ _ _ Hok Hlead) as Hlt.
  pose proof (match_followers_keeps_safe ws G (sf_ghost _ _ _ Hs) (current_term n) leader (commit_index n) (log n)
    Hlt (nk_commit _ _ _ Hok) (z_keys (nodes c)) [] c Hs) as Hs1.
  destruct (match_followers _ _ _ _ _ _ c) as [[rs|e|p] c1] eqn:Hm; cbn [snd] in Hs1.
  2: { rewrite (M_bind_err _ _ _ _ _ Hm). by exists G. }
  2: { rewrite (M_bind_panic _ _ _ _ _ Hm). by exists G. }
  rewrite (M_bind_run _ _ _ _ _ Hm).
  destruct (match_followers_ok ws G (sf_ghost _ _ _ Hs) _ leader _ _ Hlt (nk_commit _ _ _ Hok) _ _ _ _ _
    (NoDup_z_keys _) Hs Hm) as (rs' & Q & -> & Hround). cbn [app] in *.
  assert (base.size (nodes c1) = base.size (nodes c)) as Hsize.
  { pose proof (match_followers_safe (current_term n) leader (commit_index n) (log n) (z_keys (nodes c)) [] c) as Hle.
    rewrite Hm in Hle. by apply cluster_le_size. }
  destruct (advance_safe ws G c c1 leader n rs' Q Hround Hsize Hn Hlead)
    as (G' & commit & c2 & Hon & Hs2 & Hgrow & Hlt' & Hci').
  rewrite (M_bind_run _ _ _ _ _ Hon). exists G'. split; [|done]. run_steps.
  apply (stable_bind (safe ws G')); [| |exact Hs2].
  - apply stable_for_each. intros f. by apply publish_keeps_safe; [apply Hs2|..].
  - intros _. apply stable_bind; [apply apply_all_keeps_safe|]. intros _. apply stable_ret.
Qed.

Lemma node_at_stable P id : stable P (node_at id).
Proof. intros c Hc. unfold node_at. run_steps. by destruct (nodes c !! id). Qed.
#[export] Hint Resolve node_at_stable : stable.

(** The leader's log stays as it is. *)
Section leader_log.
Context (leader : Z) (l : list Entry).

Lemma back_off_log_is term commit lt f p :
  f ≠ leader → stable (log_is leader l) (back_off term leader commit lt f p).
Proof. intros Hf. induction p as [|p IH]; cbn [back_off]; stable_tac. Qed.

Lemma match_followers_log_is term commit lt ids matched :
  stable (log_is leader l) (match_followers term leader commit lt ids matched).
Proof.
  revert matched. induction ids as [|f ids IH]; intros matched; cbn [match_followers]; [apply stable_ret|].
  apply stable_bind; [apply stable_get|]. intros c. destruct (bool_decide _) eqn:Hf; zify_bools; stable_tac.
  by apply back_off_log_is.
Qed.

Lemma publish_log_is term commit lt f : stable (log_is leader l) (publish term leader commit lt f).
Proof.
  unfold publish. apply stable_bind; [apply stable_get|]. intros c.
  destruct (bool_decide _) eqn:Hf; [apply stable_ret|]. zify_bools. stable_tac.
Qed.

Lemma advance_commit_log_is matched : stable (log_is leader l) (on_node leader (advance_commit matched)).
Proof.
  apply log_is_on_node. right. intros n. unfold advance_commit. run_steps.
  destruct (negb _); [done|]. unfold lift, mbind, M_bind. by destruct (find_commit _ _ _ _) as [[i|]| |].
Qed.

Lemma apply_one_log_is k : stable (log_is leader l) (apply_one k).
Proof.
  unfold apply_one. apply stable_bind; [|stable_tac].
  apply log_is_on_node. right. intros n. unfold take_applied. run_steps.
  destruct (take_loop_silent (Z.to_nat (commit_index n - last_applied n)) [] n) as (_ & Hp & _). by injection Hp.
Qed.
#[local] Hint Resolve match_followers_log_is publish_log_is advance_commit_log_is apply_one_log_is : stable.

Lemma replicate_existing_log_is : stable (log_is leader l) (replicate_existing leader).
Proof. unfold replicate_existing, apply_all. stable_tac. Qed.
End leader_log.

(** The acknowledged command: committed at that place, up to term [t]. *)
Definition acknowledged (G : ghost) (t : Z) (i : Z) (cmd : bytes) : Prop :=
  ∃ l k e, committed_in G t l (S k) ∧ l !! k = Some e ∧ command e = cmd ∧ i = Z.of_nat (S k).

Lemma append_as_leader_safe ws G c leader n cmd :
  safe ws G c → nodes c !! leader = Some n → role n = Leader →
  ∃ G', safe ws G' (set_nodes (<[leader := (append_as_leader cmd n).2]> (nodes c)) c) ∧ grown G G'.
Proof.
  intros Hs Hn Hr. destruct (sf_nodes _ _ _ Hs _ _ Hn) as (l & Hl & Hok).
  set (k := log n ++ [MkEntry (current_term n) cmd]).
  destruct (ghost_appended G (current_term n) (log n) cmd (sf_ghost _ _ _ Hs) (nk_leader _ _ _ Hok Hr)) as [Hg' Hgrow].
  fold k in Hg', Hgrow. set (G' := Ghost _ _) in *. exists G'. split; [|done].
  destruct (append_as_leader_advances G n l cmd (sf_ghost _ _ _ Hs) Hok Hr) as [Hle Hok' Hh]. fold k G' in Hok', Hh.
  pose proof (cluster_le_put c (set_nodes (<[leader := (append_as_leader cmd n).2]> (nodes c)) c) _ _ _ Hn Hle eq_refl)
    as Hcle. pose proof Hs as [H1 H2 H3 H4 H5 H6 H7]. split; try done.
  - by eapply fair_le.
  - unfold G'. cbn. intros t lt [[<- <-]|[_ Hlt]]%lookup_insert_Some; [|by eapply H3]. apply (H3 _ (log n)), Hok, Hr.
  - intros t w vs Hin. destruct (H4 _ _ _ Hin) as (m & Hm & Ht).
    destruct (cluster_le_lookup _ _ _ _ Hcle Hm) as (m' & Hm' & Hmm). exists m'. split; [done|].
    pose proof (node_le_term _ _ Hmm). lia.
  - intros id m. cbn. intros [[<- <-]|[Hne Hm]]%lookup_insert_Some; [by exists l|].
    destruct (H5 _ _ Hm) as (lm & Hlm & Hokm). exists lm. split; [done|]. apply (node_ok_grown G); try done.
    intros Hrm. cbn. rewrite lookup_insert_ne; [done|]. intros Ht. apply Hne.
    destruct (fr_leader _ _ H1 _ _ Hn Hr) as [vs Hvs]. destruct (fr_leader _ _ H1 _ _ Hm Hrm) as [vs' Hvs'].
    rewrite <- Ht in Hvs'. by eapply (fr_unique _ _ H1).
  - intros id Hid. cbn. rewrite lookup_insert_is_Some'. right. by apply H6.
  - intros t j Hc. destruct (H7 _ _ Hc) as (Q & HQ & Hq). exists Q. split; [by eapply quorum_le|].
    intros q Hin. destruct (Hq q Hin) as (m & Hm & Hmh). cbn. destruct (decide (leader = q)) as [<-|Hne].
    + rewrite lookup_insert_eq. eexists. split; [done|]. apply Hh; [done|]. rewrite Hn in Hm. injection Hm as <-.
      exact (holder_grown G G' _ _ _ H2 Hgrow Hc Hmh).
    + rewrite lookup_insert_ne by done. exists m. split; [done|]. exact (holder_grown G G' _ _ _ H2 Hgrow Hc Hmh).
Qed.

Lemma replicate_keeps_safe ws G c leader cmd :
  safe ws G c →
  ∃ G', safe ws G' (replicate leader cmd c).2 ∧ grown G G' ∧
    ∀ i, (replicate leader cmd c).1 = Ok i →
      ∃ n, nodes (replicate leader cmd c).2 !! leader = Some n ∧ acknowledged G' (current_term n) i cmd.
Proof.
  intros Hs. unfold replicate. run_steps. destruct (is_stopped c leader); [by exists G|].
  destruct (nodes c !! leader) as [n|] eqn:Hn; cbn [ok_or]; run_steps; [|by exists G].
  destruct (decide (role n = Leader)) as [Hr|Hr].
  2: { destruct (append_as_leader_refused cmd n Hr) as [e He].
       rewrite (M_bind_err _ _ _ _ _ (on_node_run _ _ _ _ _ _ Hn He)). exists G. split; [|done].
       apply (safe_put_node ws G c leader n n Hs Hn). intros l Hl. by apply quiet_advances. }
  destruct (append_as_leader_safe ws G c leader n cmd Hs Hn Hr) as (G1 & Hs1 & Hgrow1).
  destruct (append_as_leader_state cmd n Hr) as (w & Hn' & Hi).
  destruct (append_as_leader cmd n) as [r n'] eqn:Hrun. cbn [fst snd] in *. set (c1 := set_nodes _ c) in *.
  pose proof (on_node_run _ _ _ _ _ _ Hn Hrun) as Hon. fold c1 in Hon. destruct r as [i|e|p].
  2: { rewrite (M_bind_err _ _ _ _ _ Hon). by exists G1. }
  2: { rewrite (M_bind_panic _ _ _ _ _ Hon). by exists G1. }
  rewrite (M_bind_run _ _ _ _ _ Hon). specialize (Hi i eq_refl).
  assert (leads c1 leader) as Hlead.
  { intros m. unfold c1. cbn. rewrite lookup_insert_eq. intros [= <-]. by rewrite Hn'. }
  destruct (replicate_existing_keeps_safe ws G1 c1 leader Hs1 Hlead) as (G2 & Hs2 & Hgrow2).
  pose proof (replicate_existing_log_is leader (log n ++ [MkEntry (current_term n) cmd]) c1) as Hlog.
  assert (grown G G2) as Hgrow by by etransitivity.
  destruct (replicate_existing leader c1) as [[cm|e|p] c2] eqn:Hre; cbn [snd] in *.
  2: { rewrite (M_bind_err _ _ _ _ _ Hre). by exists G2. }
  2: { rewrite (M_bind_panic _ _ _ _ _ Hre). by exists G2. }
  rewrite (M_bind_run _ _ _ _ _ Hre). exists G2.
  assert (log_is leader (log n ++ [MkEntry (current_term n) cmd]) c2) as Hl2.
  { apply Hlog. unfold log_is, c1. cbn. rewrite lookup_insert_eq. cbn. by rewrite Hn'. }
  apply fmap_Some in Hl2 as (n2 & Hn2 & Hl2). rewrite (M_bind_run _ _ _ _ _ (node_at_some _ _ _ Hn2)).
  destruct (_ <? i) eqn:Hci; [by split_and!|]. zify_bools. split_and!; [done..|]. intros i' [= <-].
  exists n2. split; [done|]. destruct (sf_nodes _ _ _ Hs2 _ _ Hn2) as (l2 & _ & Hok2).
  exists (log n2), (length (log n)), (MkEntry (current_term n) cmd). split_and!; try done.
  - eapply committed_less; [|apply Hok2]. lia.
  - by rewrite <- Hl2, list_lookup_middle.
Qed.

(** ** Every operation *)

(** [synchronize] does not look at the role of the node it is given: the
    callers give it a leader. *)
Definition led (o : cop) (c : RaftCluster) : Prop :=
  match o with CSynchronize leader => leads c leader | _ => True end.

Lemma elect_keeps_safe ws G c candidate :
  safe ws G c → ∃ ws' G', safe (ws' ++ ws) G' (elect candidate c).2 ∧ grown G G'.
Proof.
  intros Hs. destruct (elect candidate c) as [r c'] eqn:Hrun. destruct (decide (r = Ok true)) as [->|Hr].
  - destruct (elect_won _ _ _ (fr_ids _ _ (sf_fair _ _ _ Hs)) Hrun) as (c1 & n0 & n1 & vs & Hls).
    destruct (won_safe _ _ _ _ _ _ _ _ _ Hs Hls) as (G' & Hs' & Hgrow). by exists [(current_term n1, candidate, vs)], G'.
  - exists [], G. split; [|done]. destruct (elect_cases candidate c) as [(q & c1 & v & c2 & n & _ & _ & _ & _ & He)|[_ H]].
    { rewrite He in Hrun. congruence. }
    specialize (H (safe ws G)). rewrite Hrun in H. apply H; [apply start_election_safe|intros; apply ask_keeps_safe|done].
Qed.

Lemma unchanged_keeps_safe {A} ws G (m : cluster A) :
  (∀ c, nodes (m c).2 = nodes c ∧ applied (m c).2 = applied c) → stable (safe ws G) m.
Proof. intros H c Hs. destruct (H c). by eapply safe_same_nodes. Qed.

Lemma isolate_unchanged ws G id : stable (safe ws G) (isolate id).
Proof.
  unfold isolate. apply stable_bind; [apply stable_get|]. intros c. apply stable_for_each. intros p.
  destruct (bool_decide _); [apply stable_ret|]. by apply unchanged_keeps_safe.
Qed.

Lemma run_op_keeps_safe o ws G c :
  safe ws G c → led o c → ∃ ws' G', safe (ws' ++ ws) G' (run_op o c).2 ∧ grown G G'.
Proof.
  intros Hs Hled.
  assert (∀ {A B} (m : cluster A) (f : A → cluster B), (∀ a c, (f a c).2 = c) → (((m ≫= f) c).2 = (m c).2)) as Hend.
  { intros A B m f Hf. unfold mbind, M_bind. by destruct (m c) as [[a| |] c']. }
  destruct o; cbn [run_op].
  - rewrite Hend by (by intros [] c'). by apply elect_keeps_safe.
  - unfold elect_by_timeout. run_steps. destruct (min_by _ _) as [id|]; [|by exists [], G].
    rewrite Hend by (by intros [] c'). by apply elect_keeps_safe.
  - rewrite Hend by done. destruct (replicate_keeps_safe ws G c leader c0 Hs) as (G' & Hs' & Hgrow & _). by exists [], G'.
  - rewrite Hend by done. unfold synchronize. rewrite Hend by done.
    destruct (replicate_existing_keeps_safe ws G c leader Hs Hled) as (G' & Hs' & Hgrow). by exists [], G'.
  - rewrite Hend by done. exists [], G. split; [|done]. by apply (unchanged_keeps_safe ws G (partition a b)).
  - rewrite Hend by done. exists [], G. split; [|done]. by apply isolate_unchanged.
  - rewrite Hend by done. exists [], G. split; [|done]. by apply (unchanged_keeps_safe ws G heal_all).
  - rewrite Hend by done. exists [], G. split; [|done]. by apply (unchanged_keeps_safe ws G (stop node)).
  - rewrite Hend by done. exists [], G. split; [|done]. by apply (unchanged_keeps_safe ws G (start node)).
Qed.

(** A cluster opened on files that do not exist, and that may fail in any way. *)
Lemma open_safe dir files ids seed c :
  (∀ id, f_exists (files id) = false) → open dir files ids seed = Ok c → safe [] (Ghost ∅ []) c.
Proof.
  intros Hnew Ho. pose proof (open_fair _ _ _ _ _ Ho) as Hf.
  assert (∀ id, (∀ n, nodes c !! id = Some n → (∃ w, n = set_wal w (fresh_node id seed)) ∧ applied c !! id = Some []) ∧
                (is_Some (applied c !! id) → is_Some (nodes c !! id))) as Hc.
  { apply open_ok in Ho. revert Ho. assert (∀ c0 : RaftCluster, (∀ id,
        (∀ n, nodes c0 !! id = Some n → (∃ w, n = set_wal w (fresh_node id seed)) ∧ applied c0 !! id = Some []) ∧
        (is_Some (applied c0 !! id) → is_Some (nodes c0 !! id))) →
      open_nodes ids files seed c0 = Ok c → ∀ id,
        (∀ n, nodes c !! id = Some n → (∃ w, n = set_wal w (fresh_node id seed)) ∧ applied c !! id = Some []) ∧
        (is_Some (applied c !! id) → is_Some (nodes c !! id))) as H.
    { induction ids as [|id ids IH]; intros c0 H0; cbn [open_nodes].
      - by intros Hc0%ok_inj; subst c0.
      - destruct (RaftNode.open id seed (files id)) as [[n0| |] f0] eqn:Hopen; [|done..].
        destruct (open_new_node _ _ _ _ _ (Hnew id) Hopen) as [w ->]. apply IH. intros k. cbn. rewrite !lookup_insert_is_Some'. split.
        + intros n [[<- <-]|[Hne Hn]]%lookup_insert_Some; [rewrite lookup_insert_eq; eauto|].
          rewrite lookup_insert_ne by done. by apply H0.
        + intros [->|Hk]; [by left|right]. by apply H0. }
    apply H. intros id. cbn. rewrite !lookup_empty. split; [done|]. by intros [? [=]]. }
  split; try done.
  - split; cbn [g_logs g_commits]; intros *; rewrite ?lookup_empty; try done; intros H; by apply not_elem_of_nil in H.
  - intros t w vs H. by apply not_elem_of_nil in H.
  - intros id n Hn. destruct (proj1 (Hc id) n Hn) as [[w ->] Ha]. exists []. split; [done|].
    split; cbn; try done. by left.
  - intros id. apply Hc.
  - intros t j H. by apply not_elem_of_nil in H.
Qed.
