(* ===== verification/RaftCrash.v ===== *)
(** Crashes of the simulated cluster: what the nodes' files give back when the
    machine stops anywhere inside an operation, and that a cluster opened on it
    is one that agreement holds of. *)

From stdpp Require Import gmap.
From Stdlib Require Import Ascii.
From S2P Require Import Prelude Bytes Wal RaftNode RaftDurable RaftRules Transport RaftCluster Election RaftElects.
From S2P Require Import RaftLogs RaftSteps RaftSafety RaftAgreement.
Local Open Scope Z_scope.

(** ** One node *)

(** The node's file gives back the node's term, vote and log, whatever its
    system calls will do. *)
Definition idle (n : RaftNode) : Prop := node_holds (with_env_node [] n).

(** A crash may leave [q] to the node. *)
Definition comes_back (n : RaftNode) (q : PersistentState) : Prop :=
  ∃ img recs t, crash_image (wal n) img ∧ replays img recs t ∧ recover default_state recs = Ok q.

Lemma idle_alike n n' :
  idle n → wal n' = wal n → persistent n' = persistent n → node_id n' = node_id n → idle n'.
Proof.
  intros [Hu (d & Hf & Hd)] Hw Hp Hi. split.
  - change (u64_state (persistent n') ∧ u64_range (node_id n')). rewrite Hp, Hi. exact Hu.
  - exists d. cbn [with_env_node set_wal wal] in *. rewrite Hw. split; [done|].
    change (persistent (with_env_node [] n')) with (persistent n'). by rewrite Hp.
Qed.

Lemma idle_u64 n : idle n → u64_node n.
Proof. intros [Hu _]. exact Hu. Qed.

Lemma idle_comes_back n q : idle n → comes_back n q → q = persistent n.
Proof.
  intros [_ (d & [_ _ Hs Hc Hsy] & Hd)] (img & recs & t & Hcr & Hrep & Hrec). cbn in *. rewrite app_nil_r in *.
  destruct (crash_idle d (wal n) img Hs Hc Hsy Hcr) as [t' Ht'].
  destruct (replays_det _ _ _ _ _ Hrep Ht') as [-> _]. unfold persistent in *. cbn in Hd. congruence.
Qed.

Lemma with_own_env f : with_env (f_env f) (with_env [] f) = f.
Proof. by destruct f. Qed.

Lemma append_sync_ok f d p f1 :
  log_file (with_env [] f) d [] → (_ ← append p; sync) f = (Ok tt, f1) → log_file (with_env [] f1) (d ++ [p]) [].
Proof.
  intros Hf Hrun. pose proof Hrun as Hrun'. rewrite <- (with_own_env f) in Hrun'.
  destruct (append_sync_any _ _ _ _ _ _ Hf Hrun') as [Hsm _]. specialize (Hsm eq_refl). clear Hrun'.
  destruct Hf as [Hx [He Hr] Hs Hc Hsy]. rewrite app_nil_r in *. rewrite append_outcome in Hrun by done.
  assert (∀ env, log_file (with_env [] (File (f_exists f) (f_content f ++ frame p) (f_content f ++ frame p) env (f_reads f)))
    (d ++ [p]) []) as Hgoal.
  { intros env. split; cbn in *; rewrite ?app_nil_r; try done.
    - apply Forall_app. split; [done|by constructor].
    - by rewrite log_bytes_app, log_bytes_one, Hc.
    - by rewrite log_bytes_app, log_bytes_one, Hc. }
  destruct (f_env f) as [|[|k e] env]; [|destruct env as [|[|k e] env]|]; cbn in Hrun; try done;
    injection Hrun as <-; apply Hgoal.
Qed.

(** After a method that answered, the file gives back the node; after one that
    failed, it gives back the node before or after. *)
Lemma node_careful {A} ok (m : node A) n r n' :
  well_behaved ok m → ok → idle n → m n = (r, n') →
  u64_node n' ∧ node_id n' = node_id n ∧
  match r with Ok _ => idle n' | _ => ∀ q, comes_back n' q → q = persistent n ∨ q = persistent n' end.
Proof.
  intros Hm Hok Hn Hrun. pose proof Hn as [Hu (d & Hf & Hd)].
  destruct (Hm n) as [(Hw & Hp & Hi)|(n1 & a & post & Hw & Hi & Hle & Hu1 & Hpost & Hout)]; rewrite Hrun in *; cbn in *.
  { pose proof (idle_alike n n' Hn Hw Hp Hi) as Hn'. split; [by apply idle_u64|]. split; [done|].
    destruct r; [done|..]; intros q Hq; left; rewrite <- Hp; by apply idle_comes_back. }
  specialize (Hu1 Hok (idle_u64 _ Hn)). destruct (persist n1) as [rp n2] eqn:Hper.
  destruct (persist_run _ _ _ Hper) as [(e & He & -> & ->)|(bs & w & He & Happ & ->)].
  { injection Hout as -> ->. split; [done|]. split; [done|]. intros q Hq. left.
    apply (idle_comes_back n q Hn). unfold comes_back in *. by rewrite Hw in Hq. }
  rewrite Hw in Happ. assert (decode bs = Ok (persistent n1)) as Hdec by (apply state_decode_encoded; [apply Hu1|done]).
  destruct rp as [[]|e|e].
  { injection Hout as -> ->. destruct (Hpost (set_wal w n1)) as (Hw' & Hp' & Hi'). cbn in Hw', Hi'.
    assert (idle (set_wal w n1)) as Hidle.
    { split; [done|]. exists (d ++ [bs]). split; [by eapply append_sync_ok|]. by eapply recover_snoc. }
    pose proof (idle_alike _ (post (set_wal w n1)) Hidle Hw' Hp' Hi') as Hn'.
    split; [by apply idle_u64|]. split; [congruence|done]. }
  all: injection Hout as -> ->; split; [done|]; split; [done|]; intros q (img & recs & t & Hcr & Hrep & Hrec);
    rewrite <- (with_own_env (wal n)) in Happ; destruct (append_sync_any _ _ _ _ _ _ Hf Happ) as [_ Himg];
    destruct (Himg img Hcr) as (t' & [Ht|[_ Ht]]); destruct (replays_det _ _ _ _ _ Hrep Ht) as [-> _]; [left|right];
    [|rewrite (recover_snoc _ _ _ _ Hd Hdec) in Hrec; by injection Hrec];
    change (persistent (with_env_node [] n)) with (persistent n) in Hd; congruence.
Qed.

(** ** The cluster, until an error ends the operation *)

Definition settled (c : RaftCluster) : Prop := ∀ id n, nodes c !! id = Some n → idle n.

(** Whatever the files give back, the nodes would be those of a state in [I]. *)
Definition shaken (I : RaftCluster → Prop) (c : RaftCluster) : Prop :=
  ∀ ps : Z → PersistentState, (∀ id n, nodes c !! id = Some n → comes_back n (ps id)) →
  ∃ c', I c' ∧ dom (nodes c') = dom (nodes c) ∧
    ∀ id n, nodes c' !! id = Some n → u64_node n ∧ persistent n = ps id.

Definition outcome {A} (I : RaftCluster → Prop) (Q : A → Prop) (out : result io_error A * RaftCluster) : Prop :=
  match out with
  | (Ok a, c') => I c' ∧ settled c' ∧ Q a
  | (_, c') => I c' ∧ shaken I c'
  end.
Definition careful {A} (I : RaftCluster → Prop) (Q : A → Prop) (m : cluster A) : Prop :=
  ∀ c, I c → settled c → outcome I Q (m c).

Lemma settled_shaken (I : RaftCluster → Prop) c : I c → settled c → shaken I c.
Proof.
  intros HI Hs ps Hps. exists c. split; [done|]. split; [done|]. intros id n Hn. split; [by eapply idle_u64, Hs|].
  symmetry. apply idle_comes_back; [by eapply Hs|by apply Hps].
Qed.

Lemma outcome_quiet {A} I (Q : A → Prop) (out : result io_error A * RaftCluster) :
  I out.2 → settled out.2 → (∀ a, out.1 = Ok a → Q a) → outcome I Q out.
Proof.
  destruct out as [[a| |] c']; cbn; intros HI Hs HQ; split; auto using settled_shaken.
Qed.

Lemma shaken_mono (I J : RaftCluster → Prop) c : (∀ c, I c → J c) → shaken I c → shaken J c.
Proof. intros HIJ H ps Hps. destruct (H ps Hps) as (c' & HI & Hc'). eauto. Qed.

Lemma outcome_bind {A B} (I J : RaftCluster → Prop) (Q : A → Prop) (R : B → Prop) (m : cluster A) f c :
  outcome I Q (m c) → (∀ c, I c → J c) →
  (∀ a c', m c = (Ok a, c') → I c' → settled c' → Q a → outcome J R (f a c')) → outcome J R ((m ≫= f) c).
Proof.
  intros Hm HIJ Hf. unfold mbind, M_bind. destruct (m c) as [[a| |] c'] eqn:Hrun; cbn in Hm.
  - destruct Hm as (HI & Hs & HQ). by apply Hf.
  - destruct Hm. split; eauto using shaken_mono.
  - destruct Hm. split; eauto using shaken_mono.
Qed.

Lemma careful_bind {A B} I (Q : A → Prop) (R : B → Prop) (m : cluster A) f :
  careful I Q m → (∀ a, Q a → careful I R (f a)) → careful I R (m ≫= f).
Proof. intros Hm Hf c HI Hs. eapply outcome_bind; [by apply Hm|done|]. intros a c' _ HI' Hs' HQ. by apply Hf. Qed.

Lemma careful_quiet {A} I (m : cluster A) : stable I m → stable settled m → careful I (λ _, True) m.
Proof. intros H1 H2 c HI Hs. apply outcome_quiet; [by apply H1|by apply H2|done]. Qed.

Lemma careful_for_each {A} I (l : list A) (f : A → cluster unit) :
  (∀ a, careful I (λ _, True) (f a)) → careful I (λ _, True) (for_each l f).
Proof.
  intros Hf. induction l as [|a l IH]; [apply careful_quiet; apply stable_ret|]. cbn.
  apply (careful_bind _ (λ _, True)); auto.
Qed.

(** A method of one node. *)
Lemma on_node_outcome {A} ok (I : RaftCluster → Prop) (Q : A → Prop) id (m : node A) c :
  well_behaved ok m → ok → I c → settled c → I (on_node id m c).2 →
  (∀ n a n', nodes c !! id = Some n → m n = (Ok a, n') → u64_node n' → Q a) → outcome I Q (on_node id m c).
Proof.
  intros Hm Hok HI Hs HI' HQ. unfold on_node in *. destruct (nodes c !! id) as [n|] eqn:Hn.
  2: { by split; [|apply settled_shaken]. }
  destruct (m n) as [r n'] eqn:Hrun. destruct (node_careful ok m n r n' Hm Hok (Hs _ _ Hn) Hrun) as (Hu & Hi & Hr).
  cbn in HI'.
  assert (idle n' → settled (set_nodes (<[id := n']> (nodes c)) c)) as Hset.
  { intros Hn' k n2. cbn. rewrite lookup_insert_Some. intros [[<- <-]|[_ Hk]]; [done|by eapply Hs]. }
  assert ((∀ q, comes_back n' q → q = persistent n ∨ q = persistent n') →
    shaken I (set_nodes (<[id := n']> (nodes c)) c)) as Hshaken.
  { intros Hback ps Hps. cbn in Hps. pose proof (Hps id n' (lookup_insert_eq _ _ _)) as Hid.
    assert (∀ k n2, k ≠ id → nodes c !! k = Some n2 → persistent n2 = ps k) as Hothers.
    { intros k n2 Hne Hk. symmetry. apply idle_comes_back; [by eapply Hs|]. apply Hps. by rewrite lookup_insert_ne. }
    destruct (Hback _ Hid) as [Hp|Hp].
    - exists c. split; [done|]. split; [cbn; rewrite dom_insert_L; apply elem_of_dom_2 in Hn; set_solver|].
      intros k n2 Hk. split; [by eapply idle_u64, Hs|]. destruct (decide (k = id)) as [->|Hne]; [|by apply Hothers].
      rewrite Hn in Hk. by injection Hk as <-.
    - eexists. split; [exact HI'|]. split; [done|]. intros k n2. cbn.
      rewrite lookup_insert_Some. intros [[<- <-]|[Hne Hk]]; [done|]. split; [by eapply idle_u64, Hs|by apply Hothers]. }
  destruct r as [a|e|e]; cbn.
  - split_and!; [done|by apply Hset|by eapply HQ].
  - split; auto.
  - split; auto.
Qed.

Lemma on_node_careful {A} ok I (Q : A → Prop) id (m : node A) :
  well_behaved ok m → ok → stable I (on_node id m) → (∀ n a n', m n = (Ok a, n') → u64_node n' → Q a) →
  careful I Q (on_node id m).
Proof. intros Hm Hok HI HQ c Hc Hs. eapply on_node_outcome; eauto. Qed.

(** A method that never reaches the file. *)
Lemma settled_on_node {A} id (m : node A) : (∀ n, silent (m n) n) → stable settled (on_node id m).
Proof.
  intros Hm. apply stable_on_node. intros c n Hs Hn k n2. cbn. rewrite lookup_insert_Some.
  intros [[<- <-]|[_ Hk]]; [|by eapply Hs]. destruct (Hm n) as (Hw & Hp & Hi). eapply idle_alike; [by eapply Hs|done..].
Qed.

(** ** Elections *)

Lemma request_vote_term q n r n' : request_vote q n = (Ok r, n') → vr_term r = current_term n'.
Proof.
  intros Hrun. destruct (decide (current_term n ≤ rv_term q)) as [Ht|Ht].
  - by destruct (request_vote_state _ _ _ _ Ht Hrun) as (w & _ & _ & ?).
  - unfold request_vote in Hrun. run_steps in Hrun. rewrite (proj2 (Z.ltb_lt _ _)) in Hrun by lia.
    by injection Hrun as <- <-.
Qed.

Lemma append_entries_term q n a n' : append_entries q n = (Ok a, n') → ar_term a = current_term n'.
Proof.
  intros Hrun. destruct (decide (current_term n ≤ ae_term q)) as [Ht|Ht].
  - destruct (append_entries_effect _ _ _ _ Hrun Ht) as (H1 & H2 & _). congruence.
  - rewrite append_entries_refused in Hrun by lia. by injection Hrun as <- <-.
Qed.

Lemma u64_node_term n : u64_node n → u64_range (current_term n).
Proof. intros [(Ht & _) _]. exact Ht. Qed.

Definition u64_request (q : RequestVote) : Prop := u64_range (rv_term q) ∧ u64_range (rv_candidate_id q).

Lemma careful_start ws G id : careful (safe ws G) u64_request (on_node id start_election).
Proof.
  apply (on_node_careful True); [apply start_election_ok|done|apply start_election_safe|].
  intros n q n' Hrun Hu. destruct (start_election_vote _ _ _ Hrun) as (Ht & Hv & _).
  unfold u64_request. rewrite <- Ht. split; [by apply u64_node_term|]. destruct Hu as [(_ & Hu & _) _]. by apply Hu.
Qed.

Lemma careful_observe ws G id t : u64_range t → careful (safe ws G) (λ _, True) (on_node id (observe_term t)).
Proof. intros Ht. by apply (on_node_careful (u64_range t)); [apply observe_term_ok|..|apply observe_term_safe|]. Qed.

Lemma careful_ask ws G candidate q peers votes :
  u64_request q → careful (safe ws G) (λ _, True) (ask candidate q peers votes).
Proof.
  intros Hq. revert votes. induction peers as [|p peers IH]; intros votes; cbn [ask].
  { apply careful_quiet; apply stable_ret. }
  apply (careful_bind _ (λ _, True)); [apply careful_quiet; apply stable_get|]. intros c _. destruct (_ || _); [apply IH|].
  apply (careful_bind _ (λ r, u64_range (vr_term r))).
  { apply (on_node_careful (u64_request q)); [apply request_vote_ok|done|apply request_vote_safe|].
    intros n r n' Hrun Hu. rewrite (request_vote_term _ _ _ _ Hrun). by apply u64_node_term. }
  intros r Hr. destruct (_ <? _); [|apply IH].
  apply (careful_bind _ (λ _, True)); [by apply careful_observe|]. intros _ _. apply careful_quiet; apply stable_ret.
Qed.

(** The cluster is safe, with what the ghost [G] had. *)
Definition reach (G : ghost) (c : RaftCluster) : Prop := ∃ ws' G', safe ws' G' c ∧ grown G G'.

Lemma safe_reach ws G c : safe ws G c → reach G c.
Proof. intros Hs. by exists ws, G. Qed.

Lemma elect_outcome ws G c candidate :
  safe ws G c → settled c → outcome (reach G) (λ _, True) (elect candidate c).
Proof.
  intros Hs Hset. assert (reach G (elect candidate c).2) as Hfin.
  { destruct (elect_keeps_safe ws G c candidate Hs) as (ws' & G' & Hs' & Hg). by exists (ws' ++ ws), G'. }
  unfold elect in *. run_steps in Hfin. run_steps.
  destruct (is_stopped c candidate); [by apply outcome_quiet|].
  destruct (nodes c !! candidate); cbn [ok_or] in *; run_steps in Hfin; run_steps; [|by apply outcome_quiet].
  eapply (outcome_bind (safe ws G)); [by apply careful_start|apply safe_reach|].
  intros q c1 Hq Hs1 Hset1 Hu. rewrite (M_bind_run _ _ _ _ _ Hq) in Hfin.
  eapply (outcome_bind (safe ws G)); [by apply careful_ask|apply safe_reach|].
  intros v c2 Ha Hs2 Hset2 _. rewrite (M_bind_run _ _ _ _ _ Ha) in Hfin.
  destruct v as [v|]; [|by apply outcome_quiet]. run_steps in Hfin. run_steps.
  destruct (_ <? _); [|by apply outcome_quiet]. apply outcome_quiet; [done| |done].
  refine (stable_bind settled _ _ _ _ c2 Hset2); [by apply settled_on_node|]. intros _. apply stable_ret.
Qed.

(** ** Replication *)

Section sender.
Context (ws : list win) (G : ghost) (Hg : ghost_ok G) (t leader ci : Z) (lt : list Entry).
Context (Hlt : g_logs G !! t = Some lt) (Hci : committed_in G t lt (Z.to_nat ci)).
Context (Ht : u64_range t) (Hl : Forall (λ e, u64_range (term e)) lt).

Lemma careful_back_off follower p :
  (p ≤ length lt)%nat → careful (safe ws G) (λ _, True) (back_off t leader ci lt follower p).
Proof.
  assert (∀ p, (p ≤ length lt)%nat →
    careful (safe ws G) (λ a, u64_range (ar_term a)) (on_node follower (append_entries (probe t leader ci lt p)))) as Hprobe.
  { intros k Hk. eapply on_node_careful; [apply append_entries_ok| |by apply probe_step|].
    - split; [done|]. cbn. by apply Forall_drop.
    - intros n a n' Hrun Hu. rewrite (append_entries_term _ _ _ _ Hrun). by apply u64_node_term. }
  induction p as [|p IH]; intros Hp; cbn [back_off]; (eapply careful_bind; [by apply Hprobe|]); intros a Ha;
    destruct (_ <? _);
    try (apply (careful_bind _ (λ _, True)); [by apply careful_observe|intros _ _; apply careful_quiet; apply stable_fail]);
    destruct (ar_success a); try (apply careful_quiet; apply stable_ret). apply IH. lia.
Qed.

Lemma careful_match_followers ids matched :
  careful (safe ws G) (λ _, True) (match_followers t leader ci lt ids matched).
Proof.
  revert matched. induction ids as [|f ids IH]; intros matched; cbn [match_followers].
  { apply careful_quiet; apply stable_ret. }
  apply (careful_bind _ (λ _, True)); [apply careful_quiet; apply stable_get|]. intros c _.
  destruct (bool_decide _); [apply IH|]. destruct (_ || _); [apply IH|].
  apply (careful_bind _ (λ _, True)); [by apply careful_back_off|]. intros o _. apply IH.
Qed.

Lemma careful_publish follower : careful (safe ws G) (λ _, True) (publish t leader ci lt follower).
Proof.
  intros c Hs Hset. pose proof (publish_keeps_safe ws G Hg t leader ci lt Hlt Hci follower c Hs) as Hfin.
  unfold publish in *. run_steps in Hfin. run_steps. destruct (_ || _); [by apply outcome_quiet|].
  destruct (nodes c !! follower) as [n|] eqn:Hn.
  2: { rewrite (M_bind_panic _ _ _ _ _ (node_at_none _ _ Hn)) in *. by apply outcome_quiet. }
  rewrite (M_bind_run _ _ _ _ _ (node_at_some _ _ _ Hn)) in *. set (prev := if last_log_index n =? 0 then _ else _) in *.
  assert (∃ r, prev c = (r, c)) as [r Hprev].
  { unfold prev. destruct (_ =? 0); [by eexists|]. unfold index. by destruct (lt !! _); eexists. }
  destruct r as [x| |];
    [rewrite (M_bind_run _ _ _ _ _ Hprev) in *|rewrite (M_bind_err _ _ _ _ _ Hprev) in *; by apply outcome_quiet
    |rewrite (M_bind_panic _ _ _ _ _ Hprev) in *; by apply outcome_quiet].
  eapply (outcome_bind (safe ws G) _ (λ _, True)); [|done|intros a c1 _ Hs1 Hset1 _; by apply outcome_quiet].
  eapply on_node_outcome; [apply append_entries_ok| |done|done| |done]; [split; [done|constructor]|].
  unfold mbind, M_bind in Hfin. by destruct (on_node _ _ c) as [[]].
Qed.
End sender.

Lemma settled_apply_all : stable settled apply_all.
Proof.
  assert (∀ id, stable settled (apply_one id)) as H; [|unfold apply_all; stable_tac].
  intros id. unfold apply_one. apply stable_bind; [|stable_tac].
  apply settled_on_node. intros n. unfold take_applied. run_steps. apply take_loop_silent.
Qed.

Lemma advance_commit_silent rs n : silent (advance_commit rs n) n.
Proof.
  unfold advance_commit. run_steps. destruct (negb _); [done|].
  unfold silent, lift, mbind, M_bind. by destruct (find_commit _ _ _ _) as [[i|]| |].
Qed.

Lemma replicate_existing_outcome ws G c leader :
  safe ws G c → settled c → leads c leader → outcome (reach G) (λ _, True) (replicate_existing leader c).
Proof.
  intros Hs Hset Hlead. unfold replicate_existing. destruct (nodes c !! leader) as [n|] eqn:Hn.
  2: { rewrite (M_bind_panic _ _ _ _ _ (node_at_none _ _ Hn)). apply outcome_quiet; [by eapply safe_reach|done|done]. }
  rewrite (M_bind_run _ _ _ _ _ (node_at_some _ _ _ Hn)). run_steps. specialize (Hlead n Hn).
  destruct (sf_nodes _ _ _ Hs _ _ Hn) as (l & Hl & Hok). pose proof (nk_leader _ _ _ Hok Hlead) as Hlt.
  pose proof (sf_ghost _ _ _ Hs) as Hg. destruct (idle_u64 _ (Hset _ _ Hn)) as [(Hut & _ & Hul) _].
  eapply (outcome_bind (safe ws G)); [|apply safe_reach|].
  { by apply (careful_match_followers ws G Hg _ leader _ _ Hlt (nk_commit _ _ _ Hok) Hut Hul). }
  intros rs c1 Hm Hs1 Hset1 _.
  destruct (match_followers_ok ws G Hg _ leader _ _ Hlt (nk_commit _ _ _ Hok) _ _ _ _ _
    (NoDup_z_keys _) Hs Hm) as (rs' & Q & -> & Hround). cbn [app] in *.
  assert (base.size (nodes c1) = base.size (nodes c)) as Hsize.
  { pose proof (match_followers_safe (current_term n) leader (commit_index n) (log n) (z_keys (nodes c)) [] c) as Hle.
    rewrite Hm in Hle. by apply cluster_le_size. }
  destruct (advance_safe ws G c c1 leader n rs' Q Hround Hsize Hn Hlead)
    as (G' & commit & c2 & Hon & Hs2 & Hgrow & Hlt' & Hci').
  pose proof (settled_on_node leader (advance_commit rs') (advance_commit_silent rs') c1 Hset1) as Hset2.
  rewrite (M_bind_run _ _ _ _ _ Hon). rewrite Hon in Hset2. run_steps.
  eapply (outcome_bind (safe ws G')); [|intros c3 Hs3; by exists ws, G'|].
  { apply careful_for_each; [|done..]. intros f. by apply careful_publish; [apply Hs2|..]. }
  intros _ c3 _ Hs3 Hset3 _. eapply (outcome_bind (safe ws G')); [|intros c4 Hs4; by exists ws, G'|].
  { by apply careful_quiet; [apply apply_all_keeps_safe|apply settled_apply_all|..]. }
  intros _ c4 _ Hs4 Hset4 _. apply outcome_quiet; [by exists ws, G'|done|done].
Qed.

Lemma reach_grown G G' c : grown G G' → reach G' c → reach G c.
Proof. intros Hg (ws & G2 & Hs & Hg2). exists ws, G2. split; [done|]. by etransitivity. Qed.

Lemma replicate_outcome ws G c leader cmd :
  safe ws G c → settled c → outcome (reach G) (λ _, True) (RaftCluster.replicate leader cmd c).
Proof.
  intros Hs Hset. unfold RaftCluster.replicate. run_steps.
  destruct (is_stopped c leader); [apply outcome_quiet; [by eapply safe_reach|done|done]|].
  destruct (nodes c !! leader) as [n|] eqn:Hn; cbn [ok_or]; run_steps;
    [|apply outcome_quiet; [by eapply safe_reach|done|done]].
  destruct (decide (role n = Leader)) as [Hr|Hr].
  2: { destruct (append_as_leader_refused cmd n Hr) as [e He].
       rewrite (M_bind_err _ _ _ _ _ (on_node_run _ _ _ _ _ _ Hn He)).
       assert (set_nodes (<[leader := n]> (nodes c)) c = c) as -> by (unfold set_nodes; rewrite insert_id by done; by destruct c).
       apply outcome_quiet; [by eapply safe_reach|done|done]. }
  destruct (append_as_leader_safe ws G c leader n cmd Hs Hn Hr) as (G1 & Hs1 & Hgrow1).
  destruct (append_as_leader_state cmd n Hr) as (w & Hn' & _).
  eapply (outcome_bind (reach G) (reach G) (λ _, True)); [|done|].
  { apply (on_node_outcome True); [apply append_as_leader_ok|done|by eapply safe_reach|done| |done].
    exists ws, G1. split; [|done]. unfold on_node. rewrite Hn. by destruct (append_as_leader cmd n). }
  intros i c1 Hon _ Hset1 _. destruct (on_node_ok _ _ _ _ _ Hon) as (n0 & n1 & Hn0 & Happ & ->).
  rewrite Hn in Hn0. injection Hn0 as <-. rewrite Happ in *. cbn [snd] in *. subst n1.
  eapply (outcome_bind (reach G) (reach G) (λ _, True)); [|done|].
  { assert (outcome (reach G1) (λ _ : Z, True)
      (replicate_existing leader (set_nodes (<[leader := set_wal w (set_log (log n ++ [MkEntry (current_term n) cmd]) n)]> (nodes c)) c))) as H.
    { apply (replicate_existing_outcome ws); [done..|]. intros m. cbn. rewrite lookup_insert_eq. by intros [= <-]. }
    unfold outcome in *. destruct (replicate_existing _ _) as [[x|e|e] c2]; destruct H; split; try done;
      eauto using reach_grown, shaken_mono. }
  intros cm c2 _ Hr2 Hset2 _. apply outcome_quiet; [..|done].
  - refine (stable_bind (reach G) _ _ _ _ c2 Hr2); [apply node_at_stable|]. intros m. destruct (_ <? _); [apply stable_fail|apply stable_ret].
  - refine (stable_bind settled _ _ _ _ c2 Hset2); [apply node_at_stable|]. intros m. destruct (_ <? _); [apply stable_fail|apply stable_ret].
Qed.

(** Every operation. *)
Lemma run_op_outcome o ws G c :
  safe ws G c → settled c → led o c → outcome (reach G) (λ _, True) (run_op o c).
Proof.
  intros Hs Hset Hled.
  assert (∀ {A B} (m : cluster A) (f : A → B), outcome (reach G) (λ _, True) (m c) →
    outcome (reach G) (λ _, True) ((a ← m; mret (f a)) c)) as Hend.
  { intros A B m f Hm. eapply outcome_bind; [exact Hm|done|]. intros a c' _ HI Hs' _. by apply outcome_quiet. }
  assert (∀ {A} (m : cluster A), stable (safe ws G) m → stable settled m → outcome (reach G) (λ _, True) (m c)) as Hquiet.
  { intros A m H1 H2. apply outcome_quiet; [by eapply safe_reach, H1|by apply H2|done]. }
  destruct o; cbn [run_op].
  - apply Hend. by eapply elect_outcome.
  - unfold elect_by_timeout. run_steps. destruct (min_by _ _) as [id|];
      [apply Hend; by eapply elect_outcome|apply outcome_quiet; [by eapply safe_reach|done|done]].
  - apply Hend. by eapply replicate_outcome.
  - apply Hend, Hend. by eapply replicate_existing_outcome.
  - apply Hend, Hquiet; [by apply unchanged_keeps_safe|by intros ? ?].
  - apply Hend, Hquiet; [apply isolate_unchanged|]. unfold isolate, partition. stable_tac.
  - apply Hend, Hquiet; [by apply unchanged_keeps_safe|by intros ? ?].
  - apply Hend, Hquiet; [by apply unchanged_keeps_safe|by intros ? ?].
  - apply Hend, Hquiet; [by apply unchanged_keeps_safe|by intros ? ?].
Qed.

(** ** Opening again *)

(** Other nodes in the places of the old ones, with their terms, votes and logs. *)
Lemma safe_replaced ws G c c' :
  safe ws G c → dom (nodes c') = dom (nodes c) → (∀ id, is_Some (applied c' !! id) → is_Some (nodes c' !! id)) →
  (∀ id n n', nodes c !! id = Some n → nodes c' !! id = Some n' →
     persistent n' = persistent n ∧ node_id n' = node_id n ∧ (role n' = Leader → role n = Leader) ∧
     ∃ l', applied c' !! id = Some l' ∧ ∀ l, node_ok G n l → node_ok G n' l') →
  safe ws G c'.
Proof.
  intros [H1 H2 H3 H4 H5 H6 H7] Hdom Happ Hall.
  assert (∀ id, is_Some (nodes c' !! id) ↔ is_Some (nodes c !! id)) as Hsome
    by (intros id; by rewrite <- !elem_of_dom, Hdom).
  assert (cluster_le c c') as Hle.
  { intros id. specialize (Hsome id). destruct (nodes c !! id) as [n|] eqn:Hn, (nodes c' !! id) as [n'|] eqn:Hn'; cbn.
    - destruct (Hall id n n' Hn Hn') as (Hp & Hi & Hr & _). split; [by rewrite Hp|done|].
      intros Hr'. split; [by apply Hr|]. unfold persistent in Hp. by injection Hp.
    - destruct (proj2 Hsome) as [? [=]]. by eexists.
    - destruct (proj1 Hsome) as [? [=]]. by eexists.
    - done. }
  assert (∀ id n, nodes c !! id = Some n → ∃ n', nodes c' !! id = Some n' ∧ current_term n' = current_term n ∧ log n' = log n)
    as Hkeep.
  { intros id n Hn. destruct (proj2 (Hsome id)) as [n' Hn']; [by eexists|]. exists n'. split; [done|].
    destruct (Hall id n n' Hn Hn') as (Hp & _). unfold persistent in Hp. by injection Hp. }
  split; try done.
  - by eapply fair_le.
  - intros t w vs Hin. destruct (H4 _ _ _ Hin) as (n & Hn & Ht). destruct (Hkeep _ _ Hn) as (n' & Hn' & Ht' & _).
    exists n'. split; [done|lia].
  - intros id n' Hn'. destruct (proj1 (Hsome id)) as [n Hn]; [by eexists|].
    destruct (Hall id n n' Hn Hn') as (_ & _ & _ & l' & Hl' & Hok). destruct (H5 _ _ Hn) as (l & _ & Hok0). eauto.
  - intros t j Hc. destruct (H7 _ _ Hc) as (Q & HQ & Hq). exists Q. split; [by eapply quorum_le|].
    intros q Hin. destruct (Hq q Hin) as (n & Hn & Hh). destruct (Hkeep _ _ Hn) as (n' & Hn' & Ht & Hl).
    exists n'. split; [done|]. unfold holder. by rewrite Ht, Hl.
Qed.

(** New scripts for the disks. *)
Definition with_envs (envs : Z → list sys) (c : RaftCluster) : RaftCluster :=
  set_nodes (map_imap (λ id n, Some (with_env_node (envs id) n)) (nodes c)) c.

Lemma lookup_with_envs envs c id : nodes (with_envs envs c) !! id = with_env_node (envs id) <$> nodes c !! id.
Proof. cbn. rewrite map_lookup_imap. by destruct (nodes c !! id). Qed.

Lemma safe_with_envs ws G envs c : safe ws G c → safe ws G (with_envs envs c).
Proof.
  intros Hs. apply (safe_replaced ws G c); [done|..].
  - apply set_eq. intros id. rewrite !elem_of_dom, lookup_with_envs. apply fmap_is_Some.
  - intros id Hid. rewrite lookup_with_envs, fmap_is_Some. by apply (sf_applied _ _ _ Hs).
  - intros id n n' Hn. rewrite lookup_with_envs, Hn. intros [= <-].
    destruct (sf_nodes _ _ _ Hs _ _ Hn) as (l & Hl & Hok). split_and!; [done..|]. exists l. split; [done|].
    intros _ _. by destruct Hok; split.
Qed.

Lemma settled_with_envs envs c : settled c → settled (with_envs envs c).
Proof.
  intros Hs id n. rewrite lookup_with_envs. intros (n0 & Hn0 & ->)%fmap_Some. exact (Hs _ _ Hn0).
Qed.

Lemma led_with_envs envs o c : led o c → led o (with_envs envs c).
Proof.
  destruct o; cbn [led]; try done. intros H n. rewrite lookup_with_envs. intros (n0 & Hn0 & ->)%fmap_Some. exact (H _ Hn0).
Qed.

(** What a node opened on the image of a file resumes with. *)
Lemma open_image id seed img n f :
  RaftNode.open id seed (stored img) = (Ok n, f) →
  node_id n = id ∧ role n = Follower ∧ commit_index n = 0 ∧ last_applied n = 0 ∧
  ∃ recs t, replays img recs t ∧ recover default_state recs = Ok (persistent n) ∧
    (u64_range id → u64_state (persistent n) → node_holds n).
Proof.
  intros Ho. assert (readable (stored img)) as Hr by (split; [done|constructor]).
  destruct (replay_spec (stored img) Hr eq_refl) as (recs & t & Hrep & Hrun). cbn in Hrep.
  pose proof Ho as Ho'. unfold RaftNode.open in Ho'. rewrite (M_bind_run _ _ _ _ _ Hrun) in Ho'. cbn [records] in Ho'.
  destruct (recover default_state recs) as [q| |] eqn:Hq; [|done..]. run_steps in Ho'.
  apply M_bind_ok in Ho' as (u & f1 & _ & Ho'). apply M_bind_ok in Ho' as (u' & f2 & _ & Ho'). run_steps in Ho'.
  injection Ho' as <- <-. split_and!; [done..|]. exists recs, t.
  assert (persistent (MkNode id f2 (p_current_term q) (p_voted_for q) (p_log q) 0 0 Follower None
    (150 + mix (Z.lxor seed id) mod 151)) = q) as Hp by by destruct q.
  rewrite Hp. split_and!; [done..|]. intros Hid Hu.
  destruct (open_recovers id seed img recs t q Hid Hu Hrep Hq) as (n & Hn & _ & _ & _ & _ & _ & Hholds).
  rewrite Ho in Hn. by injection Hn as ->.
Qed.

(** The nodes of a cluster just opened, by the files they were opened on. *)
Lemma open_nodes_of dir files ids seed c :
  open dir files ids seed = Ok c →
  (∀ id, id ∈ ids ↔ is_Some (nodes c !! id)) ∧ (∀ id, is_Some (applied c !! id) → is_Some (nodes c !! id)) ∧
  ∀ id n, nodes c !! id = Some n → applied c !! id = Some [] ∧ ∃ f, RaftNode.open id seed (files id) = (Ok n, f).
Proof.
  intros Ho%open_ok. revert Ho. assert (∀ c0 : RaftCluster,
    (∀ id, is_Some (applied c0 !! id) → is_Some (nodes c0 !! id)) →
    (∀ id n, nodes c0 !! id = Some n → applied c0 !! id = Some [] ∧ ∃ f, RaftNode.open id seed (files id) = (Ok n, f)) →
    open_nodes ids files seed c0 = Ok c →
    (∀ id, id ∈ ids ∨ is_Some (nodes c0 !! id) ↔ is_Some (nodes c !! id)) ∧
    (∀ id, is_Some (applied c !! id) → is_Some (nodes c !! id)) ∧
    ∀ id n, nodes c !! id = Some n → applied c !! id = Some [] ∧ ∃ f, RaftNode.open id seed (files id) = (Ok n, f)) as H.
  { induction ids as [|id ids IH]; intros c0 Ha Hn; cbn [open_nodes].
    - intros <-%ok_inj. split; [|done]. intros id. rewrite elem_of_nil. tauto.
    - destruct (RaftNode.open id seed (files id)) as [[n| |] f] eqn:Ho; [|done..]. intros Hrun.
      apply IH in Hrun as (H1 & H2 & H3).
      + split; [|done]. intros k. rewrite <- H1. cbn. rewrite lookup_insert_is_Some', elem_of_cons.
        split; [intros [[->|?]|?]|intros [?|[->|?]]]; auto.
      + intros k. cbn. rewrite !lookup_insert_is_Some'. intros [?|?]; auto.
      + intros k n2. cbn. rewrite !lookup_insert_Some. intros [[<- <-]|[Hne Hk]]; [by split; [left|exists f]|].
        destruct (Hn k n2 Hk). split; [by right|done]. }
  intros Hrun. destruct (H (MkCluster ∅ default_transport ∅ ∅)) with (3 := Hrun) as (H1 & H2 & H3).
  - intros id. cbn. intros [? Hid]. by rewrite lookup_empty in Hid.
  - intros id n. cbn. by rewrite lookup_empty.
  - split; [|done]. intros id. rewrite <- H1. cbn. rewrite lookup_empty. split; [by left|]. by intros [?|[? [=]]].
Qed.

Lemma dom_run_op o c : dom (nodes (run_op o c).2) = dom (nodes c).
Proof.
  set (P := λ c' : RaftCluster, dom (nodes c') = dom (nodes c)).
  assert (∀ A id (m : node A), stable P (on_node id m)) as Hon.
  { intros A id m. apply stable_on_node. unfold P. intros c' n Hc' Hn. cbn. rewrite dom_insert_L.
    apply elem_of_dom_2 in Hn. set_solver. }
  assert (∀ q cand peers votes, stable P (ask cand q peers votes)) as Hask.
  { intros q cand peers. induction peers as [|p peers IH]; intros votes; cbn [ask]; stable_tac. }
  assert (∀ cand, stable P (elect cand)) as Helect by (intros cand; unfold elect; stable_tac).
  assert (∀ t l ci lt f p, stable P (back_off t l ci lt f p)) as Hback.
  { intros t l ci lt f p. induction p as [|p IH]; cbn [back_off]; stable_tac. }
  assert (∀ t l ci lt ids ms, stable P (match_followers t l ci lt ids ms)) as Hmatch.
  { intros t l ci lt ids. induction ids as [|f ids IH]; intros ms; cbn [match_followers]; stable_tac. }
  assert (∀ l, stable P (replicate_existing l)) as Hrep.
  { intros l. unfold replicate_existing, publish, apply_all, apply_one. stable_tac. }
  assert (stable P (run_op o)) as H; [|by apply H].
  destruct o; cbn [run_op];
    unfold elect_by_timeout, RaftCluster.replicate, synchronize, isolate, partition, heal_all, stop, start; stable_tac.
Qed.

Lemma node_holds_idle n : node_holds n → idle n.
Proof.
  intros Hn. unfold idle. assert (with_env_node [] n = n) as ->; [|done].
  destruct Hn as [_ (d & [_ [He _] _ _ _] & _)]. unfold with_env_node. destruct n as [i w t v l ci la r li e]. cbn in *.
  unfold set_wal. cbn. f_equal. destruct w. cbn in *. by subst.
Qed.

(** The machine stops somewhere in an operation, or after it, and the cluster is
    opened on what it left. *)
Lemma crash_safe ws G c o dir img ids seed c1 :
  safe ws G c → settled c → led o c →
  (∀ id n, nodes (run_op o c).2 !! id = Some n → crash_image (wal n) (img id)) →
  (∀ id, id ∈ ids ↔ is_Some (nodes c !! id)) → open dir (λ id, stored (img id)) ids seed = Ok c1 →
  reach G c1 ∧ settled c1.
Proof.
  intros Hs Hset Hled Himg Hids Ho. destruct (open_nodes_of _ _ _ _ _ Ho) as (Hdom1 & Happ1 & Hnodes1).
  assert (shaken (reach G) (run_op o c).2) as Hshaken.
  { pose proof (run_op_outcome o ws G c Hs Hset Hled) as Hout. unfold outcome in Hout.
    destruct (run_op o c) as [[a| |] c']; cbn; [|by destruct Hout..].
    destruct Hout as (HI & Hset' & _). by apply settled_shaken. }
  pose proof (dom_run_op o c) as Hdom. set (c' := (run_op o c).2) in *.
  destruct (Hshaken (λ id, default default_state (persistent <$> nodes c1 !! id))) as (c2 & (ws' & G' & Hs2 & Hg) & Hdom2 & Hps).
  { intros id n Hn. destruct (proj1 (Hdom1 id)) as [n1 Hn1].
    { apply Hids. rewrite <- elem_of_dom, <- Hdom. by eapply elem_of_dom_2. }
    rewrite Hn1. cbn. destruct (Hnodes1 _ _ Hn1) as (_ & f & Hf).
    destruct (open_image _ _ _ _ _ Hf) as (_ & _ & _ & _ & recs & t & Hrep & Hrec & _).
    exists (img id), recs, t. split; [by apply Himg|done]. }
  assert (∀ id, is_Some (nodes c1 !! id) ↔ is_Some (nodes c2 !! id)) as Hsome.
  { intros id. rewrite <- Hdom1, Hids, <- !elem_of_dom, Hdom2, Hdom. done. }
  assert (∀ id n n1, nodes c2 !! id = Some n → nodes c1 !! id = Some n1 →
    u64_node n ∧ persistent n1 = persistent n ∧ node_id n = id) as Hpair.
  { intros id n n1 Hn Hn1. destruct (Hps id n Hn) as [Hu Hp]. rewrite Hn1 in Hp. cbn in Hp.
    split_and!; [done..|]. by apply (fr_ids _ _ (sf_fair _ _ _ Hs2)). }
  split.
  - exists ws', G'. split; [|done]. apply (safe_replaced ws' G' c2); [done|..|done|].
    + apply set_eq. intros id. rewrite !elem_of_dom. apply Hsome.
    + intros id n n1 Hn Hn1. destruct (Hpair _ _ _ Hn Hn1) as (_ & Hp & Hid). destruct (Hnodes1 _ _ Hn1) as (Hl & f & Hf).
      destruct (open_image _ _ _ _ _ Hf) as (Hi & Hr & Hci & Hla & _). split_and!; [done|congruence|congruence|].
      exists []. split; [done|]. intros l Hok. unfold persistent in Hp. injection Hp as Ht Hv Hlog.
      destruct Hok as [K1 K2 K3 K4 K5 K6 K7]. split; rewrite ?Ht, ?Hlog, ?Hci, ?Hla; try done; [congruence|by left].
  - intros id n1 Hn1. destruct (proj1 (Hsome id)) as [n Hn]; [by eexists|].
    destruct (Hpair _ _ _ Hn Hn1) as (Hu & Hp & Hid). destruct (Hnodes1 _ _ Hn1) as (_ & f & Hf).
    destruct (open_image _ _ _ _ _ Hf) as (_ & _ & _ & _ & recs & t & _ & _ & Hholds). apply node_holds_idle, Hholds.
    + rewrite <- Hid. apply Hu.
    + rewrite Hp. apply Hu.
Qed.

(** ** Lifetimes of a cluster *)

(** Operations, whatever they answer; disks that start or cease to fail; and
    crashes anywhere in an operation, each followed by opening the cluster on
    what the files then hold.  A crash may only hit a cluster whose files were in
    order before the operation: after an operation that met a failing disk the
    cluster may go on, but not be opened again on that disk. *)
Inductive cluster_lives : RaftCluster → RaftCluster → Prop :=
| lives_end c : cluster_lives c c
| lives_op c o c' : led o c → cluster_lives (run_op o c).2 c' → cluster_lives c c'
| lives_disks c envs c' : cluster_lives (with_envs envs c) c' → cluster_lives c c'
| lives_crash c o dir img ids seed c1 c' :
    settled c → led o c → (∀ id n, nodes (run_op o c).2 !! id = Some n → crash_image (wal n) (img id)) →
    (∀ id, id ∈ ids ↔ is_Some (nodes c !! id)) → open dir (λ id, stored (img id)) ids seed = Ok c1 →
    cluster_lives c1 c' → cluster_lives c c'.

Lemma lives_safe ws G c c' : safe ws G c → cluster_lives c c' → reach G c'.
Proof.
  intros Hs Hr. revert ws G Hs.
  induction Hr as [c|c o c' Hl _ IH|c envs c' _ IH|c o dir img ids seed c1 c' Hset Hl Himg Hids Ho _ IH]; intros ws G Hs.
  - by eapply safe_reach.
  - destruct (run_op_keeps_safe o ws G c Hs Hl) as (ws1 & G1 & Hs1 & Hg1). eapply reach_grown; [exact Hg1|by eapply IH].
  - by eapply IH, safe_with_envs.
  - destruct (crash_safe ws G c o dir img ids seed c1) as [(ws1 & G1 & Hs1 & Hg1) _]; try done.
    eapply reach_grown; [exact Hg1|by eapply IH].
Qed.

(** An operation that answers leaves the files in order. *)
Lemma answered_settled ws G o c a c' :
  safe ws G c → settled c → led o c → run_op o c = (Ok a, c') → settled c'.
Proof.
  intros Hs Hset Hl Hrun. pose proof (run_op_outcome o ws G c Hs Hset Hl) as Hout. rewrite Hrun in Hout.
  by destruct Hout as (_ & ? & _).
Qed.
