(* ===== verification/RaftConsensus.v ===== *)
(** Agreement in the simulated cluster: whatever disks and links do, through any
    elections, replications, partitions, stops and restarts, and crashes of all
    the nodes inside any operation, what nodes apply is one sequence, and an
    acknowledged command stays in its place. *)

From stdpp Require Import gmap.
From Stdlib Require Import Ascii.
From S2P Require Import Prelude Bytes Wal RaftNode RaftDurable RaftRules Transport RaftCluster Election RaftElects.
From S2P Require Import RaftLogs RaftSteps RaftSafety RaftAgreement RaftCrash.
Local Open Scope Z_scope.

(** ** What was applied *)

Lemma applied_prefix ws G c id l :
  safe ws G c → applied c !! id = Some l →
  ∃ n k, nodes c !! id = Some n ∧ node_ok G n l ∧ k = Z.to_nat (last_applied n) ∧
    committed_in G (current_term n) (log n) k ∧ l = command <$> take k (log n) ∧ length l = k.
Proof.
  intros Hs Hl. destruct (sf_applied _ _ _ Hs id) as [n Hn]; [by eexists|].
  destruct (sf_nodes _ _ _ Hs _ _ Hn) as (l' & Hl' & Hok). rewrite Hl in Hl'. injection Hl' as <-.
  pose proof (nk_range _ _ _ Hok) as Hr.
  assert (committed_in G (current_term n) (log n) (Z.to_nat (last_applied n))) as Hc.
  { eapply committed_less; [|apply Hok]. lia. }
  exists n, (Z.to_nat (last_applied n)). split_and!; try done; [apply Hok|].
  rewrite (nk_applied _ _ _ Hok), length_fmap, length_take.
  pose proof (committed_length _ _ _ _ (sf_ghost _ _ _ Hs) Hc). lia.
Qed.

Lemma prefix_of_take {A} (l : list A) i j : (i ≤ j)%nat → take i l `prefix_of` take j l.
Proof. intros Hle. replace (take i l) with (take i (take j l)); [apply prefix_take|]. rewrite take_take. f_equal. lia. Qed.

(** What was committed at one time and at a later one agree. *)
Lemma applied_comparable G t l k t' l' k' :
  ghost_ok G → committed_in G t l k → committed_in G t' l' k' →
  take k l `prefix_of` take k' l' ∨ take k' l' `prefix_of` take k l.
Proof.
  intros Hg H H'. destruct (Nat.le_ge_cases k k') as [Hle|Hle]; [left|right].
  - rewrite (commits_agree _ _ _ _ _ _ _ Hg H H' Hle). by apply prefix_of_take.
  - rewrite (commits_agree _ _ _ _ _ _ _ Hg H' H Hle). by apply prefix_of_take.
Qed.

(** ** Scripts *)

Definition leads_now (o : cop) (c : RaftCluster) : bool :=
  match o with
  | CSynchronize leader => default true ((λ n, bool_decide (role n = Leader)) <$> nodes c !! leader)
  | _ => true
  end.

Lemma leads_now_led o c : leads_now o c = true → led o c.
Proof. destruct o; try done. cbn. intros H n Hn. rewrite Hn in H. by apply bool_decide_eq_true in H. Qed.

(** The state after a script whose every operation is led. *)
Fixpoint run_led (c : RaftCluster) (ops : list cop) : option RaftCluster :=
  match ops with
  | [] => Some c
  | o :: ops => if leads_now o c then run_led (run_op o c).2 ops else None
  end.
Definition after (c : RaftCluster) (ops : list cop) : RaftCluster := default c (run_led c ops).

Lemma after_lives c ops : bool_decide (is_Some (run_led c ops)) = true → cluster_lives c (after c ops).
Proof.
  unfold after. intros H%bool_decide_eq_true. revert c H. induction ops as [|o ops IH]; intros c; cbn; [constructor|].
  destruct (leads_now o c) eqn:Ho; [|by intros [? [=]]]. intros [c' Hc']. rewrite Hc'. cbn.
  eapply lives_op; [by apply leads_now_led|]. specialize (IH (run_op o c).2). rewrite Hc' in IH. by apply IH.
Qed.

Lemma open_settled ids seed c : Forall u64_range ids → open (Ok tt) (λ _, absent) ids seed = Ok c → settled c.
Proof.
  intros Hids Ho id n Hn. destruct (open_nodes_of _ _ _ _ _ Ho) as (Hdom & _ & Hnodes).
  destruct (Hnodes _ _ Hn) as (_ & f & Hf). rewrite fresh_node_open in Hf. injection Hf as <- _.
  apply node_holds_idle, fresh_node_holds. rewrite Forall_forall in Hids. apply Hids, Hdom. by eexists.
Qed.

Lemma new_file (id : Z) : f_exists ((λ _ : Z, absent) id) = false.
Proof. done. Qed.

(** Three nodes, the first elected; then it replicates "w". *)
Definition first_leads : RaftCluster := after three_nodes [CElect 1].
Definition before_x : RaftCluster := (replicate 1 (as_bytes "w") first_leads).2.

(** The machine stops while the third node writes "x": five bytes of the record
    are in its file, the other two nodes have all of it. *)
Definition third_stops (id : Z) : list sys := if id =? 3 then [SysFail 5 (IoError Other "disk")] else [].
Definition failing : RaftCluster := with_envs third_stops before_x.
Definition left_behind (id : Z) : bytes :=
  default [] ((λ n, f_content (wal n)) <$> nodes (run_op (CReplicate 1 (as_bytes "x")) failing).2 !! id).
Definition reopened : RaftCluster :=
  match open (Ok tt) (λ id, stored (left_behind id)) [1; 2; 3] 8 with Ok c => c | _ => three_nodes end.

(** The third node cannot win now; the second can, and goes on. *)
Definition end_x : RaftCluster := after reopened [CElect 3; CElect 2; CReplicate 2 (as_bytes "y"); CSynchronize 2].

Lemma three_nodes_open : open (Ok tt) (λ _, absent) [1; 2; 3] 7 = Ok three_nodes.
Proof. vm_compute. reflexivity. Qed.

Lemma first_leads_lives : cluster_lives three_nodes first_leads.
Proof. apply after_lives. vm_compute. reflexivity. Qed.

Lemma before_x_lives : cluster_lives three_nodes before_x.
Proof.
  assert (before_x = after three_nodes [CElect 1; CReplicate 1 (as_bytes "w")]) as -> by (vm_compute; reflexivity).
  apply after_lives. vm_compute. reflexivity.
Qed.

Lemma before_x_settled : settled before_x.
Proof.
  pose proof (open_safe _ _ _ _ _ new_file three_nodes_open) as Hs.
  assert (settled three_nodes) as Hset.
  { eapply open_settled; [|exact three_nodes_open]. repeat constructor; unfold u64_range, U64_MAX; lia. }
  assert (run_op (CElect 1) three_nodes = (Ok (Some 1), first_leads)) as H1 by (vm_compute; reflexivity).
  pose proof (answered_settled _ _ (CElect 1) _ _ _ Hs Hset I H1) as Hset1.
  destruct (lives_safe _ _ _ _ Hs first_leads_lives) as (ws & G & Hs1 & _).
  eapply (answered_settled ws G (CReplicate 1 (as_bytes "w")) first_leads None); [exact Hs1|exact Hset1|exact I|].
  vm_compute. reflexivity.
Qed.

Lemma end_x_lives : cluster_lives before_x end_x.
Proof.
  apply (lives_disks _ third_stops). fold failing.
  apply (lives_crash failing (CReplicate 1 (as_bytes "x")) (Ok tt) left_behind [1; 2; 3] 8 reopened).
  - apply settled_with_envs, before_x_settled.
  - exact I.
  - intros id n Hn. unfold left_behind. rewrite Hn. apply crash_new.
  - assert (dom (nodes failing) = {[1; 2; 3]}) as Hd by (vm_compute; reflexivity).
    intros id. rewrite <- elem_of_dom, Hd. clear. set_solver.
  - vm_compute. reflexivity.
  - apply after_lives. vm_compute. reflexivity.
Qed.

(** ** Theorems *)

(** C6. State-machine safety: in a cluster opened on new files, whatever disks
    and links do through any elections, replications by any node, partitions,
    stops and restarts, and crashes of the machine anywhere in an operation
    after which the cluster is opened again, the commands that two nodes have
    applied, at any two times, are one a prefix of the other.  Two conditions:
    [synchronize] is only called on a node that leads ([led]; see
    [synchronizing_a_follower_splits]), and a crash and reopening only hit a
    cluster whose files hold what its nodes have in memory when the operation
    that is cut begins ([settled]): a cluster whose disk has failed may go on,
    but is not opened again on that disk. *)
Theorem applied_logs_agree dir files ids seed c0 c1 c2 a b la lb :
  (∀ id, f_exists (files id) = false) → open dir files ids seed = Ok c0 → cluster_lives c0 c1 → cluster_lives c1 c2 →
  applied c1 !! a = Some la → applied c2 !! b = Some lb → la `prefix_of` lb ∨ lb `prefix_of` la.
Proof.
  intros Hnew Ho H1 H2 Ha Hb. destruct (lives_safe _ _ _ _ (open_safe _ _ _ _ _ Hnew Ho) H1) as (ws1 & G1 & Hs1 & _).
  destruct (lives_safe _ _ _ _ Hs1 H2) as (ws2 & G2 & Hs2 & Hgrow).
  destruct (applied_prefix _ _ _ _ _ Hs1 Ha) as (na & ka & _ & _ & _ & Hca & -> & _).
  destruct (applied_prefix _ _ _ _ _ Hs2 Hb) as (nb & kb & _ & _ & _ & Hcb & -> & _).
  apply (committed_grown G1 G2) in Hca; [|apply Hs1|done].
  destruct (applied_comparable _ _ _ _ _ _ _ (sf_ghost _ _ _ Hs2) Hca Hcb) as [[r Hr]|[r Hr]]; [left|right];
    rewrite Hr, fmap_app; by apply prefix_app_r.
Qed.

(** C7. An acknowledged command stays: when [replicate] answers an index, then at
    any later time a majority of the nodes has the command at that place of its
    log, every node that leads in that term or a later one has it there, and so
    has, among the commands it applied, every node that applied so far.  What
    happens before and after is as for [applied_logs_agree], under the same two
    conditions: [synchronize] only on a node that leads, and crashes only where
    the files hold what the nodes have in memory. *)
Theorem acknowledged_commands_stay dir files ids seed c0 c1 leader cmd i c2 n c3 :
  (∀ id, f_exists (files id) = false) → open dir files ids seed = Ok c0 → cluster_lives c0 c1 → replicate leader cmd c1 = (Ok i, c2) →
  nodes c2 !! leader = Some n → cluster_lives c2 c3 →
  (∃ Q, quorum c3 Q ∧ ∀ q, q ∈ Q → ∃ m, nodes c3 !! q = Some m ∧ command <$> log m !! Z.to_nat (i - 1) = Some cmd) ∧
  (∀ id m, nodes c3 !! id = Some m → role m = Leader → current_term n ≤ current_term m →
     command <$> log m !! Z.to_nat (i - 1) = Some cmd) ∧
  (∀ id l, applied c3 !! id = Some l → i ≤ Z.of_nat (length l) → l !! Z.to_nat (i - 1) = Some cmd).
Proof.
  intros Hnew Ho H1 Hrep Hn H2. destruct (lives_safe _ _ _ _ (open_safe _ _ _ _ _ Hnew Ho) H1) as (ws1 & G1 & Hs1 & _).
  destruct (replicate_keeps_safe ws1 G1 c1 leader cmd Hs1) as (G2 & Hs2 & _ & Hack). rewrite Hrep in *. cbn in *.
  destruct (Hack i eq_refl) as (n' & Hn' & l & k & e & Hc & He & Hcmd & ->). rewrite Hn in Hn'. injection Hn' as <-.
  destruct (lives_safe _ _ _ _ Hs2 H2) as (ws3 & G3 & Hs3 & Hgrow). pose proof (sf_ghost _ _ _ Hs3) as Hg.
  apply (committed_grown G2 G3) in Hc; [|apply Hs2|done].
  replace (Z.to_nat (Z.of_nat (S k) - 1)) with k by lia. split_and!.
  - pose proof Hc as [?|(t1 & j & lt & Hcj & _ & Hkj & Hlt & Heq)]; [done|].
    destruct (sf_commits _ _ _ Hs3 _ _ Hcj) as (Q & HQ & Hq). exists Q. split; [done|]. intros q Hin.
    destruct (Hq q Hin) as (m & Hm & _ & lt' & Hlt' & Heqm). rewrite Hlt in Hlt'. injection Hlt' as <-.
    exists m. split; [done|]. rewrite (take_eq_lookup _ _ k _ Heqm), <- (take_eq_lookup _ _ k _ Heq) by lia.
    by rewrite He, <- Hcmd.
  - intros id m Hm Hr Ht. destruct (sf_nodes _ _ _ Hs3 _ _ Hm) as (lm & _ & Hok).
    pose proof (committed_leader _ _ _ _ _ _ Hg Hc Ht (nk_leader _ _ _ Hok Hr)) as Heq.
    rewrite (take_eq_lookup _ _ k _ Heq) by lia. by rewrite He, <- Hcmd.
  - intros id lm Hlm Hlen. destruct (applied_prefix _ _ _ _ _ Hs3 Hlm) as (m & ka & _ & _ & _ & Hca & -> & Hka).
    rewrite list_lookup_fmap, lookup_take_lt by lia.
    pose proof (commits_agree _ _ _ _ _ _ _ Hg Hc Hca ltac:(lia)) as Heq.
    rewrite <- (take_eq_lookup _ _ k _ Heq) by lia. by rewrite He, <- Hcmd.
Qed.

Lemma applied_logs_agree_witness :
  let la := as_bytes <$> ["w"] in let lb := as_bytes <$> ["w"; "x"; "y"] in
  (∀ id, f_exists ((λ _ : Z, absent) id) = false) ∧ open (Ok tt) (λ _, absent) [1; 2; 3] 7 = Ok three_nodes ∧
  cluster_lives three_nodes before_x ∧ cluster_lives before_x end_x ∧
  applied before_x !! 3 = Some la ∧ applied end_x !! 2 = Some lb ∧ (la `prefix_of` lb ∨ lb `prefix_of` la).
Proof.
  intros la lb. assert (applied before_x !! 3 = Some la) as H4 by (vm_compute; reflexivity).
  assert (applied end_x !! 2 = Some lb) as H5 by (vm_compute; reflexivity).
  exact (conj new_file (conj three_nodes_open (conj before_x_lives (conj end_x_lives (conj H4 (conj H5
    (applied_logs_agree _ _ _ _ _ _ _ 3 2 _ _ new_file three_nodes_open before_x_lives end_x_lives H4 H5))))))).
Defined.

Lemma acknowledged_commands_stay_witness :
  let w := as_bytes "w" in
  let n := default (fresh_node 1 7) (nodes before_x !! 1) in
  (∀ id, f_exists ((λ _ : Z, absent) id) = false) ∧ open (Ok tt) (λ _, absent) [1; 2; 3] 7 = Ok three_nodes ∧
  cluster_lives three_nodes first_leads ∧ replicate 1 w first_leads = (Ok 1, before_x) ∧
  nodes before_x !! 1 = Some n ∧ cluster_lives before_x end_x ∧
  (∃ Q, quorum end_x Q ∧
    ∀ q, q ∈ Q → ∃ m, nodes end_x !! q = Some m ∧ command <$> log m !! Z.to_nat (1 - 1) = Some w) ∧
  (∀ id m, nodes end_x !! id = Some m → role m = Leader → current_term n ≤ current_term m →
     command <$> log m !! Z.to_nat (1 - 1) = Some w) ∧
  (∀ id l, applied end_x !! id = Some l → 1 ≤ Z.of_nat (length l) → l !! Z.to_nat (1 - 1) = Some w).
Proof.
  intros w n. assert (replicate 1 w first_leads = (Ok 1, before_x)) as H3 by (vm_compute; reflexivity).
  assert (nodes before_x !! 1 = Some n) as H4 by (vm_compute; reflexivity).
  exact (conj new_file (conj three_nodes_open (conj first_leads_lives (conj H3 (conj H4 (conj end_x_lives
    (acknowledged_commands_stay _ _ _ _ _ _ 1 w 1 _ _ _ new_file three_nodes_open first_leads_lives H3 H4 end_x_lives))))))).
Defined.

(** [synchronize] does not check that the node it is given leads: called on
    a follower that missed a command, it has the leader and its peers drop the
    command they acknowledged and applied, and two nodes then apply different
    commands at one index. *)
Theorem synchronizing_a_follower_splits :
  let c1 := after three_nodes [CElect 1; CStop 3] in
  let c2 := (RaftCluster.replicate 1 (as_bytes "x") c1).2 in
  let c3 := (run_op (CStart 3) c2).2 in
  let c4 := (synchronize 3 c3).2 in
  let c5 := after c4 [CElect 3; CReplicate 3 (as_bytes "y")] in
  cluster_lives three_nodes c1 ∧ (RaftCluster.replicate 1 (as_bytes "x") c1).1 = Ok 1 ∧
  role <$> nodes c3 !! 3 = Some Follower ∧ (synchronize 3 c3).1 = Ok tt ∧ cluster_lives c4 c5 ∧
  log <$> nodes c4 !! 1 = Some [] ∧
  applied c5 !! 1 = Some [as_bytes "x"] ∧ applied c5 !! 3 = Some [as_bytes "y"].
Proof.
  cbv zeta. split_and!; try (vm_compute; reflexivity); apply after_lives; vm_compute; reflexivity.
Qed.
