(* ===== verification/RaftReplicates.v ===== *)
(** The loops of a replication by a leader whose peers' disks work: each
    follower it reaches is brought up to its log, told the commit index, and
    applies.  First the node, then the loops of src/src/raft/mod.rs, each of
    which works slot by slot. *)

From stdpp Require Import gmap.
From Stdlib Require Import Ascii.
From S2P Require Import Prelude Bytes Wal RaftNode RaftDurable RaftRules Transport RaftCluster Election RaftElects.
Local Open Scope Z_scope.

(** ** Replication, node by node

    [cand] leads in term [t]; its log is [old] followed by the new entry. *)

Section replication.
Context (cand t : Z) (old : list Entry) (cmd : bytes).
Abbreviation entry := (MkEntry t cmd).
Abbreviation full := (old ++ [entry]).
Abbreviation len := (Z.of_nat (length full)).

(** A node before the leader reaches it: its disk works for any mix of the two
    logs, it holds nothing of the new term, and has committed none of the new. *)
Record behind (n : RaftNode) : Prop := Behind {
  bh_ready : ready n;
  bh_room : record_size (log n) + record_size full - 23 ≤ U32_MAX;
  bh_term : current_term n ≤ t;
  bh_old : Forall (λ e, term e < t) (log n);
  bh_applied : 0 ≤ last_applied n ≤ commit_index n;
  bh_commit : commit_index n < len;
}.

(** After: as long as the leader's log, with the same last entry. *)
Record caught (n : RaftNode) : Prop := Caught {
  cg_ready : ready n;
  cg_term : current_term n = t;
  cg_length : length (log n) = length full;
  cg_last : last (log n) = Some entry;
  cg_applied : 0 ≤ last_applied n ≤ commit_index n;
  cg_commit : commit_index n ≤ len;
  cg_fresh : last_applied n < len;
}.

Lemma append_entries_quiet q n :
  ready n → current_term n ≤ ae_term q → (has_prev q (log n) → record_size (ae_merge q n).1 ≤ U32_MAX) →
  ∃ a n', append_entries q n = (Ok a, n') ∧ f_env (wal n') = [].
Proof.
  intros Hr Ht Hfit. rewrite (append_entries_run _ _ Ht). destruct (followed_le q n) as (_ & Hw & _ & Hl & _).
  assert (ready (followed q n)) as Hr1 by (destruct Hr; split; congruence).
  destruct (prev_mismatch_total q n) as [[] Hm]; rewrite Hm;
    match goal with |- context [(_ ← (if ?b then persist else _); ?g) ?m] =>
      destruct (maybe_persist_quiet b g m) as (w & -> & Hw'); [|do 2 eexists; split; [reflexivity|]] end; try done.
  - split; [apply Hr1|by apply Hfit, prev_mismatch_spec].
  - unfold commit_to. by destruct (_ <? _).
Qed.

Lemma last_entry n : caught n → log n !! Z.to_nat (len - 1) = Some entry.
Proof.
  intros Hc. rewrite <- (cg_last _ Hc), last_lookup. f_equal. rewrite (cg_length _ Hc), length_app. cbn. lia.
Qed.

Lemma merged_log prev commit n :
  has_prev (probe t cand commit full prev) (log n) →
  (ae_merge (probe t cand commit full prev) n).1 = take prev (log n) ++ drop prev full.
Proof.
  intros [Hp _]. cbn in Hp. unfold ae_merge. cbn.
  destruct (merge_spec (log n) (Z.to_nat (Z.of_nat prev)) (drop prev full) (current_term n <? t)) as [-> _]; [lia|].
  by rewrite Nat2Z.id.
Qed.

Lemma merged_size prev n : record_size (take prev (log n) ++ drop prev full) ≤ record_size (log n) + record_size full - 23.
Proof.
  rewrite record_size_app. pose proof (record_size_take prev (log n)). pose proof (record_size_drop prev full). lia.
Qed.

(** The leader's last entry is new, so no log behind holds it. *)
Lemma prev_is_old prev commit n :
  behind n → (prev ≤ length full)%nat → has_prev (probe t cand commit full prev) (log n) → (prev < length full)%nat.
Proof.
  intros Hb Hprev [_ Hp]. cbn in Hp. destruct (decide (prev = length full)) as [->|]; [|lia].
  rewrite length_app in Hp. cbn in Hp. rewrite Nat.add_1_r in Hp.
  destruct Hp as (e & He & Ht); [lia|]. rewrite lookup_app_r, Nat.sub_diag in Ht by done. cbn in Ht.
  pose proof (Forall_lookup_1 _ _ _ _ (bh_old _ Hb) He). cbn in *. lia.
Qed.

Lemma merged_shape prev l :
  (prev < length full)%nat → (prev ≤ length l)%nat →
  length (take prev l ++ drop prev full) = length full ∧ last (take prev l ++ drop prev full) = Some entry.
Proof.
  intros Hlt Hl. rewrite length_app, length_take, length_drop. split; [lia|].
  rewrite length_app in Hlt. cbn in Hlt. rewrite drop_app_le by lia. by rewrite app_assoc, last_snoc.
Qed.

(** The probe at [prev] either brings the follower up or leaves it behind; at
    zero it always succeeds. *)
Lemma probe_quiet commit prev n :
  behind n → commit < len → (prev ≤ length full)%nat →
  ∃ a n', append_entries (probe t cand commit full prev) n = (Ok a, n') ∧ ar_term a = t ∧
    (ar_success a = true ∧ ar_match_index a = len ∧ caught n' ∨
     ar_success a = false ∧ prev ≠ O ∧ behind n').
Proof.
  intros Hb Hcommit Hprev. pose proof Hb as [Hr Hroom Hterm Hold Ha Hc]. set (q := probe t cand commit full prev).
  pose proof (merged_size prev n) as Hsize.
  destruct (append_entries_quiet q n Hr Hterm) as (a & n' & Hrun & Hw).
  { intros Hp. unfold q in *. rewrite merged_log by done. lia. }
  exists a, n'. split; [done|].
  destruct (append_entries_effect _ _ _ _ Hrun Hterm) as (Ht' & Hat & _ & _ & Hla & Hcase). split; [done|].
  destruct Hcase as [(Hp & Hs & Hl & Hm & Hci)|(Hp & Hs & Hl & _ & Hci)].
  - left. pose proof (prev_is_old _ _ _ Hb Hprev Hp) as Hlt. cbn in Hl. rewrite Nat2Z.id in Hl.
    destruct (merged_shape prev (log n) Hlt) as [Hlen Hlast]; [destruct Hp as [Hp _]; cbn in Hp; lia|].
    rewrite <- Hl in Hlen, Hlast, Hsize. cbn in Hm, Hci, Ht'.
    assert (commit_index n ≤ commit_index n' ∧ commit_index n' < len) as [Hci1 Hci2].
    { rewrite Hci. unfold last_log_index. destruct (_ <? _) eqn:Hlt'; zify_bools; lia. }
    split; [done|]. split; [rewrite Hm, length_drop; lia|]. split; rewrite ?Hla; try done; try lia.
    split; [done|lia].
  - right. split; [done|]. split.
    + intros ->. apply Hp. split; cbn; lia.
    + split; rewrite ?Hl, ?Hla, ?Hci, ?Ht'; try done. split; [done|]. rewrite Hl. apply Hr.
Qed.

(** The empty request that publishes the commit index. *)
Lemma publish_quiet n :
  caught n →
  ∃ a n', append_entries (MkAppendEntries t cand len t [] len) n = (Ok a, n') ∧ caught n' ∧ commit_index n' = len.
Proof.
  intros Hcg. pose proof Hcg as [Hr Hterm Hlen Hlast Ha Hc Hf]. set (q := MkAppendEntries t cand len t [] len).
  assert (has_prev q (log n)) as Hp.
  { split; [cbn; lia|]. intros _. exists entry. split; [by apply last_entry|done]. }
  assert (take (Z.to_nat len) (log n) ++ [] = log n) as Hsame by (rewrite app_nil_r, take_ge; [done|lia]).
  destruct (append_entries_quiet q n Hr) as (a & n' & Hrun & Hw); [cbn; lia| |].
  { intros _. unfold ae_merge. cbn [q ae_prev_log_index ae_entries ae_term].
    destruct (merge_spec (log n) (Z.to_nat len) [] (current_term n <? t)) as [-> _]; [lia|].
    rewrite Hsame. apply Hr. }
  exists a, n'. split; [done|].
  destruct (append_entries_effect _ _ _ _ Hrun) as (Ht' & _ & _ & _ & Hla & Hcase); [cbn; lia|].
  destruct Hcase as [(_ & _ & Hl & _ & Hci)|(Hno & _)]; [|done]. cbn in Ht', Hci, Hl. rewrite Hsame in Hl.
  assert (commit_index n' = len) as Hci'.
  { rewrite Hci. unfold last_log_index. rewrite Hl, Hlen. destruct (_ <? _) eqn:Hlt'; zify_bools; lia. }
  split; [|done]. split; rewrite ?Hla, ?Hl; try done; try lia. split; [done|]. rewrite Hl. apply Hr.
Qed.
End replication.

(** ** Loops over the nodes *)

(** A node and what it has applied. *)
Definition slot (c : RaftCluster) (p : Z) : option (RaftNode * list bytes) :=
  n ← nodes c !! p; l ← applied c !! p; Some (n, l).
Definition put_slot (p : Z) (s : RaftNode * list bytes) (c : RaftCluster) : RaftCluster :=
  MkCluster (<[p := s.1]> (nodes c)) (transport c) (stopped c) (<[p := s.2]> (applied c)).
Definition network (c : RaftCluster) : InMemoryTransport * gset Z * gset Z :=
  (transport c, stopped c, dom (nodes c)).

Lemma network_inv c c' :
  network c' = network c → transport c' = transport c ∧ stopped c' = stopped c ∧ dom (nodes c') = dom (nodes c).
Proof. unfold network. intros H. by injection H. Qed.

Lemma slot_some c p n l : slot c p = Some (n, l) ↔ nodes c !! p = Some n ∧ applied c !! p = Some l.
Proof. unfold slot. destruct (nodes c !! p), (applied c !! p); cbn; naive_solver. Qed.

Lemma slot_put c p s k : slot (put_slot p s c) k = if decide (p = k) then Some s else slot c k.
Proof.
  unfold slot, put_slot. cbn. case_decide as Hd; [subst; rewrite !lookup_insert_eq; by destruct s|].
  by rewrite !lookup_insert_ne.
Qed.

Lemma network_put c p s s0 : slot c p = Some s0 → network (put_slot p s c) = network c.
Proof.
  destruct s0 as [n l]. intros [Hn _]%slot_some. unfold network, put_slot. cbn. f_equal.
  apply dom_insert_lookup_L. eauto.
Qed.

Lemma put_put p s s' c : put_slot p s' (put_slot p s c) = put_slot p s' c.
Proof. unfold put_slot. cbn. by rewrite !insert_insert_eq. Qed.

Lemma on_node_slot {A} p (m : node A) c n l r n' :
  slot c p = Some (n, l) → m n = (r, n') → on_node p m c = (r, put_slot p (n', l) c).
Proof.
  intros [Hn Hl]%slot_some Hm. rewrite (on_node_run _ _ _ _ _ _ Hn Hm). f_equal.
  unfold set_nodes, put_slot. cbn. by rewrite (insert_id (applied c)).
Qed.

Lemma node_at_slot c p n l : slot c p = Some (n, l) → node_at p c = (Ok n, c).
Proof. intros [Hn _]%slot_some. unfold node_at. run_steps. by rewrite Hn. Qed.

Lemma put_same c p s : slot c p = Some s → put_slot p s c = c.
Proof.
  destruct s as [n l]. intros [Hn Hl]%slot_some. unfold put_slot. cbn. rewrite !insert_id by done. by destruct c.
Qed.

(** [c'] is [c] but for the slots of [ids], each moved along [Q]. *)
Definition moved (Q : Z → RaftNode * list bytes → RaftNode * list bytes → Prop) (ids : list Z) (c c' : RaftCluster) : Prop :=
  network c' = network c ∧
  (∀ p, p ∈ ids → ∃ s s', slot c p = Some s ∧ slot c' p = Some s' ∧ Q p s s') ∧
  ∀ p, p ∉ ids → slot c' p = slot c p.

Lemma moved_nil Q c : moved Q [] c c.
Proof. split; [done|]. split; [intros p Hp; by apply not_elem_of_nil in Hp|done]. Qed.

Lemma moved_cons Q p ids c c' s s' :
  p ∉ ids → slot c p = Some s → Q p s s' → moved Q ids (put_slot p s' c) c' → moved Q (p :: ids) c c'.
Proof.
  intros Hp Hs HQ (Hnet & Hin & Hout). rewrite (network_put _ _ _ _ Hs) in Hnet. split; [done|]. split.
  - intros k [->|Hk]%elem_of_cons.
    + exists s, s'. split; [done|]. rewrite Hout by done. by rewrite slot_put, decide_True.
    + destruct (Hin k Hk) as (s1 & s1' & H1 & H2 & H3). rewrite slot_put, decide_False in H1 by (intros ->; done).
      eauto.
  - intros k [Hkp Hk]%not_elem_of_cons. rewrite Hout, slot_put by done. by rewrite decide_False.
Qed.

(** A loop whose body works on its own slot works on each. *)
Lemma for_each_moves (f : Z → cluster unit) net (P : Z → RaftNode * list bytes → Prop) Q :
  (∀ p s c, network c = net → slot c p = Some s → P p s → ∃ s', f p c = (Ok tt, put_slot p s' c) ∧ Q p s s') →
  ∀ ids c, NoDup ids → network c = net → (∀ p, p ∈ ids → ∃ s, slot c p = Some s ∧ P p s) →
  ∃ c', for_each ids f c = (Ok tt, c') ∧ moved Q ids c c'.
Proof.
  intros Hf ids c Hnd. revert c. induction Hnd as [|p ids Hp _ IH]; intros c Hnet HP; cbn [for_each].
  - exists c. split; [done|]. apply moved_nil.
  - destruct (HP p ltac:(set_solver)) as (s & Hs & HPs). destruct (Hf p s c Hnet Hs HPs) as (s' & Hrun & HQ).
    rewrite (M_bind_run _ _ _ _ _ Hrun). destruct (IH (put_slot p s' c)) as (c' & Hrun' & Hmoved).
    + by rewrite (network_put _ _ _ _ Hs).
    + intros k Hk. destruct (HP k ltac:(set_solver)) as (s1 & Hs1 & HP1). exists s1.
      rewrite slot_put, decide_False by (intros ->; done). done.
    + exists c'. split; [done|]. by eapply moved_cons.
Qed.

Section cluster_replication.
Context (cand t : Z) (old : list Entry) (cmd : bytes).
Abbreviation entry := (MkEntry t cmd).
Abbreviation full := (old ++ [entry]).
Abbreviation len := (Z.of_nat (length full)).

(** The followers a replication reaches. *)
Definition reached (c : RaftCluster) (p : Z) : bool :=
  negb (is_stopped c p || negb (reachable (transport c) cand p)).

Lemma reached_network c c' p : network c' = network c → reached c' p = reached c p.
Proof. intros [= Ht Hs _]. unfold reached, is_stopped. by rewrite Ht, Hs. Qed.

Lemma back_off_quiet commit p prev c n l :
  slot c p = Some (n, l) → behind t old cmd n → commit < len → (prev ≤ length full)%nat →
  ∃ n', back_off t cand commit full p prev c = (Ok (Some len), put_slot p (n', l) c) ∧ caught t old cmd n'.
Proof.
  revert c n. induction prev as [|prev IH]; intros c n Hs Hb Hcommit Hprev; cbn [back_off].
  - destruct (probe_quiet cand t old cmd commit 0 n Hb Hcommit Hprev) as (a & n' & Hrun & Ht & Hcase).
    rewrite (M_bind_run _ _ _ _ _ (on_node_slot _ _ _ _ _ _ _ Hs Hrun)), Ht, Z.ltb_irrefl.
    destruct Hcase as [(-> & -> & Hc)|(_ & ? & _)]; [|done]. by exists n'.
  - destruct (probe_quiet cand t old cmd commit (S prev) n Hb Hcommit Hprev) as (a & n' & Hrun & Ht & Hcase).
    rewrite (M_bind_run _ _ _ _ _ (on_node_slot _ _ _ _ _ _ _ Hs Hrun)), Ht, Z.ltb_irrefl.
    destruct Hcase as [(-> & -> & Hc)|(-> & _ & Hb')]; [by exists n'|].
    destruct (IH (put_slot p (n', l) c) n') as (n2 & -> & Hc); [|done|done|lia|].
    + by rewrite slot_put, decide_True.
    + exists n2. by rewrite put_put.
Qed.

(** What the first loop does to a slot, and what it reports. *)
Definition matched_slot (c : RaftCluster) (p : Z) (s s' : RaftNode * list bytes) : Prop :=
  if decide (p ≠ cand ∧ reached c p = true) then caught t old cmd s'.1 ∧ s'.2 = s.2 else s' = s.
Definition match_report (c : RaftCluster) (ids : list Z) : list Z :=
  (λ p, if reached c p then len else 0) <$> List.filter (λ p, negb (bool_decide (p = cand))) ids.

Lemma match_followers_quiet commit c0 ids matched c :
  commit < len → NoDup ids → network c = network c0 →
  (∀ p, p ∈ ids → ∃ s, slot c p = Some s ∧ (p ≠ cand → reached c0 p = true → behind t old cmd s.1)) →
  ∃ c', match_followers t cand commit full ids matched c = (Ok (matched ++ match_report c0 ids), c') ∧
        moved (matched_slot c0) ids c c'.
Proof.
  intros Hcommit Hnd. revert c matched. induction Hnd as [|p ids Hp _ IH]; intros c matched Hnet HP; cbn [match_followers].
  { exists c. split; [by rewrite app_nil_r|apply moved_nil]. }
  run_steps. destruct (HP p ltac:(set_solver)) as ([n l] & Hs & Hb). unfold match_report. cbn [List.filter].
  assert (∀ c1 s', c1 = put_slot p s' c → ∀ k, k ∈ ids →
    ∃ s, slot c1 k = Some s ∧ (k ≠ cand → reached c0 k = true → behind t old cmd s.1)) as HP1.
  { intros c1 s' -> k Hk. rewrite slot_put, decide_False by (intros ->; done). apply HP. set_solver. }
  destruct (bool_decide (p = cand)) eqn:Hpc; zify_bools; cbn [negb].
  { destruct (IH c matched Hnet) as (c' & -> & Hm); [by eapply HP1; rewrite put_same|].
    exists c'. split; [done|]. eapply moved_cons; [done|done| |by rewrite put_same].
    unfold matched_slot. by rewrite decide_False by naive_solver. }
  cbn [fmap list_fmap]. fold (is_stopped c p).
  pose proof (reached_network _ _ p Hnet) as Hr. unfold reached at 1 in Hr.
  destruct (is_stopped c p || negb (reachable (transport c) cand p)) eqn:Hskip; cbn [negb] in Hr.
  - destruct (IH c (matched ++ [0]) Hnet) as (c' & -> & Hm); [by eapply HP1; rewrite put_same|].
    exists c'. split; [by rewrite <- app_assoc, <- Hr|]. eapply moved_cons; [done|done| |by rewrite put_same].
    unfold matched_slot. rewrite decide_False by (intros [_ ?]; congruence). done.
  - destruct (back_off_quiet commit p (length full) c n l Hs) as (n' & Hrun & Hc); [by apply Hb|done|done|].
    rewrite (M_bind_run _ _ _ _ _ Hrun). change (default 0 (Some len)) with len.
    destruct (IH (put_slot p (n', l) c) (matched ++ [len])) as (c' & -> & Hm);
      [by rewrite (network_put _ _ _ _ Hs)|by eapply HP1|].
    exists c'. split; [by rewrite <- app_assoc, <- Hr|]. eapply moved_cons; [done|done| |done].
    unfold matched_slot. by rewrite decide_True.
Qed.
(** The second loop. *)
Definition published_slot (c : RaftCluster) (p : Z) (s s' : RaftNode * list bytes) : Prop :=
  if decide (p ≠ cand ∧ reached c p = true)
  then caught t old cmd s'.1 ∧ commit_index s'.1 = len ∧ s'.2 = s.2 else s' = s.

Lemma publish_moves net c0 p s c :
  network c0 = net → network c = net → slot c p = Some s →
  (p ≠ cand → reached c0 p = true → caught t old cmd s.1) →
  ∃ s', publish t cand len full p c = (Ok tt, put_slot p s' c) ∧ published_slot c0 p s s'.
Proof.
  intros Hnet0 Hnet Hs Hc. destruct s as [n l]. unfold publish. run_steps. fold (is_stopped c p).
  pose proof (reached_network c0 c p ltac:(congruence)) as Hr. unfold reached at 1 in Hr. unfold published_slot.
  destruct (bool_decide (p = cand)) eqn:Hpc; zify_bools; cbn [orb].
  { exists (n, l). rewrite put_same by done. split; [done|]. by rewrite decide_False by naive_solver. }
  destruct (is_stopped c p || negb (reachable (transport c) cand p)) eqn:Hskip; cbn [negb] in Hr.
  { exists (n, l). rewrite put_same by done. split; [done|]. rewrite decide_False by (intros [_ ?]; congruence). done. }
  specialize (Hc Hpc (eq_sym Hr)). cbn in Hc. destruct (publish_quiet cand t old cmd n Hc) as (a & n' & Hrun & Hc' & Hci).
  exists (n', l). rewrite decide_True by done. split; [|done].
  rewrite (M_bind_run _ _ _ _ _ (node_at_slot _ _ _ _ Hs)). cbv beta zeta.
  unfold last_log_index. rewrite (cg_length _ _ _ _ Hc). rewrite (proj2 (Z.eqb_neq _ _)) by (rewrite length_app; cbn; lia).
  replace (index full (Z.to_nat (len - 1))) with (Ok (E := io_error) entry).
  2: { symmetry. apply index_ok. rewrite length_app. cbn [length].
       replace (Z.to_nat (Z.of_nat (length old + 1) - 1)) with (length old) by lia.
       by rewrite lookup_app_r, Nat.sub_diag. }
  rewrite run_bind, run_lift_ok, run_ret. cbn [RaftNode.term]. by rewrite (M_bind_run _ _ _ _ _ (on_node_slot _ _ _ _ _ _ _ Hs Hrun)).
Qed.

(** Applying: in order, once. *)
Definition applied_slot (_ : Z) (s s' : RaftNode * list bytes) : Prop :=
  let n := s.1 in
  s'.1 = set_applied (commit_index n) n ∧
  s'.2 = s.2 ++ (command <$> take (Z.to_nat (commit_index n - last_applied n)) (drop (Z.to_nat (last_applied n)) (log n))).

Definition sound (n : RaftNode) : Prop := 0 ≤ last_applied n ≤ commit_index n ∧ commit_index n ≤ last_log_index n.

Lemma apply_moves p s c :
  slot c p = Some s → sound s.1 → ∃ s', apply_one p c = (Ok tt, put_slot p s' c) ∧ applied_slot p s s'.
Proof.
  destruct s as [n l]. intros Hs [Ha Hc]. eexists (_, _). split; [|split; reflexivity].
  unfold apply_one. destruct (take_applied_rule n Ha Hc) as [Hrun _].
  rewrite (M_bind_run _ _ _ _ _ (on_node_slot _ _ _ _ _ _ _ Hs Hrun)). run_steps.
  apply slot_some in Hs as [_ Hl]. cbn [applied put_slot]. rewrite lookup_insert_eq. unfold modify. f_equal.
  unfold set_applied_log, put_slot. cbn. by rewrite insert_insert_eq.
Qed.

(** A node that has the new entry committed applies it last. *)
Lemma applied_new p s s' :
  caught t old cmd s.1 → commit_index s.1 = len → applied_slot p s s' →
  ∃ l, s'.2 = l ++ [cmd] ∧ log s'.1 !! Z.to_nat (len - 1) = Some entry ∧ last_log_index s'.1 = len ∧
    commit_index s'.1 = len ∧ last_applied s'.1 = len.
Proof.
  intros Hc Hci [H1 H2]. rewrite H1. cbn [commit_index last_applied log set_applied]. rewrite Hci in *.
  pose proof Hc as [_ _ Hlen Hlast Ha _ Hf]. apply last_Some in Hlast as [l Hl].
  assert (length (log s.1) = S (length l)) as Hll by (rewrite Hl, length_app; cbn; lia).
  rewrite H2. rewrite take_ge by (rewrite length_drop; lia). 
  assert (drop (Z.to_nat (last_applied s.1)) (log s.1) = drop (Z.to_nat (last_applied s.1)) l ++ [entry]) as ->
    by (rewrite Hl; apply drop_app_le; lia).
  rewrite fmap_app. cbn. eexists. split; [apply app_assoc|].
  split; [by apply last_entry|]. unfold last_log_index. cbn. rewrite Hlen. done.
Qed.
End cluster_replication.
