(* ===== verification/RaftLiveness.v ===== *)
(** Progress of the simulated cluster: a majority that hears each other elects a
    leader within as many elections as there are nodes, and the leader then
    commits what it is given and has it applied on every node of the majority. *)

From stdpp Require Import gmap.
From Stdlib Require Import Ascii.
From S2P Require Import Prelude Bytes Wal RaftNode RaftDurable Transport RaftCluster Election RaftElects RaftReplicates.
Local Open Scope Z_scope.

(** ** A majority that hears each other makes progress *)

(** The cluster around a candidate: partitions cut both ways (as [partition] and
    [isolate] do); every node applies within its commit index and that is within
    its log; the peers hold nothing newer than the candidate's term and have
    committed no more than it holds; the logs and the command fit a record. *)
Record healthy (cand top : Z) (c : RaftCluster) (n0 : RaftNode) (cmd : bytes) : Prop := Healthy {
  hl_contender : contender cand top c n0;
  hl_top : top < U64_MAX;
  hl_links p : reachable (transport c) cand p = true → reachable (transport c) p cand = true;
  hl_sound p n : nodes c !! p = Some n → is_Some (applied c !! p) ∧ sound n;
  hl_old p n : p ∈ electorate c cand → nodes c !! p = Some n →
    Forall (λ e, term e ≤ current_term n0) (log n) ∧ commit_index n ≤ last_log_index n0;
  hl_room p n : p = cand ∨ p ∈ electorate c cand → nodes c !! p = Some n →
    record_size (log n) + record_size (log n0) + Z.of_nat (length cmd) ≤ U32_MAX;
}.

Lemma append_as_leader_quiet cmd n :
  ready n → role n = Leader → record_size (log n) + 12 + Z.of_nat (length cmd) ≤ U32_MAX →
  ∃ w, append_as_leader cmd n
       = (Ok (Z.of_nat (length (log n ++ [MkEntry (current_term n) cmd]))),
          set_wal w (set_log (log n ++ [MkEntry (current_term n) cmd]) n)) ∧ f_env w = [].
Proof.
  intros [Hw Hr] Hl Hfit. unfold append_as_leader. run_steps. rewrite bool_decide_eq_true_2 by done. cbn [negb].
  run_steps. match goal with |- context [(_ ← persist; _) ?m] => destruct (persist_quiet m) as (w & Hp & Hw') end.
  { split; [done|]. cbn. rewrite record_size_app, record_size_cons. unfold record_size in *. cbn. lia. }
  exists w. split; [|done]. rewrite (M_bind_run _ _ _ _ _ Hp). reflexivity.
Qed.

Lemma polled_reached c cand p :
  (∀ p, reachable (transport c) cand p = true → reachable (transport c) p cand = true) →
  polled c cand p = negb (bool_decide (p = cand)) && reached cand c p.
Proof.
  intros Hl. specialize (Hl p). unfold polled, reached.
  destruct (bool_decide _), (is_stopped c p), (reachable (transport c) cand p); cbn; try done. by rewrite Hl.
Qed.

Section commit.
Context (cand t : Z) (old : list Entry) (cmd : bytes) (c : RaftCluster).
Context (Hlinks : ∀ p, reachable (transport c) cand p = true → reachable (transport c) p cand = true).
Context (Hcand : is_Some (nodes c !! cand)).
Context (Hmajority : Z.of_nat (base.size (nodes c)) < 2 * (1 + Z.of_nat (length (electorate c cand)))).
Abbreviation entry := (MkEntry t cmd).
Abbreviation full := (old ++ [entry]).
Abbreviation len := (Z.of_nat (length full)).
Abbreviation report := (match_report cand t old cmd c (z_keys (nodes c))).

Lemma report_count ids :
  length (List.filter (λ i, len <=? i) (match_report cand t old cmd c ids)) = length (List.filter (polled c cand) ids).
Proof using Hlinks.
  clear Hmajority Hcand. unfold match_report. induction ids as [|p ids IH]; [done|]. cbn [List.filter].
  rewrite (polled_reached c cand p) by done. destruct (bool_decide (p = cand)); cbn [negb andb]; [done|].
  cbn [fmap list_fmap List.filter]. destruct (reached cand c p).
  - rewrite Z.leb_refl. cbn [length]. by f_equal.
  - rewrite (proj2 (Z.leb_gt _ _)) by (rewrite length_app; cbn; lia). done.
Qed.

(** The reports of a majority commit the leader's last entry. *)
Lemma reports_commit n :
  log n = full → current_term n = t → role n = Leader → 0 ≤ commit_index n ≤ Z.of_nat (length old) →
  advance_commit report n = (Ok len, set_commit len n).
Proof using Hlinks Hcand Hmajority.
  intros Hlog Ht Hr Hci. destruct (advance_commit_run report n) as (i & -> & _ & Hrule); [lia|].
  assert (committable n report len) as Hall.
  { split.
    - unfold copies. rewrite report_count. fold (electorate c cand).
      assert (length report < base.size (nodes c))%nat; [|lia]. unfold match_report. rewrite length_fmap, <- length_z_keys.
      pose proof (filter_length_lt (λ _, true) (λ p, negb (bool_decide (p = cand))) (z_keys (nodes c)) cand) as Hlt.
      rewrite (List.forallb_filter_id (λ _ : Z, true)) in Hlt by (by apply forallb_forall).
      apply Hlt; try done; [by apply elem_of_z_keys|by rewrite bool_decide_eq_true_2].
    - exists entry. split; [|done]. rewrite Hlog, length_app. cbn [length].
      replace (Z.to_nat (Z.of_nat (length old + 1) - 1)) with (length old) by lia.
      by rewrite lookup_app_r, Nat.sub_diag. }
  destruct (Hrule Hr) as [Hi Hmax]. assert (i = len) as ->; [|done].
  unfold last_log_index in *. rewrite Hlog in *. rewrite length_app in *. cbn [length] in *.
  destruct (decide (i < Z.of_nat (length old + 1))) as [Hlt|Hge]; [|destruct Hi as [->|[? _]]; lia].
  destruct (Hmax (Z.of_nat (length old + 1))); [lia|done].
Qed.
(** What the replication finds in a slot, and what it leaves behind: on the
    leader and the peers it reaches the new entry is applied. *)
Definition ready_slot (p : Z) (s : RaftNode * list bytes) : Prop :=
  if decide (p ≠ cand ∧ reached cand c p = true) then behind t old cmd s.1
  else if decide (p = cand) then caught t old cmd s.1 else sound s.1.

Definition progress (s : RaftNode * list bytes) : Prop :=
  ∃ l, s.2 = l ++ [cmd] ∧ log s.1 !! Z.to_nat (len - 1) = Some entry ∧ last_log_index s.1 = len ∧
    commit_index s.1 = len ∧ last_applied s.1 = len.

Lemma caught_commit n : caught t old cmd n → caught t old cmd (set_commit len n) ∧ sound (set_commit len n).
Proof using.
  clear. intros [? ? Hl ? ? ? ?]. split; [split; try done; cbn; lia|].
  unfold sound, last_log_index. cbn. rewrite Hl. lia.
Qed.

(** After the leader has moved its commit index: the peers have caught up. *)
Definition committed_slot (p : Z) (s : RaftNode * list bytes) : Prop :=
  if decide (p = cand ∨ reached cand c p = true)
  then caught t old cmd s.1 ∧ (p = cand → commit_index s.1 = len) else sound s.1.
(** After they have been told. *)
Definition told_slot (p : Z) (s : RaftNode * list bytes) : Prop :=
  sound s.1 ∧ (p = cand ∨ reached cand c p = true → caught t old cmd s.1 ∧ commit_index s.1 = len).

Lemma commit_stage n l :
  slot c cand = Some (n, l) → caught t old cmd n → log n = full → role n = Leader →
  commit_index n ≤ Z.of_nat (length old) →
  (∀ p, p ∈ z_keys (nodes c) → ∃ s, slot c p = Some s ∧ ready_slot p s) →
  ∃ c2 c3, match_followers t cand (commit_index n) full (z_keys (nodes c)) [] c = (Ok report, c2) ∧
    on_node cand (advance_commit report) c2 = (Ok len, c3) ∧ network c3 = network c ∧
    ∀ p, p ∈ z_keys (nodes c) → ∃ s, slot c3 p = Some s ∧ committed_slot p s.
Proof using Hlinks Hcand Hmajority.
  intros Hs Hcg Hlog Hrole Hci Hslots.
  destruct (match_followers_quiet cand t old cmd (commit_index n) c (z_keys (nodes c)) [] c) as (c2 & Hmatch & Hnet2 & Hin2 & _);
    [rewrite length_app; cbn; lia|apply NoDup_z_keys|done| |].
  { intros p Hp. destruct (Hslots p Hp) as (s & Hsp & Hr). exists s. split; [done|]. intros. unfold ready_slot in Hr.
    by rewrite decide_True in Hr. }
  assert (slot c2 cand = Some (n, l)) as Hs2.
  { destruct (Hin2 cand) as (s & s' & H1 & H2 & H3); [by apply elem_of_z_keys|]. unfold matched_slot in H3.
    rewrite decide_False in H3 by naive_solver. congruence. }
  pose proof (reports_commit n Hlog (cg_term _ _ _ _ Hcg) Hrole ltac:(destruct Hcg; lia)) as Hadv.
  exists c2, (put_slot cand (set_commit len n, l) c2). split; [exact Hmatch|].
  split; [by eapply on_node_slot|]. split; [by rewrite (network_put _ _ _ _ Hs2)|].
  intros p Hp. setoid_rewrite slot_put. unfold committed_slot. destruct (decide (cand = p)) as [<-|Hne].
  - exists (set_commit len n, l). rewrite decide_True by auto. split; [done|]. by split; [apply caught_commit|].
  - destruct (Hin2 p Hp) as (s & s' & H1 & H2 & H3). destruct (Hslots p Hp) as (s0 & H0 & Hr0).
    rewrite H1 in H0. injection H0 as <-. exists s'. split; [done|]. unfold matched_slot, ready_slot in *.
    destruct (reached cand c p) eqn:Hre.
    + rewrite decide_True in H3 by done. rewrite decide_True by auto. by split; [apply H3|intros ->].
    + rewrite decide_False in H3 by naive_solver. rewrite !decide_False in Hr0 by naive_solver.
      rewrite decide_False by naive_solver. by subst.
Qed.

Lemma caught_sound n : caught t old cmd n → sound n.
Proof using. clear. intros []. unfold sound, last_log_index. lia. Qed.

Lemma tell_stage c3 :
  network c3 = network c → (∀ p, p ∈ z_keys (nodes c) → ∃ s, slot c3 p = Some s ∧ committed_slot p s) →
  ∃ c4, for_each (z_keys (nodes c)) (publish t cand len full) c3 = (Ok tt, c4) ∧ network c4 = network c ∧
    ∀ p, p ∈ z_keys (nodes c) → ∃ s, slot c4 p = Some s ∧ told_slot p s.
Proof using.
  clear Hlinks Hmajority. intros Hnet Hslots.
  destruct (for_each_moves (publish t cand len full) (network c)
    (λ p s, p ≠ cand → reached cand c p = true → caught t old cmd s.1) (published_slot cand t old cmd c)
    (λ p s c1 Hn1 Hs1 HP, publish_moves cand t old cmd (network c) c p s c1 eq_refl Hn1 Hs1 HP)
    (z_keys (nodes c)) c3) as (c4 & Hpub & Hnet4 & Hin4 & _); [apply NoDup_z_keys|done| |].
  { intros p Hp. destruct (Hslots p Hp) as (s & Hs & Hc). exists s. split; [done|]. intros _ Hr.
    unfold committed_slot in Hc. rewrite decide_True in Hc by auto. apply Hc. }
  exists c4. split; [exact Hpub|]. split; [congruence|]. intros p Hp.
  destruct (Hin4 p Hp) as (s & s' & Hs & Hs' & HQ). destruct (Hslots p Hp) as (s0 & Hs0 & Hc).
  rewrite Hs in Hs0. injection Hs0 as <-. exists s'. split; [done|]. unfold published_slot, committed_slot in *.
  unfold told_slot. destruct (decide (p ≠ cand ∧ reached cand c p = true)) as [[Hpc Hr]|Hno].
  - destruct HQ as (Hcg & Hci & _). split; [by eapply caught_sound|done].
  - subst s'. destruct (decide (p = cand ∨ reached cand c p = true)) as [Hor|Hno2]; [|by split].
    destruct Hc as [Hcg Hci]. split; [by eapply caught_sound|]. intros _. split; [done|]. apply Hci.
    destruct Hor; [done|]. apply dec_stable. naive_solver.
Qed.

Lemma apply_stage c4 :
  network c4 = network c → (∀ p, p ∈ z_keys (nodes c) → ∃ s, slot c4 p = Some s ∧ told_slot p s) →
  ∃ c5, apply_all c4 = (Ok tt, c5) ∧
    ∀ p, p ∈ z_keys (nodes c) → p = cand ∨ reached cand c p = true → ∃ s, slot c5 p = Some s ∧ progress s.
Proof using.
  clear Hlinks Hmajority. intros Hnet Hslots. unfold apply_all. run_steps.
  assert (z_keys (nodes c4) = z_keys (nodes c)) as -> by (apply z_keys_dom; by injection Hnet).
  destruct (for_each_moves apply_one (network c) (λ _ s, sound s.1) applied_slot
    (λ p s c1 _ Hs1 HP, apply_moves p s c1 Hs1 HP) (z_keys (nodes c)) c4) as (c5 & Happ & _ & Hin5 & _);
    [apply NoDup_z_keys|done| |].
  { intros p Hp. destruct (Hslots p Hp) as (s & Hs & Ht & _). eauto. }
  exists c5. split; [exact Happ|]. intros p Hp Hor. destruct (Hin5 p Hp) as (s & s' & Hs & Hs' & HQ).
  destruct (Hslots p Hp) as (s0 & Hs0 & _ & Ht). rewrite Hs in Hs0. injection Hs0 as <-.
  destruct (Ht Hor) as [Hcg Hci]. exists s'. split; [done|]. by eapply applied_new.
Qed.

Lemma replicate_existing_quiet n l :
  slot c cand = Some (n, l) → caught t old cmd n → log n = full → role n = Leader →
  commit_index n ≤ Z.of_nat (length old) →
  (∀ p, p ∈ z_keys (nodes c) → ∃ s, slot c p = Some s ∧ ready_slot p s) →
  ∃ c', replicate_existing cand c = (Ok len, c') ∧
    ∀ p, p = cand ∨ p ∈ electorate c cand → ∃ s, slot c' p = Some s ∧ progress s.
Proof using Hlinks Hcand Hmajority.
  intros Hs Hcg Hlog Hrole Hci Hslots.
  destruct (commit_stage n l) as (c2 & c3 & Hmatch & Hadv & Hnet3 & Hslots3); [done..|].
  destruct (tell_stage c3) as (c4 & Htell & Hnet4 & Hslots4); [done..|].
  destruct (apply_stage c4) as (c5 & Happ & Hslots5); [done..|].
  exists c5. split.
  - unfold replicate_existing. rewrite (M_bind_run _ _ _ _ _ (node_at_slot _ _ _ _ Hs)). cbv beta zeta. run_steps.
    rewrite (cg_term _ _ _ _ Hcg), Hlog, (M_bind_run _ _ _ _ _ Hmatch), (M_bind_run _ _ _ _ _ Hadv). run_steps.
    assert (z_keys (nodes c3) = z_keys (nodes c)) as -> by (apply z_keys_dom; by injection Hnet3).
    rewrite (M_bind_run _ _ _ _ _ Htell), (M_bind_run _ _ _ _ _ Happ). done.
  - intros p [->|Hp]; [apply Hslots5; [by apply elem_of_z_keys|by left]|].
    apply elem_of_electorate_keys in Hp as [Hp Hpoll]. apply Hslots5; [done|right].
    rewrite polled_reached in Hpoll by done. by apply andb_true_iff in Hpoll as [_ ?].
Qed.
End commit.

Lemma steady_slot c c' p n l :
  steady c c' → slot c p = Some (n, l) → ∃ n', slot c' p = Some (n', l) ∧ keeps n n'.
Proof.
  intros Hst [Hn Hl]%slot_some. destruct (steady_lookup _ _ _ _ Hst Hn) as (n' & Hn' & Hk). exists n'.
  split; [|done]. apply slot_some. split; [done|]. by rewrite (st_applied _ _ Hst).
Qed.

Lemma sound_keeps n n' : keeps n n' → sound n → sound n'.
Proof. intros [_ Hl Hc Ha _]. unfold sound, last_log_index. by rewrite Hl, Hc, Ha. Qed.

(** The slots a replication finds right after the election. *)
Lemma ready_after_election cand top c n0 cmd c1 n1 l1 w :
  healthy cand top c n0 cmd → led cand c c1 n1 → slot c1 cand = Some (n1, l1) → f_env w = [] →
  let t := current_term n1 in
  let c2 := put_slot cand (set_wal w (set_log (log n1 ++ [MkEntry t cmd]) n1), l1) c1 in
  (∀ p, p ∈ z_keys (nodes c2) → ∃ s, slot c2 p = Some s ∧ ready_slot cand t (log n1) cmd c2 p s) ∧
  caught t (log n1) cmd (set_wal w (set_log (log n1 ++ [MkEntry t cmd]) n1)).
Proof.
  intros Hh Hled Hs1 Hw t c2. pose proof Hh as [Hct _ Hlinks Hsound Hold Hroom]. destruct Hled as [Hst Hn1 Hrole Hterm Hpeers].
  pose proof (ct_node _ _ _ _ Hct) as Hn0. destruct (steady_lookup _ _ _ _ Hst Hn0) as (m & Hm & Hk).
  rewrite Hn1 in Hm. injection Hm as <-. pose proof Hk as [_ Hlog Hci Hla Hrd].
  specialize (Hrd (ct_ready _ _ _ _ Hct)). destruct (Hsound _ _ Hn0) as (_ & Hsa & Hsc).
  assert (term_of c cand = current_term n0) as Htc by (unfold term_of; by rewrite Hn0).
  unfold last_log_index in *.
  assert (caught t (log n1) cmd (set_wal w (set_log (log n1 ++ [MkEntry t cmd]) n1))) as Hcg.
  { pose proof (Hroom cand n0 (or_introl eq_refl) Hn0). pose proof (record_size_bound (log n0)).
    assert (length (log n1 ++ [MkEntry t cmd]) = S (length (log n0))) as Hll by (rewrite length_app, Hlog; cbn; lia).
    split; cbn [set_wal set_log log current_term commit_index last_applied wal]; rewrite ?last_snoc, ?Hci, ?Hla; try done; try lia.
    split; [done|]. cbn. rewrite Hlog, record_size_app, record_size_cons. unfold record_size in *. cbn. lia. }
  split; [|done]. intros p Hp. assert (network c2 = network c1) as Hnet by (unfold c2; by eapply network_put).
  assert (polled c cand p = negb (bool_decide (p = cand)) && reached cand c2 p) as Hpolled.
  { rewrite polled_reached by done. f_equal. rewrite (reached_network _ _ _ p Hnet). unfold reached, is_stopped.
    by rewrite (st_transport _ _ Hst), (st_stopped _ _ Hst). }
  assert (dom (nodes c2) = dom (nodes c)) as Hdom by (rewrite <- (steady_keys _ _ Hst); by injection Hnet).
  rewrite (z_keys_dom _ _ Hdom) in Hp. unfold c2. setoid_rewrite slot_put. fold c2. unfold ready_slot.
  destruct (decide (cand = p)) as [<-|Hne].
  { eexists. split; [done|]. rewrite decide_False by naive_solver. by rewrite decide_True. }
  pose proof Hp as [n Hn]%elem_of_z_keys. destruct (Hsound p n Hn) as ([l Hl] & Hsnd).
  destruct (steady_slot c c1 p n l) as (n' & Hs' & Hk'); [done|by apply slot_some|].
  exists (n', l). split; [done|]. rewrite bool_decide_eq_false_2 in Hpolled by congruence. cbn in Hpolled.
  destruct (reached cand c2 p) eqn:Hr.
  2: { rewrite !decide_False by naive_solver. by eapply sound_keeps. }
  rewrite decide_True by naive_solver. assert (p ∈ electorate c cand) as Hel by by apply elem_of_electorate_keys.
  destruct (Hold p n Hel Hn) as [Hterms Hc0]. pose proof (Hroom p n (or_intror Hel) Hn).
  destruct (ct_peers _ _ _ _ Hct p Hel) as (n2 & Hn2 & Hrp & _). rewrite Hn in Hn2. injection Hn2 as <-.
  specialize (Hpeers p Hel). unfold term_of in Hpeers. apply slot_some in Hs' as [Hn' _]. rewrite Hn' in Hpeers. cbn in Hpeers.
  pose proof Hk' as [_ Hlog' Hci' Hla' Hrd']. destruct Hsnd as [Ha' Hc']. unfold last_log_index in *.
  split; cbn [fst]; rewrite ?Hlog', ?Hlog, ?Hci', ?Hla'; try done; try lia.
  - by apply Hrd'.
  - rewrite record_size_app, record_size_cons. unfold record_size at 3. cbn. lia.
  - eapply Forall_impl; [exact Hterms|]. cbn. intros e He. unfold t. lia.
  - rewrite length_app. cbn. lia.
Qed.

(** From a healthy state the candidate wins one of its first elections, as many
    as the cluster has nodes, and what it is then given to replicate is
    acknowledged, and stored, committed and applied on its whole majority. *)
Lemma healthy_majority_makes_progress cand top c n0 cmd :
  healthy cand top c n0 cmd →
  ∃ c1 c2 t, elect_repeatedly (base.size (nodes c)) cand c = (Ok true, c1) ∧
    let index := last_log_index n0 + 1 in
    replicate cand cmd c1 = (Ok index, c2) ∧
    ∀ p, p = cand ∨ p ∈ electorate c cand →
      ∃ n l, nodes c2 !! p = Some n ∧ applied c2 !! p = Some (l ++ [cmd]) ∧
        log n !! Z.to_nat (index - 1) = Some (MkEntry t cmd) ∧
        last_log_index n = index ∧ commit_index n = index ∧ last_applied n = index.
Proof.
  intros Hh. pose proof Hh as [Hct Htop Hlinks Hsound Hold Hroom]. pose proof (ct_node _ _ _ _ Hct) as Hn0.
  destruct (elect_repeatedly_wins cand top (base.size (nodes c)) c n0) as (c1 & n1 & Helect & Hled);
    [done|done|by apply ahead_bound|]. exists c1. pose proof Hled as [Hst Hn1 Hrole Hterm _].
  destruct (Hsound _ _ Hn0) as ([l0 Hl0] & Hsa & Hsc). destruct (steady_slot c c1 cand n0 l0) as (m & Hs1 & Hk);
    [done|by apply slot_some|]. pose proof Hs1 as [Hm _]%slot_some. rewrite Hn1 in Hm. injection Hm as <-.
  pose proof Hk as [_ Hlog Hci _ Hrd]. specialize (Hrd (ct_ready _ _ _ _ Hct)). unfold last_log_index in *.
  set (t := current_term n1). destruct (append_as_leader_quiet cmd n1 Hrd Hrole) as (w & Happend & Hw).
  { pose proof (Hroom cand n0 (or_introl eq_refl) Hn0). pose proof (record_size_bound (log n0)). rewrite Hlog. lia. }
  destruct (ready_after_election cand top c n0 cmd c1 n1 l0 w Hh Hled Hs1 Hw) as [Hready Hcg]. fold t in Hready, Hcg, Happend.
  set (n2 := set_wal w (set_log (log n1 ++ [MkEntry t cmd]) n1)) in *. set (c2 := put_slot cand (n2, l0) c1) in *.
  assert (network c2 = network c1) as Hnet by (by eapply network_put).
  destruct (network_inv _ _ Hnet) as (Htr & Hstop & Hdom).
  assert (electorate c2 cand = electorate c cand) as Hel.
  { rewrite <- (steady_electorate c c1 cand Hst). unfold electorate. rewrite (z_keys_dom _ _ Hdom).
    apply List.filter_ext. intros p. unfold polled, is_stopped. by rewrite Htr, Hstop. }
  destruct (replicate_existing_quiet cand t (log n1) cmd c2) with (n := n2) (l := l0) as (c3 & Hrep & Hall); try done.
  - intros p. rewrite Htr, (st_transport _ _ Hst). apply Hlinks.
  - apply elem_of_dom. rewrite Hdom. apply elem_of_dom. eauto.
  - rewrite Hel, <- size_dom, Hdom, (steady_keys _ _ Hst), size_dom. apply Hct.
  - unfold c2. by rewrite slot_put, decide_True.
  - cbn. rewrite Hlog. lia.
  - set (idx := Z.of_nat (length (log n1 ++ [MkEntry t cmd]))) in *.
    assert (idx = Z.of_nat (length (log n0)) + 1) as Hidx by (unfold idx; rewrite length_app, Hlog; cbn; lia).
    exists c3, t. split; [exact Helect|]. rewrite Hel in Hall. cbv zeta. rewrite <- Hidx. split.
    + unfold replicate. run_steps. fold (is_stopped c1 cand). unfold is_stopped. rewrite (st_stopped _ _ Hst).
      fold (is_stopped c cand). rewrite (ct_running _ _ _ _ Hct), Hn1. cbn [ok_or]. run_steps.
      rewrite (M_bind_run _ _ _ _ _ (on_node_slot _ _ _ _ _ _ _ Hs1 Happend)). fold c2.
      rewrite (M_bind_run _ _ _ _ _ Hrep). destruct (Hall cand (or_introl eq_refl)) as ([n l] & Hs & l' & _ & _ & _ & Hcn & _).
      rewrite (M_bind_run _ _ _ _ _ (node_at_slot _ _ _ _ Hs)). cbn in Hcn. rewrite Hcn. by rewrite Z.ltb_irrefl.
    + intros p Hp. destruct (Hall p Hp) as ([n l] & [Hn Hl]%slot_some & l' & Heq & Hlast & Hlen & Hcn & Hap).
      cbn in Heq. subst l. by exists n, l'.
Qed.
