(* ===== verification/RaftProgress.v ===== *)
(** Progress of a cluster that has run: the state a led cluster reaches is such
    that, once a majority hears each other and its disks work, the candidate
    with the best log of them is elected and has its commands committed.  What
    RaftLiveness.v asks of the logs follows from log matching and leader
    completeness (RaftSafety.v). *)

From stdpp Require Import gmap.
From Stdlib Require Import Ascii.
From S2P Require Import Prelude Bytes Wal RaftNode RaftDurable Transport RaftCluster Election RaftElects.
From S2P Require Import RaftLogs RaftSteps RaftSafety RaftAgreement RaftCrash RaftConsensus RaftReplicates RaftLiveness.
Local Open Scope Z_scope.

(** ** Links *)

(** Partitions cut both ways. *)
Definition two_way (c : RaftCluster) : Prop :=
  ∀ x y, reachable (transport c) x y = true → reachable (transport c) y x = true.

Lemma two_way_on_node {A} id (m : node A) : stable two_way (on_node id m).
Proof. by apply stable_on_node. Qed.
#[local] Hint Resolve two_way_on_node : stable.

Lemma two_way_node_at id : stable two_way (node_at id).
Proof. apply node_at_stable. Qed.

Lemma two_way_ask candidate q peers votes : stable two_way (ask candidate q peers votes).
Proof. revert votes. induction peers as [|p peers IH]; intros votes; cbn [ask]; stable_tac. Qed.

Lemma two_way_back_off term leader commit l follower p : stable two_way (back_off term leader commit l follower p).
Proof. induction p as [|p IH]; cbn [back_off]; stable_tac. Qed.
#[local] Hint Resolve two_way_node_at two_way_ask two_way_back_off : stable.

Lemma two_way_match term leader commit l ids matched : stable two_way (match_followers term leader commit l ids matched).
Proof. revert matched. induction ids as [|f ids IH]; intros matched; cbn [match_followers]; stable_tac. Qed.

Lemma two_way_partition a b : stable two_way (partition a b).
Proof. intros c Hc x y. cbn. rewrite !reachable_partition. specialize (Hc x y). naive_solver. Qed.

Lemma two_way_heal : stable two_way heal_all.
Proof. intros c _ x y _. cbn. unfold reachable. rewrite bool_decide_eq_false_2; [done|]. apply not_elem_of_empty. Qed.
#[local] Hint Resolve two_way_match two_way_partition two_way_heal : stable.

Lemma two_way_elect candidate : stable two_way (elect candidate).
Proof. unfold elect. stable_tac. Qed.

Lemma two_way_replicate_existing leader : stable two_way (replicate_existing leader).
Proof. unfold replicate_existing, publish, apply_all, apply_one. stable_tac. Qed.
#[local] Hint Resolve two_way_elect two_way_replicate_existing : stable.

Lemma two_way_run_op o : stable two_way (run_op o).
Proof.
  destruct o; cbn [run_op]; unfold elect_by_timeout, RaftCluster.replicate, synchronize, isolate, stop, start; stable_tac.
Qed.

Lemma two_way_open dir files ids seed c : open dir files ids seed = Ok c → two_way c.
Proof.
  intros Ho%open_ok. revert Ho. assert (∀ c0, two_way c0 → open_nodes ids files seed c0 = Ok c → two_way c) as H.
  { induction ids as [|id ids IH]; intros c0 H0; cbn [open_nodes]; [by intros <-%ok_inj|].
    destruct (RaftNode.open id seed (files id)) as [[n| |] f]; [|done..]. by apply IH. }
  by apply H.
Qed.

Lemma two_way_lives c c' : two_way c → cluster_lives c c' → two_way c'.
Proof.
  intros Hc Hr. induction Hr as [c|c o c' _ _ IH|c envs c' _ IH|c o dir img ids seed c1 c' _ _ _ _ Ho _ IH].
  - done.
  - by apply IH, two_way_run_op.
  - by apply IH.
  - by eapply IH, two_way_open.
Qed.

(** ** Logs *)

(** A candidate with the best log of a majority has everything committed. *)
Lemma best_log_has_commits ws G cand top c n0 t l ci :
  safe ws G c → contender cand top c n0 → committed_in G t l ci → (ci ≤ length (log n0))%nat.
Proof.
  intros Hs Hct [->|(t1 & j & lt & Hc & _ & Hci & Hlt & _)]; [lia|].
  pose proof (ct_node _ _ _ _ Hct) as Hn0. destruct (sf_nodes _ _ _ Hs _ _ Hn0) as (l0 & _ & Hok0).
  destruct (safe_sizes ws G c t1 j (cand :: electorate c cand)) as (q & n & Hq & Hn & _ & lt' & Hlt' & Heq); try done.
  - split; [|pose proof (ct_majority _ _ _ _ Hct); cbn; lia]. constructor; [apply not_in_electorate|].
    apply NoDup_ListNoDup, List.NoDup_filter, NoDup_ListNoDup, NoDup_z_keys.
  - intros q [->|Hq]%elem_of_cons; [by eexists|]. by apply elem_of_electorate in Hq as [].
  - rewrite Hlt in Hlt'. injection Hlt' as <-. destruct (sf_nodes _ _ _ Hs _ _ Hn) as (ln & _ & Hokn).
    assert (up_to_date n n0 = true) as Hup.
    { apply elem_of_cons in Hq as [->|Hq].
      - rewrite Hn0 in Hn. injection Hn as <-. apply pair_ge_refl.
      - destruct (ct_peers _ _ _ _ Hct q Hq) as (n' & Hn' & _ & Hup). rewrite Hn in Hn'. by injection Hn' as <-. }
    pose proof (vote_completeness G t1 j lt (log n) (log n0) (sf_ghost _ _ _ Hs) Hc Hlt (nk_traced _ _ _ Hokn)
      (nk_traced _ _ _ Hok0) Heq Hup) as Hhas.
    pose proof (commit_length _ _ _ _ (sf_ghost _ _ _ Hs) Hc Hlt). pose proof (take_eq_length _ _ _ Hhas). lia.
Qed.

(** The entries of a log no better than another's are of no later term. *)
Lemma no_newer_entries G n l n0 l0 :
  ghost_ok G → node_ok G n l → node_ok G n0 l0 → up_to_date n n0 = true →
  Forall (λ e, term e ≤ current_term n0) (log n).
Proof.
  intros Hg Hn Hn0 Hup. apply Forall_lookup. intros i e Hi.
  destruct (last (log n)) as [ev|] eqn:Hev; [|apply last_None in Hev; by rewrite Hev in Hi].
  destruct (last_term_lookup _ _ _ Hev eq_refl) as [Hlast Hlt].
  assert (term e ≤ term ev) as Hle.
  { eapply (traced_ordered G _ Hg (nk_traced _ _ _ Hn)); [|exact Hi|exact Hlast]. apply lookup_lt_Some in Hi. lia. }
  assert (last_term (log n0) ≤ current_term n0) as Hc.
  { unfold last_term. pose proof (nk_pos _ _ _ Hn0). destruct (last (log n0)) as [e0|] eqn:He0; [|done].
    rewrite last_lookup in He0. by apply (Forall_lookup_1 _ _ _ _ (nk_terms _ _ _ Hn0) He0). }
  unfold up_to_date, pair_ge in Hup. fold (last_term (log n)) in Hlt.
  change (last_log_term n) with (last_term (log n)) in Hup. change (last_log_term n0) with (last_term (log n0)) in Hup.
  apply orb_true_iff in Hup as [Hup|[Hup _]%andb_true_iff]; zify_bools; lia.
Qed.

Lemma safe_healthy ws G cand top c n0 cmd :
  safe ws G c → two_way c → contender cand top c n0 → top < U64_MAX →
  (∀ p n, p = cand ∨ p ∈ electorate c cand → nodes c !! p = Some n →
     record_size (log n) + record_size (log n0) + Z.of_nat (length cmd) ≤ U32_MAX) →
  healthy cand top c n0 cmd.
Proof.
  intros Hs Hlinks Hct Htop Hroom. pose proof (sf_ghost _ _ _ Hs) as Hg.
  destruct (sf_nodes _ _ _ Hs _ _ (ct_node _ _ _ _ Hct)) as (l0 & _ & Hok0). split; try done.
  - intros p. apply Hlinks.
  - intros p n Hn. destruct (sf_nodes _ _ _ Hs _ _ Hn) as (l & Hl & Hok). split; [by eexists|].
    split; [apply Hok|]. by eapply committed_index.
  - intros p n Hp Hn. destruct (sf_nodes _ _ _ Hs _ _ Hn) as (l & Hl & Hok).
    destruct (ct_peers _ _ _ _ Hct p Hp) as (n' & Hn' & _ & Hup). rewrite Hn in Hn'. injection Hn' as <-. split.
    + by eapply no_newer_entries.
    + pose proof (best_log_has_commits _ _ _ _ _ _ _ _ _ Hs Hct (nk_commit _ _ _ Hok)) as Hlen.
      unfold last_log_index. lia.
Qed.

(** ** Theorems *)

(** C9. Progress.  Take a cluster opened on new files after any operations, disk
    failures and crashes, [synchronize] called only on a node that leads and
    crashes only where the files hold what the nodes have in memory.  Let a
    running candidate reach, in both directions, enough running nodes for a
    majority with itself, and let it and all the nodes it so reaches have disks
    that work from now on, and its log be at least as up to date as each of
    theirs; let no term of theirs be the last 64-bit one, and the logs leave room
    for the command in a record of 4 GiB.  Then the candidate wins one of its
    first elections, as many as the cluster has nodes; and what it is then given
    to replicate is acknowledged under the next index and, on itself and every
    node it reaches, stored under it, committed and applied last. *)
Theorem connected_majority_makes_progress dir files ids seed c0 c cand top n0 cmd :
  (∀ id, f_exists (files id) = false) → open dir files ids seed = Ok c0 → cluster_lives c0 c →
  contender cand top c n0 → top < U64_MAX →
  (∀ p n, p = cand ∨ p ∈ electorate c cand → nodes c !! p = Some n →
     record_size (log n) + record_size (log n0) + Z.of_nat (length cmd) ≤ U32_MAX) →
  ∃ c1 c2 t, elect_repeatedly (base.size (nodes c)) cand c = (Ok true, c1) ∧
    let index := last_log_index n0 + 1 in
    RaftCluster.replicate cand cmd c1 = (Ok index, c2) ∧
    ∀ p, p = cand ∨ p ∈ electorate c cand →
      ∃ n l, nodes c2 !! p = Some n ∧ applied c2 !! p = Some (l ++ [cmd]) ∧
        log n !! Z.to_nat (index - 1) = Some (MkEntry t cmd) ∧
        last_log_index n = index ∧ commit_index n = index ∧ last_applied n = index.
Proof.
  intros Hnew Ho Hr Hct Htop Hroom. apply (healthy_majority_makes_progress cand top).
  destruct (lives_safe _ _ _ _ (open_safe _ _ _ _ _ Hnew Ho) Hr) as (ws & G & Hs & _).
  eapply safe_healthy; try done. eapply two_way_lives; [|done]. by eapply two_way_open.
Qed.

(** Node 1 is in term 1; node 3, alone for two elections, and node 2, which led
    until it heard from node 3, are in term 3. *)
Definition scattered : RaftCluster :=
  after three_nodes
    [CElect 2; CReplicate 2 (as_bytes "a"); CIsolate 3; CElect 3; CElect 3; CHealAll; CSynchronize 2].
Definition node_1 : RaftNode := default (fresh_node 1 7) (nodes scattered !! 1).

(** Decide a closed statement. *)
Ltac decided := apply (bool_decide_unpack _); vm_compute; exact I.

Lemma scattered_nodes :
  map_Forall (λ p n, (ready n ∧ up_to_date n node_1 = true) ∧ current_term n ≤ 9 ∧
    record_size (log n) + record_size (log node_1) + 1 ≤ U32_MAX) (nodes scattered).
Proof. unfold ready. decided. Qed.

Lemma scattered_node_1 : nodes scattered !! 1 = Some node_1.
Proof. vm_compute. reflexivity. Qed.

Lemma scattered_contender : contender 1 9 scattered node_1.
Proof.
  pose proof scattered_nodes as Hall. split.
  - exact scattered_node_1.
  - vm_compute. reflexivity.
  - apply (Hall 1 node_1 scattered_node_1).
  - intros p [[n Hn] _]%elem_of_electorate. exists n. split; [exact Hn|]. apply (Hall p n Hn).
  - vm_compute. reflexivity.
  - intros p Hp. assert (is_Some (nodes scattered !! p)) as [n Hn].
    { destruct Hp as [->|[Hp _]%elem_of_electorate]; [exact (ex_intro _ _ scattered_node_1)|exact Hp]. }
    unfold term_of. rewrite Hn. apply (Hall p n Hn).
Qed.

Lemma connected_majority_makes_progress_witness :
  let cmd := as_bytes "b" in let c := scattered in
  (∀ id, f_exists ((λ _ : Z, absent) id) = false) ∧ open (Ok tt) (λ _, absent) [1; 2; 3] 7 = Ok three_nodes ∧
  cluster_lives three_nodes c ∧ contender 1 9 c node_1 ∧ 9 < U64_MAX ∧ (elect 1 c).1 = Ok false ∧
  ∃ c1 c2 t, elect_repeatedly (base.size (nodes c)) 1 c = (Ok true, c1) ∧
    let index := last_log_index node_1 + 1 in
    RaftCluster.replicate 1 cmd c1 = (Ok index, c2) ∧
    ∀ p, p = 1 ∨ p ∈ electorate c 1 →
      ∃ n l, nodes c2 !! p = Some n ∧ applied c2 !! p = Some (l ++ [cmd]) ∧
        log n !! Z.to_nat (index - 1) = Some (MkEntry t cmd) ∧
        last_log_index n = index ∧ commit_index n = index ∧ last_applied n = index.
Proof.
  intros cmd c. assert (∀ id, f_exists ((λ _ : Z, absent) id) = false) as H1 by reflexivity.
  assert (open (Ok tt) (λ _, absent) [1; 2; 3] 7 = Ok three_nodes) as H2 by (vm_compute; reflexivity).
  assert (cluster_lives three_nodes c) as H3 by (apply after_lives; vm_compute; reflexivity).
  assert (9 < U64_MAX) as H4 by (vm_compute; reflexivity).
  assert ((elect 1 c).1 = Ok false) as H5 by (vm_compute; reflexivity).
  refine (conj H1 (conj H2 (conj H3 (conj scattered_contender (conj H4 (conj H5
    (connected_majority_makes_progress _ _ _ _ _ _ 1 9 node_1 cmd H1 H2 H3 scattered_contender H4 _))))))).
  intros p n _ Hn. apply (scattered_nodes p n Hn).
Defined.
