(* ===== verification/Cli.v ===== *)
(** The command line: src/src/main.rs.

    [invocation] is the choice [main] makes from its arguments, [run] what it
    then does to the files of the data directory, the network and the standard
    output.  [serve_config] and [client_config] read the arguments of [serve] and
    [client]; the server that [serve] then starts is that of Server.v and
    Connection.v.  The demonstration and the benchmark are not modelled.  The
    commands on keys are proved to act on the store as on a map that survives
    power failures (CliSpec.v). *)

From stdpp Require Import gmap.
From Stdlib Require Import Ascii.
From S2P Require Import Prelude Bytes Wal Command Mvcc BTree BTreeFile Store StoreSpec SqlAst Catalog Engine Words Frame Server Client Connection.

(** ** The choice of a command *)

Inductive Invocation : Type :=
| Demo
| SetKey (key value : string)
| GetKey (key : string)
| ListKeys
| Sql (source : string)
| Serve (args : list string)
| Cluster (args : list string)
| Bench
| Usage (message : string).

Definition invocation (args : list string) : Invocation :=
  let command := default "demo" (head args) in
  if decide (command = "demo") then Demo else
  if decide (command = "set") then
    match args with _ :: key :: value :: _ => SetKey key value | _ => Usage "set <key> <value>" end else
  if decide (command = "get") then
    match args with _ :: key :: _ => GetKey key | _ => Usage "get <key>" end else
  if decide (command = "list") then ListKeys else
  if decide (command = "sql") then
    match args with _ :: source :: _ => Sql source | _ => Usage "sql <statement(s)>" end else
  if decide (command = "serve") then Serve (tail args) else
  if decide (command = "client") then Cluster (tail args) else
  if decide (command = "bench") then Bench else
  Usage ("unknown command '" +:+ command +:+ "'").

Definition invalid_argument (message : string) : io_error := invalid_input message.

Definition usage_error (message : string) : io_error :=
  invalid_input ("usage: nutdb [demo | bench | set/get/list | sql | serve | client --nodes ID=ADDR,... put/get/delete]  ("
                 +:+ message +:+ ")").

(** [args.windows(2).find(..)] *)
Fixpoint flag (args : list string) (name : string) : io string :=
  match args with
  | a :: ((value :: _) as rest) => if decide (a = name) then Ok value else flag rest name
  | _ => Err (invalid_argument ("serve: missing " +:+ name))
  end.

(** ** What a run works on *)

(** What [serve] listens on: whether its directory can be made and its socket
    bound, the socket's address, the files of the directory, what each round of
    the loop finds, and the connections closed. *)
Record Tcp : Type := MkTcp {
  t_directory : io unit; t_listener : io unit; t_local : io string;
  t_disk : disk; t_rounds : list incoming; t_closed : list Stream;
}.

(** The store's files, the SQL log, the network, the server's side of it and the
    lines printed. *)
Record World : Type := MkWorld { w_disk : disk; w_sql : file; w_net : Net; w_tcp : Tcp; w_out : list string }.

Abbreviation program := (M World io_error).

Definition set_disk (d : disk) (w : World) : World := MkWorld d (w_sql w) (w_net w) (w_tcp w) (w_out w).
Definition set_sql (f : file) (w : World) : World := MkWorld (w_disk w) f (w_net w) (w_tcp w) (w_out w).
Definition set_net (n : Net) (w : World) : World := MkWorld (w_disk w) (w_sql w) n (w_tcp w) (w_out w).
Definition set_tcp (t : Tcp) (w : World) : World := MkWorld (w_disk w) (w_sql w) (w_net w) t (w_out w).
Definition set_served (d : disk) (closed : list Stream) (t : Tcp) : Tcp :=
  MkTcp (t_directory t) (t_listener t) (t_local t) d (t_rounds t) closed.

Definition println (line : string) : program unit :=
  modify (λ w, MkWorld (w_disk w) (w_sql w) (w_net w) (w_tcp w) (w_out w ++ [line])).

(** A method of the store or of the engine the run has opened: its files are the run's. *)
Definition disk_of (s : Store) : disk := Disk (Store.wal s) (page_dir s).
Definition on_store {A} (s : Store) (m : store A) : program A := λ w,
  let '(r, s') := m s in (r, set_disk (disk_of s') w).
Definition on_engine {A} (e : Engine) (m : engine A) : program A := λ w,
  let '(r, e') := m e in (r, set_sql (Mvcc.wal (e_store e')) w).
Definition on_net {A} (m : client A) : program A := zoom w_net set_net m.

(** ** The commands *)

Definition set (key value : string) : program unit :=
  s ← zoom w_disk set_disk Store.open;
  _ ← on_store s (Store.set key value);
  println ("set " +:+ key +:+ " = " +:+ value).

Definition get (key : string) : program unit :=
  s ← zoom w_disk set_disk Store.open;
  value ← lift (Store.get s key);
  println (default "(nil)" value).

Definition list_keys : program unit :=
  s ← zoom w_disk set_disk Store.open;
  keys ← lift (keys_sorted s);
  for_each keys (λ key, value ← lift (Store.get s key); println (key +:+ " = " +:+ default "" value)).

(** [[String]::join(" | ")] *)
Fixpoint join_bars (words : list string) : string :=
  match words with [] => "" | [w] => w | w :: rest => w +:+ " | " +:+ join_bars rest end.

Definition print_result (r : SqlResult) : program unit :=
  match r with
  | RAffected count => println (pretty count +:+ " row(s) affected")
  | RRows columns rows => _ ← println (join_bars columns); for_each rows (λ row, println (join_bars (value_text <$> row)))
  | RBegun => println "BEGIN"
  | RCommitted => println "COMMIT"
  | RRolledBack => println "ROLLBACK"
  | RExplain plan => println plan
  end.

Definition sql (source : string) : program unit :=
  e ← zoom w_sql set_sql open_engine;
  results ← on_engine e (execute source);
  for_each results print_result.

Section addresses.
(** [SocketAddr]'s text. *)
Context {Address : Type} (parse_address : string → option Address).

(** One [id=address] of a list. *)
Definition parse_node (form bad_id bad_address : string) (text : string) : io (Z * Address) :=
  '(id, address) ← ok_or (split_once "="%char (as_bytes text)) (invalid_argument form);
  id ← ok_or (parse_unsigned id) (invalid_argument bad_id);
  address ← ok_or (parse_address (of_bytes address)) (invalid_argument bad_address);
  Ok (id, address).

(** The loop over the pieces, inserting into a map. *)
Fixpoint parse_nodes (form bad_id bad_address : string) (pieces : list string) (nodes : gmap Z Address)
  : io (gmap Z Address) :=
  match pieces with
  | [] => Ok nodes
  | piece :: pieces =>
    '(id, address) ← parse_node form bad_id bad_address piece;
    parse_nodes form bad_id bad_address pieces (<[id := address]> nodes)
  end.

Definition pieces (text : string) : list string := of_bytes <$> split_on ","%char (as_bytes text).

Record ServeConfig : Type := MkServe { sc_id : Z; sc_listen : Address; sc_data : string; sc_peers : gmap Z Address }.

Definition serve_config (args : list string) : io ServeConfig :=
  id ← flag args "--id";
  id ← ok_or (parse_unsigned (as_bytes id)) (invalid_argument "serve: --id must be an integer");
  listen ← flag args "--listen";
  listen ← ok_or (parse_address listen) (invalid_argument "serve: invalid --listen address");
  data ← flag args "--data";
  peer_list ← flag args "--peers";
  peers ← (if decide (peer_list = "") then Ok ∅ else
           parse_nodes "serve: peers are id=address" "serve: invalid peer id" "serve: invalid peer address" (pieces peer_list) ∅);
  Ok (MkServe id listen data peers).

(** The nodes and the place of the command. *)
Definition client_config (args : list string) : io (gmap Z Address * nat) :=
  nodes ← flag args "--nodes";
  nodes ← parse_nodes "client: nodes are id=address" "client: invalid node id" "client: invalid node address" (pieces nodes) ∅;
  command ← ok_or (list_find (λ arg, arg = "put" ∨ arg = "get" ∨ arg = "delete") args)
                  (invalid_argument "client: expected put/get/delete");
  Ok (nodes, command.1).

(** The server's loop: its store's files and the network are the run's. *)
Definition serving (server : Server Store) : program unit := λ w,
  let '(r, ((server, n), closed)) := Connection.run (t_rounds (w_tcp w)) ((server, w_net w), []) in
  (r, set_net n (set_tcp (set_served (disk_of (db server)) closed (w_tcp w)) w)).

Definition serve (args : list string) : program unit :=
  config ← lift (serve_config args);
  t ← (w ← get_state; mret (w_tcp w));
  server ← zoom (λ w, t_disk (w_tcp w)) (λ d w, set_tcp (set_served d [] (w_tcp w)) w)
             (bind (sc_id config) (merge_sort Z.le (map_to_list (sc_peers config)).*1) (t_directory t) (t_listener t));
  local ← lift (t_local t);
  _ ← println ("node " +:+ pretty (sc_id config) +:+ " listening on " +:+ local);
  serving server.

Definition cluster_client (args : list string) : program unit :=
  '(nodes, command_at) ← lift (client_config args);
  let client := Client.new (merge_sort Z.le (map_to_list nodes).*1) in
  command ← lift (index args command_at);
  if decide (command = "put") then
    key ← lift (ok_or (args !! (command_at + 1)) (invalid_argument "client put: missing key"));
    value ← lift (ok_or (args !! (command_at + 2)) (invalid_argument "client put: missing value"));
    _ ← on_net (Client.put client key value);
    println "ok"
  else if decide (command = "get") then
    key ← lift (ok_or (args !! (command_at + 1)) (invalid_argument "client get: missing key"));
    value ← on_net (Client.get client key);
    println (default "(nil)" value)
  else if decide (command = "delete") then
    key ← lift (ok_or (args !! (command_at + 1)) (invalid_argument "client delete: missing key"));
    _ ← on_net (Client.delete client key);
    println "ok"
  else panic "position filter".

(** [None]: the demonstration and the benchmark. *)
Definition run (i : Invocation) : option (program unit) :=
  match i with
  | SetKey key value => Some (set key value)
  | GetKey key => Some (get key)
  | ListKeys => Some list_keys
  | Sql source => Some (sql source)
  | Cluster args => Some (cluster_client args)
  | Serve args => Some (serve args)
  | Usage message => Some (fail (usage_error message))
  | Demo | Bench => None
  end.
End addresses.

(** How [main] ends: its exit status, and what it prints to the standard error. *)
Definition exit (r : io unit) : nat * list string :=
  match r with
  | Ok _ => (0, [])
  | Err e => (1, ["nutdb: " +:+ err_msg e])
  | Panic p => (101, [p])
  end.
