(* ===== verification/CliSpec.v ===== *)
(** The commands on keys act on the data directory as on a map: a run prints what
    the map says and leaves the changed map on disk, and a power failure inside a
    [set] leaves the map before it or after it. *)

From stdpp Require Import gmap.
From Stdlib Require Import Ascii.
From S2P Require Import Prelude Bytes Wal Command BTree BTreeFile SnapshotSpec Store StoreSpec Frame Server Connection Cli.

(** ** Files at rest *)

Definition still (f : file) : Prop := f_env f = [] ∧ f_reads f = [].

Lemma stable_still_sys : stable still sys_call.
Proof. intros f Hf. unfold sys_call, next_sys, mbind, M_bind. destruct f as [x c s e r], Hf as [He Hr]. cbn in *. by subst. Qed.
Lemma stable_still_content bs : stable still (set_content bs).
Proof. by apply stable_modify. Qed.
#[local] Hint Resolve stable_still_sys stable_still_content : stable.
Lemma stable_still_sync : stable still sync_all.
Proof. unfold sync_all. stable_tac. Qed.
Lemma stable_still_create : stable still create_file.
Proof. unfold create_file. stable_tac. Qed.
#[local] Hint Resolve stable_still_sync stable_still_create : stable.
Lemma stable_still_set_len n : stable still (set_len n).
Proof. unfold set_len. stable_tac. Qed.
#[local] Hint Resolve stable_still_set_len : stable.
Lemma stable_still_truncate n : stable still (truncate_path n).
Proof. unfold truncate_path. stable_tac. Qed.
Lemma stable_still_open_read : stable still open_read.
Proof. unfold open_read. stable_tac. Qed.
#[local] Hint Resolve stable_still_truncate stable_still_open_read : stable.
Lemma stable_still_replay : stable still replay.
Proof.
  intros f Hf. unfold replay. pose proof (stable_still_open_read f Hf) as H1.
  destruct (open_read f) as [[u|e|p] f1]; cbn in H1; [|done..].
  match goal with |- still (snd (?m f1)) => assert (stable still m) as Hm by stable_tac end. by apply Hm.
Qed.
Lemma stable_still_append p : stable still (append p).
Proof.
  unfold append. apply stable_bind; [stable_tac|]. intros len f Hf. unfold write_all, mbind, M_bind, get_state, next_sys.
  destruct f as [x c s e r], Hf as [He Hr]. cbn in *. by subst.
Qed.
#[local] Hint Resolve stable_still_replay stable_still_append : stable.

(** A store whose files no script disturbs any more. *)
Definition rested (s : Store) : Prop := still (Store.wal s) ∧ d_env (page_dir s) = [].

Lemma rested_disk s m : store_ok s m → rested s → disk_ok (disk_of s) m.
Proof.
  intros [_ Hpast Hpar (cs & [Hx Hc Hs Hl] & Hb)] [[He Hr] Hd]. split; [done..|]. exists cs. split; [done|].
  split; [done|]. right. exists (logged cs), []. split.
  - unfold disk_of, stored. cbn. destruct (Store.wal s) as [x c y e r]. cbn in *. by subst.
  - rewrite <- (app_nil_r (logged cs)). apply replays_log; [by apply loggable_small|apply torn_nil].
Qed.

Lemma on_log_snapshot {A} (m : M file io_error A) d r d' :
  stable still m → on_log m d = (r, d') → still (log d) → still (log d') ∧ snapshot d' = snapshot d.
Proof.
  intros Hm Hrun Hd. unfold on_log, zoom in Hrun. specialize (Hm (log d) Hd). destruct (m (log d)) as [a f].
  injection Hrun as <- <-. done.
Qed.

Lemma open_rested d m :
  disk_ok d m → ∃ s, Store.open d = (Ok s, disk_of s) ∧ store_ok s m ∧ rested s.
Proof.
  intros Hok. destruct (open_spec d m Hok) as (s & d' & Hrun & Hs). exists s.
  destruct Hok as [_ _ Henv (cs & _ & [(b & mb & _ & Hsv & Hl & _)] & Hlog)].
  assert (still (log d)) as Hstill by (destruct Hlog as [[-> _]|(c & t & -> & _)]; done).
  pose proof Hrun as Hopen. unfold Store.open in Hopen.
  apply M_bind_ok in Hopen as (r & d1 & Hr & Hopen).
  destruct (on_log_snapshot _ _ _ _ stable_still_replay Hr Hstill) as [Hs1 Hsn1].
  apply M_bind_ok in Hopen as (t & d2 & Ht & Hopen).
  destruct (load_spec b (snapshot d) Hl (savable_ok _ Hsv) Henv) as (dr & Hload & _ & _ & _ & _ & Hdenv).
  unfold on_snapshot, zoom in Ht. rewrite Hsn1, Hload in Ht. injection Ht as <- <-.
  destruct (apply_records (records r) b) as [applied t']. apply M_bind_ok in Hopen as (u & d3 & Ha & Hopen).
  injection Ha as _ <-. apply M_bind_ok in Hopen as (u1 & d4 & Htr & Hopen).
  assert (still (log d4) ∧ snapshot d4 = dr) as [Hs4 Hsn4].
  { destruct (truncated r); [|injection Htr as _ <-; done].
    by apply (on_log_snapshot _ _ _ _ (stable_still_truncate _)) in Htr. }
  apply M_bind_ok in Hopen as (u2 & d5 & Ho & Hopen).
  destruct (on_log_snapshot _ _ _ _ stable_still_create Ho Hs4) as [Hs5 Hsn5].
  injection Hopen as <- <-. split; [|split; [done|]].
  - rewrite Hrun. by destruct d5.
  - split; [done|]. cbn. congruence.
Qed.

Lemma set_rested key value s m :
  store_ok s m → rested s → room m → command_strings (CSet key value) → small (encode (CSet key value)) →
  ∃ s', Store.set key value s = (Ok tt, s') ∧ store_ok s' (<[key := value]> m) ∧ rested s'.
Proof.
  intros Hs [[He Hr] Hd] Hroom Hc Hsmall.
  assert (∃ s', Store.set key value s = (Ok tt, s') ∧ rested s') as (s' & Hrun & Hrest).
  { destruct (append_quiet (encode (CSet key value)) (Store.wal s) He) as (f1 & Ha & He1); [apply Hsmall|].
    pose proof (stable_still_append (encode (CSet key value)) (Store.wal s) (conj He Hr)) as Hst1. rewrite Ha in Hst1.
    destruct (sync_quiet f1 He1) as (f2 & Hsy & _). pose proof (stable_still_sync f1 Hst1) as Hst2.
    change (sync_all f1) with (sync f1) in Hst2. rewrite Hsy in Hst2.
    destruct (apply_memory_spec (CSet key value) (data s) m Hc (so_data _ _ Hs)) as (t & Ht & _).
    eexists. split.
    - unfold Store.set, apply.
      rewrite (M_bind_run _ _ _ tt (Store.set_wal f1 s)) by (unfold on_wal, zoom; by rewrite Ha).
      rewrite (M_bind_run _ _ _ tt (Store.set_wal f2 s)) by (unfold on_wal, zoom; cbn [Store.wal Store.set_wal]; by rewrite Hsy).
      unfold on_data, zoom. cbn [data Store.set_wal]. by rewrite Ht.
    - split; [exact Hst2|exact Hd]. }
  exists s'. split; [done|]. split; [|done].
  destruct (run_op_spec (OpSet key value) s m (Ok tt) s' Hs Hroom) as [Hok _]; [by apply Forall_singleton|done|].
  by apply Hok.
Qed.

(** ** The commands *)

(** What a command on keys prints, and the map it leaves. *)
Definition answer (i : Invocation) (m : gmap string string) : option (list string * gmap string string) :=
  match i with
  | SetKey key value => Some (["set " +:+ key +:+ " = " +:+ value], <[key := value]> m)
  | GetKey key => Some ([default "(nil)" (m !! key)], m)
  | ListKeys => Some ((λ '(key, value), key +:+ " = " +:+ value) <$> btree_iter m, m)
  | _ => None
  end.

(** Its arguments are Rust strings that fit a record of the log. *)
Definition fits (i : Invocation) : Prop :=
  match i with
  | SetKey key value => command_strings (CSet key value) ∧ small (encode (CSet key value))
  | _ => True
  end.

Section runs.
Context {Address : Type} (parse_address : string → option Address).

Lemma print_all (keys : list string) (f : string → string) (g : string → program unit) w :
  (∀ key w, key ∈ keys → g key w = println (f key) w) →
  for_each keys g w = (Ok tt, MkWorld (w_disk w) (w_sql w) (w_net w) (w_tcp w) (w_out w ++ (f <$> keys))).
Proof.
  revert w. induction keys as [|key keys IH]; intros w Hg; cbn [for_each fmap list_fmap].
  - rewrite app_nil_r. by destruct w.
  - unfold mbind, M_bind. rewrite Hg by constructor. unfold println, modify. rewrite IH by (intros; apply Hg; by constructor).
    cbn. by rewrite <- app_assoc.
Qed.

Lemma list_text m :
  ((λ key, key +:+ " = " +:+ default "" (m !! key)) <$> btree_keys m)
  = ((λ '(key, value), key +:+ " = " +:+ value) <$> btree_iter m).
Proof.
  unfold btree_keys. rewrite <- list_fmap_compose. apply list_fmap_ext. intros i [k v] Hi. cbn.
  apply list_elem_of_lookup_2, elem_of_btree_iter in Hi. by rewrite Hi.
Qed.

(** A command on a disk that holds the map [m]. *)
Lemma run_answers i m lines m' w :
  answer i m = Some (lines, m') → fits i → room m → disk_ok (w_disk w) m →
  ∃ p w', run parse_address i = Some p ∧ p w = (Ok tt, w') ∧ disk_ok (w_disk w') m' ∧
    w_sql w' = w_sql w ∧ w_net w' = w_net w ∧ w_out w' = w_out w ++ lines.
Proof.
  intros Ha Hf Hroom Hd. destruct (open_rested _ _ Hd) as (s & Hopen & Hs & Hrest).
  assert (∀ A (f : Store → program A), (zoom w_disk set_disk Store.open ≫= f) w = f s (set_disk (disk_of s) w)) as Hrun.
  { intros A f. unfold mbind, M_bind, zoom. by rewrite Hopen. }
  pose proof (rested_disk _ _ Hs Hrest) as Hd'. pose proof (store_serves _ _ Hs) as Hsv.
  destruct i; try discriminate; injection Ha as <- <-; eexists; cbn [run]; unfold set, get, list_keys.
  - destruct Hf as [Hc Hsm]. destruct (set_rested key value s m Hs Hrest Hroom Hc Hsm) as (s' & Hset & Hs' & Hrest').
    eexists. split; [done|]. rewrite Hrun. unfold on_store, mbind, M_bind. rewrite Hset. split; [reflexivity|].
    split; [by apply rested_disk|done].
  - eexists. split; [done|]. rewrite Hrun, (sv_get _ _ Hsv). run_steps. split; [reflexivity|]. done.
  - eexists. split; [done|]. rewrite Hrun, (sv_keys _ _ Hsv). run_steps.
    rewrite (print_all _ (λ key, key +:+ " = " +:+ default "" (m !! key))).
    + split; [reflexivity|]. cbn. by rewrite list_text.
    + intros key w' _. rewrite (sv_get _ _ Hsv). by run_steps.
Qed.

(** ** A machine that runs commands *)

Definition on_keys (i : Invocation) : bool := match i with SetKey _ _ | GetKey _ | ListKeys => true | _ => false end.

(** What a run shows: its exit status, what it printed to the standard error and
    to the standard output; nothing when the power failed. *)
Definition shown : Type := option (nat * list string * list string).

(** Runs one after another on a new data directory whose system calls succeed,
    and power failures in the middle of a [set], whatever had failed before. *)
Inductive machine : list (list string * shown) → disk → Prop :=
| machine_new : machine [] new_disk
| machine_ran es args p w r w' :
    machine es (w_disk w) → on_keys (invocation args) = true → fits (invocation args) → w_out w = [] →
    run parse_address (invocation args) = Some p → p w = (r, w') →
    machine (es ++ [(args, Some (exit r, w_out w'))]) (w_disk w')
| machine_cut es key value s d d1 e e' r s1 d' :
    machine es d → fits (SetKey key value) → Store.open d = (Ok s, d1) →
    Store.set key value (with_env e e' s) = (r, s1) → crash_store s1 d' →
    machine (es ++ [(["set"; key; value], None)]) d'.

(** The same over a map. *)
Inductive told : list (list string * shown) → gmap string string → Prop :=
| told_new : told [] ∅
| told_ran es args m lines m' :
    told es m → answer (invocation args) m = Some (lines, m') → told (es ++ [(args, Some (0, [], lines))]) m'
| told_cut es key value m m' :
    told es m → m' = m ∨ m' = <[key := value]> m → told (es ++ [(["set"; key; value], None)]) m'.

Lemma told_size es m : told es m → base.size m ≤ length es.
Proof.
  induction 1 as [|es args m lines m' _ IH Ha|es key value m m' _ IH Hm]; [by rewrite map_size_empty|..];
    rewrite length_app; cbn.
  - destruct (invocation args); try discriminate; injection Ha as _ <-; [|lia..].
    pose proof (size_apply [CSet key value] m). cbn in *. lia.
  - destruct Hm as [->| ->]; [lia|]. pose proof (size_apply [CSet key value] m). cbn in *. lia.
Qed.

Lemma answer_on_keys i m : on_keys i = true → ∃ lines m', answer i m = Some (lines, m').
Proof. destruct i; try discriminate; cbn; eauto. Qed.

Lemma machine_told es d :
  machine es d → (Z.of_nat (S (length es)) < U64_MAX)%Z → ∃ m, told es m ∧ disk_ok d m.
Proof.
  induction 1 as [|es args p w r w' _ IH Hk Hf Hout Hp Hrun|es key value s d d1 e e' r s1 d' _ IH Hf Hopen Hset Hcr];
    rewrite ?length_app; intros Hlen.
  - exists ∅. split; [constructor|apply new_disk_ok].
  - destruct IH as (m & Hm & Hd); [lia|]. pose proof (told_size _ _ Hm).
    destruct (answer_on_keys (invocation args) m Hk) as (lines & m' & Ha).
    destruct (run_answers _ _ _ _ w Ha Hf ltac:(unfold room; lia) Hd) as (p' & w1 & Hp' & Hrun' & Hd' & _ & _ & Ho).
    rewrite Hp in Hp'. injection Hp' as <-. rewrite Hrun in Hrun'. injection Hrun' as -> ->.
    exists m'. split; [|done]. rewrite Ho, Hout. cbn. by econstructor.
  - destruct IH as (m & Hm & Hd); [lia|]. pose proof (told_size _ _ Hm).
    destruct (open_spec _ _ Hd) as (s' & d2 & Hopen' & Hs). rewrite Hopen in Hopen'. injection Hopen' as <- <-.
    destruct (run_op_spec (OpSet key value) _ m r s1 (with_env_ok e e' s m Hs)) as [_ Hsv];
      [unfold room; lia|by apply Forall_singleton, Hf|done|].
    destruct (Hsv ltac:(done) d' Hcr) as (m' & (j & -> & _) & Hd'). eexists. split; [|exact Hd'].
    econstructor; [exact Hm|]. destruct j as [|j]; [by left|right]. cbn. by rewrite take_nil.
Qed.

(** C2. The commands [set], [get] and [list] are a map on disk.  Whatever runs
    follow each other on a data directory, and wherever the power fails inside a
    [set], each run succeeds and prints what a map says that holds every [set]
    that ended, and of a [set] that was cut either all or nothing. *)
Theorem commands_keep_a_map es d :
  machine es d → (Z.of_nat (S (length es)) < U64_MAX)%Z →
  ∃ m, told es m ∧
    ∀ args w, on_keys (invocation args) = true → fits (invocation args) → w_disk w = d → w_out w = [] →
      ∃ p w' lines m', run parse_address (invocation args) = Some p ∧ p w = (Ok tt, w') ∧
        answer (invocation args) m = Some (lines, m') ∧ w_out w' = lines.
Proof.
  intros Hm Hlen. destruct (machine_told es d Hm Hlen) as (m & Ht & Hd). exists m. split; [done|].
  intros args w Hk Hf <- Hout. pose proof (told_size _ _ Ht). destruct (answer_on_keys (invocation args) m Hk) as (lines & m' & Ha).
  destruct (run_answers _ _ _ _ w Ha Hf ltac:(unfold room; lia) Hd) as (p & w' & Hp & Hrun & _ & _ & _ & Ho).
  rewrite Hout in Ho. eauto 10.
Qed.
End runs.

(** A key is set; the power fails while it is set again, in the sync; it is read. *)
Definition no_net : Net := MkNet [] [].
Definition no_tcp : Tcp := MkTcp (Ok tt) (Ok tt) (Ok "") new_disk [] [].
Definition world (d : disk) : World := MkWorld d absent no_net no_tcp [].
Definition ran (args : list string) (d : disk) : io unit * World :=
  match run (λ _, None : option unit) (invocation args) with Some p => p (world d) | None => (Ok tt, world d) end.
Definition set_once : disk := w_disk (ran ["set"; "k"; "v"] new_disk).2.
Definition reopened : Store := opened set_once.
Definition cut_set : Store := (Store.set "k" "w" (with_env [SysOk; crash] [] reopened)).2.
Definition after_cut : disk := cut_disk cut_set.
Definition sample_runs : list (list string * shown) :=
  [(["set"; "k"; "v"], Some (0, [], ["set k = v"])); (["set"; "k"; "w"], None)].

Lemma fits_run key value : fits (SetKey key value) ↔
  (is_str key ∧ is_str value) ∧ u32_range (Z.of_nat (length (encode (CSet key value)))).
Proof. done. Qed.

Lemma sample_machine : machine (λ _, None : option unit) sample_runs after_cut.
Proof.
  apply (machine_cut _ [(["set"; "k"; "v"], Some (0, [], ["set k = v"]))] "k" "w" reopened set_once
           (disk_of reopened) [SysOk; crash] [] (Store.set "k" "w" (with_env [SysOk; crash] [] reopened)).1 cut_set).
  - refine (machine_ran (λ _, None : option unit) [] ["set"; "k"; "v"] (set "k" "v") (world new_disk) (Ok tt)
              (ran ["set"; "k"; "v"] new_disk).2 _ _ _ _ _ _).
    + constructor.
    + reflexivity.
    + apply fits_run. by split; [split|split]; vm_compute.
    + reflexivity.
    + reflexivity.
    + vm_compute. reflexivity.
  - apply fits_run. by split; [split|split]; vm_compute.
  - vm_compute. reflexivity.
  - vm_compute. reflexivity.
  - apply cut_crash.
Qed.

Lemma commands_keep_a_map_witness :
  machine (λ _, None : option unit) sample_runs after_cut ∧ (Z.of_nat (S (length sample_runs)) < U64_MAX)%Z ∧
  w_out (ran ["get"; "k"] after_cut).2 = ["v"] ∧
  ∃ m, told sample_runs m ∧
    ∀ args w, on_keys (invocation args) = true → fits (invocation args) → w_disk w = after_cut → w_out w = [] →
      ∃ p w' lines m', run (λ _, None : option unit) (invocation args) = Some p ∧ p w = (Ok tt, w') ∧
        answer (invocation args) m = Some (lines, m') ∧ w_out w' = lines.
Proof.
  assert (Z.of_nat (S (length sample_runs)) < U64_MAX)%Z as H by reflexivity.
  split; [exact sample_machine|]. split; [exact H|]. split; [vm_compute; reflexivity|].
  exact (commands_keep_a_map (λ _, None : option unit) sample_runs after_cut sample_machine H).
Defined.

(** A node alone, started on an empty directory, serves a PUT and a GET. *)
Definition alone : World :=
  MkWorld new_disk absent no_net
    (MkTcp (Ok tt) (Ok tt) (Ok "[::1]:7001") new_disk [knock (Some "PUT 6b 61"); WouldBlock; knock (Some "GET 6b")] []) [].
Example serve_alone :
  (λ p, let '(r, w) := p alone in (r, w_out w, s_out <$> t_closed (w_tcp w)))
    <$> run Some (invocation ["serve"; "--listen"; "[::1]:7001"; "--id"; "1"; "--peers"; ""; "--data"; "d"])
  = Some (Ok tt, ["node 1 listening on [::1]:7001"], [sent "OK 1"; sent "VALUE 61"]).
Proof. vm_compute. reflexivity. Qed.
